(* ===== verification/_CoqProject ===== *)
-Q . S2P
Prelude.v
LegacyCodec.v
ObjTypes.v
ListToken.v
ImageCodec.v
CodecProps.v
Rows.v
IndexCapture.v
KeyIndex.v
IndexWf.v
IndexSteps.v
IndexInv.v
IndexMachine.v
IndexLww.v
IndexRebuild.v
Image.v
ImageProps.v
ImageSizing.v
ImageRound.v
ListIndex.v
ListProps.v
Install.v
InstallProps.v
InstallInv.v
Stage.v
Replay.v
StageProps.v
Donor.v
DonorProps.v
FollowerPort.v
FollowerProps.v
Control.v
ControlPending.v
ControlStore.v
ControlProps.v
ControlScan.v
ControlKeys.v
ControlClaims.v
ControlDemo.v
ControlS3.v
Wire.v
Coherence.v
CoherenceProps.v
Apply.v
ApplyProps.v
Tier.v
TierFence.v
TierInv.v
Proxy.v
Mutation.v
ProxyView.v
ProxySpec.v
ProxyReads.v
ProxyWrites.v
Transparency.v
TransparencyDemo.v
TransparencyEnds.v
Scan.v
ScanProps.v
ScanEnds.v
Config.v
FleetConfig.v
FleetProps.v
Lifecycle.v
LifecycleProps.v
Recovery.v
RecoveryProps.v
Metrics.v
Origin.v
Fleet.v
Service.v
Startup.v
Gossip.v
