(* ===== verification/Prelude.v ===== *)
(** * s3cache: a transparent S3 caching proxy

    s3cache forwards S3 requests to an origin and answers what it can from node-local
    state: LIST and HEAD from an in-memory index of every configured bucket, GET from a
    hot (heap) and warm (disk) tier of bodies.  Nodes of a fleet keep each other coherent
    with a gossip write feed: a writer indexes its write, advertises it, and reports it
    only when its peers have applied it or lost the right to serve.  A starting node
    bootstraps its index from a peer (image, journal, guarded install) or from an origin
    scan.  A control journal on the object store keeps the mutations whose outcome is
    unknown.  This library models those parts and proves what makes each of them correct.

    ** Conventions

    Every integer is a [Z] with its width written out ([checked_add], [saturating_sub],
    [try_from] below); [usize] is the 64-bit one.  Fallible code returns [result] or
    [option], with the [?] operator as bind.  A panic is [None].  Strings are byte
    strings, bytes are [Byte.byte], times are nanoseconds in [Z], maps are [gmap] and,
    where the code iterates in key order, sorted association lists.  An operation that
    the code runs under the index lock is one function on the locked state.  Code awaited
    in between is a program of calls executed with other writers in between
    ([ControlStore.exec]) or a step relation ([TierFence.step]).  Third-party code
    (postcard, base64, blake3, groupnet, the S3 client, the tier libraries) is a
    parameter: a class with the laws its documentation promises, and every theorem under
    such a law has a witness with a concrete instance.

    ** Row data, codecs

    [ObjTypes]: [ETag], [ObjEntry], [ObjMeta], [IndexStats] of src/src/index.rs.
    [LegacyCodec]: src/src/codec/legacy.rs over a grammar of serde types; [legacy_exact]
    says it accepts exactly the documented layout.
    [ListToken]: src/src/list_token.rs; [token_roundtrip].
    [ImageCodec], [CodecProps]: the bounded writer and reader, the charges and the row and
    effect codecs of src/src/index/fleet.rs and fleet/delta.rs, against the pure encodings
    [enc_*]; [delta_roundtrip].
    [Image], [ImageProps], [ImageSizing], [ImageRound]: whole-index images and their
    sizing (fleet.rs, fleet/snapshot.rs); [image_roundtrip], [decode_wf] (no input makes
    an ill-formed index) and [tallied_size_exact] (the O(buckets) size is the row-by-row
    one).

    ** The index

    [Rows]: src/src/index/rows.rs, the row and tombstone tables with their tallies and
    the incremental sweep.  [IndexCapture], [KeyIndex]: the whole state of
    src/src/index.rs and every operation that changes it.
    [IndexWf], [IndexSteps], [IndexInv], [IndexMachine]: the invariant, each operation as
    an equation on its bucket, preservation, and the state machine of all operations:
    [reachable_wf], [fence_held], [fence_token_fresh], and the reuse of a token after a
    bucket's removal ([token_reused_after_remove]).
    [IndexLww]: every key is a last-writer-wins register ([lww_refinement]).  This theorem
    and those built on it (rebuilds, scans, convergence) count the deletes: past
    [TOMBSTONE_PRUNE_LEN] of them the sweep forgets tombstones.
    [IndexRebuild]: a rebuild publishes the listing merged with the writes that raced it,
    ours and the feed's ([rebuild_merges_racing_writes]); an unwritten fenced key gets no row.
    [Scan], [ScanProps], [ScanEnds]: src/src/index/scan.rs.  Discovery only splits the key
    space ([split_covers]); a scan whose pages interleave with one another, with writes and
    with changes at the origin publishes what its pages listed, merged with those writes
    ([scan_publishes_listing]).  The loop of a range has fuel [9 * size + 9] requests, which
    is enough for a listing of that size that stands still: every non-empty page moves on and
    at most eight empty ones come between ([scan_range_ends]).
    [ListIndex], [ListProps]: ListObjectsV2 from the index and its handler
    (src/src/cache/service.rs); a client that follows the tokens sees the listing once.

    ** Bootstrap

    [Install], [InstallProps], [InstallInv]: src/src/index/fleet/install.rs; what an
    install keeps, that a refusal is inert, that the result is well formed, and the row it
    can drop ([install_drops_covered_row]).
    [Stage], [Replay], [StageProps]: src/src/index/fleet/stage.rs and the donor's journal;
    [follower_matches_donor] composes image, transfer and replay.
    [Donor], [DonorProps]: src/src/index/fleet/capture.rs and the donor callbacks of
    src/src/sync/volatile/fleet/; the image is the index at the moment of capture
    ([capture_exact]), and [bootstrap_transfers] goes from the donor's lock to the follower's
    private index.  An image and a journal carry skeletal rows, without the content type and
    the metadata of a HEAD, of indexes whose rows the codec takes.
    [FollowerPort], [FollowerProps]: src/src/sync/volatile/fleet/follower.rs and the roster
    checks of fleet.rs; [follower_installs_verified] for any order of effects.
    [Recovery], [RecoveryProps]: src/src/sync/volatile.rs, the recapture of fleet.rs and the
    limits of runtime.rs; a rebuild hides every bucket before it scans ([rebuild_hides]), a
    recapture serves the index at C or leaves nothing attached ([recapture_sound]).
    [FleetConfig], [FleetProps]: src/src/sync/fleet/, the peer book and its scope
    ([book_sound], [scope_binds]).  [Config]: src/src/config.rs and src/src/sync/config.rs.

    ** Control journal

    [Control]: src/src/sync/control/ as programs of store calls; [ControlStore]: their
    executions on a store that other writers extend at any time.  A put answered without a
    verdict took effect, was refused or is still in flight ([ControlStore.Fate]), and one in
    flight may land at any later time; [append_writes_once] says which object that can
    create.  [ControlPending], [ControlProps], [ControlScan], [ControlKeys], [ControlS3], [ControlClaims],
    [ControlDemo]: appends commit once and at the first absent slot, retries find the
    committed copy, scans are exact, committed intents fence, keys are distinct, and the
    S3 store refines the store the proofs assume.  Loops run on the probe and event limits
    of the configuration, which is the fuel the code itself has;
    [append_calls_bounded] bounds the calls.

    ** Coherence

    [Wire]: src/src/sync/wire.rs.  [Coherence], [CoherenceProps]: src/src/sync/coherence.rs
    with the crossings of stop.rs; nodes that hold the same writes agree
    ([fleet_converges]), a reported write is covered ([reported_write_covered]).
    [Apply], [ApplyProps]: the apply loop of coherence.rs, each event's handling as a script
    of actions with any operation of other tasks on the index between two of them; a
    position is acknowledged only once the index is past it ([acks_follow_index]), and the
    loop ends its stream in at most seven steps per event ([drain_ends]).
    [Fleet]: the two composed, for writers and readers in different nodes.  A write that a
    strong mode reports is settled at every peer it waits on ([reported_write_visible]), and
    a node whose barrier passed has settled what its peers advertised
    ([barrier_read_fresh]); settled means applied, shown and out of the hot tier, or counted
    as missed with every bucket hidden.
    [Startup]: the options and the starts of coherence of src/src/cache/proxy.rs and
    main.rs, the attachment, and the openings of src/src/sync/volatile.rs and runtime.rs as
    a trace of calls; a start announces, opens with settled limits and installs the driver
    before the apply loop that calls it ([start_sound]).
    [Gossip]: src/src/sync/config.rs, from the environment to an attached node
    ([gossip_joins]).

    ** Readiness and stop

    [Lifecycle], [LifecycleProps]: src/src/cache/stop.rs, readiness.rs, src/src/sync/readiness.rs
    and advertise.rs.  Handlers, their tasks and the stop are the steps of one machine:
    nothing follows the seal ([seal_is_final]) and a stop is never wedged ([stop_can_seal]).
    A node without an index is not ready beside a peer that may hold one
    ([replacement_waits]).

    ** Bodies

    [Tier]: the cached object, ranges, draining a stream against the cap, and the warm
    record format of src/src/tier.rs; [range_exact], [buffered_or_intact],
    [warm_record_roundtrip].
    [TierFence], [TierInv]: fills, observations, mutations, promotions, revalidations and
    evictions of the body cache as a step relation over every interleaving of tasks, with
    origin versions numbered; [no_stale_fill].

    ** Request handlers

    [Proxy]: the GET and HEAD decision trees of src/src/cache/proxy.rs and service.rs, with
    revalidation, fills, range promotion and observations.  [Mutation]: the write-through
    mutations of src/src/cache/mutation.rs and copy.rs, the recording and fencing half of
    proxy.rs, and one turn of a key's reconciliation.  The origin's answers, the clock and
    what groupnet says are arguments; a handler runs without interference (the races are
    [TierFence]'s).
    [Service]: the operations of src/src/cache/service.rs, the nine with a handler and the
    ones forwarded to the upstream operation of their name ([serve_total]).
    [ProxyView], [ProxySpec], [ProxyReads], [ProxyWrites], [Transparency]: a node without
    gossip and its origin as a state machine, the coherence of the two, and
    [reads_transparent]: every read is answered as the origin would answer it.  The origin
    is a class with the read behaviour S3 documents; writes reach it through contracts
    (a definite refusal changes nothing, an ambiguous failure may change the key).  Assumed:
    clocks order the writes, a local delete of a copy succeeds, objects carry no header a
    cached copy lacks, and no write appends.  [TransparencyDemo] instantiates the origin;
    [TransparencyEnds] shows that the last two are needed, at any node and for any such
    request: [get_drops_expires], [append_head_wrong].

    ** Counters

    [Metrics]: src/src/metrics.rs, the counters, their two renderings and the listener's
    routes; a scraper reads back every value ([exposition_exact]).  [Origin]: the
    interceptors of src/src/cache/origin.rs and copy.rs ([origin_accounting],
    [copy_conditions_carried]).

    ** Not modelled

    Requests in gossip mode are modelled handler by handler, but the transparency theorem
    is about one node; [CoherenceProps] and [Fleet] have the fleet's part.  Not in the model:
    the copy of requests and answers into the client's types.
    groupnet's recovery, bootstrap and transfer workers, its sessions and its listener, its
    journal and its admission: a library the sources do not contain, whose answers are
    arguments; the gossip transport's sockets are I/O, and the tiers' storage is the tier
    libraries'.  The rest of main, logs, the places that bump
    a counter (but the origin client's), the listeners' sockets and process wiring are left
    out.
    Allocation failure and lock poisoning are left out everywhere. *)

From Stdlib Require Export ZArith Lia.
From stdpp Require Export sorting.
From stdpp Require Export prelude gmap strings numbers list.

#[global] Open Scope Z_scope.

Create HintDb s3c.

(** ** Fallible code

    Rust's [Result<A, E>], with the [?] operator as monadic bind. *)

Inductive result (E A : Type) : Type :=
| Ok (a : A)
| Err (e : E).
Arguments Ok {E A} a.
Arguments Err {E A} e.

#[global] Instance result_ret {E} : MRet (result E) := fun A a => Ok a.
#[global] Instance result_bind {E} : MBind (result E) := fun A B f m =>
  match m with Ok a => f a | Err e => Err e end.
#[global] Instance result_fmap {E} : FMap (result E) := fun A B f m =>
  match m with Ok a => Ok (f a) | Err e => Err e end.

(** [Option::ok_or]. *)
Definition ok_or {E A} (o : option A) (e : E) : result E A :=
  match o with Some a => Ok a | None => Err e end.

(** [if bad { return Err(e) }]. *)
Definition refuse_if {E} (bad : bool) (e : E) : result E unit :=
  if bad then Err e else Ok tt.

(** [Result::map_err]. *)
Definition map_err {E F A} (f : E → F) (r : result E A) : result F A :=
  match r with Ok a => Ok a | Err e => Err (f e) end.

Definition is_ok {E A} (r : result E A) : bool :=
  match r with Ok _ => true | Err _ => false end.

Lemma bind_ok {E A B} (m : result E A) (f : A → result E B) b :
  m ≫= f = Ok b ↔ ∃ a, m = Ok a ∧ f a = Ok b.
Proof. destruct m; simpl; naive_solver. Qed.

Lemma refuse_if_ok {E} bad (e : E) u : refuse_if bad e = Ok u ↔ bad = false.
Proof. destruct bad, u; simpl; naive_solver. Qed.

Lemma ok_or_ok {E A} (o : option A) (e : E) a : ok_or o e = Ok a ↔ o = Some a.
Proof. destruct o; simpl; naive_solver. Qed.

Lemma map_err_ok {E F A} (f : E → F) (r : result E A) a :
  map_err f r = Ok a ↔ r = Ok a.
Proof. destruct r; simpl; naive_solver. Qed.

(** Break a successful chain of [?] into its successful steps. *)
Ltac inv_ok :=
  repeat match goal with
  | H : mbind _ _ = Ok _ |- _ =>
      apply bind_ok in H; destruct H as (? & ? & ?)
  | H : refuse_if _ _ = Ok _ |- _ => apply refuse_if_ok in H
  | H : ok_or _ _ = Ok _ |- _ => apply ok_or_ok in H
  | H : map_err _ _ = Ok _ |- _ => apply map_err_ok in H
  | H : Ok _ = Ok _ |- _ => injection H as H
  | H : Err _ = Ok _ |- _ => discriminate H
  | H : Ok _ = Err _ |- _ => discriminate H
  | x : unit |- _ => destruct x
  end.

(** Boolean tests of the code as propositions. *)
Ltac bool_prop :=
  repeat match goal with
  | H : _ && _ = true |- _ => apply andb_true_iff in H; destruct H
  | H : _ || _ = false |- _ => apply orb_false_iff in H; destruct H
  | H : negb _ = true |- _ => apply negb_true_iff in H
  | H : negb _ = false |- _ => apply negb_false_iff in H
  | H : bool_decide _ = true |- _ => apply bool_decide_eq_true in H
  | H : bool_decide _ = false |- _ => apply bool_decide_eq_false in H
  | H : (_ <? _) = true |- _ => apply Z.ltb_lt in H
  | H : (_ <? _) = false |- _ => apply Z.ltb_ge in H
  | H : (_ <=? _) = true |- _ => apply Z.leb_le in H
  | H : (_ <=? _) = false |- _ => apply Z.leb_gt in H
  | H : (_ =? _) = true |- _ => apply Z.eqb_eq in H
  | H : (_ =? _) = false |- _ => apply Z.eqb_neq in H
  end.

(** ** Machine integers

    Every integer is a [Z]; the operations that wrap, saturate or fail at the
    width are written out.  [usize] is the 64-bit one. *)

Definition u8_max : Z := 255.
Definition u16_max : Z := 65535.
Definition u32_max : Z := 4294967295.
Definition u64_max : Z := 18446744073709551615.
Definition usize_max : Z := u64_max.
Definition i64_max : Z := 9223372036854775807.
Definition i64_min : Z := -9223372036854775808.
Definition i32_max : Z := 2147483647.

Definition fits (max v : Z) : bool := (0 <=? v) && (v <=? max).

Definition checked_add (max a b : Z) : option Z :=
  if a + b <=? max then Some (a + b) else None.
Definition checked_mul (max a b : Z) : option Z :=
  if a * b <=? max then Some (a * b) else None.
Definition checked_sub (a b : Z) : option Z :=
  if b <=? a then Some (a - b) else None.
Definition saturating_add (max a b : Z) : Z := Z.min max (a + b).
Definition saturating_sub (a b : Z) : Z := Z.max 0 (a - b).
Definition saturating_mul (max a b : Z) : Z := Z.min max (a * b).
Definition wrapping_add (max a b : Z) : Z := (a + b) mod (max + 1).
Definition wrapping_sub (max a b : Z) : Z := (a - b) mod (max + 1).

(** [u64::try_from] of a signed value, and the like. *)
Definition try_from (max v : Z) : option Z := if fits max v then Some v else None.

Lemma checked_add_Some max a b c :
  checked_add max a b = Some c ↔ c = a + b ∧ a + b <= max.
Proof. unfold checked_add. destruct (Z.leb_spec (a + b) max); naive_solver lia. Qed.

Lemma checked_sub_Some a b c :
  checked_sub a b = Some c ↔ c = a - b ∧ b <= a.
Proof. unfold checked_sub. destruct (Z.leb_spec b a); naive_solver lia. Qed.

Lemma checked_mul_Some max a b c :
  checked_mul max a b = Some c ↔ c = a * b ∧ a * b <= max.
Proof. unfold checked_mul. destruct (Z.leb_spec (a * b) max); naive_solver lia. Qed.

Lemma fits_spec max v : fits max v = true ↔ 0 <= v <= max.
Proof. unfold fits. rewrite andb_true_iff, !Z.leb_le. done. Qed.

Lemma try_from_Some max v w : try_from max v = Some w ↔ w = v ∧ 0 <= v <= max.
Proof.
  unfold try_from. destruct (fits max v) eqn:E.
  - apply fits_spec in E. naive_solver.
  - split; [done|]. intros [-> H]. apply fits_spec in H. congruence.
Qed.

(** ** Times

    A [SystemTime] is the nanoseconds from the Unix epoch, negative before
    it; on Unix its seconds are an [i64]. *)

Definition nanos_per_sec : Z := 1000000000.
Definition time_min : Z := i64_min * nanos_per_sec.
Definition time_max : Z := i64_max * nanos_per_sec + (nanos_per_sec - 1).
Definition UNIX_EPOCH : Z := 0.
Definition from_secs (s : Z) : Z := s * nanos_per_sec.

Definition time_checked_add (t d : Z) : option Z :=
  if t + d <=? time_max then Some (t + d) else None.
Definition time_checked_sub (t d : Z) : option Z :=
  if time_min <=? t - d then Some (t - d) else None.

(** ** Options *)

Definition is_none {A} (o : option A) : bool :=
  match o with Some _ => false | None => true end.
Definition is_some {A} (o : option A) : bool := negb (is_none o).
Definition is_some_and {A} (p : A → bool) (o : option A) : bool :=
  match o with Some a => p a | None => false end.
Definition is_none_or {A} (p : A → bool) (o : option A) : bool :=
  match o with Some a => p a | None => true end.
(** [Option::or]. *)
Definition option_or {A} (a b : option A) : option A :=
  match a with Some _ => a | None => b end.
(** The running minimum [m.map_or(x, |m| m.min(x))]. *)
Definition min_with (m : option Z) (x : Z) : option Z :=
  Some (match m with Some m => Z.min m x | None => x end).

(** ** Strings

    A Rust [String] is its UTF-8 bytes; [str] comparison is the bytewise
    lexicographic order, which is [String.compare]. *)

Definition slen (s : string) : Z := Z.of_nat (String.length s).
Definition sempty (s : string) : bool := match s with EmptyString => true | _ => false end.
Definition slt (a b : string) : Prop := String.compare a b = Lt.
Definition sltb (a b : string) : bool := String.ltb a b.
Definition sleb (a b : string) : bool := String.leb a b.

Declare Scope s3c_scope.
Delimit Scope s3c_scope with s3c.
Notation "a '<ₛ' b" := (slt a b) (at level 70) : s3c_scope.
#[global] Open Scope s3c_scope.

#[global] Instance slt_dec : RelDecision slt.
Proof. intros a b. unfold slt. apply _. Defined.

Lemma sltb_lt a b : sltb a b = true ↔ a <ₛ b.
Proof. unfold sltb, String.ltb, slt. destruct (String.compare a b); naive_solver. Qed.

Lemma ascii_compare_refl x : Ascii.compare x x = Eq.
Proof. unfold Ascii.compare. apply N.compare_refl. Qed.

Lemma compare_refl a : String.compare a a = Eq.
Proof. induction a as [|c a IH]; simpl; [done|]. by rewrite ascii_compare_refl. Qed.

Lemma slt_irrefl a : ¬ a <ₛ a.
Proof. unfold slt. by rewrite compare_refl. Qed.

Lemma sleb_le a b : sleb a b = true ↔ a <ₛ b ∨ a = b.
Proof.
  unfold sleb, String.leb, slt. destruct (String.compare a b) eqn:E.
  - apply String.compare_eq_iff in E. naive_solver.
  - naive_solver.
  - split; [done|]. intros [?| ->]; [done|]. by rewrite compare_refl in E.
Qed.

Lemma le_sleb a b : String.le a b ↔ a <ₛ b ∨ a = b.
Proof. unfold String.le. rewrite Is_true_true. apply sleb_le. Qed.

Lemma slt_trichotomy a b : a <ₛ b ∨ a = b ∨ b <ₛ a.
Proof.
  unfold slt. destruct (String.compare a b) eqn:E; [|auto|].
  - apply String.compare_eq_iff in E. auto.
  - rewrite String.compare_antisym, E. auto.
Qed.

#[global] Instance slt_trans : Transitive slt.
Proof.
  intros a b c Hab Hbc.
  assert (Hac : String.le a c) by (trans b; apply le_sleb; auto).
  apply le_sleb in Hac as [?| ->]; [done|].
  exfalso. unfold slt in *. rewrite String.compare_antisym, Hab in Hbc. done.
Qed.

Lemma slt_asym a b : a <ₛ b → ¬ b <ₛ a.
Proof. intros H1 H2. apply (slt_irrefl a). by trans b. Qed.

Lemma slt_ne a b : a <ₛ b → a ≠ b.
Proof. intros H ->. by apply slt_irrefl in H. Qed.

Lemma sltb_ge a b : sltb a b = false ↔ b <ₛ a ∨ a = b.
Proof.
  rewrite <- not_true_iff_false, sltb_lt. split.
  - intros H. destruct (slt_trichotomy a b) as [?|[?|?]]; naive_solver.
  - intros [H| ->]; [by apply slt_asym|apply slt_irrefl].
Qed.

Lemma sltb_sleb a b : sltb a b = negb (sleb b a).
Proof.
  destruct (sltb a b) eqn:E1, (sleb b a) eqn:E2; try done; exfalso.
  - apply sltb_lt in E1. apply sleb_le in E2 as [E2| ->]; [by apply slt_asym in E1|by apply slt_irrefl in E1].
  - apply sltb_ge in E1. enough (sleb b a = true) by congruence. apply sleb_le. naive_solver.
Qed.

#[global] Hint Resolve slt_irrefl slt_asym slt_ne : s3c.

(** [str::starts_with], [&s[n..]], [&s[..n]] and [str::find]. *)
Fixpoint starts_with (p s : string) : bool :=
  match p, s with
  | EmptyString, _ => true
  | String a p, String b s => bool_decide (a = b) && starts_with p s
  | String _ _, EmptyString => false
  end.

Fixpoint sdrop (n : nat) (s : string) : string :=
  match n, s with
  | S n, String _ s => sdrop n s
  | _, _ => s
  end.

Fixpoint stake (n : nat) (s : string) : string :=
  match n, s with
  | S n, String a s => String a (stake n s)
  | _, _ => EmptyString
  end.

Fixpoint sfind (d s : string) : option nat :=
  if starts_with d s then Some 0%nat
  else match s with
       | EmptyString => None
       | String _ s => S <$> sfind d s
       end.

Definition strip_prefix (p s : string) : option string :=
  if starts_with p s then Some (sdrop (String.length p) s) else None.

Lemma append_cons x (a b : string) : String x a +:+ b = String x (a +:+ b).
Proof. done. Qed.

Lemma append_assoc (a b c : string) : (a +:+ b) +:+ c = a +:+ (b +:+ c).
Proof. induction a as [|x a IH]; [done|]. by rewrite !append_cons, IH. Qed.

Lemma append_empty_r (a : string) : a +:+ "" = a.
Proof. induction a as [|x a IH]; [done|]. by rewrite append_cons, IH. Qed.

Lemma length_append a b : String.length (a +:+ b) = (String.length a + String.length b)%nat.
Proof. induction a as [|x a IH]; [done|]. rewrite append_cons. cbn. by rewrite IH. Qed.

Lemma starts_with_spec p s : starts_with p s = true ↔ ∃ t, s = p +:+ t.
Proof.
  revert s. induction p as [|a p IH]; intros s; cbn.
  - split; [by exists s|done].
  - destruct s as [|b s]; [split; [done|by intros [t ?]]|].
    rewrite andb_true_iff, bool_decide_eq_true, IH. split.
    + intros [-> [t ->]]. by exists t.
    + intros [t [= -> ->]]. eauto.
Qed.

Lemma sdrop_append p t : sdrop (String.length p) (p +:+ t) = t.
Proof. induction p as [|a p IH]; [by destruct t|]. cbn. apply IH. Qed.

Lemma stake_append p t : stake (String.length p) (p +:+ t) = p.
Proof.
  induction p as [|a p IH]; [by destruct t|].
  rewrite append_cons. cbn [stake String.length]. by rewrite IH.
Qed.

Lemma stake_sdrop n s : stake n s +:+ sdrop n s = s.
Proof.
  revert s. induction n as [|n IH]; intros [|a s]; cbn [stake sdrop]; try done.
  by rewrite append_cons, IH.
Qed.

Lemma strip_prefix_append p t : strip_prefix p (p +:+ t) = Some t.
Proof.
  unfold strip_prefix. rewrite (proj2 (starts_with_spec p _)) by eauto.
  by rewrite sdrop_append.
Qed.

Lemma starts_with_refl s : starts_with s s = true.
Proof. apply starts_with_spec. exists "". by rewrite append_empty_r. Qed.

Lemma starts_with_trans p q s :
  starts_with p q = true → starts_with q s = true → starts_with p s = true.
Proof.
  rewrite !starts_with_spec. intros [t ->] [u ->]. exists (t +:+ u). by rewrite append_assoc.
Qed.

(** The keys under a prefix are one contiguous block of the order. *)
Lemma starts_with_between p a b c :
  starts_with p a = true → starts_with p c = true →
  sleb a b = true → sleb b c = true → starts_with p b = true.
Proof.
  revert a b c. induction p as [|x p IH]; [done|]. intros [|ya a] [|yb b] [|yc c]; cbn; try done.
  rewrite !andb_true_iff, !bool_decide_eq_true. intros [<- Ha] [<- Hc].
  unfold sleb, String.leb in *. cbn.
  destruct (Ascii.compare x yb) eqn:E1; try done.
  - apply Ascii.compare_eq_iff in E1 as <-.
    rewrite ascii_compare_refl. eauto.
  - rewrite Ascii.compare_antisym, E1. done.
Qed.

(** No key below the prefix starts with it. *)
Lemma starts_with_ge p s : starts_with p s = true → sleb p s = true.
Proof.
  revert s. induction p as [|x p IH]; intros [|y s]; cbn; try done.
  rewrite andb_true_iff, bool_decide_eq_true. intros [<- H]. apply IH in H.
  unfold sleb, String.leb in *. cbn.
  by rewrite ascii_compare_refl.
Qed.

Lemma sfind_Some d s i :
  sfind d s = Some i → ∃ u v, s = u +:+ d +:+ v ∧ String.length u = i.
Proof.
  revert i. induction s as [|x s IH]; intros i; cbn [sfind].
  - destruct (starts_with d "") eqn:E; [|done]. intros [= <-].
    apply starts_with_spec in E as [t ->]. by exists "", t.
  - destruct (starts_with d (String x s)) eqn:E.
    + intros [= <-]. apply starts_with_spec in E as [t ->]. by exists "", t.
    + intros (j & Hj & ->)%fmap_Some. destruct (IH j Hj) as (u & v & -> & <-).
      by exists (String x u), v.
Qed.

Lemma append_inj_l (p a b : string) : p +:+ a = p +:+ b → a = b.
Proof. induction p as [|x p IH]; [done|]. rewrite !append_cons. intros [= H]. by apply IH. Qed.

(** ** Bytes

    [Vec<u8>] and [&[u8]].  [to_le_bytes] and [from_le_bytes] are the
    little-endian codings of an unsigned value of [n] bytes. *)

Abbreviation bytes := (list Byte.byte).

#[global] Instance byte_eq_dec : EqDecision Byte.byte := Byte.byte_eq_dec.

Definition Z_of_byte (b : Byte.byte) : Z := Z.of_N (Byte.to_N b).
Definition byte_of_Z (z : Z) : Byte.byte :=
  default Byte.x00 (Byte.of_N (Z.to_N (z mod 256))).

Fixpoint to_le_bytes (n : nat) (v : Z) : bytes :=
  match n with
  | O => []
  | S n => byte_of_Z v :: to_le_bytes n (v / 256)
  end.

Fixpoint from_le_bytes (l : bytes) : Z :=
  match l with
  | [] => 0
  | b :: l => Z_of_byte b + 256 * from_le_bytes l
  end.

Lemma Z_of_byte_range b : 0 <= Z_of_byte b < 256.
Proof. unfold Z_of_byte. pose proof (Byte.to_N_bounded b). lia. Qed.

Lemma Z_of_byte_of_Z z : Z_of_byte (byte_of_Z z) = z mod 256.
Proof.
  unfold Z_of_byte, byte_of_Z. pose proof (Z.mod_pos_bound z 256 ltac:(lia)).
  destruct (Byte.of_N _) as [b|] eqn:E; simpl.
  - apply Byte.to_of_N in E. rewrite E. lia.
  - apply Byte.of_N_None_iff in E. lia.
Qed.

Lemma byte_of_Z_of_byte b : byte_of_Z (Z_of_byte b) = b.
Proof.
  unfold byte_of_Z. pose proof (Z_of_byte_range b). rewrite Z.mod_small by lia.
  unfold Z_of_byte. by rewrite N2Z.id, Byte.of_to_N.
Qed.

Lemma length_to_le_bytes n v : length (to_le_bytes n v) = n.
Proof. revert v. induction n as [|n IH]; intros v; simpl; [done|]. by rewrite IH. Qed.

Lemma from_to_le_bytes n v :
  0 <= v < 256 ^ Z.of_nat n → from_le_bytes (to_le_bytes n v) = v.
Proof.
  revert v. induction n as [|n IH]; intros v Hv; simpl; [change (256 ^ Z.of_nat 0) with 1 in Hv; lia|].
  rewrite Nat2Z.inj_succ, Z.pow_succ_r in Hv by lia.
  rewrite IH; [|split; [apply Z.div_pos; lia|apply Z.div_lt_upper_bound; lia]].
  rewrite Z_of_byte_of_Z. pose proof (Z.div_mod v 256 ltac:(lia)). lia.
Qed.

Lemma to_from_le_bytes l : to_le_bytes (length l) (from_le_bytes l) = l.
Proof.
  induction l as [|b l IH]; simpl; [done|].
  pose proof (Z_of_byte_range b). f_equal.
  - rewrite <- (byte_of_Z_of_byte b) at 2. unfold byte_of_Z.
    rewrite (Z.mul_comm 256), Z_mod_plus_full. done.
  - rewrite (Z.mul_comm 256), Z.div_add, Z.div_small, Z.add_0_l by lia. done.
Qed.

Lemma from_le_bytes_range l : 0 <= from_le_bytes l < 256 ^ Z.of_nat (length l).
Proof.
  induction l as [|b l IH]; simpl; [done|].
  rewrite Nat2Z.inj_succ, Z.pow_succ_r by lia. pose proof (Z_of_byte_range b). lia.
Qed.

(** A Rust [String] and its bytes. *)
Definition as_bytes (s : string) : bytes := String.list_byte_of_string s.
Definition of_bytes (l : bytes) : string := String.string_of_list_byte l.

Lemma of_as_bytes s : of_bytes (as_bytes s) = s.
Proof. apply String.string_of_list_byte_of_string. Qed.

Lemma as_of_bytes l : as_bytes (of_bytes l) = l.
Proof. apply String.list_byte_of_string_of_list_byte. Qed.

Lemma length_as_bytes s : Z.of_nat (length (as_bytes s)) = slen s.
Proof.
  unfold slen, as_bytes, String.list_byte_of_string. rewrite length_map.
  f_equal. induction s as [|a s IH]; simpl; [done|]. by rewrite IH.
Qed.

(** [std::str::from_utf8] accepts exactly the well-formed UTF-8 sequences:
    no overlong form, no surrogate, nothing above U+10FFFF. *)
Definition in_range (lo hi : Z) (b : Byte.byte) : bool :=
  (lo <=? Z_of_byte b) && (Z_of_byte b <=? hi).

Fixpoint utf8_valid (l : bytes) : bool :=
  match l with
  | [] => true
  | a :: t =>
      if in_range 0 127 a then utf8_valid t
      else match t with
      | [] => false
      | b :: t =>
          if in_range 194 223 a then in_range 128 191 b && utf8_valid t
          else match t with
          | [] => false
          | c :: t =>
              if in_range 224 239 a then
                in_range (if in_range 224 224 a then 160 else 128)
                         (if in_range 237 237 a then 159 else 191) b &&
                in_range 128 191 c && utf8_valid t
              else match t with
              | [] => false
              | d :: t =>
                  in_range 240 244 a &&
                  in_range (if in_range 240 240 a then 144 else 128)
                           (if in_range 244 244 a then 143 else 191) b &&
                  in_range 128 191 c && in_range 128 191 d && utf8_valid t
              end
          end
      end
  end.

(** A Coq string is a Rust [String] when its bytes are valid UTF-8. *)
Definition str_ok (s : string) : bool := utf8_valid (as_bytes s).

(** ** Lists *)

Lemma filter_none {A} (P : A → Prop) `{!∀ x, Decision (P x)} (l : list A) :
  Forall (λ x, ¬ P x) l → filter P l = [].
Proof. induction 1; [done|]. by rewrite filter_cons, decide_False. Qed.

Lemma filter_all {A} (P : A → Prop) `{!∀ x, Decision (P x)} (l : list A) :
  Forall P l → filter P l = l.
Proof. induction 1 as [|x l Hx _ IH]; [done|]. by rewrite filter_cons, decide_True, IH. Qed.

(** ** Ordered maps

    [imbl::OrdMap], [BTreeMap] and [HashMap] are [gmap]s; the ordered
    iteration of the first two is [sorted_rows]. *)

Section sorted_rows.
Context {A : Type}.
Implicit Types (m : gmap string A) (l : list (string * A)).

Definition key_le (a b : string * A) : Prop := sleb a.1 b.1 = true.
Definition key_lt (a b : string * A) : Prop := a.1 <ₛ b.1.

#[global] Instance key_le_dec : RelDecision key_le.
Proof. intros a b. unfold key_le. apply _. Defined.

#[global] Instance key_le_trans : Transitive key_le.
Proof.
  intros [a ?] [b ?] [c ?]. unfold key_le. cbn. rewrite !sleb_le.
  intros [H1| ->] [H2| ->]; eauto. left. by trans b.
Qed.

#[global] Instance key_le_total : Total key_le.
Proof.
  intros [a ?] [b ?]. unfold key_le. cbn. rewrite !sleb_le.
  destruct (slt_trichotomy a b) as [?|[?|?]]; auto.
Qed.

Definition sorted_rows m : list (string * A) := merge_sort key_le (map_to_list m).

Lemma sorted_rows_perm m : sorted_rows m ≡ₚ map_to_list m.
Proof. apply merge_sort_Permutation. Qed.

Lemma elem_of_sorted_rows m k v : (k, v) ∈ sorted_rows m ↔ m !! k = Some v.
Proof. by rewrite sorted_rows_perm, elem_of_map_to_list. Qed.

Lemma sorted_rows_NoDup m : NoDup (sorted_rows m).*1.
Proof. rewrite sorted_rows_perm. apply NoDup_fst_map_to_list. Qed.

Lemma sorted_rows_map m : list_to_map (sorted_rows m) = m.
Proof.
  rewrite (list_to_map_proper (M := gmap string) _ (map_to_list m)).
  - apply list_to_map_to_list.
  - apply sorted_rows_NoDup.
  - apply sorted_rows_perm.
Qed.

Lemma length_sorted_rows m : length (sorted_rows m) = size m.
Proof. by rewrite sorted_rows_perm, length_map_to_list. Qed.

Lemma key_le_lt_NoDup l :
  StronglySorted key_le l → NoDup l.*1 → StronglySorted key_lt l.
Proof.
  induction 1 as [|[k v] l Hl IH Hall]; intros Hnd; [constructor|].
  cbn in Hnd. apply NoDup_cons in Hnd as [Hk Hnd]. constructor; [auto|].
  rewrite Forall_forall in *. intros [k' v'] Hin.
  specialize (Hall _ Hin). unfold key_le in Hall. cbn in Hall.
  apply sleb_le in Hall as [?| ->]; [done|].
  destruct Hk. apply list_elem_of_fmap. by exists (k', v').
Qed.

Lemma sorted_rows_sorted m : StronglySorted key_lt (sorted_rows m).
Proof.
  apply key_le_lt_NoDup; [apply (StronglySorted_merge_sort key_le)|apply sorted_rows_NoDup].
Qed.

Lemma key_lt_sorted_NoDup l : StronglySorted key_lt l → NoDup l.*1.
Proof.
  induction 1 as [|[k v] l Hl IH Hall]; cbn; constructor; [|done].
  rewrite list_elem_of_fmap. intros ([k' v'] & -> & Hin).
  rewrite Forall_forall in Hall. by apply Hall, slt_irrefl in Hin.
Qed.

Lemma key_lt_sorted_unique l1 l2 :
  StronglySorted key_lt l1 → StronglySorted key_lt l2 → l1 ≡ₚ l2 → l1 = l2.
Proof.
  intros H1. revert l2. induction H1 as [|[k v] l1 Hl1 IH Ha1]; intros l2 H2 Hp.
  { apply Permutation_nil_l in Hp. done. }
  destruct H2 as [|[k' v'] l2 Hl2 Ha2]; [by apply Permutation_nil_r in Hp|].
  rewrite Forall_forall in Ha1, Ha2.
  assert ((k, v) = (k', v')) as [= <- <-].
  { assert (Hin : (k, v) ∈ (k', v') :: l2) by (rewrite <- Hp; left).
    assert (Hin' : (k', v') ∈ (k, v) :: l1) by (rewrite Hp; left).
    apply elem_of_cons in Hin as [?|Hin]; [done|].
    apply elem_of_cons in Hin' as [?|Hin']; [done|].
    apply Ha2 in Hin. apply Ha1 in Hin'. by apply slt_asym in Hin. }
  f_equal. apply IH; [done|]. by apply Permutation_cons_inv in Hp.
Qed.

(** A strictly sorted row list is the ordered iteration of its map. *)
Lemma sorted_rows_of_sorted l :
  StronglySorted key_lt l → sorted_rows (list_to_map l) = l.
Proof.
  intros Hl. apply key_lt_sorted_unique; [apply sorted_rows_sorted|done|].
  rewrite sorted_rows_perm. apply map_to_list_to_map, key_lt_sorted_NoDup, Hl.
Qed.

Lemma sorted_rows_empty : sorted_rows (∅ : gmap string A) = [].
Proof. unfold sorted_rows. by rewrite map_to_list_empty. Qed.
End sorted_rows.

(** ** Sums over a map *)

Section msum.
Context {V : Type}.
Implicit Types (f : string → V → Z) (m : gmap string V).

Definition msum f m : Z := map_fold (λ k v acc, f k v + acc) 0 m.

Lemma msum_empty f : msum f ∅ = 0.
Proof. apply map_fold_empty. Qed.

Lemma msum_insert_None f m k v :
  m !! k = None → msum f (<[k:=v]> m) = f k v + msum f m.
Proof. intros H. unfold msum. rewrite map_fold_insert_L; [done|intros; lia|done]. Qed.

Lemma msum_delete f m k v :
  m !! k = Some v → msum f (delete k m) = msum f m - f k v.
Proof.
  intros H. rewrite <- (insert_delete_id m k v H) at 2.
  rewrite msum_insert_None by apply lookup_delete_eq. lia.
Qed.

Lemma msum_insert_Some f m k v v' :
  m !! k = Some v → msum f (<[k:=v']> m) = msum f m - f k v + f k v'.
Proof.
  intros H. rewrite <- insert_delete_eq, msum_insert_None by apply lookup_delete_eq.
  rewrite (msum_delete f m k v) by done. lia.
Qed.

Lemma msum_insert f m k v :
  msum f (<[k:=v]> m) =
  msum f m - (match m !! k with Some o => f k o | None => 0 end) + f k v.
Proof.
  destruct (m !! k) eqn:E; [by erewrite msum_insert_Some|].
  rewrite msum_insert_None by done. lia.
Qed.

Lemma msum_delete_any f m k :
  msum f (delete k m) =
  msum f m - (match m !! k with Some o => f k o | None => 0 end).
Proof.
  destruct (m !! k) eqn:E; [by apply msum_delete|]. rewrite delete_id by done. lia.
Qed.

Lemma msum_nonneg f m : (∀ k v, m !! k = Some v → 0 <= f k v) → 0 <= msum f m.
Proof.
  induction m as [|k v m Hk IH] using map_ind; intros H; [by rewrite msum_empty|].
  rewrite msum_insert_None by done.
  pose proof (H k v ltac:(apply lookup_insert_eq)).
  assert (0 <= msum f m); [|lia]. apply IH. intros k' v' Hk'.
  apply H. rewrite lookup_insert_ne; [done|congruence].
Qed.

Lemma msum_lookup_le f m k v :
  (∀ k v, m !! k = Some v → 0 <= f k v) → m !! k = Some v → f k v <= msum f m.
Proof.
  intros H Hk. rewrite <- (insert_delete_id m k v Hk), msum_insert_None by apply lookup_delete_eq.
  assert (0 <= msum f (delete k m)); [|lia]. apply msum_nonneg.
  intros k' v' [? ?]%lookup_delete_Some. eauto.
Qed.

Lemma msum_list f m l :
  NoDup l.*1 → list_to_map l = m →
  msum f m = foldr (λ r acc, f r.1 r.2 + acc) 0 l.
Proof.
  intros Hnd <-. induction l as [|[k v] l IH]; cbn; [apply msum_empty|].
  cbn in Hnd. apply NoDup_cons in Hnd as [Hk Hnd].
  rewrite msum_insert_None by (by apply not_elem_of_list_to_map_1).
  by rewrite IH.
Qed.

Lemma msum_sorted f m :
  msum f m = foldr (λ r acc, f r.1 r.2 + acc) 0 (sorted_rows m).
Proof. apply msum_list; [apply sorted_rows_NoDup|apply sorted_rows_map]. Qed.

Lemma msum_ext f g m :
  (∀ k v, m !! k = Some v → f k v = g k v) → msum f m = msum g m.
Proof.
  induction m as [|k v m Hk IH] using map_ind; intros H; [by rewrite !msum_empty|].
  rewrite !msum_insert_None by done. rewrite (H k v) by apply lookup_insert_eq.
  f_equal. apply IH. intros k' v' Hk'. apply H. rewrite lookup_insert_ne; [done|congruence].
Qed.

Lemma msum_add f g m : msum (λ k v, f k v + g k v) m = msum f m + msum g m.
Proof.
  induction m as [|k v m Hk IH] using map_ind; [by rewrite !msum_empty|].
  rewrite !msum_insert_None by done. lia.
Qed.

Lemma msum_one m : msum (λ _ _, 1) m = Z.of_nat (size m).
Proof.
  induction m as [|k v m Hk IH] using map_ind; [by rewrite msum_empty, map_size_empty|].
  rewrite msum_insert_None, map_size_insert_None by done. lia.
Qed.
End msum.

(** ** Code numbers as bytes, a bit a byte: the codec of concrete instances *)

Fixpoint pos_bytes (p : positive) : bytes :=
  match p with
  | xH => []
  | xO p => Byte.x00 :: pos_bytes p
  | xI p => Byte.x01 :: pos_bytes p
  end.
Fixpoint bytes_pos (l : bytes) : positive :=
  match l with
  | [] => xH
  | b :: l => if bool_decide (b = Byte.x00) then xO (bytes_pos l) else xI (bytes_pos l)
  end.

Lemma bytes_pos_bytes p : bytes_pos (pos_bytes p) = p.
Proof. induction p as [p IH|p IH|]; cbn [pos_bytes bytes_pos]; rewrite ?IH; reflexivity. Qed.
