(* ===== verification/LegacyCodec.v ===== *)
(** * The legacy record decoder

    [src/src/codec/legacy.rs]: the read-only decoder of the bincode 1 layout.
    A serde target type is a [sty]; [decode] is the deserializer's traversal of
    it.  [legacy_bytes] is the layout the module documents (fixed-width
    little-endian integers, [u64] lengths, a [u8] tag for [Option] and [bool], a
    [u32] variant index): the decoder accepts exactly that layout and inverts
    it. *)

From S2P Require Import Prelude.

Inductive LegacyError :=
| Truncated
| Trailing
| Invalid (what : string)
| Custom (message : string).

(** ** Reader *)

Module Legacy.
Definition take (len : Z) (input : bytes) : result LegacyError (bytes * bytes) :=
  if Z.of_nat (length input) <? len then Err Truncated
  else Ok (list.take (Z.to_nat len) input, drop (Z.to_nat len) input).

(** [self.take(N)?.try_into()]. *)
Definition array (n : nat) (input : bytes) : result LegacyError (bytes * bytes) :=
  '(head, input) ← take (Z.of_nat n) input;
  if bool_decide (length head = n) then Ok (head, input) else Err (Invalid "fixed-width field").

Definition u8 (input : bytes) : result LegacyError (Z * bytes) :=
  '(raw, input) ← array 1 input; Ok (from_le_bytes raw, input).

Definition u32 (input : bytes) : result LegacyError (Z * bytes) :=
  '(raw, input) ← array 4 input; Ok (from_le_bytes raw, input).

(** A length prefix, which can never exceed the bytes that remain. *)
Definition len (input : bytes) : result LegacyError (Z * bytes) :=
  '(raw, input) ← array 8 input;
  n ← ok_or (n ← try_from usize_max (from_le_bytes raw);
             if n <=? Z.of_nat (length input) then Some n else None) Truncated;
  Ok (n, input).

Definition bytes_ (input : bytes) : result LegacyError (bytes * bytes) :=
  '(n, input) ← len input; take n input.

Definition str (input : bytes) : result LegacyError (string * bytes) :=
  '(raw, input) ← bytes_ input;
  if utf8_valid raw then Ok (of_bytes raw, input) else Err (Invalid "string is not UTF-8").

(** The width of a UTF-8 scalar by its lead byte. *)
Definition char_width (lead : Byte.byte) : option Z :=
  let lead := Z_of_byte lead in
  if Z.land lead 128 =? 0 then Some 1
  else if Z.land lead 224 =? 192 then Some 2
  else if Z.land lead 240 =? 224 then Some 3
  else if Z.land lead 248 =? 240 then Some 4
  else None.

(** A scalar value is kept as its UTF-8 encoding. *)
Definition char (input : bytes) : result LegacyError (bytes * bytes) :=
  width ← match input with
          | [] => Err Truncated
          | lead :: _ => ok_or (char_width lead) (Invalid "char lead byte")
          end;
  '(encoded, input) ← take width input;
  if utf8_valid encoded then Ok (encoded, input) else Err (Invalid "char is not UTF-8").

Definition tag (what : string) (input : bytes) : result LegacyError (bool * bytes) :=
  '(t, input) ← u8 input;
  match t with
  | 0 => Ok (false, input)
  | 1 => Ok (true, input)
  | _ => Err (Invalid what)
  end.
End Legacy.

(** ** Target types and values *)

Inductive sty :=
| TBool
| TInt (signed : bool) (width : nat)
| TFloat (width : nat)
| TChar
| TStr
| TBytes
| TOption (t : sty)
| TUnit
| TNewtype (t : sty)
| TSeq (t : sty)
| TTuple (ts : stys)          (* tuples, tuple structs and structs *)
| TMap (k v : sty)
| TEnum (vs : stys)           (* the contents of the variants, in order *)
with stys :=
| TNil
| TCons (t : sty) (ts : stys).

Inductive sval :=
| VBool (b : bool)
| VInt (z : Z)
| VFloat (bits : Z)
| VChar (encoded : bytes)
| VStr (s : string)
| VBytes (l : bytes)
| VNone
| VSome (v : sval)
| VUnit
| VNewtype (v : sval)
| VSeq (vs : list sval)
| VTuple (vs : list sval)
| VMap (entries : list (sval * sval))
| VEnum (index : Z) (v : sval).

(** [<iN>::from_le_bytes] and [<uN>::from_le_bytes]. *)
Definition int_of (signed : bool) (width : nat) (raw : bytes) : Z :=
  let v := from_le_bytes raw in
  if signed && (256 ^ Z.of_nat width <=? 2 * v) then v - 256 ^ Z.of_nat width else v.

(** [Items::next_element_seed] and [next_key_seed], [remaining] times. *)
Fixpoint items {A} (next : bytes → result LegacyError (A * bytes)) (remaining : nat) (input : bytes)
    : result LegacyError (list A * bytes) :=
  match remaining with
  | O => Ok ([], input)
  | S remaining =>
      '(v, input) ← next input;
      '(vs, input) ← items next remaining input;
      Ok (v :: vs, input)
  end.

(** The [Deserializer] of [Reader], driven by the target type. *)
Fixpoint decode (t : sty) (input : bytes) : result LegacyError (sval * bytes) :=
  match t with
  | TBool => '(b, input) ← Legacy.tag "bool" input; Ok (VBool b, input)
  | TInt signed width => '(raw, input) ← Legacy.array width input; Ok (VInt (int_of signed width raw), input)
  | TFloat width => '(raw, input) ← Legacy.array width input; Ok (VFloat (from_le_bytes raw), input)
  | TChar => '(c, input) ← Legacy.char input; Ok (VChar c, input)
  | TStr => '(s, input) ← Legacy.str input; Ok (VStr s, input)
  | TBytes => '(l, input) ← Legacy.bytes_ input; Ok (VBytes l, input)
  | TOption t =>
      '(some, input) ← Legacy.tag "option tag" input;
      if some : bool then '(v, input) ← decode t input; Ok (VSome v, input) else Ok (VNone, input)
  | TUnit => Ok (VUnit, input)
  | TNewtype t => '(v, input) ← decode t input; Ok (VNewtype v, input)
  | TSeq t =>
      '(remaining, input) ← Legacy.len input;
      '(vs, input) ← items (decode t) (Z.to_nat remaining) input;
      Ok (VSeq vs, input)
  | TTuple ts => '(vs, input) ← decode_fields ts input; Ok (VTuple vs, input)
  | TMap k v =>
      '(remaining, input) ← Legacy.len input;
      '(entries, input) ← items (λ input, '(key, input) ← decode k input;
                                           '(value, input) ← decode v input;
                                           Ok ((key, value), input)) (Z.to_nat remaining) input;
      Ok (VMap entries, input)
  | TEnum vs =>
      '(index, input) ← Legacy.u32 input;
      '(v, input) ← decode_variant vs (Z.to_nat index) input;
      Ok (VEnum index v, input)
  end
with decode_fields (ts : stys) (input : bytes) : result LegacyError (list sval * bytes) :=
  match ts with
  | TNil => Ok ([], input)
  | TCons t ts =>
      '(v, input) ← decode t input;
      '(vs, input) ← decode_fields ts input;
      Ok (v :: vs, input)
  end
with decode_variant (vs : stys) (index : nat) (input : bytes) : result LegacyError (sval * bytes) :=
  match vs, index with
  | TNil, _ => Err (Custom "unknown variant index")
  | TCons t _, O => decode t input
  | TCons _ vs, S index => decode_variant vs index input
  end.

Definition from_slice (t : sty) (l : bytes) : result LegacyError sval :=
  '(value, input) ← decode t l;
  if bool_decide (input = []) then Ok value else Err Trailing.

(** ** The documented layout *)

Definition int_fits (signed : bool) (width : nat) (z : Z) : Prop :=
  if signed then - 256 ^ Z.of_nat width <= 2 * z < 256 ^ Z.of_nat width
  else 0 <= z < 256 ^ Z.of_nat width.

Definition len_bytes (n : nat) : bytes := to_le_bytes 8 (Z.of_nat n).

(** A single UTF-8 scalar. *)
Definition scalar (l : bytes) : Prop :=
  utf8_valid l = true ∧
  match l with lead :: _ => Legacy.char_width lead = Some (Z.of_nat (length l)) | [] => False end.

(** [lays t v l]: the value [v] of type [t] is written as [l]. *)
Fixpoint lays (t : sty) (v : sval) (l : bytes) : Prop :=
  match t, v with
  | TBool, VBool b => l = to_le_bytes 1 (Z.b2z b)
  | TInt signed width, VInt z =>
      int_fits signed width z ∧ l = to_le_bytes width (z mod 256 ^ Z.of_nat width)
  | TFloat width, VFloat bits => int_fits false width bits ∧ l = to_le_bytes width bits
  | TChar, VChar c => scalar c ∧ l = c
  | TStr, VStr s => str_ok s = true ∧ l = len_bytes (length (as_bytes s)) ++ as_bytes s
  | TBytes, VBytes b => l = len_bytes (length b) ++ b
  | TOption _, VNone => l = to_le_bytes 1 0
  | TOption t, VSome v => ∃ l', l = to_le_bytes 1 1 ++ l' ∧ lays t v l'
  | TUnit, VUnit => l = []
  | TNewtype t, VNewtype v => lays t v l
  | TSeq t, VSeq vs => ∃ ls, Forall2 (lays t) vs ls ∧ l = len_bytes (length vs) ++ mjoin ls
  | TTuple ts, VTuple vs => lays_fields ts vs l
  | TMap k v, VMap es =>
      ∃ ls, Forall2 (λ e l, ∃ lk lv, l = lk ++ lv ∧ lays k e.1 lk ∧ lays v e.2 lv) es ls
            ∧ l = len_bytes (length es) ++ mjoin ls
  | TEnum vs, VEnum i v => int_fits false 4 i ∧ ∃ l', l = to_le_bytes 4 i ++ l' ∧ lays_variant vs (Z.to_nat i) v l'
  | _, _ => False
  end
with lays_fields (ts : stys) (vs : list sval) (l : bytes) : Prop :=
  match ts, vs with
  | TNil, [] => l = []
  | TCons t ts, v :: vs => ∃ l1 l2, l = l1 ++ l2 ∧ lays t v l1 ∧ lays_fields ts vs l2
  | _, _ => False
  end
with lays_variant (ts : stys) (i : nat) (v : sval) (l : bytes) : Prop :=
  match ts, i with
  | TNil, _ => False
  | TCons t _, O => lays t v l
  | TCons _ ts, S i => lays_variant ts i v l
  end.

(** Types every value of which takes at least one byte. *)
Fixpoint nonzero (t : sty) : bool :=
  match t with
  | TUnit => false
  | TInt _ w | TFloat w => negb (Nat.eqb w 0)
  | TNewtype t => nonzero t
  | TTuple ts => nonzero_fields ts
  | _ => true
  end
with nonzero_fields (ts : stys) : bool :=
  match ts with TNil => false | TCons t ts => nonzero t || nonzero_fields ts end.

(** Elements of sequences and maps take at least one byte, as in every stored
    record; integers are at least one byte wide. *)
Fixpoint solid (t : sty) : bool :=
  match t with
  | TInt _ w | TFloat w => negb (Nat.eqb w 0)
  | TOption t | TNewtype t => solid t
  | TSeq t => solid t && nonzero t
  | TMap k v => solid k && solid v && (nonzero k || nonzero v)
  | TTuple ts | TEnum ts => solid_all ts
  | _ => true
  end
with solid_all (ts : stys) : bool :=
  match ts with TNil => true | TCons t ts => solid t && solid_all ts end.

Scheme sty_mind := Induction for sty Sort Prop with stys_mind := Induction for stys Sort Prop.

(** ** Readers and what they accept *)

(** [f] accepts exactly the inputs that start with some [R v] and returns [v]
    and the rest. *)
Definition accepts {A} (f : bytes → result LegacyError (A * bytes)) (R : A → bytes → Prop) : Prop :=
  ∀ input v rest, Z.of_nat (length input) <= usize_max →
    f input = Ok (v, rest) ↔ ∃ l, input = l ++ rest ∧ R v l.

Lemma accepts_iff {A} f (R R' : A → bytes → Prop) :
  (∀ v l, R v l ↔ R' v l) → accepts f R → accepts f R'.
Proof. intros H Hf input v rest Hi. rewrite (Hf input v rest Hi). by setoid_rewrite H. Qed.

Lemma accepts_ret {A} (a : A) : accepts (λ i, Ok (a, i)) (λ v l, v = a ∧ l = []).
Proof.
  intros input v rest _. split; [intros [= <- <-]; by exists []|]. by intros (l & -> & -> & ->).
Qed.

Lemma accepts_err {A} e : accepts (λ _, Err e) (λ (_ : A) _, False).
Proof. intros input v rest _. split; [done|]. by intros (l & _ & []). Qed.

Lemma accepts_bind {A B} f (g : A → bytes → result LegacyError (B * bytes)) R S :
  accepts f R → (∀ a, accepts (g a) (S a)) →
  accepts (λ i, '(a, i) ← f i; g a i) (λ b l, ∃ a l1 l2, l = l1 ++ l2 ∧ R a l1 ∧ S a b l2).
Proof.
  intros Hf Hg input v rest Hi. rewrite bind_ok. split.
  - intros ([a r] & Ef & Eg). apply Hf in Ef as (l1 & -> & H1); [|done].
    rewrite length_app in Hi. apply Hg in Eg as (l2 & -> & H2); [|lia].
    exists (l1 ++ l2). rewrite app_assoc. eauto 10.
  - intros (l & -> & a & l1 & l2 & -> & H1 & H2). rewrite <- app_assoc in *. exists (a, l2 ++ rest).
    rewrite length_app in Hi. split; [apply Hf|apply Hg]; rewrite ?length_app in *; eauto; lia.
Qed.

Lemma accepts_map {A B} f (c : A → B) R :
  accepts f R → accepts (λ i, '(a, i) ← f i; Ok (c a, i)) (λ b l, ∃ a, b = c a ∧ R a l).
Proof.
  intros Hf. eapply accepts_iff; [|apply (accepts_bind _ _ _ _ Hf (λ a, accepts_ret (c a)))].
  intros v l. split.
  - intros (a & l1 & l2 & -> & H & -> & ->). rewrite app_nil_r. eauto.
  - intros (a & -> & H). exists a, l, []. by rewrite app_nil_r.
Qed.

Lemma take_accepts n : accepts (Legacy.take (Z.of_nat n)) (λ v l, v = l ∧ length l = n).
Proof.
  intros input v rest _. unfold Legacy.take. rewrite Nat2Z.id. split.
  - destruct (Z.ltb_spec (Z.of_nat (length input)) (Z.of_nat n)); [done|]. intros [= <- <-].
    exists (list.take n input). rewrite take_drop, length_take. split; [done|]. split; [done|lia].
  - intros (l & -> & -> & <-). rewrite length_app, (proj2 (Z.ltb_ge _ _)) by lia.
    by rewrite take_app_length, drop_app_length.
Qed.

Lemma array_accepts n : accepts (Legacy.array n) (λ v l, v = l ∧ length l = n).
Proof.
  eapply accepts_iff; [|apply (accepts_bind _ _ _ (λ a v l, v = a ∧ l = [] ∧ length a = n) (take_accepts n))].
  - intros v l. split; [|intros [-> <-]; exists l, l, []; by rewrite app_nil_r].
    intros (a & l1 & l2 & -> & [-> H] & -> & -> & _). by rewrite app_nil_r.
  - intros a. case_bool_decide.
    + eapply accepts_iff; [|apply accepts_ret]. naive_solver.
    + eapply accepts_iff; [|apply accepts_err]. naive_solver.
Qed.

Lemma uint_accepts n :
  accepts (λ i, '(raw, i) ← Legacy.array n i; Ok (from_le_bytes raw, i))
    (λ v l, int_fits false n v ∧ l = to_le_bytes n v).
Proof.
  eapply accepts_iff; [|apply (accepts_map _ _ _ (array_accepts n))]. intros v l. cbn. split.
  - intros (a & -> & -> & <-). pose proof (from_le_bytes_range l). by rewrite to_from_le_bytes.
  - intros [H ->]. exists (to_le_bytes n v). by rewrite from_to_le_bytes, length_to_le_bytes.
Qed.

Lemma sint_accepts n : n ≠ 0%nat →
  accepts (λ i, '(raw, i) ← Legacy.array n i; Ok (int_of true n raw, i))
    (λ v l, int_fits true n v ∧ l = to_le_bytes n (v mod 256 ^ Z.of_nat n)).
Proof.
  intros Hn. eapply accepts_iff; [|apply (accepts_map _ _ _ (array_accepts n))]. intros v l. cbn.
  assert (∃ h, 256 ^ Z.of_nat n = 2 * h ∧ 0 < h) as (h & Hh & Hh0).
  { exists (128 * 256 ^ (Z.of_nat n - 1)). rewrite <- (Z.succ_pred (Z.of_nat n)) at 1.
    rewrite Z.pow_succ_r by lia. unfold Z.pred. replace (Z.of_nat n + -1) with (Z.of_nat n - 1) by lia.
    pose proof (Z.pow_pos_nonneg 256 (Z.of_nat n - 1)). lia. }
  rewrite Hh. split.
  - intros (a & -> & -> & Hl). pose proof (from_le_bytes_range l) as Hr. rewrite Hl, Hh in Hr.
    unfold int_of. cbn [andb]. rewrite Hh. destruct (Z.leb_spec (2 * h) (2 * from_le_bytes l)).
    + split; [lia|]. rewrite <- (Z.mod_unique (from_le_bytes l - 2 * h) (2 * h) (-1) (from_le_bytes l)) by lia.
      by rewrite <- Hl, to_from_le_bytes.
    + split; [lia|]. rewrite Z.mod_small by lia. by rewrite <- Hl, to_from_le_bytes.
  - intros [H ->]. exists (to_le_bytes n (v mod (2 * h))). rewrite length_to_le_bytes. split; [|done].
    unfold int_of. pose proof (Z.mod_pos_bound v (2 * h) ltac:(lia)). rewrite from_to_le_bytes by lia.
    cbn [andb]. rewrite Hh. destruct (Z.leb_spec (2 * h) (2 * (v mod (2 * h)))) as [Hg|Hg].
    + destruct (Z_lt_le_dec v 0) as [Hv|Hv].
      * rewrite <- (Z.mod_unique v (2 * h) (-1) (v + 2 * h)) in * by lia. lia.
      * rewrite Z.mod_small in Hg by lia. lia.
    + destruct (Z_lt_le_dec v 0) as [Hv|Hv].
      * rewrite <- (Z.mod_unique v (2 * h) (-1) (v + 2 * h)) in * by lia. lia.
      * by rewrite Z.mod_small by lia.
Qed.

Lemma tag_accepts what : accepts (Legacy.tag what) (λ b l, l = to_le_bytes 1 (Z.b2z b)).
Proof.
  eapply accepts_iff; [|apply (accepts_bind _ _ _ (λ t b l, t = Z.b2z b ∧ l = []) (uint_accepts 1))].
  - intros b l. split.
    + intros (t & l1 & l2 & -> & [_ ->] & -> & ->). by rewrite app_nil_r.
    + intros ->. exists (Z.b2z b), (to_le_bytes 1 (Z.b2z b)), []. rewrite app_nil_r. split; [done|].
      split; [|done]. split; [|done]. by destruct b.
  - intros t. destruct (decide (t = 0)) as [->|H0]; [|destruct (decide (t = 1)) as [->|H1]].
    + eapply accepts_iff; [|apply accepts_ret]. intros [] l; naive_solver.
    + eapply accepts_iff; [|apply accepts_ret]. intros [] l; naive_solver.
    + destruct t as [|[]|]; try done; (eapply accepts_iff; [|apply accepts_err]); intros [] l; naive_solver.
Qed.

Lemma len_Ok input n rest :
  Z.of_nat (length input) <= usize_max →
  Legacy.len input = Ok (n, rest) ↔
  ∃ m, n = Z.of_nat m ∧ input = len_bytes m ++ rest ∧ (m <= length rest)%nat.
Proof.
  intros Hi. unfold Legacy.len. rewrite bind_ok. split.
  - intros ([raw r] & Ea & H). apply array_accepts in Ea as (l & -> & -> & Hl); [|done].
    apply bind_ok in H as (m & Hm & [= -> ->]). apply ok_or_ok, bind_Some in Hm as (k & Hk & Hm).
    apply try_from_Some in Hk as [-> _]. destruct (Z.leb_spec (from_le_bytes l) (Z.of_nat (length rest))); [|done].
    injection Hm as <-. pose proof (from_le_bytes_range l). exists (Z.to_nat (from_le_bytes l)).
    unfold len_bytes. rewrite Z2Nat.id by lia. split; [done|]. rewrite <- Hl, to_from_le_bytes. split; [done|lia].
  - intros (m & -> & -> & Hm). rewrite length_app in Hi. unfold len_bytes in *.
    exists (to_le_bytes 8 (Z.of_nat m), rest). split.
    + apply array_accepts; [by rewrite length_app|]. eexists. split; [done|]. by rewrite length_to_le_bytes.
    + unfold usize_max, u64_max in *. rewrite from_to_le_bytes by lia.
      assert (try_from 18446744073709551615 (Z.of_nat m) = Some (Z.of_nat m)) as -> by (apply try_from_Some; lia).
      cbn [mbind option_bind]. by rewrite (proj2 (Z.leb_le _ _)) by lia.
Qed.

(** A length, then what [next n] accepts, which must take at least [n] bytes. *)
Lemma counted_accepts {A} (next : nat → bytes → result LegacyError (A * bytes)) (R : nat → A → bytes → Prop) :
  (∀ n, accepts (next n) (R n)) → (∀ n v l, R n v l → (n <= length l)%nat) →
  accepts (λ i, '(n, i) ← Legacy.len i; next (Z.to_nat n) i) (λ v l, ∃ n l', l = len_bytes n ++ l' ∧ R n v l').
Proof.
  intros Hn Hlen input v rest Hi. rewrite bind_ok. split.
  - intros ([n r] & El & En). apply len_Ok in El as (m & -> & -> & _); [|done]. rewrite Nat2Z.id in En.
    rewrite length_app in Hi. apply Hn in En as (l & -> & HR); [|lia]. exists (len_bytes m ++ l).
    rewrite <- app_assoc. eauto.
  - intros (l & -> & n & l' & -> & HR). exists (Z.of_nat n, l' ++ rest). pose proof (Hlen _ _ _ HR).
    rewrite <- app_assoc in *. split.
    + apply len_Ok; [done|]. exists n. split; [done|]. split; [done|]. rewrite length_app. lia.
    + rewrite Nat2Z.id. rewrite length_app in Hi. apply Hn; [lia|eauto].
Qed.

Lemma accepts_ext {A} (f g : bytes → result LegacyError (A * bytes)) R :
  (∀ input, Z.of_nat (length input) <= usize_max → f input = g input) → accepts f R → accepts g R.
Proof. intros H Hf input v rest Hi. rewrite <- H by done. by apply Hf. Qed.

Lemma bytes_accepts : accepts Legacy.bytes_ (λ v l, l = len_bytes (length v) ++ v).
Proof.
  eapply accepts_ext; [|eapply accepts_iff; [|apply (counted_accepts (λ n, Legacy.take (Z.of_nat n))
    (λ n v l, v = l ∧ length l = n))]].
  - intros input Hi. unfold Legacy.bytes_. destruct (Legacy.len input) as [[n r]|] eqn:E; [|done].
    apply len_Ok in E as (m & -> & _); [|done]. cbn [mbind result_bind]. by rewrite Nat2Z.id.
  - intros v l. split; [by intros (n & l' & -> & -> & <-)|]. intros ->. by exists (length v), v.
  - apply take_accepts.
  - intros n v l [_ <-]. done.
Qed.

Lemma str_accepts :
  accepts Legacy.str (λ s l, str_ok s = true ∧ l = len_bytes (length (as_bytes s)) ++ as_bytes s).
Proof.
  eapply accepts_iff; [|apply (accepts_bind _ _ _ (λ raw s l, s = of_bytes raw ∧ l = [] ∧ utf8_valid raw = true) bytes_accepts)].
  - intros s l. split.
    + intros (raw & l1 & l2 & -> & -> & -> & -> & H). unfold str_ok. by rewrite as_of_bytes, app_nil_r.
    + intros [H ->]. exists (as_bytes s), (len_bytes (length (as_bytes s)) ++ as_bytes s), [].
      by rewrite app_nil_r, of_as_bytes.
  - intros raw. destruct (utf8_valid raw) eqn:E.
    + eapply accepts_iff; [|apply accepts_ret]. naive_solver.
    + eapply accepts_iff; [|apply accepts_err]. naive_solver.
Qed.

Lemma char_width_range lead w : Legacy.char_width lead = Some w → 1 <= w <= 4.
Proof. unfold Legacy.char_width. repeat case_match; naive_solver lia. Qed.

Lemma char_accepts : accepts Legacy.char (λ c l, scalar c ∧ l = c).
Proof.
  intros input v rest Hi. unfold Legacy.char. destruct input as [|lead tail].
  { split; [done|]. intros (l & E & [[_ H] ->]). by destruct v. }
  destruct (Legacy.char_width lead) as [w|] eqn:Ew; cbn [ok_or mbind result_bind].
  2:{ split; [done|]. intros (l & E & [[_ H] ->]). destruct v as [|x v]; [done|]. injection E as -> ->. congruence. }
  pose proof (char_width_range _ _ Ew). replace w with (Z.of_nat (Z.to_nat w)) by lia. rewrite bind_ok. split.
  - intros ([c r] & Et & H'). apply take_accepts in Et as (l & E & -> & Hl); [|done].
    destruct (utf8_valid l) eqn:Eu; [|done]. injection H' as -> ->. exists v. split; [done|]. split; [|done].
    split; [done|]. destruct v as [|x v]; [cbn in Hl; lia|]. injection E as <- _. rewrite Ew, Hl. f_equal. lia.
  - intros (l & E & [Hs ->]). exists (v, rest). destruct Hs as [Hu Hv]. split.
    + apply take_accepts; [done|]. exists v. split; [done|]. split; [done|]. destruct v as [|x v]; [done|].
      injection E as <- _. rewrite Ew in Hv. injection Hv as Hv. cbn [length] in *. lia.
    + by rewrite Hu.
Qed.

Lemma items_accepts {A} (next : bytes → result LegacyError (A * bytes)) R n :
  accepts next R → accepts (items next n) (λ vs l, length vs = n ∧ ∃ ls, Forall2 R vs ls ∧ l = mjoin ls).
Proof.
  intros Hn. induction n as [|n IH]; cbn [items].
  - eapply accepts_iff; [|apply accepts_ret]. intros vs l. split.
    + intros [-> ->]. split; [done|]. exists []. by split; [constructor|].
    + intros [Hl (ls & HF & ->)]. destruct vs; [|done]. by inversion HF.
  - eapply accepts_iff; [|apply (accepts_bind _ _ _ _ Hn (λ v, accepts_map _ (cons v) _ IH))].
    intros vs l. split.
    + intros (v & l1 & l2 & -> & Hv & vs' & -> & <- & ls & HF & ->). split; [done|].
      exists (l1 :: ls). split; [by constructor|done].
    + intros [Hl (ls & HF & ->)]. destruct vs as [|v vs]; [done|]. inversion HF as [|? l1 ? ls' Hv HF']; subst.
      exists v, l1, (mjoin ls'). split_and!; [done|done|]. exists vs. injection Hl as Hl. eauto.
Qed.

(** ** The decoder accepts exactly the layout *)

Lemma len_bytes_nonempty n l : len_bytes n ++ l ≠ [].
Proof. done. Qed.

Lemma lays_variant_some ts i v l : lays_variant ts i v l → ts ≠ TNil.
Proof. by destruct ts. Qed.

Lemma nonzero_lays t v l : nonzero t = true → lays t v l → l ≠ [].
Proof.
  revert t v l. apply (sty_mind (λ t, ∀ v l, nonzero t = true → lays t v l → l ≠ [])
    (λ ts, ∀ vs l, nonzero_fields ts = true → lays_fields ts vs l → l ≠ [])).
  - intros x l _; destruct x; cbn; try done. by intros ->.
  - intros s w x l Hw; destruct x; cbn in *; try done. intros [_ ->]. by destruct w.
  - intros w x l Hw; destruct x; cbn in *; try done. intros [_ ->]. by destruct w.
  - intros x l _; destruct x; cbn; try done. intros [[_ H] ->] ->. done.
  - intros x l _; destruct x; cbn; try done. by intros [_ ->].
  - intros x l _; destruct x; cbn; try done. by intros ->.
  - intros t IH x l _; destruct x; cbn; try done; [by intros ->|]. by intros (l' & -> & _).
  - done.
  - intros t IH x l Hn; destruct x; cbn in *; try done. by apply IH.
  - intros t IH x l _; destruct x; cbn; try done. by intros (ls & _ & ->).
  - intros ts IH x l Hn; destruct x; cbn in *; try done. by apply IH.
  - intros k IHk v IHv x l _; destruct x; cbn; try done. by intros (ls & _ & ->).
  - intros vs IH x l _; destruct x; cbn; try done. by intros (_ & l' & -> & _).
  - done.
  - intros t IHt ts IHts [|v vs] l Hn; cbn in *; [done|]. intros (l1 & l2 & -> & H1 & H2) [-> ->]%app_eq_nil.
    apply orb_true_iff in Hn as [Hn|Hn]; [by eapply IHt|by eapply IHts].
Qed.

Lemma Forall2_join_length {A} (R : A → bytes → Prop) vs ls :
  (∀ v l, R v l → l ≠ []) → Forall2 R vs ls → (length vs <= length (mjoin ls))%nat.
Proof.
  intros Hne. induction 1 as [|v l vs ls H _ IH]; [done|].
  change (mjoin (l :: ls)) with (l ++ mjoin ls). rewrite length_app. cbn [length].
  apply Hne in H. destruct l; [done|]. cbn [length]. lia.
Qed.

(** A counted run of elements. *)
Lemma seq_accepts {A B} (next : bytes → result LegacyError (A * bytes)) (R : A → bytes → Prop) (c : list A → B) :
  accepts next R → (∀ v l, R v l → l ≠ []) →
  accepts (λ i, '(n, i) ← Legacy.len i; '(vs, i) ← items next (Z.to_nat n) i; Ok (c vs, i))
    (λ b l, ∃ vs, b = c vs ∧ ∃ ls, Forall2 R vs ls ∧ l = len_bytes (length vs) ++ mjoin ls).
Proof.
  intros Hn Hne. eapply accepts_iff; [|apply (counted_accepts (λ n i, '(vs, i) ← items next n i; Ok (c vs, i))
    (λ n b l, ∃ vs, b = c vs ∧ length vs = n ∧ ∃ ls, Forall2 R vs ls ∧ l = mjoin ls))].
  - intros b l. split.
    + intros (n & l' & -> & vs & -> & <- & ls & HF & ->). eauto.
    + intros (vs & -> & ls & HF & ->). exists (length vs), (mjoin ls). eauto 10.
  - intros n. apply (accepts_map _ c _ (items_accepts next R n Hn)).
  - intros n b l (vs & -> & <- & ls & HF & ->). by eapply Forall2_join_length.
Qed.

Lemma lays_case {A} (c : A → sval) (R : A → bytes → Prop) (S : sval → bytes → Prop) f :
  (∀ a l, S (c a) l ↔ R a l) → (∀ v l, S v l → ∃ a, v = c a) →
  accepts f (λ v l, ∃ a, v = c a ∧ R a l) → accepts f S.
Proof.
  intros Hc Hs. apply accepts_iff. intros v l. split; [by intros (a & -> & H); apply Hc|].
  intros H. destruct (Hs v l H) as [a ->]. exists a. split; [done|by apply Hc].
Qed.

Lemma accepts_map_map {A B C} f (h : A → B) (c : B → C) R :
  accepts (λ i, '(a, i) ← f i; Ok (h a, i)) R →
  accepts (λ i, '(a, i) ← f i; Ok (c (h a), i)) (λ v l, ∃ b, v = c b ∧ R b l).
Proof.
  intros H. eapply accepts_ext; [|apply (accepts_map _ c _ H)].
  intros input _. cbn beta. by destruct (f input) as [[]|].
Qed.

Ltac by_shape := let x := fresh in let l := fresh in intros x l; destruct x; cbn; naive_solver.

Lemma variant_accepts vs :
  (∀ i, accepts (decode_variant vs i) (lays_variant vs i)) → accepts (decode (TEnum vs)) (lays (TEnum vs)).
Proof.
  intros Hv. eapply accepts_iff; [|apply (accepts_bind _ _ _ _ (uint_accepts 4)
    (λ index, accepts_map _ (VEnum index) _ (Hv (Z.to_nat index))))].
  intros v l. split.
  - intros (i & l1 & l2 & -> & [Hi ->] & v' & -> & H). split; [done|]. by exists l2.
  - destruct v; cbn; try done. intros (Hi & l' & -> & H). exists index, (to_le_bytes 4 index), l'. split; [done|]. split; [by split|]. by exists v.
Qed.

Lemma option_accepts t : accepts (decode t) (lays t) → accepts (decode (TOption t)) (lays (TOption t)).
Proof.
  intros Ht. cbn [decode]. eapply accepts_iff; [|apply (accepts_bind _ _ _
    (λ (some : bool) v l, if some then ∃ v', v = VSome v' ∧ lays t v' l else v = VNone ∧ l = []) (tag_accepts _))].
  - intros v l. split.
    + intros ([] & l1 & l2 & -> & -> & H).
      * destruct H as (v' & -> & H). cbn. eauto.
      * by destruct H as [-> ->].
    + destruct v; cbn; try done.
      * intros ->. exists false, (to_le_bytes 1 0), []. by split_and!.
      * intros (l' & -> & H). exists true, (to_le_bytes 1 1), l'. split_and!; eauto.
  - intros [].
    + apply (accepts_map _ VSome _ Ht).
    + apply accepts_ret.
Qed.

Lemma map_accepts k v :
  nonzero k || nonzero v = true → accepts (decode k) (lays k) → accepts (decode v) (lays v) →
  accepts (decode (TMap k v)) (lays (TMap k v)).
Proof.
  intros Hn Hk Hv.
  eapply (lays_case VMap); [| |apply (seq_accepts _ (λ e l, ∃ lk lv, l = lk ++ lv ∧ lays k e.1 lk ∧ lays v e.2 lv) VMap)];
    [done|by_shape| |].
  - eapply accepts_iff; [|apply (accepts_bind _ _ _ _ Hk (λ key, accepts_map _ (λ x, (key, x)) _ Hv))].
    intros [a b] l. cbn. split; [|naive_solver]. intros (key & l1 & l2 & -> & H1 & x & [= -> ->] & H2). eauto.
  - intros [a b] l (lk & lv & -> & H1 & H2) [-> ->]%app_eq_nil.
    apply orb_true_iff in Hn as [Hn|Hn]; by eapply nonzero_lays.
Qed.

Lemma decode_accepts t : solid t = true → accepts (decode t) (lays t).
Proof.
  revert t. apply (sty_mind (λ t, solid t = true → accepts (decode t) (lays t))
    (λ ts, solid_all ts = true → accepts (decode_fields ts) (lays_fields ts) ∧
       ∀ i, accepts (decode_variant ts i) (lays_variant ts i))).
  - intros _. eapply (lays_case VBool); [| |apply (accepts_map _ _ _ (tag_accepts _))]; [done|by_shape].
  - intros [] w Hw; cbn in Hw.
    + assert (w ≠ 0%nat) as Hw0 by (by destruct w).
      eapply (lays_case VInt); [| |apply (accepts_map_map _ _ VInt _ (sint_accepts w Hw0))]; [done|by_shape].
    + eapply (lays_case VInt); [| |apply (accepts_map_map _ _ VInt _ (uint_accepts w))]; [|by_shape].
      intros z l. cbn. split; intros [H ->]; by rewrite Z.mod_small.
  - intros w _. eapply (lays_case VFloat); [| |apply (accepts_map_map _ _ VFloat _ (uint_accepts w))]; [done|by_shape].
  - intros _. eapply (lays_case VChar); [| |apply (accepts_map _ _ _ char_accepts)]; [done|by_shape].
  - intros _. eapply (lays_case VStr); [| |apply (accepts_map _ _ _ str_accepts)]; [done|by_shape].
  - intros _. eapply (lays_case VBytes); [| |apply (accepts_map _ _ _ bytes_accepts)]; [done|by_shape].
  - intros t IH Ht. by apply option_accepts, IH.
  - intros _. cbn [decode]. eapply accepts_iff; [|apply accepts_ret]. by_shape.
  - intros t IH Ht. eapply (lays_case VNewtype); [| |apply (accepts_map _ _ _ (IH Ht))]; [done|by_shape].
  - intros t IH Ht. cbn in Ht. bool_prop. eapply (lays_case VSeq);
      [| |apply (seq_accepts (decode t) (lays t) VSeq); [by apply IH|intros v l; by apply nonzero_lays]]; [done|by_shape].
  - intros ts IH Ht. eapply (lays_case VTuple); [| |apply (accepts_map _ _ _ (proj1 (IH Ht)))]; [done|by_shape].
  - intros k IHk v IHv Ht. cbn in Ht. bool_prop. by apply map_accepts; auto.
  - intros vs IH Ht. by apply variant_accepts, IH.
  - intros _. split; [|intros i; apply accepts_err]. cbn [decode_fields].
    eapply accepts_iff; [|apply accepts_ret]. intros [|x xs] l; cbn; naive_solver.
  - intros t IHt ts IHts Hs. cbn in Hs. bool_prop. destruct IHts as [Hf Hv]; [done|]. split.
    + cbn [decode_fields]. eapply accepts_iff; [|apply (accepts_bind _ _ _ _ (IHt ltac:(done))
        (λ v, accepts_map _ (cons v) _ Hf))].
      intros [|x vs] l; cbn; naive_solver.
    + intros []; cbn [decode_variant lays_variant]; [by apply IHt|apply Hv].
Qed.

Lemma from_slice_iff t l v :
  solid t = true → Z.of_nat (length l) <= usize_max →
  from_slice t l = Ok v ↔ lays t v l.
Proof.
  intros Hs Hl. unfold from_slice. rewrite bind_ok. split.
  - intros ([x r] & E & H). case_bool_decide as Hr; [|done]. injection H as ->. subst r.
    apply (decode_accepts t Hs) in E as (l' & -> & H); [|done]. by rewrite app_nil_r.
  - intros H. exists (v, []). split; [|done]. apply (decode_accepts t Hs); [done|]. exists l. by rewrite app_nil_r.
Qed.

(** [C36] The legacy decoder accepts exactly the layout earlier releases wrote:
    for every record type whose sequence and map elements take space, bytes
    decode to a value if and only if they are that value's layout, and a layout
    followed by anything is refused as trailing.  So every stored record is read
    back and one input never has two readings. *)
Theorem legacy_exact t l v :
  solid t = true → Z.of_nat (length l) <= usize_max →
  (from_slice t l = Ok v ↔ lays t v l) ∧
  (lays t v l → ∀ rest, rest ≠ [] → Z.of_nat (length (l ++ rest)) <= usize_max →
     from_slice t (l ++ rest) = Err Trailing).
Proof.
  intros Hs Hl. split; [by apply from_slice_iff|]. intros Hv rest Hne Hlen. unfold from_slice.
  rewrite (proj2 (decode_accepts t Hs (l ++ rest) v rest Hlen)) by eauto. cbn [mbind result_bind].
  by rewrite bool_decide_false.
Qed.

(** A record of every kind of field. *)
Definition demo_record : sty :=
  TTuple (TCons TStr (TCons (TOption TStr) (TCons (TSeq (TInt true 2)) (TCons (TEnum (TCons TUnit (TCons TBool TNil))) TNil)))).
Definition demo_value : sval := VTuple [VStr "b"; VNone; VSeq [VInt (-2); VInt 7]; VEnum 1 (VBool true)].
Definition demo_layout : bytes :=
  len_bytes 1 ++ as_bytes "b" ++ to_le_bytes 1 0 ++ len_bytes 2 ++ to_le_bytes 2 65534 ++ to_le_bytes 2 7
    ++ to_le_bytes 4 1 ++ to_le_bytes 1 1.

Lemma legacy_exact_witness :
  from_slice demo_record demo_layout = Ok demo_value ∧ lays demo_record demo_value demo_layout.
Proof.
  split; [by vm_compute|]. by apply (proj1 (legacy_exact demo_record demo_layout demo_value ltac:(by vm_compute) ltac:(by vm_compute))); vm_compute.
Defined.
