(* ===== verification/ObjTypes.v ===== *)
(** * Indexed objects

    The data the LIST index keeps about one key ([src/src/index.rs]): the
    entity tag, the HEAD-only metadata, the entry itself, the O(1) statistics,
    and what a completion or a HEAD lookup reports. *)

From S2P Require Import Prelude.

(** The entity tag of [s3s]: a strong or a weak validator. *)
Inductive ETag :=
| Strong (raw : string)
| Weak (raw : string).

#[global] Instance ETag_eq_dec : EqDecision ETag.
Proof. solve_decision. Defined.

(** An [ObjectStorageClass] is its text. *)
Definition standard_class : string := "STANDARD".

(** User metadata: [HashMap<String, String>]. *)
Abbreviation Metadata := (gmap string string).

Record ObjMeta := mkObjMeta {
  cache_control : option string;
  content_disposition : option string;
  content_encoding : option string;
  content_language : option string;
  metadata : option Metadata;
}.

Definition ObjMeta_default : ObjMeta := mkObjMeta None None None None None.

#[global] Instance ObjMeta_eq_dec : EqDecision ObjMeta.
Proof. solve_decision. Defined.

Record ObjEntry := mkObjEntry {
  size : option Z;
  last_modified : Z;
  etag : option ETag;
  storage_class : string;
  content_type : option string;
  meta : option ObjMeta;
}.

#[global] Instance ObjEntry_eq_dec : EqDecision ObjEntry.
Proof. solve_decision. Defined.

Definition is_faithful (e : ObjEntry) : bool :=
  is_some (size e) && is_some (etag e) && is_some (content_type e) && is_some (meta e).

(** An origin time in whole seconds, [None] before the epoch. *)
Definition origin_time (unix_secs : Z) : option Z :=
  (λ secs, UNIX_EPOCH + from_secs secs) <$> try_from u64_max unix_secs.

(** What an origin response adds to an already indexed entry. *)
Record EntryFill := mkEntryFill {
  fill_size : option Z;
  fill_etag : option ETag;
  fill_content_type : option string;
  fill_meta : ObjMeta;
}.

Inductive Completion := NotIndexed | AlreadyComplete | Completed | OtherVersion.

(** The fields of an [s3s] HEAD output the index sets; every other field
    keeps its default. *)
Record HeadObjectOutput := mkHead {
  h_content_length : option Z;
  h_last_modified : option Z;
  h_e_tag : option ETag;
  h_content_type : option string;
  h_accept_ranges : option string;
  h_cache_control : option string;
  h_content_disposition : option string;
  h_content_encoding : option string;
  h_content_language : option string;
  h_metadata : option Metadata;
}.

Inductive IndexedHead :=
| Faithful (out : HeadObjectOutput)
| Incomplete
| Absent.

(** ** Statistics *)

Record IndexStats := mkStats { objects : Z; logical_bytes : Z }.

Definition stats_zero : IndexStats := mkStats 0 0.

Module Stats.
Definition for_entry (e : ObjEntry) : IndexStats :=
  mkStats 1 (default 0 (size e ≫= try_from u64_max)).

Definition replace (s previous current : IndexStats) : IndexStats :=
  mkStats
    (saturating_add u64_max (saturating_sub (objects s) (objects previous)) (objects current))
    (saturating_add u64_max (saturating_sub (logical_bytes s) (logical_bytes previous))
       (logical_bytes current)).
End Stats.

(** The bytes one row accounts for. *)
Definition entry_logical (e : ObjEntry) : Z := logical_bytes (Stats.for_entry e).

Lemma entry_logical_range e : 0 <= entry_logical e <= u64_max.
Proof.
  unfold entry_logical, Stats.for_entry. cbn. destruct (size e) as [z|]; cbn; [|done].
  unfold try_from. destruct (fits u64_max z) eqn:E; cbn; [|done]. by apply fits_spec in E.
Qed.

Lemma replace_exact s p c :
  objects p <= objects s → logical_bytes p <= logical_bytes s →
  objects s - objects p + objects c <= u64_max →
  logical_bytes s - logical_bytes p + logical_bytes c <= u64_max →
  Stats.replace s p c =
    mkStats (objects s - objects p + objects c)
            (logical_bytes s - logical_bytes p + logical_bytes c).
Proof.
  intros. unfold Stats.replace, saturating_add, saturating_sub. f_equal; lia.
Qed.
