(* ===== verification/ListToken.v ===== *)
(** * LIST continuation tokens

    [src/src/list_token.rs] with [codec::from_slice] of [src/src/codec.rs].
    The token carries the request shape and an exclusive cursor under a
    checksum.  Postcard, base64 and BLAKE3 are third-party code and parameters
    of the model; the v1 layout is read by the legacy decoder. *)

From S2P Require Import Prelude.
From S2P Require Import LegacyCodec.
From S2P Require Import ObjTypes.


(** The fields of [s3s]'s [ListObjectsV2Input] this code reads or changes. *)
Record ListInput := mkListInput {
  li_bucket : string;
  li_prefix : option string;
  li_delimiter : option string;
  li_max_keys : option Z;
  li_start_after : option string;
  li_continuation_token : option string;
  li_encoding_type : option string;
  li_fetch_owner : option bool;
  li_expected_bucket_owner : option string;
}.

(** One [Object] row of the answer; every other field keeps its default. *)
Record Object := mkObject {
  o_key : option string;
  o_size : option Z;
  o_last_modified : option Z;
  o_e_tag : option ETag;
  o_storage_class : option string;
}.

Record ListOutput := mkListOutput {
  lo_name : option string;
  lo_prefix : option string;
  lo_max_keys : option Z;
  lo_key_count : option Z;
  lo_is_truncated : option bool;
  lo_continuation_token : option string;
  lo_next_continuation_token : option string;
  lo_contents : option (list Object);
  lo_common_prefixes : option (list string);
  lo_delimiter : option string;
  lo_start_after : option string;
}.

Definition OWNED_NAMESPACE : string := "s3cache:list-token:".
Definition V1_PREFIX : string := "s3cache:list-token:v1:".
Definition V2_PREFIX : string := "s3cache:list-token:v2:".
Definition CHECKSUM_BYTES : nat := 16.
Definition MAX_PAYLOAD_BYTES : Z := 16 * 1024.

Record Payload := mkPayload {
  p_bucket : string;
  p_prefix : option string;
  p_delimiter : option string;
  p_cursor : string;
}.

Inductive Continuation :=
| Absent
| Origin
| Local (token cursor : string).

Inductive TokenError := Malformed | RequestMismatch.

(** ** Parameters *)

Class TokenEnv := {
  postcard_to_stdvec : Payload → bytes;
  postcard_take_from_bytes : bytes → option (Payload * bytes);
  b64_encode : bytes → string;                (* URL_SAFE_NO_PAD *)
  b64_decode : string → option bytes;
  blake3_hash : bytes → bytes;
}.

(** Documented behaviour: both formats round-trip, and a digest has 32 bytes. *)
Class TokenLaws (E : TokenEnv) : Prop := {
  postcard_roundtrip p rest :
    postcard_take_from_bytes (postcard_to_stdvec p ++ rest) = Some (p, rest);
  b64_roundtrip l : b64_decode (b64_encode l) = Some l;
  blake3_length l : length (blake3_hash l) = 32%nat;
}.

Section token.
Context {E : TokenEnv}.

(** [codec::to_vec] and [codec::from_slice]: exactly one value. *)
Definition codec_to_vec (p : Payload) : bytes := postcard_to_stdvec p.

Definition codec_from_slice (l : bytes) : option Payload :=
  '(value, rest) ← postcard_take_from_bytes l;
  if bool_decide (rest = []) then Some value else None.

(** [Payload] as the legacy decoder's target. *)
Definition payload_ty : sty := TTuple (TCons TStr (TCons (TOption TStr) (TCons (TOption TStr) (TCons TStr TNil)))).

Definition opt_str (v : sval) : option (option string) :=
  match v with VNone => Some None | VSome (VStr s) => Some (Some s) | _ => None end.

Definition payload_of (v : sval) : option Payload :=
  match v with
  | VTuple [VStr bucket; prefix; delimiter; VStr cursor] =>
      prefix ← opt_str prefix;
      delimiter ← opt_str delimiter;
      Some (mkPayload bucket prefix delimiter cursor)
  | _ => None
  end.

Definition legacy_payload (l : bytes) : option Payload :=
  match from_slice payload_ty l with Ok v => payload_of v | Err _ => None end.

Definition classify (input : ListInput) : result TokenError Continuation :=
  match li_continuation_token input with
  | None => Ok Absent
  | Some token =>
      if negb (starts_with OWNED_NAMESPACE token) then Ok Origin
      else
        '(encoded, legacy) ← match strip_prefix V2_PREFIX token with
                             | Some encoded => Ok (encoded, false)
                             | None => encoded ← ok_or (strip_prefix V1_PREFIX token) Malformed;
                                       Ok (encoded, true)
                             end;
        framed ← ok_or (b64_decode encoded) Malformed;
        _ ← refuse_if ((length framed <=? CHECKSUM_BYTES)%nat
                       || (MAX_PAYLOAD_BYTES + Z.of_nat CHECKSUM_BYTES <? Z.of_nat (length framed))) Malformed;
        let payload_len := (length framed - CHECKSUM_BYTES)%nat in
        let payload := take payload_len framed in
        let checksum := drop payload_len framed in
        let digest := blake3_hash payload in
        _ ← refuse_if (negb (bool_decide (checksum = take CHECKSUM_BYTES digest))) Malformed;
        decoded ← ok_or (if legacy : bool then legacy_payload payload else codec_from_slice payload) Malformed;
        _ ← refuse_if (negb (bool_decide (p_bucket decoded = li_bucket input))
                       || negb (bool_decide (p_prefix decoded = li_prefix input))
                       || negb (bool_decide (p_delimiter decoded = li_delimiter input))) RequestMismatch;
        Ok (Local token (p_cursor decoded))
  end.

Definition frame (payload : bytes) : string :=
  b64_encode (payload ++ take CHECKSUM_BYTES (blake3_hash payload)).

Definition encode (input : ListInput) (cursor : string) : string :=
  let payload := mkPayload (li_bucket input) (li_prefix input) (li_delimiter input) cursor in
  let l := codec_to_vec payload in
  let digest := blake3_hash l in
  V2_PREFIX +:+ b64_encode (l ++ take CHECKSUM_BYTES digest).
End token.

(** ** Serving an owned cursor from the origin *)

Record OriginEnvelope := mkEnvelope {
  env_continuation_token : string;
  env_start_after : option string;
}.

Definition restore (env : OriginEnvelope) (output : ListOutput) : ListOutput :=
  mkListOutput (lo_name output) (lo_prefix output) (lo_max_keys output) (lo_key_count output)
    (lo_is_truncated output) (Some (env_continuation_token env)) (lo_next_continuation_token output)
    (lo_contents output) (lo_common_prefixes output) (lo_delimiter output) (env_start_after env).

Definition rewrite_for_origin (input : ListInput) (token cursor : string) : OriginEnvelope * ListInput :=
  (mkEnvelope token (li_start_after input),
   mkListInput (li_bucket input) (li_prefix input) (li_delimiter input) (li_max_keys input)
     (Some cursor) None (li_encoding_type input) (li_fetch_owner input) (li_expected_bucket_owner input)).

(** ** Token theorems *)

Definition with_token (input : ListInput) (token : option string) : ListInput :=
  mkListInput (li_bucket input) (li_prefix input) (li_delimiter input) (li_max_keys input)
    (li_start_after input) token (li_encoding_type input) (li_fetch_owner input)
    (li_expected_bucket_owner input).

(** The request shape a token is bound to. *)
Definition same_shape (a b : ListInput) : bool :=
  bool_decide (li_bucket a = li_bucket b ∧ li_prefix a = li_prefix b ∧ li_delimiter a = li_delimiter b).

Section token_props.
Context {E : TokenEnv} {EL : TokenLaws E}.

Lemma classify_framed (input : ListInput) (legacy : bool) payload p :
  0 < Z.of_nat (length payload) <= MAX_PAYLOAD_BYTES →
  (if legacy then legacy_payload payload else codec_from_slice payload) = Some p →
  let token := (if legacy then V1_PREFIX else V2_PREFIX) +:+ frame payload in
  classify (with_token input (Some token)) =
    if bool_decide (p_bucket p = li_bucket input ∧ p_prefix p = li_prefix input ∧ p_delimiter p = li_delimiter input)
    then Ok (Local token (p_cursor p)) else Err RequestMismatch.
Proof.
  intros Hlen Hp token. unfold classify. cbn [with_token li_continuation_token].
  assert (starts_with OWNED_NAMESPACE token = true) as ->.
  { apply starts_with_spec. subst token. destruct legacy; eexists; done. }
  assert ((match strip_prefix V2_PREFIX token with
           | Some encoded => Ok (encoded, false)
           | None => encoded ← ok_or (strip_prefix V1_PREFIX token) Malformed; Ok (encoded, true)
           end) = Ok (frame payload, legacy)) as ->.
  { subst token. destruct legacy; [|by rewrite strip_prefix_append].
    rewrite strip_prefix_append. done. }
  cbn [negb mbind result_bind]. unfold frame. rewrite b64_roundtrip. cbn [ok_or mbind result_bind].
  assert (length (take CHECKSUM_BYTES (blake3_hash payload)) = CHECKSUM_BYTES) as Hck.
  { rewrite length_take, blake3_length. done. }
  rewrite length_app, Hck. replace (length payload + CHECKSUM_BYTES - CHECKSUM_BYTES)%nat with (length payload) by lia.
  rewrite take_app_length, drop_app_length, bool_decide_true by done.
  rewrite (proj2 (Nat.leb_gt _ _)), (proj2 (Z.ltb_ge _ _)) by (unfold CHECKSUM_BYTES in *; lia).
  cbn [orb negb refuse_if mbind result_bind]. rewrite Hp. cbn [ok_or mbind result_bind].
  destruct (decide (p_bucket p = li_bucket input)) as [H1|H1], (decide (p_prefix p = li_prefix input)) as [H2|H2],
    (decide (p_delimiter p = li_delimiter input)) as [H3|H3].
  all: rewrite ?(bool_decide_true _ H1), ?(bool_decide_true _ H2), ?(bool_decide_true _ H3),
    ?(bool_decide_false _ H1), ?(bool_decide_false _ H2), ?(bool_decide_false _ H3); cbn [negb orb refuse_if mbind result_bind].
  all: (rewrite bool_decide_true by tauto) || (rewrite bool_decide_false by tauto); done.
Qed.

(** The payload of a token for [input] at [cursor] is within the size a replica
    accepts. *)
Definition token_fits (input : ListInput) (cursor : string) : Prop :=
  0 < Z.of_nat (length (codec_to_vec (mkPayload (li_bucket input) (li_prefix input) (li_delimiter input) cursor)))
    <= MAX_PAYLOAD_BYTES.

Lemma classify_encode input other cursor :
  token_fits input cursor →
  classify (with_token other (Some (encode input cursor))) =
    if same_shape input other then Ok (Local (encode input cursor) cursor) else Err RequestMismatch.
Proof.
  unfold token_fits. intros Hlen. set (p := mkPayload _ _ _ _) in *.
  etrans; [apply (classify_framed other false (codec_to_vec p) p Hlen)|done].
  unfold codec_from_slice, codec_to_vec. rewrite <- (app_nil_r (postcard_to_stdvec p)), postcard_roundtrip. done.
Qed.

(** A token minted here is accepted by any replica for exactly the request
    it was minted for: the cursor comes back unchanged, a request with another
    bucket, prefix or delimiter is refused, and a token outside the reserved
    namespace is left to the origin. *)
Theorem token_roundtrip input other cursor token :
  token_fits input cursor →
  classify (with_token other (Some (encode input cursor))) =
    (if same_shape input other then Ok (Local (encode input cursor) cursor) else Err RequestMismatch) ∧
  (starts_with OWNED_NAMESPACE token = false → classify (with_token other (Some token)) = Ok Origin).
Proof.
  intros Hf. split; [by apply classify_encode|]. intros Ht. unfold classify. cbn [with_token li_continuation_token].
  by rewrite Ht.
Qed.

(** Tokens minted by the first layout keep their clients paging: the frame
    of any legacy payload is accepted under the v1 prefix for the request it
    names, and yields its cursor. *)
Theorem legacy_token_accepted input v payload p :
  lays payload_ty v payload → payload_of v = Some p → payload ≠ [] →
  Z.of_nat (length payload) <= MAX_PAYLOAD_BYTES →
  p_bucket p = li_bucket input → p_prefix p = li_prefix input → p_delimiter p = li_delimiter input →
  classify (with_token input (Some (V1_PREFIX +:+ frame payload))) =
    Ok (Local (V1_PREFIX +:+ frame payload) (p_cursor p)).
Proof.
  intros Hl Hv Hne Hlen H1 H2 H3. assert (0 < Z.of_nat (length payload)) by (destruct payload; [done|cbn; lia]).
  rewrite (classify_framed input true payload p ltac:(lia)); [by rewrite bool_decide_true|].
  unfold legacy_payload. rewrite (proj2 (from_slice_iff payload_ty payload v eq_refl
    ltac:(unfold MAX_PAYLOAD_BYTES, usize_max, u64_max in *; lia))); done.
Qed.
End token_props.

(** ** A concrete environment *)

(** A self-delimiting payload codec, for concrete evaluation. *)
Definition put_str (s : string) : bytes :=
  replicate (length (as_bytes s)) Byte.x01 ++ Byte.x00 :: as_bytes s.

Fixpoint count_ones (l : bytes) : nat * bytes :=
  match l with
  | Byte.x01 :: l => let '(n, l) := count_ones l in (S n, l)
  | _ :: l => (O, l)
  | [] => (O, [])
  end.

Definition get_str (l : bytes) : string * bytes :=
  let '(n, l) := count_ones l in (of_bytes (take n l), drop n l).

Definition put_opt (o : option string) : bytes :=
  match o with None => [Byte.x00] | Some s => Byte.x01 :: put_str s end.
Definition get_opt (l : bytes) : option string * bytes :=
  match l with
  | Byte.x01 :: l => let '(s, l) := get_str l in (Some s, l)
  | _ :: l => (None, l)
  | [] => (None, [])
  end.

Lemma get_put_str s rest : get_str (put_str s ++ rest) = (s, rest).
Proof.
  unfold get_str, put_str. rewrite <- app_assoc.
  assert (∀ n t, count_ones (replicate n Byte.x01 ++ Byte.x00 :: t) = (n, t)) as E.
  { intros n t. induction n as [|n IH]; [done|]. cbn. by rewrite IH. }
  cbn [app]. rewrite E, take_app_length, drop_app_length. by rewrite of_as_bytes.
Qed.

Lemma get_put_opt o rest : get_opt (put_opt o ++ rest) = (o, rest).
Proof. destruct o as [s|]; [|done]. cbn. by rewrite get_put_str. Qed.

Definition demo_env : TokenEnv := {|
  postcard_to_stdvec p := put_str (p_bucket p) ++ put_opt (p_prefix p) ++ put_opt (p_delimiter p) ++ put_str (p_cursor p);
  postcard_take_from_bytes l :=
    let '(b, l) := get_str l in let '(p, l) := get_opt l in let '(d, l) := get_opt l in
    let '(c, l) := get_str l in Some (mkPayload b p d c, l);
  b64_encode := of_bytes;
  b64_decode s := Some (as_bytes s);
  blake3_hash l := take 32 (l ++ replicate 32 Byte.x00);
|}.

Lemma demo_laws : TokenLaws demo_env.
Proof.
  split; cbn [demo_env postcard_to_stdvec postcard_take_from_bytes b64_encode b64_decode blake3_hash].
  - intros [b p d c] rest. cbn [p_bucket p_prefix p_delimiter p_cursor]. rewrite <- !app_assoc. by rewrite get_put_str, !get_put_opt, get_put_str.
  - intros l. by rewrite as_of_bytes.
  - intros l. rewrite length_take, length_app, length_replicate. lia.
Qed.

#[local] Existing Instance demo_env.
#[local] Existing Instance demo_laws.

Definition demo_input : ListInput := mkListInput "photos" (Some "a/") (Some "/") (Some 2) None None None None None.
Definition other_input : ListInput := mkListInput "photos" (Some "b/") (Some "/") (Some 2) None None None None None.

Lemma token_roundtrip_witness :
  classify (with_token demo_input (Some (encode demo_input "a/k"))) = Ok (Local (encode demo_input "a/k") "a/k") ∧
  classify (with_token other_input (Some (encode demo_input "a/k"))) = Err RequestMismatch.
Proof.
  split.
  - rewrite (proj1 (token_roundtrip demo_input demo_input "a/k" "" ltac:(by vm_compute))). by vm_compute.
  - rewrite (proj1 (token_roundtrip demo_input other_input "a/k" "" ltac:(by vm_compute))). by vm_compute.
Defined.

Lemma legacy_token_accepted_witness :
  let payload := len_bytes 1 ++ as_bytes "b" ++ to_le_bytes 1 0 ++ to_le_bytes 1 0 ++ len_bytes 1 ++ as_bytes "k" in
  classify (with_token (mkListInput "b" None None None None None None None None) (Some (V1_PREFIX +:+ frame payload))) =
    Ok (Local (V1_PREFIX +:+ frame payload) "k").
Proof.
  intros payload.
  apply (legacy_token_accepted _ (VTuple [VStr "b"; VNone; VNone; VStr "k"]) payload (mkPayload "b" None None "k"));
    [|by vm_compute..].
  apply from_slice_iff; by vm_compute.
Defined.
