(* ===== verification/ImageCodec.v ===== *)
(** * Wire codec of index rows

    The bounded writer and reader, the size and charge accounting, and the
    row codec of [src/src/index/fleet.rs], with the single-effect codec of
    [src/src/index/fleet/delta.rs].  The pure encodings [enc_*] are the
    specification: a writer that succeeds has appended exactly that encoding,
    and a reader positioned on it reads the value back. *)

From S2P Require Import Prelude.
From S2P Require Import ObjTypes.

(** ** Parameters

    [std::mem::size_of] of the row and table types is fixed by the compiler,
    and the textual form of an entity tag is parsed by [s3s]. *)

Class Layout := {
  size_of_String : Z;
  size_of_bucket_slot : Z;      (* (String, BucketState) *)
  size_of_KeyIndexState : Z;
  size_of_live_row : Z;         (* (String, ObjEntry) *)
  size_of_gone_row : Z;         (* (String, SystemTime) *)
  size_of_ETag : Z;
  size_of_ObjectStorageClass : Z;
}.

(** Each of these types is a struct of at most a few hundred bytes. *)
Class LayoutOk (L : Layout) : Prop := {
  layout_String : 0 <= size_of_String <= u16_max;
  layout_bucket_slot : 0 <= size_of_bucket_slot <= u16_max;
  layout_KeyIndexState : 0 <= size_of_KeyIndexState <= u16_max;
  layout_live_row : 0 <= size_of_live_row <= u16_max;
  layout_gone_row : 0 <= size_of_gone_row <= u16_max;
  layout_ETag : 0 <= size_of_ETag <= u16_max;
  layout_class : 0 <= size_of_ObjectStorageClass <= u16_max;
}.

(** Sizes of a 64-bit build, for concrete evaluation. *)
Definition layout64 : Layout := {|
  size_of_String := 24;
  size_of_bucket_slot := 336;
  size_of_KeyIndexState := 176;
  size_of_live_row := 160;
  size_of_gone_row := 40;
  size_of_ETag := 32;
  size_of_ObjectStorageClass := 24;
|}.

Lemma layout64_ok : LayoutOk layout64.
Proof. by repeat split. Qed.

(** [<ETag as FromStr>::from_str] of [s3s]. *)
Class EtagParse := etag_parse : string → option ETag.

(** ** Caps and errors *)

Record ImageCaps := mkCaps {
  cap_bytes : Z;
  cap_decoded_bytes : Z;
  cap_buckets : Z;
  cap_rows : Z;
  cap_name_bytes : Z;
}.

Inductive ImageError := Capacity | Incomplete | Corrupt | Schema.

#[global] Instance ImageError_eq_dec : EqDecision ImageError.
Proof. solve_decision. Defined.

Definition validate (c : ImageCaps) : result ImageError ImageCaps :=
  if (cap_bytes c =? 0) || (Z.shiftl 256 20 <? cap_bytes c)
     || (cap_decoded_bytes c =? 0) || (Z.shiftl 1 30 <? cap_decoded_bytes c)
     || (cap_buckets c =? 0) || (4096 <? cap_buckets c)
     || (cap_rows c =? 0) || (2000000 <? cap_rows c)
     || (cap_name_bytes c =? 0) || (16384 <? cap_name_bytes c)
  then Err Capacity
  else Ok c.

(** ** Writer *)

Record Writer := mkWriter { w_bytes : bytes; w_limit : Z }.

Module W.
Definition new (limit : Z) : result ImageError Writer :=
  if limit =? 0 then Err Capacity else Ok (mkWriter [] limit).

Definition put (w : Writer) (value : bytes) : result ImageError Writer :=
  if is_none_or (λ end_, w_limit w <? end_)
       (checked_add usize_max (Z.of_nat (length (w_bytes w))) (Z.of_nat (length value)))
  then Err Capacity
  else Ok (mkWriter (w_bytes w ++ value) (w_limit w)).

Definition u8 (w : Writer) (value : Z) : result ImageError Writer :=
  put w (to_le_bytes 1 value).

Definition u32 (w : Writer) (value : Z) : result ImageError Writer :=
  value ← ok_or (try_from u32_max value) Capacity;
  put w (to_le_bytes 4 value).

Definition u64 (w : Writer) (value : Z) : result ImageError Writer :=
  put w (to_le_bytes 8 value).

(** Two's complement: [i64::to_le_bytes]. *)
Definition i64 (w : Writer) (value : Z) : result ImageError Writer :=
  put w (to_le_bytes 8 (value mod (u64_max + 1))).

Definition text (w : Writer) (value : string) (cap : Z) : result ImageError Writer :=
  if sempty value || (cap <? slen value) then Err Capacity
  else w ← u32 w (slen value); put w (as_bytes value).
End W.

(** ** Reader *)

Record Reader := mkReader { r_bytes : bytes; r_offset : Z }.

Module R.
(** [bytes.get(from..to)]. *)
Definition slice (l : bytes) (from to : Z) : option bytes :=
  if (from <=? to) && (to <=? Z.of_nat (length l))
  then Some (take (Z.to_nat (to - from)) (drop (Z.to_nat from) l)) else None.

Definition take (r : Reader) (count : Z) : result ImageError (bytes * Reader) :=
  end_ ← ok_or (checked_add usize_max (r_offset r) count) Corrupt;
  part ← ok_or (slice (r_bytes r) (r_offset r) end_) Corrupt;
  Ok (part, mkReader (r_bytes r) end_).

Definition u8 (r : Reader) : result ImageError (Z * Reader) :=
  '(raw, r) ← take r 1; Ok (from_le_bytes raw, r).

Definition u32 (r : Reader) : result ImageError (Z * Reader) :=
  '(raw, r) ← take r 4; Ok (from_le_bytes raw, r).

Definition u64 (r : Reader) : result ImageError (Z * Reader) :=
  '(raw, r) ← take r 8; Ok (from_le_bytes raw, r).

(** [i64::from_le_bytes]. *)
Definition i64 (r : Reader) : result ImageError (Z * Reader) :=
  '(raw, r) ← take r 8;
  let v := from_le_bytes raw in
  Ok (if v <=? i64_max then v else v - (u64_max + 1), r).

Definition text (r : Reader) (cap : Z) : result ImageError (string * Reader) :=
  '(size, r) ← u32 r;
  _ ← refuse_if ((size =? 0) || (cap <? size)) Capacity;
  '(raw, r) ← take r size;
  _ ← refuse_if (negb (utf8_valid raw)) Corrupt;
  Ok (of_bytes raw, r).
End R.

(** ** Charges and sizes *)

Record DecodeBudget := mkBudget { b_used : Z; b_limit : Z }.

Module Budget.
Definition new (limit : Z) : result ImageError DecodeBudget :=
  if limit =? 0 then Err Capacity else Ok (mkBudget 0 limit).

Definition take (b : DecodeBudget) (n : Z) : result ImageError DecodeBudget :=
  used ← ok_or (checked_add usize_max (b_used b) n) Capacity;
  if b_limit b <? used then Err Capacity else Ok (mkBudget used (b_limit b)).
End Budget.

Definition HASH_SLOTS_PER_BUCKET : Z := 4.
Definition HASH_MIN_SLOTS : Z := 8.
Definition TREE_SLOTS_PER_ROW : Z := 3.
Definition TREE_BYTES_PER_ROW : Z := 64.
Definition TIMESTAMP_BYTES : Z := 12.
Definition HEADER_BYTES : Z := 1 + 4.

Record ImageSize := mkImageSize {
  encoded_bytes : Z;
  decoded_bytes : Z;
  image_rows : Z;
}.

(** [sum]: the parts added from zero, refusing the first overflow. *)
Definition sum_from (total : option Z) (parts : list Z) : option Z :=
  foldl (λ total part, t ← total; checked_add usize_max t part) total parts.

Definition sum (parts : list Z) : result ImageError Z :=
  ok_or (sum_from (Some 0) parts) Capacity.

Definition text_bytes (len : Z) : result ImageError Z := sum [4; len].

Definition map_entry_charge (size_of_T count : Z) : result ImageError Z :=
  ok_or
    (slots ← checked_mul usize_max count TREE_SLOTS_PER_ROW;
     n ← checked_mul usize_max slots size_of_T;
     extra ← checked_mul usize_max count TREE_BYTES_PER_ROW;
     checked_add usize_max n extra)
    Capacity.

Definition bucket_slots (count : Z) : result ImageError Z :=
  ok_or
    (slots ← checked_mul usize_max count HASH_SLOTS_PER_BUCKET;
     checked_add usize_max slots HASH_MIN_SLOTS)
    Capacity.

Definition quote : string := String (Ascii.ascii_of_nat 34) EmptyString.

(** The text form of an entity tag: its opening and its raw part. *)
Definition etag_wire (value : ETag) : string * string :=
  match value with
  | Strong raw => (quote, raw)
  | Weak raw => ("W/" +:+ quote, raw)
  end.

Definition etag_text_len (value : ETag) : result ImageError Z :=
  let '(prefix, raw) := etag_wire value in sum [slen prefix; slen raw; 1].

Section charges.
Context {L : Layout}.

Definition state_charge (buckets : Z) : result ImageError Z :=
  slots ← bucket_slots buckets;
  table ← ok_or (checked_mul usize_max slots (size_of_bucket_slot + 16)) Capacity;
  sum [size_of_KeyIndexState; table].

Definition bucket_charge (name : Z) : result ImageError Z :=
  sum [name; size_of_String].

Definition entry_charge (key : Z) (etag : option Z) (class : Z) : result ImageError Z :=
  etag ← match etag with
         | Some len =>
             ok_or (n ← checked_mul usize_max len 2; checked_add usize_max n size_of_ETag)
               Capacity
         | None => Ok 0
         end;
  row ← map_entry_charge size_of_live_row 1;
  sum [key; row; etag; class; size_of_ObjectStorageClass].

Definition gone_charge (key : Z) : result ImageError Z :=
  row ← map_entry_charge size_of_gone_row 1;
  sum [key; row].
End charges.

Definition entry_bytes (key : Z) (e : ObjEntry) : result ImageError Z :=
  let size := if is_some (size e) then 1 + 8 else 1 in
  etag ← match etag e with
         | Some tag => len ← etag_text_len tag; n ← text_bytes len; Ok (1 + n)
         | None => Ok 1
         end;
  name ← text_bytes key;
  class ← text_bytes (slen (storage_class e));
  sum [name; size; TIMESTAMP_BYTES; etag; class].

Definition gone_bytes (key : Z) : result ImageError Z :=
  name ← text_bytes key;
  sum [name; TIMESTAMP_BYTES].

Definition bucket_bytes (name : Z) : result ImageError Z :=
  text ← text_bytes name;
  sum [text; 4; 4].

(** ** Tallies *)

Record ImageTally := mkTally { t_encoded : Z; t_decoded : Z }.

Definition tally_zero : ImageTally := mkTally 0 0.

Definition unwrap_or {E} (r : result E Z) (d : Z) : Z :=
  match r with Ok z => z | Err _ => d end.

Module Tally.
Section tally.
Context {L : Layout}.

Definition entry (key : Z) (e : ObjEntry) : ImageTally :=
  let decoded :=
    tag ← match etag e with
          | Some tag => len ← etag_text_len tag; Ok (Some len)
          | None => Ok None
          end;
    entry_charge key tag (slen (storage_class e)) in
  mkTally (unwrap_or (entry_bytes key e) usize_max) (unwrap_or decoded usize_max).

Definition tombstone (key : Z) : ImageTally :=
  mkTally (unwrap_or (gone_bytes key) usize_max) (unwrap_or (gone_charge key) usize_max).
End tally.

Definition add (t row : ImageTally) : ImageTally :=
  mkTally (wrapping_add usize_max (t_encoded t) (t_encoded row))
          (wrapping_add usize_max (t_decoded t) (t_decoded row)).

Definition sub (t row : ImageTally) : ImageTally :=
  mkTally (wrapping_sub usize_max (t_encoded t) (t_encoded row))
          (wrapping_sub usize_max (t_decoded t) (t_decoded row)).
End Tally.

(** ** Rows on the wire *)

Definition timestamp (w : Writer) (value : Z) : result ImageError Writer :=
  if value <? UNIX_EPOCH then Err Corrupt
  else w ← W.u64 w (value / nanos_per_sec); W.u32 w (value mod nanos_per_sec).

Definition read_timestamp (r : Reader) : result ImageError (Z * Reader) :=
  '(seconds, r) ← R.u64 r;
  '(nanos, r) ← R.u32 r;
  _ ← refuse_if (1000000000 <=? nanos) Corrupt;
  nanos ← ok_or (try_from u32_max nanos) Corrupt;
  t ← ok_or (time_checked_add UNIX_EPOCH (from_secs seconds + nanos)) Corrupt;
  Ok (t, r).

Definition write_etag (w : Writer) (value : ETag) (cap : Z) : result ImageError Writer :=
  let '(prefix, raw) := etag_wire value in
  len ← etag_text_len value;
  _ ← refuse_if (cap <? len) Capacity;
  w ← W.u32 w len;
  w ← W.put w (as_bytes prefix);
  w ← W.put w (as_bytes raw);
  W.put w (as_bytes quote).

Definition write_entry (w : Writer) (key : string) (e : ObjEntry) (name_bytes : Z)
    : result ImageError Writer :=
  w ← W.text w key name_bytes;
  w ← match size e with
      | Some size =>
          if 0 <=? size then w ← W.u8 w 1; W.i64 w size else Err Corrupt
      | None => W.u8 w 0
      end;
  w ← timestamp w (last_modified e);
  w ← match etag e with
      | Some tag => w ← W.u8 w 1; write_etag w tag name_bytes
      | None => W.u8 w 0
      end;
  W.text w (storage_class e) name_bytes.

Section read_entry.
Context {L : Layout} {P : EtagParse}.

Definition read_entry (r : Reader) (budget : DecodeBudget) (name_bytes : Z)
    : result ImageError (string * ObjEntry * Reader * DecodeBudget) :=
  '(key, r) ← R.text r name_bytes;
  '(size, r) ← ('(tag, r) ← R.u8 r;
                match tag with
                | 0 => Ok (None, r)
                | 1 => '(size, r) ← R.i64 r;
                       if size <? 0 then Err Corrupt else Ok (Some size, r)
                | _ => Err Corrupt
                end);
  '(last_modified, r) ← read_timestamp r;
  '(etag, r) ← ('(tag, r) ← R.u8 r;
                match tag with
                | 0 => Ok (None, r)
                | 1 => '(raw, r) ← R.text r name_bytes; Ok (Some raw, r)
                | _ => Err Corrupt
                end);
  '(class, r) ← R.text r name_bytes;
  charge ← entry_charge (slen key) (slen <$> etag) (slen class);
  budget ← Budget.take budget charge;
  etag ← match etag with
         | Some raw => tag ← ok_or (etag_parse raw) Corrupt; Ok (Some tag)
         | None => Ok None
         end;
  Ok (key, mkObjEntry size last_modified etag class None None, r, budget).
End read_entry.

(** ** One journalled effect ([delta.rs]) *)

Inductive IndexDelta :=
| DPut (bucket key : string) (entry : ObjEntry)
| DDelete (bucket key : string) (deleted_at : Z)
| DNoop.

Module Delta.
Definition VERSION : Z := 1.
Definition PUT : Z := 1.
Definition DELETE : Z := 2.
Definition NOOP : Z := 3.

Definition encode_put (bucket key : string) (e : ObjEntry) (max_event_bytes name_bytes : Z)
    : result ImageError bytes :=
  w ← W.new max_event_bytes;
  w ← W.u8 w VERSION;
  w ← W.u8 w PUT;
  w ← W.text w bucket name_bytes;
  w ← write_entry w key e name_bytes;
  Ok (w_bytes w).

Definition encode_delete (bucket key : string) (deleted_at max_event_bytes name_bytes : Z)
    : result ImageError bytes :=
  w ← W.new max_event_bytes;
  w ← W.u8 w VERSION;
  w ← W.u8 w DELETE;
  w ← W.text w bucket name_bytes;
  w ← W.text w key name_bytes;
  w ← timestamp w deleted_at;
  Ok (w_bytes w).

Definition encode_delta (d : IndexDelta) (max_event_bytes name_bytes : Z)
    : result ImageError bytes :=
  if (name_bytes =? 0) || (max_event_bytes =? 0) then Err Capacity
  else match d with
  | DPut bucket key e => encode_put bucket key e max_event_bytes name_bytes
  | DDelete bucket key at_ => encode_delete bucket key at_ max_event_bytes name_bytes
  | DNoop =>
      w ← W.new max_event_bytes;
      w ← W.u8 w VERSION;
      w ← W.u8 w NOOP;
      Ok (w_bytes w)
  end.

Section decode.
Context {L : Layout} {P : EtagParse}.

Definition decode_delta (l : bytes) (max_event_bytes name_bytes max_decoded_bytes : Z)
    : result ImageError IndexDelta :=
  if bool_decide (l = []) || (max_event_bytes <? Z.of_nat (length l)) || (name_bytes =? 0)
  then Err Capacity
  else
    let r := mkReader l 0 in
    '(version, r) ← R.u8 r;
    _ ← refuse_if (negb (version =? VERSION)) Schema;
    budget ← Budget.new max_decoded_bytes;
    '(tag, r) ← R.u8 r;
    '(delta, r) ←
      (if tag =? PUT then
         '(bucket, r) ← R.text r name_bytes;
         budget ← Budget.take budget (slen bucket);
         '(key, e, r, _) ← read_entry r budget name_bytes;
         Ok (DPut bucket key e, r)
       else if tag =? DELETE then
         '(bucket, r) ← R.text r name_bytes;
         budget ← Budget.take budget (slen bucket);
         '(key, r) ← R.text r name_bytes;
         _ ← Budget.take budget (slen key);
         '(deleted_at, r) ← read_timestamp r;
         Ok (DDelete bucket key deleted_at, r)
       else if tag =? NOOP then Ok (DNoop, r)
       else Err Schema);
    if negb (r_offset r =? Z.of_nat (length l)) then Err Corrupt else Ok delta.
End decode.
End Delta.
