(* ===== verification/CodecProps.v ===== *)
(** * Correctness of the row codec

    A writer appends exactly the pure encoding of its value or refuses; a
    reader on that encoding reads the value back and stops behind it; the
    accounted size is the encoding's length and the accounted charge is what
    reading it costs. *)

From S2P Require Import Prelude.
From S2P Require Import ObjTypes.
From S2P Require Import ImageCodec.

Lemma as_bytes_append a b : as_bytes (a +:+ b) = as_bytes a ++ as_bytes b.
Proof.
  induction a as [|x a IH]; [done|]. rewrite append_cons.
  change (as_bytes (String x (a +:+ b))) with (Ascii.byte_of_ascii x :: as_bytes (a +:+ b)).
  by rewrite IH.
Qed.

Lemma slen_append a b : slen (a +:+ b) = slen a + slen b.
Proof. unfold slen. rewrite length_append. lia. Qed.

Lemma slen_nonneg s : 0 <= slen s.
Proof. unfold slen. lia. Qed.

Lemma sempty_slen s : sempty s = true ↔ slen s = 0.
Proof. by destruct s. Qed.

#[global] Arguments to_le_bytes : simpl never.
#[global] Arguments quote : simpl never.

(** ** Pure encodings *)

Definition enc_text (s : string) : bytes := to_le_bytes 4 (slen s) ++ as_bytes s.
Definition enc_time (t : Z) : bytes :=
  to_le_bytes 8 (t / nanos_per_sec) ++ to_le_bytes 4 (t mod nanos_per_sec).
Definition etag_text (v : ETag) : string := (etag_wire v).1 +:+ (etag_wire v).2 +:+ quote.
Definition enc_size (o : option Z) : bytes :=
  match o with Some s => to_le_bytes 1 1 ++ to_le_bytes 8 s | None => to_le_bytes 1 0 end.
Definition enc_etag (o : option ETag) : bytes :=
  match o with Some v => to_le_bytes 1 1 ++ enc_text (etag_text v) | None => to_le_bytes 1 0 end.
Definition enc_entry (key : string) (e : ObjEntry) : bytes :=
  enc_text key ++ enc_size (size e) ++ enc_time (last_modified e) ++ enc_etag (etag e)
    ++ enc_text (storage_class e).

(** What the writer accepts. *)
Definition text_ok (cap : Z) (s : string) : Prop := 0 < slen s <= cap ∧ slen s <= u32_max.
Definition time_ok (t : Z) : Prop := 0 <= t <= time_max.
Definition etag_ok (cap : Z) (v : ETag) : Prop := slen (etag_text v) <= Z.min cap u32_max.
Definition entry_ok (cap : Z) (key : string) (e : ObjEntry) : Prop :=
  text_ok cap key ∧
  (match size e with Some s => 0 <= s | None => True end) ∧
  0 <= last_modified e ∧
  (match etag e with Some v => etag_ok cap v | None => True end) ∧
  text_ok cap (storage_class e).

(** The values a Rust [ObjEntry] can hold: an [i64] size, a representable
    time, UTF-8 text. *)
Definition etag_raw (v : ETag) : string := (etag_wire v).2.
Definition entry_typed (e : ObjEntry) : Prop :=
  (match size e with Some s => i64_min <= s <= i64_max | None => True end) ∧
  time_min <= last_modified e <= time_max ∧
  (match etag e with Some v => str_ok (etag_text v) = true | None => True end) ∧
  str_ok (storage_class e) = true.

(** The part of an entry the image carries. *)
Definition skeletal (e : ObjEntry) : ObjEntry :=
  mkObjEntry (size e) (last_modified e) (etag e) (storage_class e) None None.

(** ** Writers *)

Definition push (w : Writer) (l : bytes) : Writer := mkWriter (w_bytes w ++ l) (w_limit w).
Definition room (w : Writer) (l : bytes) : Prop :=
  Z.of_nat (length (w_bytes w)) + Z.of_nat (length l) <= Z.min usize_max (w_limit w).

(** [f] succeeds exactly when [ok] holds and [l] fits, and then appends [l]. *)
Definition emits (f : Writer → result ImageError Writer) (ok : Prop) (l : bytes) : Prop :=
  ∀ w w', f w = Ok w' ↔ ok ∧ room w l ∧ w' = push w l.

Lemma push_app w l k : push (push w l) k = push w (l ++ k).
Proof. unfold push. cbn. by rewrite app_assoc. Qed.

Lemma room_app w l k : room w (l ++ k) ↔ room w l ∧ room (push w l) k.
Proof. unfold room, push. cbn. rewrite !length_app. lia. Qed.

Lemma emits_bind f g p q l k :
  emits f p l → emits g q k → emits (λ w, f w ≫= g) (p ∧ q) (l ++ k).
Proof.
  intros Hf Hg w w'. rewrite bind_ok, room_app. split.
  - intros (w1 & H1 & H2). apply Hf in H1 as (? & ? & ->). apply Hg in H2 as (? & ? & ->).
    by rewrite push_app.
  - intros ([Hp Hq] & [Hl Hk] & ->). exists (push w l).
    rewrite (Hf w (push w l)), (Hg (push w l) _), push_app. auto.
Qed.

Lemma emits_iff f p q l : (p ↔ q) → emits f p l → emits f q l.
Proof. intros Hpq Hf w w'. rewrite (Hf w w'). tauto. Qed.

Lemma emits_ext f g p l : (∀ w, f w = g w) → emits f p l → emits g p l.
Proof. intros Hfg Hf w w'. rewrite <- Hfg. apply Hf. Qed.

Lemma emits_err p l e : ¬ p → emits (λ _, Err e) p l.
Proof. intros Hp w w'. split; [done|]. tauto. Qed.

Lemma emits_guard (b : bool) f e p q l :
  (p ↔ b = true ∧ q) → emits f q l → emits (λ w, if b then f w else Err e) p l.
Proof.
  intros Hp Hf. destruct b.
  - eapply emits_iff; [|exact Hf]. rewrite Hp. tauto.
  - apply emits_err. rewrite Hp. intros [? _]. done.
Qed.

Lemma put_emits l : emits (λ w, W.put w l) True l.
Proof.
  intros w w'. unfold W.put, room, push, checked_add.
  destruct (Z.leb_spec (Z.of_nat (length (w_bytes w)) + Z.of_nat (length l)) usize_max); cbn.
  - destruct (Z.ltb_spec (w_limit w) (Z.of_nat (length (w_bytes w)) + Z.of_nat (length l)));
      naive_solver lia.
  - naive_solver lia.
Qed.

(** Chain the [emits] facts of a sequence of writes. *)
Create HintDb emits.
Ltac emit :=
  lazymatch goal with
  | |- emits (λ w, mbind _ _) _ _ => apply emits_bind; emit
  | |- _ => first [eassumption | eauto with emits]
  end.
#[global] Hint Resolve put_emits : emits.

Lemma u8_emits v : emits (λ w, W.u8 w v) True (to_le_bytes 1 v).
Proof. apply put_emits. Qed.

Lemma u64_emits v : emits (λ w, W.u64 w v) True (to_le_bytes 8 v).
Proof. apply put_emits. Qed.

Lemma u32_emits v : emits (λ w, W.u32 w v) (0 <= v <= u32_max) (to_le_bytes 4 v).
Proof.
  unfold W.u32. destruct (try_from u32_max v) as [v'|] eqn:E; cbn.
  - apply try_from_Some in E as [-> ?]. eapply emits_iff; [|apply put_emits]. tauto.
  - apply emits_err. intros H. unfold try_from in E.
    rewrite (proj2 (fits_spec u32_max v)) in E by done. done.
Qed.

#[global] Hint Resolve u8_emits u32_emits u64_emits : emits.

Lemma text_emits s cap : emits (λ w, W.text w s cap) (text_ok cap s) (enc_text s).
Proof.
  unfold W.text, enc_text, text_ok. pose proof (slen_nonneg s).
  destruct (sempty s) eqn:E; cbn [orb].
  { apply sempty_slen in E. apply emits_err. lia. }
  assert (slen s ≠ 0) by (rewrite <- sempty_slen; congruence).
  destruct (Z.ltb_spec cap (slen s)); [apply emits_err; lia|].
  eapply emits_iff; [|emit]. lia.
Qed.

Lemma timestamp_emits t : emits (λ w, timestamp w t) (0 <= t) (enc_time t).
Proof.
  unfold timestamp, enc_time, UNIX_EPOCH.
  destruct (Z.ltb_spec t 0); [apply emits_err; lia|].
  eapply emits_iff; [|emit].
  pose proof (Z.mod_pos_bound t nanos_per_sec ltac:(done)).
  cbn. unfold nanos_per_sec, u32_max in *. lia.
Qed.

Lemma zsum_nonneg parts : Forall (λ p, 0 <= p) parts → 0 <= foldr Z.add 0 parts.
Proof. induction 1; cbn; lia. Qed.

Lemma sum_from_Some parts t n :
  Forall (λ p, 0 <= p) parts → 0 <= t <= usize_max →
  sum_from (Some t) parts = Some n ↔
  n = t + foldr Z.add 0 parts ∧ t + foldr Z.add 0 parts <= usize_max.
Proof.
  intros Hp. revert t. induction Hp as [|p parts Hp Hall IH]; intros t Ht; cbn.
  - rewrite Z.add_0_r. naive_solver.
  - pose proof (zsum_nonneg _ Hall).
    change (sum_from (checked_add usize_max t p) parts = Some n ↔
      n = t + (p + foldr Z.add 0 parts) ∧ t + (p + foldr Z.add 0 parts) <= usize_max).
    unfold checked_add. destruct (Z.leb_spec (t + p) usize_max).
    + rewrite IH by lia. lia.
    + assert (sum_from None parts = None) as -> by (clear; by induction parts).
      split; [done|]. lia.
Qed.

(** [sum] is the exact sum, refused when it overflows. *)
Lemma sum_Ok parts n :
  Forall (λ p, 0 <= p) parts →
  sum parts = Ok n ↔ n = foldr Z.add 0 parts ∧ foldr Z.add 0 parts <= usize_max.
Proof.
  intros Hp. unfold sum. rewrite ok_or_ok, sum_from_Some by (done || lia). done.
Qed.

Lemma slen_etag_text v : slen (etag_text v) = slen (etag_wire v).1 + slen (etag_wire v).2 + 1.
Proof. unfold etag_text. rewrite !slen_append. change (slen quote) with 1. lia. Qed.

Lemma etag_text_len_Ok v n :
  etag_text_len v = Ok n ↔ n = slen (etag_text v) ∧ slen (etag_text v) <= usize_max.
Proof.
  unfold etag_text_len. rewrite slen_etag_text. destruct (etag_wire v) as [p q].
  rewrite sum_Ok by (repeat constructor; apply slen_nonneg || done). cbn. lia.
Qed.

Lemma write_etag_emits v cap :
  emits (λ w, write_etag w v cap) (etag_ok cap v) (enc_text (etag_text v)).
Proof.
  unfold write_etag, etag_ok. pose proof (slen_nonneg (etag_text v)).
  destruct (etag_wire v) as [p q] eqn:Ew.
  destruct (etag_text_len v) as [n|err] eqn:E; cbn [mbind result_bind].
  2:{ apply emits_err. intros Hle. assert (etag_text_len v = Ok (slen (etag_text v))) as E'.
      { apply etag_text_len_Ok. unfold u32_max, usize_max, u64_max in *. lia. }
      congruence. }
  apply etag_text_len_Ok in E as [-> _].
  destruct (Z.ltb_spec cap (slen (etag_text v))); cbn [refuse_if mbind result_bind]; [apply emits_err; lia|].
  assert (as_bytes (etag_text v) = as_bytes p ++ as_bytes q ++ as_bytes quote) as Et.
  { unfold etag_text. by rewrite Ew, !as_bytes_append. }
  unfold enc_text. rewrite Et.
  eapply emits_iff; [|emit]. lia.
Qed.

#[global] Hint Resolve text_emits timestamp_emits write_etag_emits : emits.

Lemma size_emits o :
  (match o with Some s => s <= i64_max | None => True end) →
  emits (λ w, match o with
              | Some size => if 0 <=? size then w ← W.u8 w 1; W.i64 w size else Err Corrupt
              | None => W.u8 w 0
              end)
    (match o with Some s => 0 <= s | None => True end) (enc_size o).
Proof.
  intros Ho. destruct o as [s|]; cbn; [|apply u8_emits].
  destruct (Z.leb_spec 0 s); [|apply emits_err; lia].
  unfold W.i64. rewrite Z.mod_small by (unfold i64_max, u64_max in *; lia).
  eapply emits_iff; [|emit]. tauto.
Qed.

Lemma etag_emits o cap :
  emits (λ w, match o with
              | Some tag => w ← W.u8 w 1; write_etag w tag cap
              | None => W.u8 w 0
              end)
    (match o with Some v => etag_ok cap v | None => True end) (enc_etag o).
Proof.
  destruct o as [v|]; cbn; [|apply u8_emits].
  eapply emits_iff; [|emit]. tauto.
Qed.

(** A row is written exactly when it is well formed and fits, and then as its
    encoding. *)
Lemma write_entry_emits key e cap :
  entry_typed e → emits (λ w, write_entry w key e cap) (entry_ok cap key e) (enc_entry key e).
Proof.
  intros (Hsize & _). unfold write_entry, enc_entry, entry_ok.
  pose proof (size_emits (size e)) as Hs. pose proof (etag_emits (etag e) cap).
  emit. apply Hs. destruct (size e); lia || done.
Qed.

(** ** Readers *)

(** The unread bytes of a reader. *)
Definition unread (r : Reader) (l : bytes) : Prop :=
  0 <= r_offset r <= Z.of_nat (length (r_bytes r)) ∧
  Z.of_nat (length (r_bytes r)) <= usize_max ∧
  drop (Z.to_nat (r_offset r)) (r_bytes r) = l.

(** On input [l ++ t], [f] reads [a] and leaves [t]. *)
Definition reads {A} (f : Reader → result ImageError (A * Reader)) (l : bytes) (a : A) : Prop :=
  ∀ r t, unread r (l ++ t) →
    ∃ r', f r = Ok (a, r') ∧ unread r' t ∧ r_bytes r' = r_bytes r.

Lemma unread_start l : Z.of_nat (length l) <= usize_max → unread (mkReader l 0) l.
Proof. intros H. repeat split; cbn; lia || done. Qed.

(** The last check of a decoder: nothing may be left unread. *)
Lemma unread_end {A} r t (a : A) :
  unread r t →
  (if negb (r_offset r =? Z.of_nat (length (r_bytes r))) then Err Corrupt else Ok a) =
  (if bool_decide (t = []) then Ok a else Err Corrupt).
Proof.
  intros (H1 & H2 & <-). case_bool_decide as Ht.
  - apply (f_equal length) in Ht. rewrite length_drop in Ht. cbn in Ht.
    by rewrite (proj2 (Z.eqb_eq _ _)) by lia.
  - rewrite (proj2 (Z.eqb_neq _ _)); [done|]. intros Heq. apply Ht.
    rewrite Heq, Nat2Z.id. apply drop_all.
Qed.

Lemma take_reads l : reads (λ r, R.take r (Z.of_nat (length l))) l l.
Proof.
  intros r t (H1 & H2 & H3). pose proof (f_equal length H3) as Hlen.
  rewrite length_drop, length_app in Hlen.
  unfold R.take, R.slice, checked_add.
  rewrite (proj2 (Z.leb_le _ _)) by lia. cbn.
  rewrite (proj2 (Z.leb_le (r_offset r) _)), (proj2 (Z.leb_le _ (Z.of_nat (length (r_bytes r))))) by lia.
  cbn. exists (mkReader (r_bytes r) (r_offset r + Z.of_nat (length l))).
  split; [|split; [|done]].
  - f_equal. f_equal. rewrite H3.
    replace (Z.to_nat _) with (length l) by lia. by rewrite take_app_length.
  - repeat split; cbn; [lia..|].
    replace (Z.to_nat _) with (Z.to_nat (r_offset r) + length l)%nat by lia.
    by rewrite <- drop_drop, H3, drop_app_length.
Qed.

Lemma reads_bind {A B} (f : Reader → result ImageError (A * Reader)) (g : A → Reader → result ImageError (B * Reader)) l k a b :
  reads f l a → reads (g a) k b →
  reads (λ r, '(a, r) ← f r; g a r) (l ++ k) b.
Proof.
  intros Hf Hg r t Hr. rewrite <- app_assoc in Hr.
  destruct (Hf _ _ Hr) as (r1 & E1 & Hr1 & Hb1). rewrite E1. cbn.
  destruct (Hg _ _ Hr1) as (r2 & E2 & Hr2 & Hb2). exists r2. rewrite E2. split_and!; congruence || done.
Qed.

Lemma reads_ok {A} (a : A) : reads (λ r, Ok (a, r)) [] a.
Proof. intros r t Hr. by exists r. Qed.

Lemma reads_map {A B} (f : Reader → result ImageError (A * Reader)) (h : A → B) l a :
  reads f l a → reads (λ r, '(a, r) ← f r; Ok (h a, r)) l (h a).
Proof.
  intros Hf. rewrite <- (app_nil_r l). eapply (reads_bind f (λ a r, Ok (h a, r))); [done|].
  apply reads_ok.
Qed.

Lemma uint_reads n v :
  0 <= v < 256 ^ Z.of_nat n →
  reads (λ r, '(raw, r) ← R.take r (Z.of_nat n); Ok (from_le_bytes raw, r)) (to_le_bytes n v) v.
Proof.
  intros Hv. pose proof (take_reads (to_le_bytes n v)) as H. rewrite length_to_le_bytes in H.
  apply (reads_map _ from_le_bytes) in H. by rewrite from_to_le_bytes in H.
Qed.

Lemma u8_reads v : 0 <= v <= u8_max → reads R.u8 (to_le_bytes 1 v) v.
Proof. intros H. apply (uint_reads 1). unfold u8_max in H. cbn. lia. Qed.

Lemma u32_reads v : 0 <= v <= u32_max → reads R.u32 (to_le_bytes 4 v) v.
Proof. intros H. apply (uint_reads 4). unfold u32_max in H. cbn. lia. Qed.

Lemma u64_reads v : 0 <= v <= u64_max → reads R.u64 (to_le_bytes 8 v) v.
Proof. intros H. apply (uint_reads 8). unfold u64_max in H. cbn. lia. Qed.

Lemma i64_reads v : 0 <= v <= i64_max → reads R.i64 (to_le_bytes 8 v) v.
Proof.
  intros Hv r t Hr. unfold R.i64.
  destruct (take_reads (to_le_bytes 8 v) r t Hr) as (r' & E & H1 & H2).
  rewrite length_to_le_bytes in E. change (Z.of_nat 8) with 8 in E. rewrite E. cbn [mbind result_bind].
  rewrite from_to_le_bytes by (cbn; unfold i64_max in Hv; lia).
  rewrite (proj2 (Z.leb_le _ _)) by lia. by exists r'.
Qed.

Lemma text_reads cap s :
  text_ok cap s → str_ok s = true → reads (λ r, R.text r cap) (enc_text s) s.
Proof.
  intros [Hlen Hu32] Hutf. unfold enc_text, R.text.
  eapply (reads_bind R.u32); [apply u32_reads; lia|]. intros r t Hr.
  rewrite (proj2 (Z.eqb_neq _ _)), (proj2 (Z.ltb_ge _ _)) by lia. cbn [orb refuse_if mbind result_bind].
  destruct (take_reads (as_bytes s) r t Hr) as (r' & E & H1 & H2).
  rewrite length_as_bytes in E. rewrite E. cbn [mbind result_bind].
  unfold str_ok in Hutf. rewrite Hutf. cbn. rewrite of_as_bytes. by exists r'.
Qed.

Lemma time_split t : from_secs (t / nanos_per_sec) + t mod nanos_per_sec = t.
Proof. unfold from_secs. pose proof (Z.div_mod t nanos_per_sec ltac:(done)). lia. Qed.

Lemma timestamp_reads t : time_ok t → reads read_timestamp (enc_time t) t.
Proof.
  intros [H0 Hmax]. pose proof (Z.mod_pos_bound t nanos_per_sec ltac:(done)) as Hm.
  unfold read_timestamp, enc_time. eapply (reads_bind R.u64).
  { apply u64_reads. split; [by apply Z.div_pos|]. apply Z.lt_le_incl, Z.div_lt_upper_bound; [done|].
    unfold time_max, i64_max, nanos_per_sec, u64_max in *. lia. }
  rewrite <- (app_nil_r (to_le_bytes 4 _)). eapply (reads_bind R.u32).
  { apply u32_reads. unfold nanos_per_sec, u32_max in *. lia. }
  intros r rest Hr. unfold nanos_per_sec in Hm.
  rewrite (proj2 (Z.leb_gt _ _)) by (unfold nanos_per_sec; lia). cbn [refuse_if mbind result_bind].
  unfold try_from. rewrite (proj2 (fits_spec _ _)) by (unfold u32_max, nanos_per_sec in *; lia).
  cbn [ok_or mbind result_bind]. unfold time_checked_add, UNIX_EPOCH. rewrite Z.add_0_l, time_split.
  rewrite (proj2 (Z.leb_le _ _)) by done. by exists r.
Qed.

(** Run one reader [f] on the unread bytes [Hin]: [Hin] becomes what is left. *)
Ltac rd H Hin :=
  let E := fresh "E" in let Hr := fresh "Hr" in let Hb := fresh "Hb" in
  lazymatch type of Hin with
  | unread ?r0 _ =>
      let r := fresh "r" in
      destruct (H r0 _ Hin) as (r & E & Hr & Hb); rewrite E; clear E Hin;
      rename Hr into Hin; cbn [r_bytes] in Hb; cbn [mbind result_bind]
  end.

(** ** Sizes and charges *)

Definition entry_len (key : string) (e : ObjEntry) : Z := Z.of_nat (length (enc_entry key e)).
Definition gone_len (key : string) : Z := 4 + slen key + TIMESTAMP_BYTES.

Lemma length_enc_text s : Z.of_nat (length (enc_text s)) = 4 + slen s.
Proof. unfold enc_text. rewrite length_app, length_to_le_bytes, Nat2Z.inj_add, length_as_bytes. done. Qed.

Lemma length_enc_time t : Z.of_nat (length (enc_time t)) = TIMESTAMP_BYTES.
Proof. unfold enc_time. by rewrite length_app, !length_to_le_bytes. Qed.

Lemma length_enc_size o : Z.of_nat (length (enc_size o)) = if is_some o then 1 + 8 else 1.
Proof. by destruct o. Qed.

Lemma length_enc_etag o :
  Z.of_nat (length (enc_etag o)) =
  match o with Some v => 1 + (4 + slen (etag_text v)) | None => 1 end.
Proof.
  destruct o as [v|]; [|done]. cbn. rewrite length_app, length_to_le_bytes.
  rewrite Nat2Z.inj_add, length_enc_text. done.
Qed.

Lemma entry_len_eq key e :
  entry_len key e =
    (4 + slen key) + (if is_some (size e) then 1 + 8 else 1) + TIMESTAMP_BYTES
    + (match etag e with Some v => 1 + (4 + slen (etag_text v)) | None => 1 end)
    + (4 + slen (storage_class e)).
Proof.
  unfold entry_len, enc_entry. rewrite !length_app, !Nat2Z.inj_add.
  rewrite !length_enc_text, length_enc_time, length_enc_size, length_enc_etag. lia.
Qed.

Lemma text_bytes_Ok len :
  0 <= len → 4 + len <= usize_max → text_bytes len = Ok (4 + len).
Proof.
  intros H Hle. unfold text_bytes. apply sum_Ok; [repeat constructor; lia|]. cbn [foldr]. lia.
Qed.

(** A row whose encoding has a [usize] length is measured at that length. *)
Lemma entry_bytes_Ok key e :
  entry_len key e <= usize_max → entry_bytes (slen key) e = Ok (entry_len key e).
Proof.
  rewrite entry_len_eq. intros Hle.
  pose proof (slen_nonneg key). pose proof (slen_nonneg (storage_class e)).
  unfold entry_bytes. set (sz := if is_some (size e) then 1 + 8 else 1) in *.
  assert (1 <= sz) by (subst sz; destruct (is_some _); lia).
  set (n := match etag e with Some _ => _ | None => 1 end) in *.
  set (tag := match etag e with Some _ => _ | None => Ok 1 end).
  assert (tag = Ok n ∧ 1 <= n) as [-> ?].
  { subst n tag. unfold TIMESTAMP_BYTES in Hle. clearbody sz. revert Hle.
    destruct (etag e) as [v|]; intros Hle; [|done].
    pose proof (slen_nonneg (etag_text v)).
    assert (etag_text_len v = Ok (slen (etag_text v))) as -> by (apply etag_text_len_Ok; lia).
    cbn [mbind result_bind].
    rewrite text_bytes_Ok by lia. split; [done|lia]. }
  unfold TIMESTAMP_BYTES in Hle. cbn [mbind result_bind].
  rewrite !text_bytes_Ok by lia. cbn [mbind result_bind].
  apply sum_Ok; [repeat constructor; unfold TIMESTAMP_BYTES; lia|].
  cbn [foldr]. unfold TIMESTAMP_BYTES. lia.
Qed.

Lemma gone_bytes_Ok key : gone_len key <= usize_max → gone_bytes (slen key) = Ok (gone_len key).
Proof.
  unfold gone_len, TIMESTAMP_BYTES. intros H. pose proof (slen_nonneg key). unfold gone_bytes.
  rewrite text_bytes_Ok by lia. cbn [mbind result_bind].
  apply sum_Ok; [repeat constructor; unfold TIMESTAMP_BYTES; lia|].
  cbn [foldr]. unfold TIMESTAMP_BYTES. lia.
Qed.

Section charge_props.
Context {L : Layout} {LO : LayoutOk L}.

Definition row_charge (key : string) (e : ObjEntry) : Z :=
  slen key + (3 * size_of_live_row + 64)
  + (match etag e with Some v => 2 * slen (etag_text v) + size_of_ETag | None => 0 end)
  + slen (storage_class e) + size_of_ObjectStorageClass.

Definition tomb_charge (key : string) : Z := slen key + (3 * size_of_gone_row + 64).

Lemma map_entry_charge_one T :
  0 <= T <= u16_max → map_entry_charge T 1 = Ok (3 * T + 64).
Proof.
  intros HT. unfold map_entry_charge.
  change (checked_mul usize_max 1 TREE_SLOTS_PER_ROW) with (Some 3).
  change (checked_mul usize_max 1 TREE_BYTES_PER_ROW) with (Some 64). cbn [mbind option_bind].
  unfold checked_mul, checked_add. unfold usize_max, u64_max, u16_max in *.
  rewrite (proj2 (Z.leb_le (3 * T) _)) by lia. cbn [mbind option_bind].
  by rewrite (proj2 (Z.leb_le (3 * T + 64) _)) by lia.
Qed.

Lemma row_charge_nonneg key e : 0 <= row_charge key e.
Proof.
  destruct LO. unfold row_charge. pose proof (slen_nonneg key).
  pose proof (slen_nonneg (storage_class e)).
  destruct (etag e) as [v|]; [pose proof (slen_nonneg (etag_text v))|]; lia.
Qed.

Lemma tomb_charge_nonneg key : 0 <= tomb_charge key.
Proof. destruct LO. unfold tomb_charge. pose proof (slen_nonneg key). lia. Qed.

Lemma entry_charge_Ok key e :
  row_charge key e <= usize_max →
  entry_charge (slen key) (slen ∘ etag_text <$> etag e) (slen (storage_class e))
    = Ok (row_charge key e).
Proof.
  pose proof LO as []. unfold row_charge. intros Hle. unfold entry_charge.
  pose proof (slen_nonneg key). pose proof (slen_nonneg (storage_class e)).
  destruct (etag e) as [v|]; cbn [fmap option_fmap option_map compose].
  - pose proof (slen_nonneg (etag_text v)). unfold checked_mul.
    rewrite (proj2 (Z.leb_le _ _)) by lia. cbn [mbind option_bind].
    unfold checked_add. rewrite (proj2 (Z.leb_le _ _)) by lia. cbn [ok_or mbind result_bind].
    rewrite map_entry_charge_one by done. cbn [mbind result_bind].
    apply sum_Ok; [repeat constructor; lia|]. cbn [foldr]. lia.
  - cbn [mbind result_bind]. rewrite map_entry_charge_one by done. cbn [mbind result_bind].
    apply sum_Ok; [repeat constructor; lia|]. cbn [foldr]. lia.
Qed.

Lemma gone_charge_Ok key : tomb_charge key <= usize_max → gone_charge (slen key) = Ok (tomb_charge key).
Proof.
  pose proof LO as []. unfold tomb_charge, gone_charge. intros Hle. pose proof (slen_nonneg key).
  rewrite map_entry_charge_one by done. cbn [mbind result_bind].
  apply sum_Ok; [repeat constructor; lia|]. cbn [foldr]. lia.
Qed.

Lemma budget_take_Ok b n :
  b_used b + n <= Z.min usize_max (b_limit b) →
  Budget.take b n = Ok (mkBudget (b_used b + n) (b_limit b)).
Proof.
  intros H. unfold Budget.take, checked_add. rewrite (proj2 (Z.leb_le _ _)) by lia.
  cbn. by rewrite (proj2 (Z.ltb_ge _ _)) by lia.
Qed.

Context {P : EtagParse}.

(** The entity tag's text parses back: what [s3s] guarantees for a tag it
    produced itself. *)
Definition etag_parses (e : ObjEntry) : Prop :=
  match etag e with Some v => etag_parse (etag_text v) = Some v | None => True end.

(** Everything that makes a row readable after it was written. *)
Definition row_ok (cap : Z) (key : string) (e : ObjEntry) : Prop :=
  entry_ok cap key e ∧ entry_typed e ∧ str_ok key = true ∧ etag_parses e.

Lemma size_reads o :
  (match o with Some s => 0 <= s <= i64_max | None => True end) →
  reads (λ r, '(tag, r) ← R.u8 r;
              match tag with
              | 0 => Ok (None, r)
              | 1 => '(size, r) ← R.i64 r;
                     if size <? 0 then Err Corrupt else Ok (Some size, r)
              | _ => Err Corrupt
              end) (enc_size o) o.
Proof.
  destruct o as [s|]; intros Ho; cbn [enc_size].
  - eapply (reads_bind R.u8); [by apply u8_reads|].
    intros r t Hr. rd (i64_reads s Ho) Hr. rewrite (proj2 (Z.ltb_ge _ _)) by lia. by exists r0.
  - rewrite <- (app_nil_r (to_le_bytes 1 0)). eapply (reads_bind R.u8); [by apply u8_reads|].
    apply reads_ok.
Qed.

Lemma etag_reads cap o :
  (match o with Some v => etag_ok cap v ∧ str_ok (etag_text v) = true | None => True end) →
  reads (λ r, '(tag, r) ← R.u8 r;
              match tag with
              | 0 => Ok (None, r)
              | 1 => '(raw, r) ← R.text r cap; Ok (Some raw, r)
              | _ => Err Corrupt
              end) (enc_etag o) (etag_text <$> o).
Proof.
  destruct o as [v|]; intros Ho; cbn [enc_etag].
  - eapply (reads_bind R.u8); [by apply u8_reads|].
    destruct Ho as [Hv Hutf]. unfold etag_ok in Hv.
    apply (reads_map (λ r, R.text r cap) Some). apply text_reads; [|done].
    split; [|lia]. pose proof (slen_etag_text v). pose proof (slen_nonneg (etag_wire v).1).
    pose proof (slen_nonneg (etag_wire v).2). lia.
  - rewrite <- (app_nil_r (to_le_bytes 1 0)). eapply (reads_bind R.u8); [by apply u8_reads|].
    apply (reads_ok None).
Qed.

(** Reading a written row gives its skeletal part and costs its charge. *)
Lemma read_entry_reads cap key e b r t :
  row_ok cap key e →
  b_used b + row_charge key e <= Z.min usize_max (b_limit b) → 0 <= b_used b →
  unread r (enc_entry key e ++ t) →
  ∃ r', read_entry r b cap =
          Ok (key, skeletal e, r', mkBudget (b_used b + row_charge key e) (b_limit b))
        ∧ unread r' t ∧ r_bytes r' = r_bytes r.
Proof.
  intros ((Hkey & Hsize & Htime & Hetag & Hclass) & (Tsize & Ttime & Tetag & Tclass) & Hutf & Hparse)
    Hb H0 Hr. unfold enc_entry in Hr. rewrite <- !app_assoc in Hr. unfold read_entry.
  assert (match size e with Some s => 0 <= s <= i64_max | None => True end) as Sok
    by (revert Hsize Tsize; destruct (size e); [lia|done]).
  assert (match etag e with Some v => etag_ok cap v ∧ str_ok (etag_text v) = true | None => True end)
    as Eok by (revert Hetag Tetag; destruct (etag e); done).
  rd (text_reads cap key Hkey Hutf) Hr.
  rd (size_reads (size e) Sok) Hr.
  rd (timestamp_reads (last_modified e) (conj Htime (proj2 Ttime))) Hr.
  rd (etag_reads cap (etag e) Eok) Hr.
  rd (text_reads cap (storage_class e) Hclass Tclass) Hr.
  replace (slen <$> (etag_text <$> etag e)) with (slen ∘ etag_text <$> etag e) by by destruct (etag e).
  rewrite entry_charge_Ok by lia. cbn [mbind result_bind].
  rewrite budget_take_Ok by lia. cbn [mbind result_bind].
  eexists. split; [|split; [exact Hr|congruence]].
  unfold etag_parses in Hparse. unfold skeletal.
  destruct (etag e) as [v|]; cbn [fmap option_fmap option_map]; [|done].
  rewrite Hparse. done.
Qed.

(** The tally of one row is its encoded length and its charge. *)
Lemma tally_entry_exact key e :
  entry_len key e <= usize_max → row_charge key e <= usize_max →
  Tally.entry (slen key) e = mkTally (entry_len key e) (row_charge key e).
Proof.
  intros H1 H2. unfold Tally.entry. rewrite entry_bytes_Ok by done. f_equal.
  trans (unwrap_or (entry_charge (slen key) (slen ∘ etag_text <$> etag e)
                      (slen (storage_class e))) usize_max); [|by rewrite entry_charge_Ok].
  f_equal. destruct (etag e) as [v|] eqn:E; [|done]. cbn [fmap option_fmap option_map compose].
  assert (etag_text_len v = Ok (slen (etag_text v))) as ->; [|done].
  apply etag_text_len_Ok. split; [done|]. pose proof LO as []. unfold row_charge in H2.
  rewrite E in H2. pose proof (slen_nonneg key). pose proof (slen_nonneg (storage_class e)).
  pose proof (slen_nonneg (etag_text v)). lia.
Qed.

Lemma tally_tombstone_exact key :
  gone_len key <= usize_max → tomb_charge key <= usize_max →
  Tally.tombstone (slen key) = mkTally (gone_len key) (tomb_charge key).
Proof. intros. unfold Tally.tombstone. by rewrite gone_bytes_Ok, gone_charge_Ok. Qed.
End charge_props.

(** ** Effects *)

Definition enc_delta (d : IndexDelta) : bytes :=
  to_le_bytes 1 1 ++
  match d with
  | DPut b k e => to_le_bytes 1 1 ++ enc_text b ++ enc_entry k e
  | DDelete b k at_ => to_le_bytes 1 2 ++ enc_text b ++ enc_text k ++ enc_time at_
  | DNoop => to_le_bytes 1 3
  end.

Definition skeletal_delta (d : IndexDelta) : IndexDelta :=
  match d with DPut b k e => DPut b k (skeletal e) | _ => d end.

(** What the encoder accepts. *)
Definition delta_ok (cap : Z) (d : IndexDelta) : Prop :=
  match d with
  | DPut b k e => text_ok cap b ∧ entry_ok cap k e
  | DDelete b k at_ => text_ok cap b ∧ text_ok cap k ∧ 0 <= at_
  | DNoop => True
  end.

(** The values a Rust [IndexDelta] can hold. *)
Definition delta_typed (d : IndexDelta) : Prop :=
  match d with
  | DPut b k e => str_ok b = true ∧ str_ok k = true ∧ entry_typed e
  | DDelete b k at_ => str_ok b = true ∧ str_ok k = true ∧ time_min <= at_ <= time_max
  | DNoop => True
  end.

Lemma encode_with_emits f ok l limit :
  emits f ok l →
  ∀ out, (w ← W.new limit; w ← f w; Ok (w_bytes w)) = Ok out ↔
    limit ≠ 0 ∧ ok ∧ Z.of_nat (length l) <= Z.min usize_max limit ∧ out = l.
Proof.
  intros Hf out. unfold W.new. destruct (Z.eqb_spec limit 0) as [->|Hl]; cbn [mbind result_bind].
  { naive_solver. }
  change (match f (mkWriter [] limit) with Ok a => Ok (w_bytes a) | Err e => Err e end)
    with (f (mkWriter [] limit) ≫= λ w, Ok (E := ImageError) (w_bytes w)).
  rewrite bind_ok. setoid_rewrite (Hf (mkWriter [] limit)). unfold room, push. cbn. naive_solver.
Qed.

Lemma encode_put_Ok bucket key e max nb l :
  entry_typed e →
  Delta.encode_put bucket key e max nb = Ok l ↔
    max ≠ 0 ∧ delta_ok nb (DPut bucket key e)
    ∧ Z.of_nat (length (enc_delta (DPut bucket key e))) <= Z.min usize_max max
    ∧ l = enc_delta (DPut bucket key e).
Proof.
  intros He. unfold Delta.encode_put, enc_delta, delta_ok.
  pose proof (write_entry_emits key e nb He).
  assert (emits (λ w, w ← W.u8 w Delta.VERSION; w ← W.u8 w Delta.PUT; w ← W.text w bucket nb;
    write_entry w key e nb) (text_ok nb bucket ∧ entry_ok nb key e)
    (to_le_bytes 1 1 ++ to_le_bytes 1 1 ++ enc_text bucket ++ enc_entry key e)) as Hem.
  { eapply emits_iff; [|emit]. tauto. }
  rewrite <- (encode_with_emits _ _ _ max Hem l).
  destruct (W.new max) as [w|]; cbn; [|done].
  destruct (W.u8 w Delta.VERSION) as [w1|]; cbn; [|done].
  destruct (W.u8 w1 Delta.PUT) as [w2|]; cbn; [|done].
  by destruct (W.text w2 bucket nb) as [w3|].
Qed.

Lemma encode_delete_Ok bucket key at_ max nb l :
  Delta.encode_delete bucket key at_ max nb = Ok l ↔
    max ≠ 0 ∧ delta_ok nb (DDelete bucket key at_)
    ∧ Z.of_nat (length (enc_delta (DDelete bucket key at_))) <= Z.min usize_max max
    ∧ l = enc_delta (DDelete bucket key at_).
Proof.
  unfold Delta.encode_delete, enc_delta, delta_ok.
  assert (emits (λ w, w ← W.u8 w Delta.VERSION; w ← W.u8 w Delta.DELETE; w ← W.text w bucket nb;
    w ← W.text w key nb; timestamp w at_) (text_ok nb bucket ∧ text_ok nb key ∧ 0 <= at_)
    (to_le_bytes 1 1 ++ to_le_bytes 1 2 ++ enc_text bucket ++ enc_text key ++ enc_time at_)) as Hem.
  { eapply emits_iff; [|emit]. tauto. }
  rewrite <- (encode_with_emits _ _ _ max Hem l).
  destruct (W.new max) as [w|]; cbn; [|done].
  destruct (W.u8 w Delta.VERSION) as [w1|]; cbn; [|done].
  destruct (W.u8 w1 Delta.DELETE) as [w2|]; cbn; [|done].
  destruct (W.text w2 bucket nb) as [w3|]; cbn; [|done].
  by destruct (W.text w3 key nb).
Qed.

Lemma encode_noop_Ok max nb l :
  Delta.encode_delta DNoop max nb = Ok l ↔ nb ≠ 0 ∧ 2 <= Z.min usize_max max ∧ l = enc_delta DNoop.
Proof.
  unfold Delta.encode_delta. destruct (Z.eqb_spec nb 0); cbn [orb]; [naive_solver|].
  destruct (Z.eqb_spec max 0) as [->|]; [naive_solver lia|].
  assert (emits (λ w, w ← W.u8 w Delta.VERSION; W.u8 w Delta.NOOP) True
    (to_le_bytes 1 1 ++ to_le_bytes 1 3)) as Hem by (eapply emits_iff; [|emit]; tauto).
  pose proof (encode_with_emits _ _ _ max Hem l) as HE.
  destruct (W.new max) as [w|]; cbn in HE |- *.
  - destruct (W.u8 w Delta.VERSION) as [w1|]; cbn in HE |- *; rewrite HE; unfold enc_delta; naive_solver.
  - rewrite HE. naive_solver.
Qed.

Section delta_roundtrip.
Context {L : Layout} {LO : LayoutOk L} {P : EtagParse}.

(** The charge of decoding one effect. *)
Definition delta_charge (d : IndexDelta) : Z :=
  match d with
  | DPut b k e => slen b + row_charge k e
  | DDelete b k _ => slen b + slen k
  | DNoop => 0
  end.

Definition delta_parses (d : IndexDelta) : Prop :=
  match d with DPut _ _ e => etag_parses e | _ => True end.

(** An encoded effect decodes to its skeletal part; anything behind it is
    refused. *)
Lemma decode_enc_delta d t max nb dmax :
  delta_ok nb d → delta_typed d → delta_parses d →
  Z.of_nat (length (enc_delta d ++ t)) <= Z.min usize_max max → nb ≠ 0 →
  dmax ≠ 0 → delta_charge d <= Z.min usize_max dmax →
  Delta.decode_delta (enc_delta d ++ t) max nb dmax =
    if bool_decide (t = []) then Ok (skeletal_delta d) else Err Corrupt.
Proof.
  intros Hok Hty Hpar Hlen Hnb Hdmax Hch. unfold Delta.decode_delta.
  rewrite bool_decide_false by (by destruct d).
  rewrite (proj2 (Z.ltb_ge _ _)), (proj2 (Z.eqb_neq nb 0)) by lia. cbn [orb].
  assert (unread (mkReader (enc_delta d ++ t) 0) (enc_delta d ++ t)) as Hr
    by (apply unread_start; lia).
  revert Hr. generalize (enc_delta d ++ t) at 1 3 4 as input. intros input Hr.
  unfold enc_delta in Hr. rewrite <- app_assoc in Hr.
  rd (u8_reads 1 ltac:(done)) Hr. cbn [Delta.VERSION Z.eqb Pos.eqb negb refuse_if mbind result_bind].
  unfold Budget.new. rewrite (proj2 (Z.eqb_neq dmax 0)) by done. cbn [mbind result_bind].
  destruct d as [b k e|b k at_|]; cbn [skeletal_delta delta_charge] in *.
  - destruct Hok as [HB He], Hty as (Ub & Uk & Te). rewrite <- !app_assoc in Hr.
    rd (u8_reads 1 ltac:(done)) Hr. cbn [Delta.PUT Z.eqb Pos.eqb].
    rd (text_reads nb b HB Ub) Hr.
    pose proof (slen_nonneg b). pose proof (row_charge_nonneg k e).
    rewrite budget_take_Ok by (cbn; lia). cbn [mbind result_bind b_used b_limit].
    edestruct (read_entry_reads nb k e (mkBudget (0 + slen b) dmax)) as (r' & E3 & Hr3 & Hb3);
      [exact (conj He (conj Te (conj Uk Hpar)))|cbn; lia|cbn; lia|exact Hr|].
    rewrite E3. cbn [mbind result_bind].
    replace input with (r_bytes r') by congruence. by apply unread_end.
  - destruct Hok as (HB & Hk & Ht), Hty as (Ub & Uk & Tt). rewrite <- !app_assoc in Hr.
    rd (u8_reads 2 ltac:(done)) Hr. cbn [Delta.PUT Delta.DELETE Z.eqb Pos.eqb].
    rd (text_reads nb b HB Ub) Hr. pose proof (slen_nonneg b). pose proof (slen_nonneg k).
    rewrite budget_take_Ok by (cbn; lia). cbn [mbind result_bind b_used b_limit].
    rd (text_reads nb k Hk Uk) Hr.
    rewrite budget_take_Ok by (cbn; lia). cbn [mbind result_bind].
    rd (timestamp_reads at_ (conj Ht (proj2 Tt))) Hr.
    match type of Hr with unread ?r _ => replace input with (r_bytes r) by congruence end.
    by apply unread_end.
  - rd (u8_reads 3 ltac:(done)) Hr.
    cbn [Delta.PUT Delta.DELETE Delta.NOOP Z.eqb Pos.eqb mbind result_bind].
    match type of Hr with unread ?r _ => replace input with (r_bytes r) by congruence end.
    by apply unread_end.
Qed.

Lemma encode_delta_Ok d max nb l :
  delta_typed d →
  Delta.encode_delta d max nb = Ok l →
  nb ≠ 0 ∧ delta_ok nb d ∧ Z.of_nat (length (enc_delta d)) <= Z.min usize_max max ∧ l = enc_delta d.
Proof.
  intros Hty H. destruct d as [b k e|b k at_|].
  - unfold Delta.encode_delta in H. destruct (Z.eqb_spec nb 0); [done|].
    destruct (max =? 0); [done|]. apply encode_put_Ok in H; naive_solver.
  - unfold Delta.encode_delta in H. destruct (Z.eqb_spec nb 0); [done|].
    destruct (max =? 0); [done|]. apply encode_delete_Ok in H. naive_solver.
  - apply encode_noop_Ok in H as (? & ? & ->). done.
Qed.

(** A journalled effect survives the wire: whatever [encode_delta]
    emits, [decode_delta] reads back as the same effect with its row reduced
    to the skeletal fields, and the same bytes followed by anything else are
    refused as corrupt. *)
Theorem delta_roundtrip d max nb dmax l t :
  delta_typed d → delta_parses d → Delta.encode_delta d max nb = Ok l →
  dmax ≠ 0 → delta_charge d <= Z.min usize_max dmax →
  Z.of_nat (length (l ++ t)) <= Z.min usize_max max →
  Delta.decode_delta (l ++ t) max nb dmax =
    if bool_decide (t = []) then Ok (skeletal_delta d) else Err Corrupt.
Proof.
  intros Hty Hpar Henc Hd Hch Hlen.
  apply encode_delta_Ok in Henc as (? & ? & ? & ->); [|done]. by apply decode_enc_delta.
Qed.
End delta_roundtrip.

(** A parser of the two tag forms, for concrete evaluation. *)
Definition parse_quoted : EtagParse := λ s,
  match strip_prefix ("W/" +:+ quote) s with
  | Some t => Some (Weak (stake (String.length t - 1) t))
  | None =>
      match strip_prefix quote s with
      | Some t => Some (Strong (stake (String.length t - 1) t))
      | None => None
      end
  end.

Definition sample_entry : ObjEntry :=
  mkObjEntry (Some 42) 1700000000123456789 (Some (Strong "abc")) "STANDARD" (Some "text/plain") None.

Lemma delta_roundtrip_witness :
  let d := DPut "photos" "a/b.jpg" sample_entry in
  ∃ l, Delta.encode_delta d 512 64 = Ok l ∧
    @Delta.decode_delta layout64 parse_quoted (l ++ []) 512 64 4096 = Ok (skeletal_delta d).
Proof.
  eexists. split; [vm_compute; reflexivity|].
  exact (@delta_roundtrip layout64 layout64_ok parse_quoted
    (DPut "photos" "a/b.jpg" sample_entry) 512 64 4096 _ []
    ltac:(by vm_compute) ltac:(by vm_compute) ltac:(by vm_compute) ltac:(done)
    ltac:(by vm_compute) ltac:(by vm_compute)).
Defined.
