(* ===== verification/Rows.v ===== *)
(** * One bucket's rows

    [KeyRows] and [GoneRows] of [src/src/index/rows.rs]: the live rows and
    the delete tombstones of a bucket, each an ordered map that keeps the image
    tally of its rows, and the incremental sweep that forgets expired
    tombstones. *)

From S2P Require Import Prelude.
From S2P Require Import ObjTypes.
From S2P Require Import ImageCodec.

(** [std::ops::Bound<&str>] as a lower bound. *)
Inductive Bound := Included (s : string) | Excluded (s : string) | Unbounded.

Definition above (b : Bound) (k : string) : bool :=
  match b with
  | Included s => sleb s k
  | Excluded s => sltb s k
  | Unbounded => true
  end.

(** [OrdMap::range((lower, Unbounded))]. *)
Definition map_range {A} (m : gmap string A) (lower : Bound) : list (string * A) :=
  filter (λ r, above lower r.1 = true) (sorted_rows m).

Section rows.
Context {L : Layout}.

Record KeyRows := mkKeyRows { kr_map : gmap string ObjEntry; kr_image : ImageTally }.

Definition KeyRows_default : KeyRows := mkKeyRows ∅ tally_zero.

Record GoneRows := mkGoneRows {
  gr_map : gmap string Z;
  gr_image : ImageTally;
  gr_cursor : option string;
  gr_floor : option Z;
  gr_lap_floor : option Z;
}.

Definition GoneRows_default : GoneRows := mkGoneRows ∅ tally_zero None None None.

Definition SWEEP_STEP : nat := 16.
End rows.

Module Keys.
Section keys.
Context {L : Layout}.

Definition len (k : KeyRows) : Z := Z.of_nat (base.size (kr_map k)).
Definition get (k : KeyRows) (key : string) : option ObjEntry := kr_map k !! key.
Definition contains_key (k : KeyRows) (key : string) : bool := is_some (kr_map k !! key).
Definition iter (k : KeyRows) : list (string * ObjEntry) := sorted_rows (kr_map k).
Definition range_from (k : KeyRows) (lower : Bound) : list (string * ObjEntry) :=
  map_range (kr_map k) lower.

Definition insert (k : KeyRows) (key : string) (e : ObjEntry) : option ObjEntry * KeyRows :=
  let image := Tally.add (kr_image k) (Tally.entry (slen key) e) in
  let previous := kr_map k !! key in
  let map := <[key := e]> (kr_map k) in
  match previous with
  | Some p => (previous, mkKeyRows map (Tally.sub image (Tally.entry (slen key) p)))
  | None => (previous, mkKeyRows map image)
  end.

Definition remove (k : KeyRows) (key : string) : option ObjEntry * KeyRows :=
  match kr_map k !! key with
  | None => (None, k)
  | Some p =>
      (Some p, mkKeyRows (delete key (kr_map k))
                 (Tally.sub (kr_image k) (Tally.entry (slen key) p)))
  end.

(** [change] returns its result and the entry it leaves. *)
Definition update {R} (k : KeyRows) (key : string) (change : ObjEntry → R * ObjEntry)
    : option R * KeyRows :=
  match kr_map k !! key with
  | None => (None, k)
  | Some e =>
      let before := Tally.entry (slen key) e in
      let '(result, e') := change e in
      (Some result,
       mkKeyRows (<[key := e']> (kr_map k))
         (Tally.add (Tally.sub (kr_image k) before) (Tally.entry (slen key) e')))
  end.

Definition image (k : KeyRows) : ImageTally := kr_image k.
End keys.
End Keys.

Module Gone.
Section gone.
Context {L : Layout}.

Definition len (g : GoneRows) : Z := Z.of_nat (base.size (gr_map g)).
Definition get (g : GoneRows) (key : string) : option Z := gr_map g !! key.
Definition iter (g : GoneRows) : list (string * Z) := sorted_rows (gr_map g).

Definition insert (g : GoneRows) (key : string) (at_ : Z) : option Z * GoneRows :=
  let behind := is_some_and (λ cursor, sleb key cursor) (gr_cursor g) in
  let previous := gr_map g !! key in
  (previous,
   mkGoneRows (<[key := at_]> (gr_map g))
     (if is_none previous then Tally.add (gr_image g) (Tally.tombstone (slen key))
      else gr_image g)
     (gr_cursor g)
     (min_with (gr_floor g) at_)
     (if behind then min_with (gr_lap_floor g) at_ else gr_lap_floor g)).

Definition raise (g : GoneRows) (key : string) (at_ : Z) : GoneRows :=
  if is_none_or (λ dead, dead <? at_) (gr_map g !! key) then (insert g key at_).2 else g.

Definition remove (g : GoneRows) (key : string) : option Z * GoneRows :=
  match gr_map g !! key with
  | None => (None, g)
  | Some p =>
      (Some p, mkGoneRows (delete key (gr_map g))
                 (Tally.sub (gr_image g) (Tally.tombstone (slen key)))
                 (gr_cursor g) (gr_floor g) (gr_lap_floor g))
  end.

Definition cursor_bound (cursor : option string) : Bound :=
  match cursor with Some c => Excluded c | None => Unbounded end.

(** The loop over the visited tombstones: the keys it pushes on [expired]
    and the running [lap_floor]. *)
Fixpoint visit (cutoff : Z) (rows : list (string * Z)) (expired : list string)
    (lap_floor : option Z) : list string * option Z :=
  match rows with
  | [] => (expired, lap_floor)
  | (key, at_) :: rows =>
      if at_ <? cutoff then visit cutoff rows (expired ++ [key]) lap_floor
      else visit cutoff rows expired (min_with lap_floor at_)
  end.

Definition sweep_expired (g : GoneRows) (cutoff : Z) : nat * GoneRows :=
  if is_none_or (λ floor, cutoff <=? floor) (gr_floor g) then (0%nat, g)
  else
    let rows := take SWEEP_STEP (map_range (gr_map g) (cursor_bound (gr_cursor g))) in
    let '(expired, lap_floor) := visit cutoff rows [] (gr_lap_floor g) in
    let visited := length rows in
    let g' :=
      if (visited <? SWEEP_STEP)%nat
      then mkGoneRows (gr_map g) (gr_image g) None lap_floor None
      else mkGoneRows (gr_map g) (gr_image g) (fst <$> last rows) (gr_floor g) lap_floor in
    (length expired, foldl (λ g key, (remove g key).2) g' expired).
End gone.
End Gone.

(** ** Properties *)

(** Tallies are exact modulo the word size. *)
Definition wrap (z : Z) : Z := z mod (usize_max + 1).

Lemma wrapping_add_wrap a b : wrapping_add usize_max (wrap a) b = wrap (a + b).
Proof. unfold wrapping_add, wrap. apply Zplus_mod_idemp_l. Qed.

Lemma wrapping_sub_wrap a b : wrapping_sub usize_max (wrap a) b = wrap (a - b).
Proof. unfold wrapping_sub, wrap. apply Zminus_mod_idemp_l. Qed.

Lemma wrap_small z : 0 <= z <= usize_max → wrap z = z.
Proof. intros H. unfold wrap. apply Z.mod_small. lia. Qed.

Section rows_props.
Context {L : Layout}.

Definition keys_tally (m : gmap string ObjEntry) : ImageTally :=
  mkTally (wrap (msum (λ k e, t_encoded (Tally.entry (slen k) e)) m))
          (wrap (msum (λ k e, t_decoded (Tally.entry (slen k) e)) m)).

Definition gone_tally (m : gmap string Z) : ImageTally :=
  mkTally (wrap (msum (λ k _, t_encoded (Tally.tombstone (slen k))) m))
          (wrap (msum (λ k _, t_decoded (Tally.tombstone (slen k))) m)).

(** The image tally of the live rows is the wrapped sum of the row tallies. *)
Definition keys_wf (k : KeyRows) : Prop := kr_image k = keys_tally (kr_map k).

Lemma keys_default_wf : keys_wf KeyRows_default.
Proof. done. Qed.

Lemma insert_map k key e : kr_map (Keys.insert k key e).2 = <[key := e]> (kr_map k).
Proof. unfold Keys.insert. by destruct (kr_map k !! key). Qed.

Lemma insert_prev k key e : (Keys.insert k key e).1 = kr_map k !! key.
Proof. unfold Keys.insert. by destruct (kr_map k !! key). Qed.

Lemma insert_wf k key e : keys_wf k → keys_wf (Keys.insert k key e).2.
Proof.
  unfold keys_wf, Keys.insert. intros ->.
  destruct (kr_map k !! key) as [p|] eqn:E; cbn; unfold keys_tally, Tally.add, Tally.sub; cbn.
  - rewrite !wrapping_add_wrap, !wrapping_sub_wrap, !(msum_insert_Some _ _ _ p) by done.
    f_equal; f_equal; lia.
  - rewrite !wrapping_add_wrap, !msum_insert_None by done. f_equal; f_equal; lia.
Qed.

Lemma remove_map k key : kr_map (Keys.remove k key).2 = delete key (kr_map k).
Proof.
  unfold Keys.remove. destruct (kr_map k !! key) eqn:E; [done|]. cbn. by rewrite delete_id.
Qed.

Lemma remove_prev k key : (Keys.remove k key).1 = kr_map k !! key.
Proof. unfold Keys.remove. by destruct (kr_map k !! key). Qed.

Lemma remove_wf k key : keys_wf k → keys_wf (Keys.remove k key).2.
Proof.
  unfold keys_wf, Keys.remove. intros Hk.
  destruct (kr_map k !! key) as [p|] eqn:E; [|done]. cbn. rewrite Hk.
  unfold keys_tally, Tally.sub; cbn. by rewrite !wrapping_sub_wrap, !(msum_delete _ _ _ p).
Qed.

Lemma update_wf {R} k key (f : ObjEntry → R * ObjEntry) :
  keys_wf k → keys_wf (Keys.update k key f).2.
Proof.
  unfold keys_wf, Keys.update. intros Hk.
  destruct (kr_map k !! key) as [p|] eqn:E; [|done]. destruct (f p) as [r e'] eqn:Ef. cbn.
  rewrite Hk. unfold keys_tally, Tally.add, Tally.sub; cbn.
  rewrite !wrapping_sub_wrap, !wrapping_add_wrap, !(msum_insert_Some _ _ _ p) by done. done.
Qed.

Lemma update_map {R} k key (f : ObjEntry → R * ObjEntry) :
  kr_map (Keys.update k key f).2 =
    match kr_map k !! key with Some e => <[key := (f e).2]> (kr_map k) | None => kr_map k end.
Proof.
  unfold Keys.update. destruct (kr_map k !! key) as [e|]; [|done]. by destruct (f e).
Qed.

Lemma update_res {R} k key (f : ObjEntry → R * ObjEntry) :
  (Keys.update k key f).1 = (λ e, (f e).1) <$> kr_map k !! key.
Proof.
  unfold Keys.update. destruct (kr_map k !! key) as [e|]; [|done]. cbn. by destruct (f e).
Qed.
End rows_props.

(** ** Tombstones *)

Section gone_props.
Context {L : Layout}.
Implicit Types g : GoneRows.

(** [f] bounds [at_] from below. *)
Definition floored (f : option Z) (at_ : Z) : Prop := ∃ z, f = Some z ∧ z <= at_.

(** The tally is exact, [floor] bounds every tombstone, and [lap_floor]
    every tombstone behind the cursor. *)
Record gone_wf g : Prop := {
  gw_image : gr_image g = gone_tally (gr_map g);
  gw_floor : ∀ k at_, gr_map g !! k = Some at_ → floored (gr_floor g) at_;
  gw_lap : ∀ k at_ c, gr_map g !! k = Some at_ → gr_cursor g = Some c →
    sleb k c = true → floored (gr_lap_floor g) at_;
}.

Lemma floored_min_l f at_ z : floored f at_ → floored (min_with f z) at_.
Proof. intros (y & -> & ?). eexists. split; [done|]. lia. Qed.

Lemma floored_min_r f z : floored (min_with f z) z.
Proof. destruct f; eexists; (split; [done|]); lia. Qed.

Hint Resolve floored_min_l floored_min_r : core.

Lemma gone_default_wf : gone_wf GoneRows_default.
Proof. split; [done|by intros ??|by intros ???]. Qed.

Lemma gone_insert_map g key at_ : gr_map (Gone.insert g key at_).2 = <[key := at_]> (gr_map g).
Proof. done. Qed.

Lemma gone_insert_wf g key at_ : gone_wf g → gone_wf (Gone.insert g key at_).2.
Proof.
  intros [Hi Hf Hl]. split; cbn.
  - rewrite Hi. unfold gone_tally, Tally.add. cbn.
    destruct (gr_map g !! key) as [p|] eqn:E; cbn.
    + rewrite !(msum_insert_Some _ _ _ p) by done. f_equal; f_equal; lia.
    + rewrite !wrapping_add_wrap, !msum_insert_None by done. f_equal; f_equal; lia.
  - intros k a [[-> <-]|[? ?]]%lookup_insert_Some; eauto.
  - intros k a c Hk Hc Hle. rewrite Hc. cbn.
    apply lookup_insert_Some in Hk as [[-> <-]|[? Hk]].
    + by rewrite Hle.
    + destruct (sleb key c); eauto.
Qed.

Lemma raise_wf g key at_ : gone_wf g → gone_wf (Gone.raise g key at_).
Proof. intros H. unfold Gone.raise. destruct (is_none_or _ _); [by apply gone_insert_wf|done]. Qed.

Lemma raise_map g key at_ :
  gr_map (Gone.raise g key at_) =
    <[key := match gr_map g !! key with Some d => Z.max d at_ | None => at_ end]> (gr_map g).
Proof.
  unfold Gone.raise. destruct (gr_map g !! key) as [d|] eqn:E; cbn; [|done].
  destruct (Z.ltb_spec d at_); cbn.
  - by rewrite Z.max_r by lia.
  - rewrite Z.max_l by lia. by rewrite insert_id.
Qed.

Lemma gone_remove_map g key : gr_map (Gone.remove g key).2 = delete key (gr_map g).
Proof. unfold Gone.remove. destruct (gr_map g !! key) eqn:E; [done|]. cbn. by rewrite delete_id. Qed.

Lemma gone_remove_rest g key :
  let g' := (Gone.remove g key).2 in
  gr_cursor g' = gr_cursor g ∧ gr_floor g' = gr_floor g ∧ gr_lap_floor g' = gr_lap_floor g.
Proof. unfold Gone.remove. by destruct (gr_map g !! key). Qed.

Lemma gone_remove_tally g key :
  gr_image g = gone_tally (gr_map g) →
  gr_image (Gone.remove g key).2 = gone_tally (gr_map (Gone.remove g key).2).
Proof.
  intros Hi. unfold Gone.remove. destruct (gr_map g !! key) as [p|] eqn:E; [|done]. cbn.
  rewrite Hi. unfold gone_tally, Tally.sub. cbn.
  by rewrite !wrapping_sub_wrap, !(msum_delete _ _ _ p).
Qed.

Lemma gone_remove_wf g key : gone_wf g → gone_wf (Gone.remove g key).2.
Proof.
  intros [Hi Hf Hl]. pose proof (gone_remove_rest g key) as (Hc & Hfl & Hla). split.
  - by apply gone_remove_tally.
  - rewrite gone_remove_map, Hfl. intros k a [_ ?]%lookup_delete_Some. eauto.
  - rewrite gone_remove_map, Hc, Hla. intros k a c [_ ?]%lookup_delete_Some. eauto.
Qed.

(** *** The sweep *)

Definition remove_all g (keys : list string) : GoneRows :=
  foldl (λ g key, (Gone.remove g key).2) g keys.

Lemma remove_all_rest g ks :
  let g' := remove_all g ks in
  gr_cursor g' = gr_cursor g ∧ gr_floor g' = gr_floor g ∧ gr_lap_floor g' = gr_lap_floor g.
Proof.
  revert g. induction ks as [|k ks IH]; intros g g'; [done|].
  destruct (IH (Gone.remove g k).2) as (H1 & H2 & H3).
  destruct (gone_remove_rest g k) as (H4 & H5 & H6).
  change g' with (remove_all (Gone.remove g k).2 ks). by rewrite H1, H2, H3.
Qed.

Lemma remove_all_tally g ks :
  gr_image g = gone_tally (gr_map g) →
  gr_image (remove_all g ks) = gone_tally (gr_map (remove_all g ks)).
Proof.
  revert g. induction ks as [|k ks IH]; intros g Hg; [done|]. cbn. apply IH.
  by apply gone_remove_tally.
Qed.

Lemma remove_all_lookup g ks k at_ :
  gr_map (remove_all g ks) !! k = Some at_ ↔ gr_map g !! k = Some at_ ∧ k ∉ ks.
Proof.
  revert g. induction ks as [|x ks IH]; intros g; cbn.
  - split; [|naive_solver]. intros H. split; [done|]. apply not_elem_of_nil.
  - unfold remove_all in IH. rewrite IH, gone_remove_map, lookup_delete_Some, not_elem_of_cons.
    naive_solver.
Qed.

Lemma visit_spec cutoff rows ex lap :
  Gone.visit cutoff rows ex lap =
    (ex ++ (filter (λ r, r.2 < cutoff) rows).*1,
     foldl (λ lf r, if r.2 <? cutoff then lf else min_with lf r.2) lap rows).
Proof.
  revert ex lap. induction rows as [|[k a] rows IH]; intros ex lap.
  - cbn. by rewrite app_nil_r.
  - rewrite filter_cons. cbn [Gone.visit foldl fst snd]. destruct (Z.ltb_spec a cutoff).
    + rewrite decide_True by done. rewrite IH. cbn [fmap list_fmap fst]. by rewrite <- app_assoc.
    + rewrite decide_False by lia. apply IH.
Qed.

Definition lap_min cutoff lap (rows : list (string * Z)) : option Z :=
  foldl (λ lf r, if r.2 <? cutoff then lf else min_with lf r.2) lap rows.

Lemma lap_min_keeps cutoff lap rows at_ : floored lap at_ → floored (lap_min cutoff lap rows) at_.
Proof.
  revert lap. induction rows as [|[k a] rows IH]; intros lap H; [done|]. cbn.
  destruct (a <? cutoff); apply IH; auto.
Qed.

Lemma lap_min_visits cutoff lap rows k at_ :
  (k, at_) ∈ rows → cutoff <= at_ → floored (lap_min cutoff lap rows) at_.
Proof.
  revert lap. induction rows as [|[k' a] rows IH]; intros lap Hin Hle; [by apply elem_of_nil in Hin|].
  cbn. apply elem_of_cons in Hin as [[= <- <-]|Hin].
  - rewrite (proj2 (Z.ltb_ge _ _)) by done. apply (lap_min_keeps _ (min_with lap at_)). auto.
  - destruct (a <? cutoff); by apply IH.
Qed.

(** The lap's minimum never drops below the cutoff by visiting. *)
Lemma lap_min_ge cutoff lap rows z :
  (∀ y, lap = Some y → cutoff <= y) → lap_min cutoff lap rows = Some z → cutoff <= z.
Proof.
  revert lap. induction rows as [|[k a] rows IH]; intros lap Hlap; cbn; [auto|].
  destruct (Z.ltb_spec a cutoff); [by apply IH|]. apply IH. intros y [= <-].
  destruct lap as [y|]; [specialize (Hlap y eq_refl)|]; lia.
Qed.
End gone_props.

(** ** Ranges of an ordered map *)

Section range.
Context {A : Type}.
Implicit Types (m : gmap string A) (l : list (string * A)).

Lemma elem_of_map_range m b k v :
  (k, v) ∈ map_range m b ↔ m !! k = Some v ∧ above b k = true.
Proof.
  unfold map_range. rewrite list_elem_of_filter, elem_of_sorted_rows. cbn. tauto.
Qed.

Lemma key_lt_sorted_filter (P : string * A → Prop) `{!∀ x, Decision (P x)} l :
  StronglySorted key_lt l → StronglySorted key_lt (filter P l).
Proof.
  induction 1 as [|x l Hl IH Hall]; [constructor|]. rewrite filter_cons. case_decide; [|done].
  constructor; [done|]. rewrite Forall_forall in *. intros y [_ Hy]%list_elem_of_filter. auto.
Qed.

Lemma map_range_sorted m b : StronglySorted key_lt (map_range m b).
Proof. apply key_lt_sorted_filter, sorted_rows_sorted. Qed.

Lemma key_lt_sorted_app l1 l2 :
  StronglySorted key_lt (l1 ++ l2) →
  StronglySorted key_lt l1 ∧ StronglySorted key_lt l2 ∧
  ∀ x y, x ∈ l1 → y ∈ l2 → key_lt x y.
Proof.
  induction l1 as [|a l1 IH]; cbn; intros H.
  - split_and!; [constructor|done|]. intros x y Hx. by apply elem_of_nil in Hx.
  - inversion H as [|? ? H' Hall]; subst. destruct (IH H') as (H1 & H2 & H3).
    rewrite Forall_forall in Hall. split_and!; [|done|].
    + constructor; [done|]. rewrite Forall_forall. intros x Hx. apply Hall, elem_of_app. auto.
    + intros x y Hx Hy. apply elem_of_cons in Hx as [->|Hx]; [|auto].
      apply Hall, elem_of_app. auto.
Qed.

Lemma key_lt_sorted_ext l1 l2 :
  StronglySorted key_lt l1 → StronglySorted key_lt l2 →
  (∀ x, x ∈ l1 ↔ x ∈ l2) → l1 = l2.
Proof.
  intros H1 H2 Hel. apply key_lt_sorted_unique; [done..|]. apply NoDup_Permutation; [..|done].
  - by eapply NoDup_fmap_1, key_lt_sorted_NoDup.
  - by eapply NoDup_fmap_1, key_lt_sorted_NoDup.
Qed.

(** In a sorted row list, the rows up to the last of the first [n] are the
    first [n]. *)
Lemma take_last_split n l k v :
  StronglySorted key_lt l → last (take n l) = Some (k, v) →
  (∀ x, x ∈ take n l ↔ x ∈ l ∧ sleb x.1 k = true) ∧
  (∀ x, x ∈ drop n l ↔ x ∈ l ∧ sltb k x.1 = true).
Proof.
  intros Hs Hlast. rewrite <- (take_drop n l) in Hs. apply key_lt_sorted_app in Hs as (H1 & H2 & H12).
  assert (Hk : (k, v) ∈ take n l).
  { apply last_Some in Hlast as [l' ->]. apply elem_of_app. right. by apply list_elem_of_singleton. }
  assert (Hle : ∀ x, x ∈ take n l → sleb x.1 k = true).
  { intros x Hx. apply sleb_le. apply last_Some in Hlast as [l' E]. rewrite E in H1, Hx.
    apply key_lt_sorted_app in H1 as (_ & _ & H). apply elem_of_app in Hx as [Hx|Hx].
    - left. apply (H x (k, v)); [done|by apply list_elem_of_singleton].
    - apply list_elem_of_singleton in Hx as ->. auto. }
  assert (Hgt : ∀ x, x ∈ drop n l → sltb k x.1 = true).
  { intros x Hx. apply sltb_lt. by apply (H12 (k, v) x). }
  assert (Hspl : ∀ x, x ∈ l ↔ x ∈ take n l ∨ x ∈ drop n l).
  { intros x. by rewrite <- elem_of_app, take_drop. }
  split; intros x; rewrite Hspl; (split; [auto|]); intros [[?|?] Hx]; try done; exfalso.
  - apply Hgt in H. by rewrite sltb_sleb, Hx in H.
  - apply Hle in H. by rewrite sltb_sleb, H in Hx.
Qed.
End range.

Section sweep_props.
Context {L : Layout}.
Implicit Types g : GoneRows.

(** Tombstones the current lap has not visited yet. *)
Definition ahead g : list (string * Z) :=
  map_range (gr_map g) (Gone.cursor_bound (gr_cursor g)).

Definition doomed cutoff g : list string :=
  (filter (λ r, r.2 < cutoff) (take SWEEP_STEP (ahead g))).*1.

Lemma elem_of_doomed cutoff g k :
  k ∈ doomed cutoff g ↔ ∃ at_, (k, at_) ∈ take SWEEP_STEP (ahead g) ∧ at_ < cutoff.
Proof.
  unfold doomed. rewrite list_elem_of_fmap. split.
  - intros ([k' a] & -> & [Ha Hin]%list_elem_of_filter). eauto.
  - intros (a & Hin & Ha). exists (k, a). by rewrite list_elem_of_filter.
Qed.

Lemma elem_of_ahead g k a :
  (k, a) ∈ ahead g ↔
  gr_map g !! k = Some a ∧ (∀ c, gr_cursor g = Some c → sleb k c = false).
Proof.
  unfold ahead. rewrite elem_of_map_range.
  assert (above (Gone.cursor_bound (gr_cursor g)) k = true ↔
          ∀ c, gr_cursor g = Some c → sleb k c = false) as ->; [|done].
  destruct (gr_cursor g) as [c|]; cbn; [|naive_solver].
  rewrite sltb_sleb, negb_true_iff. naive_solver.
Qed.

(** What one sweep leaves. *)
Lemma sweep_unfold g cutoff :
  (Gone.sweep_expired g cutoff).2 =
  if is_none_or (λ floor, cutoff <=? floor) (gr_floor g) then g
  else
    let rows := take SWEEP_STEP (ahead g) in
    let lap := lap_min cutoff (gr_lap_floor g) rows in
    remove_all
      (if (length rows <? SWEEP_STEP)%nat
       then mkGoneRows (gr_map g) (gr_image g) None lap None
       else mkGoneRows (gr_map g) (gr_image g) (fst <$> last rows) (gr_floor g) lap)
      (doomed cutoff g).
Proof.
  unfold Gone.sweep_expired. destruct (is_none_or _ _); [done|].
  rewrite visit_spec. done.
Qed.

Lemma sweep_lookup g cutoff k at_ :
  gr_map (Gone.sweep_expired g cutoff).2 !! k = Some at_ ↔
  gr_map g !! k = Some at_ ∧
    (is_none_or (λ floor, cutoff <=? floor) (gr_floor g) = true ∨ k ∉ doomed cutoff g).
Proof.
  rewrite sweep_unfold. destruct (is_none_or _ _); [naive_solver|]. cbn zeta.
  rewrite remove_all_lookup. destruct (_ <? _)%nat; cbn; naive_solver.
Qed.

Lemma sweep_keeps g cutoff k at_ :
  gr_map g !! k = Some at_ → cutoff <= at_ →
  gr_map (Gone.sweep_expired g cutoff).2 !! k = Some at_.
Proof.
  intros Hk Hle. rewrite sweep_lookup. split; [done|]. right.
  rewrite elem_of_doomed. intros (a & Hin & Ha).
  assert ((k, a) ∈ ahead g) as [Hk' _]%elem_of_ahead by (by eapply subseteq_take).
  simplify_eq. lia.
Qed.

Lemma sweep_subset g cutoff k at_ :
  gr_map (Gone.sweep_expired g cutoff).2 !! k = Some at_ → gr_map g !! k = Some at_.
Proof. rewrite sweep_lookup. tauto. Qed.

Lemma ahead_short g :
  (length (take SWEEP_STEP (ahead g)) <? SWEEP_STEP)%nat = true →
  take SWEEP_STEP (ahead g) = ahead g.
Proof.
  rewrite length_take. intros H%Nat.ltb_lt. apply take_ge. lia.
Qed.

(** A tombstone behind the new cursor was behind the old one or visited. *)
Lemma behind_split g k a kl v :
  last (take SWEEP_STEP (ahead g)) = Some (kl, v) → gr_map g !! k = Some a →
  sleb k kl = true →
  (∃ c, gr_cursor g = Some c ∧ sleb k c = true) ∨ (k, a) ∈ take SWEEP_STEP (ahead g).
Proof.
  intros Hlast Hk Hle.
  destruct (is_some_and (sleb k) (gr_cursor g)) eqn:E; [left|right].
  { destruct (gr_cursor g) as [c|]; [by exists c|done]. }
  apply (take_last_split SWEEP_STEP (ahead g) kl v (map_range_sorted _ _) Hlast). split; [|done].
  apply elem_of_ahead. split; [done|]. intros c Hc. by rewrite Hc in E.
Qed.

Lemma sweep_wf g cutoff : gone_wf g → gone_wf (Gone.sweep_expired g cutoff).2.
Proof.
  intros Hwf. rewrite sweep_unfold. destruct (is_none_or _ _); [done|]. cbn zeta.
  match goal with |- gone_wf (remove_all ?x _) => set (g' := x) end.
  assert (gr_map g' = gr_map g ∧ gr_image g' = gr_image g) as [Hm Hi] by (subst g'; by destruct (_ <? _)%nat).
  destruct (remove_all_rest g' (doomed cutoff g)) as (Hc & Hf & Hl).
  assert (Hvis : ∀ k at_, (k, at_) ∈ take SWEEP_STEP (ahead g) → k ∉ doomed cutoff g →
    floored (lap_min cutoff (gr_lap_floor g) (take SWEEP_STEP (ahead g))) at_).
  { intros k at_ Hin Hd. apply (lap_min_visits _ _ _ k); [done|].
    destruct (decide (cutoff <= at_)) as [?|?]; [done|]. destruct Hd.
    apply elem_of_doomed. exists at_. split; [done|lia]. }
  split.
  - apply remove_all_tally. rewrite Hm, Hi. apply Hwf.
  - intros k at_ Hk. apply remove_all_lookup in Hk as [Hk Hd]. rewrite Hf. rewrite Hm in Hk. subst g'.
    destruct (_ <? _)%nat eqn:E; cbn; [|by eapply gw_floor].
    destruct (gr_cursor g) as [c|] eqn:Ec; [destruct (sleb k c) eqn:Ek|].
    + apply lap_min_keeps. by eapply gw_lap.
    + apply (Hvis k); [|done]. rewrite ahead_short by done. apply elem_of_ahead. naive_solver.
    + apply (Hvis k); [|done]. rewrite ahead_short by done. apply elem_of_ahead. naive_solver.
  - intros k at_ c Hk. apply remove_all_lookup in Hk as [Hk Hd]. rewrite Hc, Hl. rewrite Hm in Hk. subst g'.
    destruct (_ <? _)%nat eqn:E; cbn; [done|]. intros ([kl v] & Hlast & ->)%fmap_Some Hle. cbn in Hle.
    destruct (behind_split g k at_ kl v Hlast Hk Hle) as [(c & ? & ?)|?]; [|by apply (Hvis k)].
    apply lap_min_keeps. by eapply gw_lap.
Qed.
End sweep_props.

(** *** Repeated sweeps *)

Section sweep_laps.
Context {L : Layout}.
Implicit Types g : GoneRows.
Variable cutoff : Z.

Definition sweep g : GoneRows := (Gone.sweep_expired g cutoff).2.
Definition sweeps (n : nat) g : GoneRows := Nat.iter n sweep g.

Definition idle g : Prop := is_none_or (λ floor, cutoff <=? floor) (gr_floor g) = true.
Definition swept g : Prop := ∀ k at_, gr_map g !! k = Some at_ → cutoff <= at_.

(** The current lap has left nothing expired behind its cursor. *)
Definition clean g : Prop :=
  (∀ k at_ c, gr_map g !! k = Some at_ → gr_cursor g = Some c → sleb k c = true → cutoff <= at_) ∧
  (∀ z, gr_lap_floor g = Some z → cutoff <= z).

Lemma sweeps_wf n g : gone_wf g → gone_wf (sweeps n g).
Proof. intros H. induction n; cbn; [done|]. by apply sweep_wf. Qed.

Lemma sweeps_S n g : sweeps (S n) g = sweeps n (sweep g).
Proof. unfold sweeps. by rewrite Nat.iter_succ_r. Qed.

Lemma sweeps_add n m g : sweeps (n + m) g = sweeps n (sweeps m g).
Proof. apply Nat.iter_add. Qed.

Lemma idle_swept g : gone_wf g → idle g → swept g.
Proof.
  intros Hwf Hid k at_ Hk. destruct (gw_floor g Hwf k at_ Hk) as (z & E & Hz).
  unfold idle in Hid. rewrite E in Hid. cbn in Hid. apply Z.leb_le in Hid. lia.
Qed.

Lemma swept_sweeps n g : swept g → swept (sweeps n g).
Proof. intros H. induction n; cbn; [done|]. intros k at_ Hk%sweep_subset. eauto. Qed.

Lemma sweep_size g : (base.size (gr_map (sweep g)) <= base.size (gr_map g))%nat.
Proof. apply map_subseteq_size, map_subseteq_spec. intros k a. apply sweep_subset. Qed.

Lemma sweeps_size n g : (base.size (gr_map (sweeps n g)) <= base.size (gr_map g))%nat.
Proof. induction n; cbn; [done|]. etrans; [apply sweep_size|done]. Qed.

Lemma ahead_size g : (length (ahead g) <= base.size (gr_map g))%nat.
Proof.
  unfold ahead, map_range. rewrite <- length_sorted_rows. apply length_filter.
Qed.

(** The lap's last step: the cursor returns to the start. *)
Lemma sweep_wraps g :
  ¬ idle g → (length (ahead g) < SWEEP_STEP)%nat →
  gr_cursor (sweep g) = None ∧ gr_lap_floor (sweep g) = None ∧ (clean g → swept (sweep g)).
Proof.
  intros Hid Hlen. assert (Hshort : take SWEEP_STEP (ahead g) = ahead g) by (apply take_ge; lia).
  split_and!.
  1,2: unfold sweep; rewrite sweep_unfold; destruct (is_none_or _ _) eqn:E; [done|]; cbn zeta;
    rewrite Hshort, (proj2 (Nat.ltb_lt _ _)) by done;
    match goal with |- context [remove_all ?x ?d] => by destruct (remove_all_rest x d) as (? & ? & ?) end.
  intros [Hc _] k at_ Hk. apply sweep_lookup in Hk as [Hk [?|Hd]]; [done|].
  destruct (gr_cursor g) as [c|] eqn:Ec; [destruct (sleb k c) eqn:Ek|]; [by eapply Hc| |].
  all: destruct (decide (cutoff <= at_)) as [?|?]; [done|]; exfalso; apply Hd, elem_of_doomed;
    exists at_; split; [|lia]; rewrite Hshort; apply elem_of_ahead; naive_solver.
Qed.

(** A step inside the lap moves the cursor over [SWEEP_STEP] tombstones. *)
Lemma sweep_moves g :
  ¬ idle g → (SWEEP_STEP <= length (ahead g))%nat →
  length (ahead (sweep g)) = (length (ahead g) - SWEEP_STEP)%nat ∧ (clean g → clean (sweep g)).
Proof.
  intros Hid Hlen.
  destruct (last (take SWEEP_STEP (ahead g))) as [[kl v]|] eqn:Hlast.
  2:{ apply last_None in Hlast. apply (f_equal length) in Hlast. rewrite length_take in Hlast.
      unfold SWEEP_STEP in *. cbn [length] in Hlast. lia. }
  assert (Hs : gr_cursor (sweep g) = Some kl ∧
               gr_lap_floor (sweep g) = lap_min cutoff (gr_lap_floor g) (take SWEEP_STEP (ahead g))).
  { unfold sweep. rewrite sweep_unfold. destruct (is_none_or _ _) eqn:E; [done|]. cbn zeta.
    rewrite length_take, (proj2 (Nat.ltb_ge _ _)) by lia. rewrite Hlast. cbn [fmap option_fmap option_map fst].
    match goal with |- context [remove_all ?x ?d] => by destruct (remove_all_rest x d) as (-> & _ & ->) end. }
  destruct Hs as [Hcur Hlap].
  destruct (take_last_split SWEEP_STEP (ahead g) kl v (map_range_sorted _ _) Hlast) as [Htake Hdrop].
  split.
  - rewrite <- length_drop. f_equal. apply key_lt_sorted_ext.
    + apply map_range_sorted.
    + pose proof (map_range_sorted (gr_map g) (Gone.cursor_bound (gr_cursor g))) as Hs.
      fold (ahead g) in Hs. rewrite <- (take_drop SWEEP_STEP (ahead g)) in Hs.
      by apply key_lt_sorted_app in Hs as (_ & ? & _).
    + intros [k a]. rewrite Hdrop, !elem_of_ahead, Hcur. cbn. rewrite sltb_sleb, negb_true_iff. split.
      * intros [Hk%sweep_subset Hle]. specialize (Hle kl eq_refl). split; [|done]. split; [done|].
        intros c Hc. apply not_true_iff_false. intros Hkc.
        enough (sleb k kl = true) by congruence.
        apply sleb_le. left. apply sleb_le in Hkc.
        assert ((kl, v) ∈ ahead g) as [_ Hkl]%elem_of_ahead.
        { eapply (subseteq_take SWEEP_STEP). apply last_Some in Hlast as [l' ->]. set_solver. }
        specialize (Hkl c Hc). apply negb_true_iff in Hkl. rewrite <- sltb_sleb in Hkl. apply sltb_lt in Hkl.
        destruct Hkc as [Hkc| ->]; [by trans c|done].
      * intros [[Hk Hc] Hle]. split; [|naive_solver]. apply sweep_lookup. split; [done|right].
        rewrite elem_of_doomed. intros (a' & Hin & _). apply Htake in Hin as [_ Hin]. cbn in Hin. congruence.
  - intros [Hc Hl]. split.
    + intros k at_ c Hk Hcc Hle. rewrite Hcur in Hcc. injection Hcc as <-.
      apply sweep_lookup in Hk as [Hk [?|Hd]]; [done|].
      destruct (behind_split g k at_ kl v Hlast Hk Hle) as [(c & ? & ?)|Hin]; [by eapply Hc|].
      destruct (decide (cutoff <= at_)) as [?|?]; [done|]. exfalso. apply Hd, elem_of_doomed.
      exists at_. split; [done|lia].
    + rewrite Hlap. intros z. by apply lap_min_ge.
Qed.

Lemma clean_lap n g :
  gone_wf g → clean g → (length (ahead g) < n * SWEEP_STEP)%nat → swept (sweeps n g).
Proof.
  revert g. induction n as [|n IH]; intros g Hwf Hcl Hlt; [cbn in Hlt; lia|].
  rewrite sweeps_S. destruct (decide (idle g)) as [Hid|Hid].
  { rewrite <- sweeps_S. by apply swept_sweeps, idle_swept. }
  destruct (decide (length (ahead g) < SWEEP_STEP)%nat) as [Hs|Hs].
  - apply swept_sweeps. by apply sweep_wraps.
  - destruct (sweep_moves g Hid ltac:(lia)) as [Hlen Hcl'].
    apply IH; [by apply sweep_wf|auto|]. rewrite Hlen. lia.
Qed.

(** Any lap ends: either nothing is expired or the next one starts clean. *)
Lemma any_lap n g :
  gone_wf g → (length (ahead g) < n * SWEEP_STEP)%nat →
  swept (sweeps n g) ∨ ∃ m, (m <= n)%nat ∧ clean (sweeps m g) ∧ gr_cursor (sweeps m g) = None.
Proof.
  revert g. induction n as [|n IH]; intros g Hwf Hlt; [cbn in Hlt; lia|].
  destruct (decide (idle g)) as [Hid|Hid]; [left; by apply swept_sweeps, idle_swept|].
  destruct (decide (length (ahead g) < SWEEP_STEP)%nat) as [Hs|Hs].
  - right. exists 1%nat. destruct (sweep_wraps g Hid Hs) as (Hc & Hl & _). cbn.
    split; [lia|]. split; [split|done].
    + intros ??? _ E. congruence.
    + intros z E. congruence.
  - destruct (sweep_moves g Hid ltac:(lia)) as [Hlen _]. rewrite sweeps_S.
    destruct (IH (sweep g)) as [?|(m & ? & ? & ?)]; [by apply sweep_wf|rewrite Hlen; lia|by left|].
    right. exists (S m). rewrite sweeps_S. split; [lia|done].
Qed.

Definition lap_steps (g : GoneRows) : nat := base.size (gr_map g) / SWEEP_STEP + 1.

Lemma sweeps_all g : gone_wf g → swept (sweeps (lap_steps g + lap_steps g) g).
Proof.
  intros Hwf.
  assert (Hn : (base.size (gr_map g) < lap_steps g * SWEEP_STEP)%nat).
  { unfold lap_steps, SWEEP_STEP. pose proof (Nat.div_mod_eq (base.size (gr_map g)) 16).
    pose proof (Nat.mod_upper_bound (base.size (gr_map g)) 16 ltac:(lia)). lia. }
  destruct (any_lap (lap_steps g) g) as [Hd|(m & Hm & Hcl & Hnone)]; [done|..].
  - pose proof (ahead_size g). lia.
  - rewrite sweeps_add. by apply swept_sweeps.
  - replace (lap_steps g + lap_steps g)%nat with ((lap_steps g - m) + (lap_steps g + m))%nat by lia.
    rewrite sweeps_add, sweeps_add. apply swept_sweeps, clean_lap; [by apply sweeps_wf|done|].
    pose proof (ahead_size (sweeps m g)). pose proof (sweeps_size m g). lia.
Qed.

Lemma sweeps_lookup n g k at_ :
  gr_map (sweeps n g) !! k = Some at_ → gr_map g !! k = Some at_.
Proof. induction n; cbn; [done|]. intros H%sweep_subset. auto. Qed.

Lemma sweeps_keeps n g k at_ :
  gr_map g !! k = Some at_ → cutoff <= at_ → gr_map (sweeps n g) !! k = Some at_.
Proof. intros Hk Hle. induction n; cbn; [done|]. by apply sweep_keeps. Qed.
End sweep_laps.

Section sweep_theorems.
Context {L : Layout}.

Lemma sweep_count g cutoff :
  (Gone.sweep_expired g cutoff).1 =
  if is_none_or (λ floor, cutoff <=? floor) (gr_floor g) then 0%nat
  else length (doomed cutoff g).
Proof. unfold Gone.sweep_expired. destruct (is_none_or _ _); [done|]. by rewrite visit_spec. Qed.

Lemma doomed_length cutoff g : (length (doomed cutoff g) <= SWEEP_STEP)%nat.
Proof.
  unfold doomed. rewrite length_fmap. etrans; [apply length_filter|]. rewrite length_take. lia.
Qed.

Lemma doomed_held cutoff g k : k ∈ doomed cutoff g → is_Some (gr_map g !! k).
Proof.
  intros (a & Hin%subseteq_take & _)%elem_of_doomed. apply elem_of_ahead in Hin as [? _]. eauto.
Qed.

Lemma doomed_NoDup cutoff g : NoDup (doomed cutoff g).
Proof.
  apply key_lt_sorted_NoDup, key_lt_sorted_filter.
  pose proof (map_range_sorted (gr_map g) (Gone.cursor_bound (gr_cursor g))) as Hs.
  fold (ahead g) in Hs. rewrite <- (take_drop SWEEP_STEP (ahead g)) in Hs.
  by apply key_lt_sorted_app in Hs as (? & _ & _).
Qed.

Lemma remove_all_size g ks :
  NoDup ks → (∀ k, k ∈ ks → is_Some (gr_map g !! k)) →
  base.size (gr_map g) = (base.size (gr_map (remove_all g ks)) + length ks)%nat.
Proof.
  intros Hnd. revert g. induction Hnd as [|k ks Hk Hnd IH]; intros g Hin; cbn; [lia|].
  destruct (Hin k) as [a Ha]; [set_solver|].
  change (foldl _ _ ks) with (remove_all (Gone.remove g k).2 ks).
  assert (base.size (gr_map g) = S (base.size (gr_map (Gone.remove g k).2))) as ->.
  { rewrite gone_remove_map, map_size_delete, Ha. cbn.
    assert (base.size (gr_map g) ≠ 0%nat); [|lia]. apply map_size_ne_0_lookup. eauto. }
  rewrite (IH (Gone.remove g k).2); [lia|]. intros k' Hk'.
  rewrite gone_remove_map, lookup_delete_ne by set_solver. apply Hin. set_solver.
Qed.

(** One sweep forgets only tombstones older than the cutoff, at most
    [SWEEP_STEP] of them and exactly as many as it reports, and keeps the
    tally and the floor bounds exact. *)
Theorem sweep_expired_safe g cutoff :
  gone_wf g →
  let '(n, g') := Gone.sweep_expired g cutoff in
  gone_wf g' ∧ gr_map g' ⊆ gr_map g ∧
  (∀ k at_, gr_map g !! k = Some at_ → cutoff <= at_ → gr_map g' !! k = Some at_) ∧
  (n <= SWEEP_STEP)%nat ∧ (base.size (gr_map g) = base.size (gr_map g') + n)%nat.
Proof.
  intros Hwf. rewrite (surjective_pairing (Gone.sweep_expired g cutoff)). split_and!.
  - by apply sweep_wf.
  - apply map_subseteq_spec. intros k a. apply sweep_subset.
  - intros k a. apply sweep_keeps.
  - rewrite sweep_count. destruct (is_none_or _ _); [lia|]. apply doomed_length.
  - rewrite sweep_count, sweep_unfold. destruct (is_none_or _ _); [lia|]. cbn zeta.
    match goal with |- context [remove_all ?x ?d] => rewrite <- (remove_all_size x d) end.
    + by destruct (_ <? _)%nat.
    + apply doomed_NoDup.
    + intros k Hk. destruct (doomed_held _ _ _ Hk) as [a Ha]. exists a. by destruct (_ <? _)%nat.
Qed.

Definition sample_gone : GoneRows :=
  (Gone.insert (Gone.insert (Gone.insert GoneRows_default "a" 5).2 "b" 50).2 "c" 7).2.

Lemma sample_gone_wf : gone_wf sample_gone.
Proof. do 3 apply gone_insert_wf. apply gone_default_wf. Qed.

(** Sweeping is complete: with no delete in between, two laps of sweep
    steps leave exactly the unexpired tombstones. *)
Theorem sweeps_complete g cutoff :
  gone_wf g →
  gr_map (sweeps cutoff (lap_steps g + lap_steps g) g) =
    filter (λ r, cutoff <= r.2) (gr_map g).
Proof.
  intros Hwf. apply map_eq. intros k. apply option_eq. intros a.
  rewrite map_lookup_filter_Some. cbn. split.
  - intros Hk. split; [by eapply sweeps_lookup|by eapply sweeps_all].
  - intros [Hk Hle]. by apply sweeps_keeps.
Qed.
End sweep_theorems.

#[local] Existing Instance layout64.

Lemma sweep_expired_safe_witness :
  let '(n, g') := Gone.sweep_expired sample_gone 10 in
  (n <= SWEEP_STEP)%nat ∧ gr_map g' ⊆ gr_map sample_gone.
Proof.
  pose proof (sweep_expired_safe sample_gone 10 sample_gone_wf) as H.
  destruct (Gone.sweep_expired _ _). by split; apply H.
Defined.

Lemma sweeps_complete_witness :
  gr_map (sweeps 10 (lap_steps sample_gone + lap_steps sample_gone) sample_gone) =
    filter (λ r, 10 <= r.2) (gr_map sample_gone).
Proof. apply (sweeps_complete sample_gone 10). apply sample_gone_wf. Defined.
