(* ===== verification/IndexCapture.v ===== *)
(** * The donor capture attached to the index

    [IndexCapture] of [src/src/index/fleet.rs]: while a donor image is
    offered, every final index effect is appended to a bounded journal under the
    index lock, or the candidate is withdrawn.  The journal itself belongs to
    [groupnet]; the capture keeps the calls it received, in order. *)

From S2P Require Import Prelude.
From S2P Require Import ObjTypes.
From S2P Require Import ImageCodec.

(** A writer's feed position: epoch-major, then sequence. *)
Record NativeCut := mkCut { cut_writer : string; cut_epoch : Z; cut_sequence : Z }.

Inductive DeltaIdentity := Native (cut : NativeCut) | Local (id : bytes).

Inductive Invalidation := IGap | ICapacity | IMembership | IRebuild | IDonorLost.

(** The calls made to the [groupnet] journal. *)
Inductive JournalCall :=
| JAppend (now generation : Z) (identity : DeltaIdentity) (effect : bytes)
| JRenew (now generation : Z) (sealed : NativeCut) (epoch : Z) (effect : bytes)
| JInvalidate (reason : Invalidation).

(** [cp_ingress] tells the ingress a capture feeds from every other; [cp_clock n] is the
    session clock sampled at the [n]-th journal call. *)
Record IndexCapture := mkCapture {
  cp_ingress : Z;
  cp_calls : list JournalCall;
  cp_generation : Z;
  cp_clock : nat → Z;
  cp_next_local : Z;
  cp_max_event_bytes : Z;
  cp_max_name_bytes : Z;
}.

Module Capture.
Definition new (ingress generation : Z) (clock : nat → Z) (max_event_bytes max_name_bytes : Z)
    : IndexCapture :=
  mkCapture ingress [] generation clock 0 max_event_bytes max_name_bytes.

Definition call (c : IndexCapture) (j : JournalCall) : IndexCapture :=
  mkCapture (cp_ingress c) (cp_calls c ++ [j]) (cp_generation c) (cp_clock c) (cp_next_local c)
    (cp_max_event_bytes c) (cp_max_name_bytes c).

Definition now (c : IndexCapture) : Z := cp_clock c (length (cp_calls c)).

Definition invalidate (c : IndexCapture) (reason : Invalidation) : IndexCapture :=
  call c (JInvalidate reason).

Definition append_bytes (c : IndexCapture) (identity : DeltaIdentity) (effect : bytes)
    : IndexCapture :=
  call c (JAppend (now c) (cp_generation c) identity effect).

Definition append_local (c : IndexCapture) (effect : bytes) : IndexCapture :=
  match checked_add u64_max (cp_next_local c) 1 with
  | None => invalidate c ICapacity
  | Some next =>
      let c := mkCapture (cp_ingress c) (cp_calls c) (cp_generation c) (cp_clock c) next
                 (cp_max_event_bytes c) (cp_max_name_bytes c) in
      append_bytes c (Local (to_le_bytes 8 next)) effect
  end.

Definition record_put (c : IndexCapture) (identity : option DeltaIdentity)
    (bucket key : string) (e : ObjEntry) : IndexCapture :=
  if (cp_max_name_bytes c <? slen bucket) || (cp_max_name_bytes c <? slen key)
  then invalidate c ICapacity
  else match Delta.encode_put bucket key e (cp_max_event_bytes c) (cp_max_name_bytes c) with
  | Err _ => invalidate c ICapacity
  | Ok effect =>
      match identity with
      | Some identity => append_bytes c identity effect
      | None => append_local c effect
      end
  end.

Definition record_delete (c : IndexCapture) (identity : option DeltaIdentity)
    (bucket key : string) (deleted_at : Z) : IndexCapture :=
  if (cp_max_name_bytes c <? slen bucket) || (cp_max_name_bytes c <? slen key)
  then invalidate c ICapacity
  else match Delta.encode_delete bucket key deleted_at (cp_max_event_bytes c)
               (cp_max_name_bytes c) with
  | Err _ => invalidate c ICapacity
  | Ok effect =>
      match identity with
      | Some identity => append_bytes c identity effect
      | None => append_local c effect
      end
  end.

Definition record_native_noop (c : IndexCapture) (identity : DeltaIdentity) : IndexCapture :=
  match Delta.encode_delta DNoop (cp_max_event_bytes c) (cp_max_name_bytes c) with
  | Err _ => invalidate c ICapacity
  | Ok effect => append_bytes c identity effect
  end.

Definition record_renewal (c : IndexCapture) (sealed : NativeCut) (epoch : Z) : IndexCapture :=
  match Delta.encode_delta DNoop (cp_max_event_bytes c) (cp_max_name_bytes c) with
  | Err _ => invalidate c ICapacity
  | Ok effect => call c (JRenew (now c) (cp_generation c) sealed epoch effect)
  end.
End Capture.
