(* ===== verification/KeyIndex.v ===== *)
(** * The LIST index

    The state of [src/src/index.rs] ([KeyIndexState], [BucketState]) and every
    operation on it: definitive and observed puts, deletes, per-key uncertainty
    fences, whole-bucket rebuilds, entry completion, and the native feed cuts of
    [src/src/index/fleet.rs].  Each operation is the body the code runs under
    the index lock. *)

From S2P Require Import Prelude.
From S2P Require Import ObjTypes.
From S2P Require Import ImageCodec.
From S2P Require Import Rows.
From S2P Require Import IndexCapture.

(** ** State *)

Record BucketState := mkBucket {
  synced : bool;
  keys : KeyRows;
  gone : GoneRows;
  sync_generation : Z;
  rebuild_generation : option Z;
  rebuild_touched : gset string;
  uncertainty_epoch : Z;
  uncertain_keys : gmap string Z;
  b_stats : IndexStats;
}.

(** [keys.len() + gone.len()]. *)
Definition bucket_rows (b : BucketState) : Z := Keys.len (keys b) + Gone.len (gone b).

Definition BucketState_default : BucketState :=
  mkBucket false KeyRows_default GoneRows_default 0 None ∅ 0 ∅ stats_zero.

Record KeyIndexState := mkIndex {
  buckets : gmap string BucketState;
  i_stats : IndexStats;
  capture : option IndexCapture;
  native_cuts : gmap string (Z * Z);
}.

Definition KeyIndexState_default : KeyIndexState := mkIndex ∅ stats_zero None ∅.

(** Field updates. *)
Definition with_keys (b : BucketState) k : BucketState :=
  mkBucket (synced b) k (gone b) (sync_generation b) (rebuild_generation b)
    (rebuild_touched b) (uncertainty_epoch b) (uncertain_keys b) (b_stats b).
Definition with_gone (b : BucketState) g : BucketState :=
  mkBucket (synced b) (keys b) g (sync_generation b) (rebuild_generation b)
    (rebuild_touched b) (uncertainty_epoch b) (uncertain_keys b) (b_stats b).
Definition with_touched (b : BucketState) t : BucketState :=
  mkBucket (synced b) (keys b) (gone b) (sync_generation b) (rebuild_generation b)
    t (uncertainty_epoch b) (uncertain_keys b) (b_stats b).
Definition with_uncertain (b : BucketState) epoch u : BucketState :=
  mkBucket (synced b) (keys b) (gone b) (sync_generation b) (rebuild_generation b)
    (rebuild_touched b) epoch u (b_stats b).
Definition with_b_stats (b : BucketState) st : BucketState :=
  mkBucket (synced b) (keys b) (gone b) (sync_generation b) (rebuild_generation b)
    (rebuild_touched b) (uncertainty_epoch b) (uncertain_keys b) st.

Definition with_bucket (s : KeyIndexState) name b : KeyIndexState :=
  mkIndex (<[name := b]> (buckets s)) (i_stats s) (capture s) (native_cuts s).
Definition with_stats (s : KeyIndexState) st : KeyIndexState :=
  mkIndex (buckets s) st (capture s) (native_cuts s).
Definition with_capture (s : KeyIndexState) c : KeyIndexState :=
  mkIndex (buckets s) (i_stats s) c (native_cuts s).
Definition with_cuts (s : KeyIndexState) n : KeyIndexState :=
  mkIndex (buckets s) (i_stats s) (capture s) n.

(** [buckets.entry(name).or_default()]: the bucket the code goes on with. *)
Definition bucket_or_default (s : KeyIndexState) (name : string) : BucketState :=
  default BucketState_default (buckets s !! name).

(** ** Native feed cuts ([fleet.rs]) *)

Definition MAX_NATIVE_WRITERS : Z := 256.
Definition MAX_NATIVE_ID_BYTES : Z := 256.

(** [if let Some(capture) = &self.capture { capture.invalidate(reason) }]. *)
Definition invalidate_capture (s : KeyIndexState) (reason : Invalidation) : KeyIndexState :=
  with_capture s ((λ c, Capture.invalidate c reason) <$> capture s).

Definition invalidate_capture_for_rebuild (s : KeyIndexState) : KeyIndexState :=
  invalidate_capture s IRebuild.

Definition note_native_cut (s : KeyIndexState) (cut : NativeCut) : bool * KeyIndexState :=
  if sempty (cut_writer cut) || (MAX_NATIVE_ID_BYTES <? slen (cut_writer cut))
     || (cut_epoch cut =? 0) || (cut_sequence cut =? 0)
  then (true, invalidate_capture s IGap)
  else
    let moved := <[cut_writer cut := (cut_epoch cut, cut_sequence cut)]> (native_cuts s) in
    match native_cuts s !! cut_writer cut with
    | None =>
        if MAX_NATIVE_WRITERS <=? Z.of_nat (base.size (native_cuts s))
        then (true, invalidate_capture s ICapacity)
        else (true, invalidate_capture (with_cuts s moved) IMembership)
    | Some (old_epoch, old_sequence) =>
        if (cut_epoch cut =? old_epoch) && (cut_sequence cut <=? old_sequence)
        then (false, s)
        else
          let s :=
            if negb (cut_epoch cut =? old_epoch) then invalidate_capture s IMembership
            else if negb (cut_sequence cut =? saturating_add u64_max old_sequence 1)
                 then invalidate_capture s IGap else s in
          (true, with_cuts s moved)
    end.

Definition register_native_writer (s : KeyIndexState) (cut : NativeCut) : KeyIndexState :=
  if sempty (cut_writer cut) || (MAX_NATIVE_ID_BYTES <? slen (cut_writer cut))
     || (cut_epoch cut =? 0) || is_some (native_cuts s !! cut_writer cut)
  then s
  else if MAX_NATIVE_WRITERS <=? Z.of_nat (base.size (native_cuts s))
  then invalidate_capture s ICapacity
  else
    invalidate_capture
      (with_cuts s (<[cut_writer cut := (cut_epoch cut, cut_sequence cut)]> (native_cuts s)))
      IMembership.

Definition renew_native_writer (s : KeyIndexState) (sealed : NativeCut) (epoch : Z)
    : KeyIndexState :=
  match native_cuts s !! cut_writer sealed with
  | None => s
  | Some cut =>
      if epoch <=? cut.1 then s
      else
        let renewable := bool_decide (cut = (cut_epoch sealed, cut_sequence sealed)) in
        let s := with_cuts s (<[cut_writer sealed := (epoch, 0)]> (native_cuts s)) in
        if renewable
        then with_capture s ((λ c, Capture.record_renewal c sealed epoch) <$> capture s)
        else invalidate_capture s IGap
  end.

(** [through <= *cut] on pairs: lexicographic. *)
Definition position_le (a b : Z * Z) : bool :=
  (a.1 <? b.1) || ((a.1 =? b.1) && (a.2 <=? b.2)).

Definition skip_native_gap (s : KeyIndexState) (missed_through : NativeCut) : KeyIndexState :=
  match native_cuts s !! cut_writer missed_through with
  | None => s
  | Some cut =>
      let through := (cut_epoch missed_through, cut_sequence missed_through) in
      if position_le through cut then s
      else invalidate_capture
             (with_cuts s (<[cut_writer missed_through := through]> (native_cuts s))) IGap
  end.

Definition note_native_seal (s : KeyIndexState) (cut : NativeCut) : KeyIndexState :=
  let '(fresh, s) := note_native_cut s cut in
  if fresh
  then with_capture s ((λ c, Capture.record_native_noop c (Native cut)) <$> capture s)
  else s.

(** ** Accounting *)

Definition account_replacement (b : BucketState) (total previous current : IndexStats)
    : BucketState * IndexStats :=
  (with_b_stats b (Stats.replace (b_stats b) previous current),
   Stats.replace total previous current).

Definition TOMBSTONE_TTL : Z := from_secs 3600.
Definition TOMBSTONE_PRUNE_LEN : Z := 65536.

Inductive TombstoneSweep := Run | Hold.
Inductive PutAuthority := DefinitiveMutation | Observation.

#[global] Instance TombstoneSweep_eq_dec : EqDecision TombstoneSweep.
Proof. solve_decision. Defined.

Definition touch (b : BucketState) (key : string) : BucketState :=
  if is_some (rebuild_generation b) then with_touched b ({[key]} ∪ rebuild_touched b) else b.

Definition clear_fence (b : BucketState) (key : string) : BucketState :=
  with_uncertain b (uncertainty_epoch b) (delete key (uncertain_keys b)).

(** [capture.record_native_noop(identity)] when both are present. *)
Definition noop_if (c : option IndexCapture) (id : option DeltaIdentity) : option IndexCapture :=
  match c, id with
  | Some c, Some id => Some (Capture.record_native_noop c id)
  | _, _ => c
  end.

(** The identity's native cut is noted first; [false] for a known duplicate. *)
Definition note_identity (s : KeyIndexState) (id : option DeltaIdentity) : bool * KeyIndexState :=
  match id with
  | Some (Native cut) => note_native_cut s cut
  | _ => (true, s)
  end.

Section ops.
Context {L : Layout}.

(** ** Puts *)

(** Insert a row and account for the row it replaced. *)
Definition insert_accounted (b : BucketState) (total : IndexStats) (key : string) (e : ObjEntry)
    : BucketState * IndexStats :=
  let current := Stats.for_entry e in
  let '(previous, ks) := Keys.insert (keys b) key e in
  account_replacement (with_keys b ks) total
    (match previous with Some p => Stats.for_entry p | None => stats_zero end) current.

Definition apply_put_with_authority (s : KeyIndexState) (bucket key : string) (e : ObjEntry)
    (authority : PutAuthority) (id : option DeltaIdentity) : bool * KeyIndexState :=
  let ts := last_modified e in
  let '(fresh, s) := note_identity s id in
  if negb fresh then (false, s)
  else
    let s := if is_none (buckets s !! bucket) then invalidate_capture_for_rebuild s else s in
    let b := bucket_or_default s bucket in
    let definitive := match authority with DefinitiveMutation => true | Observation => false end in
    let first_rebuild_mutation :=
      definitive && is_some (rebuild_generation b) && negb (bool_decide (key ∈ rebuild_touched b)) in
    let rejected := (false, with_capture (with_bucket s bucket b) (noop_if (capture s) id)) in
    if negb first_rebuild_mutation && is_some_and (λ dead, ts <=? dead) (Gone.get (gone b) key)
    then rejected
    else if negb first_rebuild_mutation
            && is_some_and (λ e, ts <? last_modified e) (Keys.get (keys b) key)
    then rejected
    else if negb definitive && bool_decide (key ∈ rebuild_touched b)
    then rejected
    else
      let b := if first_rebuild_mutation then with_gone b (Gone.remove (gone b) key).2 else b in
      let '(b, total) := insert_accounted b (i_stats s) key e in
      let b := if definitive then touch (clear_fence b key) key else b in
      let c := match capture s, Keys.get (keys b) key with
               | Some c, Some e => Some (Capture.record_put c id bucket key e)
               | c, _ => c
               end in
      (true, with_capture (with_stats (with_bucket s bucket b) total) c).

Definition apply_put (s : KeyIndexState) (bucket key : string) (e : ObjEntry) :=
  apply_put_with_authority s bucket key e DefinitiveMutation None.

(** [assign] hands out this write's feed position; the value it returns with
    it goes back to the caller. *)
Definition apply_own_put {R} (s : KeyIndexState) (bucket key : string) (e : ObjEntry)
    (assign : R * NativeCut) : bool * R * KeyIndexState :=
  let '(value, position) := assign in
  let '(changed, s) :=
    apply_put_with_authority s bucket key e DefinitiveMutation (Some (Native position)) in
  (changed, value, s).

Definition apply_put_native (s : KeyIndexState) (bucket key : string) (e : ObjEntry)
    (cut : NativeCut) :=
  apply_put_with_authority s bucket key e DefinitiveMutation (Some (Native cut)).

Definition apply_observed_put (s : KeyIndexState) (bucket key : string) (e : ObjEntry) :=
  apply_put_with_authority s bucket key e Observation None.

(** ** Fences *)

(** [None] is the panic on an exhausted token space. *)
Definition fence_key (s : KeyIndexState) (bucket key : string) : option (Z * KeyIndexState) :=
  let s := invalidate_capture_for_rebuild s in
  let b := bucket_or_default s bucket in
  token ← checked_add u64_max (uncertainty_epoch b) 1;
  Some (token, with_bucket s bucket (with_uncertain b token (<[key := token]> (uncertain_keys b)))).

Definition fence_uncertain_key (s : KeyIndexState) (bucket key : string) := fence_key s bucket key.

Definition fence_uncertain_key_native (s : KeyIndexState) (bucket key : string) (cut : NativeCut)
    : option (option Z * KeyIndexState) :=
  let '(fresh, s) := note_native_cut s cut in
  if fresh then '(token, s) ← fence_key s bucket key; Some (Some token, s)
  else Some (None, s).

Definition fence_own_uncertain_key {R} (s : KeyIndexState) (bucket key : string)
    (assign : R * NativeCut) : option (Z * R * KeyIndexState) :=
  let '(value, position) := assign in
  let s := (note_native_cut s position).2 in
  '(token, s) ← fence_key s bucket key;
  Some (token, value, s).

Definition uncertain_key_is_current (s : KeyIndexState) (bucket key : string) (token : Z) : bool :=
  is_some_and (λ current, current =? token)
    (b ← buckets s !! bucket; uncertain_keys b !! key).

Inductive AuthoritativeKeyState := Present (e : ObjEntry) | KeyAbsent.

(** [now] is [SystemTime::now()] at the call. *)
Definition resolve_uncertain_key (s : KeyIndexState) (bucket key : string) (token : Z)
    (authoritative : AuthoritativeKeyState) (now : Z) : bool * KeyIndexState :=
  match buckets s !! bucket with
  | None => (false, s)
  | Some b =>
      if negb (bool_decide (uncertain_keys b !! key = Some token)) then (false, s)
      else
        let '(b, total) :=
          match authoritative with
          | Present e =>
              insert_accounted (with_gone b (Gone.remove (gone b) key).2) (i_stats s) key e
          | KeyAbsent =>
              let b := with_gone b (Gone.raise (gone b) key now) in
              match Keys.remove (keys b) key with
              | (Some previous, ks) =>
                  account_replacement (with_keys b ks) (i_stats s)
                    (Stats.for_entry previous) stats_zero
              | (None, _) => (b, i_stats s)
              end
          end in
        let b := touch (clear_fence b key) key in
        (true, with_stats (with_bucket s bucket b) total)
  end.

(** ** Rebuilds *)

Definition begin_bucket_resync (s : KeyIndexState) (bucket : string) : Z * KeyIndexState :=
  let s := invalidate_capture_for_rebuild s in
  let previous := bucket_or_default s bucket in
  let generation := wrapping_add u64_max (sync_generation previous) 1 in
  let total := Stats.replace (i_stats s) (b_stats previous) stats_zero in
  let replacement :=
    mkBucket false KeyRows_default GoneRows_default generation (Some generation) ∅
      (uncertainty_epoch previous) (uncertain_keys previous) stats_zero in
  (generation, with_stats (with_bucket s bucket replacement) total).

Definition discarded (previous : BucketState) : BucketState :=
  mkBucket false KeyRows_default GoneRows_default
    (wrapping_add u64_max (sync_generation previous) 1) None ∅
    (uncertainty_epoch previous) (uncertain_keys previous) stats_zero.

(** [HashMap::values_mut] visits the buckets in some order; the totals it leaves
    do not depend on it. *)
Definition discard_buckets (s : KeyIndexState) : KeyIndexState :=
  let s := invalidate_capture_for_rebuild s in
  mkIndex (discarded <$> buckets s)
    (foldl (λ total r, Stats.replace total (b_stats r.2) stats_zero) (i_stats s)
       (map_to_list (buckets s)))
    (capture s) (native_cuts s).

Definition discard_for_gap (s : KeyIndexState) (missed_through : NativeCut) : KeyIndexState :=
  discard_buckets (skip_native_gap s missed_through).

Definition remove_bucket (s : KeyIndexState) (bucket : string) : KeyIndexState :=
  let s := if is_some (buckets s !! bucket) then invalidate_capture_for_rebuild s else s in
  match buckets s !! bucket with
  | Some previous =>
      mkIndex (delete bucket (buckets s))
        (Stats.replace (i_stats s) (b_stats previous) stats_zero)
        (capture s) (native_cuts s)
  | None => s
  end.

(** The bucket's current rebuild is [generation]. *)
Definition owns_rebuild (b : BucketState) (generation : Z) : bool :=
  (sync_generation b =? generation) && bool_decide (rebuild_generation b = Some generation).

(** One LIST row folded into a rebuild. *)
Definition sync_row (bt : BucketState * IndexStats) (row : string * ObjEntry)
    : BucketState * IndexStats :=
  let '(b, total) := bt in
  let '(key, e) := row in
  let ts := last_modified e in
  if negb (bool_decide (key ∈ rebuild_touched b))
     && is_none (uncertain_keys b !! key)
     && is_none_or (λ dead, dead <? ts) (Gone.get (gone b) key)
     && is_none_or (λ current, last_modified current <=? ts) (Keys.get (keys b) key)
  then insert_accounted b total key e
  else (b, total).

Definition sync_listing_into_generation (s : KeyIndexState) (bucket : string) (generation : Z)
    (rows : list (string * ObjEntry)) : option nat * KeyIndexState :=
  let s := invalidate_capture_for_rebuild s in
  let b := bucket_or_default s bucket in
  if negb (owns_rebuild b generation) then (None, with_bucket s bucket b)
  else
    let '(b, total) := foldl sync_row (b, i_stats s) rows in
    (Some (length rows), with_stats (with_bucket s bucket b) total).

Definition finish_bucket_sync_generation (s : KeyIndexState) (bucket : string) (generation : Z)
    : bool * KeyIndexState :=
  let b := bucket_or_default s bucket in
  if negb (owns_rebuild b generation) then (false, with_bucket s bucket b)
  else
    (true, with_bucket s bucket
             (mkBucket true (keys b) (gone b) (sync_generation b) None ∅
                (uncertainty_epoch b) (uncertain_keys b) (b_stats b))).
End ops.

Section deletes.
Context {L : Layout}.

(** ** Deletes *)

(** What the capture journals for a delete: the tombstone it left, or the native
    no-op.  The tombstone is always present here ([get(key).unwrap()]). *)
Definition record_delete_effect (c : option IndexCapture) (id : option DeltaIdentity)
    (bucket key : string) (changed : bool) (dead : option Z) : option IndexCapture :=
  match c with
  | None => None
  | Some c =>
      if changed then
        match dead with
        | Some at_ => Some (Capture.record_delete c id bucket key at_)
        | None => Some c
        end
      else match id with
           | Some id => Some (Capture.record_native_noop c id)
           | None => Some c
           end
  end.

Definition apply_del_with_identity (s : KeyIndexState) (bucket key : string) (ts : Z)
    (id : option DeltaIdentity) (sweep : TombstoneSweep) : bool * KeyIndexState :=
  let '(fresh, s) := note_identity s id in
  if negb fresh then (false, s)
  else
    let s := if is_none (buckets s !! bucket) then invalidate_capture_for_rebuild s else s in
    let b := bucket_or_default s bucket in
    let first_rebuild_mutation :=
      is_some (rebuild_generation b) && negb (bool_decide (key ∈ rebuild_touched b)) in
    let b :=
      if bool_decide (sweep = Run) && is_none (capture s) && (TOMBSTONE_PRUNE_LEN <? Gone.len (gone b))
      then match time_checked_sub ts TOMBSTONE_TTL with
           | Some cutoff => with_gone b (Gone.sweep_expired (gone b) cutoff).2
           | None => b
           end
      else b in
    let prior_tombstone := Gone.get (gone b) key in
    let newer_tombstone :=
      negb first_rebuild_mutation && is_some_and (λ dead, ts <? dead) (Gone.get (gone b) key) in
    let b :=
      if first_rebuild_mutation then with_gone b (Gone.insert (gone b) key ts).2
      else with_gone b (Gone.raise (gone b) key ts) in
    let raised := negb (bool_decide (Gone.get (gone b) key = prior_tombstone)) in
    let kept :=
      (false, with_capture (with_bucket s bucket b)
                (record_delete_effect (capture s) id bucket key raised (Gone.get (gone b) key))) in
    if negb first_rebuild_mutation
       && is_some_and (λ e, ts <? last_modified e) (Keys.get (keys b) key)
    then kept
    else if newer_tombstone then kept
    else
      let b := touch (clear_fence b key) key in
      let '(removed, b, total) :=
        match Keys.remove (keys b) key with
        | (Some previous, ks) =>
            let '(b, total) :=
              account_replacement (with_keys b ks) (i_stats s)
                (Stats.for_entry previous) stats_zero in
            (true, b, total)
        | (None, _) => (false, b, i_stats s)
        end in
      (removed,
       with_capture (with_stats (with_bucket s bucket b) total)
         (record_delete_effect (capture s) id bucket key (removed || raised)
            (Gone.get (gone b) key))).

Definition apply_del (s : KeyIndexState) (bucket key : string) (ts : Z) :=
  apply_del_with_identity s bucket key ts None Run.

Definition apply_replayed_del (s : KeyIndexState) (bucket key : string) (ts : Z) :=
  apply_del_with_identity s bucket key ts None Hold.

Definition apply_own_del {R} (s : KeyIndexState) (bucket key : string) (ts : Z)
    (assign : R * NativeCut) : bool * R * KeyIndexState :=
  let '(value, position) := assign in
  let '(removed, s) := apply_del_with_identity s bucket key ts (Some (Native position)) Run in
  (removed, value, s).

Definition apply_del_native (s : KeyIndexState) (bucket key : string) (ts : Z) (cut : NativeCut) :=
  apply_del_with_identity s bucket key ts (Some (Native cut)) Run.

(** ** Completion *)

(** The answer describes the version the entry holds. *)
Definition same_version (e : ObjEntry) (fill : EntryFill) : bool :=
  (match etag e, fill_etag fill with
   | Some indexed, Some answered => bool_decide (indexed = answered)
   | Some _, None => false
   | None, _ => true
   end)
  && (is_none (size e) || is_none (fill_size fill) || bool_decide (size e = fill_size fill)).

(** The closure [complete_entry] runs on the row: whether the versions match
    and, if so, the statistics before and (when a field was filled) after. *)
Definition fill_entry (fill : EntryFill) (e : ObjEntry)
    : option (IndexStats * option IndexStats) * ObjEntry :=
  let previous := Stats.for_entry e in
  if negb (same_version e fill) then (None, e)
  else
    let filled := false in
    let '(e, filled) :=
      if is_none (size e)
      then (mkObjEntry (fill_size fill) (last_modified e) (etag e) (storage_class e)
              (content_type e) (meta e), filled || is_some (fill_size fill))
      else (e, filled) in
    let '(e, filled) :=
      if is_none (etag e)
      then (mkObjEntry (size e) (last_modified e) (fill_etag fill) (storage_class e)
              (content_type e) (meta e), filled || is_some (fill_etag fill))
      else (e, filled) in
    let '(e, filled) :=
      if is_none (content_type e)
      then (mkObjEntry (size e) (last_modified e) (etag e) (storage_class e)
              (fill_content_type fill) (meta e), filled || is_some (fill_content_type fill))
      else (e, filled) in
    let '(e, filled) :=
      if is_none (meta e)
      then (mkObjEntry (size e) (last_modified e) (etag e) (storage_class e)
              (content_type e) (Some (fill_meta fill)), true)
      else (e, filled) in
    (Some (previous, if filled then Some (Stats.for_entry e) else None), e).

Definition complete_entry (s : KeyIndexState) (bucket key : string) (fill : EntryFill)
    : Completion * KeyIndexState :=
  match buckets s !! bucket with
  | None => (NotIndexed, s)
  | Some b =>
      let '(outcome, ks) := Keys.update (keys b) key (fill_entry fill) in
      let b := with_keys b ks in
      match outcome with
      | None => (NotIndexed, with_bucket s bucket b)
      | Some None => (OtherVersion, with_bucket s bucket b)
      | Some (Some (_, None)) => (AlreadyComplete, with_bucket s bucket b)
      | Some (Some (previous, Some current)) =>
          let '(b, total) := account_replacement b (i_stats s) previous current in
          let c := match capture s, Keys.get (keys b) key with
                   | Some c, Some e => Some (Capture.record_put c None bucket key e)
                   | c, _ => c
                   end in
          (Completed, with_capture (with_stats (with_bucket s bucket b) total) c)
      end
  end.
End deletes.

(** ** Lookups *)

(** [head_object_from_index]. *)
Definition head_object_from_index (ks : option KeyRows) (key : string) : IndexedHead :=
  match ks ≫= (λ ks, Keys.get ks key) with
  | None => Absent
  | Some e =>
      if negb (is_faithful e) then ObjTypes.Incomplete
      else
        let m := default ObjMeta_default (meta e) in
        Faithful (mkHead (size e) (Some (last_modified e)) (etag e) (content_type e)
          (Some "bytes") (cache_control m) (content_disposition m) (content_encoding m)
          (content_language m) (metadata m))
  end.

Definition stats (s : KeyIndexState) : IndexStats := i_stats s.
