(* ===== verification/IndexWf.v ===== *)
(** * The index invariant

    What every reachable index state satisfies: exact tallies and statistics,
    no tombstone that covers a live row, a rebuild that owns its generation and
    hides its bucket, and fences whose tokens are distinct and never above the
    allocation epoch. *)

From S2P Require Import Prelude.
From S2P Require Import ObjTypes.
From S2P Require Import ImageCodec.
From S2P Require Import Rows.
From S2P Require Import IndexCapture.
From S2P Require Import KeyIndex.

(** ** Exact statistics *)

Definition rows_stats (m : gmap string ObjEntry) : IndexStats :=
  mkStats (Z.of_nat (base.size m)) (msum (λ _ e, entry_logical e) m).

Definition rows_total (B : gmap string BucketState) : IndexStats :=
  mkStats (msum (λ _ b, objects (rows_stats (kr_map (keys b)))) B)
          (msum (λ _ b, logical_bytes (rows_stats (kr_map (keys b)))) B).

Definition stats_fit (st : IndexStats) : Prop := objects st <= u64_max ∧ logical_bytes st <= u64_max.

(** The totals fit their counters. *)
Definition index_fits (s : KeyIndexState) : Prop := stats_fit (rows_total (buckets s)).

Definition stats_shift (t a b : IndexStats) : IndexStats :=
  mkStats (objects t - objects a + objects b) (logical_bytes t - logical_bytes a + logical_bytes b).

Definition stats_le (a b : IndexStats) : Prop :=
  objects a <= objects b ∧ logical_bytes a <= logical_bytes b.

Lemma stats_eq a b : objects a = objects b → logical_bytes a = logical_bytes b → a = b.
Proof. destruct a, b. cbn. by intros -> ->. Qed.

Lemma rows_stats_nonneg m : stats_le stats_zero (rows_stats m).
Proof. split; cbn; [lia|]. apply msum_nonneg. intros k e _. apply entry_logical_range. Qed.

Lemma rows_stats_empty : rows_stats ∅ = stats_zero.
Proof. unfold rows_stats. by rewrite map_size_empty, msum_empty. Qed.

Definition row_stats (o : option ObjEntry) : IndexStats :=
  match o with Some e => Stats.for_entry e | None => stats_zero end.

Lemma rows_stats_insert m k e :
  rows_stats (<[k := e]> m) = stats_shift (rows_stats m) (row_stats (m !! k)) (Stats.for_entry e).
Proof.
  apply stats_eq; cbn.
  - rewrite map_size_insert. destruct (m !! k) eqn:E; cbn; lia.
  - rewrite msum_insert. destruct (m !! k); cbn; unfold entry_logical; cbn; lia.
Qed.

Lemma rows_stats_delete m k :
  rows_stats (delete k m) = stats_shift (rows_stats m) (row_stats (m !! k)) stats_zero.
Proof.
  apply stats_eq; cbn.
  - rewrite map_size_delete. destruct (m !! k) eqn:E; cbn; [|lia].
    assert (base.size m ≠ 0%nat); [|lia]. apply map_size_ne_0_lookup. eauto.
  - rewrite msum_delete_any. destruct (m !! k); cbn; unfold entry_logical; cbn; lia.
Qed.

Lemma row_stats_le m k : stats_le (row_stats (m !! k)) (rows_stats m).
Proof.
  destruct (m !! k) as [e|] eqn:E; [|apply rows_stats_nonneg]. split; cbn.
  - assert (base.size m ≠ 0%nat); [|lia]. apply map_size_ne_0_lookup. eauto.
  - apply (msum_lookup_le (λ _ e, entry_logical e) m k e); [|done].
    intros ?? _. apply entry_logical_range.
Qed.

Lemma rows_total_insert B name b' :
  rows_total (<[name := b']> B) =
  stats_shift (rows_total B)
    (rows_stats (kr_map (keys (default BucketState_default (B !! name)))))
    (rows_stats (kr_map (keys b'))).
Proof.
  apply stats_eq; cbn; rewrite msum_insert; destruct (B !! name); cbn;
    rewrite ?map_size_empty, ?msum_empty; done.
Qed.

Lemma rows_total_le B name :
  stats_le (rows_stats (kr_map (keys (default BucketState_default (B !! name))))) (rows_total B).
Proof.
  destruct (B !! name) as [b|] eqn:E; cbn.
  - split; cbn; [apply (msum_lookup_le (λ _ b, Z.of_nat (base.size (kr_map (keys b)))) B name b)
                |apply (msum_lookup_le (λ _ b, msum (λ _ e, entry_logical e) (kr_map (keys b))) B name b)];
      try done; intros ?? _; [lia|]. apply rows_stats_nonneg.
  - rewrite rows_stats_empty. split; cbn; apply msum_nonneg; intros ?? _; [lia|].
    apply rows_stats_nonneg.
Qed.

(** [Stats.replace] is exact where nothing saturates. *)
Lemma replace_shift t p c :
  stats_le p t → stats_fit (stats_shift t p c) → Stats.replace t p c = stats_shift t p c.
Proof. intros [] []. by apply replace_exact. Qed.

(** ** The invariant *)

Section wf.
Context {L : Layout}.

Record bucket_wf (b : BucketState) : Prop := {
  bw_keys : keys_wf (keys b);
  bw_gone : gone_wf (gone b);
  bw_stats : b_stats b = rows_stats (kr_map (keys b));
  bw_fit : stats_fit (b_stats b);
  (* a tombstone never covers a live row *)
  bw_order : ∀ k e d, kr_map (keys b) !! k = Some e → gr_map (gone b) !! k = Some d →
    d < last_modified e;
  (* a rebuild owns the current generation and hides the bucket *)
  bw_rebuild : ∀ g, rebuild_generation b = Some g → g = sync_generation b ∧ synced b = false;
  bw_touched : rebuild_generation b = None → rebuild_touched b = ∅;
  bw_gen : 0 <= sync_generation b <= u64_max;
  (* tokens are allocated, distinct, and never above the epoch *)
  bw_epoch : 0 <= uncertainty_epoch b <= u64_max;
  bw_token : ∀ k t, uncertain_keys b !! k = Some t → 0 < t <= uncertainty_epoch b;
  bw_token_inj : ∀ k1 k2 t, uncertain_keys b !! k1 = Some t → uncertain_keys b !! k2 = Some t →
    k1 = k2;
}.

Definition cuts_wf (n : gmap string (Z * Z)) : Prop :=
  Z.of_nat (base.size n) <= MAX_NATIVE_WRITERS ∧
  ∀ w p, n !! w = Some p → 0 < slen w <= MAX_NATIVE_ID_BYTES ∧ 0 < p.1 ∧ 0 <= p.2.

Record index_wf (s : KeyIndexState) : Prop := {
  iw_bucket : ∀ name b, buckets s !! name = Some b → bucket_wf b;
  iw_stats : i_stats s = rows_total (buckets s);
  iw_fit : stats_fit (i_stats s);
  iw_cuts : cuts_wf (native_cuts s);
}.

Lemma bucket_default_wf : bucket_wf BucketState_default.
Proof.
  by split.
Qed.

Lemma index_default_wf : index_wf KeyIndexState_default.
Proof. by split. Qed.

Lemma bucket_or_default_wf s name : index_wf s → bucket_wf (bucket_or_default s name).
Proof.
  intros H. unfold bucket_or_default. destruct (buckets s !! name) eqn:E; cbn.
  - by eapply iw_bucket.
  - apply bucket_default_wf.
Qed.

(** Replacing one bucket and shifting the totals by its change. *)
Lemma index_wf_update s name b' total c n :
  index_wf s → bucket_wf b' → cuts_wf n →
  stats_fit total →
  total = stats_shift (i_stats s) (b_stats (bucket_or_default s name)) (b_stats b') →
  index_wf (mkIndex (<[name := b']> (buckets s)) total c n).
Proof.
  intros Hs Hb Hn Hf ->. split; cbn; [|..|done|done].
  - intros name' b [[-> ->]|[? ?]]%lookup_insert_Some; [done|]. by eapply iw_bucket.
  - rewrite rows_total_insert, (iw_stats s Hs), (bw_stats _ Hb).
    by rewrite (bw_stats _ (bucket_or_default_wf s name Hs)).
Qed.

Lemma stats_shift_id t a : stats_shift t a a = t.
Proof. apply stats_eq; cbn; lia. Qed.

Lemma index_wf_update_same s name b' c :
  index_wf s → bucket_wf b' → b_stats b' = b_stats (bucket_or_default s name) →
  index_wf (with_capture (with_bucket s name b') c).
Proof.
  intros Hs Hb Heq. apply index_wf_update; [done..|apply Hs|apply Hs|].
  by rewrite Heq, stats_shift_id.
Qed.

(** [bt] and [bt'] are a bucket with the totals before and after an accounted
    change. *)
Definition accounted (b : BucketState) (t : IndexStats) (b' : BucketState) (t' : IndexStats) : Prop :=
  b_stats b' = rows_stats (kr_map (keys b')) ∧ t' = stats_shift t (b_stats b) (b_stats b').

Lemma account_replacement_exact b t p c m' b' :
  b_stats b' = b_stats b →
  rows_stats m' = stats_shift (b_stats b) p c → kr_map (keys b') = m' →
  stats_le p (b_stats b) → stats_le (b_stats b) t →
  stats_fit (rows_stats m') → stats_fit (stats_shift t (b_stats b) (rows_stats m')) →
  accounted b t (account_replacement b' t p c).1 (account_replacement b' t p c).2.
Proof.
  intros Hb' Hm Hk Hp Ht Hf1 Hf2. unfold account_replacement, accounted. cbn.
  rewrite Hb', Hk, Hm in *. split.
  - by rewrite replace_shift.
  - rewrite (replace_shift (b_stats b)) by done.
    destruct Hp, Ht, Hf2 as [Hf2 Hf3]. cbn in Hf2, Hf3.
    rewrite replace_shift; [apply stats_eq; cbn; lia|split; lia|split; cbn; lia].
Qed.
End wf.

(** ** Cuts and captures leave the rows alone *)

Definition same_rows (s s' : KeyIndexState) : Prop :=
  buckets s' = buckets s ∧ i_stats s' = i_stats s.

Lemma same_rows_refl s : same_rows s s.
Proof. done. Qed.

Lemma invalidate_same s r : same_rows s (invalidate_capture s r).
Proof. done. Qed.

Lemma note_native_cut_same s cut : same_rows s (note_native_cut s cut).2.
Proof.
  unfold note_native_cut.
  repeat (case_match; try done).
Qed.

Lemma note_identity_same s id : same_rows s (note_identity s id).2.
Proof. destruct id as [[cut|]|]; cbn; try done. apply note_native_cut_same. Qed.

Lemma same_rows_default s s' name :
  same_rows s s' → bucket_or_default s' name = bucket_or_default s name.
Proof. intros [H _]. unfold bucket_or_default. by rewrite H. Qed.

Section cuts.
Context {L : Layout}.

Lemma index_wf_same s s' : same_rows s s' → cuts_wf (native_cuts s') → index_wf s → index_wf s'.
Proof.
  intros [Hb Hst] Hc Hs. split; [|..|done].
  - intros name b H. rewrite Hb in H. by eapply iw_bucket.
  - rewrite Hst, Hb. apply Hs.
  - rewrite Hst. apply Hs.
Qed.

Lemma cuts_wf_insert n w p :
  cuts_wf n → 0 < slen w <= MAX_NATIVE_ID_BYTES → 0 < p.1 → 0 <= p.2 →
  (is_Some (n !! w) ∨ Z.of_nat (base.size n) < MAX_NATIVE_WRITERS) → cuts_wf (<[w := p]> n).
Proof.
  intros [Hs Hn] Hw H1 H2 Hroom. split.
  - rewrite map_size_insert. destruct (n !! w) eqn:E; [done|].
    destruct Hroom as [[? ?]|?]; [congruence|lia].
  - intros w' p' [[<- <-]|[? ?]]%lookup_insert_Some; eauto.
Qed.

(** The cut is a feed position: [u64]s. *)
Definition cut_typed (cut : NativeCut) : Prop :=
  0 <= cut_epoch cut <= u64_max ∧ 0 <= cut_sequence cut <= u64_max.

Definition id_typed (id : option DeltaIdentity) : Prop :=
  match id with Some (Native cut) => cut_typed cut | _ => True end.

Lemma writer_ok w :
  sempty w || (MAX_NATIVE_ID_BYTES <? slen w) = false → 0 < slen w <= MAX_NATIVE_ID_BYTES.
Proof.
  intros H. bool_prop. unfold slen in *. destruct w; cbn in *; [done|]. lia.
Qed.

Lemma note_native_cut_cuts s cut :
  cut_typed cut → cuts_wf (native_cuts s) → cuts_wf (native_cuts (note_native_cut s cut).2).
Proof.
  intros [He Hq] Hn. unfold note_native_cut.
  destruct (_ || _ || _ || _) eqn:Eb; [done|].
  apply orb_false_iff in Eb as [[Ew%writer_ok E2]%orb_false_iff E3]. bool_prop.
  destruct (native_cuts s !! cut_writer cut) as [[oe oq]|] eqn:El.
  - destruct ((cut_epoch cut =? oe) && _); [done|]. cbn.
    repeat case_match; apply cuts_wf_insert; cbn; eauto; lia.
  - destruct (Z.leb_spec MAX_NATIVE_WRITERS (Z.of_nat (base.size (native_cuts s)))); [done|].
    cbn. apply cuts_wf_insert; cbn; eauto; lia.
Qed.

Lemma note_identity_wf s id : id_typed id → index_wf s → index_wf (note_identity s id).2.
Proof.
  intros Hid Hs. apply (index_wf_same s); [apply note_identity_same| |done].
  destruct id as [[cut|]|]; try apply Hs. apply note_native_cut_cuts; [done|apply Hs].
Qed.

Lemma invalidate_wf s r : index_wf s → index_wf (invalidate_capture s r).
Proof. intros Hs. apply (index_wf_same s); [done|apply Hs|done]. Qed.

Lemma with_capture_wf s c : index_wf s → index_wf (with_capture s c).
Proof. intros Hs. apply (index_wf_same s); [done|apply Hs|done]. Qed.

Lemma register_wf s cut : cut_typed cut → index_wf s → index_wf (register_native_writer s cut).
Proof.
  intros [He Hq] Hs. unfold register_native_writer. destruct (_ || _ || _ || _) eqn:Eb; [done|].
  apply orb_false_iff in Eb as [[Ew%writer_ok E2]%orb_false_iff E3]. bool_prop.
  destruct (Z.leb_spec MAX_NATIVE_WRITERS (Z.of_nat (base.size (native_cuts s)))).
  { by apply invalidate_wf. }
  apply (index_wf_same s); [done| |done]. cbn. apply cuts_wf_insert; [apply Hs|done|cbn; lia..|by right].
Qed.

Lemma renew_wf s sealed epoch : index_wf s → index_wf (renew_native_writer s sealed epoch).
Proof.
  intros Hs. unfold renew_native_writer. destruct (native_cuts s !! _) as [cut|] eqn:E; [|done].
  destruct (Z.leb_spec epoch cut.1); [done|].
  destruct (iw_cuts s Hs) as [_ Hn]. destruct (Hn _ _ E) as (? & ? & ?).
  apply (index_wf_same s); [by destruct (bool_decide _)| |done].
  assert (cuts_wf (<[cut_writer sealed := (epoch, 0)]> (native_cuts s))).
  { apply cuts_wf_insert; [apply Hs|done|cbn; lia..|left; eauto]. }
  by destruct (bool_decide _).
Qed.

Lemma skip_gap_wf s cut : 0 <= cut_sequence cut → index_wf s → index_wf (skip_native_gap s cut).
Proof.
  intros Hq Hs. unfold skip_native_gap. destruct (native_cuts s !! _) as [c|] eqn:E; [|done].
  destruct (position_le _ _) eqn:Ele; [done|].
  destruct (iw_cuts s Hs) as [_ Hn]. destruct (Hn _ _ E) as (? & ? & ?).
  apply (index_wf_same s); [done| |done]. cbn. unfold position_le in Ele. cbn in Ele. bool_prop.
  apply cuts_wf_insert; [apply Hs|done|cbn; lia..|left; eauto].
Qed.

Lemma seal_wf s cut : cut_typed cut → index_wf s → index_wf (note_native_seal s cut).
Proof.
  intros Hc Hs. unfold note_native_seal.
  pose proof (note_identity_wf s (Some (Native cut)) Hc Hs) as H. cbn in H.
  destruct (note_native_cut s cut) as [fresh s']. destruct fresh; [|done]. by apply with_capture_wf.
Qed.
End cuts.
