(* ===== verification/IndexSteps.v ===== *)
(** * What each index operation does to its bucket

    Every operation of the index as a case analysis on its outcome, with the
    bucket it leaves written as a function of the bucket it found.  The
    invariant, the last-writer-wins refinement and the journal theorems are all
    proved from these equations. *)

From S2P Require Import Prelude.
From S2P Require Import ObjTypes.
From S2P Require Import ImageCodec.
From S2P Require Import Rows.
From S2P Require Import IndexCapture.
From S2P Require Import KeyIndex.
From S2P Require Import IndexWf.

Section steps.
Context {L : Layout}.
Implicit Types (s : KeyIndexState) (b : BucketState) (e : ObjEntry).

(** The state a put or delete works on, once its identity was noted and a
    capture that does not know the bucket was withdrawn. *)
Definition prepared s (bucket : string) (id : option DeltaIdentity) : KeyIndexState :=
  let s := (note_identity s id).2 in
  if is_none (buckets s !! bucket) then invalidate_capture_for_rebuild s else s.

Lemma prepared_same s bucket id : same_rows s (prepared s bucket id).
Proof.
  unfold prepared. pose proof (note_identity_same s id) as [H1 H2].
  by destruct (is_none _).
Qed.

Lemma prepared_cuts s bucket id : native_cuts (prepared s bucket id) = native_cuts (note_identity s id).2.
Proof. unfold prepared. by destruct (is_none _). Qed.

Lemma prepared_wf s bucket id : id_typed id → index_wf s → index_wf (prepared s bucket id).
Proof.
  intros Hid Hs. apply (index_wf_same s); [apply prepared_same| |done].
  rewrite prepared_cuts. by apply note_identity_wf.
Qed.

Lemma prepared_bucket s bucket id name :
  bucket_or_default (prepared s bucket id) name = bucket_or_default s name.
Proof. apply same_rows_default, prepared_same. Qed.

(** ** Puts *)

Definition definitive (a : PutAuthority) : bool :=
  match a with DefinitiveMutation => true | Observation => false end.

Definition first_rebuild b key : bool :=
  is_some (rebuild_generation b) && negb (bool_decide (key ∈ rebuild_touched b)).

Definition put_rejects b key e a : bool :=
  let first := definitive a && first_rebuild b key in
  (negb first && is_some_and (λ dead, last_modified e <=? dead) (Gone.get (gone b) key))
  || (negb first && is_some_and (λ o, last_modified e <? last_modified o) (Keys.get (keys b) key))
  || (negb (definitive a) && bool_decide (key ∈ rebuild_touched b)).

Definition inserted b key e : BucketState := (insert_accounted b stats_zero key e).1.

Definition put_base b key a : BucketState :=
  if definitive a && first_rebuild b key then with_gone b (Gone.remove (gone b) key).2 else b.

Definition put_bucket b key e a : BucketState :=
  let b' := inserted (put_base b key a) key e in
  if definitive a then touch (clear_fence b' key) key else b'.

Definition capture_put (c : option IndexCapture) id bucket key e : option IndexCapture :=
  (λ c, Capture.record_put c id bucket key e) <$> c.

Lemma insert_accounted_1 b t key e : (insert_accounted b t key e).1 = inserted b key e.
Proof. unfold inserted, insert_accounted. by destruct (Keys.insert _ _ _). Qed.

Lemma insert_accounted_2 b t key e :
  (insert_accounted b t key e).2 =
  Stats.replace t (row_stats (kr_map (keys b) !! key)) (Stats.for_entry e).
Proof.
  unfold insert_accounted. pose proof (insert_prev (keys b) key e) as H.
  destruct (Keys.insert _ _ _) as [p ks]. cbn in *. by subst p.
Qed.

Lemma inserted_map b key e : kr_map (keys (inserted b key e)) = <[key := e]> (kr_map (keys b)).
Proof.
  unfold inserted, insert_accounted. pose proof (insert_map (keys b) key e) as H.
  by destruct (Keys.insert _ _ _).
Qed.

Lemma inserted_rest b key e :
  let b' := inserted b key e in
  gone b' = gone b ∧ synced b' = synced b ∧ sync_generation b' = sync_generation b ∧
  rebuild_generation b' = rebuild_generation b ∧ rebuild_touched b' = rebuild_touched b ∧
  uncertainty_epoch b' = uncertainty_epoch b ∧ uncertain_keys b' = uncertain_keys b.
Proof. unfold inserted, insert_accounted. by destruct (Keys.insert _ _ _). Qed.

Lemma put_bucket_get b key e a : kr_map (keys (put_bucket b key e a)) !! key = Some e.
Proof.
  unfold put_bucket, touch. pose proof (inserted_map (put_base b key a) key e) as H.
  destruct (definitive a); [destruct (is_some _)|]; cbn; rewrite H; apply lookup_insert_eq.
Qed.

(** The three outcomes of a put. *)
Inductive put_outcome s bucket key e a id : bool * KeyIndexState → Prop :=
| put_duplicate :
    (note_identity s id).1 = false →
    put_outcome s bucket key e a id (false, (note_identity s id).2)
| put_rejected :
    (note_identity s id).1 = true →
    put_rejects (bucket_or_default s bucket) key e a = true →
    put_outcome s bucket key e a id
      (false, with_capture (with_bucket (prepared s bucket id) bucket (bucket_or_default s bucket))
                (noop_if (capture (prepared s bucket id)) id))
| put_accepted :
    (note_identity s id).1 = true →
    put_rejects (bucket_or_default s bucket) key e a = false →
    put_outcome s bucket key e a id
      (true, with_capture
         (with_stats
            (with_bucket (prepared s bucket id) bucket (put_bucket (bucket_or_default s bucket) key e a))
            (Stats.replace (i_stats s)
               (row_stats (kr_map (keys (bucket_or_default s bucket)) !! key)) (Stats.for_entry e)))
         (capture_put (capture (prepared s bucket id)) id bucket key e)).

Lemma put_base_keys b key a : keys (put_base b key a) = keys b.
Proof. unfold put_base. by destruct (_ && _). Qed.

Lemma put_outcome_spec s bucket key e a id :
  put_outcome s bucket key e a id (apply_put_with_authority s bucket key e a id).
Proof.
  unfold apply_put_with_authority.
  destruct (note_identity s id) as [fresh s1] eqn:En.
  destruct fresh; cbn [negb].
  2:{ replace s1 with (note_identity s id).2 by by rewrite En. apply put_duplicate. by rewrite En. }
  assert (Hp : (if is_none (buckets s1 !! bucket) then invalidate_capture_for_rebuild s1 else s1)
    = prepared s bucket id) by (unfold prepared; by rewrite En).
  cbn zeta. rewrite Hp, prepared_bucket, (proj2 (prepared_same s bucket id)).
  set (b := bucket_or_default s bucket).
  pose proof (put_rejected s bucket key e a id) as Hrej.
  pose proof (put_accepted s bucket key e a id) as Hacc.
  rewrite En in Hrej, Hacc. fold b in Hrej, Hacc. specialize (Hrej eq_refl). specialize (Hacc eq_refl).
  unfold put_rejects in Hrej, Hacc.
  change (match a with DefinitiveMutation => true | Observation => false end) with (definitive a).
  rewrite <- andb_assoc. change (is_some (rebuild_generation b) && negb (bool_decide (key ∈ rebuild_touched b)))
    with (first_rebuild b key).
  destruct (negb (definitive a && first_rebuild b key) && is_some_and _ _); [by apply Hrej|].
  destruct (negb (definitive a && first_rebuild b key) && is_some_and _ _); [by apply Hrej|].
  destruct (negb (definitive a) && _); [by apply Hrej|].
  specialize (Hacc eq_refl). cbn [orb] in Hacc.
  change (if definitive a && first_rebuild b key then with_gone b (Gone.remove (gone b) key).2 else b)
    with (put_base b key a).
  rewrite (surjective_pairing (insert_accounted (put_base b key a) (i_stats s) key e)).
  rewrite insert_accounted_1, insert_accounted_2, put_base_keys.
  change (if definitive a then touch (clear_fence (inserted (put_base b key a) key e) key) key
          else inserted (put_base b key a) key e) with (put_bucket b key e a).
  unfold Keys.get at 1. rewrite put_bucket_get.
  unfold capture_put in Hacc. by destruct (capture (prepared s bucket id)).
Qed.
End steps.

Section del_steps.
Context {L : Layout}.
Implicit Types (s : KeyIndexState) (b : BucketState) (e : ObjEntry).

(** ** Deletes *)

(** The bucket after the expiry sweep a delete may run. *)
Definition del_swept b (c : option IndexCapture) ts sweep : BucketState :=
  if bool_decide (sweep = Run) && is_none c && (TOMBSTONE_PRUNE_LEN <? Gone.len (gone b))
  then match time_checked_sub ts TOMBSTONE_TTL with
       | Some cutoff => with_gone b (Gone.sweep_expired (gone b) cutoff).2
       | None => b
       end
  else b.

Definition del_marked b key ts : BucketState :=
  if first_rebuild b key then with_gone b (Gone.insert (gone b) key ts).2
  else with_gone b (Gone.raise (gone b) key ts).

(** A newer row or tombstone is already there. *)
Definition del_stale b key ts : bool :=
  negb (first_rebuild b key) &&
  (is_some_and (λ e, ts <? last_modified e) (Keys.get (keys b) key)
   || is_some_and (λ dead, ts <? dead) (Gone.get (gone b) key)).

Definition del_raised b key ts : bool :=
  negb (bool_decide (Gone.get (gone (del_marked b key ts)) key = Gone.get (gone b) key)).

Definition row_removed b key : BucketState :=
  match kr_map (keys b) !! key with
  | Some p =>
      with_b_stats (with_keys b (Keys.remove (keys b) key).2)
        (Stats.replace (b_stats b) (Stats.for_entry p) stats_zero)
  | None => b
  end.

Definition del_bucket b key ts : BucketState :=
  row_removed (touch (clear_fence (del_marked b key ts) key) key) key.

Inductive del_outcome s bucket key ts id sweep : bool * KeyIndexState → Prop :=
| del_duplicate :
    (note_identity s id).1 = false →
    del_outcome s bucket key ts id sweep (false, (note_identity s id).2)
| del_kept b :
    b = del_swept (bucket_or_default s bucket) (capture (prepared s bucket id)) ts sweep →
    (note_identity s id).1 = true →
    del_stale b key ts = true →
    del_outcome s bucket key ts id sweep
      (false, with_capture (with_bucket (prepared s bucket id) bucket (del_marked b key ts))
         (record_delete_effect (capture (prepared s bucket id)) id bucket key
            (del_raised b key ts) (Gone.get (gone (del_marked b key ts)) key)))
| del_applied b :
    b = del_swept (bucket_or_default s bucket) (capture (prepared s bucket id)) ts sweep →
    (note_identity s id).1 = true →
    del_stale b key ts = false →
    del_outcome s bucket key ts id sweep
      (is_some (kr_map (keys b) !! key),
       with_capture
         (with_stats (with_bucket (prepared s bucket id) bucket (del_bucket b key ts))
            (match kr_map (keys b) !! key with
             | Some p => Stats.replace (i_stats s) (Stats.for_entry p) stats_zero
             | None => i_stats s
             end))
         (record_delete_effect (capture (prepared s bucket id)) id bucket key
            (is_some (kr_map (keys b) !! key) || del_raised b key ts)
            (Gone.get (gone (del_bucket b key ts)) key))).

Lemma del_swept_rest b c ts sweep :
  let b' := del_swept b c ts sweep in
  keys b' = keys b ∧ b_stats b' = b_stats b ∧ synced b' = synced b ∧
  sync_generation b' = sync_generation b ∧ rebuild_generation b' = rebuild_generation b ∧
  rebuild_touched b' = rebuild_touched b ∧ uncertainty_epoch b' = uncertainty_epoch b ∧
  uncertain_keys b' = uncertain_keys b.
Proof. unfold del_swept. by repeat case_match. Qed.

Lemma first_rebuild_swept b c ts sweep key :
  first_rebuild (del_swept b c ts sweep) key = first_rebuild b key.
Proof.
  unfold first_rebuild. by destruct (del_swept_rest b c ts sweep) as (_ & _ & _ & _ & -> & -> & _).
Qed.

Lemma del_marked_keys b key ts : keys (del_marked b key ts) = keys b.
Proof. unfold del_marked. by case_match. Qed.

Lemma touch_keys b key : keys (touch b key) = keys b.
Proof. unfold touch. by case_match. Qed.

Lemma del_outcome_spec s bucket key ts id sweep :
  del_outcome s bucket key ts id sweep (apply_del_with_identity s bucket key ts id sweep).
Proof.
  unfold apply_del_with_identity.
  destruct (note_identity s id) as [fresh s1] eqn:En. destruct fresh; cbn [negb].
  2:{ replace s1 with (note_identity s id).2 by by rewrite En. apply del_duplicate. by rewrite En. }
  assert (Hp : (if is_none (buckets s1 !! bucket) then invalidate_capture_for_rebuild s1 else s1)
    = prepared s bucket id) by (unfold prepared; by rewrite En).
  cbn zeta. rewrite Hp, prepared_bucket, (proj2 (prepared_same s bucket id)).
  set (b0 := bucket_or_default s bucket). set (c := capture (prepared s bucket id)).
  change (if bool_decide (sweep = Run) && is_none c && (TOMBSTONE_PRUNE_LEN <? Gone.len (gone b0))
          then match time_checked_sub ts TOMBSTONE_TTL with
               | Some cutoff => with_gone b0 (Gone.sweep_expired (gone b0) cutoff).2
               | None => b0
               end
          else b0) with (del_swept b0 c ts sweep).
  change (is_some (rebuild_generation b0) && negb (bool_decide (key ∈ rebuild_touched b0)))
    with (first_rebuild b0 key).
  rewrite <- (first_rebuild_swept b0 c ts sweep key).
  set (b := del_swept b0 c ts sweep).
  change (if first_rebuild b key then with_gone b (Gone.insert (gone b) key ts).2
          else with_gone b (Gone.raise (gone b) key ts)) with (del_marked b key ts).
  change (negb (bool_decide (Gone.get (gone (del_marked b key ts)) key = Gone.get (gone b) key)))
    with (del_raised b key ts).
  rewrite del_marked_keys.
  pose proof (del_kept s bucket key ts id sweep b eq_refl) as Hkept.
  pose proof (del_applied s bucket key ts id sweep b eq_refl) as Happ.
  rewrite En in Hkept, Happ. specialize (Hkept eq_refl). specialize (Happ eq_refl). fold c in Hkept, Happ.
  unfold del_stale in Hkept, Happ. rewrite andb_orb_distrib_r in Hkept, Happ.
  destruct (negb (first_rebuild b key) && is_some_and _ (Keys.get _ _)); [by apply Hkept|].
  destruct (negb (first_rebuild b key) && is_some_and _ (Gone.get _ _)); [by apply Hkept|].
  specialize (Happ eq_refl). revert Happ. unfold del_bucket, row_removed.
  assert (Hk : keys (touch (clear_fence (del_marked b key ts) key) key) = keys b)
    by (by rewrite touch_keys; cbn; rewrite del_marked_keys).
  rewrite Hk. unfold Keys.remove.
  destruct (kr_map (keys b) !! key) as [p|] eqn:Ep; intros Happ; exact Happ.
Qed.

(** ** Shared facts about the bucket transformers *)

Lemma row_removed_map b key : kr_map (keys (row_removed b key)) = delete key (kr_map (keys b)).
Proof.
  unfold row_removed. destruct (kr_map (keys b) !! key) eqn:E; cbn; [apply remove_map|].
  by rewrite delete_id.
Qed.

Lemma row_removed_rest b key :
  let b' := row_removed b key in
  gone b' = gone b ∧ synced b' = synced b ∧ sync_generation b' = sync_generation b ∧
  rebuild_generation b' = rebuild_generation b ∧ rebuild_touched b' = rebuild_touched b ∧
  uncertainty_epoch b' = uncertainty_epoch b ∧ uncertain_keys b' = uncertain_keys b.
Proof. unfold row_removed. by destruct (kr_map (keys b) !! key). Qed.

Lemma touch_rest b key :
  let b' := touch b key in
  keys b' = keys b ∧ gone b' = gone b ∧ b_stats b' = b_stats b ∧ synced b' = synced b ∧
  sync_generation b' = sync_generation b ∧ rebuild_generation b' = rebuild_generation b ∧
  uncertainty_epoch b' = uncertainty_epoch b ∧ uncertain_keys b' = uncertain_keys b.
Proof. unfold touch. by case_match. Qed.

Lemma touch_touched b key :
  rebuild_touched (touch b key) =
    if is_some (rebuild_generation b) then {[key]} ∪ rebuild_touched b else rebuild_touched b.
Proof. unfold touch. by case_match. Qed.

Lemma del_marked_map b key ts :
  gr_map (gone (del_marked b key ts)) =
    <[key := if first_rebuild b key then ts
             else match gr_map (gone b) !! key with Some d => Z.max d ts | None => ts end]>
      (gr_map (gone b)).
Proof.
  unfold del_marked. destruct (first_rebuild b key); cbn; [done|]. by rewrite raise_map.
Qed.

Lemma del_marked_rest b key ts :
  let b' := del_marked b key ts in
  keys b' = keys b ∧ b_stats b' = b_stats b ∧ synced b' = synced b ∧
  sync_generation b' = sync_generation b ∧ rebuild_generation b' = rebuild_generation b ∧
  rebuild_touched b' = rebuild_touched b ∧ uncertainty_epoch b' = uncertainty_epoch b ∧
  uncertain_keys b' = uncertain_keys b.
Proof. unfold del_marked. by case_match. Qed.
End del_steps.

(** ** The writers' positions move with the identity, and with nothing else. *)
Section step_cuts.
Context {L : Layout}.

Lemma put_cuts (s : KeyIndexState) bucket key e a id :
  native_cuts (apply_put_with_authority s bucket key e a id).2 = native_cuts (note_identity s id).2.
Proof.
  destruct (put_outcome_spec s bucket key e a id); cbn [snd]; [done|..];
    unfold with_capture, with_stats, with_bucket; cbn [native_cuts]; apply prepared_cuts.
Qed.

Lemma del_cuts (s : KeyIndexState) bucket key ts id sweep :
  native_cuts (apply_del_with_identity s bucket key ts id sweep).2 = native_cuts (note_identity s id).2.
Proof.
  destruct (del_outcome_spec s bucket key ts id sweep); cbn [snd]; [done|..];
    unfold with_capture, with_stats, with_bucket; cbn [native_cuts]; apply prepared_cuts.
Qed.
End step_cuts.
