(* ===== verification/IndexInv.v ===== *)
(** * The index invariant is preserved

    Every operation keeps [index_wf], so every state reachable from the empty
    index by any interleaving of operations satisfies it. *)

From S2P Require Import Prelude.
From S2P Require Import ObjTypes.
From S2P Require Import ImageCodec.
From S2P Require Import Rows.
From S2P Require Import IndexCapture.
From S2P Require Import KeyIndex.
From S2P Require Import IndexWf.
From S2P Require Import IndexSteps.

Section bucket_ops.
Context {L : Layout}.
Implicit Types (s : KeyIndexState) (b : BucketState) (e : ObjEntry).

(** ** Bucket transformers *)

Lemma with_gone_wf b g :
  bucket_wf b → gone_wf g →
  (∀ k e d, kr_map (keys b) !! k = Some e → gr_map g !! k = Some d → d < last_modified e) →
  bucket_wf (with_gone b g).
Proof. intros [] Hg Ho. by split. Qed.

Lemma clear_fence_wf b key : bucket_wf b → bucket_wf (clear_fence b key).
Proof.
  intros []. split; try done; cbn.
  - intros k t [_ ?]%lookup_delete_Some. eauto.
  - intros k1 k2 t [_ ?]%lookup_delete_Some [_ ?]%lookup_delete_Some. eauto.
Qed.

Lemma touch_wf b key : bucket_wf b → bucket_wf (touch b key).
Proof.
  intros Hb. unfold touch. destruct (rebuild_generation b) eqn:E; cbn; [|done].
  destruct Hb. split; try done; cbn; rewrite E; done.
Qed.

Lemma gone_removed_wf b key : bucket_wf b → bucket_wf (with_gone b (Gone.remove (gone b) key).2).
Proof.
  intros Hb. apply with_gone_wf; [done|by apply gone_remove_wf, Hb|].
  intros k e d He. rewrite gone_remove_map. intros [_ Hd]%lookup_delete_Some. by eapply bw_order.
Qed.

Lemma stats_fit_mono x y : stats_le x y → stats_fit y → stats_fit x.
Proof. intros [] []. split; lia. Qed.

Lemma shift_ge t x y : stats_le x t → stats_le y (stats_shift t x y).
Proof. intros []. split; cbn; lia. Qed.

(** Inserting a row newer than the key's tombstone. *)
Lemma inserted_wf b key e :
  bucket_wf b →
  (∀ d, gr_map (gone b) !! key = Some d → d < last_modified e) →
  stats_fit (rows_stats (<[key := e]> (kr_map (keys b)))) →
  bucket_wf (inserted b key e).
Proof.
  intros Hb Hd Hfit. pose proof (inserted_map b key e) as Hm.
  destruct (inserted_rest b key e) as (Hg & Hsy & Hge & Hre & Hto & Hep & Hun).
  assert (Hst : b_stats (inserted b key e) = rows_stats (<[key := e]> (kr_map (keys b)))).
  { unfold inserted, insert_accounted. pose proof (insert_prev (keys b) key e) as Hp.
    destruct (Keys.insert _ _ _) as [p ks]. cbn in *. subst p. change (b_stats (with_keys b ks)) with (b_stats b).
    rewrite (bw_stats b Hb), rows_stats_insert in *.
    apply replace_shift; [apply row_stats_le|done]. }
  split.
  - unfold inserted, insert_accounted. pose proof (insert_wf (keys b) key e (bw_keys b Hb)).
    by destruct (Keys.insert _ _ _).
  - rewrite Hg. apply Hb.
  - by rewrite Hst, Hm.
  - by rewrite Hst.
  - rewrite Hm, Hg. intros k e' d [[<- <-]|[? ?]]%lookup_insert_Some Hd'; [eauto|by eapply bw_order].
  - rewrite Hre, Hge, Hsy. apply Hb.
  - rewrite Hre, Hto. apply Hb.
  - rewrite Hge. apply Hb.
  - rewrite Hep. apply Hb.
  - rewrite Hep, Hun. apply Hb.
  - rewrite Hun. apply Hb.
Qed.

Lemma row_stats_nonneg o : stats_le stats_zero (row_stats o).
Proof.
  destruct o as [p|]; [|done]. pose proof (entry_logical_range p). split; cbn; [done|]. apply H.
Qed.

Lemma shift_zero_fit t p : stats_le stats_zero p → stats_fit t → stats_fit (stats_shift t p stats_zero).
Proof. intros [] []. split; cbn in *; lia. Qed.

Lemma row_removed_stats b key :
  bucket_wf b → b_stats (row_removed b key) = rows_stats (kr_map (keys (row_removed b key))).
Proof.
  intros Hb. rewrite row_removed_map. unfold row_removed.
  destruct (kr_map (keys b) !! key) as [p|] eqn:E; cbn.
  2:{ rewrite delete_id by done. apply Hb. }
  pose proof (row_stats_le (kr_map (keys b)) key) as Hle. rewrite E in Hle.
  rewrite rows_stats_delete, E. pose proof (bw_fit b Hb) as Hf. rewrite (bw_stats b Hb) in *.
  apply replace_shift; [done|]. apply shift_zero_fit; [apply row_stats_nonneg|done].
Qed.

Lemma row_removed_wf b key : bucket_wf b → bucket_wf (row_removed b key).
Proof.
  intros Hb. pose proof (row_removed_stats b key Hb) as Hst. pose proof (row_removed_map b key) as Hm.
  destruct (row_removed_rest b key) as (Hg & Hsy & Hge & Hre & Hto & Hep & Hun). split.
  - unfold row_removed. case_match; [|apply Hb]. apply remove_wf, Hb.
  - rewrite Hg. apply Hb.
  - done.
  - rewrite Hst, Hm, rows_stats_delete. pose proof (bw_fit b Hb) as Hf. rewrite (bw_stats b Hb) in Hf.
    apply shift_zero_fit; [apply row_stats_nonneg|done].
  - rewrite Hm, Hg. intros k e d [_ ?]%lookup_delete_Some ?. by eapply bw_order.
  - rewrite Hre, Hge, Hsy. apply Hb.
  - rewrite Hre, Hto. apply Hb.
  - rewrite Hge. apply Hb.
  - rewrite Hep. apply Hb.
  - rewrite Hep, Hun. apply Hb.
  - rewrite Hun. apply Hb.
Qed.

Lemma del_swept_wf b c ts sweep : bucket_wf b → bucket_wf (del_swept b c ts sweep).
Proof.
  intros Hb. unfold del_swept. destruct (_ && _); [|done]. destruct (time_checked_sub _ _); [|done].
  apply with_gone_wf; [done|apply sweep_wf, Hb|]. intros k e d He Hd%sweep_subset. by eapply bw_order.
Qed.

(** Raising a tombstone under a newer row keeps the order. *)
Lemma del_marked_wf b key ts :
  bucket_wf b →
  (∀ e, kr_map (keys b) !! key = Some e → ts < last_modified e ∧ first_rebuild b key = false) →
  bucket_wf (del_marked b key ts).
Proof.
  intros Hb Hts. pose proof (del_marked_map b key ts) as Hm.
  assert (bucket_wf (with_gone b (gone (del_marked b key ts)))) as H.
  { apply with_gone_wf; [done| |].
    - unfold del_marked. case_match; [by apply gone_insert_wf, Hb|by apply raise_wf, Hb].
    - rewrite Hm. intros k e d He [[<- <-]|[? Hd]]%lookup_insert_Some; [|by eapply bw_order].
      destruct (Hts e He) as [? ->]. destruct (gr_map (gone b) !! key) eqn:Ed; [|done].
      pose proof (bw_order b Hb key e z He Ed). lia. }
  unfold del_marked in *. by case_match.
Qed.

(** Without the row, any tombstone is in order. *)
Lemma del_bucket_wf b key ts : bucket_wf b → bucket_wf (del_bucket b key ts).
Proof.
  intros Hb. unfold del_bucket.
  assert (bucket_wf (del_marked (row_removed b key) key ts)) as H.
  { apply del_marked_wf; [by apply row_removed_wf|]. intros e.
    rewrite row_removed_map, lookup_delete_eq. done. }
  assert (Heq : row_removed (touch (clear_fence (del_marked b key ts) key) key) key =
          touch (clear_fence (del_marked (row_removed b key) key ts) key) key).
  { unfold row_removed, del_marked, touch, clear_fence, first_rebuild.
    destruct b as [sy ks g gen re to ep un st]. cbn.
    destruct re, (bool_decide (key ∈ to)) eqn:E2, (kr_map ks !! key) eqn:E1; cbn; rewrite ?E2; cbn;
      rewrite ?E1; done. }
  rewrite Heq. by apply touch_wf, clear_fence_wf.
Qed.
End bucket_ops.

Section index_ops.
Context {L : Layout}.
Implicit Types (s : KeyIndexState) (b : BucketState) (e : ObjEntry).

(** ** Operations *)

(** Replacing a bucket whose rows changed by [p] out, [c] in. *)
Lemma accounted_update s name b' p c cap n :
  index_wf s → bucket_wf b' → cuts_wf n →
  rows_stats (kr_map (keys b')) =
    stats_shift (rows_stats (kr_map (keys (bucket_or_default s name)))) p c →
  stats_le p (rows_stats (kr_map (keys (bucket_or_default s name)))) →
  stats_fit (rows_total (<[name := b']> (buckets s))) →
  index_wf (mkIndex (<[name := b']> (buckets s)) (Stats.replace (i_stats s) p c) cap n).
Proof.
  intros Hs Hb Hn Hrows Hp Hfit.
  pose proof (bucket_or_default_wf s name Hs) as Hb0.
  pose proof (rows_total_le (buckets s) name) as Hle. fold (bucket_or_default s name) in Hle.
  assert (Htot : rows_total (<[name := b']> (buckets s)) = stats_shift (i_stats s) p c).
  { rewrite rows_total_insert, (iw_stats s Hs), Hrows. apply stats_eq; cbn; unfold bucket_or_default; lia. }
  rewrite Htot in Hfit. rewrite replace_shift; [|rewrite (iw_stats s Hs)|done].
  - apply index_wf_update; [done..|]. rewrite (bw_stats _ Hb), (bw_stats _ Hb0), Hrows.
    apply stats_eq; cbn; lia.
  - destruct Hp, Hle. split; lia.
Qed.

Lemma put_order b key e a d :
  put_rejects b key e a = false → gr_map (gone (put_base b key a)) !! key = Some d →
  d < last_modified e.
Proof.
  unfold put_rejects, put_base. destruct (definitive a && first_rebuild b key); cbn.
  - intros _. rewrite gone_remove_map, lookup_delete_eq. done.
  - intros H Hd. bool_prop. unfold Gone.get in *. rewrite Hd in *. cbn in *. bool_prop. lia.
Qed.

Lemma put_bucket_wf b key e a :
  bucket_wf b → put_rejects b key e a = false →
  stats_fit (rows_stats (<[key := e]> (kr_map (keys b)))) → bucket_wf (put_bucket b key e a).
Proof.
  intros Hb Hr Hf.
  assert (bucket_wf (inserted (put_base b key a) key e)) as Hi.
  { apply inserted_wf.
    - unfold put_base. destruct (_ && _); [by apply gone_removed_wf|done].
    - intros d. by apply put_order with (b := b) (a := a).
    - by rewrite put_base_keys. }
  unfold put_bucket. destruct (definitive a); [|done]. by apply touch_wf, clear_fence_wf.
Qed.

Lemma put_bucket_map b key e a :
  kr_map (keys (put_bucket b key e a)) = <[key := e]> (kr_map (keys b)).
Proof.
  unfold put_bucket, touch. pose proof (inserted_map (put_base b key a) key e) as H.
  rewrite put_base_keys in H. destruct (definitive a); [destruct (is_some _)|]; cbn; done.
Qed.

Lemma put_wf s bucket key e a id :
  index_wf s → id_typed id → index_fits (apply_put_with_authority s bucket key e a id).2 →
  index_wf (apply_put_with_authority s bucket key e a id).2.
Proof.
  intros Hs Hid. destruct (put_outcome_spec s bucket key e a id) as [Hd|Hf Hr|Hf Hr]; cbn [snd].
  - intros _. by apply note_identity_wf.
  - intros _. apply index_wf_update_same; [by apply prepared_wf|by apply bucket_or_default_wf|].
    by rewrite prepared_bucket.
  - unfold index_fits. cbn. rewrite (proj1 (prepared_same s bucket id)). intros Hfit.
    pose proof (bucket_or_default_wf s bucket Hs) as Hb.
    assert (bucket_wf (put_bucket (bucket_or_default s bucket) key e a)) as Hb'.
    { apply put_bucket_wf; [done..|]. rewrite <- put_bucket_map with (a := a).
      eapply stats_fit_mono; [|exact Hfit].
      pose proof (rows_total_le (<[bucket := put_bucket (bucket_or_default s bucket) key e a]> (buckets s)) bucket) as Hle.
      by rewrite lookup_insert_eq in Hle. }
    unfold with_capture, with_stats, with_bucket. cbn. rewrite (proj1 (prepared_same s bucket id)).
    apply accounted_update; [done..| |by rewrite put_bucket_map, rows_stats_insert|apply row_stats_le|done].
    rewrite prepared_cuts. by apply note_identity_wf.
Qed.

Lemma del_stale_wf b key ts :
  bucket_wf b → del_stale b key ts = true → bucket_wf (del_marked b key ts).
Proof.
  intros Hb Hst. apply del_marked_wf; [done|]. intros e He.
  unfold del_stale in Hst. bool_prop. split; [|done].
  apply orb_true_iff in H0 as [Hn|Hn]; unfold Keys.get, Gone.get in Hn.
  - rewrite He in Hn. cbn in Hn. by bool_prop.
  - destruct (gr_map (gone b) !! key) as [d|] eqn:Ed; [|done]. cbn in Hn. bool_prop.
    pose proof (bw_order b Hb key e d He Ed). lia.
Qed.

Lemma del_bucket_map b key ts :
  kr_map (keys (del_bucket b key ts)) = delete key (kr_map (keys b)).
Proof. unfold del_bucket. rewrite row_removed_map, touch_keys. cbn. by rewrite del_marked_keys. Qed.

Lemma del_wf s bucket key ts id sweep :
  index_wf s → id_typed id → index_wf (apply_del_with_identity s bucket key ts id sweep).2.
Proof.
  intros Hs Hid. pose proof (bucket_or_default_wf s bucket Hs) as Hb0.
  pose proof (prepared_wf s bucket id Hid Hs) as Hp.
  destruct (del_outcome_spec s bucket key ts id sweep) as [Hd|b Hb Hf Hr|b Hb Hf Hr]; cbn [snd].
  - by apply note_identity_wf.
  - apply index_wf_update_same; [done| |].
    + apply del_stale_wf; [|done]. subst b. by apply del_swept_wf.
    + rewrite prepared_bucket. destruct (del_marked_rest b key ts) as (_ & -> & _).
      by subst b; destruct (del_swept_rest (bucket_or_default s bucket) (capture (prepared s bucket id)) ts sweep) as (_ & -> & _).
  - assert (Hk : keys b = keys (bucket_or_default s bucket)) by (subst b; apply del_swept_rest).
    assert (bucket_wf (del_bucket b key ts)) as Hb'.
    { apply del_bucket_wf. subst b. by apply del_swept_wf. }
    rewrite Hk.
    assert (Hrows : rows_stats (kr_map (keys (del_bucket b key ts))) =
      stats_shift (rows_stats (kr_map (keys (bucket_or_default s bucket))))
        (row_stats (kr_map (keys (bucket_or_default s bucket)) !! key)) stats_zero).
    { by rewrite del_bucket_map, rows_stats_delete, Hk. }
    destruct (prepared_same s bucket id) as [Hsb Hss].
    pose proof (accounted_update s bucket (del_bucket b key ts)
      (row_stats (kr_map (keys (bucket_or_default s bucket)) !! key)) stats_zero) as Hupd.
    assert (Hfit : stats_fit (rows_total (<[bucket := del_bucket b key ts]> (buckets s)))).
    { rewrite rows_total_insert, Hrows. pose proof (iw_fit s Hs) as [F1 F2]. rewrite (iw_stats s Hs) in F1, F2.
      destruct (row_stats_nonneg (kr_map (keys (bucket_or_default s bucket)) !! key)).
      split; cbn in *; unfold bucket_or_default in *; lia. }
    destruct (kr_map (keys (bucket_or_default s bucket)) !! key) as [p|] eqn:Ep; cbn [row_stats] in *.
    + unfold with_capture, with_stats, with_bucket. cbn. rewrite Hsb. apply Hupd; [done..|apply Hp|done| |done].
      pose proof (row_stats_le (kr_map (keys (bucket_or_default s bucket))) key) as H. by rewrite Ep in H.
    + unfold with_capture, with_stats, with_bucket. cbn. rewrite Hsb.
      apply index_wf_update; [done..|apply Hp|apply Hs|].
      rewrite (bw_stats _ Hb'), (bw_stats _ Hb0), Hrows. apply stats_eq; cbn; lia.
Qed.
End index_ops.

Section fence_ops.
Context {L : Layout}.
Implicit Types (s : KeyIndexState) (b : BucketState) (e : ObjEntry).

(** ** Fences *)

Lemma fence_key_spec s bucket key token s' :
  fence_key s bucket key = Some (token, s') ↔
  let b := bucket_or_default s bucket in
  token = uncertainty_epoch b + 1 ∧ token <= u64_max ∧
  s' = with_bucket (invalidate_capture_for_rebuild s) bucket
         (with_uncertain b token (<[key := token]> (uncertain_keys b))).
Proof.
  unfold fence_key. change (bucket_or_default (invalidate_capture_for_rebuild s) bucket)
    with (bucket_or_default s bucket). cbn zeta. unfold checked_add.
  destruct (Z.leb_spec (uncertainty_epoch (bucket_or_default s bucket) + 1) u64_max); cbn; naive_solver lia.
Qed.

Lemma fenced_wf b key :
  bucket_wf b → uncertainty_epoch b + 1 <= u64_max →
  bucket_wf (with_uncertain b (uncertainty_epoch b + 1)
               (<[key := uncertainty_epoch b + 1]> (uncertain_keys b))).
Proof.
  intros [] Hmax. split; try done; cbn.
  - lia.
  - intros k t [[_ <-]|[_ Ht]]%lookup_insert_Some; [lia|]. apply bw_token in Ht. lia.
  - intros k1 k2 t [[<- <-]|[Hn1 H1]]%lookup_insert_Some [[<- E]|[Hn2 H2]]%lookup_insert_Some; try done.
    + apply bw_token in H2. lia.
    + apply bw_token in H1. lia.
    + eauto.
Qed.

Lemma fence_wf s bucket key token s' :
  index_wf s → fence_key s bucket key = Some (token, s') → index_wf s'.
Proof.
  intros Hs (-> & Hmax & ->)%fence_key_spec.
  apply (index_wf_update_same (invalidate_capture_for_rebuild s) bucket _ _); [by apply invalidate_wf| |done].
  apply fenced_wf; [by apply bucket_or_default_wf|done].
Qed.

(** ** Rebuilds *)

Lemma stats_zero_replace s name b' cap n :
  index_wf s → bucket_wf b' → cuts_wf n → kr_map (keys b') = ∅ →
  index_wf (mkIndex (<[name := b']> (buckets s))
    (Stats.replace (i_stats s) (b_stats (bucket_or_default s name)) stats_zero) cap n).
Proof.
  intros Hs Hb Hn He. rewrite (bw_stats _ (bucket_or_default_wf s name Hs)).
  apply accounted_update; [done..| |done|].
  - rewrite He, rows_stats_empty. apply stats_eq; cbn; lia.
  - rewrite rows_total_insert, He, rows_stats_empty. apply shift_zero_fit; [apply rows_stats_nonneg|].
    rewrite <- (iw_stats s Hs). apply Hs.
Qed.

Lemma wrapping_add_range a n : 0 <= wrapping_add u64_max a n <= u64_max.
Proof. unfold wrapping_add. pose proof (Z.mod_pos_bound (a + n) (u64_max + 1) ltac:(done)). lia. Qed.

Lemma resync_wf s bucket : index_wf s → index_wf (begin_bucket_resync s bucket).2.
Proof.
  intros Hs. unfold begin_bucket_resync. cbn.
  change (bucket_or_default (invalidate_capture_for_rebuild s) bucket) with (bucket_or_default s bucket).
  apply (stats_zero_replace s); [done| |apply Hs|done].
  pose proof (bucket_or_default_wf s bucket Hs) as []. split; try done.
  - by intros g [= <-].
  - apply wrapping_add_range.
Qed.

Lemma discarded_wf b : bucket_wf b → bucket_wf (discarded b).
Proof. intros []. split; try done. apply wrapping_add_range. Qed.

Lemma rows_total_list (B : gmap string BucketState) l :
  NoDup l.*1 → list_to_map l = B →
  rows_total B = foldr (λ r t, stats_shift t stats_zero (rows_stats (kr_map (keys r.2)))) stats_zero l.
Proof.
  intros Hnd <-. apply stats_eq; cbn.
  - rewrite (msum_list _ _ l Hnd eq_refl). clear Hnd. induction l; cbn; [done|]. lia.
  - rewrite (msum_list _ _ l Hnd eq_refl). clear Hnd. induction l; cbn; [done|]. lia.
Qed.

Lemma discard_stats l t :
  Forall (λ r : string * BucketState, bucket_wf r.2) l → stats_fit t →
  stats_le (foldr (λ r t, stats_shift t stats_zero (rows_stats (kr_map (keys r.2)))) stats_zero l) t →
  foldl (λ total r, Stats.replace total (b_stats r.2) stats_zero) t l =
    stats_shift t (foldr (λ r t, stats_shift t stats_zero (rows_stats (kr_map (keys r.2)))) stats_zero l) stats_zero.
Proof.
  intros Hwf. revert t. induction Hwf as [|[name b] l Hb _ IH]; intros t Ht Hle; cbn in *.
  { apply stats_eq; cbn; lia. }
  pose proof (rows_stats_nonneg (kr_map (keys b))) as [].
  set (rest := foldr _ _ l) in *. destruct Hle as [Hl1 Hl2]. cbn in *.
  assert (0 <= objects rest ∧ 0 <= logical_bytes rest) as [].
  { subst rest. clear. induction l as [|[? b] l IH]; cbn; [done|].
    pose proof (rows_stats_nonneg (kr_map (keys b))) as []. cbn in *. lia. }
  destruct Ht. rewrite (bw_stats b Hb), replace_shift by (split; cbn; lia).
  rewrite IH by (split; cbn; lia). apply stats_eq; cbn; lia.
Qed.

Lemma discard_wf s : index_wf s → index_wf (discard_buckets s).
Proof.
  intros Hs. unfold discard_buckets. cbn.
  assert (Hz : rows_total (discarded <$> buckets s) = stats_zero).
  { clear Hs. induction (buckets s) as [|k b B Hk IH] using map_ind.
    - rewrite fmap_empty. apply stats_eq; cbn; by rewrite msum_empty.
    - rewrite fmap_insert, rows_total_insert, lookup_fmap, Hk, IH. apply stats_eq; cbn;
        rewrite ?map_size_empty, ?msum_empty; done. }
  pose proof (rows_total_list (buckets s) (map_to_list (buckets s)) (NoDup_fst_map_to_list _)
    (list_to_map_to_list _)) as Hl. rewrite <- (iw_stats s Hs) in Hl.
  rewrite discard_stats; [rewrite <- Hl| |apply Hs|by rewrite <- Hl].
  2:{ apply Forall_forall. intros [name b] Hin%elem_of_map_to_list. by eapply iw_bucket. }
  assert (stats_shift (i_stats s) (i_stats s) stats_zero = stats_zero) as -> by (apply stats_eq; cbn; lia).
  split; cbn; [|done|done|apply Hs].
  intros name b'. rewrite lookup_fmap. intros (b & Hb & ->)%fmap_Some. apply discarded_wf. by eapply iw_bucket.
Qed.

Lemma remove_bucket_wf s bucket : index_wf s → index_wf (remove_bucket s bucket).
Proof.
  intros Hs. unfold remove_bucket.
  assert (forall s1, same_rows s s1 → native_cuts s1 = native_cuts s →
    index_wf (match buckets s1 !! bucket with
              | Some previous => mkIndex (delete bucket (buckets s1))
                   (Stats.replace (i_stats s1) (b_stats previous) stats_zero) (capture s1) (native_cuts s1)
              | None => s1 end)) as H.
  { intros s1 [Hb Hst] Hc. rewrite Hb, Hst, Hc. destruct (buckets s !! bucket) as [b|] eqn:E.
    2:{ apply (index_wf_same s); [done|rewrite Hc; apply Hs|done]. }
    assert (Hwf : bucket_wf b) by by eapply iw_bucket.
    assert (Htot : rows_total (delete bucket (buckets s)) = stats_shift (i_stats s) (b_stats b) stats_zero).
    { rewrite (iw_stats s Hs), (bw_stats b Hwf). apply stats_eq; cbn; erewrite msum_delete by done; cbn; lia. }
    rewrite replace_shift.
    - split; cbn; [|by rewrite Htot|..|apply Hs].
      + intros name b' [_ ?]%lookup_delete_Some. by eapply iw_bucket.
      + apply shift_zero_fit; [rewrite (bw_stats b Hwf); apply rows_stats_nonneg|apply Hs].
    - rewrite (iw_stats s Hs), (bw_stats b Hwf).
      pose proof (rows_total_le (buckets s) bucket) as Hle. by rewrite E in Hle.
    - apply shift_zero_fit; [rewrite (bw_stats b Hwf); apply rows_stats_nonneg|apply Hs]. }
  destruct (is_some (buckets s !! bucket)); by apply H.
Qed.

Lemma finish_wf s bucket g : index_wf s → index_wf (finish_bucket_sync_generation s bucket g).2.
Proof.
  intros Hs. unfold finish_bucket_sync_generation. pose proof (bucket_or_default_wf s bucket Hs) as Hb.
  destruct (owns_rebuild _ _); cbn [negb snd].
  - apply (index_wf_update_same s bucket _ (capture s)); [done| |done]. destruct Hb. by split.
  - by apply (index_wf_update_same s bucket _ (capture s)).
Qed.
End fence_ops.

Section resolve_ops.
Context {L : Layout}.
Implicit Types (s : KeyIndexState) (b : BucketState) (e : ObjEntry).

(** ** Resolution *)

Definition resolved b key (a : AuthoritativeKeyState) now : BucketState :=
  touch (clear_fence
    match a with
    | Present e => inserted (with_gone b (Gone.remove (gone b) key).2) key e
    | KeyAbsent => row_removed (with_gone b (Gone.raise (gone b) key now)) key
    end key) key.

Definition resolved_row (a : AuthoritativeKeyState) : option ObjEntry :=
  match a with Present e => Some e | KeyAbsent => None end.

Lemma resolve_spec s bucket key token a now :
  resolve_uncertain_key s bucket key token a now =
  match buckets s !! bucket with
  | Some b =>
      if bool_decide (uncertain_keys b !! key = Some token)
      then (true, with_stats (with_bucket s bucket (resolved b key a now))
                    (match a, kr_map (keys b) !! key with
                     | KeyAbsent, None => i_stats s
                     | _, o => Stats.replace (i_stats s) (row_stats o) (row_stats (resolved_row a))
                     end))
      else (false, s)
  | None => (false, s)
  end.
Proof.
  unfold resolve_uncertain_key. destruct (buckets s !! bucket) as [b|]; [|done].
  destruct (bool_decide _); [|done]. cbn [negb]. destruct a as [e|].
  - rewrite (surjective_pairing (insert_accounted _ _ _ _)), insert_accounted_1, insert_accounted_2.
    cbn. by destruct (kr_map (keys b) !! key).
  - unfold resolved, row_removed, Keys.remove. cbn. by destruct (kr_map (keys b) !! key).
Qed.

Lemma resolved_map b key a now :
  kr_map (keys (resolved b key a now)) =
    match a with Present e => <[key := e]> (kr_map (keys b)) | KeyAbsent => delete key (kr_map (keys b)) end.
Proof.
  unfold resolved. rewrite touch_keys. destruct a; cbn; [by rewrite inserted_map|by rewrite row_removed_map].
Qed.

Lemma resolved_wf b key a now :
  bucket_wf b → stats_fit (rows_stats (kr_map (keys (resolved b key a now)))) →
  bucket_wf (resolved b key a now).
Proof.
  intros Hb Hfit. rewrite resolved_map in Hfit. unfold resolved. apply touch_wf, clear_fence_wf.
  destruct a as [e|].
  - apply inserted_wf; [by apply gone_removed_wf| |done]. cbn.
    intros d. rewrite gone_remove_map, lookup_delete_eq. done.
  - assert (Heq : row_removed (with_gone b (Gone.raise (gone b) key now)) key =
      with_gone (row_removed b key) (Gone.raise (gone (row_removed b key)) key now)).
    { unfold row_removed. cbn. by destruct (kr_map (keys b) !! key). }
    rewrite Heq. pose proof (row_removed_wf b key Hb) as Hr.
    apply with_gone_wf; [done|apply raise_wf, Hr|]. intros k e d.
    rewrite raise_map, row_removed_map. intros [Hne Hk]%lookup_delete_Some.
    rewrite lookup_insert_ne by done. destruct (row_removed_rest b key) as (-> & _). by apply Hb.
Qed.

Lemma resolve_wf s bucket key token a now :
  index_wf s → index_fits (resolve_uncertain_key s bucket key token a now).2 →
  index_wf (resolve_uncertain_key s bucket key token a now).2.
Proof.
  intros Hs. rewrite resolve_spec. destruct (buckets s !! bucket) as [b|] eqn:Eb; [|done].
  destruct (bool_decide _); [|done]. cbn [snd]. unfold index_fits. cbn. intros Hfit.
  assert (Hbd : bucket_or_default s bucket = b) by (unfold bucket_or_default; by rewrite Eb).
  assert (bucket_wf (resolved b key a now)) as Hb'.
  { apply resolved_wf; [by eapply iw_bucket|]. eapply stats_fit_mono; [|exact Hfit].
    pose proof (rows_total_le (<[bucket := resolved b key a now]> (buckets s)) bucket) as Hle.
    by rewrite lookup_insert_eq in Hle. }
  assert (Hrows : rows_stats (kr_map (keys (resolved b key a now))) =
    stats_shift (rows_stats (kr_map (keys b))) (row_stats (kr_map (keys b) !! key)) (row_stats (resolved_row a))).
  { rewrite resolved_map. destruct a; [apply rows_stats_insert|apply rows_stats_delete]. }
  pose proof (row_stats_le (kr_map (keys b)) key) as Hle.
  assert (Hgo : ∀ t, (t = Stats.replace (i_stats s) (row_stats (kr_map (keys b) !! key)) (row_stats (resolved_row a)) ∨
                t = i_stats s ∧ row_stats (kr_map (keys b) !! key) = stats_zero ∧ row_stats (resolved_row a) = stats_zero) →
    index_wf (mkIndex (<[bucket := resolved b key a now]> (buckets s)) t (capture s) (native_cuts s))).
  { intros t [->|(-> & E1 & E2)].
    - apply accounted_update; rewrite ?Hbd; try done. apply Hs.
    - apply index_wf_update; [done..|apply Hs|apply Hs|]. rewrite Hbd, (bw_stats _ Hb'), Hrows, E1, E2.
      rewrite (bw_stats b) by by eapply iw_bucket. apply stats_eq; cbn; lia. }
  apply Hgo. destruct a, (kr_map (keys b) !! key); cbn; auto.
Qed.

(** ** Listing pages *)

Lemma sync_row_cases b t row :
  sync_row (b, t) row = (b, t) ∨
  (sync_row (b, t) row = (inserted b row.1 row.2,
     Stats.replace t (row_stats (kr_map (keys b) !! row.1)) (Stats.for_entry row.2)) ∧
   (row.1 ∉ rebuild_touched b) ∧ uncertain_keys b !! row.1 = None ∧
   (∀ d, gr_map (gone b) !! row.1 = Some d → d < last_modified row.2) ∧
   (∀ o, kr_map (keys b) !! row.1 = Some o → last_modified o <= last_modified row.2)).
Proof.
  destruct row as [key e]. unfold sync_row. destruct (_ && _ && _ && _) eqn:E; [right|by left].
  rewrite (surjective_pairing (insert_accounted _ _ _ _)), insert_accounted_1, insert_accounted_2.
  bool_prop. unfold Gone.get, Keys.get in *. cbn. split_and!; try done.
  - by destruct (uncertain_keys b !! key).
  - intros d Hd. rewrite Hd in *. cbn in *. by bool_prop.
  - intros o Ho. rewrite Ho in *. cbn in *. by bool_prop.
Qed.

(** A rebuild page, as a sequence of states. *)
Definition sync_page s bucket (rows : list (string * ObjEntry)) : KeyIndexState :=
  let '(b, t) := foldl sync_row (bucket_or_default s bucket, i_stats s) rows in
  with_stats (with_bucket s bucket b) t.

Lemma sync_page_nil s bucket :
  sync_page s bucket [] = with_bucket s bucket (bucket_or_default s bucket).
Proof. done. Qed.

Lemma sync_page_snoc s bucket rows row :
  sync_page s bucket (rows ++ [row]) =
  let s' := sync_page s bucket rows in
  let '(b, t) := sync_row (bucket_or_default s' bucket, i_stats s') row in
  with_stats (with_bucket s' bucket b) t.
Proof.
  unfold sync_page. rewrite foldl_app. cbn [foldl].
  destruct (foldl sync_row _ rows) as [b t]. cbn zeta.
  replace (bucket_or_default (with_stats (with_bucket s bucket b) t) bucket) with b
    by (unfold bucket_or_default; cbn; by rewrite lookup_insert_eq).
  change (i_stats (with_stats (with_bucket s bucket b) t)) with t.
  destruct (sync_row (b, t) row) as [b' t']. unfold with_stats, with_bucket. cbn.
  by rewrite insert_insert_eq.
Qed.

Lemma sync_page_wf s bucket rows :
  index_wf s → (∀ n, index_fits (sync_page s bucket (take n rows))) →
  index_wf (sync_page s bucket rows).
Proof.
  intros Hs. induction rows as [|row rows IH] using rev_ind; intros Hfit.
  { apply (index_wf_update_same s bucket _ (capture s)); [done|by apply bucket_or_default_wf|done]. }
  assert (Hs' : index_wf (sync_page s bucket rows)).
  { apply IH. intros n. destruct (decide (n <= length rows)%nat).
    - specialize (Hfit n). rewrite take_app_le in Hfit by done. done.
    - specialize (Hfit (length rows)). rewrite take_app_length in Hfit. rewrite take_ge by lia. done. }
  specialize (Hfit (length (rows ++ [row]))). rewrite firstn_all in Hfit.
  rewrite sync_page_snoc in *. cbn zeta in *. set (s' := sync_page s bucket rows) in *.
  pose proof (bucket_or_default_wf s' bucket Hs') as Hb.
  destruct (sync_row_cases (bucket_or_default s' bucket) (i_stats s') row) as [E|(E & _ & _ & Hd & _)];
    rewrite E in *.
  - by apply (index_wf_update_same s' bucket _ (capture s')).
  - unfold index_fits in Hfit. cbn in Hfit.
    assert (bucket_wf (inserted (bucket_or_default s' bucket) row.1 row.2)) as Hb'.
    { apply inserted_wf; [done..|]. rewrite <- inserted_map. eapply stats_fit_mono; [|exact Hfit].
      pose proof (rows_total_le (<[bucket := inserted (bucket_or_default s' bucket) row.1 row.2]> (buckets s')) bucket) as Hle.
      by rewrite lookup_insert_eq in Hle. }
    apply accounted_update; [done..|apply Hs'|by rewrite inserted_map, rows_stats_insert|apply row_stats_le|done].
Qed.

Lemma sync_listing_spec s bucket g rows :
  sync_listing_into_generation s bucket g rows =
  let s' := invalidate_capture_for_rebuild s in
  if owns_rebuild (bucket_or_default s bucket) g
  then (Some (length rows), sync_page s' bucket rows)
  else (None, with_bucket s' bucket (bucket_or_default s bucket)).
Proof.
  unfold sync_listing_into_generation, sync_page.
  change (bucket_or_default (invalidate_capture_for_rebuild s) bucket) with (bucket_or_default s bucket).
  cbn zeta. destruct (owns_rebuild _ _); [|done]. cbn [negb]. by destruct (foldl _ _ _).
Qed.

Lemma listing_wf s bucket g rows :
  index_wf s → (∀ n, index_fits (sync_listing_into_generation s bucket g (take n rows)).2) →
  index_wf (sync_listing_into_generation s bucket g rows).2.
Proof.
  intros Hs Hfit. setoid_rewrite sync_listing_spec in Hfit. rewrite sync_listing_spec. cbn zeta in *.
  assert (Hi : index_wf (invalidate_capture_for_rebuild s)) by by apply invalidate_wf.
  destruct (owns_rebuild _ _); cbn in *; [by apply sync_page_wf|].
  apply (index_wf_update_same (invalidate_capture_for_rebuild s) bucket _ _); [done| |done].
  by apply bucket_or_default_wf.
Qed.

(** ** Completion *)

(** The entry with its missing fields filled. *)
Definition filled_entry (fill : EntryFill) e : ObjEntry :=
  mkObjEntry (option_or (size e) (fill_size fill)) (last_modified e)
    (option_or (etag e) (fill_etag fill)) (storage_class e)
    (option_or (content_type e) (fill_content_type fill))
    (option_or (meta e) (Some (fill_meta fill))).

Lemma fill_entry_spec fill e :
  fill_entry fill e =
  if same_version e fill
  then (Some (Stats.for_entry e,
              if bool_decide (filled_entry fill e = e) then None
              else Some (Stats.for_entry (filled_entry fill e))), filled_entry fill e)
  else (None, e).
Proof.
  unfold fill_entry. destruct (same_version e fill) eqn:E; [|done]. cbn [negb].
  destruct e as [[sz|] lm [et|] sc [ct|] [me|]], fill as [[fs|] [fe|] [fc|] fm]; cbn;
    case_bool_decide as Hc; unfold filled_entry in *; cbn in *; try done; exfalso; naive_solver.
Qed.

Lemma complete_spec s bucket key fill :
  complete_entry s bucket key fill =
  match buckets s !! bucket with
  | None => (NotIndexed, s)
  | Some b =>
      let b' := with_keys b (Keys.update (keys b) key (fill_entry fill)).2 in
      match kr_map (keys b) !! key with
      | None => (NotIndexed, with_bucket s bucket b')
      | Some e =>
          if same_version e fill then
            if bool_decide (filled_entry fill e = e)
            then (AlreadyComplete, with_bucket s bucket b')
            else (Completed,
              with_capture
                (with_stats
                   (with_bucket s bucket
                      (with_b_stats b' (Stats.replace (b_stats b) (Stats.for_entry e)
                                          (Stats.for_entry (filled_entry fill e)))))
                   (Stats.replace (i_stats s) (Stats.for_entry e)
                      (Stats.for_entry (filled_entry fill e))))
                (capture_put (capture s) None bucket key (filled_entry fill e)))
          else (OtherVersion, with_bucket s bucket b')
      end
  end.
Proof.
  unfold complete_entry. destruct (buckets s !! bucket) as [b|]; [|done].
  pose proof (update_res (keys b) key (fill_entry fill)) as Hres.
  pose proof (update_map (keys b) key (fill_entry fill)) as Hmap.
  destruct (Keys.update (keys b) key (fill_entry fill)) as [o ks]. cbn in Hres, Hmap |- *. subst o.
  destruct (kr_map (keys b) !! key) as [e|] eqn:Ee; cbn; [|done].
  rewrite fill_entry_spec in *. destruct (same_version e fill); cbn; [|done].
  destruct (bool_decide (filled_entry fill e = e)); cbn; [done|].
  unfold Keys.get. cbn in *. rewrite Hmap, lookup_insert_eq.
  unfold capture_put. by destruct (capture s).
Qed.

Lemma completed_map b key fill :
  kr_map (Keys.update (keys b) key (fill_entry fill)).2 =
  match kr_map (keys b) !! key with
  | Some e => <[key := if same_version e fill then filled_entry fill e else e]> (kr_map (keys b))
  | None => kr_map (keys b)
  end.
Proof.
  rewrite update_map. destruct (kr_map (keys b) !! key) as [e|]; [|done].
  rewrite fill_entry_spec. by destruct (same_version e fill).
Qed.

Lemma with_keys_wf b ks :
  bucket_wf b → keys_wf ks → stats_fit (rows_stats (kr_map ks)) →
  (∀ k e d, kr_map ks !! k = Some e → gr_map (gone b) !! k = Some d → d < last_modified e) →
  bucket_wf (with_b_stats (with_keys b ks) (rows_stats (kr_map ks))).
Proof. intros [] Hk Hf Ho. by split. Qed.

Lemma complete_order b key fill k e d :
  bucket_wf b → kr_map (Keys.update (keys b) key (fill_entry fill)).2 !! k = Some e →
  gr_map (gone b) !! k = Some d → d < last_modified e.
Proof.
  intros Hb. rewrite completed_map. destruct (kr_map (keys b) !! key) as [o|] eqn:Eo.
  - intros [[<- <-]|[? Hk]]%lookup_insert_Some Hd; [|by eapply bw_order].
    pose proof (bw_order b Hb key o d Eo Hd). by destruct (same_version o fill).
  - intros Hk Hd. by eapply bw_order.
Qed.

Lemma complete_wf s bucket key fill :
  index_wf s → index_fits (complete_entry s bucket key fill).2 →
  index_wf (complete_entry s bucket key fill).2.
Proof.
  intros Hs. rewrite complete_spec. destruct (buckets s !! bucket) as [b|] eqn:Eb; [|done].
  assert (Hbd : bucket_or_default s bucket = b) by (unfold bucket_or_default; by rewrite Eb).
  assert (Hb : bucket_wf b) by by eapply iw_bucket.
  pose proof (update_wf (keys b) key (fill_entry fill) (bw_keys b Hb)) as Hku.
  pose proof (λ k e d, complete_order b key fill k e d Hb) as Hord.
  pose proof (completed_map b key fill) as Hmap.
  set (ks := (Keys.update (keys b) key (fill_entry fill)).2) in *. cbn zeta.
  assert (Hsame : kr_map ks = kr_map (keys b) → index_wf (with_bucket s bucket (with_keys b ks))).
  { intros Hkm. pose proof (with_keys_wf b ks Hb Hku) as Hw. rewrite Hkm, <- (bw_stats b Hb) in Hw.
    specialize (Hw (bw_fit b Hb) (bw_order b Hb)).
    assert (with_b_stats (with_keys b ks) (b_stats b) = with_keys b ks) as Hx by done. rewrite Hx in Hw.
    apply (index_wf_update_same s bucket _ (capture s)); [done..|by rewrite Hbd]. }
  destruct (kr_map (keys b) !! key) as [e|] eqn:Ee; [|by intros _; apply Hsame].
  destruct (same_version e fill); [|intros _; apply Hsame; by rewrite Hmap, insert_id].
  case_bool_decide as Hc; [intros _; apply Hsame; by rewrite Hmap, Hc, insert_id|].
  unfold index_fits. cbn. set (b' := with_b_stats _ _). intros Hfit.
  assert (Hrows : rows_stats (kr_map (keys b')) =
    stats_shift (rows_stats (kr_map (keys b))) (Stats.for_entry e) (Stats.for_entry (filled_entry fill e))).
  { cbn. by rewrite Hmap, rows_stats_insert, Ee. }
  pose proof (row_stats_le (kr_map (keys b)) key) as Hle. rewrite Ee in Hle.
  assert (Hf' : stats_fit (rows_stats (kr_map (keys b')))).
  { eapply stats_fit_mono; [|exact Hfit].
    pose proof (rows_total_le (<[bucket := b']> (buckets s)) bucket) as H. by rewrite lookup_insert_eq in H. }
  apply accounted_update; rewrite ?Hbd; try done; [|apply Hs].
  assert (b' = with_b_stats (with_keys b ks) (rows_stats (kr_map ks))) as ->; [|by apply with_keys_wf].
  subst b'. f_equal. change (kr_map ks) with (kr_map (keys (with_b_stats (with_keys b ks) (rows_stats (kr_map ks))))).
  rewrite (bw_stats b Hb), replace_shift; [done..|]. cbn in Hrows, Hf'. by rewrite <- Hrows.
Qed.
End resolve_ops.
