(* ===== verification/IndexMachine.v ===== *)
(** * The index as a state machine

    Every operation the proxy runs on the index is an event; [exec] runs the
    operation's body under the lock.  Reachable states satisfy the invariant;
    a fence stays until its own token or a definitive mutation of its key
    resolves it; tokens and rebuild generations behave as fencing tokens. *)

From S2P Require Import Prelude.
From S2P Require Import ObjTypes.
From S2P Require Import ImageCodec.
From S2P Require Import Rows.
From S2P Require Import IndexCapture.
From S2P Require Import KeyIndex.
From S2P Require Import IndexWf.
From S2P Require Import IndexSteps.
From S2P Require Import IndexInv.

Inductive index_event :=
| EvPut (bucket key : string) (e : ObjEntry) (a : PutAuthority) (id : option DeltaIdentity)
| EvDel (bucket key : string) (ts : Z) (id : option DeltaIdentity) (sweep : TombstoneSweep)
| EvFence (bucket key : string)
| EvFenceNative (bucket key : string) (cut : NativeCut)
| EvFenceOwn (bucket key : string) (cut : NativeCut)
| EvResolve (bucket key : string) (token : Z) (a : AuthoritativeKeyState) (now : Z)
| EvResync (bucket : string)
| EvPage (bucket : string) (generation : Z) (rows : list (string * ObjEntry))
| EvFinish (bucket : string) (generation : Z)
| EvComplete (bucket key : string) (fill : EntryFill)
| EvGap (missed_through : NativeCut)
| EvRemove (bucket : string)
| EvRegister (cut : NativeCut)
| EvSeal (cut : NativeCut)
| EvRenew (sealed : NativeCut) (epoch : Z)
| EvCapture (c : option IndexCapture).

Section machine.
Context {L : Layout}.
Implicit Types (s : KeyIndexState) (b : BucketState) (e : ObjEntry).

(** [None] is the panic of an exhausted token space. *)
Definition exec s (ev : index_event) : option KeyIndexState :=
  match ev with
  | EvPut bucket key e a id => Some (apply_put_with_authority s bucket key e a id).2
  | EvDel bucket key ts id sweep => Some (apply_del_with_identity s bucket key ts id sweep).2
  | EvFence bucket key => snd <$> fence_uncertain_key s bucket key
  | EvFenceNative bucket key cut => snd <$> fence_uncertain_key_native s bucket key cut
  | EvFenceOwn bucket key cut => snd <$> fence_own_uncertain_key s bucket key (tt, cut)
  | EvResolve bucket key token a now => Some (resolve_uncertain_key s bucket key token a now).2
  | EvResync bucket => Some (begin_bucket_resync s bucket).2
  | EvPage bucket g rows => Some (sync_listing_into_generation s bucket g rows).2
  | EvFinish bucket g => Some (finish_bucket_sync_generation s bucket g).2
  | EvComplete bucket key fill => Some (complete_entry s bucket key fill).2
  | EvGap cut => Some (discard_for_gap s cut)
  | EvRemove bucket => Some (remove_bucket s bucket)
  | EvRegister cut => Some (register_native_writer s cut)
  | EvSeal cut => Some (note_native_seal s cut)
  | EvRenew sealed epoch => Some (renew_native_writer s sealed epoch)
  | EvCapture c => Some (with_capture s c)
  end.

(** The machine words of an event. *)
Definition ev_typed (ev : index_event) : Prop :=
  match ev with
  | EvPut _ _ _ _ id | EvDel _ _ _ id _ => id_typed id
  | EvFenceNative _ _ cut | EvFenceOwn _ _ cut | EvGap cut | EvRegister cut | EvSeal cut =>
      cut_typed cut
  | _ => True
  end.

(** The statistics fit their [u64] counters, after every row of a page. *)
Definition ev_fits s (ev : index_event) s' : Prop :=
  match ev with
  | EvPage bucket g rows => ∀ n, index_fits (sync_listing_into_generation s bucket g (take n rows)).2
  | _ => index_fits s'
  end.

Inductive index_step s ev s' : Prop :=
  IndexStep : exec s ev = Some s' → ev_typed ev → ev_fits s ev s' → index_step s ev s'.

Inductive reachable : KeyIndexState → Prop :=
| reach_init : reachable KeyIndexState_default
| reach_step s ev s' : reachable s → index_step s ev s' → reachable s'.

Lemma step_wf s ev s' : index_step s ev s' → index_wf s → index_wf s'.
Proof.
  intros [Hx Hty Hfit] Hs. destruct ev; cbn in *; try (injection Hx as <-).
  - by apply put_wf.
  - by apply del_wf.
  - apply fmap_Some in Hx as ([t s1] & Hx & ->). by eapply fence_wf.
  - unfold fence_uncertain_key_native in Hx.
    pose proof (note_identity_wf s (Some (Native cut)) Hty Hs) as Hn. cbn in Hn.
    destruct (note_native_cut s cut) as [fresh s1]. cbn in *. destruct fresh; cbn in Hx.
    + apply fmap_Some in Hx as ([t s2] & Hx & ->). apply bind_Some in Hx as ([t' s3] & Hx & [= <- <-]).
      by eapply fence_wf.
    + by injection Hx as <-.
  - unfold fence_own_uncertain_key in Hx.
    pose proof (note_identity_wf s (Some (Native cut)) Hty Hs) as Hn. cbn in Hn.
    apply fmap_Some in Hx as ([[t u] s2] & Hx & ->). apply bind_Some in Hx as ([t' s3] & Hx & [= <- <- <-]).
    by eapply fence_wf.
  - by apply resolve_wf.
  - by apply resync_wf.
  - by apply listing_wf.
  - by apply finish_wf.
  - by apply complete_wf.
  - apply discard_wf, skip_gap_wf; [apply Hty|done].
  - by apply remove_bucket_wf.
  - by apply register_wf.
  - by apply seal_wf.
  - by apply renew_wf.
  - by apply with_capture_wf.
Qed.

(** [C1] Every reachable index state is well formed: statistics equal the
    rows' exact count and bytes (per bucket and in total), image tallies equal
    the rows' wrapped sums, tombstone floors bound every tombstone, no tombstone
    covers a live row, a running rebuild owns the current generation and its
    bucket is not marked synced, and fence tokens are distinct, positive and at
    most the allocation epoch. *)
Theorem reachable_wf s : reachable s → index_wf s.
Proof.
  induction 1 as [|s ev s' _ IH Hstep]; [apply index_default_wf|by eapply step_wf].
Qed.
End machine.

(** ** Looking at one bucket *)

Lemma bod_with_bucket s name b name' :
  bucket_or_default (with_bucket s name b) name' =
    if decide (name = name') then b else bucket_or_default s name'.
Proof.
  unfold bucket_or_default. cbn. case_decide as H.
  - subst. by rewrite lookup_insert_eq.
  - by rewrite lookup_insert_ne.
Qed.

Lemma bod_with_stats s t name : bucket_or_default (with_stats s t) name = bucket_or_default s name.
Proof. done. Qed.

Lemma bod_with_capture s c name : bucket_or_default (with_capture s c) name = bucket_or_default s name.
Proof. done. Qed.

Lemma bod_invalidate s r name : bucket_or_default (invalidate_capture s r) name = bucket_or_default s name.
Proof. done. Qed.

Create Rewrite HintDb bod.
#[global] Hint Rewrite bod_with_bucket bod_with_stats bod_with_capture bod_invalidate
  @prepared_bucket : bod.

Section fences.
Context {L : Layout}.
Implicit Types (s : KeyIndexState) (b : BucketState) (e : ObjEntry).

(** ** Fences *)

Definition fences s bucket : gmap string Z := uncertain_keys (bucket_or_default s bucket).
Definition epoch_of s bucket : Z := uncertainty_epoch (bucket_or_default s bucket).

Lemma fence_is_current s bucket key token :
  uncertain_key_is_current s bucket key token = bool_decide (fences s bucket !! key = Some token).
Proof.
  unfold uncertain_key_is_current, fences, bucket_or_default.
  destruct (buckets s !! bucket) as [b|]; cbn; [|done].
  destruct (uncertain_keys b !! key) as [t|]; cbn; [|done].
  destruct (Z.eqb_spec t token); case_bool_decide; naive_solver.
Qed.

Lemma put_bucket_fences b key e a :
  uncertain_keys (put_bucket b key e a) =
    (if definitive a then delete key (uncertain_keys b) else uncertain_keys b) ∧
  uncertainty_epoch (put_bucket b key e a) = uncertainty_epoch b.
Proof.
  unfold put_bucket.
  destruct (inserted_rest (put_base b key a) key e) as (_ & _ & _ & _ & _ & Hep & Hun).
  assert (uncertain_keys (put_base b key a) = uncertain_keys b ∧
          uncertainty_epoch (put_base b key a) = uncertainty_epoch b) as [H1 H2]
    by (unfold put_base; by destruct (_ && _)).
  destruct (definitive a); [|by rewrite Hep, Hun].
  match goal with |- context [touch ?x key] => destruct (touch_rest x key) as (_ & _ & _ & _ & _ & _ & -> & ->) end.
  cbn. by rewrite Hep, Hun, H1, H2.
Qed.

Lemma del_bucket_fences b key ts :
  uncertain_keys (del_bucket b key ts) = delete key (uncertain_keys b) ∧
  uncertainty_epoch (del_bucket b key ts) = uncertainty_epoch b.
Proof.
  unfold del_bucket.
  match goal with |- context [row_removed ?x key] =>
    destruct (row_removed_rest x key) as (_ & _ & _ & _ & _ & -> & ->) end.
  match goal with |- context [touch ?x key] => destruct (touch_rest x key) as (_ & _ & _ & _ & _ & _ & -> & ->) end.
  cbn. destruct (del_marked_rest b key ts) as (_ & _ & _ & _ & _ & _ & -> & ->). done.
Qed.

Lemma resolved_fences b key a now :
  uncertain_keys (resolved b key a now) = delete key (uncertain_keys b) ∧
  uncertainty_epoch (resolved b key a now) = uncertainty_epoch b.
Proof.
  unfold resolved.
  match goal with |- context [touch ?x key] => destruct (touch_rest x key) as (_ & _ & _ & _ & _ & _ & -> & ->) end.
  destruct a as [e|]; cbn.
  - destruct (inserted_rest (with_gone b (Gone.remove (gone b) key).2) key e) as (_ & _ & _ & _ & _ & -> & ->). done.
  - destruct (row_removed_rest (with_gone b (Gone.raise (gone b) key now)) key) as (_ & _ & _ & _ & _ & -> & ->). done.
Qed.

Lemma sync_rows_fences b t rows :
  let b' := (foldl sync_row (b, t) rows).1 in
  uncertain_keys b' = uncertain_keys b ∧ uncertainty_epoch b' = uncertainty_epoch b ∧
  rebuild_touched b' = rebuild_touched b ∧ rebuild_generation b' = rebuild_generation b ∧
  sync_generation b' = sync_generation b ∧ synced b' = synced b ∧ gone b' = gone b.
Proof.
  revert b t. induction rows as [|row rows IH]; intros b t; [done|]. cbn [foldl].
  destruct (sync_row_cases b t row) as [->|(-> & _)]; [apply IH|].
  destruct (inserted_rest b row.1 row.2) as (H1 & H2 & H3 & H4 & H5 & H6 & H7).
  destruct (IH (inserted b row.1 row.2) (Stats.replace t (row_stats (kr_map (keys b) !! row.1))
    (Stats.for_entry row.2))) as (-> & -> & -> & -> & -> & -> & ->). done.
Qed.

(** A definitive put or delete of the key is not outranked: it is the first of a running
    rebuild to touch the key, or nothing known of the key is later (for a put, no tombstone
    is as late either). *)
Definition put_wins b key ts : bool :=
  first_rebuild b key ||
  (is_none_or (λ dead, dead <? ts) (gr_map (gone b) !! key) && is_none_or (λ e, last_modified e <=? ts) (kr_map (keys b) !! key)).
Definition del_wins b key ts : bool :=
  first_rebuild b key ||
  (is_none_or (λ dead, dead <=? ts) (gr_map (gone b) !! key) && is_none_or (λ e, last_modified e <=? ts) (kr_map (keys b) !! key)).

(** What is left of the fence [t] of a key. *)
Definition fence_after s bucket key t (ev : index_event) : option Z :=
  let b := bucket_or_default s bucket in
  let here bk k := bool_decide (bk = bucket ∧ k = key) in
  match ev with
  | EvPut bk k e a id =>
      if here bk k && definitive a && (note_identity s id).1 && put_wins b key (last_modified e) then None else Some t
  | EvDel bk k ts id _ => if here bk k && (note_identity s id).1 && del_wins b key ts then None else Some t
  | EvFence bk k | EvFenceOwn bk k _ => if here bk k then Some (uncertainty_epoch b + 1) else Some t
  | EvFenceNative bk k cut => if here bk k && (note_native_cut s cut).1 then Some (uncertainty_epoch b + 1) else Some t
  | EvResolve bk k token _ _ => if here bk k && bool_decide (token = t) then None else Some t
  | EvRemove bk => if bool_decide (bk = bucket) then None else Some t
  | _ => Some t
  end.

Lemma fence_key_fences s bk k token s' bucket key :
  fence_key s bk k = Some (token, s') →
  fences s' bucket !! key =
    if bool_decide (bk = bucket ∧ k = key) then Some (uncertainty_epoch (bucket_or_default s bucket) + 1) else fences s bucket !! key.
Proof.
  intros (-> & _ & ->)%fence_key_spec. unfold fences, invalidate_capture_for_rebuild. autorewrite with bod.
  destruct (decide (bk = bucket)) as [->|Hb]; [|by rewrite bool_decide_eq_false_2 by naive_solver]. cbn.
  destruct (decide (k = key)) as [->|Hk]; [by rewrite bool_decide_eq_true_2, lookup_insert_eq|].
  by rewrite bool_decide_eq_false_2, lookup_insert_ne by naive_solver.
Qed.

Lemma same_rows_fences s s' bucket : same_rows s s' → fences s' bucket = fences s bucket.
Proof. intros H. unfold fences. by rewrite (same_rows_default s s'). Qed.

Lemma put_rejects_wins b key e : put_rejects b key e DefinitiveMutation = negb (put_wins b key (last_modified e)).
Proof.
  unfold put_rejects, put_wins, Gone.get, Keys.get. cbn. rewrite orb_false_r. destruct (first_rebuild b key); [done|]. cbn.
  rewrite negb_andb. f_equal; [destruct (gr_map _ !! key)|destruct (kr_map _ !! key)]; cbn; try done; lia.
Qed.

Lemma put_fences s bk k e a id bucket key :
  fences (apply_put_with_authority s bk k e a id).2 bucket !! key =
    if bool_decide (bk = bucket ∧ k = key) && definitive a && (note_identity s id).1
       && put_wins (bucket_or_default s bucket) key (last_modified e)
    then None else fences s bucket !! key.
Proof.
  destruct (put_outcome_spec s bk k e a id) as [Hd|Hf Hr|Hf Hr]; cbn [snd].
  - rewrite (same_rows_fences s) by apply note_identity_same. by rewrite Hd, andb_false_r.
  - destruct (bool_decide_reflect (bk = bucket ∧ k = key)) as [[-> ->]|Hne]; cbn [andb].
    + destruct a; cbn [definitive andb]; [|unfold fences; by autorewrite with bod; rewrite decide_True].
      rewrite put_rejects_wins in Hr. apply negb_true_iff in Hr. rewrite Hr, andb_false_r.
      unfold fences. autorewrite with bod. by rewrite decide_True.
    + unfold fences. autorewrite with bod. case_decide; [by subst|done].
  - unfold fences. autorewrite with bod. case_decide as Hb; [subst bk|by rewrite bool_decide_eq_false_2 by naive_solver].
    rewrite (proj1 (put_bucket_fences _ _ _ _)). destruct a; cbn [definitive]; [|by rewrite andb_false_r].
    rewrite put_rejects_wins in Hr. apply negb_false_iff in Hr. rewrite Hf.
    destruct (bool_decide_reflect (bucket = bucket ∧ k = key)) as [[_ ->]|Hne]; cbn [andb].
    + by rewrite Hr, lookup_delete_eq.
    + by rewrite lookup_delete_ne by naive_solver.
Qed.

(** Whether a sweep ran does not change what outranks a delete: it forgets no tombstone
    later than it. *)
Lemma del_stale_wins b c key ts sweep : del_stale (del_swept b c ts sweep) key ts = negb (del_wins b key ts).
Proof.
  unfold del_stale, del_wins. rewrite first_rebuild_swept.
  destruct (del_swept_rest b c ts sweep) as (Hk & _). rewrite Hk. unfold Keys.get, Gone.get.
  destruct (first_rebuild b key); [done|]. cbn [negb andb orb]. rewrite negb_andb, orb_comm. f_equal.
  2:{ destruct (kr_map _ !! key); cbn; [lia|done]. }
  assert (Hs : ∀ dead, ts < dead → gr_map (gone (del_swept b c ts sweep)) !! key = Some dead ↔ gr_map (gone b) !! key = Some dead).
  { intros dead Hd. unfold del_swept. destruct (_ && _); [|done]. destruct (time_checked_sub ts TOMBSTONE_TTL) as [cutoff|] eqn:Ec; [|done].
    cbn. split; [by intros ?%sweep_subset|]. intros H. apply sweep_keeps; [done|].
    unfold time_checked_sub in Ec. case_match; [|done]. injection Ec as <-. assert (0 <= TOMBSTONE_TTL) by (vm_compute; discriminate). lia. }
  destruct (gr_map (gone b) !! key) as [d|] eqn:Eb; cbn.
  - destruct (Z.ltb_spec ts d) as [Hlt|Hge].
    + rewrite (proj2 (Hs d Hlt) eq_refl). cbn. lia.
    + destruct (gr_map (gone (del_swept _ _ _ _)) !! key) as [d'|] eqn:Es; cbn; [|lia].
      destruct (Z.ltb_spec ts d') as [Hlt'|]; [|lia]. pose proof (proj1 (Hs d' Hlt') eq_refl) as [= <-]. lia.
  - destruct (gr_map (gone (del_swept _ _ _ _)) !! key) as [d'|] eqn:Es; cbn; [|done].
    destruct (Z.ltb_spec ts d') as [Hlt'|]; [|done]. by pose proof (proj1 (Hs d' Hlt') eq_refl).
Qed.

Lemma del_fences s bk k ts id sweep bucket key :
  fences (apply_del_with_identity s bk k ts id sweep).2 bucket !! key =
    if bool_decide (bk = bucket ∧ k = key) && (note_identity s id).1 && del_wins (bucket_or_default s bucket) key ts
    then None else fences s bucket !! key.
Proof.
  destruct (del_outcome_spec s bk k ts id sweep) as [Hd|b Hb Hf Hr|b Hb Hf Hr]; cbn [snd].
  - rewrite (same_rows_fences s) by apply note_identity_same. by rewrite Hd, andb_false_r.
  - rewrite Hb, del_stale_wins in Hr. apply negb_true_iff in Hr. unfold fences. autorewrite with bod.
    case_decide as Hbk; [|by rewrite bool_decide_eq_false_2 by naive_solver]. subst bk b.
    destruct (del_marked_rest (del_swept (bucket_or_default s bucket) (capture (prepared s bucket id)) ts sweep) k ts)
      as (_ & _ & _ & _ & _ & _ & _ & ->).
    destruct (del_swept_rest (bucket_or_default s bucket) (capture (prepared s bucket id)) ts sweep)
      as (_ & _ & _ & _ & _ & _ & _ & ->).
    destruct (bool_decide_reflect (bucket = bucket ∧ k = key)) as [[_ ->]|]; [|done]. by rewrite Hr, andb_false_r.
  - rewrite Hb, del_stale_wins in Hr. apply negb_false_iff in Hr. unfold fences. autorewrite with bod.
    case_decide as Hbk; [|by rewrite bool_decide_eq_false_2 by naive_solver]. subst bk.
    rewrite (proj1 (del_bucket_fences _ _ _)).
    destruct (del_swept_rest (bucket_or_default s bucket) (capture (prepared s bucket id)) ts sweep)
      as (_ & _ & _ & _ & _ & _ & _ & Hun). rewrite Hb, Hun.
    destruct (bool_decide_reflect (bucket = bucket ∧ k = key)) as [[_ ->]|]; cbn [andb].
    + by rewrite Hf, Hr, lookup_delete_eq.
    + by rewrite lookup_delete_ne by naive_solver.
Qed.
End fences.

Section fence_theorems.
Context {L : Layout}.
Implicit Types (s : KeyIndexState) (b : BucketState) (e : ObjEntry).

Lemma exec_fence_native s bk k cut s' :
  exec s (EvFenceNative bk k cut) = Some s' →
  (note_native_cut s cut).1 = false ∧ s' = (note_native_cut s cut).2 ∨
  (note_native_cut s cut).1 = true ∧ ∃ t, fence_key (note_native_cut s cut).2 bk k = Some (t, s').
Proof.
  cbn. unfold fence_uncertain_key_native. destruct (note_native_cut s cut) as [fresh s1]. cbn.
  intros ([o s2] & Hx & ->)%fmap_Some. destruct fresh; [|left; by injection Hx as <- <-].
  apply bind_Some in Hx as ([t s3] & Hx & [= <- <-]). right. split; [done|by exists t].
Qed.

Lemma exec_fence_own s bk k cut s' :
  exec s (EvFenceOwn bk k cut) = Some s' → ∃ t, fence_key (note_native_cut s cut).2 bk k = Some (t, s').
Proof.
  cbn. intros ([[t u] s2] & Hx & ->)%fmap_Some. unfold fence_own_uncertain_key in Hx. cbn in Hx.
  apply bind_Some in Hx as ([t' s3] & Hx & [= <- <- <-]). by exists t'.
Qed.

Lemma skip_gap_same s cut : same_rows s (skip_native_gap s cut).
Proof. unfold skip_native_gap. by repeat case_match. Qed.

Lemma register_same s cut : same_rows s (register_native_writer s cut).
Proof. unfold register_native_writer. by repeat case_match. Qed.

Lemma renew_same s sealed epoch : same_rows s (renew_native_writer s sealed epoch).
Proof. unfold renew_native_writer. by repeat case_match. Qed.

Lemma seal_same s cut : same_rows s (note_native_seal s cut).
Proof.
  unfold note_native_seal. pose proof (note_native_cut_same s cut) as H.
  destruct (note_native_cut s cut) as [[] s1]; done.
Qed.

Lemma discard_bod s bucket :
  bucket_or_default (discard_buckets s) bucket =
    match buckets s !! bucket with Some b => discarded b | None => BucketState_default end.
Proof.
  unfold bucket_or_default, discard_buckets. cbn. rewrite lookup_fmap. by destruct (buckets s !! bucket).
Qed.

Lemma remove_bucket_bod s bk bucket :
  bucket_or_default (remove_bucket s bk) bucket =
    if decide (bk = bucket) then BucketState_default else bucket_or_default s bucket.
Proof.
  unfold remove_bucket.
  set (s1 := if is_some (buckets s !! bk) then _ else s).
  assert (Hs1 : buckets s1 = buckets s) by (subst s1; by destruct (is_some _)). clearbody s1.
  rewrite Hs1. unfold bucket_or_default. destruct (buckets s !! bk) as [b|] eqn:E; cbn.
  - case_decide; [subst; by rewrite lookup_delete_eq|by rewrite lookup_delete_ne].
  - rewrite Hs1. case_decide; [subst; by rewrite E|done].
Qed.

Lemma complete_bod s bk k fill bucket :
  let b := bucket_or_default s bucket in
  let b' := bucket_or_default (complete_entry s bk k fill).2 bucket in
  gone b' = gone b ∧ synced b' = synced b ∧ sync_generation b' = sync_generation b ∧
  rebuild_generation b' = rebuild_generation b ∧ rebuild_touched b' = rebuild_touched b ∧
  uncertainty_epoch b' = uncertainty_epoch b ∧ uncertain_keys b' = uncertain_keys b.
Proof.
  cbn zeta. rewrite complete_spec. destruct (buckets s !! bk) as [b|] eqn:E; [|done]. cbn zeta.
  assert (Hb : bucket_or_default s bk = b) by (unfold bucket_or_default; by rewrite E).
  destruct (kr_map (keys b) !! k) as [e|]; [destruct (same_version e fill), (bool_decide (filled_entry fill e = e))|];
    cbn [snd]; autorewrite with bod; case_decide; subst; done.
Qed.

(** Events that concern no fence. *)
Definition fence_neutral (ev : index_event) : bool :=
  match ev with
  | EvResync _ | EvPage _ _ _ | EvFinish _ _ | EvComplete _ _ _ | EvGap _ | EvRegister _
  | EvSeal _ | EvRenew _ _ | EvCapture _ => true
  | _ => false
  end.

Lemma neutral_fences s ev s' bucket :
  exec s ev = Some s' → fence_neutral ev = true →
  fences s' bucket = fences s bucket ∧ epoch_of s' bucket = epoch_of s bucket.
Proof.
  intros Hx Hn. destruct ev; try done; injection Hx as <-; unfold fences, epoch_of.
  - unfold begin_bucket_resync. autorewrite with bod. cbn. case_decide; [by subst|done].
  - rewrite sync_listing_spec. cbn zeta.
    destruct (owns_rebuild _ _); cbn [snd]; [|autorewrite with bod; case_decide; by subst].
    unfold sync_page, invalidate_capture_for_rebuild. autorewrite with bod.
    pose proof (sync_rows_fences (bucket_or_default s bucket0) (i_stats (invalidate_capture s IRebuild)) rows)
      as (H & H' & _).
    destruct (foldl _ _ _) as [b tt]. cbn in H, H'. autorewrite with bod.
    case_decide; [subst; by rewrite H, H'|done].
  - unfold finish_bucket_sync_generation.
    destruct (owns_rebuild _ _); cbn; autorewrite with bod; case_decide; by subst.
  - by destruct (complete_bod s bucket0 key fill bucket) as (_ & _ & _ & _ & _ & -> & ->).
  - unfold discard_for_gap. rewrite discard_bod, (proj1 (skip_gap_same s missed_through)).
    unfold bucket_or_default. by destruct (buckets s !! bucket).
  - by rewrite (same_rows_default s _ bucket (register_same s cut)).
  - by rewrite (same_rows_default s _ bucket (seal_same s cut)).
  - by rewrite (same_rows_default s _ bucket (renew_same s sealed epoch)).
  - done.
Qed.

Lemma resolve_fences s bk k tok a now bucket key t :
  fences s bucket !! key = Some t →
  fences (resolve_uncertain_key s bk k tok a now).2 bucket !! key =
    if bool_decide (bk = bucket ∧ k = key) && bool_decide (tok = t) then None else Some t.
Proof.
  intros Ht. rewrite resolve_spec. unfold fences in *. unfold bucket_or_default in Ht.
  destruct (buckets s !! bk) as [b|] eqn:Eb.
  2:{ cbn [snd]. rewrite (bool_decide_eq_false_2 (_ ∧ _)); [exact Ht|]. intros [-> _]. by rewrite Eb in Ht. }
  destruct (decide (bk = bucket)) as [->|Hb].
  2:{ rewrite (bool_decide_eq_false_2 (_ ∧ _)) by naive_solver. case_bool_decide; [|exact Ht]. cbn [snd]. autorewrite with bod.
      by rewrite decide_False. }
  rewrite Eb in Ht. cbn in Ht. case_bool_decide as Htok; cbn [snd].
  - autorewrite with bod. rewrite decide_True, (proj1 (resolved_fences _ _ _ _)) by done.
    destruct (decide (k = key)) as [->|Hk].
    + rewrite Htok in Ht. injection Ht as ->. by rewrite !bool_decide_eq_true_2, lookup_delete_eq.
    + by rewrite (bool_decide_eq_false_2 (_ ∧ _)), lookup_delete_ne by naive_solver.
  - unfold bucket_or_default. rewrite Eb. cbn. destruct (decide (k = key)) as [->|Hk].
    + rewrite (bool_decide_eq_false_2 (tok = t)), andb_false_r; [done|]. intros ->. by rewrite Ht in Htok.
    + by rewrite (bool_decide_eq_false_2 (_ ∧ _)) by naive_solver.
Qed.

(** [C7] A fence is held until it is properly released: after any operation, a key fenced
    with token [t] is fenced with exactly [t], but for these: a definitive put or delete of
    the key, from a feed position past its writer's and not outranked by what is known of
    the key, a resolution carrying exactly [t] and the removal of the bucket end the fence,
    and a new fence replaces the token by the bucket's next.  Observations, outranked or
    duplicate mutations, LIST pages, finished rebuilds, resyncs, gap discards, completions
    and stale resolutions leave it. *)
Theorem fence_held s ev s' bucket key t :
  exec s ev = Some s' → fences s bucket !! key = Some t → fences s' bucket !! key = fence_after s bucket key t ev.
Proof.
  intros Hx Ht. destruct (fence_neutral ev) eqn:En.
  { rewrite (proj1 (neutral_fences s ev s' bucket Hx En)), Ht. by destruct ev. }
  destruct ev as [bk k e a id|bk k ts id sw|bk k|bk k cut|bk k cut|bk k tok a now| | | | | |bk| | | | ];
    try done; unfold fence_after; cbn zeta.
  - injection Hx as <-. by rewrite put_fences, Ht.
  - injection Hx as <-. by rewrite del_fences, Ht.
  - apply fmap_Some in Hx as ([tk s1] & Hx & ->). cbn [snd]. by rewrite (fence_key_fences _ _ _ _ _ bucket key Hx), Ht.
  - pose proof (note_native_cut_same s cut) as Hsame. apply exec_fence_native in Hx as [[Hf ->]|[Hf [tk Hx]]]; rewrite Hf.
    + rewrite andb_false_r. by rewrite (same_rows_fences s _ bucket Hsame).
    + rewrite (fence_key_fences _ _ _ _ _ bucket key Hx), (same_rows_fences s _ bucket Hsame), (same_rows_default s _ bucket Hsame), Ht.
      by rewrite andb_true_r.
  - pose proof (note_native_cut_same s cut) as Hsame. apply exec_fence_own in Hx as [tk Hx].
    by rewrite (fence_key_fences _ _ _ _ _ bucket key Hx), (same_rows_fences s _ bucket Hsame), (same_rows_default s _ bucket Hsame), Ht.
  - injection Hx as <-. by apply resolve_fences.
  - injection Hx as <-. unfold fences in *. rewrite remove_bucket_bod. case_decide; [by rewrite bool_decide_eq_true_2|].
    by rewrite bool_decide_eq_false_2.
Qed.

(** *** Token allocation *)

Fixpoint run s (evs : list index_event) : option KeyIndexState :=
  match evs with
  | [] => Some s
  | ev :: evs => s' ← exec s ev; run s' evs
  end.

Lemma run_app s evs1 evs2 : run s (evs1 ++ evs2) = s ← run s evs1; run s evs2.
Proof using.
  revert s. induction evs1 as [|ev evs1 IH]; intros s; cbn; [done|].
  destruct (exec s ev); cbn; [apply IH|done].
Qed.

Lemma fence_key_epoch s bk k t s' bucket :
  fence_key s bk k = Some (t, s') → epoch_of s bucket <= epoch_of s' bucket.
Proof.
  intros (-> & _ & ->)%fence_key_spec. unfold epoch_of, invalidate_capture_for_rebuild.
  autorewrite with bod. case_decide; [subst; cbn; lia|done].
Qed.

Lemma epoch_mono s ev s' bucket :
  exec s ev = Some s' → ev ≠ EvRemove bucket → epoch_of s bucket <= epoch_of s' bucket.
Proof.
  intros Hx Hrm. destruct (fence_neutral ev) eqn:En.
  { by rewrite (proj2 (neutral_fences s ev s' bucket Hx En)). }
  destruct ev as [bk k e a id|bk k ts id sw|bk k|bk k cut|bk k cut|bk k tok a now| | | | | |bk| | | | ];
    try done.
  - injection Hx as <-. destruct (put_outcome_spec s bk k e a id) as [Hd|Hf Hr|Hf Hr]; cbn [snd]; unfold epoch_of.
    + by rewrite (same_rows_default s _ bucket (note_identity_same s id)).
    + autorewrite with bod. by case_decide; [subst|].
    + autorewrite with bod. case_decide; [subst|done]. by rewrite (proj2 (put_bucket_fences _ _ _ _)).
  - injection Hx as <-. destruct (del_outcome_spec s bk k ts id sw) as [Hd|b Hb Hf Hr|b Hb Hf Hr]; cbn [snd]; unfold epoch_of.
    + by rewrite (same_rows_default s _ bucket (note_identity_same s id)).
    + autorewrite with bod. case_decide; [subst bk b|done].
      destruct (del_marked_rest (del_swept (bucket_or_default s bucket) (capture (prepared s bucket id)) ts sw) k ts)
        as (_ & _ & _ & _ & _ & _ & -> & _).
      by destruct (del_swept_rest (bucket_or_default s bucket) (capture (prepared s bucket id)) ts sw)
        as (_ & _ & _ & _ & _ & _ & -> & _).
    + autorewrite with bod. case_decide; [subst bk b|done]. rewrite (proj2 (del_bucket_fences _ _ _)).
      by destruct (del_swept_rest (bucket_or_default s bucket) (capture (prepared s bucket id)) ts sw)
        as (_ & _ & _ & _ & _ & _ & -> & _).
  - apply fmap_Some in Hx as ([tk s1] & Hx & ->). by eapply fence_key_epoch.
  - assert (epoch_of (note_native_cut s cut).2 bucket = epoch_of s bucket) as He
      by (unfold epoch_of; by rewrite (same_rows_default s _ bucket (note_native_cut_same s cut))).
    apply exec_fence_native in Hx as [[_ ->]|[_ [tk Hx]]]; [by rewrite He|].
    rewrite <- He. by eapply fence_key_epoch.
  - assert (epoch_of (note_native_cut s cut).2 bucket = epoch_of s bucket) as He
      by (unfold epoch_of; by rewrite (same_rows_default s _ bucket (note_native_cut_same s cut))).
    apply exec_fence_own in Hx as [tk Hx]. rewrite <- He. by eapply fence_key_epoch.
  - injection Hx as <-. rewrite resolve_spec. destruct (buckets s !! bk) as [b|] eqn:Eb; [|done].
    case_bool_decide; [|done]. cbn [snd]. unfold epoch_of. autorewrite with bod. case_decide; [subst bk|done].
    rewrite (proj2 (resolved_fences _ _ _ _)). unfold bucket_or_default. by rewrite Eb.
  - injection Hx as <-. unfold epoch_of. rewrite remove_bucket_bod, decide_False; [done|congruence].
Qed.

Lemma run_epoch_mono s evs s' bucket :
  run s evs = Some s' → EvRemove bucket ∉ evs → epoch_of s bucket <= epoch_of s' bucket.
Proof.
  revert s. induction evs as [|ev evs IH]; intros s Hr Hno; cbn in Hr.
  { injection Hr as <-. done. }
  apply bind_Some in Hr as (s1 & Hx & Hr). apply not_elem_of_cons in Hno as [Hne Hno].
  etrans; [eapply epoch_mono; [done|congruence]|by apply IH].
Qed.

(** A fence token is never handed out twice while its bucket exists: after
    any run of operations that does not remove the bucket, every later fence in
    the bucket gets a strictly larger token. *)
Theorem fence_token_fresh s bucket key t s1 evs s2 key' t' s3 :
  fence_key s bucket key = Some (t, s1) → run s1 evs = Some s2 → EvRemove bucket ∉ evs →
  fence_key s2 bucket key' = Some (t', s3) → t < t'.
Proof.
  intros (-> & _ & ->)%fence_key_spec Hr Hno (-> & _ & ->)%fence_key_spec.
  pose proof (run_epoch_mono _ _ _ bucket Hr Hno) as Hm. unfold epoch_of, invalidate_capture_for_rebuild in Hm.
  autorewrite with bod in Hm. rewrite decide_True in Hm by done. cbn in Hm. lia.
Qed.

(** [C38] Removing a bucket forgets its token epoch: the first fence after a
    [DeleteBucket] gets token 1 again, so it can equal a token an outstanding
    reconciliation of the old bucket still holds, and that reconciliation's
    answer would resolve the new fence. *)
Theorem token_reused_after_remove s bucket key :
  ∃ s', fence_key (remove_bucket s bucket) bucket key = Some (1, s') ∧
    ∀ a now, (resolve_uncertain_key s' bucket key 1 a now).1 = true.
Proof.
  eexists. split.
  - apply fence_key_spec. rewrite remove_bucket_bod, decide_True by done. cbn. done.
  - intros a now. rewrite resolve_spec. cbn. rewrite lookup_insert_eq. cbn.
    by rewrite lookup_insert_eq, bool_decide_true.
Qed.
End fence_theorems.

(** ** Concrete runs *)

#[local] Existing Instance layout64.

Definition demo_entry (t : Z) : ObjEntry :=
  mkObjEntry (Some 42) t (Some (Strong "abc")) "STANDARD" None None.

Definition demo_fenced : KeyIndexState :=
  default KeyIndexState_default
    (run KeyIndexState_default
       [EvPut "photos" "a" (demo_entry 10) DefinitiveMutation None; EvFence "photos" "k"]).

Lemma reachable_wf_witness :
  index_wf (apply_put KeyIndexState_default "photos" "a" (demo_entry 10)).2.
Proof.
  apply reachable_wf.
  apply (reach_step KeyIndexState_default (EvPut "photos" "a" (demo_entry 10) DefinitiveMutation None));
    [apply reach_init|].
  split; [reflexivity|exact I|]. split; by vm_compute.
Defined.

Lemma fence_held_witness :
  ∃ s', exec demo_fenced (EvResync "photos") = Some s' ∧ fences s' "photos" !! "k" = Some 1.
Proof.
  eexists. split; [reflexivity|].
  exact (fence_held demo_fenced (EvResync "photos") _ "photos" "k" 1 eq_refl ltac:(by vm_compute)).
Defined.

Definition demo_refenced : KeyIndexState :=
  default KeyIndexState_default (snd <$> fence_key demo_fenced "photos" "k").

Definition demo_resynced : KeyIndexState :=
  default KeyIndexState_default
    (run demo_refenced [EvResolve "photos" "k" 2 KeyAbsent 20; EvResync "photos"]).

Lemma fence_token_fresh_witness :
  fence_key demo_fenced "photos" "k" = Some (2, demo_refenced) ∧ 2 < 3.
Proof.
  split; [vm_compute; reflexivity|].
  apply (fence_token_fresh demo_fenced "photos" "k" 2 demo_refenced
    [EvResolve "photos" "k" 2 KeyAbsent 20; EvResync "photos"] demo_resynced "k" 3
    (default KeyIndexState_default (snd <$> fence_key demo_resynced "photos" "k")));
    [vm_compute; reflexivity|vm_compute; reflexivity| |vm_compute; reflexivity].
  intros H. by repeat (apply elem_of_cons in H as [H|H]; [discriminate H|]); apply elem_of_nil in H.
Defined.
