(* ===== verification/IndexLww.v ===== *)
(** * Last-writer-wins refinement

    Seen from one key, a bucket is a register: the live entry and the latest
    tombstone.  Outside a rebuild every put and delete acts on that register
    alone, and any sequence of them leaves the abstract last-writer-wins value:
    the latest delete, and the latest put if it is later.  So two nodes that
    applied the same writes in different orders agree. *)

From S2P Require Import Prelude.
From S2P Require Import ObjTypes.
From S2P Require Import ImageCodec.
From S2P Require Import Rows.
From S2P Require Import IndexCapture.
From S2P Require Import KeyIndex.
From S2P Require Import IndexWf.
From S2P Require Import IndexSteps.
From S2P Require Import IndexInv.
From S2P Require Import IndexMachine.

(** ** The register *)

Record reg := mkReg { live : option ObjEntry; dead : option Z }.

Definition reg_empty : reg := mkReg None None.

Definition later (a : option Z) (t : Z) : option Z :=
  Some (match a with Some d => Z.max d t | None => t end).

Inductive write := WPut (e : ObjEntry) | WDel (ts : Z).

Definition reg_write (r : reg) (w : write) : reg :=
  match w with
  | WPut e =>
      if is_some_and (λ d, last_modified e <=? d) (dead r) then r
      else if is_some_and (λ o, last_modified e <? last_modified o) (live r) then r
      else mkReg (Some e) (dead r)
  | WDel ts =>
      if is_some_and (λ o, ts <? last_modified o) (live r)
         || is_some_and (λ d, ts <? d) (dead r)
      then mkReg (live r) (later (dead r) ts)
      else mkReg None (later (dead r) ts)
  end.

(** A tombstone never covers the live entry. *)
Definition reg_ok (r : reg) : Prop :=
  ∀ e d, live r = Some e → dead r = Some d → d < last_modified e.

(** ** The specification *)

(** The latest delete of a sequence of writes. *)
Fixpoint last_del (ws : list write) : option Z :=
  match ws with
  | [] => None
  | WPut _ :: ws => last_del ws
  | WDel t :: ws => Some (match last_del ws with Some d => Z.max t d | None => t end)
  end.

(** The latest put, the last of those at that time. *)
Fixpoint best_put (acc : option ObjEntry) (ws : list write) : option ObjEntry :=
  match ws with
  | [] => acc
  | WPut e :: ws =>
      best_put (if is_some_and (λ o, last_modified e <? last_modified o) acc then acc else Some e) ws
  | WDel _ :: ws => best_put acc ws
  end.

Definition lww (ws : list write) : reg :=
  let d := last_del ws in
  mkReg (match best_put None ws with
         | Some e => if is_some_and (λ d, last_modified e <=? d) d then None else Some e
         | None => None
         end) d.

Lemma last_del_app ws w :
  last_del (ws ++ [w]) = match w with WPut _ => last_del ws | WDel t => later (last_del ws) t end.
Proof.
  induction ws as [|[e|t] ws IH]; cbn; [by destruct w|done|]. rewrite IH. destruct w as [e'|t'].
  - done.
  - unfold later. destruct (last_del ws); f_equal; lia.
Qed.

Lemma best_put_app acc ws w :
  best_put acc (ws ++ [w]) =
    match w with
    | WPut e => if is_some_and (λ o, last_modified e <? last_modified o) (best_put acc ws)
                then best_put acc ws else Some e
    | WDel _ => best_put acc ws
    end.
Proof. revert acc. induction ws as [|[e|t] ws IH]; intros acc; cbn; [by destruct w|apply IH|apply IH]. Qed.

(** One more write keeps the register at its specification. *)
Lemma lww_snoc ws w : lww (ws ++ [w]) = reg_write (lww ws) w.
Proof.
  unfold lww. rewrite last_del_app, best_put_app. set (d := last_del ws). set (p := best_put None ws).
  destruct w as [e|t]; cbn.
  - destruct d as [d|], p as [p|]; cbn;
      repeat match goal with
             | |- context [?a <=? ?b] => destruct (Z.leb_spec a b); cbn
             | |- context [?a <? ?b] => destruct (Z.ltb_spec a b); cbn
             end; try done; lia.
  - destruct d as [d|], p as [p|]; cbn;
      repeat match goal with
             | |- context [?a <=? ?b] => destruct (Z.leb_spec a b); cbn
             | |- context [?a <? ?b] => destruct (Z.ltb_spec a b); cbn
             end; try done; lia.
Qed.

Lemma lww_foldl ws : foldl reg_write reg_empty ws = lww ws.
Proof.
  induction ws as [|w ws IH] using rev_ind; [done|]. rewrite foldl_app. cbn. by rewrite IH, lww_snoc.
Qed.

(** *** Order independence *)

Definition puts (ws : list write) : list ObjEntry :=
  omap (λ w, match w with WPut e => Some e | WDel _ => None end) ws.

(** Puts at the same time carry the same entry. *)
Definition put_times_unique (ws : list write) : Prop :=
  ∀ e1 e2, e1 ∈ puts ws → e2 ∈ puts ws → last_modified e1 = last_modified e2 → e1 = e2.

Lemma last_del_perm ws ws' : ws ≡ₚ ws' → last_del ws = last_del ws'.
Proof.
  induction 1 as [|[] ws ws' _ IH|[] [] ws|ws ws' ws'' _ IH1 _ IH2]; cbn;
    try done; try congruence; try (by rewrite IH).
  destruct (last_del ws); f_equal; lia.
Qed.

Lemma best_put_max acc ws p :
  best_put acc ws = Some p →
  (p ∈ puts ws ∨ acc = Some p) ∧
  (∀ o, acc = Some o → last_modified o <= last_modified p) ∧
  (∀ e, e ∈ puts ws → last_modified e <= last_modified p).
Proof.
  revert acc. induction ws as [|[e|t] ws IH]; intros acc; cbn.
  - intros ->. split_and!; [by right|by intros o [= ->]|]. intros e He. by apply elem_of_nil in He.
  - intros H. destruct (IH _ H) as (H1 & H2 & H3). change (puts (WPut e :: ws)) with (e :: puts ws).
    destruct acc as [o|]; cbn in *.
    + destruct (Z.ltb_spec (last_modified e) (last_modified o)).
      * specialize (H2 o eq_refl). split_and!; [set_solver|naive_solver|].
        intros e' [->|?]%elem_of_cons; [lia|auto].
      * specialize (H2 e eq_refl). split_and!; [set_solver|naive_solver lia|].
        intros e' [->|?]%elem_of_cons; [lia|auto].
    + specialize (H2 e eq_refl). split_and!; [set_solver|done|].
      intros e' [->|?]%elem_of_cons; [lia|auto].
  - apply IH.
Qed.

Lemma best_put_None acc ws : best_put acc ws = None → acc = None ∧ puts ws = [].
Proof.
  revert acc. induction ws as [|[e|t] ws IH]; intros acc; cbn; [done| |apply IH].
  intros H. apply IH in H as [H _]. by destruct (is_some_and _ acc) eqn:E; [destruct acc|].
Qed.

Lemma best_put_perm ws ws' :
  ws ≡ₚ ws' → put_times_unique ws → best_put None ws = best_put None ws'.
Proof.
  intros Hp Hu. assert (Hpp : puts ws ≡ₚ puts ws') by (unfold puts; by rewrite Hp).
  destruct (best_put None ws) as [p|] eqn:E1, (best_put None ws') as [p'|] eqn:E2; try done.
  - apply best_put_max in E1 as ([H1|?] & _ & M1); [|done].
    apply best_put_max in E2 as ([H2|?] & _ & M2); [|done].
    f_equal. apply Hu; [done|by rewrite Hpp|].
    assert (last_modified p <= last_modified p') by (apply M2; by rewrite <- Hpp).
    assert (last_modified p' <= last_modified p) by (apply M1; by rewrite Hpp). lia.
  - apply best_put_None in E2 as [_ E2]. apply best_put_max in E1 as ([H1|?] & _); [|done].
    rewrite Hpp, E2 in H1. by apply elem_of_nil in H1.
  - apply best_put_None in E1 as [_ E1]. apply best_put_max in E2 as ([H2|?] & _); [|done].
    rewrite <- Hpp, E1 in H2. by apply elem_of_nil in H2.
Qed.

Lemma lww_perm ws ws' : ws ≡ₚ ws' → put_times_unique ws → lww ws = lww ws'.
Proof. intros Hp Hu. unfold lww. by rewrite (last_del_perm ws ws' Hp), (best_put_perm ws ws' Hp Hu). Qed.

(** ** The index implements the register *)

Section refine.
Context {L : Layout}.
Implicit Types (s : KeyIndexState) (b : BucketState) (e : ObjEntry).

Definition reg_of b key : reg := mkReg (kr_map (keys b) !! key) (gr_map (gone b) !! key).

Definition quiet b : Prop := rebuild_generation b = None ∧ rebuild_touched b = ∅.

Lemma quiet_first b key : quiet b → first_rebuild b key = false.
Proof. intros [H _]. unfold first_rebuild. by rewrite H. Qed.

(** The put meets neither rebuild rule: the first definitive mutation of a
    rebuild, and an observation of a key already mutated. *)
Definition ordinary b key a : Prop :=
  definitive a && first_rebuild b key = false ∧
  negb (definitive a) && bool_decide (key ∈ rebuild_touched b) = false.

Lemma quiet_ordinary b key a : quiet b → ordinary b key a.
Proof.
  intros Hq. split; [by rewrite quiet_first, andb_false_r|]. destruct Hq as [_ ->].
  rewrite (bool_decide_false (key ∈ ∅)) by set_solver. by rewrite andb_false_r.
Qed.

Lemma put_rejects_reg b key e a :
  ordinary b key a → put_rejects b key e a =
    (is_some_and (λ d, last_modified e <=? d) (dead (reg_of b key))
     || is_some_and (λ o, last_modified e <? last_modified o) (live (reg_of b key))).
Proof. intros [H1 H2]. unfold put_rejects. by rewrite H1, H2, orb_false_r. Qed.

Lemma put_base_ordinary b key a : ordinary b key a → put_base b key a = b.
Proof. intros [H _]. unfold put_base. by rewrite H. Qed.

Lemma put_base_quiet b key a : quiet b → put_base b key a = b.
Proof. intros Hq. by apply put_base_ordinary, quiet_ordinary. Qed.

Lemma put_bucket_gone b key e a :
  gr_map (gone (put_bucket b key e a)) = gr_map (gone (put_base b key a)).
Proof.
  unfold put_bucket. destruct (inserted_rest (put_base b key a) key e) as (H & _).
  destruct (definitive a); [|by rewrite H].
  match goal with |- context [touch ?x key] => destruct (touch_rest x key) as (_ & -> & _) end.
  cbn. by rewrite H.
Qed.

Lemma put_reg b key e a k :
  ordinary b key a →
  reg_of (if put_rejects b key e a then b else put_bucket b key e a) k =
    if decide (k = key) then reg_write (reg_of b key) (WPut e) else reg_of b k.
Proof.
  intros Hq. rewrite put_rejects_reg by done. cbn.
  destruct (is_some_and _ (gr_map _ !! key)) eqn:E1; cbn [orb]; [case_decide; [by subst|done]|].
  destruct (is_some_and _ (kr_map _ !! key)) eqn:E2; [case_decide; [by subst|done]|].
  unfold reg_of. rewrite put_bucket_map, put_bucket_gone, put_base_ordinary by done.
  case_decide; [subst; by rewrite lookup_insert_eq|by rewrite lookup_insert_ne].
Qed.

Lemma del_stale_reg b key ts :
  first_rebuild b key = false → del_stale b key ts =
    (is_some_and (λ o, ts <? last_modified o) (live (reg_of b key))
     || is_some_and (λ d, ts <? d) (dead (reg_of b key))).
Proof. intros Hq. unfold del_stale. by rewrite Hq. Qed.

Lemma del_bucket_gone b key ts : gr_map (gone (del_bucket b key ts)) = gr_map (gone (del_marked b key ts)).
Proof.
  unfold del_bucket.
  match goal with |- context [row_removed ?x key] => destruct (row_removed_rest x key) as (-> & _) end.
  match goal with |- context [touch ?x key] => destruct (touch_rest x key) as (_ & -> & _) end. done.
Qed.

Lemma del_reg b key ts k :
  first_rebuild b key = false →
  reg_of (if del_stale b key ts then del_marked b key ts else del_bucket b key ts) k =
    if decide (k = key) then reg_write (reg_of b key) (WDel ts) else reg_of b k.
Proof.
  intros Hq. rewrite del_stale_reg by done. cbn.
  assert (Hg : ∀ k', gr_map (gone (del_marked b key ts)) !! k' =
    if decide (k' = key) then later (gr_map (gone b) !! key) ts else gr_map (gone b) !! k').
  { intros k'. rewrite del_marked_map, Hq.
    case_decide; [subst; by rewrite lookup_insert_eq|by rewrite lookup_insert_ne]. }
  destruct (_ || _); unfold reg_of; rewrite ?del_bucket_map, ?del_bucket_gone, ?del_marked_keys, Hg.
  - case_decide; [by subst|done].
  - case_decide; [subst; by rewrite lookup_delete_eq|by rewrite lookup_delete_ne].
Qed.

(** ** Runs of puts and deletes *)

Definition is_write (ev : index_event) : bool :=
  match ev with EvPut _ _ _ _ _ | EvDel _ _ _ _ _ => true | _ => false end.

Definition is_del (ev : index_event) : bool := match ev with EvDel _ _ _ _ _ => true | _ => false end.

(** A redelivered feed event is dropped by its native cut. *)
Definition duplicate s (ev : index_event) : bool :=
  match ev with
  | EvPut _ _ _ _ id | EvDel _ _ _ id _ => negb (note_identity s id).1
  | _ => false
  end.

(** What an event writes to one key. *)
Definition write_to (bucket key : string) (ev : index_event) : option write :=
  match ev with
  | EvPut bk k e _ _ => if decide (bk = bucket ∧ k = key) then Some (WPut e) else None
  | EvDel bk k ts _ _ => if decide (bk = bucket ∧ k = key) then Some (WDel ts) else None
  | _ => None
  end.

(** The writes a run delivers to one key, redelivered events left out. *)
Fixpoint delivered s (bucket key : string) (evs : list index_event) : list write :=
  match evs with
  | [] => []
  | ev :: evs =>
      let rest := match exec s ev with Some s' => delivered s' bucket key evs | None => [] end in
      if duplicate s ev then rest
      else match write_to bucket key ev with Some w => w :: rest | None => rest end
  end.

(** Tombstones the index can hold after [n] deletes, none of them swept. *)
Definition calm s (n : nat) : Prop :=
  ∀ bucket, quiet (bucket_or_default s bucket) ∧
    (base.size (gr_map (gone (bucket_or_default s bucket))) <= n)%nat.

Lemma quiet_rest b b' :
  rebuild_generation b' = rebuild_generation b → rebuild_touched b' = rebuild_touched b →
  quiet b → quiet b'.
Proof. unfold quiet. by intros -> ->. Qed.

Lemma put_bucket_quiet b key e a : quiet b → quiet (put_bucket b key e a).
Proof.
  intros Hq. unfold put_bucket. rewrite put_base_quiet by done.
  destruct (inserted_rest b key e) as (_ & _ & _ & Hr & Ht & _).
  assert (Hi : quiet (inserted b key e)) by by eapply quiet_rest.
  destruct (definitive a); [|done]. unfold touch. cbn. destruct Hi as [Hi1 Hi2].
  rewrite Hi1. cbn. done.
Qed.

Lemma del_quiet b key ts : quiet b → quiet (del_marked b key ts) ∧ quiet (del_bucket b key ts).
Proof.
  intros Hq. destruct (del_marked_rest b key ts) as (_ & _ & _ & _ & Hr & Ht & _).
  assert (Hm : quiet (del_marked b key ts)) by by eapply quiet_rest.
  split; [done|]. unfold del_bucket.
  match goal with |- context [row_removed ?x key] => destruct (row_removed_rest x key) as (_ & _ & _ & Hr' & Ht' & _) end.
  eapply quiet_rest; [done|done|]. unfold touch. cbn. destruct Hm as [Hm1 Hm2]. rewrite Hm1. cbn. done.
Qed.

Lemma no_sweep b c ts sw n :
  (base.size (gr_map (gone b)) <= n)%nat → Z.of_nat n <= TOMBSTONE_PRUNE_LEN → del_swept b c ts sw = b.
Proof.
  intros Hsz Hn. unfold del_swept, Gone.len. rewrite (proj2 (Z.ltb_ge _ _)) by lia.
  by rewrite andb_false_r.
Qed.

(** What a write does to the registers: [None] for a dropped duplicate. *)
Definition writes_reg s s' (bk k : string) (w : option write) : Prop :=
  ∀ bucket key, reg_of (bucket_or_default s' bucket) key =
    match (if decide (bk = bucket ∧ k = key) then w else None) with
    | Some w => reg_write (reg_of (bucket_or_default s bucket) key) w
    | None => reg_of (bucket_or_default s bucket) key
    end.

Lemma writes_reg_dup s s' bk k : same_rows s s' → writes_reg s s' bk k None.
Proof. intros H bucket key. rewrite (same_rows_default s s' bucket H). by case_decide. Qed.

(** The written bucket decides both the registers and the tombstone count. *)
Lemma write_view s s' bk k b' w n :
  (∀ name, bucket_or_default s' name = if decide (bk = name) then b' else bucket_or_default s name) →
  calm s n → quiet b' → (base.size (gr_map (gone b')) <= n)%nat →
  (∀ key, reg_of b' key = if decide (key = k) then reg_write (reg_of (bucket_or_default s bk) k) w
                          else reg_of (bucket_or_default s bk) key) →
  calm s' n ∧ writes_reg s s' bk k (Some w).
Proof.
  intros Hbod Hc Hq Hsz Hreg. split.
  - intros bucket. rewrite Hbod. case_decide; [done|apply Hc].
  - intros bucket key. rewrite Hbod. destruct (decide (bk = bucket)) as [->|Hne].
    + rewrite Hreg. destruct (decide (key = k)) as [->|?].
      * by rewrite decide_True.
      * rewrite decide_False by naive_solver. done.
    + rewrite decide_False by naive_solver. done.
Qed.

Lemma calm_mono s n m : calm s n → (n <= m)%nat → calm s m.
Proof. intros Hc Hle bucket. destruct (Hc bucket). split; [done|lia]. Qed.

Lemma put_calm s bk k e a id n :
  calm s n →
  let s' := (apply_put_with_authority s bk k e a id).2 in
  calm s' n ∧ writes_reg s s' bk k (if (note_identity s id).1 then Some (WPut e) else None).
Proof.
  intros Hc. cbn zeta. pose proof (λ key, put_reg (bucket_or_default s bk) k e a key (quiet_ordinary _ _ _ (proj1 (Hc bk)))) as Hreg.
  destruct (put_outcome_spec s bk k e a id) as [Hd|Hf Hr|Hf Hr]; cbn [snd]; rewrite ?Hd, ?Hf.
  - split; [|apply writes_reg_dup, note_identity_same].
    intros bucket. rewrite (same_rows_default s _ bucket (note_identity_same s id)). apply Hc.
  - rewrite Hr in Hreg. eapply write_view; [intros name; by autorewrite with bod|done|apply (Hc bk)|apply (Hc bk)|done].
  - rewrite Hr in Hreg. eapply write_view; [intros name; by autorewrite with bod|done|apply put_bucket_quiet, Hc| |done].
    rewrite put_bucket_gone, put_base_quiet by apply Hc. apply Hc.
Qed.

Lemma del_calm s bk k ts id sw n :
  calm s n → Z.of_nat n <= TOMBSTONE_PRUNE_LEN →
  let s' := (apply_del_with_identity s bk k ts id sw).2 in
  calm s' (S n) ∧ writes_reg s s' bk k (if (note_identity s id).1 then Some (WDel ts) else None).
Proof.
  intros Hc Hn. cbn zeta. pose proof (calm_mono s n (S n) Hc ltac:(lia)) as Hc'.
  pose proof (no_sweep (bucket_or_default s bk) (capture (prepared s bk id)) ts sw n (proj2 (Hc bk)) Hn) as Hsw.
  assert (Hsize : (base.size (gr_map (gone (del_marked (bucket_or_default s bk) k ts))) <= S n)%nat).
  { rewrite del_marked_map, map_size_insert. pose proof (proj2 (Hc bk)).
    destruct (gr_map (gone (bucket_or_default s bk)) !! k); cbn; lia. }
  pose proof (λ key, del_reg (bucket_or_default s bk) k ts key (quiet_first _ _ (proj1 (Hc bk)))) as Hreg.
  destruct (del_quiet (bucket_or_default s bk) k ts (proj1 (Hc bk))) as [Hq1 Hq2].
  destruct (del_outcome_spec s bk k ts id sw) as [Hd|b Hb Hf Hr|b Hb Hf Hr]; cbn [snd]; rewrite ?Hd, ?Hf;
    try (rewrite Hsw in Hb; subst b; rewrite Hr in Hreg).
  - split; [|apply writes_reg_dup, note_identity_same].
    intros bucket. rewrite (same_rows_default s _ bucket (note_identity_same s id)). apply Hc'.
  - eapply write_view; [intros name; by autorewrite with bod|done..].
  - eapply write_view; [intros name; by autorewrite with bod|done|done|by rewrite del_bucket_gone|done].
Qed.

Lemma calm_step s ev s' n :
  is_write ev = true → exec s ev = Some s' → calm s n →
  Z.of_nat n <= TOMBSTONE_PRUNE_LEN →
  calm s' (if is_del ev then S n else n) ∧
  ∀ bucket key, reg_of (bucket_or_default s' bucket) key =
    match (if duplicate s ev then None else write_to bucket key ev) with
    | Some w => reg_write (reg_of (bucket_or_default s bucket) key) w
    | None => reg_of (bucket_or_default s bucket) key
    end.
Proof.
  intros Hw Hx Hc Hn. destruct ev as [bk k e a id|bk k ts id sw| | | | | | | | | | | | | | ]; try done;
    injection Hx as <-; cbn [is_del duplicate write_to].
  - destruct (put_calm s bk k e a id n Hc) as [H1 H2]. split; [done|]. intros bucket key.
    rewrite (H2 bucket key). by destruct (note_identity s id).1, (decide (bk = bucket ∧ k = key)).
  - destruct (del_calm s bk k ts id sw n Hc Hn) as [H1 H2]. split; [done|]. intros bucket key.
    rewrite (H2 bucket key). by destruct (note_identity s id).1, (decide (bk = bucket ∧ k = key)).
Qed.

Definition del_count (evs : list index_event) : nat := length (filter (λ ev, is_del ev = true) evs).

Lemma run_reg s evs s' n bucket key :
  run s evs = Some s' → Forall (λ ev, is_write ev = true) evs → calm s n →
  Z.of_nat (n + del_count evs) <= TOMBSTONE_PRUNE_LEN →
  reg_of (bucket_or_default s' bucket) key =
    foldl reg_write (reg_of (bucket_or_default s bucket) key) (delivered s bucket key evs).
Proof.
  revert s n. induction evs as [|ev evs IH]; intros s n Hr Hall Hc Hn; cbn in Hr.
  { by injection Hr as <-. }
  apply bind_Some in Hr as (s1 & Hx & Hr). inversion Hall as [|? ? Hw Hall']; subst.
  assert (Hcount : del_count (ev :: evs) = ((if is_del ev then 1 else 0) + del_count evs)%nat).
  { unfold del_count. rewrite filter_cons. by destruct (is_del ev). }
  rewrite Hcount in Hn.
  destruct (calm_step s ev s1 n Hw Hx Hc) as [Hc1 Hreg]; [lia|].
  cbn [delivered]. rewrite Hx.
  rewrite (IH s1 _ Hr Hall' Hc1), (Hreg bucket key).
  - destruct (duplicate s ev); [done|]. by destruct (write_to bucket key ev).
  - destruct (is_del ev); lia.
Qed.

Lemma default_calm : calm KeyIndexState_default 0.
Proof. intros bucket. by split. Qed.

Lemma default_reg bucket key : reg_of (bucket_or_default KeyIndexState_default bucket) key = reg_empty.
Proof. done. Qed.
End refine.

Section lww_theorems.
Context {L : Layout}.

(** [C2] The index refines last-writer-wins registers: from an empty index, after
    any interleaving of puts (definitive or observed) and deletes over any
    buckets and keys, each key holds its latest delete as tombstone and its
    latest put if that is strictly later, redelivered feed events counted once.
    The bound on deletes is the length below which no tombstone is swept. *)
Theorem lww_refinement evs s bucket key :
  run KeyIndexState_default evs = Some s → Forall (λ ev, is_write ev = true) evs →
  Z.of_nat (del_count evs) <= TOMBSTONE_PRUNE_LEN →
  reg_of (bucket_or_default s bucket) key = lww (delivered KeyIndexState_default bucket key evs).
Proof.
  intros Hr Hall Hn. rewrite (run_reg _ evs s 0 bucket key Hr Hall default_calm) by done.
  by rewrite default_reg, lww_foldl.
Qed.

(** Nodes converge: two indexes that were delivered the same writes of a
    bucket in different orders (puts of one key at one time carrying one entry)
    hold the same rows and the same tombstones. *)
Theorem lww_convergence evs evs' s s' bucket :
  run KeyIndexState_default evs = Some s → Forall (λ ev, is_write ev = true) evs →
  run KeyIndexState_default evs' = Some s' → Forall (λ ev, is_write ev = true) evs' →
  Z.of_nat (del_count evs) <= TOMBSTONE_PRUNE_LEN →
  Z.of_nat (del_count evs') <= TOMBSTONE_PRUNE_LEN →
  (∀ key, delivered KeyIndexState_default bucket key evs ≡ₚ delivered KeyIndexState_default bucket key evs' ∧
          put_times_unique (delivered KeyIndexState_default bucket key evs)) →
  kr_map (keys (bucket_or_default s bucket)) = kr_map (keys (bucket_or_default s' bucket)) ∧
  gr_map (gone (bucket_or_default s bucket)) = gr_map (gone (bucket_or_default s' bucket)).
Proof.
  intros Hr Hall Hr' Hall' Hn Hn' Hperm.
  assert (Hreg : ∀ key, reg_of (bucket_or_default s bucket) key = reg_of (bucket_or_default s' bucket) key).
  { intros key. rewrite (run_reg _ evs s 0 bucket key Hr Hall default_calm) by done.
    rewrite (run_reg _ evs' s' 0 bucket key Hr' Hall' default_calm) by done.
    rewrite !default_reg, !lww_foldl. by apply lww_perm; apply Hperm. }
  split; apply map_eq; intros key; by injection (Hreg key).
Qed.
End lww_theorems.

#[local] Existing Instance layout64.

Definition lww_demo : list index_event :=
  [EvPut "photos" "a" (demo_entry 5) DefinitiveMutation None;
   EvDel "photos" "a" 7 None Run;
   EvPut "photos" "a" (demo_entry 6) DefinitiveMutation None].

Definition lww_demo' : list index_event :=
  [EvDel "photos" "a" 7 None Run;
   EvPut "photos" "a" (demo_entry 6) DefinitiveMutation None;
   EvPut "photos" "a" (demo_entry 5) DefinitiveMutation None].

Definition lww_demo_end (evs : list index_event) : KeyIndexState :=
  default KeyIndexState_default (run KeyIndexState_default evs).

Lemma lww_refinement_witness :
  reg_of (bucket_or_default (lww_demo_end lww_demo) "photos") "a" = mkReg None (Some 7).
Proof.
  rewrite (lww_refinement lww_demo (lww_demo_end lww_demo) "photos" "a");
    [by vm_compute|by vm_compute|by repeat constructor|by vm_compute].
Defined.

Lemma lww_convergence_witness :
  gr_map (gone (bucket_or_default (lww_demo_end lww_demo) "photos")) =
  gr_map (gone (bucket_or_default (lww_demo_end lww_demo') "photos")).
Proof.
  apply (lww_convergence lww_demo lww_demo');
    [by vm_compute|by repeat constructor|by vm_compute|by repeat constructor|by vm_compute|by vm_compute|].
  intros key. destruct (decide ("a" = key)) as [<-|Hne].
  - split.
    + vm_compute. solve_Permutation.
    + intros e1 e2 H1 H2. repeat (apply elem_of_cons in H1 as [->|H1]); try by apply elem_of_nil in H1.
      all: repeat (apply elem_of_cons in H2 as [->|H2]); by try apply elem_of_nil in H2.
  - unfold lww_demo, lww_demo'. cbn [delivered exec duplicate note_identity fst negb write_to].
    rewrite !decide_False by naive_solver. split; [done|]. intros e1 e2 H1. by apply elem_of_nil in H1.
Defined.
