(* ===== verification/IndexRebuild.v ===== *)
(** * Rebuilds

    A rebuild clears its bucket, folds the pages of an origin LIST into it and
    publishes it, while definitive writes keep arriving.  A page or a finish of
    another generation changes nothing; a finished rebuild holds the listing for
    every key nobody wrote meanwhile, and the last-writer-wins value of the racing
    writes for every other key. *)

From S2P Require Import Prelude.
From S2P Require Import ObjTypes.
From S2P Require Import ImageCodec.
From S2P Require Import Rows.
From S2P Require Import IndexCapture.
From S2P Require Import KeyIndex.
From S2P Require Import IndexWf.
From S2P Require Import IndexSteps.
From S2P Require Import IndexInv.
From S2P Require Import IndexMachine.
From S2P Require Import IndexLww.

Section rebuild.
Context {L : Layout}.
Implicit Types (s : KeyIndexState) (b : BucketState) (e : ObjEntry).

(** ** Generations *)

Lemma owns_rebuild_spec b g :
  owns_rebuild b g = true ↔ sync_generation b = g ∧ rebuild_generation b = Some g.
Proof. unfold owns_rebuild. rewrite andb_true_iff, Z.eqb_eq, bool_decide_eq_true. done. Qed.

Lemma resync_bod s bucket name :
  bucket_or_default (begin_bucket_resync s bucket).2 name =
    if decide (bucket = name)
    then mkBucket false KeyRows_default GoneRows_default (begin_bucket_resync s bucket).1
           (Some (begin_bucket_resync s bucket).1) ∅
           (epoch_of s bucket) (fences s bucket) stats_zero
    else bucket_or_default s name.
Proof.
  unfold begin_bucket_resync, invalidate_capture_for_rebuild. cbn [fst snd]. by autorewrite with bod.
Qed.

(** A superseded rebuild is inert: a page or a finish whose generation does
    not own the bucket reports so and leaves every bucket as it was; and a new
    resync takes the bucket from every earlier generation. *)
Theorem stale_generation_inert s bucket g rows :
  owns_rebuild (bucket_or_default s bucket) g = false →
  (sync_listing_into_generation s bucket g rows).1 = None ∧
  (finish_bucket_sync_generation s bucket g).1 = false ∧
  (∀ name, bucket_or_default (sync_listing_into_generation s bucket g rows).2 name = bucket_or_default s name) ∧
  (∀ name, bucket_or_default (finish_bucket_sync_generation s bucket g).2 name = bucket_or_default s name) ∧
  (∀ g', owns_rebuild (bucket_or_default (begin_bucket_resync s bucket).2 bucket) g' = true ↔
         g' = (begin_bucket_resync s bucket).1).
Proof.
  intros Ho. rewrite sync_listing_spec. unfold finish_bucket_sync_generation. rewrite Ho. cbn [negb fst snd].
  split_and!; [done|done|..].
  - intros name. unfold invalidate_capture_for_rebuild. autorewrite with bod. by case_decide; [subst|].
  - intros name. autorewrite with bod. by case_decide; [subst|].
  - intros g'. rewrite resync_bod, decide_True, owns_rebuild_spec by done. cbn. naive_solver.
Qed.

(** ** A rebuild with racing writes *)

Variables (bucket : string) (g : Z).

(** What may run beside the rebuild: its own pages, definitive writes to any bucket, local
    or from a peer's feed, and the bookkeeping of the feed and of captures. *)
Definition is_rebuild_event (ev : index_event) : bool :=
  match ev with
  | EvPage bk g' _ => bool_decide (bk = bucket) && (g' =? g)
  | EvPut _ _ _ a _ => definitive a
  | EvDel _ _ _ _ _ | EvRegister _ | EvSeal _ | EvRenew _ _ | EvCapture _ => true
  | _ => false
  end.

(** The rows the pages of the rebuild listed for a key. *)
Definition rows_for (key : string) (rows : list (string * ObjEntry)) : list ObjEntry :=
  (filter (λ r, r.1 = key) rows).*2.

Definition listed (key : string) (evs : list index_event) : list ObjEntry :=
  mjoin ((λ ev, match ev with EvPage _ _ rows => rows_for key rows | _ => [] end) <$> evs).

(** The latest listed row, the last of those at that time. *)
Definition best_row (rows : list ObjEntry) : option ObjEntry := best_put None (WPut <$> rows).

Definition expect (fenced : bool) (rows : list ObjEntry) (ws : list write) : reg :=
  match ws with
  | [] => mkReg (if fenced then None else best_row rows) None
  | _ => lww ws
  end.

(** The rebuild so far has seen [rows k] and [ws k] of each key. *)
Record progress b (fenced : string → bool) (rows : string → list ObjEntry)
    (ws : string → list write) (n : nat) : Prop := {
  pr_owns : sync_generation b = g ∧ rebuild_generation b = Some g;
  pr_size : (base.size (gr_map (gone b)) <= n)%nat;
  pr_touched : ∀ k, k ∈ rebuild_touched b ↔ ws k ≠ [];
  pr_fenced : ∀ k, ws k = [] → is_some (uncertain_keys b !! k) = fenced k;
  pr_reg : ∀ k, reg_of b k = expect (fenced k) (rows k) (ws k);
}.

Lemma best_row_snoc rows e :
  best_row (rows ++ [e]) =
    if is_some_and (λ o, last_modified e <? last_modified o) (best_row rows) then best_row rows else Some e.
Proof. unfold best_row. rewrite fmap_app. apply (best_put_app None _ (WPut e)). Qed.

Lemma expect_snoc f rows ws w :
  expect f rows (ws ++ [w]) = match ws with [] => lww [w] | _ => reg_write (lww ws) w end.
Proof. destruct ws as [|w' ws]; [done|]. cbn [app expect]. rewrite app_comm_cons. apply lww_snoc. Qed.

Definition row_added (rows : string → list ObjEntry) (r : string * ObjEntry) : string → list ObjEntry :=
  λ k, if decide (r.1 = k) then rows k ++ [r.2] else rows k.

Lemma sync_row_progress b t f rows ws n r :
  progress b f rows ws n → progress (sync_row (b, t) r).1 f (row_added rows r) ws n.
Proof.
  intros Hp. pose proof Hp as [Ho Hs Ht Hf Hr].
  assert (Hguard : ws r.1 = [] → f r.1 = false →
    sync_row (b, t) r = if is_some_and (λ o, last_modified r.2 <? last_modified o) (best_row (rows r.1))
                        then (b, t) else (inserted b r.1 r.2, (insert_accounted b t r.1 r.2).2)).
  { intros Hw Hfe. destruct r as [k e]. cbn in *. unfold sync_row.
    rewrite bool_decide_false by (rewrite Ht; naive_solver).
    pose proof (Hf k Hw) as Hu. rewrite Hfe in Hu. destruct (uncertain_keys b !! k); [done|].
    pose proof (Hr k) as Hrk. unfold reg_of, expect in Hrk. rewrite Hw, Hfe in Hrk. injection Hrk as Hk Hg.
    unfold Gone.get, Keys.get. rewrite Hk, Hg. cbn.
    destruct (best_row (rows k)) as [o|]; cbn.
    - rewrite Z.leb_antisym. destruct (last_modified e <? last_modified o); cbn; [done|].
      by rewrite (surjective_pairing (insert_accounted _ _ _ _)), insert_accounted_1.
    - by rewrite (surjective_pairing (insert_accounted _ _ _ _)), insert_accounted_1. }
  assert (Hskip : ws r.1 ≠ [] ∨ f r.1 = true → sync_row (b, t) r = (b, t)).
  { intros Hc. destruct (sync_row_cases b t r) as [E|(_ & Hnt & Hnu & _)]; [done|]. exfalso.
    destruct Hc as [Hc|Hc]; [by apply Hnt, Ht|]. destruct (decide (ws r.1 = [])) as [Hw|Hw]; [|by apply Hnt, Ht].
    apply Hf in Hw. rewrite Hc, Hnu in Hw. done. }
  destruct (decide (ws r.1 = [])) as [Hw|Hw]; [destruct (f r.1) eqn:Hfe|].
  2: rewrite (Hguard Hw eq_refl); destruct (is_some_and _ _) eqn:Hold; cbn [fst].
  1,4: rewrite Hskip by auto; cbn [fst].
  all: split; try done.
  1,2,3: intros k; rewrite Hr; unfold expect, row_added; case_decide; [subst k|done];
    rewrite ?Hw, ?Hfe, ?best_row_snoc, ?Hold; try done; by destruct (ws r.1).
  all: destruct (inserted_rest b r.1 r.2) as (E1 & E2 & E3 & E4 & E5 & E6 & E7); rewrite ?E1, ?E3, ?E4, ?E5, ?E7; try done.
  intros k. unfold reg_of, row_added. rewrite inserted_map, E1. case_decide as Hk.
  - subst k. rewrite lookup_insert_eq. pose proof (Hr r.1) as Hrk. unfold reg_of, expect in *.
    rewrite Hw, Hfe in *. injection Hrk as _ ->. by rewrite best_row_snoc, Hold.
  - rewrite lookup_insert_ne by done. apply (Hr k).
Qed.

Lemma progress_ext b f rows rows' ws ws' n :
  progress b f rows ws n → (∀ k, rows k = rows' k) → (∀ k, ws k = ws' k) → progress b f rows' ws' n.
Proof.
  intros [Ho Hs Ht Hf Hr] Er Ew. split; [done..| | |]; intros k; rewrite <- ?Er, <- Ew; auto.
Qed.

Lemma page_progress b t f rows ws n page :
  progress b f rows ws n →
  progress (foldl sync_row (b, t) page).1 f (λ k, rows k ++ rows_for k page) ws n.
Proof.
  revert b t rows. induction page as [|r page IH]; intros b t rows Hp; cbn [foldl].
  { eapply progress_ext; [done| |done]. intros k. by rewrite app_nil_r. }
  pose proof (sync_row_progress b t f rows ws n r Hp) as Hp1.
  destruct (sync_row (b, t) r) as [b1 t1]. cbn [fst] in Hp1.
  eapply progress_ext; [by apply IH| |done]. intros k. unfold row_added, rows_for.
  rewrite filter_cons. case_decide; [|done]. by rewrite <- app_assoc.
Qed.

Definition ws_added (ws : string → list write) (key : string) (w : write) : string → list write :=
  λ k, if decide (key = k) then ws k ++ [w] else ws k.

(** The first mutation of a key in a rebuild overrides whatever is there. *)
Lemma first_put_reg b key e k :
  first_rebuild b key = true →
  put_rejects b key e DefinitiveMutation = false ∧
  reg_of (put_bucket b key e DefinitiveMutation) k =
    if decide (k = key) then mkReg (Some e) None else reg_of b k.
Proof.
  intros Hf. split; [unfold put_rejects; cbn; by rewrite Hf|].
  unfold reg_of. rewrite put_bucket_map, put_bucket_gone. unfold put_base. cbn [definitive andb]. rewrite Hf.
  cbn [gone with_gone]. rewrite gone_remove_map. case_decide as Hk.
  - subst. by rewrite lookup_insert_eq, lookup_delete_eq.
  - by rewrite lookup_insert_ne, lookup_delete_ne.
Qed.

Lemma first_del_reg b key ts k :
  first_rebuild b key = true →
  del_stale b key ts = false ∧
  reg_of (del_bucket b key ts) k = if decide (k = key) then mkReg None (Some ts) else reg_of b k.
Proof.
  intros Hf. split; [unfold del_stale; by rewrite Hf|].
  unfold reg_of. rewrite del_bucket_map, del_bucket_gone, del_marked_map, Hf. case_decide as Hk.
  - subst. by rewrite lookup_insert_eq, lookup_delete_eq.
  - by rewrite lookup_insert_ne, lookup_delete_ne.
Qed.

Lemma put_bucket_rebuild b key e :
  let b' := put_bucket b key e DefinitiveMutation in
  sync_generation b' = sync_generation b ∧ rebuild_generation b' = rebuild_generation b ∧
  rebuild_touched b' = (if is_some (rebuild_generation b) then {[key]} ∪ rebuild_touched b else rebuild_touched b).
Proof.
  cbn zeta. unfold put_bucket. cbn [definitive].
  destruct (inserted_rest (put_base b key DefinitiveMutation) key e) as (_ & _ & E3 & E4 & E5 & _ & _).
  assert (sync_generation (put_base b key DefinitiveMutation) = sync_generation b ∧
    rebuild_generation (put_base b key DefinitiveMutation) = rebuild_generation b ∧
    rebuild_touched (put_base b key DefinitiveMutation) = rebuild_touched b) as (B1 & B2 & B3)
    by (unfold put_base; by case_match).
  match goal with |- context [touch ?x key] =>
    destruct (touch_rest x key) as (_ & _ & _ & _ & -> & -> & _); rewrite (touch_touched x key) end.
  cbn. by rewrite E3, E4, E5, B1, B2, B3.
Qed.

Lemma del_bucket_rebuild b key ts :
  let b' := del_bucket b key ts in
  sync_generation b' = sync_generation b ∧ rebuild_generation b' = rebuild_generation b ∧
  rebuild_touched b' = (if is_some (rebuild_generation b) then {[key]} ∪ rebuild_touched b else rebuild_touched b).
Proof.
  cbn zeta. unfold del_bucket.
  match goal with |- context [row_removed ?x key] =>
    destruct (row_removed_rest x key) as (_ & _ & -> & -> & -> & _) end.
  match goal with |- context [touch ?x key] =>
    destruct (touch_rest x key) as (_ & _ & _ & _ & -> & -> & _); rewrite (touch_touched x key) end.
  cbn. by destruct (del_marked_rest b key ts) as (_ & _ & _ & -> & -> & -> & _).
Qed.

(** A mutated key: the new register is one more write. *)
Lemma mutation_progress b b' f rows ws n m key w :
  progress b f rows ws n →
  sync_generation b' = sync_generation b → rebuild_generation b' = rebuild_generation b →
  (base.size (gr_map (gone b')) <= m)%nat →
  (∀ k, k ∈ rebuild_touched b' ↔ k = key ∨ k ∈ rebuild_touched b) →
  (∀ k, k ≠ key → uncertain_keys b' !! k = uncertain_keys b !! k) →
  (∀ k, reg_of b' k = if decide (k = key)
     then (if decide (ws key = []) then lww [w] else reg_write (reg_of b key) w) else reg_of b k) →
  progress b' f rows (ws_added ws key w) m.
Proof.
  intros [Ho Hs Ht Hf Hr] E1 E2 Hsz Et Eu Er. split.
  - by rewrite E1, E2.
  - done.
  - intros k. rewrite Et, Ht. unfold ws_added. destruct (decide (key = k)) as [<-|Hne].
    + split; [|by left]. intros _ H. by apply app_eq_nil in H as [_ ?].
    + naive_solver.
  - intros k. unfold ws_added. destruct (decide (key = k)) as [<-|Hne]; [intros H; by apply app_eq_nil in H as [_ ?]|].
    intros Hw. rewrite Eu by done. by apply Hf.
  - intros k. rewrite Er. unfold ws_added. destruct (decide (k = key)) as [->|Hne].
    + rewrite (decide_True (P := key = key)) by done. rewrite expect_snoc, Hr. by destruct (ws key).
    + rewrite decide_False by done. apply Hr.
Qed.

Lemma touched_first b key f rows ws n :
  progress b f rows ws n → first_rebuild b key = bool_decide (ws key = []).
Proof.
  intros [Ho _ Ht _ _]. unfold first_rebuild. rewrite (proj2 Ho). cbn.
  rewrite <- bool_decide_not. apply bool_decide_ext. rewrite Ht. destruct (ws key); naive_solver.
Qed.

Lemma put_progress b f rows ws n key e :
  progress b f rows ws n →
  progress (if put_rejects b key e DefinitiveMutation then b else put_bucket b key e DefinitiveMutation)
    f rows (ws_added ws key (WPut e)) n.
Proof.
  intros Hp. pose proof (touched_first b key f rows ws n Hp) as Hfirst.
  destruct (put_bucket_rebuild b key e) as (E1 & E2 & E3). pose proof Hp as [[_ Hg] Hs Ht Hf Hr].
  rewrite Hg in E3. cbn in E3.
  assert (Hsize : (base.size (gr_map (gone (put_bucket b key e DefinitiveMutation))) <= n)%nat).
  { rewrite put_bucket_gone. unfold put_base. case_match; [|done]. cbn. rewrite gone_remove_map.
    etrans; [apply map_subseteq_size, delete_subseteq|done]. }
  assert (Hunc : ∀ k, k ≠ key → uncertain_keys (put_bucket b key e DefinitiveMutation) !! k = uncertain_keys b !! k).
  { intros k Hne. rewrite (proj1 (put_bucket_fences _ _ _ _)). cbn. by rewrite lookup_delete_ne. }
  case_bool_decide as Hw.
  - pose proof (λ k, first_put_reg b key e k Hfirst) as Hfp. rewrite (proj1 (Hfp key)).
    eapply mutation_progress; [done..|set_solver|done|]. intros k. rewrite (proj2 (Hfp k)).
    by rewrite (decide_True (P := ws key = [])) by done.
  - assert (Hord : ordinary b key DefinitiveMutation) by (split; [by rewrite Hfirst|done]).
    pose proof (λ k, put_reg b key e DefinitiveMutation k Hord) as Hreg.
    destruct (put_rejects b key e DefinitiveMutation).
    + eapply mutation_progress; [done|done|done|done| |done|].
      * intros k. split; [by right|]. intros [->|?]; [|done]. by apply Ht.
      * intros k. rewrite (decide_False (P := ws key = [])) by done. apply Hreg.
    + eapply mutation_progress; [done..|set_solver|done|]. intros k.
      rewrite (decide_False (P := ws key = [])) by done. apply Hreg.
Qed.

Lemma del_progress b f rows ws n key ts :
  progress b f rows ws n →
  progress (if del_stale b key ts then del_marked b key ts else del_bucket b key ts)
    f rows (ws_added ws key (WDel ts)) (S n).
Proof.
  intros Hp. pose proof (touched_first b key f rows ws n Hp) as Hfirst.
  destruct (del_bucket_rebuild b key ts) as (E1 & E2 & E3). pose proof Hp as [[_ Hg] Hs Ht Hf Hr].
  rewrite Hg in E3. cbn in E3.
  assert (Hsize : (base.size (gr_map (gone (del_marked b key ts))) <= S n)%nat).
  { rewrite del_marked_map, map_size_insert. destruct (gr_map (gone b) !! key); cbn; lia. }
  assert (Hunc : ∀ k, k ≠ key → uncertain_keys (del_bucket b key ts) !! k = uncertain_keys b !! k).
  { intros k Hne. rewrite (proj1 (del_bucket_fences _ _ _)). by rewrite lookup_delete_ne. }
  case_bool_decide as Hw.
  - pose proof (λ k, first_del_reg b key ts k Hfirst) as Hfp. rewrite (proj1 (Hfp key)).
    eapply mutation_progress; [done|done|done|by rewrite del_bucket_gone|set_solver|done|].
    intros k. rewrite (proj2 (Hfp k)). by rewrite (decide_True (P := ws key = [])) by done.
  - pose proof (λ k, del_reg b key ts k Hfirst) as Hreg.
    destruct (del_stale b key ts).
    + destruct (del_marked_rest b key ts) as (_ & _ & _ & D1 & D2 & D3 & _ & D4).
      eapply mutation_progress; [done|done|done|done| | |].
      * intros k. rewrite D3. split; [by right|]. intros [->|?]; [|done]. by apply Ht.
      * intros k _. by rewrite D4.
      * intros k. rewrite (decide_False (P := ws key = [])) by done. apply Hreg.
    + eapply mutation_progress; [done|done|done|by rewrite del_bucket_gone|set_solver|done|].
      intros k. rewrite (decide_False (P := ws key = [])) by done. apply Hreg.
Qed.

Lemma progress_mono b f rows ws n m : progress b f rows ws n → (n <= m)%nat → progress b f rows ws m.
Proof. intros [] Hle. split; try done. lia. Qed.

Lemma put_event_bod s bk k e id :
  bucket_or_default (apply_put_with_authority s bk k e DefinitiveMutation id).2 bucket =
  if (note_identity s id).1 && bool_decide (bk = bucket)
  then (if put_rejects (bucket_or_default s bucket) k e DefinitiveMutation then bucket_or_default s bucket
        else put_bucket (bucket_or_default s bucket) k e DefinitiveMutation)
  else bucket_or_default s bucket.
Proof.
  destruct (put_outcome_spec s bk k e DefinitiveMutation id) as [Hd|Hf Hr|Hf Hr]; cbn [snd]; rewrite ?Hd, ?Hf; cbn [andb].
  { apply same_rows_default, note_identity_same. }
  all: autorewrite with bod; case_bool_decide; case_decide; subst; try done; by rewrite Hr.
Qed.

Lemma del_event_bod s bk k ts id sw n :
  (base.size (gr_map (gone (bucket_or_default s bucket))) <= n)%nat → Z.of_nat n <= TOMBSTONE_PRUNE_LEN →
  bucket_or_default (apply_del_with_identity s bk k ts id sw).2 bucket =
  if (note_identity s id).1 && bool_decide (bk = bucket)
  then (if del_stale (bucket_or_default s bucket) k ts then del_marked (bucket_or_default s bucket) k ts
        else del_bucket (bucket_or_default s bucket) k ts)
  else bucket_or_default s bucket.
Proof.
  intros Hsz Hn.
  destruct (del_outcome_spec s bk k ts id sw) as [Hd|b Hb Hf Hr|b Hb Hf Hr]; cbn [snd]; rewrite ?Hd, ?Hf; cbn [andb].
  { apply same_rows_default, note_identity_same. }
  all: autorewrite with bod; case_bool_decide; case_decide; try done; subst bk; rewrite (no_sweep _ _ _ _ n Hsz Hn) in Hb;
    subst b; by rewrite Hr.
Qed.

(** The write an event delivers to a key: none for a feed event already counted. *)
Definition delivers s (ev : index_event) (key : string) : list write :=
  if duplicate s ev then [] else option_list (write_to bucket key ev).

Lemma delivered_cons s ev s' key evs :
  exec s ev = Some s' → delivered s bucket key (ev :: evs) = delivers s ev key ++ delivered s' bucket key evs.
Proof. intros Hx. cbn [delivered]. rewrite Hx. unfold delivers. by destruct (duplicate s ev), (write_to bucket key ev). Qed.

Lemma missed_write s ev fresh (at_ : bool) ws key w k :
  duplicate s ev = negb fresh →
  (∀ k, write_to bucket k ev = if at_ then (if decide (key = k) then Some w else None) else None) →
  (if fresh && at_ then ws_added ws key w else ws) k = ws k ++ delivers s ev k.
Proof.
  intros Hd Hw. unfold delivers, ws_added. rewrite Hd, Hw.
  destruct fresh, at_; cbn; try case_decide; cbn; by rewrite ?app_nil_r.
Qed.

Lemma step_progress s ev s' f rows ws n :
  exec s ev = Some s' → is_rebuild_event ev = true →
  progress (bucket_or_default s bucket) f rows ws n → Z.of_nat n <= TOMBSTONE_PRUNE_LEN →
  progress (bucket_or_default s' bucket) f (λ k, rows k ++ listed k [ev]) (λ k, ws k ++ delivers s ev k)
    (if is_del ev then S n else n).
Proof.
  intros Hx Hev Hp Hn.
  destruct ev as [bk k e a id|bk k ts id sw| | | | | |bk g' page| | | | |cut|cut|sealed epoch|c]; try done;
    injection Hx as <-; cbn in Hev; unfold listed; cbn [is_del fmap list_fmap mjoin list_join].
  4-7: eapply (progress_ext _ _ rows _ ws); [|intros k'; by rewrite app_nil_r|intros k'; cbn; by rewrite app_nil_r].
  - destruct a; [|done]. rewrite put_event_bod.
    eapply (progress_ext _ _ rows _ (if (note_identity s id).1 && bool_decide (bk = bucket) then ws_added ws k (WPut e) else ws)).
    + destruct (_ && _); [by apply put_progress|done].
    + intros k'. by rewrite app_nil_r.
    + intros k'. apply missed_write; [done|]. intros k''. cbn. repeat (case_decide || case_bool_decide); naive_solver.
  - rewrite (del_event_bod s bk k ts id sw n (pr_size _ _ _ _ _ Hp) Hn).
    eapply (progress_ext _ _ rows _ (if (note_identity s id).1 && bool_decide (bk = bucket) then ws_added ws k (WDel ts) else ws)).
    + destruct (_ && _); [by apply del_progress|]. by apply (progress_mono _ _ _ _ n); [|lia].
    + intros k'. by rewrite app_nil_r.
    + intros k'. apply missed_write; [done|]. intros k''. cbn. repeat (case_decide || case_bool_decide); naive_solver.
  - apply andb_true_iff in Hev as [->%bool_decide_eq_true ->%Z.eqb_eq].
    rewrite sync_listing_spec. cbn zeta. rewrite (proj2 (owns_rebuild_spec _ _) (pr_owns _ _ _ _ _ Hp)).
    cbn [snd]. unfold sync_page.
    change (bucket_or_default (invalidate_capture_for_rebuild s) bucket) with (bucket_or_default s bucket).
    pose proof (page_progress _ (i_stats (invalidate_capture_for_rebuild s)) f rows ws n page Hp) as Hpage.
    destruct (foldl _ _ _) as [b t]. cbn [fst] in Hpage. autorewrite with bod. rewrite decide_True by done.
    eapply progress_ext; [done|intros k'; by rewrite app_nil_r|intros k'; by rewrite app_nil_r].
  - by rewrite (same_rows_default s _ bucket (register_same s cut)).
  - by rewrite (same_rows_default s _ bucket (seal_same s cut)).
  - by rewrite (same_rows_default s _ bucket (renew_same s sealed epoch)).
  - exact Hp.
Qed.

Lemma run_progress s evs s' f rows ws n :
  run s evs = Some s' → Forall (λ ev, is_rebuild_event ev = true) evs →
  progress (bucket_or_default s bucket) f rows ws n →
  Z.of_nat (n + del_count evs) <= TOMBSTONE_PRUNE_LEN →
  progress (bucket_or_default s' bucket) f (λ k, rows k ++ listed k evs) (λ k, ws k ++ delivered s bucket k evs)
    (n + del_count evs).
Proof.
  revert s rows ws n. induction evs as [|ev evs IH]; intros s rows ws n Hr Hall Hp Hn; cbn in Hr.
  { injection Hr as <-. apply (progress_mono _ _ _ _ n); [|lia].
    eapply progress_ext; [done|intros k; by rewrite app_nil_r|intros k; by rewrite app_nil_r]. }
  apply bind_Some in Hr as (s1 & Hx & Hr). inversion Hall as [|? ? Hev Hall']; subst.
  assert (Hcount : del_count (ev :: evs) = ((if is_del ev then 1 else 0) + del_count evs)%nat).
  { unfold del_count. rewrite filter_cons. by destruct (is_del ev). }
  rewrite Hcount in *.
  pose proof (step_progress s ev s1 f rows ws n Hx Hev Hp ltac:(lia)) as Hp1.
  eapply progress_mono; [eapply progress_ext; [apply (IH _ _ _ _ Hr Hall' Hp1)|..]|].
  - destruct (is_del ev); lia.
  - intros k. cbn beta. rewrite <- app_assoc. f_equal. unfold listed. cbn. by rewrite app_nil_r.
  - intros k. cbn beta. by rewrite <- app_assoc, (delivered_cons s ev s1).
  - destruct (is_del ev); lia.
Qed.
End rebuild.

Section rebuild_theorem.
Context {L : Layout}.

(** Before it finishes, a rebuild owns its bucket and each key holds what it is to publish. *)
Lemma rebuild_done s bucket g s1 evs s2 :
  begin_bucket_resync s bucket = (g, s1) → run s1 evs = Some s2 →
  Forall (λ ev, is_rebuild_event bucket g ev = true) evs →
  Z.of_nat (del_count evs) <= TOMBSTONE_PRUNE_LEN →
  owns_rebuild (bucket_or_default s2 bucket) g = true ∧
  ∀ key, reg_of (bucket_or_default s2 bucket) key =
    expect (is_some (fences s bucket !! key)) (listed key evs) (delivered s1 bucket key evs).
Proof.
  intros Hb Hr Hall Hn.
  assert (Hp : progress g (bucket_or_default s1 bucket) (λ k, is_some (fences s bucket !! k))
                 (λ _, []) (λ _, []) 0).
  { pose proof (resync_bod s bucket bucket) as Hbod. rewrite Hb, decide_True in Hbod by done.
    cbn in Hbod. rewrite Hbod. split; cbn; [done|done|set_solver|done|].
    intros k. unfold expect. by destruct (is_some _). }
  pose proof (run_progress bucket g s1 evs s2 _ _ _ 0 Hr Hall Hp Hn) as [Ho _ _ _ Hreg].
  split; [by apply owns_rebuild_spec|exact Hreg].
Qed.

Lemma finish_owned s bucket g :
  owns_rebuild (bucket_or_default s bucket) g = true →
  let '(published, s') := finish_bucket_sync_generation s bucket g in
  published = true ∧ synced (bucket_or_default s' bucket) = true ∧
  ∀ key, reg_of (bucket_or_default s' bucket) key = reg_of (bucket_or_default s bucket) key.
Proof.
  intros Ho. unfold finish_bucket_sync_generation. rewrite Ho. cbn [negb].
  autorewrite with bod. by rewrite decide_True.
Qed.

(** [C5] A rebuild publishes the listing merged with the writes that raced it:
    after a resync, any interleaving of the rebuild's LIST pages with definitive
    puts and deletes (local ones, and peers' from the feed, counted once each),
    and the finish, the bucket is synced and every key holds the last-writer-wins
    value of the racing writes to it if there was one, else its latest listed row
    (no row for a key that was fenced when the rebuild began), whatever the clocks
    of the listing and of the writers.  At most as many deletes race as are kept
    without a sweep. *)
Theorem rebuild_merges_racing_writes s bucket g s1 evs s2 key :
  begin_bucket_resync s bucket = (g, s1) → run s1 evs = Some s2 →
  Forall (λ ev, is_rebuild_event bucket g ev = true) evs →
  Z.of_nat (del_count evs) <= TOMBSTONE_PRUNE_LEN →
  let '(published, s3) := finish_bucket_sync_generation s2 bucket g in
  published = true ∧ synced (bucket_or_default s3 bucket) = true ∧
  reg_of (bucket_or_default s3 bucket) key =
    expect (is_some (fences s bucket !! key)) (listed key evs) (delivered s1 bucket key evs).
Proof.
  intros Hb Hr Hall Hn. destruct (rebuild_done s bucket g s1 evs s2 Hb Hr Hall Hn) as [Ho Hreg].
  pose proof (finish_owned s2 bucket g Ho) as H. destruct (finish_bucket_sync_generation s2 bucket g) as [published s3].
  destruct H as (? & ? & Hsame). split_and!; [done|done|]. by rewrite Hsame.
Qed.
End rebuild_theorem.

#[local] Existing Instance layout64.

Lemma stale_generation_inert_witness :
  (sync_listing_into_generation demo_fenced "photos" 7 [("a", demo_entry 3)]).1 = None.
Proof. by apply (stale_generation_inert demo_fenced "photos" 7 [("a", demo_entry 3)]). Defined.

(** A put of ours and a peer's delete, delivered twice, racing a LIST page whose row
    carries a later origin time. *)
Definition race_cut : NativeCut := mkCut "peer" 1 1.
Definition race_demo : list index_event :=
  [EvRegister (mkCut "peer" 1 0);
   EvDel "photos" "a" 4 (Some (Native race_cut)) Run;
   EvPut "photos" "a" (demo_entry 5) DefinitiveMutation None;
   EvPage "photos" 1 [("a", demo_entry 9); ("b", demo_entry 3)];
   EvDel "photos" "a" 4 (Some (Native race_cut)) Run].

Definition race_end : KeyIndexState :=
  default KeyIndexState_default (run (begin_bucket_resync demo_fenced "photos").2 race_demo).

Lemma rebuild_merges_racing_writes_witness :
  let '(published, s3) := finish_bucket_sync_generation race_end "photos" 1 in
  published = true ∧ synced (bucket_or_default s3 "photos") = true ∧
  reg_of (bucket_or_default s3 "photos") "a" = mkReg (Some (demo_entry 5)) (Some 4).
Proof.
  pose proof (rebuild_merges_racing_writes demo_fenced "photos" 1
    (begin_bucket_resync demo_fenced "photos").2 race_demo race_end "a"
    ltac:(by vm_compute) ltac:(by vm_compute) ltac:(by repeat constructor) ltac:(by vm_compute)) as H.
  exact H.
Defined.
