(* ===== verification/Image.v ===== *)
(** * Index images

    The whole-index codec of [src/src/index/fleet.rs] ([encode], [decode])
    and the donor's sizing of [src/src/index/fleet/snapshot.rs]
    ([tallied_size], [snapshot_state], [measure_image]).  Allocation failures
    ([try_reserve]) are not modelled. *)

From S2P Require Import Prelude.
From S2P Require Import ObjTypes.
From S2P Require Import ImageCodec.
From S2P Require Import Rows.
From S2P Require Import IndexCapture.
From S2P Require Import KeyIndex.

Definition VERSION : Z := 1.

(** [previous.is_some_and(|last| last >= name)]. *)
Definition not_after (previous : option string) (name : string) : bool :=
  is_some_and (λ last, sleb name last) previous.

(** Synced, with nothing uncertain and no rebuild running. *)
Definition complete_bucket (b : BucketState) : bool :=
  synced b && bool_decide (uncertain_keys b = ∅) && is_none (rebuild_generation b).

(** A tombstone at or after the row it stands next to. *)
Definition covers_row (ks : KeyRows) (key : string) (deleted_at : Z) : bool :=
  is_some_and (λ e, last_modified e <=? deleted_at) (Keys.get ks key).

(** ** Encoding *)

Fixpoint write_keys (w : Writer) (rows : list (string * ObjEntry)) (name_bytes : Z)
    : result ImageError Writer :=
  match rows with
  | [] => Ok w
  | (key, e) :: rows => w ← write_entry w key e name_bytes; write_keys w rows name_bytes
  end.

Fixpoint write_gone (w : Writer) (ks : KeyRows) (rows : list (string * Z)) (name_bytes : Z)
    : result ImageError Writer :=
  match rows with
  | [] => Ok w
  | (key, deleted_at) :: rows =>
      _ ← refuse_if (covers_row ks key deleted_at) Corrupt;
      w ← W.text w key name_bytes;
      w ← timestamp w deleted_at;
      write_gone w ks rows name_bytes
  end.

Section image.
Context {L : Layout}.

(** The rows so far plus [b]'s, within the row ceiling. *)
Definition add_rows (rows : Z) (b : BucketState) (caps : ImageCaps) : result ImageError Z :=
  rows ← ok_or (n ← checked_add usize_max rows (Keys.len (keys b));
                checked_add usize_max n (Gone.len (gone b))) Capacity;
  _ ← refuse_if (cap_rows caps <? rows) Capacity;
  Ok rows.

Fixpoint encode_buckets (index : KeyIndexState) (caps : ImageCaps) (universe : list string)
    (w : Writer) (rows : Z) (previous : option string) : result ImageError Writer :=
  match universe with
  | [] => Ok w
  | name :: universe =>
      _ ← refuse_if (not_after previous name) Corrupt;
      b ← ok_or (buckets index !! name) Incomplete;
      _ ← refuse_if (negb (complete_bucket b)) Incomplete;
      w ← W.text w name (cap_name_bytes caps);
      rows ← add_rows rows b caps;
      w ← W.u32 w (Keys.len (keys b));
      w ← write_keys w (Keys.iter (keys b)) (cap_name_bytes caps);
      w ← W.u32 w (Gone.len (gone b));
      w ← write_gone w (keys b) (Gone.iter (gone b)) (cap_name_bytes caps);
      encode_buckets index caps universe w rows (Some name)
  end.

Definition encode (index : KeyIndexState) (universe : list string) (caps : ImageCaps)
    (size : ImageSize) : result ImageError bytes :=
  caps ← validate caps;
  let count := Z.of_nat (length universe) in
  _ ← refuse_if ((cap_buckets caps <? count)
                 || negb (Z.of_nat (base.size (buckets index)) =? count)) Incomplete;
  _ ← refuse_if (cap_bytes caps <? encoded_bytes size) Capacity;
  w ← W.new (encoded_bytes size);
  w ← W.u8 w VERSION;
  w ← W.u32 w count;
  w ← encode_buckets index caps universe w 0 None;
  if negb (Z.of_nat (length (w_bytes w)) =? encoded_bytes size) then Err Corrupt
  else Ok (w_bytes w).

(** ** Decoding *)

Section decode.
Context {P : EtagParse}.

Fixpoint read_keys (n : nat) (r : Reader) (budget : DecodeBudget) (name_bytes : Z)
    (previous : option string) (ks : KeyRows) (st : IndexStats)
    : result ImageError (KeyRows * IndexStats * Reader * DecodeBudget) :=
  match n with
  | O => Ok (ks, st, r, budget)
  | S n =>
      '(key, e, r, budget) ← read_entry r budget name_bytes;
      _ ← refuse_if (not_after previous key) Corrupt;
      let st := Stats.replace st stats_zero (Stats.for_entry e) in
      read_keys n r budget name_bytes (Some key) (Keys.insert ks key e).2 st
  end.

Fixpoint read_gone (n : nat) (r : Reader) (budget : DecodeBudget) (name_bytes : Z)
    (previous : option string) (ks : KeyRows) (g : GoneRows)
    : result ImageError (GoneRows * Reader * DecodeBudget) :=
  match n with
  | O => Ok (g, r, budget)
  | S n =>
      '(key, r) ← R.text r name_bytes;
      _ ← refuse_if (not_after previous key) Corrupt;
      charge ← gone_charge (slen key);
      budget ← Budget.take budget charge;
      '(deleted_at, r) ← read_timestamp r;
      _ ← refuse_if (covers_row ks key deleted_at) Corrupt;
      read_gone n r budget name_bytes (Some key) ks (Gone.insert g key deleted_at).2
  end.

Definition image_bucket_state (ks : KeyRows) (g : GoneRows) (st : IndexStats) : BucketState :=
  mkBucket true ks g 0 None ∅ 0 ∅ st.

Fixpoint decode_buckets (n : nat) (caps : ImageCaps) (r : Reader) (budget : DecodeBudget)
    (rows : Z) (previous : option string) (B : gmap string BucketState) (total : IndexStats)
    : result ImageError (gmap string BucketState * IndexStats * Reader) :=
  match n with
  | O => Ok (B, total, r)
  | S n =>
      '(name, r) ← R.text r (cap_name_bytes caps);
      _ ← refuse_if (not_after previous name) Corrupt;
      charge ← bucket_charge (slen name);
      budget ← Budget.take budget charge;
      '(key_count, r) ← R.u32 r;
      rows ← ok_or (checked_add usize_max rows key_count) Capacity;
      _ ← refuse_if (cap_rows caps <? rows) Capacity;
      '(ks, st, r, budget) ←
        read_keys (Z.to_nat key_count) r budget (cap_name_bytes caps) None KeyRows_default stats_zero;
      '(gone_count, r) ← R.u32 r;
      rows ← ok_or (checked_add usize_max rows gone_count) Capacity;
      _ ← refuse_if (cap_rows caps <? rows) Capacity;
      '(g, r, budget) ←
        read_gone (Z.to_nat gone_count) r budget (cap_name_bytes caps) None ks GoneRows_default;
      decode_buckets n caps r budget rows (Some name)
        (<[name := image_bucket_state ks g st]> B)
        (Stats.replace total stats_zero st)
  end.

Definition decode (l : bytes) (caps : ImageCaps) : result ImageError KeyIndexState :=
  caps ← validate caps;
  _ ← refuse_if (bool_decide (l = []) || (cap_bytes caps <? Z.of_nat (length l))) Capacity;
  let r := mkReader l 0 in
  '(version, r) ← R.u8 r;
  _ ← refuse_if (negb (version =? VERSION)) Schema;
  '(count, r) ← R.u32 r;
  _ ← refuse_if (cap_buckets caps <? count) Capacity;
  budget ← Budget.new (cap_decoded_bytes caps);
  charge ← state_charge count;
  budget ← Budget.take budget charge;
  '(B, total, r) ← decode_buckets (Z.to_nat count) caps r budget 0 None ∅ stats_zero;
  if negb (r_offset r =? Z.of_nat (length l)) then Err Corrupt
  else Ok (mkIndex B total None ∅).
End decode.

(** ** Sizing ([snapshot.rs]) *)

Definition image_bucket (index : KeyIndexState) (name : string) (previous : option string)
    (caps : ImageCaps) : result ImageError (BucketState * option string) :=
  _ ← refuse_if (sempty name || (cap_name_bytes caps <? slen name) || not_after previous name) Corrupt;
  b ← ok_or (buckets index !! name) Incomplete;
  _ ← refuse_if (negb (complete_bucket b)) Incomplete;
  Ok (b, Some name).

Fixpoint tallied_buckets (index : KeyIndexState) (caps : ImageCaps) (universe : list string)
    (budget : DecodeBudget) (encoded rows : Z) (previous : option string)
    : result ImageError (DecodeBudget * Z * Z) :=
  match universe with
  | [] => Ok (budget, encoded, rows)
  | name :: universe =>
      '(b, previous) ← image_bucket index name previous caps;
      rows ← add_rows rows b caps;
      let ks := Keys.image (keys b) in
      let g := gr_image (gone b) in
      charge ← bucket_charge (slen name);
      budget ← Budget.take budget charge;
      budget ← Budget.take budget (t_decoded ks);
      budget ← Budget.take budget (t_decoded g);
      head ← bucket_bytes (slen name);
      encoded ← sum [encoded; head; t_encoded ks; t_encoded g];
      tallied_buckets index caps universe budget encoded rows previous
  end.

Definition tallied_size (index : KeyIndexState) (universe : list string) (caps : ImageCaps)
    : result ImageError ImageSize :=
  caps ← validate caps;
  let count := Z.of_nat (length universe) in
  _ ← refuse_if ((cap_buckets caps <? count)
                 || negb (Z.of_nat (base.size (buckets index)) =? count)) Incomplete;
  budget ← Budget.new (cap_decoded_bytes caps);
  charge ← state_charge count;
  budget ← Budget.take budget charge;
  '(budget, encoded, rows) ← tallied_buckets index caps universe budget HEADER_BYTES 0 None;
  _ ← refuse_if (cap_bytes caps <? encoded) Capacity;
  Ok (mkImageSize encoded (b_used budget) rows).

Fixpoint snapshot_buckets (index : KeyIndexState) (universe : list string)
    (B : gmap string BucketState) (total : IndexStats)
    : result ImageError (gmap string BucketState * IndexStats) :=
  match universe with
  | [] => Ok (B, total)
  | name :: universe =>
      source ← ok_or (buckets index !! name) Incomplete;
      snapshot_buckets index universe
        (<[name := image_bucket_state (keys source) (gone source) (b_stats source)]> B)
        (Stats.replace total stats_zero (b_stats source))
  end.

Definition snapshot_state (index : KeyIndexState) (universe : list string)
    : result ImageError KeyIndexState :=
  '(B, total) ← snapshot_buckets index universe ∅ stats_zero;
  Ok (mkIndex B total None ∅).

Fixpoint measure_keys (caps : ImageCaps) (rows : list (string * ObjEntry))
    (budget : DecodeBudget) (encoded : Z) : result ImageError (DecodeBudget * Z) :=
  match rows with
  | [] => Ok (budget, encoded)
  | (key, e) :: rows =>
      _ ← refuse_if (sempty key || (cap_name_bytes caps <? slen key)) Capacity;
      let class := storage_class e in
      _ ← refuse_if (sempty class || (cap_name_bytes caps <? slen class)) Capacity;
      tag ← match etag e with
            | Some tag => len ← etag_text_len tag; Ok (Some len)
            | None => Ok None
            end;
      _ ← refuse_if (is_some_and (λ len, cap_name_bytes caps <? len) tag) Capacity;
      _ ← refuse_if (is_some_and (λ size, size <? 0) (size e)) Corrupt;
      charge ← entry_charge (slen key) tag (slen class);
      budget ← Budget.take budget charge;
      n ← entry_bytes (slen key) e;
      encoded ← sum [encoded; n];
      measure_keys caps rows budget encoded
  end.

Fixpoint measure_gone (caps : ImageCaps) (ks : KeyRows) (rows : list (string * Z))
    (budget : DecodeBudget) (encoded : Z) : result ImageError (DecodeBudget * Z) :=
  match rows with
  | [] => Ok (budget, encoded)
  | (key, deleted_at) :: rows =>
      _ ← refuse_if (sempty key || (cap_name_bytes caps <? slen key)) Capacity;
      _ ← refuse_if (covers_row ks key deleted_at) Corrupt;
      charge ← gone_charge (slen key);
      budget ← Budget.take budget charge;
      n ← gone_bytes (slen key);
      encoded ← sum [encoded; n];
      measure_gone caps ks rows budget encoded
  end.

Fixpoint measure_buckets (index : KeyIndexState) (caps : ImageCaps) (universe : list string)
    (budget : DecodeBudget) (encoded rows : Z) (previous : option string)
    : result ImageError (DecodeBudget * Z * Z) :=
  match universe with
  | [] => Ok (budget, encoded, rows)
  | name :: universe =>
      '(b, previous) ← image_bucket index name previous caps;
      charge ← bucket_charge (slen name);
      budget ← Budget.take budget charge;
      head ← bucket_bytes (slen name);
      encoded ← sum [encoded; head];
      rows ← add_rows rows b caps;
      '(budget, encoded) ← measure_keys caps (Keys.iter (keys b)) budget encoded;
      '(budget, encoded) ← measure_gone caps (keys b) (Gone.iter (gone b)) budget encoded;
      measure_buckets index caps universe budget encoded rows previous
  end.

Definition measure_image (index : KeyIndexState) (universe : list string) (caps : ImageCaps)
    : result ImageError ImageSize :=
  caps ← validate caps;
  let count := Z.of_nat (length universe) in
  _ ← refuse_if ((cap_buckets caps <? count)
                 || negb (Z.of_nat (base.size (buckets index)) =? count)) Incomplete;
  budget ← Budget.new (cap_decoded_bytes caps);
  charge ← state_charge count;
  budget ← Budget.take budget charge;
  '(budget, encoded, rows) ← measure_buckets index caps universe budget HEADER_BYTES 0 None;
  _ ← refuse_if (cap_bytes caps <? encoded) Capacity;
  Ok (mkImageSize encoded (b_used budget) rows).
End image.
