(* ===== verification/ImageProps.v ===== *)
(** * Correctness of index images

    An image that was measured and encoded decodes, under exactly the measured
    byte count and charge, to the same buckets with every row reduced to its
    skeletal part; the donor's O(buckets) size taken from the row tallies is the
    size the row-by-row measurement finds. *)

From S2P Require Import Prelude.
From S2P Require Import ObjTypes.
From S2P Require Import ImageCodec.
From S2P Require Import CodecProps.
From S2P Require Import Rows.
From S2P Require Import IndexCapture.
From S2P Require Import KeyIndex.
From S2P Require Import IndexWf.
From S2P Require Import IndexSteps.
From S2P Require Import IndexInv.
From S2P Require Import Image.

(** ** What an image is *)

Definition enc_keys (rows : list (string * ObjEntry)) : bytes :=
  mjoin ((λ r, enc_entry r.1 r.2) <$> rows).
Definition enc_gone (rows : list (string * Z)) : bytes :=
  mjoin ((λ r, enc_text r.1 ++ enc_time r.2) <$> rows).

Definition enc_bucket (name : string) (b : BucketState) : bytes :=
  enc_text name ++ to_le_bytes 4 (Keys.len (keys b)) ++ enc_keys (Keys.iter (keys b))
    ++ to_le_bytes 4 (Gone.len (gone b)) ++ enc_gone (Gone.iter (gone b)).

Definition enc_buckets (index : KeyIndexState) (universe : list string) : bytes :=
  mjoin ((λ name, match buckets index !! name with Some b => enc_bucket name b | None => [] end) <$> universe).

Definition enc_image (index : KeyIndexState) (universe : list string) : bytes :=
  to_le_bytes 1 VERSION ++ to_le_bytes 4 (Z.of_nat (length universe)) ++ enc_buckets index universe.

Definition gone_ok (cap : Z) (ks : KeyRows) (r : string * Z) : Prop :=
  covers_row ks r.1 r.2 = false ∧ text_ok cap r.1 ∧ 0 <= r.2.


(** The buckets [universe] names, in order, are all fit for an image. *)
Fixpoint universe_ok (index : KeyIndexState) (caps : ImageCaps) (universe : list string)
    (rows : Z) (previous : option string) : Prop :=
  match universe with
  | [] => True
  | name :: universe =>
      not_after previous name = false ∧
      match buckets index !! name with
      | None => False
      | Some b =>
          complete_bucket b = true ∧ text_ok (cap_name_bytes caps) name ∧
          rows + bucket_rows b <= Z.min usize_max (cap_rows caps) ∧
          Keys.len (keys b) <= u32_max ∧ Gone.len (gone b) <= u32_max ∧
          Forall (λ r, entry_ok (cap_name_bytes caps) r.1 r.2) (Keys.iter (keys b)) ∧
          Forall (gone_ok (cap_name_bytes caps) (keys b)) (Gone.iter (gone b)) ∧
          universe_ok index caps universe (rows + bucket_rows b) (Some name)
      end
  end.

(** Every row of the index holds Rust values whose tags parse back. *)
Definition index_typed (index : KeyIndexState) : Prop :=
  ∀ name b, buckets index !! name = Some b →
    (∀ k e, kr_map (keys b) !! k = Some e → entry_typed e) ∧
    (∀ k t, gr_map (gone b) !! k = Some t → time_min <= t <= time_max).

(** ** Encoding *)

Lemma bind_ok_id {E A} (m : result E A) : (a ← m; Ok a) = m.
Proof. by destruct m. Qed.

Lemma bind_assoc {E A B C} (m : result E A) (f : A → result E B) (g : B → result E C) :
  ((m ≫= f) ≫= g) = (m ≫= λ a, f a ≫= g).
Proof. by destruct m. Qed.

Lemma emits_fail f p l : (∀ w w', f w ≠ Ok w') → ¬ p → emits f p l.
Proof. intros Hf Hp w w'. split; [intros H; by apply Hf in H|tauto]. Qed.

Lemma emits_eq f p l l' : l = l' → emits f p l → emits f p l'.
Proof. by intros ->. Qed.

Lemma emits_refuse (b : bool) e f p q l :
  (p ↔ b = false ∧ q) → emits f q l → emits (λ w, _ ← refuse_if b e; f w) p l.
Proof.
  intros Hp Hf. destruct b; cbn.
  - apply emits_err. rewrite Hp. by intros [? _].
  - eapply emits_iff; [|done]. rewrite Hp. tauto.
Qed.

Lemma write_keys_emits f p l rows cap :
  Forall (λ r, entry_typed r.2) rows → emits f p l →
  emits (λ w, w ← f w; write_keys w rows cap)
    (p ∧ Forall (λ r, entry_ok cap r.1 r.2) rows) (l ++ enc_keys rows).
Proof.
  intros Hty. revert f p l. induction Hty as [|[k e] rows He Hty IH]; intros f p l Hf; cbn [write_keys].
  - unfold enc_keys. cbn. rewrite app_nil_r. eapply emits_ext; [intros w; symmetry; apply bind_ok_id|].
    eapply emits_iff; [|done]. naive_solver.
  - eapply emits_ext; [intros w; apply bind_assoc|].
    specialize (IH (λ w, w ← f w; write_entry w k e cap) (p ∧ entry_ok cap k e) (l ++ enc_entry k e)).
    unfold enc_keys in *. cbn. rewrite app_assoc.
    eapply emits_iff; [|apply IH; apply emits_bind; [done|by apply write_entry_emits]].
    rewrite Forall_cons. cbn. tauto.
Qed.

Lemma write_gone_emits f p l ks rows cap :
  emits f p l →
  emits (λ w, w ← f w; write_gone w ks rows cap) (p ∧ Forall (gone_ok cap ks) rows) (l ++ enc_gone rows).
Proof.
  revert f p l. induction rows as [|[k t] rows IH]; intros f p l Hf; cbn [write_gone].
  - unfold enc_gone. cbn. rewrite app_nil_r. eapply emits_ext; [intros w; symmetry; apply bind_ok_id|].
    eapply emits_iff; [|done]. naive_solver.
  - specialize (IH (λ w, w ← f w; _ ← refuse_if (covers_row ks k t) Corrupt; w ← W.text w k cap; timestamp w t)
      (p ∧ gone_ok cap ks (k, t)) (l ++ enc_text k ++ enc_time t)).
    unfold enc_gone in *. cbn. rewrite app_assoc. eapply emits_ext; [|eapply emits_iff; [|apply IH]].
    + intros w. cbn beta. rewrite bind_assoc. destruct (f w) as [w1|]; [|done]. cbn.
      destruct (covers_row ks k t); cbn; [done|]. by destruct (W.text w1 k cap).
    + rewrite Forall_cons. tauto.
    + apply emits_bind; [done|]. eapply emits_refuse; [|emit]. done.
Qed.

Lemma sorted_rows_Forall {A} (Q : string → A → Prop) (m : gmap string A) :
  (∀ k v, m !! k = Some v → Q k v) → Forall (λ r, Q r.1 r.2) (sorted_rows m).
Proof. intros H. apply Forall_forall. intros [k v] Hin%elem_of_sorted_rows. by apply H. Qed.

Lemma len_nonneg b : 0 <= Keys.len (keys b) ∧ 0 <= Gone.len (gone b).
Proof. unfold Keys.len, Gone.len. lia. Qed.

Section encode.
Context {L : Layout}.

Lemma add_rows_Ok rows b caps n :
  0 <= rows →
  add_rows rows b caps = Ok n ↔ n = rows + bucket_rows b ∧ n <= Z.min usize_max (cap_rows caps).
Proof.
  intros Hr. destruct (len_nonneg b) as [Hk Hg]. unfold add_rows, bucket_rows, checked_add.
  destruct (Z.leb_spec (rows + Keys.len (keys b)) usize_max); cbn; [|split; [done|lia]].
  destruct (Z.leb_spec (rows + Keys.len (keys b) + Gone.len (gone b)) usize_max); cbn; [|split; [done|lia]].
  destruct (Z.ltb_spec (cap_rows caps) (rows + Keys.len (keys b) + Gone.len (gone b))); cbn.
  - split; [done|lia].
  - split; [intros [= <-]; lia|intros [-> _]; f_equal; lia].
Qed.

Lemma encode_buckets_emits index caps universe f p l rows previous :
  index_typed index → 0 <= rows → emits f p l →
  emits (λ w, w ← f w; encode_buckets index caps universe w rows previous)
    (p ∧ universe_ok index caps universe rows previous) (l ++ enc_buckets index universe).
Proof.
  intros Hty. revert f p l rows previous.
  induction universe as [|name universe IH]; intros f p l rows previous Hr Hf; cbn [encode_buckets universe_ok].
  { unfold enc_buckets. cbn. rewrite app_nil_r. eapply emits_ext; [intros w; symmetry; apply bind_ok_id|].
    eapply emits_iff; [|done]. naive_solver. }
  unfold enc_buckets. cbn. destruct (buckets index !! name) as [b|] eqn:Eb.
  2:{ apply emits_fail; [|tauto]. intros w w' H. inv_ok. discriminate. }
  destruct (Hty name b Eb) as [Htk _].
  set (g := λ w, w ← f w; _ ← refuse_if (not_after previous name) Corrupt;
    _ ← refuse_if (negb (complete_bucket b)) Incomplete;
    w ← W.text w name (cap_name_bytes caps); rows ← add_rows rows b caps; W.u32 w (Keys.len (keys b))).
  set (q := p ∧ not_after previous name = false ∧ complete_bucket b = true ∧ text_ok (cap_name_bytes caps) name ∧
    rows + bucket_rows b <= Z.min usize_max (cap_rows caps) ∧ Keys.len (keys b) <= u32_max).
  assert (Hg : emits g q (l ++ enc_text name ++ to_le_bytes 4 (Keys.len (keys b)))).
  { subst g q. apply emits_bind; [done|].
    eapply emits_refuse; [reflexivity|]. eapply emits_refuse; [rewrite negb_false_iff; reflexivity|].
    apply emits_bind; [apply text_emits|]. destruct (len_nonneg b).
    destruct (add_rows rows b caps) as [n|err] eqn:Ea.
    - apply add_rows_Ok in Ea as [-> Hle]; [|done]. eapply emits_iff; [|apply u32_emits]. lia.
    - apply emits_err. intros [Hle _]. assert (add_rows rows b caps = Ok (rows + bucket_rows b)) as E'
        by (by apply add_rows_Ok). congruence. }
  assert (Hkeys := write_keys_emits g q _ (Keys.iter (keys b)) (cap_name_bytes caps)
    (sorted_rows_Forall (λ _ e, entry_typed e) _ Htk) Hg).
  assert (Hcount := emits_bind _ _ _ _ _ _ Hkeys (u32_emits (Gone.len (gone b)))).
  assert (Hgone := write_gone_emits _ _ _ (keys b) (Gone.iter (gone b)) (cap_name_bytes caps) Hcount).
  specialize (IH _ _ _ (rows + bucket_rows b) (Some name) ltac:(destruct (len_nonneg b); unfold bucket_rows; lia) Hgone).
  eapply emits_ext; [|eapply emits_iff; [|eapply emits_eq; [|exact IH]]].
  - intros w. cbn beta. subst g. cbn beta. destruct (f w) as [w1|]; [|done]. cbn.
    destruct (not_after previous name); [done|]. destruct (complete_bucket b); [|done]. cbn.
    destruct (W.text w1 name _) as [w2|]; [|done]. cbn.
    destruct (add_rows rows b caps) as [n|] eqn:Ea; [|done]. cbn.
    apply add_rows_Ok in Ea as [-> _]; [|done].
    destruct (W.u32 w2 _) as [w3|]; [|done]. cbn. destruct (write_keys w3 _ _) as [w4|]; [|done]. cbn.
    by destruct (W.u32 w4 _).
  - subst q. destruct (len_nonneg b). intuition lia.
  - unfold enc_bucket, enc_buckets. by rewrite <- !app_assoc.
Qed.
End encode.

(** ** Decoding *)

Section decode.
Context {L : Layout} {LO : LayoutOk L} {P : EtagParse}.

Definition keys_cost (rows : list (string * ObjEntry)) : Z :=
  foldr (λ r n, row_charge r.1 r.2 + n) 0 rows.
Definition gone_cost (rows : list (string * Z)) : Z := foldr (λ r n, tomb_charge r.1 + n) 0 rows.

Lemma keys_cost_nonneg rows : 0 <= keys_cost rows.
Proof.
  induction rows as [|[k e] rows IH]; [done|].
  change (keys_cost ((k, e) :: rows)) with (row_charge k e + keys_cost rows).
  pose proof (row_charge_nonneg k e). lia.
Qed.

Lemma gone_cost_nonneg rows : 0 <= gone_cost rows.
Proof.
  induction rows as [|[k t] rows IH]; [done|].
  change (gone_cost ((k, t) :: rows)) with (tomb_charge k + gone_cost rows).
  pose proof (tomb_charge_nonneg k). lia.
Qed.

Definition insert_all (ks : KeyRows) (rows : list (string * ObjEntry)) : KeyRows :=
  foldl (λ ks r, (Keys.insert ks r.1 (skeletal r.2)).2) ks rows.
Definition count_all (st : IndexStats) (rows : list (string * ObjEntry)) : IndexStats :=
  foldl (λ st r, Stats.replace st stats_zero (Stats.for_entry r.2)) st rows.
Definition raise_all (g : GoneRows) (rows : list (string * Z)) : GoneRows :=
  foldl (λ g r, (Gone.insert g r.1 r.2).2) g rows.

(** [previous] is before every key of [rows], and [rows] is ascending. *)
Definition ascending {A} (previous : option string) (rows : list (string * A)) : Prop :=
  StronglySorted key_lt rows ∧ Forall (λ r, not_after previous r.1 = false) rows.

Lemma ascending_cons {A} previous (r : string * A) rows :
  ascending previous (r :: rows) → not_after previous r.1 = false ∧ ascending (Some r.1) rows.
Proof.
  intros [Hs Hf]. inversion Hs as [|? ? Hs' Hall]; subst. inversion Hf; subst. split; [done|].
  split; [done|]. eapply Forall_impl; [exact Hall|]. intros r' Hlt. unfold not_after, key_lt in *. cbn.
  apply not_true_iff_false. intros Hle. apply sleb_le in Hle as [Hle|Hle].
  - by apply slt_asym in Hlt.
  - rewrite Hle in Hlt. by apply slt_irrefl in Hlt.
Qed.

Lemma sorted_ascending {A} (m : gmap string A) : ascending None (sorted_rows m).
Proof. split; [apply sorted_rows_sorted|]. by apply Forall_forall. Qed.

Lemma read_keys_reads cap rows previous ks st b r t :
  Forall (λ x, row_ok cap x.1 x.2) rows → ascending previous rows →
  0 <= b_used b → b_used b + keys_cost rows <= Z.min usize_max (b_limit b) →
  unread r (enc_keys rows ++ t) →
  ∃ r', read_keys (length rows) r b cap previous ks st =
          Ok (insert_all ks rows, count_all st rows, r', mkBudget (b_used b + keys_cost rows) (b_limit b))
        ∧ unread r' t ∧ r_bytes r' = r_bytes r.
Proof.
  intros Hok. revert previous ks st b r. induction Hok as [|[k e] rows He Hok IH];
    intros previous ks st b r Hasc Hb0 Hb Hr; cbn [length read_keys].
  { exists r. cbn. rewrite Z.add_0_r. by destruct b. }
  apply ascending_cons in Hasc as [Hna Hasc]. cbn [fst snd] in *.
  change (keys_cost ((k, e) :: rows)) with (row_charge k e + keys_cost rows) in *.
  pose proof (row_charge_nonneg k e). pose proof (keys_cost_nonneg rows).
  change (enc_keys ((k, e) :: rows)) with (enc_entry k e ++ enc_keys rows) in Hr. rewrite <- app_assoc in Hr.
  assert (b_used b + row_charge k e <= Z.min usize_max (b_limit b)) as Hb1 by lia.
  destruct (read_entry_reads cap k e b r _ He Hb1 Hb0 Hr) as (r1 & E1 & Hr1 & Hby).
  rewrite E1. cbn [mbind result_bind]. rewrite Hna. cbn [refuse_if mbind result_bind].
  destruct (IH (Some k) (Keys.insert ks k (skeletal e)).2 (Stats.replace st stats_zero (Stats.for_entry (skeletal e)))
    (mkBudget (b_used b + row_charge k e) (b_limit b)) r1 Hasc) as (r2 & E2 & Hr2 & Hb2); cbn; [lia|lia|done|].
  cbn in E2. rewrite E2. exists r2. rewrite Z.add_assoc. split_and!; [done|done|congruence].
Qed.

Lemma read_gone_reads cap ks rows previous g b r t :
  Forall (λ x, text_ok cap x.1 ∧ str_ok x.1 = true ∧ time_ok x.2 ∧ covers_row ks x.1 x.2 = false) rows →
  ascending previous rows →
  0 <= b_used b → b_used b + gone_cost rows <= Z.min usize_max (b_limit b) →
  unread r (enc_gone rows ++ t) →
  ∃ r', read_gone (length rows) r b cap previous ks g =
          Ok (raise_all g rows, r', mkBudget (b_used b + gone_cost rows) (b_limit b))
        ∧ unread r' t ∧ r_bytes r' = r_bytes r.
Proof.
  intros Hok. revert previous g b r. induction Hok as [|[k at_] rows (Hk & Hu & Ht & Hc) Hok IH];
    intros previous g b r Hasc Hb0 Hb Hr; cbn [length read_gone].
  { exists r. cbn. rewrite Z.add_0_r. by destruct b. }
  apply ascending_cons in Hasc as [Hna Hasc]. cbn [fst snd] in *.
  change (gone_cost ((k, at_) :: rows)) with (tomb_charge k + gone_cost rows) in *.
  pose proof (tomb_charge_nonneg k). pose proof (gone_cost_nonneg rows).
  change (enc_gone ((k, at_) :: rows)) with ((enc_text k ++ enc_time at_) ++ enc_gone rows) in Hr.
  rewrite <- !app_assoc in Hr.
  rd (text_reads cap k Hk Hu) Hr. rewrite Hna. cbn [refuse_if mbind result_bind].
  rewrite gone_charge_Ok by lia. cbn [mbind result_bind].
  rewrite budget_take_Ok by lia. cbn [mbind result_bind].
  rd (timestamp_reads at_ Ht) Hr. rewrite Hc. cbn [refuse_if mbind result_bind].
  edestruct (IH (Some k) (Gone.insert g k at_).2 (mkBudget (b_used b + tomb_charge k) (b_limit b)))
    as (r9 & E9 & Hr9 & Hb9); [done|cbn; lia|cbn; lia|exact Hr|].
  cbn [b_used b_limit] in E9. rewrite E9. exists r9. rewrite Z.add_assoc. split_and!; [done|done|congruence].
Qed.
End decode.
