(* ===== verification/ImageSizing.v ===== *)
(** * Sizing of index images

    The donor sizes an image twice: from the row tallies it keeps while the
    index lock is held ([tallied_size]), and row by row over the snapshot
    ([measure_image]).  Both are shown equal to one reference, the sum of the
    encoded lengths and charges of the rows. *)

From S2P Require Import Prelude.
From S2P Require Import ObjTypes.
From S2P Require Import ImageCodec.
From S2P Require Import CodecProps.
From S2P Require Import Rows.
From S2P Require Import IndexCapture.
From S2P Require Import KeyIndex.
From S2P Require Import IndexWf.
From S2P Require Import IndexSteps.
From S2P Require Import IndexInv.
From S2P Require Import Image.
From S2P Require Import ImageProps.

(** A row the image can carry under names of at most [cap] bytes. *)
Definition fits_entry (cap : Z) (key : string) (e : ObjEntry) : Prop :=
  0 < slen key <= cap ∧ 0 < slen (storage_class e) <= cap ∧
  (match etag e with Some v => slen (etag_text v) <= cap | None => True end) ∧
  (match size e with Some s => 0 <= s | None => True end).

Definition fits_bucket (cap : Z) (b : BucketState) : Prop :=
  Forall (λ r, fits_entry cap r.1 r.2) (Keys.iter (keys b)) ∧
  Forall (λ r, 0 < slen r.1 <= cap ∧ covers_row (keys b) r.1 r.2 = false) (Gone.iter (gone b)).

Definition fits_index (cap : Z) (index : KeyIndexState) : Prop :=
  ∀ name b, buckets index !! name = Some b → fits_bucket cap b.

(** Largest row charge and length under the largest name cap. *)
Definition MAX_ROW : Z := 2 ^ 20.

Lemma validate_Ok c c' :
  validate c = Ok c' →
  c' = c ∧ cap_bytes c <= 2 ^ 28 ∧ cap_decoded_bytes c <= 2 ^ 30 ∧ cap_bytes c ≠ 0 ∧ cap_decoded_bytes c ≠ 0 ∧
  cap_buckets c <= 4096 ∧ cap_rows c <= 2000000 ∧ cap_name_bytes c <= 16384.
Proof.
  unfold validate. destruct (_ || _) eqn:E; [done|]. intros [= <-]. bool_prop.
  change (Z.shiftl 256 20) with 268435456 in *. change (Z.shiftl 1 30) with 1073741824 in *. split_and!; done || lia.
Qed.

Section sizing.
Context {L : Layout} {LO : LayoutOk L}.

Definition keys_len (rows : list (string * ObjEntry)) : Z := foldr (λ r n, entry_len r.1 r.2 + n) 0 rows.
Definition tombs_len (rows : list (string * Z)) : Z := foldr (λ r n, gone_len r.1 + n) 0 rows.

Lemma fits_small cap k e :
  cap <= 16384 → fits_entry cap k e → row_charge k e <= MAX_ROW ∧ entry_len k e <= MAX_ROW.
Proof.
  intros Hcap (Hk & Hc & Ht & _). pose proof LO as []. unfold MAX_ROW, u16_max in *. rewrite entry_len_eq.
  unfold row_charge, TIMESTAMP_BYTES. destruct (etag e), (is_some (size e)); lia.
Qed.

Lemma tomb_small cap k :
  cap <= 16384 → 0 < slen k <= cap → tomb_charge k <= MAX_ROW ∧ 0 <= gone_len k <= MAX_ROW.
Proof.
  intros Hcap Hk. pose proof LO as []. unfold MAX_ROW, u16_max, gone_len, tomb_charge, TIMESTAMP_BYTES in *. lia.
Qed.

(** Take [cost] from the budget and add [len] to the encoded size. *)
Definition meter (b : DecodeBudget) (encoded cost len : Z) : result ImageError (DecodeBudget * Z) :=
  if bool_decide (b_used b + cost <= Z.min usize_max (b_limit b) ∧ encoded + len <= usize_max)
  then Ok (mkBudget (b_used b + cost) (b_limit b), encoded + len) else Err Capacity.

(** A budget and size in range. *)
Definition metered (b : DecodeBudget) (encoded : Z) : Prop :=
  0 <= b_used b <= Z.min usize_max (b_limit b) ∧ 0 <= encoded <= usize_max.

Lemma meter_zero b e : metered b e → meter b e 0 0 = Ok (b, e).
Proof.
  intros []. unfold meter. rewrite bool_decide_true by lia. rewrite !Z.add_0_r. by destruct b.
Qed.

Lemma meter_metered b e c l b' e' :
  0 <= c → 0 <= l → metered b e → meter b e c l = Ok (b', e') → metered b' e'.
Proof.
  intros Hc Hl []. unfold meter. case_bool_decide; [|done]. intros [= <- <-]. split; cbn; lia.
Qed.

Lemma meter_same b e c b' e' : meter b e c 0 = Ok (b', e') → e' = e.
Proof. unfold meter. case_bool_decide; [|done]. intros [= _ <-]. lia. Qed.

Lemma meter_meter {A} b e c1 l1 c2 l2 (k : DecodeBudget → Z → result ImageError A) :
  0 <= c2 → 0 <= l2 →
  ('(b, e) ← meter b e c1 l1; '(b, e) ← meter b e c2 l2; k b e) =
  ('(b, e) ← meter b e (c1 + c2) (l1 + l2); k b e).
Proof.
  intros Hc Hl. unfold meter. case_bool_decide as H1; cbn [mbind result_bind b_used b_limit].
  - rewrite !Z.add_assoc. case_bool_decide as H2; cbn [mbind result_bind]; by rewrite ?Z.add_assoc.
  - rewrite bool_decide_false by lia. done.
Qed.

Lemma meter_ext {A} b e c l c' l' (k : DecodeBudget → Z → result ImageError A) :
  c = c' → l = l' → ('(b, e) ← meter b e c l; k b e) = ('(b, e) ← meter b e c' l'; k b e).
Proof. by intros -> ->. Qed.

Lemma meter_ret b e c l : ('(b, e) ← meter b e c l; Ok (b, e)) = meter b e c l.
Proof. unfold meter. by case_bool_decide. Qed.

Lemma take_meter {A} b e c (k : DecodeBudget → result ImageError A) :
  0 <= e <= usize_max → (b ← Budget.take b c; k b) = ('(b, _) ← meter b e c 0; k b).
Proof.
  intros He. unfold meter, Budget.take, checked_add. destruct (Z.leb_spec (b_used b + c) usize_max); cbn.
  - destruct (Z.ltb_spec (b_limit b) (b_used b + c)); cbn.
    + rewrite bool_decide_false by lia. done.
    + rewrite bool_decide_true by lia. done.
  - rewrite bool_decide_false by lia. done.
Qed.

Lemma sum_meter {A} b e l (k : DecodeBudget → Z → result ImageError A) :
  metered b e → 0 <= l → (e ← sum [e; l]; k b e) = ('(b, e) ← meter b e 0 l; k b e).
Proof.
  intros [] Hl. unfold meter. rewrite Z.add_0_r. replace (mkBudget (b_used b) (b_limit b)) with b by (by destruct b). case_bool_decide as H1.
  - assert (sum [e; l] = Ok (e + l)) as ->; [|done]. apply sum_Ok; [repeat constructor; lia|]. cbn [foldr]. lia.
  - assert (sum [e; l] = Err Capacity) as ->; [|done]. unfold sum, sum_from, checked_add. cbn [foldl mbind option_bind].
    rewrite (proj2 (Z.leb_le _ _)) by lia. cbn [mbind option_bind].
    by rewrite (proj2 (Z.leb_gt _ _)) by lia.
Qed.

Lemma take_sum {A} b e c l (k : DecodeBudget → Z → result ImageError A) :
  metered b e → 0 <= c → 0 <= l →
  (b ← Budget.take b c; e ← sum [e; l]; k b e) = ('(b, e) ← meter b e c l; k b e).
Proof.
  intros [H1 H2] Hc Hl. rewrite (take_meter b e) by done. rewrite (meter_ext _ _ c l (c + 0) (0 + l)) by lia.
  rewrite <- meter_meter by lia. unfold meter at 1 3. case_bool_decide; [|done]. cbn [mbind result_bind].
  rewrite Z.add_0_r. apply sum_meter; [|done]. split; cbn; lia.
Qed.

Lemma entry_len_nonneg k e : 0 <= entry_len k e.
Proof. unfold entry_len. lia. Qed.

Lemma keys_len_nonneg rows : 0 <= keys_len rows.
Proof.
  induction rows as [|[k e] rows IH]; [done|].
  change (keys_len ((k, e) :: rows)) with (entry_len k e + keys_len rows). pose proof (entry_len_nonneg k e). lia.
Qed.

Lemma gone_len_nonneg k : 0 <= gone_len k.
Proof. unfold gone_len, TIMESTAMP_BYTES. pose proof (slen_nonneg k). lia. Qed.

Lemma tombs_len_nonneg rows : 0 <= tombs_len rows.
Proof.
  induction rows as [|[k t] rows IH]; [done|].
  change (tombs_len ((k, t) :: rows)) with (gone_len k + tombs_len rows). pose proof (gone_len_nonneg k). lia.
Qed.

Lemma name_fits cap k : 0 < slen k <= cap → sempty k || (cap <? slen k) = false.
Proof.
  intros H. apply orb_false_iff. split; [|apply Z.ltb_ge; lia].
  apply not_true_iff_false. rewrite sempty_slen. lia.
Qed.

(** The row-by-row measurement is the sum over the rows. *)
Lemma measure_keys_meter caps rows b e :
  cap_name_bytes caps <= 16384 → Forall (λ r, fits_entry (cap_name_bytes caps) r.1 r.2) rows → metered b e →
  measure_keys caps rows b e = meter b e (keys_cost rows) (keys_len rows).
Proof.
  intros Hcap Hf. revert b e. induction Hf as [|[k x] rows Hx Hf IH]; intros b e Hm; cbn [measure_keys].
  { by rewrite meter_zero. }
  cbn [fst snd] in Hx. destruct (fits_small _ _ _ Hcap Hx) as [Hc Hl]. destruct Hx as (Hk & Hcl & Ht & Hs).
  change (keys_cost ((k, x) :: rows)) with (row_charge k x + keys_cost rows).
  change (keys_len ((k, x) :: rows)) with (entry_len k x + keys_len rows).
  rewrite !name_fits by done. cbn [refuse_if mbind result_bind].
  unfold MAX_ROW in *. assert (row_charge k x <= usize_max ∧ entry_len k x <= usize_max) as [Hcu Hlu]
    by (unfold usize_max, u64_max; lia).
  pose proof (entry_charge_Ok k x Hcu) as Hch.
  assert ((match etag x with Some tag => len ← etag_text_len tag; Ok (Some len) | None => Ok None end)
    = Ok (slen ∘ etag_text <$> etag x)) as ->.
  { destruct (etag x) as [v|]; [|done]. rewrite (proj2 (etag_text_len_Ok v (slen (etag_text v)))); [done|].
    split; [done|]. unfold usize_max, u64_max. lia. }
  cbn [mbind result_bind]. rewrite Hch. rewrite (entry_bytes_Ok k x Hlu).
  assert (is_some_and (λ len, cap_name_bytes caps <? len) (slen ∘ etag_text <$> etag x) = false) as ->.
  { destruct (etag x); cbn; [by apply Z.ltb_ge|done]. }
  assert (is_some_and (λ size, size <? 0) (size x) = false) as ->.
  { destruct (size x); cbn; [by apply Z.ltb_ge|done]. }
  cbn [refuse_if mbind result_bind]. pose proof (row_charge_nonneg k x). pose proof (entry_len_nonneg k x).
  rewrite take_sum by done. rewrite <- (meter_ret b e (_ + _)). rewrite <- meter_meter.
  - destruct (meter b e (row_charge k x) (entry_len k x)) as [[b' e']|] eqn:Em; [|done]. cbn [mbind result_bind].
    rewrite meter_ret. apply IH. by eapply meter_metered; [| | |exact Em].
  - apply keys_cost_nonneg.
  - apply keys_len_nonneg.
Qed.

Lemma measure_gone_meter caps ks rows b e :
  cap_name_bytes caps <= 16384 →
  Forall (λ r, 0 < slen r.1 <= cap_name_bytes caps ∧ covers_row ks r.1 r.2 = false) rows → metered b e →
  measure_gone caps ks rows b e = meter b e (gone_cost rows) (tombs_len rows).
Proof.
  intros Hcap Hf. revert b e. induction Hf as [|[k t] rows [Hk Hc] Hf IH]; intros b e Hm; cbn [measure_gone].
  { by rewrite meter_zero. }
  cbn [fst snd] in *. destruct (tomb_small _ _ Hcap Hk) as [Hcu Hlu].
  change (gone_cost ((k, t) :: rows)) with (tomb_charge k + gone_cost rows).
  change (tombs_len ((k, t) :: rows)) with (gone_len k + tombs_len rows).
  rewrite !name_fits by done. rewrite Hc. cbn [refuse_if mbind result_bind]. unfold MAX_ROW in *.
  rewrite gone_charge_Ok, gone_bytes_Ok by (unfold usize_max, u64_max; lia).
  cbn [mbind result_bind]. pose proof (tomb_charge_nonneg k).
  rewrite take_sum by lia || done. rewrite <- (meter_ret b e (_ + _)). rewrite <- meter_meter.
  - destruct (meter b e (tomb_charge k) (gone_len k)) as [[b' e']|] eqn:Em; [|done]. cbn [mbind result_bind].
    rewrite meter_ret. apply IH. eapply meter_metered; [| | |exact Em]; [done|lia|done].
  - apply gone_cost_nonneg.
  - apply tombs_len_nonneg.
Qed.

(** The reference: the whole cost and length of one bucket. *)
Definition bucket_cost (name : string) (b : BucketState) : Z :=
  slen name + size_of_String + keys_cost (Keys.iter (keys b)) + gone_cost (Gone.iter (gone b)).
Definition bucket_len (name : string) (b : BucketState) : Z :=
  12 + slen name + keys_len (Keys.iter (keys b)) + tombs_len (Gone.iter (gone b)).

Definition rows_over (rows : Z) (b : BucketState) (caps : ImageCaps) : bool :=
  bool_decide (Z.min usize_max (cap_rows caps) < rows + bucket_rows b).

Fixpoint sized_buckets (index : KeyIndexState) (caps : ImageCaps) (universe : list string)
    (budget : DecodeBudget) (encoded rows : Z) (previous : option string)
    : result ImageError (DecodeBudget * Z * Z) :=
  match universe with
  | [] => Ok (budget, encoded, rows)
  | name :: universe =>
      '(b, previous) ← image_bucket index name previous caps;
      _ ← refuse_if (rows_over rows b caps) Capacity;
      '(budget, encoded) ← meter budget encoded (bucket_cost name b) (bucket_len name b);
      sized_buckets index caps universe budget encoded (rows + bucket_rows b) previous
  end.

Lemma add_rows_eq rows b caps :
  0 <= rows → add_rows rows b caps = (_ ← refuse_if (rows_over rows b caps) Capacity; Ok (rows + bucket_rows b)).
Proof.
  intros Hr. pose proof (add_rows_Ok rows b caps (rows + bucket_rows b) Hr) as Hok. unfold rows_over.
  case_bool_decide as H; cbn.
  - destruct (add_rows rows b caps) as [n|e] eqn:E.
    + apply add_rows_Ok in E; [lia|done].
    + f_equal. unfold add_rows in E. destruct (checked_add _ rows _); cbn in E; [|by injection E].
      destruct (checked_add _ _ _); cbn in E; [|by injection E].
      destruct (_ <? _); cbn in E; [by injection E|done].
  - apply Hok. split; [done|]. lia.
Qed.

Lemma refuse_meter {A} x b e c l (k : DecodeBudget → Z → result ImageError A) :
  ('(b, e) ← meter b e c l; _ ← refuse_if x Capacity; k b e) =
  (_ ← refuse_if x Capacity; '(b, e) ← meter b e c l; k b e).
Proof. unfold meter. case_bool_decide; destruct x; done. Qed.

Lemma image_bucket_Ok index name previous caps b p :
  image_bucket index name previous caps = Ok (b, p) →
  buckets index !! name = Some b ∧ p = Some name ∧ 0 < slen name <= cap_name_bytes caps ∧
  not_after previous name = false ∧ complete_bucket b = true.
Proof.
  unfold image_bucket. intros H. inv_ok. simplify_eq. bool_prop. split_and!; try done.
  pose proof (slen_nonneg name). assert (slen name ≠ 0); [|lia]. intros Hz. apply sempty_slen in Hz. congruence.
Qed.

Lemma bucket_charge_Ok name : slen name <= 16384 → bucket_charge (slen name) = Ok (slen name + size_of_String).
Proof.
  intros H. pose proof LO as []. pose proof (slen_nonneg name). unfold bucket_charge.
  apply sum_Ok; [repeat constructor; lia|]. cbn [foldr]. unfold u16_max, usize_max, u64_max in *. lia.
Qed.

Lemma bucket_bytes_Ok name : slen name <= 16384 → bucket_bytes (slen name) = Ok (12 + slen name).
Proof.
  intros H. pose proof (slen_nonneg name). unfold bucket_bytes.
  rewrite text_bytes_Ok by (unfold usize_max, u64_max; lia). cbn [mbind result_bind].
  apply sum_Ok; [repeat constructor; lia|]. cbn [foldr]. unfold usize_max, u64_max in *. lia.
Qed.

(** The row-by-row measurement computes the reference. *)
Lemma measure_buckets_eq index caps universe b e rows previous :
  cap_name_bytes caps <= 16384 → fits_index (cap_name_bytes caps) index → metered b e → 0 <= rows →
  measure_buckets index caps universe b e rows previous = sized_buckets index caps universe b e rows previous.
Proof.
  intros Hcap Hf. revert b e rows previous.
  induction universe as [|name universe IH]; intros b e rows previous Hm Hr; cbn [measure_buckets sized_buckets]; [done|].
  destruct (image_bucket index name previous caps) as [[st p]|] eqn:Ei; [|done]. cbn [mbind result_bind].
  apply image_bucket_Ok in Ei as (Hb & -> & Hn & _ & _). destruct (Hf name st Hb) as [Hk Hg].
  rewrite bucket_charge_Ok, bucket_bytes_Ok by lia. cbn [mbind result_bind]. pose proof LO as [[Hs _] _ _ _ _ _ _].
  rewrite take_sum by lia || done. rewrite add_rows_eq by done.
  set (bc := slen name + size_of_String). set (bl := 12 + slen name).
  trans ('(b, e) ← meter b e bc bl; _ ← refuse_if (rows_over rows st caps) Capacity;
    '(b, e) ← meter b e (keys_cost (Keys.iter (keys st))) (keys_len (Keys.iter (keys st)));
    '(b, e) ← meter b e (gone_cost (Gone.iter (gone st))) (tombs_len (Gone.iter (gone st)));
    measure_buckets index caps universe b e (rows + bucket_rows st) (Some name)).
  - destruct (meter b e bc bl) as [[b1 e1]|] eqn:E1; [|done]. cbn [mbind result_bind].
    apply meter_metered in E1; [|lia|lia|done].
    destruct (rows_over rows st caps); [done|]. cbn [refuse_if mbind result_bind].
    rewrite measure_keys_meter by done.
    destruct (meter b1 e1 _ _) as [[b2 e2]|] eqn:E2; [|done]. cbn [mbind result_bind].
    apply meter_metered in E2; [|apply keys_cost_nonneg|apply keys_len_nonneg|done].
    by rewrite measure_gone_meter.
  - rewrite refuse_meter. destruct (rows_over rows st caps); [done|]. cbn [refuse_if mbind result_bind].
    pose proof (keys_cost_nonneg (Keys.iter (keys st))). pose proof (gone_cost_nonneg (Gone.iter (gone st))).
    pose proof (keys_len_nonneg (Keys.iter (keys st))). pose proof (tombs_len_nonneg (Gone.iter (gone st))).
    rewrite meter_meter, meter_meter by lia. unfold bucket_cost, bucket_len.
    destruct (meter b e _ _) as [[b1 e1]|] eqn:E1; [|done]. cbn [mbind result_bind].
    apply meter_metered in E1; [|lia|lia|done]. apply IH; [done|].
    unfold bucket_rows. destruct (len_nonneg st). lia.
Qed.

Lemma foldr_rows_bound {A} (f : string * A → Z) rows c :
  Forall (λ r, 0 <= f r <= c) rows → 0 <= foldr (λ r n, f r + n) 0 rows <= Z.of_nat (length rows) * c.
Proof. induction 1; cbn [foldr length]; lia. Qed.

Lemma foldr_rows_ext {A} (f g : string * A → Z) rows :
  Forall (λ r, f r = g r) rows → foldr (λ r n, f r + n) 0 rows = foldr (λ r n, g r + n) 0 rows.
Proof. induction 1 as [|r rows H _ IH]; cbn [foldr]; [done|]. by rewrite H, IH. Qed.

(** A wrapped sum of few small parts is the sum. *)
Lemma tally_sum {A} (f g : string * A → Z) (m : gmap string A) :
  Z.of_nat (base.size m) <= 2000000 →
  Forall (λ r, f r = g r ∧ 0 <= g r <= MAX_ROW) (sorted_rows m) →
  wrap (msum (λ k v, f (k, v)) m) = foldr (λ r n, g r + n) 0 (sorted_rows m).
Proof.
  intros Hn Hf. rewrite msum_sorted.
  rewrite (foldr_rows_ext (λ r, f (r.1, r.2)) g) by (eapply Forall_impl; [exact Hf|]; by intros [] []).
  apply wrap_small. pose proof (foldr_rows_bound g (sorted_rows m) MAX_ROW) as Hb.
  rewrite length_sorted_rows in Hb. unfold MAX_ROW, usize_max, u64_max in *.
  destruct Hb; [eapply Forall_impl; [exact Hf|]; by intros r []|]. lia.
Qed.

Lemma keys_image_exact cap ks :
  cap <= 16384 → keys_wf ks → Keys.len ks <= 2000000 → Forall (λ r, fits_entry cap r.1 r.2) (Keys.iter ks) →
  Keys.image ks = mkTally (keys_len (Keys.iter ks)) (keys_cost (Keys.iter ks)).
Proof.
  intros Hcap Hwf Hn Hf. unfold Keys.image. rewrite Hwf. unfold keys_tally.
  assert (∀ k e, fits_entry cap k e →
    Tally.entry (slen k) e = mkTally (entry_len k e) (row_charge k e)) as Ht.
  { intros k e He. destruct (fits_small _ _ _ Hcap He). unfold MAX_ROW in *.
    apply tally_entry_exact; unfold usize_max, u64_max; lia. }
  f_equal.
  - apply (tally_sum (λ r, t_encoded (Tally.entry (slen r.1) r.2)) (λ r, entry_len r.1 r.2)); [done|].
    eapply Forall_impl; [exact Hf|]. intros [k e] He. cbn [fst snd] in *. rewrite Ht by done.
    pose proof (entry_len_nonneg k e). by destruct (fits_small _ _ _ Hcap He).
  - apply (tally_sum (λ r, t_decoded (Tally.entry (slen r.1) r.2)) (λ r, row_charge r.1 r.2)); [done|].
    eapply Forall_impl; [exact Hf|]. intros [k e] He. cbn [fst snd] in *. rewrite Ht by done.
    pose proof (row_charge_nonneg k e). by destruct (fits_small _ _ _ Hcap He).
Qed.

Lemma gone_image_exact cap g :
  cap <= 16384 → gone_wf g → Gone.len g <= 2000000 → Forall (λ r, 0 < slen r.1 <= cap) (Gone.iter g) →
  gr_image g = mkTally (tombs_len (Gone.iter g)) (gone_cost (Gone.iter g)).
Proof.
  intros Hcap Hwf Hn Hf. rewrite (gw_image g Hwf). unfold gone_tally.
  assert (∀ k, 0 < slen k <= cap → Tally.tombstone (slen k) = mkTally (gone_len k) (tomb_charge k)) as Ht.
  { intros k Hk. destruct (tomb_small _ _ Hcap Hk). unfold MAX_ROW in *.
    apply tally_tombstone_exact; unfold usize_max, u64_max; lia. }
  f_equal.
  - apply (tally_sum (λ r, t_encoded (Tally.tombstone (slen r.1))) (λ r, gone_len r.1)); [done|].
    eapply Forall_impl; [exact Hf|]. intros [k t] Hk. cbn [fst snd] in *. rewrite Ht by done.
    by destruct (tomb_small _ _ Hcap Hk).
  - apply (tally_sum (λ r, t_decoded (Tally.tombstone (slen r.1))) (λ r, tomb_charge r.1)); [done|].
    eapply Forall_impl; [exact Hf|]. intros [k t] Hk. cbn [fst snd] in *. rewrite Ht by done.
    pose proof (tomb_charge_nonneg k). by destruct (tomb_small _ _ Hcap Hk).
Qed.

Lemma sum_same parts parts' :
  Forall (λ p, 0 <= p) parts → Forall (λ p, 0 <= p) parts' →
  foldr Z.add 0 parts = foldr Z.add 0 parts' → sum parts = sum parts'.
Proof.
  intros H1 H2 He. pose proof (λ n, sum_Ok parts n H1) as E1. pose proof (λ n, sum_Ok parts' n H2) as E2.
  rewrite He in E1. unfold sum in *. destruct (sum_from _ parts) as [x|], (sum_from _ parts') as [y|]; cbn in *.
  - symmetry. by apply (proj2 (E2 x)), (proj1 (E1 x)).
  - symmetry. by apply (proj2 (E2 x)), (proj1 (E1 x)).
  - by apply (proj2 (E1 y)), (proj1 (E2 y)).
  - done.
Qed.

(** [sum] of four parts adds the last three to the first. *)
Lemma sum4 a b c d : 0 <= a → 0 <= b → 0 <= c → 0 <= d → sum [a; b; c; d] = sum [a; b + c + d].
Proof. intros. apply sum_same; [repeat constructor; lia..|]. cbn [foldr]. lia. Qed.

Lemma tallied_buckets_eq index caps universe b e rows previous :
  cap_name_bytes caps <= 16384 → cap_rows caps <= 2000000 → index_wf index →
  fits_index (cap_name_bytes caps) index → metered b e → 0 <= rows →
  tallied_buckets index caps universe b e rows previous = sized_buckets index caps universe b e rows previous.
Proof.
  intros Hcap Hrows Hwf Hf. revert b e rows previous.
  induction universe as [|name universe IH]; intros b e rows previous Hm Hr; cbn [tallied_buckets sized_buckets]; [done|].
  destruct (image_bucket index name previous caps) as [[st p]|] eqn:Ei; [|done]. cbn [mbind result_bind].
  apply image_bucket_Ok in Ei as (Hb & -> & Hn & _ & _). destruct (Hf name st Hb) as [Hk Hg].
  destruct (iw_bucket index Hwf name st Hb) as [Hkw Hgw _ _ _ _ _ _ _ _ _].
  rewrite add_rows_eq by done. unfold rows_over.
  case_bool_decide as Hover; [done|]. cbn [refuse_if mbind result_bind]. unfold bucket_rows in Hover.
  destruct (len_nonneg st) as [Hl1 Hl2].
  rewrite (keys_image_exact (cap_name_bytes caps)), (gone_image_exact (cap_name_bytes caps)); [|done|done|lia| |done|done|lia|done].
  2:{ eapply Forall_impl; [exact Hg|]. by intros r []. }
  cbn [t_encoded t_decoded].
  pose proof (keys_cost_nonneg (Keys.iter (keys st))). pose proof (gone_cost_nonneg (Gone.iter (gone st))).
  pose proof (keys_len_nonneg (Keys.iter (keys st))). pose proof (tombs_len_nonneg (Gone.iter (gone st))).
  rewrite bucket_charge_Ok, bucket_bytes_Ok by lia. cbn [mbind result_bind]. pose proof LO as [[Hs _] _ _ _ _ _ _].
  destruct Hm as [Hm1 Hm2]. rewrite sum4 by lia. unfold bucket_cost, bucket_len.
  set (kc := keys_cost _) in *. set (gc := gone_cost _) in *. set (kl := keys_len _) in *. set (gl := tombs_len _) in *.
  set (bc := slen name + size_of_String). set (bl := 12 + slen name + kl + gl).
  trans ('(b, e) ← meter b e bc 0; '(b, e) ← meter b e kc 0; '(b, e) ← meter b e gc bl;
    sized_buckets index caps universe b e (rows + bucket_rows st) (Some name)).
  - rewrite (take_meter b e) by done. destruct (meter b e bc 0) as [[b1 e1]|] eqn:E1; [|done]. cbn [mbind result_bind].
    pose proof (meter_same _ _ _ _ _ E1) as ->. apply meter_metered in E1; [|lia|done|done].
    rewrite (take_meter b1 e) by done. destruct (meter b1 e kc 0) as [[b2 e2]|] eqn:E2; [|done]. cbn [mbind result_bind].
    pose proof (meter_same _ _ _ _ _ E2) as ->. apply meter_metered in E2; [|done|done|done].
    rewrite take_sum; [|done|done|subst bl; lia].
    destruct (meter b2 e gc bl) as [[b3 e3]|] eqn:E3; [|done]. cbn [mbind result_bind].
    apply meter_metered in E3; [|done|subst bl; lia|done]. apply IH; [done|].
    unfold bucket_rows. lia.
  - rewrite meter_meter, meter_meter by (subst bl; lia). apply meter_ext; subst bc; lia.
Qed.

Lemma state_charge_Ok n :
  0 <= n <= 4096 →
  state_charge n = Ok (size_of_KeyIndexState + (n * HASH_SLOTS_PER_BUCKET + HASH_MIN_SLOTS) * (size_of_bucket_slot + 16)).
Proof.
  intros Hn. pose proof LO as []. unfold state_charge, bucket_slots, checked_mul, checked_add.
  unfold HASH_SLOTS_PER_BUCKET, HASH_MIN_SLOTS. unfold u16_max, usize_max, u64_max in *.
  rewrite (proj2 (Z.leb_le _ _)) by lia. cbn [mbind option_bind].
  rewrite (proj2 (Z.leb_le _ _)) by lia. cbn [ok_or mbind result_bind].
  rewrite (proj2 (Z.leb_le _ _)) by nia. cbn [ok_or mbind result_bind].
  apply sum_Ok; [repeat constructor; nia|]. cbn [foldr]. unfold usize_max, u64_max. nia.
Qed.

Definition state_cost (n : Z) : Z :=
  size_of_KeyIndexState + (n * HASH_SLOTS_PER_BUCKET + HASH_MIN_SLOTS) * (size_of_bucket_slot + 16).

Lemma state_cost_nonneg n : 0 <= n → 0 <= state_cost n.
Proof. intros Hn. pose proof LO as []. unfold state_cost, HASH_SLOTS_PER_BUCKET, HASH_MIN_SLOTS. nia. Qed.

Lemma budget_new_metered limit b c b' :
  Budget.new limit = Ok b → 0 <= c → Budget.take b c = Ok b' →
  b' = mkBudget c limit ∧ c <= Z.min usize_max limit.
Proof.
  unfold Budget.new. destruct (_ =? _); [done|]. intros [= <-] Hc. unfold Budget.take, checked_add. cbn [b_used b_limit].
  rewrite Z.add_0_l. destruct (Z.leb_spec c usize_max); cbn [ok_or mbind result_bind]; [|done]. destruct (Z.ltb_spec limit c); [done|].
  intros [= <-]. split; [done|lia].
Qed.

(** The size the donor takes from its running tallies while it holds the
    index, in one step per bucket, is the size the row-by-row measurement of
    the same index finds, errors included: neither the incremental updates of
    the tallies nor their wrapping arithmetic ever drift. *)
Theorem tallied_size_exact index universe caps :
  index_wf index → fits_index (cap_name_bytes caps) index →
  tallied_size index universe caps = measure_image index universe caps.
Proof.
  intros Hwf Hf. unfold tallied_size, measure_image.
  destruct (validate caps) as [c|] eqn:Hv; [|done]. apply validate_Ok in Hv as (-> & _ & _ & _ & _ & Hb & Hr & Hn).
  cbn [mbind result_bind]. destruct (_ || _) eqn:Eo; [done|]. bool_prop. cbn [refuse_if mbind result_bind].
  destruct (Budget.new _) as [b|] eqn:Eb; [|done]. cbn [mbind result_bind].
  rewrite state_charge_Ok by lia. cbn [mbind result_bind]. fold (state_cost (Z.of_nat (length universe))).
  pose proof (state_cost_nonneg (Z.of_nat (length universe)) ltac:(lia)) as Hc.
  destruct (Budget.take b _) as [b'|] eqn:Et; [|done]. cbn [mbind result_bind].
  destruct (budget_new_metered _ _ _ _ Eb Hc Et) as [-> Hle].
  assert (metered (mkBudget (state_cost (Z.of_nat (length universe))) (cap_decoded_bytes caps)) HEADER_BYTES)
    by (split; cbn; unfold HEADER_BYTES, usize_max, u64_max in *; lia).
  by rewrite tallied_buckets_eq, measure_buckets_eq by done || lia.
Qed.
End sizing.
