(* ===== verification/ImageRound.v ===== *)
(** * Image round trip

    A measured index encodes to exactly the measured length, the encoding
    decodes under exactly the measured charge to the same rows and tombstones,
    and whatever bytes decode at all give a well-formed index. *)

From S2P Require Import Prelude.
From S2P Require Import ObjTypes.
From S2P Require Import ImageCodec.
From S2P Require Import CodecProps.
From S2P Require Import Rows.
From S2P Require Import IndexCapture.
From S2P Require Import KeyIndex.
From S2P Require Import IndexWf.
From S2P Require Import IndexSteps.
From S2P Require Import IndexInv.
From S2P Require Import Image.
From S2P Require Import ImageProps.
From S2P Require Import ImageSizing.

(** Every time of the index can be put on the wire. *)
Definition index_after_epoch (index : KeyIndexState) : Prop :=
  ∀ name b, buckets index !! name = Some b →
    (∀ k e, kr_map (keys b) !! k = Some e → 0 <= last_modified e) ∧
    (∀ k t, gr_map (gone b) !! k = Some t → 0 <= t).

Lemma sorted_rows_Forall_iff {A} (Q : string → A → Prop) (m : gmap string A) :
  Forall (λ r, Q r.1 r.2) (sorted_rows m) ↔ ∀ k v, m !! k = Some v → Q k v.
Proof.
  split; [|apply sorted_rows_Forall]. rewrite Forall_forall.
  intros H k v Hk. apply (H (k, v)). by apply elem_of_sorted_rows.
Qed.

Lemma nonempty_slen s : sempty s = false → 0 < slen s.
Proof.
  intros Hs. pose proof (slen_nonneg s). assert (slen s ≠ 0); [|lia]. intros Hz%sempty_slen. congruence.
Qed.

(** Inserting rows one by one into a table. *)
Lemma foldl_insert_lookup {A B} (f : A → B) (m : gmap string B) (rows : list (string * A)) k :
  NoDup rows.*1 →
  foldl (λ m r, <[r.1 := f r.2]> m) m rows !! k =
  match (list_to_map rows : gmap string A) !! k with Some e => Some (f e) | None => m !! k end.
Proof.
  revert m. induction rows as [|[k' e] rows IH]; intros m Hnd; [done|].
  inversion Hnd as [|? ? Hni Hnd']; subst. cbn [foldl list_to_map fst snd]. rewrite IH by done.
  cbn. destruct (decide (k' = k)) as [->|].
  - rewrite lookup_insert_eq. rewrite (not_elem_of_list_to_map_1 rows k) by done. by rewrite lookup_insert_eq.
  - rewrite lookup_insert_ne by done. by rewrite lookup_insert_ne.
Qed.

Lemma checked_add_le max a b : a + b <= max → checked_add max a b = Some (a + b).
Proof. intros H. unfold checked_add. by rewrite (proj2 (Z.leb_le _ _)). Qed.

Lemma msum_fmap {A B} (g : A → B) (f : string → B → Z) (m : gmap string A) :
  msum f (g <$> m) = msum (λ k v, f k (g v)) m.
Proof.
  induction m as [|k v m Hk IH] using map_ind; [by rewrite fmap_empty, !msum_empty|].
  rewrite fmap_insert, !msum_insert_None by (by rewrite ?lookup_fmap, ?Hk). by rewrite IH.
Qed.

Lemma validate_recap caps bytes decoded :
  validate caps = Ok caps → 0 < bytes <= 2 ^ 28 → 0 < decoded <= 2 ^ 30 →
  validate (mkCaps bytes decoded (cap_buckets caps) (cap_rows caps) (cap_name_bytes caps)) =
  Ok (mkCaps bytes decoded (cap_buckets caps) (cap_rows caps) (cap_name_bytes caps)).
Proof.
  unfold validate. destruct (_ || _) eqn:E; [done|]. bool_prop. intros _ Hb Hd.
  change (Z.shiftl 256 20) with 268435456. change (Z.shiftl 1 30) with 1073741824.
  cbn [cap_bytes cap_decoded_bytes cap_buckets cap_rows cap_name_bytes].
  repeat match goal with
  | |- context [?a =? ?b] => rewrite (proj2 (Z.eqb_neq a b)) by lia
  | |- context [?a <? ?b] => rewrite (proj2 (Z.ltb_ge a b)) by lia
  end. done.
Qed.

Section round.
Context {L : Layout} {LO : LayoutOk L}.

Definition over_universe (f : string → BucketState → Z) (index : KeyIndexState) (universe : list string) : Z :=
  foldr (λ name n, (match buckets index !! name with Some b => f name b | None => 0 end) + n) 0 universe.

(** ** Measuring *)

Lemma measure_keys_fits caps rows b e out :
  measure_keys caps rows b e = Ok out → Forall (λ r, fits_entry (cap_name_bytes caps) r.1 r.2) rows.
Proof.
  revert b e. induction rows as [|[k x] rows IH]; intros b e H; cbn [measure_keys] in H; [constructor|].
  inv_ok. bool_prop. constructor; [|by eapply IH]. cbn [fst snd]. unfold fits_entry.
  split_and!; auto using nonempty_slen.
  - destruct (etag x) as [v|]; [|done]. inv_ok. simplify_eq. match goal with
    | H : etag_text_len v = Ok _ |- _ => apply etag_text_len_Ok in H as [-> _] end.
    by apply Z.ltb_ge.
  - destruct (size x); [|done]. by apply Z.ltb_ge.
Qed.

Lemma measure_gone_fits caps ks rows b e out :
  measure_gone caps ks rows b e = Ok out →
  Forall (λ r, 0 < slen r.1 <= cap_name_bytes caps ∧ covers_row ks r.1 r.2 = false) rows.
Proof.
  revert b e. induction rows as [|[k t] rows IH]; intros b e H; cbn [measure_gone] in H; [constructor|].
  inv_ok. bool_prop. constructor; [|by eapply IH]. auto using nonempty_slen.
Qed.

(** The buckets [universe] names, in order, are complete and fit. *)
Fixpoint universe_fits (index : KeyIndexState) (caps : ImageCaps) (universe : list string)
    (rows : Z) (previous : option string) : Prop :=
  match universe with
  | [] => True
  | name :: universe =>
      ∃ b, buckets index !! name = Some b ∧ not_after previous name = false ∧ complete_bucket b = true ∧
        0 < slen name <= cap_name_bytes caps ∧ rows + bucket_rows b <= Z.min usize_max (cap_rows caps) ∧
        fits_bucket (cap_name_bytes caps) b ∧ universe_fits index caps universe (rows + bucket_rows b) (Some name)
  end.

Lemma meter_Ok b e c l b' e' :
  meter b e c l = Ok (b', e') →
  b' = mkBudget (b_used b + c) (b_limit b) ∧ e' = e + l ∧
  b_used b + c <= Z.min usize_max (b_limit b) ∧ e + l <= usize_max.
Proof. unfold meter. case_bool_decide; [|done]. intros [= <- <-]. tauto. Qed.

Lemma over_universe_cons f index name universe b :
  buckets index !! name = Some b →
  over_universe f index (name :: universe) = f name b + over_universe f index universe.
Proof. intros H. unfold over_universe. cbn [foldr]. by rewrite H. Qed.

Lemma measure_buckets_Ok index caps universe b e rows previous b' e' rows' :
  cap_name_bytes caps <= 16384 → metered b e → 0 <= rows →
  measure_buckets index caps universe b e rows previous = Ok (b', e', rows') →
  universe_fits index caps universe rows previous ∧ metered b' e' ∧
  b' = mkBudget (b_used b + over_universe bucket_cost index universe) (b_limit b) ∧
  e' = e + over_universe bucket_len index universe ∧
  rows' = rows + over_universe (λ _, bucket_rows) index universe.
Proof.
  intros Hcap. revert b e rows previous.
  induction universe as [|name universe IH]; intros b e rows previous Hm Hr H; cbn [measure_buckets] in H.
  { simplify_eq. cbn. rewrite !Z.add_0_r. split_and!; try done. by destruct b'. }
  apply bind_ok in H as ([st p] & Ei & H). apply image_bucket_Ok in Ei as (Hb & -> & Hn & Hna & Hcb).
  rewrite bucket_charge_Ok, bucket_bytes_Ok in H by lia. cbn [mbind result_bind] in H.
  pose proof LO as [[Hs _] _ _ _ _ _ _]. rewrite take_sum in H by lia || done.
  apply bind_ok in H as ([b1 e1] & E1 & H). apply bind_ok in H as (n & En & H). apply add_rows_Ok in En as [-> Hn']; [|done].
  apply bind_ok in H as ([b2 e2] & E2 & H). apply bind_ok in H as ([b3 e3] & E3 & H).
  pose proof (measure_keys_fits _ _ _ _ _ E2) as Hk. pose proof (measure_gone_fits _ _ _ _ _ _ E3) as Hg.
  assert (metered b1 e1) as Hm1 by (eapply meter_metered; [| |exact Hm|exact E1]; lia).
  rewrite measure_keys_meter in E2 by done.
  pose proof (meter_metered _ _ _ _ _ _ (keys_cost_nonneg _) (keys_len_nonneg _) Hm1 E2) as Hm2.
  rewrite measure_gone_meter in E3 by done.
  pose proof (meter_metered _ _ _ _ _ _ (gone_cost_nonneg _) (tombs_len_nonneg _) Hm2 E3) as Hm3.
  apply IH in H as (Hu & Hm' & -> & -> & ->); [|done|destruct (len_nonneg st); unfold bucket_rows in *; lia].
  apply meter_Ok in E1 as (-> & -> & _ & _). apply meter_Ok in E2 as (-> & -> & _ & _).
  apply meter_Ok in E3 as (-> & -> & _ & _). cbn [b_used b_limit universe_fits] in *.
  rewrite !(over_universe_cons _ _ _ _ _ Hb). unfold bucket_cost, bucket_len in *.
  split_and!; [exists st; split_and!; try done; lia|done|f_equal; lia|lia|lia].
Qed.

Lemma fits_universe_ok index caps universe rows previous :
  cap_name_bytes caps <= 16384 → cap_rows caps <= 2000000 → 0 <= rows → index_after_epoch index →
  universe_fits index caps universe rows previous → universe_ok index caps universe rows previous.
Proof.
  intros Hcap Hrows Hr Ht. revert rows previous Hr.
  induction universe as [|name universe IH]; intros rows previous Hr; cbn [universe_fits universe_ok]; [done|].
  intros (b & Hb & Hna & Hcb & Hn & Hle & [Hk Hg] & Hu). rewrite Hb. destruct (Ht name b Hb) as [Htk Htg].
  destruct (len_nonneg b). unfold bucket_rows in *. unfold text_ok, u32_max.
  split_and!; try done; try lia.
  - rewrite Forall_forall in Hk |- *. intros [k e] Hin. specialize (Hk _ Hin). cbn [fst snd] in *.
    apply elem_of_sorted_rows, Htk in Hin. destruct Hk as (? & ? & He & ?).
    unfold entry_ok, text_ok, etag_ok, u32_max. split_and!; try done; try lia. destruct (etag e); [lia|done].
  - rewrite Forall_forall in Hg |- *. intros [k t] Hin. specialize (Hg _ Hin). cbn [fst snd] in *.
    apply elem_of_sorted_rows, Htg in Hin. unfold gone_ok, text_ok, u32_max. cbn [fst snd].
    split_and!; (by apply Hg) || lia.
  - apply IH; [lia|done].
Qed.

(** ** Lengths *)

Lemma length_enc_keys rows : Z.of_nat (length (enc_keys rows)) = keys_len rows.
Proof.
  induction rows as [|[k e] rows IH]; [done|].
  change (enc_keys ((k, e) :: rows)) with (enc_entry k e ++ enc_keys rows).
  change (keys_len ((k, e) :: rows)) with (entry_len k e + keys_len rows).
  rewrite length_app, Nat2Z.inj_add, IH. done.
Qed.

Lemma length_enc_gone rows : Z.of_nat (length (enc_gone rows)) = tombs_len rows.
Proof.
  induction rows as [|[k t] rows IH]; [done|].
  change (enc_gone ((k, t) :: rows)) with ((enc_text k ++ enc_time t) ++ enc_gone rows).
  change (tombs_len ((k, t) :: rows)) with (gone_len k + tombs_len rows).
  rewrite !length_app, !Nat2Z.inj_add, IH, length_enc_text, length_enc_time. unfold gone_len. lia.
Qed.

Lemma length_enc_bucket name b : Z.of_nat (length (enc_bucket name b)) = bucket_len name b.
Proof.
  unfold enc_bucket, bucket_len. rewrite !length_app, !Nat2Z.inj_add, !length_to_le_bytes.
  rewrite length_enc_text, length_enc_keys, length_enc_gone. lia.
Qed.

Lemma enc_buckets_cons index name universe b :
  buckets index !! name = Some b →
  enc_buckets index (name :: universe) = enc_bucket name b ++ enc_buckets index universe.
Proof. intros H. unfold enc_buckets. cbn. by rewrite H. Qed.

Lemma length_enc_buckets index universe :
  Z.of_nat (length (enc_buckets index universe)) = over_universe bucket_len index universe.
Proof.
  induction universe as [|name universe IH]; [done|].
  destruct (buckets index !! name) as [b|] eqn:Hb.
  - rewrite (enc_buckets_cons _ _ _ _ Hb), (over_universe_cons _ _ _ _ _ Hb).
    by rewrite length_app, Nat2Z.inj_add, IH, length_enc_bucket.
  - unfold enc_buckets, over_universe in *. cbn [fmap list_fmap foldr mjoin list_join]. rewrite Hb. done.
Qed.

Lemma length_enc_image index universe :
  Z.of_nat (length (enc_image index universe)) = HEADER_BYTES + over_universe bucket_len index universe.
Proof.
  unfold enc_image. rewrite !length_app, !Nat2Z.inj_add, !length_to_le_bytes, length_enc_buckets.
  unfold HEADER_BYTES. lia.
Qed.

(** ** Encoding *)

Lemma encode_Ok index universe caps sz l :
  index_typed index →
  encode index universe caps sz = Ok l ↔
    validate caps = Ok caps ∧ Z.of_nat (length universe) <= Z.min u32_max (cap_buckets caps) ∧
    base.size (buckets index) = length universe ∧
    encoded_bytes sz ≠ 0 ∧ encoded_bytes sz <= Z.min usize_max (cap_bytes caps) ∧
    universe_ok index caps universe 0 None ∧
    l = enc_image index universe ∧ Z.of_nat (length l) = encoded_bytes sz.
Proof.
  intros Hty. unfold encode. destruct (validate caps) as [c|] eqn:Hv; [|naive_solver].
  apply validate_Ok in Hv as (-> & _). cbn [mbind result_bind].
  destruct (_ || _) eqn:Eo; cbn [refuse_if mbind result_bind].
  { split; [done|]. intros (_ & H1 & H2 & _). apply orb_true_iff in Eo as [Eo|Eo].
    - apply Z.ltb_lt in Eo. lia.
    - apply negb_true_iff, Z.eqb_neq in Eo. lia. }
  bool_prop. destruct (Z.ltb_spec (cap_bytes caps) (encoded_bytes sz)); cbn [refuse_if mbind result_bind].
  { split; [done|]. intros (_ & _ & _ & _ & ? & _). lia. }
  assert (Hem := emits_bind _ _ _ _ _ _ (u8_emits VERSION) (u32_emits (Z.of_nat (length universe)))).
  apply (encode_buckets_emits index caps universe _ _ _ 0 None Hty ltac:(lia)) in Hem.
  rewrite <- app_assoc in Hem. fold (enc_image index universe) in Hem.
  trans ((l ← (w ← W.new (encoded_bytes sz);
               w ← (w ← (w ← W.u8 w VERSION; W.u32 w (Z.of_nat (length universe)));
                    encode_buckets index caps universe w 0 None);
               Ok (w_bytes w));
          if negb (Z.of_nat (length l) =? encoded_bytes sz) then Err Corrupt else Ok l) = Ok l).
  { destruct (W.new _) as [w|]; [|done]. cbn [mbind result_bind]. destruct (W.u8 w _) as [w1|]; [|done].
    cbn [mbind result_bind]. destruct (W.u32 w1 _) as [w2|]; [|done]. cbn [mbind result_bind].
    by destruct (encode_buckets _ _ _ w2 _ _). }
  rewrite bind_ok. setoid_rewrite (encode_with_emits _ _ _ (encoded_bytes sz) Hem). split.
  - intros (l' & (H0' & (Hc & Hu) & Hlen & ->) & Hl). destruct (Z.eqb_spec (Z.of_nat (length (enc_image index universe)))
      (encoded_bytes sz)); cbn in Hl; [|done]. injection Hl as <-. split_and!; try done; lia.
  - intros (_ & H1' & H2' & H3' & H4' & Hu & -> & Hlen). exists (enc_image index universe).
    rewrite Hlen, Z.eqb_refl. split_and!; try done; lia.
Qed.

Lemma universe_ok_caps index caps caps' universe rows previous :
  cap_rows caps' = cap_rows caps → cap_name_bytes caps' = cap_name_bytes caps →
  universe_ok index caps universe rows previous → universe_ok index caps' universe rows previous.
Proof.
  intros Hr Hn. revert rows previous. induction universe as [|name universe IH]; intros rows previous; cbn [universe_ok]; [done|].
  rewrite Hr, Hn. destruct (buckets index !! name); naive_solver.
Qed.

Lemma measure_image_Ok index universe caps sz :
  measure_image index universe caps = Ok sz →
  validate caps = Ok caps ∧ Z.of_nat (length universe) <= cap_buckets caps ∧
  base.size (buckets index) = length universe ∧ universe_fits index caps universe 0 None ∧
  sz = mkImageSize (HEADER_BYTES + over_universe bucket_len index universe)
         (state_cost (Z.of_nat (length universe)) + over_universe bucket_cost index universe)
         (over_universe (λ _, bucket_rows) index universe) ∧
  encoded_bytes sz <= Z.min usize_max (cap_bytes caps) ∧
  decoded_bytes sz <= Z.min usize_max (cap_decoded_bytes caps).
Proof.
  unfold measure_image. intros H. apply bind_ok in H as (c & Hv & H). pose proof Hv as Hv'.
  apply validate_Ok in Hv' as (-> & _ & _ & _ & _ & Hb & Hr & Hn).
  apply bind_ok in H as ([] & Ho & H). apply refuse_if_ok in Ho. bool_prop.
  apply bind_ok in H as (b0 & Eb & H). rewrite state_charge_Ok in H by lia. cbn [mbind result_bind] in H.
  fold (state_cost (Z.of_nat (length universe))) in H.
  pose proof (state_cost_nonneg (Z.of_nat (length universe)) ltac:(lia)) as Hc.
  apply bind_ok in H as (b1 & Et & H). destruct (budget_new_metered _ _ _ _ Eb Hc Et) as [-> Hle].
  apply bind_ok in H as ([[b' e'] rows'] & Em & H).
  apply measure_buckets_Ok in Em as (Hu & Hm & -> & -> & ->); [|lia| |lia].
  2:{ split; cbn; unfold HEADER_BYTES, usize_max, u64_max in *; lia. }
  apply bind_ok in H as ([] & Hcap & [= <-]). apply refuse_if_ok in Hcap. bool_prop.
  destruct Hm as [Hm1 Hm2]. cbn [b_used b_limit encoded_bytes decoded_bytes] in *.
  split_and!; try done; lia.
Qed.

(** An index that was measured can be encoded with that measurement: no
    name, tag, count or size is refused any more, and the image has exactly the
    measured length. *)
Theorem measured_image_encodes index universe caps sz :
  index_typed index → index_after_epoch index → measure_image index universe caps = Ok sz →
  ∃ l, encode index universe caps sz = Ok l ∧ Z.of_nat (length l) = encoded_bytes sz.
Proof.
  intros Hty Ht Hm. apply measure_image_Ok in Hm as (Hv & Hb & Hsz & Hu & -> & He & _).
  cbn [encoded_bytes] in *. pose proof Hv as Hv'. apply validate_Ok in Hv' as (_ & _ & _ & _ & _ & Hcb & Hr & Hn).
  exists (enc_image index universe). rewrite length_enc_image. split; [|done].
  apply encode_Ok; [done|]. cbn [encoded_bytes]. split_and!; try done.
  - unfold u32_max. lia.
  - pose proof (length_enc_image index universe) as Hl. intros Hz. rewrite Hz in Hl. unfold enc_image in Hl.
    rewrite length_app, length_to_le_bytes in Hl. lia.
  - by apply fits_universe_ok.
  - apply length_enc_image.
Qed.

(** ** Decoding *)

Context {P : EtagParse}.

(** Names are Rust strings and entity tags parse back. *)
Definition index_wire (index : KeyIndexState) : Prop :=
  ∀ name b, buckets index !! name = Some b → str_ok name = true ∧
    (∀ k e, kr_map (keys b) !! k = Some e → str_ok k = true ∧ etag_parses e) ∧
    (∀ k t, gr_map (gone b) !! k = Some t → str_ok k = true).

Definition image_keys (b : BucketState) : KeyRows := insert_all KeyRows_default (Keys.iter (keys b)).

Definition bucket_image (b : BucketState) : BucketState :=
  image_bucket_state (image_keys b) (raise_all GoneRows_default (Gone.iter (gone b)))
    (count_all stats_zero (Keys.iter (keys b))).

Definition add_images (index : KeyIndexState) (universe : list string) (B : gmap string BucketState)
    : gmap string BucketState :=
  foldl (λ B name, match buckets index !! name with Some b => <[name := bucket_image b]> B | None => B end) B universe.

Definition add_totals (index : KeyIndexState) (universe : list string) (total : IndexStats) : IndexStats :=
  foldl (λ t name, match buckets index !! name with
                   | Some b => Stats.replace t stats_zero (b_stats (bucket_image b)) | None => t end) total universe.

Lemma insert_all_map ks rows :
  kr_map (insert_all ks rows) = foldl (λ m r, <[r.1 := skeletal r.2]> m) (kr_map ks) rows.
Proof.
  revert ks. induction rows as [|r rows IH]; intros ks; [done|].
  unfold insert_all in *. cbn [foldl]. by rewrite IH, insert_map.
Qed.

Lemma image_keys_map b : kr_map (image_keys b) = skeletal <$> kr_map (keys b).
Proof.
  apply map_eq. intros k. unfold image_keys. rewrite insert_all_map, (foldl_insert_lookup skeletal) by apply sorted_rows_NoDup.
  unfold Keys.iter. rewrite sorted_rows_map, lookup_fmap. by destruct (kr_map (keys b) !! k).
Qed.

Lemma image_covers b k t : covers_row (image_keys b) k t = covers_row (keys b) k t.
Proof.
  unfold covers_row, Keys.get. rewrite image_keys_map, lookup_fmap. by destruct (kr_map (keys b) !! k).
Qed.

Lemma over_universe_nonneg f index universe : (∀ name b, 0 <= f name b) → 0 <= over_universe f index universe.
Proof.
  intros Hf. unfold over_universe. induction universe as [|name universe IH]; cbn [foldr]; [done|].
  destruct (buckets index !! name) as [b|]; [pose proof (Hf name b)|]; lia.
Qed.

Lemma bucket_cost_nonneg name b : 0 <= bucket_cost name b.
Proof.
  unfold bucket_cost. pose proof (keys_cost_nonneg (Keys.iter (keys b))).
  pose proof (gone_cost_nonneg (Gone.iter (gone b))). pose proof LO as [[Hs _] _ _ _ _ _ _].
  pose proof (slen_nonneg name). lia.
Qed.

Lemma image_decodes index caps universe :
  cap_rows caps <= 2000000 → index_typed index → index_wire index →
  ∀ rows previous b r B total t,
  universe_ok index caps universe rows previous → 0 <= rows → 0 <= b_used b →
  b_used b + over_universe bucket_cost index universe <= Z.min usize_max (b_limit b) →
  unread r (enc_buckets index universe ++ t) →
  ∃ r', decode_buckets (length universe) caps r b rows previous B total =
          Ok (add_images index universe B, add_totals index universe total, r')
        ∧ unread r' t ∧ r_bytes r' = r_bytes r.
Proof.
  intros Hrc Hty Hw. induction universe as [|name universe IH];
    intros rows previous b r B total t Hu Hr Hb0 Hb Hin; cbn [length decode_buckets universe_ok] in *.
  { by exists r. }
  destruct Hu as [Hna Hu]. destruct (buckets index !! name) as [st|] eqn:Est; [|done].
  destruct Hu as (Hcb & Hname & Hle & Hkl & Hgl & Hk & Hg & Hu).
  destruct (Hty name st Est) as [Htk Htg]. destruct (Hw name st Est) as (Hns & Hwk & Hwg).
  rewrite (over_universe_cons _ _ _ _ _ Est) in Hb. rewrite (enc_buckets_cons _ _ _ _ Est) in Hin.
  assert (0 <= over_universe bucket_cost index universe) as Hrest.
  { apply over_universe_nonneg, bucket_cost_nonneg. }
  set (rest := over_universe _ _ _) in *. unfold bucket_cost in Hb. pose proof (keys_cost_nonneg (Keys.iter (keys st))).
  pose proof (gone_cost_nonneg (Gone.iter (gone st))). pose proof LO as [[Hs _] _ _ _ _ _ _].
  pose proof (slen_nonneg name). destruct (len_nonneg st) as [Hl1 Hl2].
  unfold bucket_rows in *. unfold enc_bucket in Hin. rewrite <- !app_assoc in Hin.
  rd (text_reads (cap_name_bytes caps) name Hname Hns) Hin. rewrite Hna. cbn [refuse_if mbind result_bind].
  assert (bucket_charge (slen name) = Ok (slen name + size_of_String)) as ->.
  { unfold bucket_charge. apply sum_Ok; [repeat constructor; lia|]. cbn [foldr]. lia. }
  cbn [mbind result_bind]. rewrite budget_take_Ok by lia. cbn [mbind result_bind].
  rd (u32_reads (Keys.len (keys st)) ltac:(lia)) Hin.
  rewrite checked_add_le by lia. cbn [ok_or mbind result_bind].
  rewrite (proj2 (Z.ltb_ge _ _)) by lia. cbn [refuse_if mbind result_bind].
  assert (Z.to_nat (Keys.len (keys st)) = length (Keys.iter (keys st))) as ->.
  { unfold Keys.len, Keys.iter. rewrite length_sorted_rows. lia. }
  destruct (read_keys_reads (cap_name_bytes caps) (Keys.iter (keys st)) None KeyRows_default stats_zero
    (mkBudget (b_used b + (slen name + size_of_String)) (b_limit b)) r1 (to_le_bytes 4 (Gone.len (gone st)) ++
      enc_gone (Gone.iter (gone st)) ++ enc_buckets index universe ++ t)) as (r9 & E9 & Hin2 & Hb9).
  { rewrite Forall_forall in Hk |- *. intros [k e] Hx. specialize (Hk _ Hx). apply elem_of_sorted_rows in Hx.
    cbn [fst snd] in *. destruct (Hwk k e Hx). split_and!; try done. by apply Htk in Hx. }
  { apply sorted_ascending. }
  { cbn [b_used]. lia. }
  { cbn [b_used b_limit]. lia. }
  { done. }
  rewrite E9. cbn [mbind result_bind b_used b_limit].
  rd (u32_reads (Gone.len (gone st)) ltac:(lia)) Hin2.
  rewrite checked_add_le by lia. cbn [ok_or mbind result_bind].
  rewrite (proj2 (Z.ltb_ge _ _)) by lia. cbn [refuse_if mbind result_bind].
  assert (Z.to_nat (Gone.len (gone st)) = length (Gone.iter (gone st))) as ->.
  { unfold Gone.len, Gone.iter. rewrite length_sorted_rows. lia. }
  edestruct (read_gone_reads (cap_name_bytes caps) (image_keys st) (Gone.iter (gone st)) None GoneRows_default
    (mkBudget (b_used b + (slen name + size_of_String) + keys_cost (Keys.iter (keys st))) (b_limit b)))
    as (r8 & E8 & Hin4 & Hb8); [| | | |exact Hin2|].
  { rewrite Forall_forall in Hg |- *. intros [k d] Hx. specialize (Hg _ Hx) as (Hc & Hkn & Hd).
    apply elem_of_sorted_rows in Hx. cbn [fst snd] in *. rewrite image_covers. split_and!; try done; [by eapply Hwg|].
    apply Htg in Hx. unfold time_ok. lia. }
  { apply sorted_ascending. }
  { cbn [b_used]. lia. }
  { cbn [b_used b_limit]. lia. }
  fold (image_keys st). rewrite E8. cbn [mbind result_bind b_used b_limit].
  edestruct IH as (r7 & E7 & Hin7 & Hb7); [exact Hu|lia| | |exact Hin4|].
  3:{ rewrite <- (Z.add_assoc rows), E7. exists r7. unfold add_images, add_totals. cbn [foldl]. rewrite Est.
      split_and!; [done|done|congruence]. }
  all: cbn [b_used b_limit]; subst rest; lia.
Qed.

(** ** Whatever decodes is well formed *)

(** Every key of [m] is at most [previous]. *)
Definition below {A} (previous : option string) (m : gmap string A) : Prop :=
  ∀ k, is_Some (m !! k) → ∃ p, previous = Some p ∧ sleb k p = true.

Lemma below_fresh {A} previous (m : gmap string A) k :
  below previous m → not_after previous k = false → m !! k = None.
Proof.
  intros Hb Hna. destruct (m !! k) eqn:E; [|done]. destruct (Hb k) as (p & -> & Hp); [by eexists|].
  cbn in Hna. congruence.
Qed.

Lemma below_insert {A} previous (m : gmap string A) k v :
  below previous m → not_after previous k = false → below (Some k) (<[k := v]> m).
Proof.
  intros Hb Hna k' Hk. exists k. split; [done|]. apply sleb_le. destruct (decide (k = k')) as [->|Hne]; [by right|].
  rewrite lookup_insert_ne in Hk by done. destruct (Hb k' Hk) as (p & -> & Hp). cbn in Hna.
  left. apply sleb_le in Hp. assert (p <ₛ k) as Hlt by (apply sltb_lt; by rewrite sltb_sleb, Hna).
  destruct Hp as [Hp| ->]; [by eapply slt_trans|done].
Qed.

(** A row table built from the wire: exact tally, and exact statistics unless
    they saturate. *)
Definition keys_built (ks : KeyRows) (st : IndexStats) : Prop :=
  keys_wf ks ∧ (stats_fit (rows_stats (kr_map ks)) → st = rows_stats (kr_map ks)).

Lemma stats_fit_grow m k e :
  m !! k = None → stats_fit (rows_stats (<[k := e]> m)) →
  stats_fit (rows_stats m) ∧ rows_stats (<[k := e]> m) = stats_shift (rows_stats m) stats_zero (Stats.for_entry e).
Proof.
  intros Hk. rewrite rows_stats_insert, Hk. cbn [row_stats]. intros [H1 H2]. cbn in H1, H2.
  pose proof (entry_logical_range e) as He. unfold entry_logical in He. cbn in He. split; [split; cbn; lia|done].
Qed.

Lemma keys_built_insert ks st k e :
  kr_map ks !! k = None → keys_built ks st →
  keys_built (Keys.insert ks k e).2 (Stats.replace st stats_zero (Stats.for_entry e)).
Proof.
  intros Hk [Hw Hs]. split; [by apply insert_wf|]. rewrite insert_map. intros Hf.
  pose proof Hf as Hf'. apply stats_fit_grow in Hf' as [Hf' E]; [|done]. rewrite Hs by done.
  rewrite E in Hf |- *. apply replace_shift; [apply rows_stats_nonneg|done].
Qed.

Lemma read_keys_built n : ∀ r b cap previous ks st ks' st' r' b',
  read_keys n r b cap previous ks st = Ok (ks', st', r', b') →
  below previous (kr_map ks) → keys_built ks st →
  keys_built ks' st' ∧ base.size (kr_map ks') = (base.size (kr_map ks) + n)%nat.
Proof.
  induction n as [|n IH]; intros r b cap previous ks st ks' st' r' b' H Hb Hk; cbn [read_keys] in H.
  { simplify_eq. split; [done|lia]. }
  apply bind_ok in H as ([[[k e] r1] b1] & _ & H). apply bind_ok in H as ([] & Hna & H). apply refuse_if_ok in Hna.
  assert (kr_map ks !! k = None) as Hf by (by eapply below_fresh).
  apply IH in H as [Hk' Hn]; [|rewrite insert_map; by eapply below_insert|by apply keys_built_insert].
  split; [done|]. rewrite Hn, insert_map, map_size_insert_None by done. lia.
Qed.

Lemma read_gone_built n : ∀ r b cap previous ks g g' r' b',
  read_gone n r b cap previous ks g = Ok (g', r', b') →
  below previous (gr_map g) → gone_wf g →
  (∀ k e d, kr_map ks !! k = Some e → gr_map g !! k = Some d → d < last_modified e) →
  gone_wf g' ∧ (∀ k e d, kr_map ks !! k = Some e → gr_map g' !! k = Some d → d < last_modified e) ∧
  base.size (gr_map g') = (base.size (gr_map g) + n)%nat.
Proof.
  induction n as [|n IH]; intros r b cap previous ks g g' r' b' H Hb Hg Ho; cbn [read_gone] in H.
  { simplify_eq. split_and!; [done|done|lia]. }
  apply bind_ok in H as ([k r1] & _ & H). apply bind_ok in H as ([] & Hna & H). apply refuse_if_ok in Hna.
  apply bind_ok in H as (c & _ & H). apply bind_ok in H as (b1 & _ & H). apply bind_ok in H as ([at_ r2] & _ & H).
  apply bind_ok in H as ([] & Hc & H). apply refuse_if_ok in Hc.
  assert (gr_map g !! k = None) as Hf by (by eapply below_fresh).
  apply IH in H as (Hg' & Ho' & Hn).
  - split_and!; [done|done|]. rewrite Hn, gone_insert_map, map_size_insert_None by done. lia.
  - rewrite gone_insert_map. by eapply below_insert.
  - by apply gone_insert_wf.
  - intros k' e d He. rewrite gone_insert_map. destruct (decide (k = k')) as [->|Hne].
    + rewrite lookup_insert_eq. intros [= <-]. unfold covers_row, Keys.get in Hc. rewrite He in Hc. cbn in Hc.
      apply Z.leb_gt in Hc. lia.
    + rewrite lookup_insert_ne by done. by apply Ho.
Qed.

(** A bucket as it comes off the wire. *)
Record bucket_built (b : BucketState) : Prop := {
  bb_shape : b = image_bucket_state (keys b) (gone b) (b_stats b);
  bb_keys : keys_built (keys b) (b_stats b);
  bb_gone : gone_wf (gone b);
  bb_order : ∀ k e d, kr_map (keys b) !! k = Some e → gr_map (gone b) !! k = Some d → d < last_modified e;
}.

Definition table_built (B : gmap string BucketState) (total : IndexStats) : Prop :=
  (∀ name b, B !! name = Some b → bucket_built b) ∧ (stats_fit (rows_total B) → total = rows_total B).

Definition table_rows (B : gmap string BucketState) : Z := msum (λ _ b, bucket_rows b) B.

Lemma rows_total_fresh B name b :
  B !! name = None →
  rows_total (<[name := b]> B) = stats_shift (rows_total B) stats_zero (rows_stats (kr_map (keys b))).
Proof. intros H. apply stats_eq; cbn; rewrite msum_insert_None by done; cbn; lia. Qed.

Lemma table_built_insert B total name b :
  B !! name = None → table_built B total → bucket_built b →
  table_built (<[name := b]> B) (Stats.replace total stats_zero (b_stats b)).
Proof.
  intros Hn [HB Ht] Hb. split.
  - intros name' b'. rewrite lookup_insert_Some. naive_solver.
  - rewrite rows_total_fresh by done. intros Hf. destruct (rows_stats_nonneg (kr_map (keys b))) as [Hr1 Hr2].
    pose proof Hf as [Hf1 Hf2]. cbn in Hf1, Hf2, Hr1, Hr2.
    assert (0 <= objects (rows_total B) ∧ 0 <= logical_bytes (rows_total B)) as [Hz1 Hz2].
    { split; apply msum_nonneg; intros n x _; apply rows_stats_nonneg. }
    cbn in Hz1, Hz2. rewrite Ht by (split; cbn; lia). rewrite (proj2 (bb_keys b Hb)) by (split; cbn; lia).
    apply replace_shift; [split; cbn; lia|done].
Qed.

Lemma u32_nonneg r v r' : R.u32 r = Ok (v, r') → 0 <= v.
Proof. unfold R.u32. intros H. apply bind_ok in H as ([raw r1] & _ & [= <- _]). apply from_le_bytes_range. Qed.

Lemma decode_buckets_built n caps : ∀ r b rows previous B total B' total' r',
  decode_buckets n caps r b rows previous B total = Ok (B', total', r') →
  below previous B → table_built B total → rows = table_rows B →
  table_built B' total' ∧ (rows <= cap_rows caps → table_rows B' <= cap_rows caps) ∧ base.size B' = (base.size B + n)%nat.
Proof.
  induction n as [|n IH]; intros r b rows previous B total B' total' r' H Hb HB Hr; cbn [decode_buckets] in H.
  { simplify_eq. split_and!; [done|done|lia]. }
  apply bind_ok in H as ([name r1] & _ & H). apply bind_ok in H as ([] & Hna & H). apply refuse_if_ok in Hna.
  apply bind_ok in H as (c & _ & H). apply bind_ok in H as (b1 & _ & H). apply bind_ok in H as ([kn r2] & Hkn & H).
  apply bind_ok in H as (rows1 & Hr1 & H). apply ok_or_ok, checked_add_Some in Hr1 as [-> _].
  apply bind_ok in H as ([] & Hc1 & H). apply bind_ok in H as ([[[ks st] r3] b2] & Hk & H).
  apply bind_ok in H as ([gn r4] & Hgn & H).
  apply bind_ok in H as (rows2 & Hr2 & H). apply ok_or_ok, checked_add_Some in Hr2 as [-> _].
  apply bind_ok in H as ([] & Hc2 & H). apply refuse_if_ok, Z.ltb_ge in Hc2.
  apply bind_ok in H as ([[g r5] b3] & Hg & H).
  assert (∀ A (m : gmap string A), m = ∅ → below None m) as Hempty.
  { intros A m -> k [? Hk']. by rewrite lookup_empty in Hk'. }
  apply read_keys_built in Hk as [Hk Hks]; [|by apply Hempty|by split].
  apply read_gone_built in Hg as (Hgw & Ho & Hgs); [|by apply Hempty|apply gone_default_wf|done].
  assert (B !! name = None) as Hf by (by eapply below_fresh).
  assert (0 <= kn ∧ 0 <= gn) as [Hkn0 Hgn0] by (split; by eapply u32_nonneg).
  apply IH in H as (HB' & Hrows & Hn').
  - split_and!; [done|intros _; by apply Hrows|]. rewrite Hn', map_size_insert_None by done. lia.
  - by eapply below_insert.
  - apply table_built_insert; [done|done|]. by split.
  - unfold table_rows in *. rewrite msum_insert_None, <- Hr by done. unfold bucket_rows, Keys.len, Gone.len. cbn.
    change (kr_map KeyRows_default) with (∅ : gmap string ObjEntry) in Hks.
    change (gr_map GoneRows_default) with (∅ : gmap string Z) in Hgs.
    rewrite Hks, Hgs, !map_size_empty. lia.
Qed.

Lemma table_built_wf B total :
  table_built B total → stats_fit (rows_total B) → index_wf (mkIndex B total None ∅).
Proof.
  intros [HB Ht] Hf. split; cbn [buckets i_stats native_cuts].
  - intros name b Hb. destruct (HB name b Hb) as [Hshape [Hk Hs] Hg Ho].
    assert (stats_fit (rows_stats (kr_map (keys b)))) as Hfb.
    { destruct (rows_total_le B name) as [H1 H2]. rewrite Hb in H1, H2. cbn in H1, H2.
      destruct Hf as [F1 F2]. cbn in F1, F2. split; cbn; lia. }
    rewrite Hshape. split; cbn; try done.
    + by apply Hs.
    + by rewrite (Hs Hfb).
  - by apply Ht.
  - by rewrite (Ht Hf).
  - split; [by rewrite map_size_empty|]. intros w p Hw. by rewrite lookup_empty in Hw.
Qed.

Lemma decode_Ok l caps d :
  decode l caps = Ok d →
  validate caps = Ok caps ∧ table_built (buckets d) (i_stats d) ∧ d = mkIndex (buckets d) (i_stats d) None ∅ ∧
  (0 <= cap_rows caps → table_rows (buckets d) <= cap_rows caps) ∧
  Z.of_nat (base.size (buckets d)) <= cap_buckets caps ∧
  0 < Z.of_nat (length l) <= cap_bytes caps.
Proof.
  unfold decode. intros H. apply bind_ok in H as (c & Hv & H). pose proof Hv as Hv'.
  apply validate_Ok in Hv' as (-> & _). apply bind_ok in H as ([] & Hl & H). apply refuse_if_ok in Hl. bool_prop.
  apply bind_ok in H as ([v r1] & _ & H). apply bind_ok in H as ([] & _ & H). apply bind_ok in H as ([n r2] & Hn & H).
  apply bind_ok in H as ([] & Hc & H). apply refuse_if_ok, Z.ltb_ge in Hc. apply u32_nonneg in Hn.
  apply bind_ok in H as (b0 & _ & H). apply bind_ok in H as (ch & _ & H). apply bind_ok in H as (b1 & _ & H).
  apply bind_ok in H as ([[B total] r3] & Hd & H). destruct (negb _); [done|]. injection H as <-.
  cbn [buckets i_stats]. apply decode_buckets_built in Hd as (HB & Hrows & Hsz).
  - rewrite map_size_empty in Hsz. destruct l as [|x l]; [done|]. cbn [length] in *. split_and!; try done; lia.
  - intros k [? Hk]. by rewrite lookup_empty in Hk.
  - split; [intros ?? Hk; by rewrite lookup_empty in Hk|]. intros _. apply stats_eq; cbn; by rewrite msum_empty.
  - unfold table_rows. by rewrite msum_empty.
Qed.

(** [C17] Any bytes at all: if they decode, the result is a well-formed index
    with exact tallies and statistics, no tombstone covering a row, every bucket
    complete, and at most the buckets and rows the caps allow, provided the
    logical sizes it claims do not overflow the counters. *)
Theorem decode_wf l caps d :
  0 <= cap_rows caps → decode l caps = Ok d → index_fits d →
  index_wf d ∧ (∀ name b, buckets d !! name = Some b → complete_bucket b = true) ∧
  Z.of_nat (base.size (buckets d)) <= cap_buckets caps ∧ table_rows (buckets d) <= cap_rows caps.
Proof.
  intros Hr Hd Hf. apply decode_Ok in Hd as (_ & HB & Hd & Hrows & Hn & _).
  split_and!; auto.
  - rewrite Hd. by apply table_built_wf.
  - intros name b Hb. by rewrite (bb_shape b (proj1 HB name b Hb)).
Qed.

(** ** The round trip *)

(** [d] holds the rows of [s], reduced to what the image carries. *)
Definition same_image (s d : KeyIndexState) : Prop :=
  ∀ name, match buckets s !! name, buckets d !! name with
          | Some b, Some b' => kr_map (keys b') = skeletal <$> kr_map (keys b) ∧
                               gr_map (gone b') = gr_map (gone b) ∧ complete_bucket b' = true
          | None, None => True
          | _, _ => False
          end.

Lemma universe_ok_names index caps universe rows previous :
  universe_ok index caps universe rows previous →
  NoDup universe ∧ Forall (λ name, not_after previous name = false ∧ is_Some (buckets index !! name)) universe.
Proof.
  revert rows previous. induction universe as [|name universe IH]; intros rows previous; cbn [universe_ok].
  { split; constructor. }
  intros [Hna H]. destruct (buckets index !! name) as [b|] eqn:Hb; [|done].
  destruct H as (_ & _ & _ & _ & _ & _ & _ & Hu). apply IH in Hu as [Hnd Hall]. rewrite Forall_forall in Hall.
  assert (∀ x, x ∈ universe → name <ₛ x) as Hlt.
  { intros x Hx. apply Hall in Hx as [Hx _]. cbn in Hx. apply sltb_lt. by rewrite sltb_sleb, Hx. }
  split; constructor; try done.
  - intros Hin. apply Hlt in Hin. by apply slt_irrefl in Hin.
  - rewrite Forall_forall. intros x Hx. split; [|by apply Hall]. destruct previous as [p|]; [|done]. cbn in *.
    apply Hlt in Hx. rewrite <- negb_true_iff, <- sltb_sleb in *. apply sltb_lt in Hna. apply sltb_lt. by trans name.
Qed.

Lemma universe_complete index caps universe rows previous name b :
  universe_ok index caps universe rows previous → name ∈ universe → buckets index !! name = Some b → complete_bucket b = true.
Proof.
  revert rows previous. induction universe as [|n universe IH]; intros rows previous; [by intros _ ?%not_elem_of_nil|].
  cbn [universe_ok]. intros [_ H] Hin Hb. destruct (decide (name = n)) as [->|Hne].
  - rewrite Hb in H. by destruct H.
  - destruct (buckets index !! n); [|done]. eapply IH; [apply H|set_solver|done].
Qed.

Lemma universe_covers index caps universe rows previous name :
  universe_ok index caps universe rows previous → base.size (buckets index) = length universe →
  is_Some (buckets index !! name) → name ∈ universe.
Proof.
  intros Hu Hs Hn. apply universe_ok_names in Hu as [Hnd Hall]. rewrite Forall_forall in Hall.
  destruct (decide (name ∈ universe)) as [|Hnot]; [done|]. exfalso.
  assert ((list_to_set universe : gset string) ⊂ dom (buckets index)) as Hsub%subset_size.
  { split.
    - intros x Hx%elem_of_list_to_set. apply elem_of_dom, Hall, Hx.
    - intros H. apply Hnot. apply (elem_of_list_to_set (C := gset string)). apply H. by apply elem_of_dom. }
  rewrite size_list_to_set, size_dom in Hsub by done. lia.
Qed.

Lemma add_images_lookup index universe B name :
  add_images index universe B !! name =
  if decide (name ∈ universe)
  then match buckets index !! name with Some b => Some (bucket_image b) | None => B !! name end
  else B !! name.
Proof.
  revert B. induction universe as [|x universe IH]; intros B; [done|]. unfold add_images in *. cbn [foldl].
  rewrite IH. destruct (buckets index !! x) as [b|] eqn:Hx, (decide (x = name)) as [->|Hne].
  - rewrite Hx, lookup_insert_eq. rewrite (decide_True (P := name ∈ name :: universe)) by set_solver.
    by destruct (decide _).
  - rewrite lookup_insert_ne by done. destruct (decide (name ∈ universe)) as [H|H];
      destruct (decide (name ∈ x :: universe)) as [H'|H']; done || set_solver.
  - rewrite Hx. by repeat destruct (decide _).
  - destruct (decide (name ∈ universe)) as [H|H];
      destruct (decide (name ∈ x :: universe)) as [H'|H']; done || set_solver.
Qed.

Lemma raise_all_map g rows : gr_map (raise_all g rows) = foldl (λ m r, <[r.1 := r.2]> m) (gr_map g) rows.
Proof.
  revert g. induction rows as [|r rows IH]; intros g; [done|].
  unfold raise_all in *. cbn [foldl]. by rewrite IH, gone_insert_map.
Qed.

Lemma image_gone_map b : gr_map (gone (bucket_image b)) = gr_map (gone b).
Proof.
  apply map_eq. intros k. cbn [bucket_image image_bucket_state gone].
  rewrite raise_all_map. pose proof (foldl_insert_lookup (λ t : Z, t) ∅ (Gone.iter (gone b)) k
    (sorted_rows_NoDup _)) as E. cbn beta in E. unfold Gone.iter in *. rewrite sorted_rows_map in E.
  cbn [GoneRows_default gr_map]. rewrite E. by destruct (gr_map (gone b) !! k).
Qed.

Lemma add_images_all index caps universe rows previous :
  universe_ok index caps universe rows previous → base.size (buckets index) = length universe →
  add_images index universe ∅ = bucket_image <$> buckets index.
Proof.
  intros Hu Hs. apply map_eq. intros name. rewrite add_images_lookup, lookup_fmap, lookup_empty.
  pose proof (universe_covers _ _ _ _ _ name Hu Hs) as Hc.
  destruct (buckets index !! name) as [b|]; [|by destruct (decide _)].
  by rewrite decide_True by (apply Hc; eauto).
Qed.

Lemma rows_stats_skeletal m : rows_stats (skeletal <$> m) = rows_stats m.
Proof. apply stats_eq; cbn; [by rewrite map_size_fmap|]. by rewrite msum_fmap. Qed.

Lemma rows_total_image B : rows_total (bucket_image <$> B) = rows_total B.
Proof.
  apply stats_eq; cbn; rewrite msum_fmap; apply msum_ext; intros name b _;
    cbn [bucket_image image_bucket_state keys]; rewrite image_keys_map;
    [exact (f_equal objects (rows_stats_skeletal _))|exact (f_equal logical_bytes (rows_stats_skeletal _))].
Qed.

Definition decoded_image (index : KeyIndexState) (universe : list string) : KeyIndexState :=
  mkIndex (bucket_image <$> buckets index) (add_totals index universe stats_zero) None ∅.

Lemma decode_enc_image index universe caps t :
  index_typed index → index_wire index → validate caps = Ok caps →
  Z.of_nat (length universe) <= Z.min u32_max (cap_buckets caps) → base.size (buckets index) = length universe →
  universe_ok index caps universe 0 None → Z.of_nat (length (enc_image index universe ++ t)) <= cap_bytes caps →
  state_cost (Z.of_nat (length universe)) + over_universe bucket_cost index universe <= cap_decoded_bytes caps →
  decode (enc_image index universe ++ t) caps =
  if bool_decide (t = []) then Ok (decoded_image index universe) else Err Corrupt.
Proof.
  intros Hty Hw Hv Hn Hs Hu Hmb Hmd. assert (Hv' := Hv).
  apply validate_Ok in Hv' as (_ & Hcb1 & Hcd1 & Hcb0 & Hcd0 & Hcb & Hcr & Hcn).
  assert (0 <= over_universe bucket_cost index universe) as Hc0 by apply over_universe_nonneg, bucket_cost_nonneg.
  pose proof (state_cost_nonneg (Z.of_nat (length universe)) ltac:(lia)) as Hsc.
  assert (0 < Z.of_nat (length (enc_image index universe))) as Hpos.
  { unfold enc_image. rewrite length_app, length_to_le_bytes. lia. }
  unfold decode. rewrite length_app, Nat2Z.inj_add in *. rewrite Hv. cbn [mbind result_bind].
  rewrite bool_decide_false by (intros E%(f_equal length); rewrite length_app in E; cbn in E; lia).
  rewrite (proj2 (Z.ltb_ge _ _)) by lia. cbn [orb refuse_if mbind result_bind].
  assert (unread (mkReader (enc_image index universe ++ t) 0) (enc_image index universe ++ t)) as Hin.
  { apply unread_start. rewrite length_app, Nat2Z.inj_add. unfold usize_max, u64_max. lia. }
  unfold enc_image at 2 in Hin. rewrite <- !app_assoc in Hin.
  rd (u8_reads VERSION ltac:(done)) Hin. change (negb (VERSION =? VERSION)) with false. cbn [refuse_if mbind result_bind].
  rd (u32_reads (Z.of_nat (length universe)) ltac:(lia)) Hin.
  rewrite (proj2 (Z.ltb_ge _ _)) by lia. cbn [refuse_if mbind result_bind].
  unfold Budget.new. rewrite (proj2 (Z.eqb_neq _ 0)) by done.
  cbn [mbind result_bind]. rewrite state_charge_Ok by lia. cbn [mbind result_bind].
  fold (state_cost (Z.of_nat (length universe))).
  rewrite budget_take_Ok by (cbn [b_used b_limit]; unfold usize_max, u64_max; lia). cbn [mbind result_bind b_used b_limit].
  rewrite Z.add_0_l, Nat2Z.id.
  edestruct (image_decodes index caps universe) as (r9 & E9 & Hin9 & Hb9); [done|done|done|exact Hu|done| | |exact Hin|].
  3:{ rewrite E9. cbn [mbind result_bind]. rewrite <- (unread_end r9 t) by done.
      rewrite Hb9, Hb0, Hb, (add_images_all _ _ _ _ _ Hu Hs), length_app, Nat2Z.inj_add. done. }
  - cbn [b_used]. lia.
  - cbn [b_used b_limit]. unfold usize_max, u64_max. lia.
Qed.

(** A measured, encoded index decodes under its measured size and charge. *)
Lemma encoded_decodes index universe caps sz l t max_bytes max_decoded :
  index_typed index → index_wire index →
  measure_image index universe caps = Ok sz → encode index universe caps sz = Ok l →
  Z.of_nat (length (l ++ t)) <= max_bytes <= 2 ^ 28 → decoded_bytes sz <= max_decoded <= 2 ^ 30 →
  decode (l ++ t) (mkCaps max_bytes max_decoded (cap_buckets caps) (cap_rows caps) (cap_name_bytes caps)) =
    if bool_decide (t = []) then Ok (decoded_image index universe) else Err Corrupt.
Proof.
  intros Hty Hw Hm He Hmb Hmd. apply measure_image_Ok in Hm as (Hv & _ & Hs & _ & -> & _ & Hdc).
  apply encode_Ok in He as (_ & Hn & _ & Hne & Hle & Hu & -> & Hlen); [|done].
  cbn [encoded_bytes decoded_bytes] in *. rewrite length_app, Nat2Z.inj_add in Hmb.
  assert (0 <= over_universe bucket_cost index universe) as Hc0 by apply over_universe_nonneg, bucket_cost_nonneg.
  assert (0 < state_cost (Z.of_nat (length universe))) as Hsc.
  { pose proof LO as []. unfold state_cost, HASH_SLOTS_PER_BUCKET, HASH_MIN_SLOTS. nia. }
  apply decode_enc_image; try done.
  - apply validate_recap; lia || done.
  - by eapply universe_ok_caps; [..|exact Hu].
  - rewrite length_app, Nat2Z.inj_add. cbn [cap_bytes]. lia.
  - cbn [cap_decoded_bytes]. lia.
Qed.

Lemma decoded_image_same index universe l caps :
  index_wf index → decode l caps = Ok (decoded_image index universe) →
  same_image index (decoded_image index universe) ∧ i_stats (decoded_image index universe) = i_stats index ∧
  index_wf (decoded_image index universe).
Proof.
  intros Hwf (_ & HB & _)%decode_Ok.
  assert (rows_total (buckets (decoded_image index universe)) = i_stats index) as Hst.
  { cbn [decoded_image buckets]. rewrite rows_total_image. symmetry. apply iw_stats, Hwf. }
  assert (index_wf (decoded_image index universe)) as Hwf'.
  { apply table_built_wf; [done|]. cbn [decoded_image buckets] in Hst. rewrite Hst. apply iw_fit, Hwf. }
  split_and!; [| |done].
  - intros name. cbn [decoded_image buckets]. rewrite lookup_fmap. destruct (buckets index !! name) as [b|]; [|done].
    cbn. split_and!; [apply image_keys_map|apply image_gone_map|done].
  - rewrite <- Hst. apply (iw_stats _ Hwf').
Qed.

(** [C16] Round trip up to what the wire carries: an index whose rows are typed, whose names
    are text and whose tags the parser reads back, measured and encoded, decodes, under any
    byte cap the image meets and any decoding budget of at least the measured charge, to the
    same buckets with the skeletons of the same rows (size, time, tag and class, without the
    content type and the metadata of a HEAD), the same tombstones and the same statistics;
    with bytes after the image it is refused. *)
Theorem image_roundtrip index universe caps sz l t max_bytes max_decoded :
  index_wf index → index_typed index → index_wire index →
  measure_image index universe caps = Ok sz → encode index universe caps sz = Ok l →
  Z.of_nat (length (l ++ t)) <= max_bytes <= 2 ^ 28 → decoded_bytes sz <= max_decoded <= 2 ^ 30 →
  ∃ d, decode (l ++ t) (mkCaps max_bytes max_decoded (cap_buckets caps) (cap_rows caps) (cap_name_bytes caps)) =
         (if bool_decide (t = []) then Ok d else Err Corrupt)
       ∧ same_image index d ∧ i_stats d = i_stats index ∧ index_wf d.
Proof.
  intros Hwf Hty Hw Hm He Hmb Hmd. exists (decoded_image index universe).
  split; [by apply (encoded_decodes index universe caps sz)|].
  rewrite length_app, Nat2Z.inj_add in Hmb.
  apply (decoded_image_same index universe (l ++ [])
    (mkCaps max_bytes max_decoded (cap_buckets caps) (cap_rows caps) (cap_name_bytes caps))); [done|].
  rewrite (encoded_decodes index universe caps sz l []); [by rewrite bool_decide_true|done..| |lia].
  rewrite app_nil_r. lia.
Qed.
End round.

(** ** A concrete image *)

#[local] Existing Instance layout64.
#[local] Existing Instance layout64_ok.
#[local] Existing Instance parse_quoted.

Definition demo_keys : KeyRows := (Keys.insert KeyRows_default "k" sample_entry).2.
Definition demo_gone : GoneRows := (Gone.insert GoneRows_default "z" 5).2.
Definition demo_stats : IndexStats := Stats.replace stats_zero stats_zero (Stats.for_entry sample_entry).
Definition demo_index : KeyIndexState :=
  mkIndex {["b" := image_bucket_state demo_keys demo_gone demo_stats]} demo_stats None ∅.
Definition demo_caps : ImageCaps := mkCaps 1000 20000 4 10 100.
Definition demo_size : ImageSize :=
  match measure_image demo_index ["b"] demo_caps with Ok sz => sz | Err _ => mkImageSize 0 0 0 end.
Definition demo_bytes : bytes :=
  match encode demo_index ["b"] demo_caps demo_size with Ok l => l | Err _ => [] end.

Lemma demo_bucket name b : buckets demo_index !! name = Some b →
  name = "b" ∧ b = image_bucket_state demo_keys demo_gone demo_stats.
Proof. unfold demo_index. cbn [buckets]. rewrite lookup_singleton_Some. naive_solver. Qed.

Lemma demo_key k e : kr_map demo_keys !! k = Some e → k = "k" ∧ e = sample_entry.
Proof.
  unfold demo_keys. rewrite insert_map, lookup_insert_Some. intros [[-> ->]|[_ H]]; [done|].
  cbn in H. by rewrite lookup_empty in H.
Qed.

Lemma demo_tomb k t : gr_map demo_gone !! k = Some t → k = "z" ∧ t = 5.
Proof.
  unfold demo_gone. rewrite gone_insert_map, lookup_insert_Some. intros [[-> ->]|[_ H]]; [done|].
  cbn in H. by rewrite lookup_empty in H.
Qed.

Lemma demo_index_wf : index_wf demo_index.
Proof.
  apply table_built_wf; [|by split; vm_compute]. split.
  - intros name b [-> ->]%demo_bucket. split; [done| | |].
    + apply keys_built_insert; [done|]. split; [apply keys_default_wf|]. by intros _.
    + apply gone_insert_wf, gone_default_wf.
    + intros k e d [-> ->]%demo_key [? _]%demo_tomb. done.
  - intros _. by vm_compute.
Qed.

Lemma demo_index_typed : index_typed demo_index.
Proof.
  intros name b [-> ->]%demo_bucket. split.
  - intros k e [-> ->]%demo_key. by vm_compute.
  - intros k t [-> ->]%demo_tomb. by vm_compute.
Qed.

Lemma demo_index_wire : index_wire demo_index.
Proof.
  intros name b [-> ->]%demo_bucket. split_and!; [done| |].
  - by intros k e [-> ->]%demo_key.
  - by intros k t [-> ->]%demo_tomb.
Qed.

Lemma tallied_size_exact_witness :
  tallied_size demo_index ["b"] demo_caps = Ok demo_size ∧ 0 < encoded_bytes demo_size.
Proof.
  split; [|by vm_compute]. rewrite tallied_size_exact; [by vm_compute|apply demo_index_wf|].
  intros name b [-> ->]%demo_bucket. split; repeat constructor; by vm_compute.
Defined.

Lemma measured_image_encodes_witness :
  ∃ l, encode demo_index ["b"] demo_caps demo_size = Ok l ∧ Z.of_nat (length l) = encoded_bytes demo_size.
Proof.
  apply measured_image_encodes; [apply demo_index_typed| |by vm_compute].
  intros name b [-> ->]%demo_bucket. split.
  - intros k e [-> ->]%demo_key. by vm_compute.
  - by intros k t [-> ->]%demo_tomb.
Defined.

Lemma image_roundtrip_witness :
  ∃ d, decode (demo_bytes ++ []) (mkCaps 1000 20000 4 10 100) = Ok d ∧ same_image demo_index d.
Proof.
  destruct (image_roundtrip demo_index ["b"] demo_caps demo_size demo_bytes [] 1000 20000)
    as (d & E & H & _); [apply demo_index_wf|apply demo_index_typed|apply demo_index_wire|by vm_compute..|].
  rewrite bool_decide_true in E by done. exists d. split; [exact E|exact H].
Defined.

Definition demo_decoded : KeyIndexState :=
  match decode demo_bytes demo_caps with Ok d => d | Err _ => KeyIndexState_default end.

Lemma decode_wf_witness : index_wf demo_decoded ∧ decode demo_bytes demo_caps = Ok demo_decoded.
Proof.
  split; [|by vm_compute]. by apply (decode_wf demo_bytes demo_caps demo_decoded); [vm_compute..|split; vm_compute].
Defined.
