(* ===== verification/ListIndex.v ===== *)
(** * LIST from the index

    [list_objects_v2_from_index] of [src/src/index.rs], [list_from_index] of
    [src/src/cache/proxy.rs] and the [list_objects_v2] handler of
    [src/src/cache/service.rs]. *)

From S2P Require Import Prelude.
From S2P Require Import ObjTypes.
From S2P Require Import ListToken.
From S2P Require Import ImageCodec.
From S2P Require Import Rows.
From S2P Require Import IndexCapture.
From S2P Require Import KeyIndex.

(** The roll-up of [key]: the prefix and the rest up to and with the first
    delimiter after it. *)
Definition roll_up (prefix : string) (delim : option string) (key : string) : option string :=
  d ← delim;
  let rest := sdrop (String.length prefix) key in
  idx ← sfind d rest;
  Some (prefix +:+ stake (idx + String.length d) rest).

Definition object_of (key : string) (e : ObjEntry) (size : Z) : Object :=
  mkObject (Some key) (Some size) (Some (last_modified e)) (etag e) (Some (storage_class e)).

(** What the scan has gathered: rows, common prefixes ([BTreeSet]), whether it
    stopped at [max], and the last key consumed. *)
Record Scan := mkScan {
  sc_contents : list Object;
  sc_common : gset string;
  sc_truncated : bool;
  sc_last : option string;
}.

Definition sc_count (s : Scan) : Z := Z.of_nat (length (sc_contents s)) + Z.of_nat (base.size (sc_common s)).

(** The [for] loop; [None] is the early return at a row without a size. *)
Fixpoint list_scan (prefix : string) (delim : option string) (max : Z)
    (rows : list (string * ObjEntry)) (s : Scan) : option Scan :=
  match rows with
  | [] => Some s
  | (key, e) :: rows =>
      if negb (starts_with prefix key) then
        if sltb prefix key then Some s else list_scan prefix delim max rows s
      else
        let count := sc_count s in
        match roll_up prefix delim key with
        | Some cp =>
            if negb (bool_decide (cp ∈ sc_common s)) then
              if max <=? count then Some (mkScan (sc_contents s) (sc_common s) true (sc_last s))
              else list_scan prefix delim max rows
                     (mkScan (sc_contents s) ({[cp]} ∪ sc_common s) (sc_truncated s) (Some key))
            else list_scan prefix delim max rows
                   (mkScan (sc_contents s) (sc_common s) (sc_truncated s) (Some key))
        | None =>
            if max <=? count then Some (mkScan (sc_contents s) (sc_common s) true (sc_last s))
            else
              size ← size e;
              list_scan prefix delim max rows
                (mkScan (sc_contents s ++ [object_of key e size]) (sc_common s) (sc_truncated s) (Some key))
        end
  end.

Definition page_max (input : ListInput) : Z := Z.max 0 (Z.min 1000 (default 1000 (li_max_keys input))).

(** Where the scan starts: after the cursor or [start_after], or at the prefix. *)
Definition lower_bound (input : ListInput) (resume_after : option string) (prefix : string) : Bound :=
  let lower := match resume_after with
               | Some cursor => Excluded cursor
               | None => match li_start_after input with
                         | Some sa => Excluded sa
                         | None => Unbounded
                         end
               end in
  match lower with
  | Excluded after => if sleb prefix after then Excluded after
                      else if negb (sempty prefix) then Included prefix else Excluded after
  | lower => if negb (sempty prefix) then Included prefix else lower
  end.

(** The ordered elements of a [BTreeSet]. *)
Definition sorted_set (s : gset string) : list string := merge_sort String.le (elements s).

Definition none_if_empty {A} (l : list A) : option (list A) :=
  match l with [] => None | _ => Some l end.

Section list_index.
Context {L : Layout} {E : TokenEnv}.

Definition list_objects_v2_from_index (keys : option KeyRows) (input : ListInput)
    (resume_after : option string) : option ListOutput :=
  let prefix := default "" (li_prefix input) in
  let delim := li_delimiter input in
  let max := page_max input in
  s ← match keys with
      | Some keys =>
          if 0 <? max then
            list_scan prefix delim max (Keys.range_from keys (lower_bound input resume_after prefix))
              (mkScan [] ∅ false None)
          else Some (mkScan [] ∅ false None)
      | None => Some (mkScan [] ∅ false None)
      end;
  Some (mkListOutput (Some (li_bucket input)) (Some prefix) (Some max)
          (Some (Z.min i32_max (sc_count s)))
          (Some (sc_truncated s))
          (li_continuation_token input)
          (if sc_truncated s then encode input <$> sc_last s else None)
          (none_if_empty (sc_contents s))
          (none_if_empty (sorted_set (sc_common s)))
          delim
          (li_start_after input)).

(** [Proxy::list_from_index]: a bucket with an uncertain key never answers. *)
Definition list_from_index (index : KeyIndexState) (input : ListInput) (resume_after : option string)
    : option ListOutput :=
  let bucket := buckets index !! li_bucket input in
  if is_some_and (λ b, negb (bool_decide (uncertain_keys b = ∅))) bucket then None
  else list_objects_v2_from_index (keys <$> bucket) input resume_after.

Definition is_synced (index : KeyIndexState) (bucket : string) : bool :=
  is_some_and synced (buckets index !! bucket).

Inductive ListMetric := ListFromIndex | ListPassthrough.
Inductive ListError (OE : Type) := InvalidArgument (e : TokenError) | OriginError (e : OE).

(** What the handler meets while it awaits: the index when it checks that the
    bucket is synced and again when it builds the page, the read barrier's
    route, and whether the read gate is still open before the page is returned. *)
Record ListEnv := mkListEnv {
  le_sync_index : KeyIndexState;
  le_barrier_local : bool;
  le_list_index : KeyIndexState;
  le_gate_open : bool;
}.

Definition map_origin {OE} (r : result OE ListOutput) : result (ListError OE) ListOutput :=
  match r with Ok out => Ok out | Err e => Err (OriginError OE e) end.

(** The handler: its answer and the metric it counts. *)
Definition list_objects_v2 {OE} (env : ListEnv) (origin : ListInput → result OE ListOutput)
    (input : ListInput) : result (ListError OE) ListOutput * option ListMetric :=
  let origin_only := is_some (li_encoding_type input) || default false (li_fetch_owner input)
                     || is_some (li_expected_bucket_owner input) in
  match classify input with
  | Err e => (Err (InvalidArgument OE e), None)
  | Ok ListToken.Origin => (map_origin (origin input), Some ListPassthrough)
  | Ok continuation =>
      let resume_after := match continuation with ListToken.Local _ cursor => Some cursor | _ => None end in
      let passthrough :=
        (match continuation with
         | ListToken.Local token cursor =>
             let '(envelope, input) := rewrite_for_origin input token cursor in
             map_origin (out ← origin input; Ok (restore envelope out))
         | _ => map_origin (origin input)
         end, Some ListPassthrough) in
      if negb origin_only && is_synced (le_sync_index env) (li_bucket input) && le_barrier_local env
      then match list_from_index (le_list_index env) input resume_after with
           | Some out => if le_gate_open env then (Ok out, Some ListFromIndex) else passthrough
           | None => passthrough
           end
      else passthrough
  end.
End list_index.
