(* ===== verification/ListProps.v ===== *)
(** * Correctness of LIST

    A page holds the first rows and common prefixes after its cursor, and a
    client that follows the tokens sees every key under the prefix exactly
    once: the pages of a walk put together are the listing. *)

From S2P Require Import Prelude.
From S2P Require Import ObjTypes.
From S2P Require Import ListToken.
From S2P Require Import ImageCodec.
From S2P Require Import Rows.
From S2P Require Import IndexCapture.
From S2P Require Import KeyIndex.
From S2P Require Import ListIndex.

(** ** Roll-ups *)

Lemma starts_with_app d w a :
  (String.length d <= String.length w)%nat → starts_with d (w +:+ a) = starts_with d w.
Proof.
  revert w. induction d as [|x d IH]; intros w H; [done|].
  destruct w as [|y w]; cbn in H; [lia|]. rewrite append_cons. cbn. f_equal. apply IH. lia.
Qed.

(** The first delimiter of a text is found in any text that continues it. *)
Lemma sfind_continues d u v t :
  sfind d (u +:+ d +:+ v) = Some (String.length u) → sfind d (u +:+ d +:+ t) = Some (String.length u).
Proof.
  induction u as [|x u IH].
  - intros _. assert (starts_with d ("" +:+ d +:+ t) = true) as E by (apply starts_with_spec; by exists t).
    destruct ("" +:+ d +:+ t); cbn [sfind]; by rewrite E.
  - rewrite !append_cons. cbn [sfind String.length].
    assert (∀ z, starts_with d (String x (u +:+ d +:+ z)) = starts_with d (String x (u +:+ d))) as E.
    { intros z. rewrite <- append_cons, <- append_assoc, <- append_cons. rewrite starts_with_app; [done|].
      cbn. rewrite length_append. lia. }
    rewrite !E. destruct (starts_with d (String x (u +:+ d))); [done|].
    intros (j & Hj & [= <-])%fmap_Some. by rewrite IH.
Qed.

Lemma roll_up_spec prefix delim key cp :
  starts_with prefix key = true → roll_up prefix delim key = Some cp →
  starts_with cp key = true ∧ ∀ k, starts_with cp k = true → starts_with prefix k = true ∧ roll_up prefix delim k = Some cp.
Proof.
  intros [rest ->]%starts_with_spec. unfold roll_up. destruct delim as [d|]; [|done].
  cbn [mbind option_bind]. rewrite sdrop_append. intros (idx & Hf & H)%bind_Some.
  destruct (sfind_Some _ _ _ Hf) as (u & v & -> & <-). rewrite <- append_assoc, <- length_append, stake_append in H.
  injection H as <-. split.
  - apply starts_with_spec. exists v. by rewrite !append_assoc.
  - intros k [t ->]%starts_with_spec. rewrite !append_assoc. split; [apply starts_with_spec; eauto|].
    rewrite sdrop_append, (sfind_continues d u v t Hf). cbn [mbind option_bind].
    by rewrite <- append_assoc, <- length_append, stake_append.
Qed.

Section rolls.
Variables (prefix : string) (delim : option string).
Abbreviation roll := (roll_up prefix delim).
Abbreviation under k := (starts_with prefix k = true).

(** The keys of one roll-up are a contiguous block. *)
Lemma roll_between a b c cp :
  under a → roll a = Some cp → under c → roll c = Some cp → a <ₛ b → b <ₛ c → roll b = Some cp.
Proof.
  intros Ha Ra Hc Rc Hab Hbc. destruct (roll_up_spec _ _ _ _ Ha Ra) as [Sa Hall].
  destruct (roll_up_spec _ _ _ _ Hc Rc) as [Sc _].
  eapply Hall, (starts_with_between cp a b c); try done; apply sleb_le; by left.
Qed.

(** Roll-ups come in the order of their keys. *)
Lemma roll_mono a b p q :
  under a → roll a = Some p → under b → roll b = Some q → a <ₛ b → p = q ∨ p <ₛ q.
Proof.
  intros Ha Ra Hb Rb Hab. destruct (roll_up_spec _ _ _ _ Ha Ra) as [Sa Halla].
  destruct (roll_up_spec _ _ _ _ Hb Rb) as [Sb Hallb].
  destruct (slt_trichotomy p q) as [|[|Hqp]]; [by right|by left|]. left.
  assert (starts_with q p = true) as Hq.
  { apply (starts_with_between q q p b); [apply starts_with_refl|done|apply sleb_le; by left|].
    pose proof (starts_with_ge _ _ Sa) as Hpa. apply sleb_le in Hpa. apply sleb_le.
    destruct Hpa as [Hpa| ->]; left; [by trans a|done]. }
  destruct (Hallb a) as [_ E]; [by eapply starts_with_trans|]. rewrite Ra in E. by injection E.
Qed.
End rolls.

(** ** The scan *)

Definition sized_row (prefix : string) (delim : option string) (r : string * ObjEntry) : Prop :=
  roll_up prefix delim r.1 = None → is_Some (size r.2).

(** The rows a listing shows, and the prefixes it rolls up. *)
Definition shown (prefix : string) (delim : option string) (rows : list (string * ObjEntry)) : list Object :=
  omap (λ r, match roll_up prefix delim r.1 with
             | None => object_of r.1 r.2 <$> size r.2
             | Some _ => None
             end) rows.

Definition rolled (prefix : string) (delim : option string) (rows : list (string * ObjEntry)) : gset string :=
  list_to_set (omap (λ r, roll_up prefix delim r.1) rows).

Definition last_key (rows : list (string * ObjEntry)) (last_ : option string) : option string :=
  match last rows with Some r => Some r.1 | None => last_ end.

Section scan.
Variables (prefix : string) (delim : option string) (max : Z).
Implicit Types rows : list (string * ObjEntry).
Abbreviation scan := (list_scan prefix delim max).

Definition gathered (s : Scan) rows (stop : bool) : Scan :=
  mkScan (sc_contents s ++ shown prefix delim rows) (rolled prefix delim rows ∪ sc_common s) stop
    (last_key rows (sc_last s)).

Lemma shown_app r1 r2 : shown prefix delim (r1 ++ r2) = shown prefix delim r1 ++ shown prefix delim r2.
Proof. apply omap_app. Qed.

Lemma rolled_app r1 r2 : rolled prefix delim (r1 ++ r2) = rolled prefix delim r1 ∪ rolled prefix delim r2.
Proof. unfold rolled. by rewrite omap_app, list_to_set_app_L. Qed.

Lemma rolled_nil : rolled prefix delim [] = ∅.
Proof. done. Qed.

Lemma rolled_cons_Some k e rows cp :
  roll_up prefix delim k = Some cp → rolled prefix delim ((k, e) :: rows) = {[cp]} ∪ rolled prefix delim rows.
Proof. intros H. unfold rolled. cbn. by rewrite H. Qed.

Lemma rolled_cons_None k e rows :
  roll_up prefix delim k = None → rolled prefix delim ((k, e) :: rows) = rolled prefix delim rows.
Proof. intros H. unfold rolled. cbn. by rewrite H. Qed.

Lemma elem_of_rolled cp rows :
  cp ∈ rolled prefix delim rows ↔ ∃ k e, (k, e) ∈ rows ∧ roll_up prefix delim k = Some cp.
Proof.
  unfold rolled. rewrite elem_of_list_to_set, list_elem_of_omap. split.
  - intros ([k e] & Hin & H). eauto.
  - intros (k & e & Hin & H). by exists (k, e).
Qed.

Lemma last_key_cons k e rows x : last_key ((k, e) :: rows) x = last_key rows (Some k).
Proof. unfold last_key. destruct rows as [|r rows]; [done|]. change (last ((k, e) :: r :: rows)) with (last (r :: rows)).
  destruct (last (r :: rows)) eqn:E; [done|]. by apply last_None in E. Qed.

(** Rows outside the prefix are skipped, and the scan stops past its block. *)
Lemma scan_matching rows s :
  StronglySorted key_lt rows → scan rows s = scan (filter (λ r, starts_with prefix r.1 = true) rows) s.
Proof.
  intros Hs. revert s. induction Hs as [|[k e] rows Hs IH Hall]; intros s; [done|]. rewrite filter_cons. cbn [fst].
  destruct (starts_with prefix k) eqn:Ek.
  - rewrite decide_True by done. cbn [list_scan]. rewrite Ek. cbn [negb].
    destruct (roll_up prefix delim k); repeat case_match; try done; try apply IH.
    destruct (size e); [apply IH|done].
  - rewrite decide_False by done. cbn [list_scan]. rewrite Ek. cbn [negb].
    destruct (sltb prefix k) eqn:El; [|apply IH]. apply sltb_lt in El.
    assert (filter (λ r : string * ObjEntry, starts_with prefix r.1 = true) rows = []) as ->; [|done].
    apply filter_none. eapply Forall_impl; [exact Hall|]. intros [k' e'] Hlt Hk'. unfold key_lt in Hlt. cbn in *.
    assert (starts_with prefix k = true); [|congruence].
    apply (starts_with_between prefix prefix k k'); [apply starts_with_refl|done|apply sleb_le; by left..].
Qed.

(** The three ways the scan consumes a row. *)
Lemma gathered_roll s k e cp rows stop :
  roll_up prefix delim k = Some cp →
  gathered (mkScan (sc_contents s) ({[cp]} ∪ sc_common s) (sc_truncated s) (Some k)) rows stop =
  gathered s ((k, e) :: rows) stop.
Proof.
  intros H. unfold gathered, shown. cbn [omap list_omap sc_contents sc_common sc_last fst snd].
  rewrite (rolled_cons_Some k e rows cp H), last_key_cons, H. f_equal. set_solver.
Qed.

Lemma gathered_again s k e cp rows stop :
  roll_up prefix delim k = Some cp → cp ∈ sc_common s →
  gathered (mkScan (sc_contents s) (sc_common s) (sc_truncated s) (Some k)) rows stop =
  gathered s ((k, e) :: rows) stop.
Proof.
  intros H Hin. unfold gathered, shown. cbn [omap list_omap sc_contents sc_common sc_last fst snd].
  rewrite (rolled_cons_Some k e rows cp H), last_key_cons, H. f_equal. set_solver.
Qed.

Lemma gathered_row s k e z rows stop :
  roll_up prefix delim k = None → size e = Some z →
  gathered (mkScan (sc_contents s ++ [object_of k e z]) (sc_common s) (sc_truncated s) (Some k)) rows stop =
  gathered s ((k, e) :: rows) stop.
Proof.
  intros H Hz. unfold gathered, shown. cbn [omap list_omap sc_contents sc_common sc_last fst snd].
  rewrite (rolled_cons_None k e rows H), last_key_cons, H, Hz. cbn. by rewrite <- app_assoc.
Qed.

Lemma gathered_nil s stop : gathered s [] stop = mkScan (sc_contents s) (sc_common s) stop (sc_last s).
Proof.
  unfold gathered. change (shown prefix delim []) with (@nil Object). by rewrite rolled_nil, (left_id_L ∅ (∪)), app_nil_r.
Qed.

(** The scan takes a first part of the rows, as many as fit, and stops at a row
    that would add an item. *)
Definition splits s rows (s' : Scan) : Prop :=
  ∃ M1 M2, rows = M1 ++ M2 ∧ s' = gathered s M1 (bool_decide (M2 ≠ [])) ∧ sc_count s' <= max ∧
    Forall (sized_row prefix delim) M1 ∧
    ∀ k e M', M2 = (k, e) :: M' →
      sc_count s' = max ∧ ∀ cp, roll_up prefix delim k = Some cp → cp ∉ sc_common s'.

Lemma splits_cons s s1 k e rows s' :
  (∀ M stop, gathered s1 M stop = gathered s ((k, e) :: M) stop) → sized_row prefix delim (k, e) →
  splits s1 rows s' → splits s ((k, e) :: rows) s'.
Proof.
  intros Hg Hz (M1 & M2 & -> & -> & Hc & Hs & Hstop). exists ((k, e) :: M1), M2. rewrite <- Hg.
  split_and!; try done. by constructor.
Qed.

Lemma splits_stop s k e rows :
  max <= sc_count s → sc_count s <= max → (∀ cp, roll_up prefix delim k = Some cp → cp ∉ sc_common s) →
  splits s ((k, e) :: rows) (mkScan (sc_contents s) (sc_common s) true (sc_last s)).
Proof.
  intros H1 H2 Hcp. exists [], ((k, e) :: rows). rewrite gathered_nil, bool_decide_true by done.
  unfold sc_count in *. cbn [sc_contents sc_common]. split_and!; try done.
  intros k' e' M' [= <- <- <-]. split; [lia|done].
Qed.

Lemma scan_splits rows s s' :
  Forall (λ r, starts_with prefix r.1 = true) rows → sc_truncated s = false → sc_count s <= max →
  scan rows s = Some s' → splits s rows s'.
Proof.
  intros Hp. revert s. induction Hp as [|[k e] rows Hk Hp IH]; intros s Ht Hc H; cbn [list_scan] in H.
  { injection H as <-. exists [], []. rewrite gathered_nil, bool_decide_false by (intros Hn; by apply Hn).
    split_and!; try done. rewrite <- Ht. by destruct s. }
  cbn [fst] in Hk. rewrite Hk in H. cbn [negb] in H. destruct (roll_up prefix delim k) as [cp|] eqn:Er.
  - case_bool_decide as Hin; cbn [negb] in H.
    + eapply splits_cons; [intros; by eapply gathered_again|intros Hx; cbn in Hx; congruence|by apply IH].
    + destruct (Z.leb_spec max (sc_count s)).
      * injection H as <-. apply splits_stop; [done|done|]. naive_solver.
      * eapply splits_cons; [intros; by eapply gathered_roll|intros Hx; cbn in Hx; congruence|].
        apply IH; [done| |done]. unfold sc_count in *. cbn [sc_contents sc_common].
        rewrite size_union, size_singleton by set_solver. lia.
  - destruct (Z.leb_spec max (sc_count s)).
    + injection H as <-. apply splits_stop; [done|done|]. naive_solver.
    + apply bind_Some in H as (z & Hz & H).
      eapply splits_cons; [intros; by eapply gathered_row|intros _; by exists z|].
      apply IH; [done| |done]. unfold sc_count in *. cbn [sc_contents sc_common]. rewrite length_app. cbn [length]. lia.
Qed.

Lemma scan_total rows s : Forall (sized_row prefix delim) rows → is_Some (scan rows s).
Proof.
  intros Hs. revert s. induction Hs as [|[k e] rows Hk Hs IH]; intros s; cbn [list_scan]; [done|].
  repeat case_match; try done; try apply IH. unfold sized_row in Hk. cbn [fst snd] in Hk.
  destruct Hk as [z ->]; [done|]. apply IH.
Qed.
End scan.

(** ** One page *)

Definition prefix_of (input : ListInput) : string := default "" (li_prefix input).

(** Where the request asks the listing to start. *)
Definition start_bound (input : ListInput) (resume_after : option string) : Bound :=
  match resume_after with
  | Some cursor => Excluded cursor
  | None => match li_start_after input with Some sa => Excluded sa | None => Unbounded end
  end.

Lemma sleb_empty s : sleb "" s = true.
Proof. by apply starts_with_ge. Qed.

Lemma lower_bound_matching input resume k :
  starts_with (prefix_of input) k = true →
  above (lower_bound input resume (prefix_of input)) k = above (start_bound input resume) k.
Proof.
  intros Hk. pose proof (starts_with_ge _ _ Hk) as Hle. unfold lower_bound. fold (start_bound input resume).
  destruct (start_bound input resume) as [x|x|] eqn:Eb; cbn.
  - unfold start_bound in Eb. by repeat case_match.
  - destruct (sleb (prefix_of input) x) eqn:Ex; [done|]. destruct (sempty (prefix_of input)) eqn:Ee; [done|]. cbn.
    rewrite Hle. symmetry. apply sltb_lt. assert (x <ₛ prefix_of input) by (apply sltb_lt; by rewrite sltb_sleb, Ex).
    apply sleb_le in Hle as [Hle|<-]; [by trans (prefix_of input)|done].
  - by destruct (sempty (prefix_of input)).
Qed.

Section page.
Context {L : Layout} {E : TokenEnv}.

(** The rows of the listing the request asks for. *)
Definition listed_rows (ks : KeyRows) (input : ListInput) (resume : option string) : list (string * ObjEntry) :=
  filter (λ r, starts_with (prefix_of input) r.1 = true) (map_range (kr_map ks) (start_bound input resume)).

Lemma range_matching ks input resume :
  filter (λ r, starts_with (prefix_of input) r.1 = true)
    (Keys.range_from ks (lower_bound input resume (prefix_of input))) = listed_rows ks input resume.
Proof.
  unfold listed_rows, Keys.range_from, map_range. rewrite !list_filter_filter.
  apply list_filter_iff. intros [k e]. cbn. split; intros [H1 H2]; (split; [done|]);
    by rewrite lower_bound_matching in * by done || rewrite <- lower_bound_matching by done.
Qed.

Lemma listed_rows_sorted ks input resume : StronglySorted key_lt (listed_rows ks input resume).
Proof. apply key_lt_sorted_filter, map_range_sorted. Qed.

Lemma listed_rows_under ks input resume :
  Forall (λ r, starts_with (prefix_of input) r.1 = true) (listed_rows ks input resume).
Proof. apply Forall_forall. by intros r [? _]%list_elem_of_filter. Qed.

Definition empty_scan : Scan := mkScan [] ∅ false None.

Definition output_of (input : ListInput) (s : Scan) : ListOutput :=
  mkListOutput (Some (li_bucket input)) (Some (prefix_of input)) (Some (page_max input))
    (Some (Z.min i32_max (sc_count s))) (Some (sc_truncated s)) (li_continuation_token input)
    (if sc_truncated s then encode input <$> sc_last s else None) (none_if_empty (sc_contents s))
    (none_if_empty (sorted_set (sc_common s))) (li_delimiter input) (li_start_after input).

Lemma list_scan_page ks input resume :
  0 < page_max input →
  list_objects_v2_from_index (Some ks) input resume =
  output_of input <$> list_scan (prefix_of input) (li_delimiter input) (page_max input)
                        (listed_rows ks input resume) empty_scan.
Proof.
  intros Hm. unfold list_objects_v2_from_index. fold (prefix_of input). rewrite (proj2 (Z.ltb_lt _ _)) by done.
  rewrite (scan_matching _ _ _ (Keys.range_from ks _)) by apply map_range_sorted. rewrite range_matching.
  by destruct (list_scan _ _ _ _ _).
Qed.

Lemma page_splits ks input resume s :
  0 < page_max input →
  list_scan (prefix_of input) (li_delimiter input) (page_max input) (listed_rows ks input resume) empty_scan = Some s →
  splits (prefix_of input) (li_delimiter input) (page_max input) empty_scan (listed_rows ks input resume) s.
Proof.
  intros Hm. apply scan_splits; [apply listed_rows_under|done|]. unfold sc_count. cbn. rewrite size_empty. lia.
Qed.

Lemma count_gathered prefix delim rows stop :
  sc_count (gathered prefix delim empty_scan rows stop) =
  Z.of_nat (length (shown prefix delim rows)) + Z.of_nat (base.size (rolled prefix delim rows)).
Proof. unfold gathered, sc_count. cbn [sc_contents sc_common empty_scan]. by rewrite (right_id_L ∅ (∪)). Qed.

Lemma page_max_range input : 0 <= page_max input <= 1000.
Proof. unfold page_max. lia. Qed.

(** One page: the listing's rows after the cursor split into the rows of the
    page and the rest; the page shows exactly the first part, rolled up, holds at
    most [max-keys] items, is marked truncated exactly when a rest remains, and
    then holds exactly [max-keys] items and a token whose cursor is the last key
    it consumed.  The page is refused only when a row to show has no size. *)
Theorem list_page ks input resume :
  0 < page_max input →
  match list_objects_v2_from_index (Some ks) input resume with
  | Some out =>
      ∃ M1 M2, listed_rows ks input resume = M1 ++ M2 ∧
        let rows := shown (prefix_of input) (li_delimiter input) M1 in
        let common := rolled (prefix_of input) (li_delimiter input) M1 in
        let count := Z.of_nat (length rows) + Z.of_nat (base.size common) in
        lo_contents out = none_if_empty rows ∧ lo_common_prefixes out = none_if_empty (sorted_set common) ∧
        lo_key_count out = Some count ∧ lo_is_truncated out = Some (bool_decide (M2 ≠ [])) ∧
        count <= page_max input ∧ (M2 ≠ [] → count = page_max input) ∧
        lo_next_continuation_token out =
          (if bool_decide (M2 ≠ []) then (λ r, encode input r.1) <$> last M1 else None)
  | None => ∃ k e, (k, e) ∈ listed_rows ks input resume ∧
              roll_up (prefix_of input) (li_delimiter input) k = None ∧ size e = None
  end.
Proof.
  intros Hm. rewrite list_scan_page by done. set (rows := listed_rows ks input resume).
  destruct (list_scan _ _ _ rows empty_scan) as [s|] eqn:Es; cbn [fmap option_fmap option_map].
  - apply page_splits in Es as (M1 & M2 & Er & -> & Hc & _ & Hstop); [|done]. exists M1, M2. fold rows in Er.
    rewrite count_gathered in Hc. pose proof (page_max_range input). split; [done|]. cbn zeta.
    unfold output_of. rewrite count_gathered. unfold gathered. cbn [sc_contents sc_common sc_truncated sc_last empty_scan
      lo_contents lo_common_prefixes lo_key_count lo_is_truncated lo_next_continuation_token].
    rewrite (right_id_L ∅ (∪)). split_and!; try done.
    + f_equal. unfold i32_max. lia.
    + intros Hne. destruct M2 as [|[k e] M2]; [done|]. destruct (Hstop k e M2 eq_refl) as [Hcount _].
      by rewrite count_gathered in Hcount.
    + unfold last_key. by destruct (last M1).
  - assert (¬ Forall (sized_row (prefix_of input) (li_delimiter input)) rows) as Hn.
    { intros Hall. destruct (scan_total _ _ (page_max input) rows empty_scan Hall). congruence. }
    apply not_Forall_Exists, Exists_exists in Hn as ([k e] & Hin & Hz); [|intros r; unfold sized_row; apply _].
    exists k, e. unfold sized_row in Hz. cbn [fst snd compose] in Hz. split; [done|].
    destruct (roll_up (prefix_of input) (li_delimiter input) k); [by destruct Hz|]. split; [done|].
    destruct (size e); [|done]. destruct Hz. by eexists.
Qed.
End page.

(** ** A whole walk *)

#[global] Instance sle_antisymm : AntiSymm (=) String.le.
Proof.
  intros a b Ha Hb. apply le_sleb in Ha, Hb. destruct Ha as [Ha|?], Hb as [Hb|?]; try done.
  by apply slt_asym in Ha.
Qed.

Lemma sorted_set_union (A B : gset string) :
  (∀ a b, a ∈ A → b ∈ B → a <ₛ b) → sorted_set (A ∪ B) = sorted_set A ++ sorted_set B.
Proof.
  intros H. apply (StronglySorted_unique String.le).
  - apply (StronglySorted_merge_sort String.le).
  - apply StronglySorted_app_2; [|apply (StronglySorted_merge_sort String.le)..].
    intros a b Ha Hb. unfold sorted_set in *. rewrite !merge_sort_Permutation, elem_of_elements in *.
    apply le_sleb. left. by apply H.
  - unfold sorted_set. rewrite !merge_sort_Permutation. rewrite elements_disj_union; [done|].
    intros x Ha Hb. apply (slt_irrefl x). by apply H.
Qed.

Section walk.
Context {L : Layout} {E : TokenEnv}.

(** A client that follows the tokens it is given, through [classify]. *)
Fixpoint walk (fuel : nat) (ks : KeyRows) (input : ListInput) : option (list Object * list string) :=
  match fuel with
  | O => None
  | S fuel =>
      resume ← match classify input with
               | Ok (ListToken.Local _ cursor) => Some (Some cursor)
               | Ok ListToken.Absent => Some None
               | _ => None
               end;
      out ← list_objects_v2_from_index (Some ks) input resume;
      let rows := default [] (lo_contents out) in
      let common := default [] (lo_common_prefixes out) in
      if default false (lo_is_truncated out) then
        token ← lo_next_continuation_token out;
        '(rows', common') ← walk fuel ks (with_token input (Some token));
        Some (rows ++ rows', common ++ common')
      else Some (rows, common)
  end.

Lemma last_sorted_le (M : list (string * ObjEntry)) c e k x :
  StronglySorted key_lt M → last M = Some (c, e) → (k, x) ∈ M → sltb c k = false.
Proof.
  intros Hs [M' ->]%last_Some Hin. apply sltb_ge. apply key_lt_sorted_app in Hs as (_ & _ & Hlt).
  apply elem_of_app in Hin as [Hin|Hin]; [left; apply (Hlt (k, x) (c, e)); [done|set_solver]|].
  apply list_elem_of_singleton in Hin. right. congruence.
Qed.

Lemma resume_rest ks input resume M1 M2 c e :
  listed_rows ks input resume = M1 ++ M2 → last M1 = Some (c, e) →
  listed_rows ks input (Some c) = M2.
Proof.
  intros Hr Hl. pose proof (listed_rows_sorted ks input resume) as Hs. rewrite Hr in Hs.
  pose proof (key_lt_sorted_app _ _ Hs) as (Hs1 & _ & Hlt).
  assert ((c, e) ∈ M1) as Hc. { apply last_Some in Hl as [M' ->]. set_solver. }
  assert (above (start_bound input resume) c = true) as Hca.
  { assert ((c, e) ∈ listed_rows ks input resume) as Hin by (rewrite Hr; set_solver).
    unfold listed_rows in Hin. by apply list_elem_of_filter in Hin as [_ [_ Hin]%elem_of_map_range]. }
  trans (filter (λ r : string * ObjEntry, sltb c r.1 = true) (listed_rows ks input resume)).
  - unfold listed_rows, map_range. rewrite !list_filter_filter. apply list_filter_iff. intros [k x]. cbn.
    split; [|tauto]. intros [H1 H2]. split_and!; [done..|]. apply sltb_lt in H2.
    destruct (start_bound input resume) as [y|y|]; cbn in *; [|by apply sltb_lt; apply sltb_lt in Hca; trans c|done].
    apply sleb_le. apply sleb_le in Hca as [Hca| ->]; left; [by trans c|done].
  - rewrite Hr, filter_app. rewrite filter_none; [cbn [app]; apply filter_all|].
    + apply Forall_forall. intros [k x] Hin. cbn. apply sltb_lt. by apply (Hlt (c, e) (k, x)).
    + apply Forall_forall. intros [k x] Hin. cbn. by rewrite (last_sorted_le M1 c e k x).
Qed.

Lemma rolled_split prefix delim M1 k e M2 :
  StronglySorted key_lt (M1 ++ (k, e) :: M2) →
  Forall (λ r, starts_with prefix r.1 = true) (M1 ++ (k, e) :: M2) →
  (∀ cp, roll_up prefix delim k = Some cp → cp ∉ rolled prefix delim M1) →
  ∀ a b, a ∈ rolled prefix delim M1 → b ∈ rolled prefix delim ((k, e) :: M2) → a <ₛ b.
Proof.
  intros Hs Hu Hk a b (k1 & e1 & H1 & R1)%elem_of_rolled (k2 & e2 & H2 & R2)%elem_of_rolled.
  apply key_lt_sorted_app in Hs as (_ & Hs2 & Hlt). rewrite Forall_forall in Hu.
  pose proof (Hu _ (proj2 (elem_of_app M1 _ _) (or_introl H1))) as U1.
  pose proof (Hu _ (proj2 (elem_of_app M1 _ _) (or_intror H2))) as U2. cbn [fst] in U1, U2.
  pose proof (Hlt _ _ H1 H2) as L12. unfold key_lt in L12. cbn in L12.
  destruct (roll_mono prefix delim k1 k2 a b U1 R1 U2 R2 L12) as [->|]; [|done]. exfalso.
  apply (Hk b); [|apply elem_of_rolled; eauto]. apply elem_of_cons in H2 as [[= -> ->]|H2]; [done|].
  inversion Hs2 as [|? ? _ Hall]; subst. rewrite Forall_forall in Hall. specialize (Hall _ H2). unfold key_lt in Hall. cbn in Hall.
  eapply (roll_between prefix delim k1 k k2); try done. apply (Hlt _ (k, e) H1). set_solver.
Qed.

Lemma none_if_empty_default {A} (l : list A) : default [] (none_if_empty l) = l.
Proof. by destruct l. Qed.

Lemma same_shape_refl input : same_shape input input = true.
Proof. by apply bool_decide_true. Qed.

Lemma page_nonempty input M1 :
  0 < page_max input →
  Z.of_nat (length (shown (prefix_of input) (li_delimiter input) M1)) +
    Z.of_nat (base.size (rolled (prefix_of input) (li_delimiter input) M1)) = page_max input →
  ∃ c e, last M1 = Some (c, e).
Proof.
  intros Hm Hc. destruct (last M1) as [[c e]|] eqn:El; [eauto|]. apply last_None in El as ->.
  rewrite rolled_nil, size_empty in Hc. cbn in Hc. lia.
Qed.

Context {EL : TokenLaws E}.

Lemma walk_complete fuel ks input resume :
  0 < page_max input →
  (∀ k e, kr_map ks !! k = Some e → token_fits input k) →
  (match classify input with
   | Ok (ListToken.Local _ cursor) => resume = Some cursor
   | Ok ListToken.Absent => resume = None
   | _ => False
   end) →
  Forall (sized_row (prefix_of input) (li_delimiter input)) (listed_rows ks input resume) →
  (length (listed_rows ks input resume) < fuel)%nat →
  walk fuel ks input =
    Some (shown (prefix_of input) (li_delimiter input) (listed_rows ks input resume),
          sorted_set (rolled (prefix_of input) (li_delimiter input) (listed_rows ks input resume))).
Proof.
  revert input resume. induction fuel as [|fuel IH]; intros input resume Hm Hfit Hcl Hz Hf; [lia|].
  cbn [walk]. replace (match classify input with
    | Ok (ListToken.Local _ cursor) => Some (Some cursor) | Ok ListToken.Absent => Some None | _ => None end)
    with (Some resume) by (destruct (classify input) as [[]|]; by subst || done).
  cbn [mbind option_bind]. rewrite list_scan_page by done.
  set (rows := listed_rows ks input resume) in *.
  destruct (scan_total _ _ (page_max input) rows empty_scan Hz) as [s Es]. rewrite Es.
  apply page_splits in Es as (M1 & M2 & Er & -> & Hc & _ & Hstop); [|done]. fold rows in Er.
  cbn [fmap option_fmap option_map mbind option_bind]. unfold output_of, gathered.
  cbn [sc_contents sc_common sc_truncated sc_last empty_scan lo_contents lo_common_prefixes lo_is_truncated
    lo_next_continuation_token default app]. rewrite (right_id_L ∅ (∪)), !none_if_empty_default.
  destruct M2 as [|[k e] M2].
  { rewrite bool_decide_false by (intros Hn; by apply Hn). rewrite app_nil_r in Er. by rewrite Er. }
  rewrite bool_decide_true by done. destruct (Hstop k e M2 eq_refl) as [Hcount Hnew].
  rewrite count_gathered in Hcount. destruct (page_nonempty input M1 Hm Hcount) as (c & ec & Hl).
  unfold last_key. rewrite Hl. cbn [fmap option_fmap option_map mbind option_bind].
  pose proof (resume_rest ks input resume M1 _ c ec Er Hl) as Hrest.
  assert ((c, ec) ∈ rows) as Hin. { rewrite Er. apply last_Some in Hl as [M' ->]. set_solver. }
  assert (token_fits input c) as Hcf.
  { unfold rows, listed_rows in Hin. apply list_elem_of_filter in Hin as [_ [Hin _]%elem_of_map_range]. eauto. }
  rewrite (IH (with_token input (Some (encode input c))) (Some c)); [|done|done| | |].
  - change (listed_rows ks (with_token input _) (Some c)) with (listed_rows ks input (Some c)).
    rewrite Hrest. cbn [fst]. cbn [mbind option_bind]. f_equal. rewrite Er, shown_app, rolled_app. f_equal.
    symmetry. apply sorted_set_union. eapply (rolled_split (prefix_of input) (li_delimiter input)).
    + rewrite <- Er. apply listed_rows_sorted.
    + rewrite <- Er. apply listed_rows_under.
    + intros cp Hcp. specialize (Hnew cp Hcp). unfold gathered in Hnew. cbn [sc_common empty_scan] in Hnew. set_solver.
  - cbn [fst]. rewrite (classify_encode input input c Hcf), same_shape_refl. done.
  - change (listed_rows ks (with_token input _) (Some c)) with (listed_rows ks input (Some c)). rewrite Hrest.
    rewrite Er in Hz. by apply Forall_app in Hz as [_ Hz].
  - change (listed_rows ks (with_token input _) (Some c)) with (listed_rows ks input (Some c)). rewrite Hrest.
    rewrite Er, length_app in Hf. destruct M1; [done|]. cbn [length] in *. lia.
Qed.

(** [C9] A client that follows the continuation tokens from the first page sees
    the whole listing: every key under the prefix and after [start-after] that
    is not rolled up exactly once and in order, and every common prefix exactly
    once and in order, however small the pages are. *)
Theorem list_walk_complete ks input :
  0 < page_max input → li_continuation_token input = None →
  (∀ k e, kr_map ks !! k = Some e → token_fits input k ∧ is_Some (size e)) →
  ∃ fuel, walk fuel ks input =
    Some (shown (prefix_of input) (li_delimiter input) (listed_rows ks input None),
          sorted_set (rolled (prefix_of input) (li_delimiter input) (listed_rows ks input None))).
Proof.
  intros Hm Ht Hk. exists (S (length (listed_rows ks input None))). apply walk_complete.
  - done.
  - intros k e H. by apply (Hk k e).
  - unfold classify. by rewrite Ht.
  - apply Forall_forall. intros [k e] Hin _. unfold listed_rows in Hin.
    apply list_elem_of_filter in Hin as [_ [Hin _]%elem_of_map_range]. by apply Hk in Hin as [_ Hin].
  - lia.
Qed.
End walk.

(** ** The handler *)

Section service.
Context {L : Layout} {E : TokenEnv}.

Definition owned (input : ListInput) : bool :=
  is_some_and (starts_with OWNED_NAMESPACE) (li_continuation_token input).

Definition asks_origin (input : ListInput) : bool :=
  is_some (li_encoding_type input) || default false (li_fetch_owner input)
  || is_some (li_expected_bucket_owner input).

Lemma classify_owned input : classify input = Ok ListToken.Absent ∨ classify input = Ok ListToken.Origin → owned input = false.
Proof.
  unfold classify, owned. destruct (li_continuation_token input) as [token|]; [|done]. cbn [is_some_and].
  destruct (starts_with OWNED_NAMESPACE token); [|by intros]. cbn [negb].
  intros [H|H]; inv_ok; destruct x as [? ?]; inv_ok; discriminate.
Qed.

(** [C34] The handler answers from the index only for a synced bucket without an
    uncertain key, a request the index can answer, a local read route and a gate
    that is still open; otherwise it asks the origin, and never with a token of
    s3cache's own namespace: two origins that agree on all other requests give
    the same answer. *)
Theorem list_service {OE} env (origin origin' : ListInput → result OE ListOutput) input :
  (∀ i, owned i = false → origin i = origin' i) →
  list_objects_v2 env origin input = list_objects_v2 env origin' input ∧
  ((list_objects_v2 env origin input).2 = Some ListFromIndex →
     asks_origin input = false ∧ is_synced (le_sync_index env) (li_bucket input) = true ∧
     le_barrier_local env = true ∧ le_gate_open env = true ∧
     (∀ b, buckets (le_list_index env) !! li_bucket input = Some b → uncertain_keys b = ∅) ∧
     ∃ resume out, list_from_index (le_list_index env) input resume = Some out ∧
       (list_objects_v2 env origin input).1 = Ok out).
Proof.
  intros Hag. unfold list_objects_v2. fold (asks_origin input).
  destruct (classify input) as [c|err] eqn:Ec; [|done].
  assert (match c with ListToken.Local _ _ => True | _ => origin input = origin' input end) as Hin.
  { destruct c; [apply Hag, classify_owned; auto..|done]. }
  destruct c as [| |token cursor]; cbn [rewrite_for_origin].
  2:{ rewrite Hin. split; [done|]. cbn. by intros [=]. }
  all: rewrite ?Hin, ?(Hag (mkListInput _ _ _ _ _ None _ _ _)) by done; split; [done|].
  all: destruct (asks_origin input); [by intros [=]|]; cbn [negb andb].
  all: destruct (is_synced _ _); [|by intros [=]]; cbn [andb].
  all: destruct (le_barrier_local env); [|by intros [=]].
  all: destruct (list_from_index _ _ _) as [out|] eqn:El; [|by intros [=]].
  all: destruct (le_gate_open env); [intros _|by intros [=]].
  all: split_and!; try done; [|by eexists _, _].
  all: intros b Hb; unfold list_from_index in El; rewrite Hb in El; cbn in El.
  all: by case_bool_decide.
Qed.
End service.

(** ** A concrete walk *)

#[local] Existing Instance layout64.
#[local] Existing Instance demo_env.
#[local] Existing Instance demo_laws.

Definition demo_row (z : Z) : ObjEntry := mkObjEntry (Some z) 5 None "STANDARD" None None.
Definition demo_table : gmap string ObjEntry :=
  list_to_map [("a/1", demo_row 1); ("a/2", demo_row 2); ("b", demo_row 3); ("c/x", demo_row 4)].
Definition demo_rows : KeyRows := mkKeyRows demo_table tally_zero.
Definition demo_list : ListInput := mkListInput "photos" None (Some "/") (Some 1) None None None None None.

Lemma demo_rows_ok k e : kr_map demo_rows !! k = Some e → token_fits demo_list k ∧ is_Some (size e).
Proof.
  intros H%elem_of_map_to_list. change (map_to_list (kr_map demo_rows)) with (map_to_list demo_table) in H.
  vm_compute in H. repeat (apply elem_of_cons in H as [[= -> ->]|H]; [split; [by vm_compute|by eexists]|]).
  by apply elem_of_nil in H.
Qed.

Lemma list_page_witness :
  0 < page_max demo_list ∧ ∃ out M1 M2, list_objects_v2_from_index (Some demo_rows) demo_list None = Some out ∧
    listed_rows demo_rows demo_list None = M1 ++ M2 ∧ lo_key_count out = Some 1.
Proof.
  split; [done|]. pose proof (list_page demo_rows demo_list None ltac:(done)) as H.
  destruct (list_objects_v2_from_index (Some demo_rows) demo_list None) as [out|] eqn:E; [|by vm_compute in E].
  destruct H as (M1 & M2 & Hr & _). exists out, M1, M2. split_and!; [done|done|].
  vm_compute in E. by injection E as <-.
Defined.

Lemma list_walk_complete_witness :
  ∃ fuel, walk fuel demo_rows demo_list = Some ([object_of "b" (demo_row 3) 3], ["a/"; "c/"]).
Proof.
  destruct (list_walk_complete demo_rows demo_list ltac:(done) eq_refl demo_rows_ok) as [fuel E].
  exists fuel. rewrite E. by vm_compute.
Defined.

Lemma list_service_witness :
  let env := mkListEnv KeyIndexState_default true KeyIndexState_default true in
  let origin (i : ListInput) : result unit ListOutput := Err tt in
  let origin' (i : ListInput) : result unit ListOutput := if owned i then Ok (output_of i empty_scan) else Err tt in
  list_objects_v2 env origin demo_list = list_objects_v2 env origin' demo_list.
Proof.
  intros env origin origin'. apply (list_service env origin origin' demo_list).
  intros i Hi. unfold origin'. by rewrite Hi.
Defined.
