(* ===== verification/Install.v ===== *)
(** * The guarded install

    [src/src/index/fleet/install.rs]: whether a verified private candidate may
    replace the live index, which live effects the swap must carry into it, and
    the swap itself.  [align_cuts] belongs to [groupnet] and is a parameter; the
    iteration order of the live bucket table is an argument.  Lock poisoning is
    not modelled. *)

From S2P Require Import Prelude.
From S2P Require Import ObjTypes.
From S2P Require Import ImageCodec.
From S2P Require Import Rows.
From S2P Require Import IndexCapture.
From S2P Require Import KeyIndex.

Record CutPair := mkCutPair {
  pair_writer : string;
  pair_live : option (Z * Z);
  pair_barrier : option (Z * Z);
}.

Inductive RowField := FETag | FSize | FStorageClass | FLastModified.

Inductive Clause :=
| UniverseMismatch
| LiveRebuilding
| CutConflict
| CandidateUnsynced
| RowLimit
| RowMismatch (f : RowField)
| TombstoneMismatch
| Unavailable.

#[global] Instance RowField_eq_dec : EqDecision RowField.
Proof. solve_decision. Defined.
#[global] Instance Clause_eq_dec : EqDecision Clause.
Proof. solve_decision. Defined.

Record Incompatibility := mkIncompat {
  in_clause : Clause;
  in_bucket_ : option string;
  in_key : option string;
  in_cut : option CutPair;
}.

Inductive InstallRefusal :=
| Pending (cut : option CutPair)
| Incompatible (i : Incompatibility).

Definition at_ (c : Clause) (bucket key : string) : InstallRefusal :=
  Incompatible (mkIncompat c (Some bucket) (Some key) None).
Definition in_bucket (c : Clause) (bucket : string) : InstallRefusal :=
  Incompatible (mkIncompat c (Some bucket) None None).
Definition whole (c : Clause) : InstallRefusal := Incompatible (mkIncompat c None None None).
Definition at_writer (c : Clause) (cut : option CutPair) : InstallRefusal :=
  Incompatible (mkIncompat c None None cut).
Definition unavailable : InstallRefusal := whole Unavailable.

(** [groupnet]'s comparison of the live positions with a barrier. *)
Inductive CutAlignment := AExact | APending | AConflict.
Class AlignCuts := align_cuts : list (string * Z * Z) → list NativeCut → CutAlignment * option CutPair.

(** ** Ordering live and candidate effects *)

Definition whole_seconds (time : Z) : Z :=
  if time <? UNIX_EPOCH then 0 else (time - UNIX_EPOCH) / nanos_per_sec.

Definition version_difference (live peer : ObjEntry) : option RowField :=
  if negb (bool_decide (etag peer = etag live)) then Some FETag
  else if negb (bool_decide (size peer = size live)) then Some FSize
  else if negb (bool_decide (storage_class peer = storage_class live)) then Some FStorageClass
  else if is_none (etag live) && negb (last_modified peer =? last_modified live) then Some FLastModified
  else None.

Definition row_carried (row : ObjEntry) (peer : option ObjEntry) (peer_deleted : option Z)
    : result Clause bool :=
  match (λ peer, version_difference row peer) <$> peer with
  | Some None => Ok false
  | found =>
      let difference := match found with Some (Some field) => Some field | _ => None end in
      let second := whole_seconds (last_modified row) in
      if is_some_and (λ at_, second <? whole_seconds at_) peer_deleted
         || is_some_and (λ peer, second <? whole_seconds (last_modified peer)) peer
      then Ok false
      else if is_some_and (λ at_, last_modified row <=? at_) peer_deleted then Err TombstoneMismatch
      else match peer, difference with
           | Some peer, Some field =>
               if whole_seconds (last_modified peer) =? second then Err (RowMismatch field) else Ok true
           | _, _ => Ok true
           end
  end.

Definition tombstone_carried (deleted_at : Z) (peer : option ObjEntry) (peer_deleted : option Z)
    : result Clause bool :=
  if is_some_and (λ at_, deleted_at <=? at_) peer_deleted then Ok false
  else match peer with
       | Some peer =>
           if deleted_at <? last_modified peer then Ok false
           else if whole_seconds (last_modified peer) =? whole_seconds deleted_at then Err TombstoneMismatch
           else Ok true
       | None => Ok true
       end.

(** ** The coverage check *)

Inductive Carried := CRow (e : ObjEntry) | CDelete (deleted_at : Z).
Definition Carry : Type := list (string * string * Carried).

Fixpoint check_live_shape (order : list string) (live : KeyIndexState) (universe : list string)
    : result InstallRefusal unit :=
  match order with
  | [] => Ok tt
  | name :: order =>
      match buckets live !! name with
      | None => check_live_shape order live universe
      | Some b =>
          _ ← refuse_if (negb (bool_decide (name ∈ universe))) (in_bucket UniverseMismatch name);
          _ ← refuse_if (is_some (rebuild_generation b)) (in_bucket LiveRebuilding name);
          check_live_shape order live universe
      end
  end.

Fixpoint check_universe (universe : list string) (candidate : KeyIndexState) : result InstallRefusal unit :=
  match universe with
  | [] => Ok tt
  | name :: universe =>
      b ← ok_or (buckets candidate !! name) (in_bucket UniverseMismatch name);
      _ ← refuse_if (negb (synced b) || negb (bool_decide (uncertain_keys b = ∅)))
            (in_bucket CandidateUnsynced name);
      check_universe universe candidate
  end.

Fixpoint check_rows (name : string) (incoming : BucketState) (rows : list (string * ObjEntry)) (carry : Carry)
    : result InstallRefusal Carry :=
  match rows with
  | [] => Ok carry
  | (key, e) :: rows =>
      carried ← map_err (λ c, at_ c name key)
                  (row_carried e (Keys.get (keys incoming) key) (Gone.get (gone incoming) key));
      check_rows name incoming rows (if carried : bool then carry ++ [(name, key, CRow e)] else carry)
  end.

Fixpoint check_gone (name : string) (incoming : BucketState) (rows : list (string * Z)) (carry : Carry)
    : result InstallRefusal Carry :=
  match rows with
  | [] => Ok carry
  | (key, deleted_at) :: rows =>
      carried ← map_err (λ c, at_ c name key)
                  (tombstone_carried deleted_at (Keys.get (keys incoming) key) (Gone.get (gone incoming) key));
      check_gone name incoming rows (if carried : bool then carry ++ [(name, key, CDelete deleted_at)] else carry)
  end.

Fixpoint check_buckets (order : list string) (live candidate : KeyIndexState) (max_rows rows : Z) (carry : Carry)
    : result InstallRefusal Carry :=
  match order with
  | [] => Ok carry
  | name :: order =>
      match buckets live !! name with
      | None => check_buckets order live candidate max_rows rows carry
      | Some b =>
          incoming ← ok_or (buckets candidate !! name) (in_bucket UniverseMismatch name);
          rows ← ok_or (n ← checked_add usize_max rows (Keys.len (keys b));
                        n ← checked_add usize_max n (Gone.len (gone b));
                        if n <=? max_rows then Some n else None) (in_bucket RowLimit name);
          carry ← check_rows name incoming (Keys.iter (keys b)) carry;
          carry ← check_gone name incoming (Gone.iter (gone b)) carry;
          check_buckets order live candidate max_rows rows carry
      end
  end.

(** [universe.windows(2).any(|pair| pair[0] >= pair[1])]. *)
Fixpoint unsorted (universe : list string) : bool :=
  match universe with
  | a :: (b :: _) as rest => sleb b a || unsorted rest
  | _ => false
  end.

Section install.
Context {L : Layout} {A : AlignCuts}.

(** [order] is the iteration order of the live bucket table. *)
Definition check_candidate (order : list string) (live candidate : KeyIndexState) (cuts : list NativeCut)
    (universe : list string) (max_rows : Z) : result InstallRefusal Carry :=
  _ ← refuse_if (bool_decide (universe = []) || unsorted universe
                 || negb (bool_decide (base.size (buckets candidate) = length universe)))
        (whole UniverseMismatch);
  _ ← check_live_shape order live universe;
  let '(verdict, deciding) :=
    align_cuts ((λ r, (r.1, r.2.1, r.2.2)) <$> sorted_rows (native_cuts live)) cuts in
  _ ← match verdict with
      | AExact => Ok tt
      | APending => Err (Pending deciding)
      | AConflict => Err (at_writer CutConflict deciding)
      end;
  _ ← check_universe universe candidate;
  check_buckets order live candidate max_rows 0 [].

(** ** The swap *)

Definition is_delete (c : string * string * Carried) : bool :=
  match c.2 with CDelete _ => true | CRow _ => false end.

Definition apply_one (candidate : KeyIndexState) (c : string * string * Carried)
    : result InstallRefusal KeyIndexState :=
  let '(name, key, effect) := c in
  b ← ok_or (buckets candidate !! name) (in_bucket UniverseMismatch name);
  match effect with
  | CDelete deleted_at =>
      let b := with_gone b (Gone.raise (gone b) key deleted_at) in
      let '(previous, ks) := Keys.remove (keys b) key in
      let b := with_keys b ks in
      match previous with
      | Some previous =>
          let '(b, total) := account_replacement b (i_stats candidate) (Stats.for_entry previous) stats_zero in
          Ok (with_stats (with_bucket candidate name b) total)
      | None => Ok (with_bucket candidate name b)
      end
  | CRow e =>
      let '(previous, ks) := Keys.insert (keys b) key e in
      let b := with_keys b ks in
      let '(b, total) := account_replacement b (i_stats candidate)
                           (from_option Stats.for_entry stats_zero previous) (Stats.for_entry e) in
      Ok (with_stats (with_bucket candidate name b) total)
  end.

Fixpoint apply_all (candidate : KeyIndexState) (carry : Carry) : result InstallRefusal KeyIndexState :=
  match carry with
  | [] => Ok candidate
  | c :: carry => candidate ← apply_one candidate c; apply_all candidate carry
  end.

(** Deletes first, then rows. *)
Definition apply_carry (candidate : KeyIndexState) (carry : Carry) : result InstallRefusal KeyIndexState :=
  apply_all candidate (filter (λ c, is_delete c = true) carry ++ filter (λ c, is_delete c = false) carry).

Fixpoint adopt_buckets (universe : list string) (live candidate : KeyIndexState)
    : result InstallRefusal KeyIndexState :=
  match universe with
  | [] => Ok candidate
  | name :: universe =>
      b ← ok_or (buckets candidate !! name) (in_bucket UniverseMismatch name);
      let old := buckets live !! name in
      generation ← ok_or (checked_add u64_max (from_option sync_generation 0 old) 1) unavailable;
      let b := mkBucket (synced b) (keys b) (gone b) generation (rebuild_generation b) (rebuild_touched b)
                 (from_option uncertainty_epoch (uncertainty_epoch b) old)
                 (from_option uncertain_keys (uncertain_keys b) old) (b_stats b) in
      adopt_buckets universe live (with_bucket candidate name b)
  end.

Definition fleet_install_check (order : list string) (live candidate : KeyIndexState) (cuts : list NativeCut)
    (universe : list string) (max_rows : Z) : result InstallRefusal unit :=
  _ ← check_candidate order live candidate cuts universe max_rows; Ok tt.

(** The result, the stage left over, the live index, and the capture that was
    attached to the replaced index, withdrawn. *)
Definition install_fleet_candidate (order : list string) (live : KeyIndexState) (stage : option KeyIndexState)
    (cuts : list NativeCut) (universe : list string) (max_rows : Z)
    : result InstallRefusal (option IndexCapture) * option KeyIndexState * KeyIndexState :=
  match stage with
  | None => (Err unavailable, stage, live)
  | Some candidate =>
      match check_candidate order live candidate cuts universe max_rows with
      | Err e => (Err e, stage, live)
      | Ok carry =>
          match (c ← adopt_buckets universe live candidate; apply_carry c carry) with
          | Err e => (Err e, None, live)
          | Ok candidate =>
              (Ok ((λ c, Capture.invalidate c IRebuild) <$> capture live), None,
               mkIndex (buckets candidate) (i_stats candidate) (capture candidate) (native_cuts live))
          end
      end
  end.
End install.
