(* ===== verification/InstallProps.v ===== *)
(** * Correctness of the guarded install

    What an install does to every key, that it keeps every live effect, fence
    and cut, and the one case in which it does not. *)

From S2P Require Import Prelude.
From S2P Require Import ObjTypes.
From S2P Require Import ImageCodec.
From S2P Require Import CodecProps.
From S2P Require Import Rows.
From S2P Require Import IndexCapture.
From S2P Require Import KeyIndex.
From S2P Require Import IndexWf.
From S2P Require Import IndexSteps.
From S2P Require Import IndexInv.
From S2P Require Import Install.

(** ** What the check found *)

Section check.
Context {L : Layout}.
Implicit Types (b inc : BucketState) (carry : Carry).

Definition row_verdict inc k e : result Clause bool :=
  row_carried e (kr_map (keys inc) !! k) (gr_map (gone inc) !! k).
Definition tomb_verdict inc k d : result Clause bool :=
  tombstone_carried d (kr_map (keys inc) !! k) (gr_map (gone inc) !! k).

Lemma check_rows_Ok name inc rows carry out :
  check_rows name inc rows carry = Ok out →
  Forall (λ r, ∃ v, row_verdict inc r.1 r.2 = Ok v) rows ∧
  ∀ x, x ∈ out ↔ x ∈ carry ∨ ∃ k e, (k, e) ∈ rows ∧ x = (name, k, CRow e) ∧ row_verdict inc k e = Ok true.
Proof.
  revert carry. induction rows as [|[k e] rows IH]; intros carry H; cbn [check_rows] in H.
  { injection H as <-. split; [constructor|]. intros x. split; [auto|]. intros [?|(k & e & Hin & _)]; [done|].
    by apply elem_of_nil in Hin. }
  apply bind_ok in H as (v & Hv & H). apply map_err_ok in Hv. change (row_verdict inc k e = Ok v) in Hv.
  apply IH in H as [Hall Hin]. split; [constructor; eauto|]. intros x. rewrite Hin. setoid_rewrite elem_of_cons.
  destruct v.
  - rewrite elem_of_app, list_elem_of_singleton. split; [|naive_solver].
    intros [[?| ->]|(k' & e' & ? & ?)]; [auto|right; eauto 10|right; eauto 10].
  - split; [naive_solver|]. intros [?|(k' & e' & [Heq|?] & -> & Hv')]; [auto| |right; eauto 10].
    simplify_eq/=. congruence.
Qed.

Lemma check_gone_Ok name inc rows carry out :
  check_gone name inc rows carry = Ok out →
  Forall (λ r, ∃ v, tomb_verdict inc r.1 r.2 = Ok v) rows ∧
  ∀ x, x ∈ out ↔ x ∈ carry ∨ ∃ k d, (k, d) ∈ rows ∧ x = (name, k, CDelete d) ∧ tomb_verdict inc k d = Ok true.
Proof.
  revert carry. induction rows as [|[k d] rows IH]; intros carry H; cbn [check_gone] in H.
  { injection H as <-. split; [constructor|]. intros x. split; [auto|]. intros [?|(k & d & Hin & _)]; [done|].
    by apply elem_of_nil in Hin. }
  apply bind_ok in H as (v & Hv & H). apply map_err_ok in Hv. change (tomb_verdict inc k d = Ok v) in Hv.
  apply IH in H as [Hall Hin]. split; [constructor; eauto|]. intros x. rewrite Hin. setoid_rewrite elem_of_cons.
  destruct v.
  - rewrite elem_of_app, list_elem_of_singleton. split; [|naive_solver].
    intros [[?| ->]|(k' & e' & ? & ?)]; [auto|right; eauto 10|right; eauto 10].
  - split; [naive_solver|]. intros [?|(k' & e' & [Heq|?] & -> & Hv')]; [auto| |right; eauto 10].
    simplify_eq/=. congruence.
Qed.

(** [x] is a live effect of bucket [name] the swap must carry. *)
Definition carried (live candidate : KeyIndexState) (name : string) (x : string * string * Carried) : Prop :=
  ∃ b inc, buckets live !! name = Some b ∧ buckets candidate !! name = Some inc ∧
    ((∃ k e, kr_map (keys b) !! k = Some e ∧ x = (name, k, CRow e) ∧ row_verdict inc k e = Ok true) ∨
     (∃ k d, gr_map (gone b) !! k = Some d ∧ x = (name, k, CDelete d) ∧ tomb_verdict inc k d = Ok true)).

(** Every effect of a live bucket is ordered against the candidate. *)
Definition ordered (live candidate : KeyIndexState) (name : string) : Prop :=
  ∀ b, buckets live !! name = Some b → ∃ inc, buckets candidate !! name = Some inc ∧
    (∀ k e, kr_map (keys b) !! k = Some e → ∃ v, row_verdict inc k e = Ok v) ∧
    (∀ k d, gr_map (gone b) !! k = Some d → ∃ v, tomb_verdict inc k d = Ok v).

Lemma check_buckets_Ok order live candidate max rows carry out :
  check_buckets order live candidate max rows carry = Ok out →
  (∀ name, name ∈ order → ordered live candidate name) ∧
  ∀ x, x ∈ out ↔ x ∈ carry ∨ ∃ name, name ∈ order ∧ carried live candidate name x.
Proof.
  revert rows carry. induction order as [|name order IH]; intros rows carry H; cbn [check_buckets] in H.
  { injection H as <-. split; [by intros ? ?%elem_of_nil|]. intros x. split; [auto|].
    intros [?|(n & Hin & _)]; [done|by apply elem_of_nil in Hin]. }
  destruct (buckets live !! name) as [b|] eqn:Eb.
  - apply bind_ok in H as (inc & Hi & H). apply ok_or_ok in Hi. apply bind_ok in H as (n & _ & H).
    apply bind_ok in H as (c1 & H1 & H). apply bind_ok in H as (c2 & H2 & H).
    apply check_rows_Ok in H1 as [A1 M1]. apply check_gone_Ok in H2 as [A2 M2]. apply IH in H as [Ho Hm].
    rewrite Forall_forall in A1. rewrite Forall_forall in A2. split.
    + intros name' [->|Hin]%elem_of_cons; [|by apply Ho]. intros b' Hb'. rewrite Eb in Hb'. injection Hb' as <-.
      exists inc. split_and!; [done| |].
      * intros k e Hk. apply (A1 (k, e)). by apply elem_of_sorted_rows.
      * intros k d Hk. apply (A2 (k, d)). by apply elem_of_sorted_rows.
    + intros x. rewrite Hm, M2, M1. setoid_rewrite elem_of_cons. unfold carried at 2. split.
      * intros [[[?|(k & e & Hk%elem_of_sorted_rows & Hx & Hv)]|(k & d & Hk%elem_of_sorted_rows & Hx & Hv)]|(n' & Hin & Hc)].
        -- auto.
        -- right. exists name. split; [auto|]. exists b, inc. split_and!; [done..|]. left. eauto.
        -- right. exists name. split; [auto|]. exists b, inc. split_and!; [done..|]. right. eauto.
        -- right. exists n'. split; [auto|]. exact Hc.
      * intros [?|(n' & [->|Hin] & Hc)]; [auto| |right; eauto].
        destruct Hc as (b' & inc' & Hb' & Hi' & Hc). simplify_eq. left.
        destruct Hc as [(k & e & Hk%elem_of_sorted_rows & Hx & Hv)|(k & d & Hk%elem_of_sorted_rows & Hx & Hv)]; eauto 10.
  - apply IH in H as [Ho Hm]. split.
    + intros name' [->|Hin]%elem_of_cons; [|by apply Ho]. intros b' Hb'. congruence.
    + intros x. rewrite Hm. setoid_rewrite elem_of_cons. split; [naive_solver|].
      intros [?|(n' & [->|Hin] & Hc)]; [auto| |right; eauto]. destruct Hc as (b' & inc' & Hb' & _). congruence.
Qed.
End check.

#[global] Instance clause_bool_dec : EqDecision (result Clause bool).
Proof. solve_decision. Defined.

(** ** What the swap does to a key *)

Section apply.
Context {L : Layout}.
Implicit Types (b : BucketState) (c : KeyIndexState).

Definition effect_bucket b key (eff : Carried) : BucketState :=
  match eff with
  | CDelete d => row_removed (with_gone b (Gone.raise (gone b) key d)) key
  | CRow e => inserted b key e
  end.

Definition effect_stats b key (eff : Carried) (total : IndexStats) : IndexStats :=
  match eff with
  | CDelete _ => match kr_map (keys b) !! key with
                 | Some p => Stats.replace total (Stats.for_entry p) stats_zero
                 | None => total
                 end
  | CRow e => Stats.replace total (row_stats (kr_map (keys b) !! key)) (Stats.for_entry e)
  end.

Lemma apply_one_Ok c name key eff c' :
  apply_one c (name, key, eff) = Ok c' ↔
  ∃ b, buckets c !! name = Some b ∧
    c' = mkIndex (<[name := effect_bucket b key eff]> (buckets c)) (effect_stats b key eff (i_stats c))
           (capture c) (native_cuts c).
Proof.
  unfold apply_one. destruct (buckets c !! name) as [b|] eqn:Eb; cbn [ok_or mbind result_bind]; [|naive_solver].
  match goal with |- ?m = _ ↔ _ => assert (m = Ok (mkIndex (<[name := effect_bucket b key eff]> (buckets c))
    (effect_stats b key eff (i_stats c)) (capture c) (native_cuts c))) as -> end; [|naive_solver].
  destruct eff as [e|d]; cbn [effect_bucket effect_stats].
  - pose proof (insert_prev (keys b) key e) as Hp. unfold inserted, insert_accounted.
    destruct (Keys.insert (keys b) key e) as [p ks]. cbn [fst] in Hp. subst p. by destruct (kr_map (keys b) !! key).
  - unfold row_removed. cbn [with_gone keys b_stats]. unfold Keys.remove.
    by destruct (kr_map (keys b) !! key) as [p|] eqn:Ep.
Qed.

(** The row and the tombstone of one key. *)
Definition key_state (o : option BucketState) (k : string) : option ObjEntry * option Z :=
  match o with
  | Some b => (kr_map (keys b) !! k, gr_map (gone b) !! k)
  | None => (None, None)
  end.

Definition raised (d : Z) (o : option Z) : Z := match o with Some x => Z.max x d | None => d end.

Definition key_effect (eff : Carried) (st : option ObjEntry * option Z) : option ObjEntry * option Z :=
  match eff with
  | CDelete d => (None, Some (raised d st.2))
  | CRow e => (Some e, st.2)
  end.

Lemma effect_bucket_key b key eff k :
  key_state (Some (effect_bucket b key eff)) k =
  if decide (k = key) then key_effect eff (key_state (Some b) k) else key_state (Some b) k.
Proof.
  unfold key_state. destruct eff as [e|d]; cbn [effect_bucket key_effect].
  - rewrite inserted_map. destruct (inserted_rest b key e) as (-> & _).
    destruct (decide (k = key)) as [->|]; [by rewrite lookup_insert_eq|by rewrite lookup_insert_ne].
  - rewrite row_removed_map. destruct (row_removed_rest (with_gone b (Gone.raise (gone b) key d)) key) as (-> & _).
    cbn [with_gone keys gone]. rewrite raise_map. destruct (decide (k = key)) as [->|].
    + rewrite lookup_delete_eq, lookup_insert_eq. cbn. by destruct (gr_map (gone b) !! key).
    + by rewrite lookup_delete_ne, lookup_insert_ne.
Qed.

(** The bucket fields an effect leaves alone. *)
Definition same_frame b b' : Prop :=
  synced b' = synced b ∧ sync_generation b' = sync_generation b ∧ rebuild_generation b' = rebuild_generation b ∧
  rebuild_touched b' = rebuild_touched b ∧ uncertainty_epoch b' = uncertainty_epoch b ∧
  uncertain_keys b' = uncertain_keys b.

Lemma effect_bucket_frame b key eff : same_frame b (effect_bucket b key eff).
Proof.
  destruct eff as [e|d]; cbn [effect_bucket].
  - destruct (inserted_rest b key e) as (_ & ? & ? & ? & ? & ? & ?). by split_and!.
  - destruct (row_removed_rest (with_gone b (Gone.raise (gone b) key d)) key) as (_ & ? & ? & ? & ? & ? & ?).
    by split_and!.
Qed.

(** The effects of [l] on one key, in order. *)
Definition run_key (l : Carry) (name k : string) (st : option ObjEntry * option Z) : option ObjEntry * option Z :=
  foldl (λ st x, if decide (x.1.1 = name ∧ x.1.2 = k) then key_effect x.2 st else st) st l.

Lemma apply_all_key l : ∀ c c' name b,
  apply_all c l = Ok c' → buckets c !! name = Some b →
  ∃ b', buckets c' !! name = Some b' ∧ same_frame b b' ∧
    ∀ k, key_state (Some b') k = run_key l name k (key_state (Some b) k).
Proof.
  induction l as [|[[n key] eff] l IH]; intros c c' name b H Hb; cbn [apply_all] in H.
  { injection H as <-. exists b. by split_and!. }
  apply bind_ok in H as (c1 & H1 & H). apply apply_one_Ok in H1 as (bn & Hbn & ->).
  destruct (decide (n = name)) as [->|Hne].
  - assert (bn = b) as -> by congruence. eapply IH in H as (b' & Hb' & Hf & Hk); [|apply lookup_insert_eq].
    exists b'. split; [done|]. split.
    + destruct (effect_bucket_frame b key eff) as (? & ? & ? & ? & ? & ?), Hf as (? & ? & ? & ? & ? & ?).
      split_and!; congruence.
    + intros k. rewrite Hk, effect_bucket_key. unfold run_key. cbn [foldl fst snd].
      destruct (decide (k = key)) as [->|]; [by rewrite (decide_True (P := name = name ∧ key = key)) by done|].
      by rewrite (decide_False (P := name = name ∧ key = k)) by naive_solver.
  - eapply IH in H as (b' & Hb' & Hf & Hk); [|cbn [buckets]; by rewrite lookup_insert_ne].
    exists b'. split_and!; try done. intros k. rewrite Hk. unfold run_key. cbn [foldl fst snd].
    by rewrite decide_False by naive_solver.
Qed.

Lemma apply_all_dom l : ∀ c c', apply_all c l = Ok c' →
  dom (buckets c') = dom (buckets c) ∧ native_cuts c' = native_cuts c ∧ capture c' = capture c.
Proof.
  induction l as [|[[n key] eff] l IH]; intros c c' H; cbn [apply_all] in H; [by injection H as <-|].
  apply bind_ok in H as (c1 & H1 & H). apply apply_one_Ok in H1 as (bn & Hbn & ->).
  apply IH in H as (-> & -> & ->). cbn. split_and!; try done. rewrite dom_insert_L.
  apply elem_of_dom_2 in Hbn. set_solver.
Qed.

Lemma run_key_app l1 l2 name k st : run_key (l1 ++ l2) name k st = run_key l2 name k (run_key l1 name k st).
Proof. apply foldl_app. Qed.

Lemma run_key_none l name k st :
  (∀ x, x ∈ l → ¬ (x.1.1 = name ∧ x.1.2 = k)) → run_key l name k st = st.
Proof.
  induction l as [|x l IH]; intros H; [done|]. unfold run_key in *. cbn [foldl].
  rewrite decide_False by (apply H; set_solver). apply IH. intros y Hy. apply H. set_solver.
Qed.

Lemma key_effect_idem eff st : key_effect eff (key_effect eff st) = key_effect eff st.
Proof. destruct eff as [e|d]; [done|]. cbn. unfold raised. do 2 f_equal. destruct st.2; lia. Qed.

Lemma run_key_again l name k eff st :
  (∀ eff', (name, k, eff') ∈ l → eff' = eff) → run_key l name k (key_effect eff st) = key_effect eff st.
Proof.
  induction l as [|[[n k'] eff'] l IH]; intros Hall; [done|]. unfold run_key in *. cbn [foldl fst snd].
  destruct (decide (n = name ∧ k' = k)) as [[-> ->]|Hne]; [|apply IH; intros; apply Hall; set_solver].
  assert (eff' = eff) as -> by (apply Hall; set_solver). rewrite key_effect_idem. apply IH. intros; apply Hall; set_solver.
Qed.

Lemma run_key_same l name k eff st :
  (∀ eff', (name, k, eff') ∈ l → eff' = eff) → (name, k, eff) ∈ l → run_key l name k st = key_effect eff st.
Proof.
  revert st. induction l as [|[[n k'] eff'] l IH]; intros st Hall Hin; [by apply elem_of_nil in Hin|].
  unfold run_key in *. cbn [foldl fst snd]. destruct (decide (n = name ∧ k' = k)) as [[-> ->]|Hne].
  - assert (eff' = eff) as -> by (apply Hall; set_solver). apply run_key_again. intros; apply Hall; set_solver.
  - apply elem_of_cons in Hin as [[= -> -> ->]|Hin]; [naive_solver|]. apply IH; [|done]. intros; apply Hall; set_solver.
Qed.

(** What is carried of one live key. *)
Definition carried_row (b inc : BucketState) (k : string) : option ObjEntry :=
  e ← kr_map (keys b) !! k; if decide (row_verdict inc k e = Ok true) then Some e else None.
Definition carried_delete (b inc : BucketState) (k : string) : option Z :=
  d ← gr_map (gone b) !! k; if decide (tomb_verdict inc k d = Ok true) then Some d else None.

(** The key after the swap: the candidate's, under the carried delete, under
    the carried row. *)
Definition installed_key (b inc : BucketState) (k : string) : option ObjEntry * option Z :=
  let st := key_state (Some inc) k in
  let st := from_option (λ d, key_effect (CDelete d) st) st (carried_delete b inc k) in
  from_option (λ e, key_effect (CRow e) st) st (carried_row b inc k).

Lemma carry_run live candidate (order : list string) carry name b inc k :
  (∀ x, x ∈ carry ↔ ∃ name, name ∈ order ∧ carried live candidate name x) →
  name ∈ order → buckets live !! name = Some b → buckets candidate !! name = Some inc →
  run_key (filter (λ x, is_delete x = true) carry ++ filter (λ x, is_delete x = false) carry) name k
    (key_state (Some inc) k) = installed_key b inc k.
Proof.
  intros Hm Hn Hb Hi. rewrite run_key_app. unfold installed_key.
  assert (∀ eff, (name, k, eff) ∈ carry → match eff with
    | CRow e => carried_row b inc k = Some e | CDelete d => carried_delete b inc k = Some d end) as Hin.
  { intros eff (n & _ & b' & inc' & Hb' & Hi' & H)%Hm.
    assert (n = name) as -> by (destruct H as [(?&?&_&[= -> _ _]&_)|(?&?&_&[= -> _ _]&_)]; done). simplify_eq.
    destruct H as [(k' & e & Hk & [= <- ->] & Hv)|(k' & d & Hk & [= <- ->] & Hv)].
    - unfold carried_row. rewrite Hk. cbn. by rewrite decide_True.
    - unfold carried_delete. rewrite Hk. cbn. by rewrite decide_True. }
  set (st0 := key_state (Some inc) k).
  assert (run_key (filter (λ x, is_delete x = true) carry) name k st0 =
    from_option (λ d, key_effect (CDelete d) st0) st0 (carried_delete b inc k)) as ->.
  { destruct (carried_delete b inc k) as [d|] eqn:Ed; cbn [from_option].
    - apply run_key_same.
      + intros eff' [Hd Hx]%list_elem_of_filter. apply Hin in Hx. destruct eff'; [done|]. congruence.
      + apply list_elem_of_filter. split; [done|]. apply Hm. exists name. split; [done|]. exists b, inc. split_and!; [done..|].
        right. unfold carried_delete in Ed. apply bind_Some in Ed as (d' & Hd & Ed). case_decide; [|done].
        injection Ed as <-. eauto.
    - apply run_key_none. intros [[n k'] eff'] [Hd Hx]%list_elem_of_filter [H1 H2]. cbn in H1, H2. subst.
      apply Hin in Hx. destruct eff'; [done|]. congruence. }
  set (st1 := from_option _ st0 _).
  destruct (carried_row b inc k) as [e|] eqn:Er; cbn [from_option].
  - apply run_key_same.
    + intros eff' [Hd Hx]%list_elem_of_filter. apply Hin in Hx. destruct eff'; [congruence|done].
    + apply list_elem_of_filter. split; [done|]. apply Hm. exists name. split; [done|]. exists b, inc. split_and!; [done..|].
      left. unfold carried_row in Er. apply bind_Some in Er as (e' & He & Er). case_decide; [|done].
      injection Er as <-. eauto.
  - apply run_key_none. intros [[n k'] eff'] [Hd Hx]%list_elem_of_filter [H1 H2]. cbn in H1, H2. subst.
    apply Hin in Hx. destruct eff'; [congruence|done].
Qed.

(** ** Adoption *)

Definition adopted (old : option BucketState) (b : BucketState) : BucketState :=
  mkBucket (synced b) (keys b) (gone b) (from_option sync_generation 0 old + 1) (rebuild_generation b) (rebuild_touched b)
    (from_option uncertainty_epoch (uncertainty_epoch b) old)
    (from_option uncertain_keys (uncertain_keys b) old) (b_stats b).

Lemma adopted_idem old b : adopted old (adopted old b) = adopted old b.
Proof. by destruct old. Qed.

Lemma adopt_buckets_Ok universe live : ∀ c c',
  adopt_buckets universe live c = Ok c' →
  i_stats c' = i_stats c ∧ capture c' = capture c ∧ native_cuts c' = native_cuts c ∧
  (∀ name, name ∈ universe → is_Some (buckets c !! name) ∧
     from_option sync_generation 0 (buckets live !! name) + 1 <= u64_max) ∧
  ∀ name, buckets c' !! name =
    (λ b, if decide (name ∈ universe) then adopted (buckets live !! name) b else b) <$> buckets c !! name.
Proof.
  induction universe as [|n universe IH]; intros c c' H; cbn [adopt_buckets] in H.
  { injection H as <-. split_and!; try done; [by intros ? ?%elem_of_nil|]. intros name.
    by destruct (buckets c !! name). }
  apply bind_ok in H as (b & Hb & H). apply ok_or_ok in Hb. apply bind_ok in H as (g & Hg & H).
  apply ok_or_ok, checked_add_Some in Hg as [-> Hg]. fold (adopted (buckets live !! n) b) in H.
  apply IH in H as (H1 & H2 & H3 & H4 & H5). split_and!; [done..| |].
  - intros name [->|Hin]%elem_of_cons; [by split; [eexists|]|]. destruct (H4 name Hin) as [Hs Hle]. split; [|done].
    cbn [with_bucket buckets] in Hs. destruct (decide (n = name)) as [->|]; [by eexists|]. by rewrite lookup_insert_ne in Hs.
  - intros name. rewrite H5. cbn [with_bucket buckets]. destruct (decide (n = name)) as [->|Hne].
    + rewrite lookup_insert_eq, Hb. cbn. rewrite (decide_True (P := name ∈ name :: universe)) by set_solver.
      case_decide; [by rewrite adopted_idem|done].
    + rewrite lookup_insert_ne by done. destruct (buckets c !! name); [|done]. cbn. f_equal.
      destruct (decide (name ∈ universe)) as [Hin|Hin].
      * by rewrite decide_True by set_solver.
      * by rewrite decide_False by set_solver.
Qed.
End apply.

(** ** The install *)

Section install_props.
Context {L : Layout} {A : AlignCuts}.
Implicit Types (live : KeyIndexState) (order universe : list string).

(** [order] visits every live bucket. *)
Definition visits order live : Prop := ∀ name, name ∈ order ↔ is_Some (buckets live !! name).

Lemma check_candidate_Ok order live candidate cuts universe max_rows carry :
  check_candidate order live candidate cuts universe max_rows = Ok carry →
  (align_cuts ((λ r, (r.1, r.2.1, r.2.2)) <$> sorted_rows (native_cuts live)) cuts).1 = AExact ∧
  unsorted universe = false ∧ base.size (buckets candidate) = length universe ∧
  (∀ name b, name ∈ order → buckets live !! name = Some b → name ∈ universe ∧ rebuild_generation b = None) ∧
  (∀ name, name ∈ universe → ∃ inc, buckets candidate !! name = Some inc ∧ synced inc = true ∧ uncertain_keys inc = ∅) ∧
  (∀ name, name ∈ order → ordered live candidate name) ∧
  ∀ x, x ∈ carry ↔ ∃ name, name ∈ order ∧ carried live candidate name x.
Proof.
  unfold check_candidate. intros H. apply bind_ok in H as ([] & H0 & H). apply refuse_if_ok in H0. bool_prop.
  apply bind_ok in H as ([] & Hs & H). destruct (align_cuts _ _) as [v d] eqn:Ev.
  apply bind_ok in H as ([] & Hv & H). destruct v; try done. apply bind_ok in H as ([] & Hu & H).
  apply check_buckets_Ok in H as [Ho Hm]. split_and!; try done.
  - clear -Hs. induction order as [|n order IH]; [by intros ?? ?%elem_of_nil|]. cbn [check_live_shape] in Hs.
    intros name b [->|Hin]%elem_of_cons Hb.
    + rewrite Hb in Hs. apply bind_ok in Hs as ([] & H1 & Hs). apply bind_ok in Hs as ([] & H2 & _).
      apply refuse_if_ok in H1, H2. bool_prop. split; [done|]. by destruct (rebuild_generation b).
    + apply IH; [|done|done]. destruct (buckets live !! n); [|done]. apply bind_ok in Hs as ([] & _ & Hs).
      by apply bind_ok in Hs as ([] & _ & Hs).
  - clear -Hu. induction universe as [|n universe IH]; [by intros ? ?%elem_of_nil|]. cbn [check_universe] in Hu.
    apply bind_ok in Hu as (b & Hb & Hu). apply ok_or_ok in Hb. apply bind_ok in Hu as ([] & Hc & Hu).
    apply refuse_if_ok in Hc. bool_prop. intros name [->|Hin]%elem_of_cons; [eauto|by apply IH].
  - intros x. rewrite Hm. split; [|auto]. by intros [?%elem_of_nil|?].
Qed.

(** What an install that succeeds leaves behind. *)
Record installed live candidate universe live' : Prop := {
  is_universe : ∀ name, is_Some (buckets live' !! name) ↔ is_Some (buckets candidate !! name);
  is_cuts : native_cuts live' = native_cuts live;
  is_capture : capture live' = capture candidate;
  is_known : ∀ name b, buckets live !! name = Some b → ∃ inc b',
    buckets candidate !! name = Some inc ∧ buckets live' !! name = Some b' ∧ ordered live candidate name ∧
    (∀ k, key_state (Some b') k = installed_key b inc k) ∧
    synced b' = true ∧ rebuild_generation b' = rebuild_generation inc ∧ sync_generation b' = sync_generation b + 1 ∧
    uncertainty_epoch b' = uncertainty_epoch b ∧ uncertain_keys b' = uncertain_keys b;
  is_new : ∀ name inc, name ∈ universe → buckets live !! name = None → buckets candidate !! name = Some inc → ∃ b',
    buckets live' !! name = Some b' ∧ (∀ k, key_state (Some b') k = key_state (Some inc) k) ∧
    synced b' = true ∧ sync_generation b' = 1 ∧ uncertain_keys b' = ∅;
}.

Lemma install_Ok order live stage cuts universe max_rows w stage' live' :
  visits order live →
  install_fleet_candidate order live stage cuts universe max_rows = (Ok w, stage', live') →
  ∃ candidate carry, stage = Some candidate ∧ stage' = None ∧
    check_candidate order live candidate cuts universe max_rows = Ok carry ∧
    w = (λ c, Capture.invalidate c IRebuild) <$> capture live ∧ installed live candidate universe live'.
Proof.
  intros Hv H. unfold install_fleet_candidate in H. destruct stage as [candidate|]; [|done].
  destruct (check_candidate order live candidate cuts universe max_rows) as [carry|] eqn:Ec; [|done].
  destruct (adopt_buckets universe live candidate) as [c1|] eqn:Ea; [|done]. cbn [mbind result_bind] in H.
  destruct (apply_carry c1 carry) as [c2|] eqn:Ep; [|done]. injection H as <- <- <-.
  exists candidate, carry. split_and!; try done.
  apply check_candidate_Ok in Ec as (_ & _ & _ & Hlive & Huni & Hord & Hm).
  apply adopt_buckets_Ok in Ea as (Hs1 & Hcap1 & Hcut1 & Hdef1 & Hb1).
  unfold apply_carry in Ep. pose proof (apply_all_dom _ _ _ Ep) as (Hdom & _ & Hcap2).
  split; cbn [buckets native_cuts capture].
  - intros name. rewrite <- !elem_of_dom, Hdom, !elem_of_dom, Hb1, fmap_is_Some. done.
  - done.
  - congruence.
  - intros name b Hb. assert (name ∈ order) as Hin by (apply Hv; eauto).
    destruct (Hlive name b Hin Hb) as [Hu Hr]. destruct (Huni name Hu) as (inc & Hi & Hsy & Hun).
    assert (buckets c1 !! name = Some (adopted (Some b) inc)) as H1.
    { rewrite Hb1, Hi, Hb. cbn. by rewrite decide_True. }
    destruct (apply_all_key _ _ _ _ _ Ep H1) as (b' & Hb' & Hf & Hk). exists inc, b'.
    destruct Hf as (F1 & F2 & F3 & F4 & F5 & F6). cbn in F1, F2, F3, F5, F6.
    split_and!; try done; [by apply Hord| |congruence..]. intros k. rewrite Hk.
    change (key_state (Some (adopted (Some b) inc)) k) with (key_state (Some inc) k).
    by eapply carry_run.
  - intros name inc Hu Hn Hi. destruct (Huni name Hu) as (inc' & Hi' & Hsy & Hun). simplify_eq.
    assert (buckets c1 !! name = Some (adopted None inc)) as H1.
    { rewrite Hb1, Hi, Hn. cbn. by rewrite decide_True. }
    destruct (apply_all_key _ _ _ _ _ Ep H1) as (b' & Hb' & Hf & Hk). exists b'.
    destruct Hf as (F1 & F2 & F3 & F4 & F5 & F6). cbn in F1, F2, F3, F5, F6.
    split_and!; try done; [|congruence..]. intros k. rewrite Hk. apply run_key_none.
    intros [[n k'] eff] Hx [H2 H3]. cbn in H2, H3. subst. assert ((name, k, eff) ∈ carry) as Hx'.
    { apply elem_of_app in Hx as [Hx|Hx]; by apply list_elem_of_filter in Hx as [_ ?]. }
    apply Hm in Hx' as (n & _ & b0 & inc0 & Hb0 & _ & Hc).
    destruct Hc as [(?&?&_&[= -> _ _]&_)|(?&?&_&[= -> _ _]&_)]; congruence.
Qed.

(** ** Covered effects *)

Lemma whole_seconds_mono a b : a <= b → whole_seconds a <= whole_seconds b.
Proof.
  unfold whole_seconds, UNIX_EPOCH, nanos_per_sec. intros H.
  destruct (Z.ltb_spec a 0), (Z.ltb_spec b 0); try lia; [apply Z.div_pos; lia|apply Z.div_le_mono; lia].
Qed.

Lemma whole_seconds_lt a b : whole_seconds a < whole_seconds b → a < b.
Proof. intros H. destruct (Z.lt_ge_cases a b) as [?|H']; [done|]. apply whole_seconds_mono in H'. lia. Qed.

Lemma version_difference_refl e : version_difference e e = None.
Proof.
  unfold version_difference. rewrite !bool_decide_true by done. cbn. by rewrite Z.eqb_refl, andb_false_r.
Qed.

(** [st] shows the version of [e], or an effect of a later second. *)
Definition row_kept (e : ObjEntry) (st : option ObjEntry * option Z) : Prop :=
  (∃ e', st.1 = Some e' ∧
     (version_difference e e' = None ∨ whole_seconds (last_modified e) < whole_seconds (last_modified e'))) ∨
  (∃ d, st.2 = Some d ∧ whole_seconds (last_modified e) < whole_seconds d).

(** [st] still holds the deletion [d], or a row written after it. *)
Definition delete_kept (d : Z) (st : option ObjEntry * option Z) : Prop :=
  (∃ d', st.2 = Some d' ∧ d <= d') ∨ (∃ e, st.1 = Some e ∧ d < last_modified e).

Lemma row_carried_false e peer q :
  row_carried e peer q = Ok false →
  (∃ p, peer = Some p ∧
     (version_difference e p = None ∨ whole_seconds (last_modified e) < whole_seconds (last_modified p))) ∨
  (∃ d, q = Some d ∧ whole_seconds (last_modified e) < whole_seconds d).
Proof.
  unfold row_carried. destruct peer as [p|], q as [d|]; cbn [fmap option_fmap option_map is_some_and].
  - destruct (version_difference e p) eqn:Ev; [|intros _; left; eauto].
    destruct (Z.ltb_spec (whole_seconds (last_modified e)) (whole_seconds d)); [right; eauto|].
    destruct (Z.ltb_spec (whole_seconds (last_modified e)) (whole_seconds (last_modified p))); [left; eauto|].
    cbn. repeat case_match; done.
  - destruct (version_difference e p) eqn:Ev; [|intros _; left; eauto].
    destruct (Z.ltb_spec (whole_seconds (last_modified e)) (whole_seconds (last_modified p))); [left; eauto|].
    cbn. repeat case_match; done.
  - destruct (Z.ltb_spec (whole_seconds (last_modified e)) (whole_seconds d)); [right; eauto|].
    cbn. repeat case_match; done.
  - done.
Qed.

Lemma row_carried_true e peer q :
  row_carried e peer q = Ok true →
  (∀ p, peer = Some p → whole_seconds (last_modified p) < whole_seconds (last_modified e)) ∧
  (∀ d, q = Some d → d < last_modified e).
Proof.
  unfold row_carried. destruct peer as [p|], q as [d|]; cbn [fmap option_fmap option_map is_some_and].
  - destruct (version_difference e p) eqn:Ev; [|done].
    destruct (_ || _) eqn:Eo; [done|]. bool_prop. destruct (Z.leb_spec (last_modified e) d); [done|].
    destruct (Z.eqb_spec (whole_seconds (last_modified p)) (whole_seconds (last_modified e))); [done|].
    intros _. split; intros ? [= <-]; lia.
  - destruct (version_difference e p) eqn:Ev; [|done]. cbn [orb].
    destruct (_ <? _) eqn:Eo; [done|]. bool_prop.
    destruct (Z.eqb_spec (whole_seconds (last_modified p)) (whole_seconds (last_modified e))); [done|].
    intros _. split; intros ? [= <-]; lia.
  - destruct (_ || _) eqn:Eo; [done|]. bool_prop. destruct (Z.leb_spec (last_modified e) d); [done|].
    intros _. split; intros ? [=]; subst; lia.
  - intros _. by split.
Qed.

Lemma tombstone_carried_true d peer q :
  tombstone_carried d peer q = Ok true →
  (∀ p, peer = Some p → whole_seconds (last_modified p) < whole_seconds d) ∧ (∀ d', q = Some d' → d' < d).
Proof.
  unfold tombstone_carried. intros H. destruct (is_some_and _ q) eqn:Eq; [done|]. split.
  - intros p ->. destruct (Z.ltb_spec d (last_modified p)) as [|Hle]; [done|].
    destruct (Z.eqb_spec (whole_seconds (last_modified p)) (whole_seconds d)); [done|].
    apply whole_seconds_mono in Hle. lia.
  - intros d' ->. cbn in Eq. lia.
Qed.

Lemma tombstone_carried_false d peer q :
  tombstone_carried d peer q = Ok false →
  (∃ d', q = Some d' ∧ d <= d') ∨ (∃ p, peer = Some p ∧ d < last_modified p).
Proof.
  unfold tombstone_carried. destruct q as [d'|]; cbn [is_some_and].
  - destruct (Z.leb_spec d d'); [eauto|]. destruct peer as [p|]; [|done].
    destruct (Z.ltb_spec d (last_modified p)); [eauto|]. by case_match.
  - destruct peer as [p|]; [|done]. destruct (Z.ltb_spec d (last_modified p)); [eauto|]. by case_match.
Qed.

Section one_key.
Context (b inc : BucketState) (k : string).
Hypothesis Hwf : bucket_wf b.
Hypothesis Hinc : bucket_wf inc.
Hypothesis Hrow : ∀ e, kr_map (keys b) !! k = Some e → ∃ v, row_verdict inc k e = Ok v.
Hypothesis Hdel : ∀ d, gr_map (gone b) !! k = Some d → ∃ v, tomb_verdict inc k d = Ok v.

(** The four outcomes of a key. *)
Lemma carried_row_cases :
  (∃ e, kr_map (keys b) !! k = Some e ∧ carried_row b inc k = Some e ∧ row_verdict inc k e = Ok true) ∨
  (carried_row b inc k = None ∧ ∀ e, kr_map (keys b) !! k = Some e → row_verdict inc k e = Ok false).
Proof.
  unfold carried_row. destruct (kr_map (keys b) !! k) as [e|] eqn:He; cbn; [|by right].
  destruct (Hrow e eq_refl) as [[] Hv].
  - left. exists e. by rewrite decide_True.
  - right. rewrite decide_False by congruence. split; [done|]. intros ? [= <-]. done.
Qed.

Lemma carried_delete_cases :
  (∃ d, gr_map (gone b) !! k = Some d ∧ carried_delete b inc k = Some d ∧ tomb_verdict inc k d = Ok true) ∨
  (carried_delete b inc k = None ∧ ∀ d, gr_map (gone b) !! k = Some d → tomb_verdict inc k d = Ok false).
Proof.
  unfold carried_delete. destruct (gr_map (gone b) !! k) as [d|] eqn:He; cbn; [|by right].
  destruct (Hdel d eq_refl) as [[] Hv].
  - left. exists d. by rewrite decide_True.
  - right. rewrite decide_False by congruence. split; [done|]. intros ? [= <-]. done.
Qed.

Lemma key_row_kept e :
  kr_map (keys b) !! k = Some e →
  (∀ d p, gr_map (gone b) !! k = Some d → kr_map (keys inc) !! k = Some p → version_difference e p = None →
     d < last_modified p) →
  row_kept e (installed_key b inc k).
Proof using Hwf Hrow Hdel.
  intros He Hsafe. unfold installed_key.
  destruct carried_row_cases as [(e' & He' & -> & _)|[-> Hf]]; cbn [from_option].
  { left. exists e. assert (e' = e) as -> by congruence. split; [done|]. left. apply version_difference_refl. }
  pose proof (row_carried_false _ _ _ (Hf e He)) as Hc.
  destruct carried_delete_cases as [(d & Hd & -> & Hv)|[-> _]]; cbn [from_option key_effect key_state fst snd].
  - apply tombstone_carried_true in Hv as [Hp Hq]. pose proof (bw_order b Hwf k e d He Hd) as Hlt.
    destruct Hc as [(p & Hp' & [Hs|Hs])|(q & Hq' & Hs)].
    + specialize (Hsafe d p Hd Hp' Hs). specialize (Hp p Hp'). apply whole_seconds_lt in Hp. lia.
    + specialize (Hp p Hp'). assert (whole_seconds d <= whole_seconds (last_modified e)); [|lia].
      apply whole_seconds_mono. lia.
    + right. cbn [snd]. rewrite Hq'. cbn [raised]. exists (Z.max q d). split; [done|].
      assert (whole_seconds q <= whole_seconds (Z.max q d)) by (apply whole_seconds_mono; lia). lia.
  - destruct Hc as [(p & Hp' & Hs)|(q & Hq' & Hs)]; [left|right]; eauto.
Qed.

Lemma key_delete_kept d : gr_map (gone b) !! k = Some d → delete_kept d (installed_key b inc k).
Proof using Hwf Hrow Hdel.
  intros Hd. unfold installed_key.
  destruct carried_row_cases as [(e & He & -> & _)|[-> _]]; cbn [from_option].
  { right. exists e. split; [done|]. exact (bw_order b Hwf k e d He Hd). }
  destruct carried_delete_cases as [(d' & Hd' & -> & Hv)|[-> Hv]]; cbn [from_option key_effect key_state fst snd].
  - left. exists (raised d' (gr_map (gone inc) !! k)). split; [done|]. assert (d' = d) as -> by congruence.
    unfold raised. case_match; lia.
  - specialize (Hv d Hd). apply tombstone_carried_false in Hv as [(q & Hq & ?)|(p & Hp & ?)]; [left|right]; eauto.
Qed.

(** The candidate's own effects survive too. *)
Lemma key_candidate_row p :
  kr_map (keys inc) !! k = Some p → row_kept p (installed_key b inc k).
Proof using Hrow Hdel.
  intros Hp. unfold installed_key.
  destruct carried_row_cases as [(e & He & -> & Hv)|[-> _]]; cbn [from_option].
  { left. exists e. split; [done|]. right. apply row_carried_true in Hv as [Hv _]. by apply Hv. }
  destruct carried_delete_cases as [(d & Hd & -> & Hv)|[-> Hv]]; cbn [from_option key_effect key_state fst snd].
  - right. apply tombstone_carried_true in Hv as [Hv _]. exists (raised d (gr_map (gone inc) !! k)). split; [done|].
    specialize (Hv p Hp). unfold raised. case_match; [|done].
    assert (whole_seconds d <= whole_seconds (Z.max z d)) by (apply whole_seconds_mono; lia). lia.
  - left. exists p. split; [done|]. left. apply version_difference_refl.
Qed.

Lemma key_candidate_delete q :
  gr_map (gone inc) !! k = Some q → ∃ d, (installed_key b inc k).2 = Some d ∧ q <= d.
Proof.
  intros Hq. unfold installed_key. destruct (carried_row b inc k), (carried_delete b inc k) as [d|];
    cbn [from_option key_effect key_state fst snd]; rewrite Hq; cbn [raised]; eexists; (split; [done|lia]).
Qed.

(** Nothing is invented. *)
Lemma key_row_origin e :
  (installed_key b inc k).1 = Some e → kr_map (keys b) !! k = Some e ∨ kr_map (keys inc) !! k = Some e.
Proof using Type.
  clear Hwf Hinc Hrow Hdel. unfold installed_key, carried_row, carried_delete. destruct (kr_map (keys b) !! k); cbn.
  - case_decide; cbn; [auto|]. destruct (gr_map (gone b) !! k); cbn; [case_decide; cbn|]; naive_solver.
  - destruct (gr_map (gone b) !! k); cbn; [case_decide; cbn|]; naive_solver.
Qed.

Lemma key_ordered e d :
  (installed_key b inc k).1 = Some e → (installed_key b inc k).2 = Some d → d < last_modified e.
Proof using Hwf Hinc Hrow Hdel.
  unfold installed_key.
  destruct carried_row_cases as [(e' & He & -> & Hv)|[-> _]]; cbn [from_option].
  - intros [= <-]. apply row_carried_true in Hv as [_ Hq].
    destruct carried_delete_cases as [(d' & Hd & -> & _)|[-> _]]; cbn [from_option key_effect key_state fst snd].
    + intros [= <-]. pose proof (bw_order b Hwf k e' d' He Hd). unfold raised. case_match; [|done].
      specialize (Hq _ eq_refl). lia.
    + apply Hq.
  - destruct carried_delete_cases as [(d' & Hd & -> & _)|[-> _]]; cbn [from_option key_effect key_state fst snd]; [done|].
    apply (bw_order inc Hinc).
Qed.
End one_key.

(** [C8] An install keeps what the live index knew.  For every live bucket the
    installed one shows, for each live row, the same version, or a row or a
    tombstone of a later second; for each live tombstone, a tombstone at least
    as late or a row written after it; and the same for the candidate's rows
    and tombstones.  Every installed row comes from one of the two sides.  Open
    fences keep their tokens, the token epoch and the native cuts are kept, and
    the generation advances by one.  The live row's hypothesis rules out one
    case: the candidate shows the version under a time no later than a deletion
    the live key had already outlived. *)
Theorem install_keeps_effects order live stage cuts universe max_rows w stage' live' :
  index_wf live → visits order live →
  install_fleet_candidate order live stage cuts universe max_rows = (Ok w, stage', live') →
  native_cuts live' = native_cuts live ∧
  ∃ candidate, stage = Some candidate ∧
  ∀ name b, buckets live !! name = Some b → ∃ inc b',
    buckets candidate !! name = Some inc ∧ buckets live' !! name = Some b' ∧
    uncertain_keys b' = uncertain_keys b ∧ uncertainty_epoch b' = uncertainty_epoch b ∧
    sync_generation b' = sync_generation b + 1 ∧ synced b' = true ∧
    ∀ k,
      (∀ e, kr_map (keys b) !! k = Some e →
         (∀ d p, gr_map (gone b) !! k = Some d → kr_map (keys inc) !! k = Some p →
            version_difference e p = None → d < last_modified p) →
         row_kept e (key_state (Some b') k)) ∧
      (∀ d, gr_map (gone b) !! k = Some d → delete_kept d (key_state (Some b') k)) ∧
      (∀ p, kr_map (keys inc) !! k = Some p → row_kept p (key_state (Some b') k)) ∧
      (∀ q, gr_map (gone inc) !! k = Some q → ∃ d, gr_map (gone b') !! k = Some d ∧ q <= d) ∧
      (∀ e, kr_map (keys b') !! k = Some e → kr_map (keys b) !! k = Some e ∨ kr_map (keys inc) !! k = Some e).
Proof.
  intros Hwf Hv H. destruct (install_Ok _ _ _ _ _ _ _ _ _ Hv H) as (candidate & carry & -> & _ & _ & _ & Hi).
  split; [apply Hi|]. exists candidate. split; [done|]. intros name b Hb.
  destruct (is_known _ _ _ _ Hi name b Hb) as (inc & b' & Hinc & Hb' & Hord & Hk & ? & _ & ? & ? & ?).
  exists inc, b'. split_and!; try done. intros k. destruct (Hord b Hb) as (inc' & Hinc' & Ho1 & Ho2).
  assert (inc' = inc) as -> by congruence. pose proof (iw_bucket _ Hwf name b Hb) as Hbw.
  specialize (Hk k). split_and!.
  - intros e He Hs. rewrite Hk. by apply key_row_kept; eauto.
  - intros d Hd. rewrite Hk. by apply key_delete_kept; eauto.
  - intros p Hp. rewrite Hk. by apply key_candidate_row; eauto.
  - intros q Hq. destruct (key_candidate_delete b inc k q Hq) as (d & Hd & Hle). rewrite <- Hk in Hd. eauto.
  - intros e He. apply (key_row_origin b inc k e). rewrite <- Hk. exact He.
Qed.

Lemma apply_all_total l : ∀ c, (∀ x, x ∈ l → is_Some (buckets c !! x.1.1)) → ∃ c', apply_all c l = Ok c'.
Proof.
  induction l as [|[[n key] eff] l IH]; intros c H; [by eexists|]. cbn [apply_all].
  destruct (H (n, key, eff)) as [b Hb]; [set_solver|]. cbn in Hb.
  destruct (apply_one_Ok c n key eff (mkIndex (<[n := effect_bucket b key eff]> (buckets c))
    (effect_stats b key eff (i_stats c)) (capture c) (native_cuts c))) as [_ Ho].
  rewrite Ho by eauto. cbn [mbind result_bind]. apply IH. intros x Hx. cbn [buckets].
  destruct (decide (n = x.1.1)) as [<-|]; [rewrite lookup_insert_eq; eauto|]. rewrite lookup_insert_ne by done.
  apply H. set_solver.
Qed.

Lemma adopt_total universe live : ∀ c,
  (∀ name, name ∈ universe → is_Some (buckets c !! name)) →
  (∀ name, from_option sync_generation 0 (buckets live !! name) < u64_max) →
  ∃ c', adopt_buckets universe live c = Ok c'.
Proof.
  induction universe as [|n universe IH]; intros c Hu Hg; [by eexists|]. cbn [adopt_buckets].
  destruct (Hu n) as [b Hb]; [set_solver|]. rewrite Hb. cbn [ok_or mbind result_bind].
  assert (checked_add u64_max (from_option sync_generation 0 (buckets live !! n)) 1 =
    Some (from_option sync_generation 0 (buckets live !! n) + 1)) as ->.
  { apply checked_add_Some. specialize (Hg n). lia. }
  cbn [ok_or mbind result_bind]. apply IH; [|done]. intros name Hin. cbn [with_bucket buckets].
  destruct (decide (n = name)) as [->|]; [rewrite lookup_insert_eq; eauto|]. rewrite lookup_insert_ne by done.
  apply Hu. set_solver.
Qed.

(** [C35] A refused install changes nothing.  While generations are below their
    limit, an install that refuses leaves the live index and the stage as they
    were, and its reason is the check's; an install whose check passes
    succeeds. *)
Theorem install_refusal_inert order live candidate cuts universe max_rows :
  visits order live →
  (∀ name b, buckets live !! name = Some b → sync_generation b < u64_max) →
  match check_candidate order live candidate cuts universe max_rows with
  | Err e => install_fleet_candidate order live (Some candidate) cuts universe max_rows = (Err e, Some candidate, live)
  | Ok _ => ∃ live', install_fleet_candidate order live (Some candidate) cuts universe max_rows =
      (Ok ((λ c, Capture.invalidate c IRebuild) <$> capture live), None, live')
  end.
Proof.
  intros Hv Hg. unfold install_fleet_candidate.
  destruct (check_candidate order live candidate cuts universe max_rows) as [carry|e] eqn:Ec; [|done].
  apply check_candidate_Ok in Ec as (_ & _ & _ & Hlive & Huni & Hord & Hm).
  destruct (adopt_total universe live candidate) as [c1 Ea].
  { intros name Hin. destruct (Huni name Hin) as (? & ? & _). eauto. }
  { intros name. destruct (buckets live !! name) eqn:Eb; cbn; [eauto|done]. }
  rewrite Ea. cbn [mbind result_bind]. apply adopt_buckets_Ok in Ea as (_ & _ & _ & _ & Hb1).
  unfold apply_carry.
  match goal with |- context [apply_all c1 ?l] => destruct (apply_all_total l c1) as [c2 ->] end; [|eauto].
  intros [[n k] eff] Hx. cbn [fst]. assert ((n, k, eff) ∈ carry) as Hx'.
  { apply elem_of_app in Hx as [Hx|Hx]; by apply list_elem_of_filter in Hx as [_ ?]. }
  apply Hm in Hx' as (n' & _ & b0 & inc0 & Hb0 & Hi0 & Hc). rewrite Hb1.
  assert (n' = n) as -> by (destruct Hc as [(?&?&_&[= -> _ _]&_)|(?&?&_&[= -> _ _]&_)]; done).
  rewrite Hi0. eauto.
Qed.
End install_props.
