(* ===== verification/InstallInv.v ===== *)
(** * The installed index is well formed

    An install leaves an index that satisfies the index invariant: the swap
    keeps exact statistics, the order of rows and tombstones, and the fences'
    tokens.  Then the concrete installs: witnesses, and the live row an install
    drops. *)

From S2P Require Import Prelude.
From S2P Require Import ObjTypes.
From S2P Require Import ImageCodec.
From S2P Require Import CodecProps.
From S2P Require Import Rows.
From S2P Require Import IndexCapture.
From S2P Require Import KeyIndex.
From S2P Require Import IndexWf.
From S2P Require Import IndexSteps.
From S2P Require Import IndexInv.
From S2P Require Import IndexMachine.
From S2P Require Import Install.
From S2P Require Import InstallProps.

Section inv.
Context {L : Layout} {A : AlignCuts}.
Implicit Types (b : BucketState) (c live : KeyIndexState) (carry : Carry).

(** ** Adoption *)

Lemma adopted_wf old b :
  bucket_wf b → synced b = true → (∀ o, old = Some o → bucket_wf o) →
  from_option sync_generation 0 old + 1 <= u64_max → bucket_wf (adopted old b).
Proof.
  intros Hb Hs Hold Hg. assert (rebuild_generation b = None) as Hr.
  { destruct (rebuild_generation b) as [g|] eqn:E; [|done]. destruct (bw_rebuild b Hb g E). congruence. }
  destruct old as [o|]; cbn [from_option] in *.
  - specialize (Hold o eq_refl). destruct (bw_gen o Hold). destruct Hb, Hold. split; cbn; try done; [congruence|lia].
  - destruct Hb. split; cbn; try done. congruence.
Qed.

Lemma adopt_wf universe live : ∀ c c',
  index_wf live → index_wf c → (∀ name b, buckets c !! name = Some b → name ∈ universe → synced b = true) →
  adopt_buckets universe live c = Ok c' → index_wf c'.
Proof.
  induction universe as [|n universe IH]; intros c c' Hl Hc Hs H; cbn [adopt_buckets] in H; [by injection H as <-|].
  apply bind_ok in H as (b & Hb & H). apply ok_or_ok in Hb. apply bind_ok in H as (g & Hg & H).
  apply ok_or_ok, checked_add_Some in Hg as [-> Hg]. fold (adopted (buckets live !! n) b) in H.
  assert (synced b = true) as Hsb by (eapply Hs; [done|set_solver]). apply IH in H; [done|done| |].
  - assert (bucket_wf (adopted (buckets live !! n) b)).
    { apply adopted_wf; [exact (iw_bucket c Hc n b Hb)|done| |done]. intros o Ho. exact (iw_bucket live Hl n o Ho). }
    apply (index_wf_update_same c n (adopted (buckets live !! n) b) (capture c)); [done|done|].
    unfold bucket_or_default. by rewrite Hb.
  - intros name b'. cbn [with_bucket buckets]. intros [[<- <-]|[? ?]]%lookup_insert_Some Hin; [done|].
    by apply (Hs name b'); [|set_solver].
Qed.

(** ** Carried effects *)

Lemma bucket_or_default_Some c n b : buckets c !! n = Some b → bucket_or_default c n = b.
Proof. unfold bucket_or_default. by intros ->. Qed.

Lemma raised_removed_wf b key d : bucket_wf b → bucket_wf (row_removed (with_gone b (Gone.raise (gone b) key d)) key).
Proof.
  intros Hb. assert (row_removed (with_gone b (Gone.raise (gone b) key d)) key =
    with_gone (row_removed b key) (Gone.raise (gone b) key d)) as ->.
  { unfold row_removed. cbn [with_gone keys b_stats]. by destruct (kr_map (keys b) !! key). }
  apply with_gone_wf; [by apply row_removed_wf|by apply raise_wf, Hb|].
  intros k e d'. rewrite row_removed_map, raise_map. intros [Hne He]%lookup_delete_Some.
  rewrite lookup_insert_ne by done. by apply (bw_order b Hb).
Qed.

Lemma carry_delete_wf c n key d c' : index_wf c → apply_one c (n, key, CDelete d) = Ok c' → index_wf c'.
Proof.
  intros Hc (b & Hb & ->)%apply_one_Ok. pose proof (iw_bucket c Hc n b Hb) as Hbw.
  pose proof (raised_removed_wf b key d Hbw) as Hw. cbn [effect_bucket effect_stats].
  set (b' := row_removed _ _) in *. pose proof (row_removed_map (with_gone b (Gone.raise (gone b) key d)) key) as Hm.
  fold b' in Hm. cbn [with_gone keys] in Hm.
  assert (rows_stats (kr_map (keys b')) = stats_shift (rows_stats (kr_map (keys b))) (row_stats (kr_map (keys b) !! key)) stats_zero) as Hst.
  { by rewrite Hm, rows_stats_delete. }
  assert (stats_fit (rows_total (<[n := b']> (buckets c)))) as Hfit.
  { rewrite rows_total_insert. rewrite Hb. cbn [default from_option]. rewrite Hst.
    pose proof (iw_fit c Hc) as [F1 F2]. rewrite (iw_stats c Hc) in F1, F2.
    pose proof (row_stats_nonneg (kr_map (keys b) !! key)) as [N1 N2]. cbn in N1, N2.
    split; cbn [stats_shift objects logical_bytes stats_zero]; cbn in *; lia. }
  destruct (kr_map (keys b) !! key) as [p|] eqn:Ep.
  - apply accounted_update; [done|done|apply Hc| | |done]; rewrite (bucket_or_default_Some c n b Hb); [done|].
    pose proof (row_stats_le (kr_map (keys b)) key) as Hle. by rewrite Ep in Hle.
  - apply index_wf_update; [done|done|apply Hc|apply Hc|]. rewrite (bucket_or_default_Some c n b Hb).
    rewrite (bw_stats _ Hw), (bw_stats _ Hbw), Hst. apply stats_eq; cbn; lia.
Qed.

Definition stats_plus (x y : IndexStats) : IndexStats :=
  mkStats (objects x + objects y) (logical_bytes x + logical_bytes y).

Definition effect_load (x : string * string * Carried) : IndexStats :=
  match x.2 with CRow e => Stats.for_entry e | CDelete _ => stats_zero end.

(** What the carried rows add at most. *)
Definition carry_load carry : IndexStats := foldr (λ x t, stats_plus (effect_load x) t) stats_zero carry.

Lemma effect_load_nonneg x : stats_le stats_zero (effect_load x).
Proof. destruct x as [[??] [e|]]; [|done]. apply (row_stats_nonneg (Some e)). Qed.

Lemma carry_load_nonneg carry : stats_le stats_zero (carry_load carry).
Proof.
  induction carry as [|x carry [IH1 IH2]]; [done|]. pose proof (effect_load_nonneg x) as [N1 N2].
  unfold carry_load in *. cbn [foldr]. split; cbn [stats_plus objects logical_bytes stats_zero] in *; lia.
Qed.

Lemma carry_row_wf c n key e c' :
  index_wf c → stats_fit (stats_plus (rows_total (buckets c)) (Stats.for_entry e)) →
  (∀ b d, buckets c !! n = Some b → gr_map (gone b) !! key = Some d → d < last_modified e) →
  apply_one c (n, key, CRow e) = Ok c' →
  index_wf c' ∧ stats_le (rows_total (buckets c')) (stats_plus (rows_total (buckets c)) (Stats.for_entry e)).
Proof.
  intros Hc Hfit Hd (b & Hb & ->)%apply_one_Ok. pose proof (iw_bucket c Hc n b Hb) as Hbw. cbn [effect_bucket effect_stats].
  pose proof (inserted_map b key e) as Hm.
  assert (rows_stats (kr_map (keys (inserted b key e))) =
    stats_shift (rows_stats (kr_map (keys b))) (row_stats (kr_map (keys b) !! key)) (Stats.for_entry e)) as Hst.
  { by rewrite Hm, rows_stats_insert. }
  assert (stats_le (rows_total (<[n := inserted b key e]> (buckets c))) (stats_plus (rows_total (buckets c)) (Stats.for_entry e))) as Hle.
  { rewrite rows_total_insert, Hb. cbn [default from_option]. rewrite Hst.
    pose proof (row_stats_nonneg (kr_map (keys b) !! key)) as [N1 N2]. split; cbn in *; lia. }
  assert (stats_fit (rows_total (<[n := inserted b key e]> (buckets c)))) as Hf by (by eapply stats_fit_mono).
  split; [|done].
  apply accounted_update; [done| |apply Hc| | |done].
  - apply inserted_wf; [done|by eauto|]. rewrite <- Hm.
    pose proof (rows_total_le (<[n := inserted b key e]> (buckets c)) n) as Hle2. rewrite lookup_insert_eq in Hle2.
    by eapply stats_fit_mono.
  - by rewrite (bucket_or_default_Some c n b Hb).
  - rewrite (bucket_or_default_Some c n b Hb). apply row_stats_le.
Qed.

Lemma apply_all_app l1 l2 c : apply_all c (l1 ++ l2) = (c1 ← apply_all c l1; apply_all c1 l2).
Proof.
  revert c. induction l1 as [|x l1 IH]; intros c; [done|]. cbn [apply_all app].
  destruct (apply_one c x); cbn [mbind result_bind]; [apply IH|done].
Qed.

Lemma carry_deletes_wf l : ∀ c c',
  index_wf c → (∀ x, x ∈ l → is_delete x = true) → apply_all c l = Ok c' → index_wf c' ∧ stats_le (rows_total (buckets c')) (rows_total (buckets c)).
Proof.
  induction l as [|[[n key] eff] l IH]; intros c c' Hc Hl H; cbn [apply_all] in H.
  { injection H as <-. split; [done|]. split; lia. }
  apply bind_ok in H as (c1 & H1 & H). destruct eff as [e|d]; [by specialize (Hl (n, key, CRow e) ltac:(set_solver))|].
  pose proof (carry_delete_wf _ _ _ _ _ Hc H1) as Hc1. apply IH in H as [Hw Hle]; [|done|set_solver].
  split; [done|]. apply apply_one_Ok in H1 as (b & Hb & ->). cbn [buckets effect_bucket] in Hle.
  rewrite rows_total_insert, Hb in Hle. cbn [default from_option] in Hle.
  rewrite row_removed_map in Hle. cbn [with_gone keys] in Hle. rewrite rows_stats_delete in Hle.
  pose proof (row_stats_nonneg (kr_map (keys b) !! key)) as [N1 N2]. destruct Hle as [L1 L2].
  split; cbn in *; lia.
Qed.

Lemma load_step t e r :
  stats_fit (stats_plus t (stats_plus e r)) → stats_le stats_zero r →
  stats_fit (stats_plus t e) ∧ ∀ t1, stats_le t1 (stats_plus t e) → stats_fit (stats_plus t1 r).
Proof.
  destruct t, e, r. intros [F1 F2] [N1 N2]. cbn in *. split; [split; cbn; lia|].
  intros [o l] [L1 L2]. cbn in *. split; cbn; lia.
Qed.

Lemma carry_rows_wf l : ∀ c c',
  index_wf c → (∀ x, x ∈ l → is_delete x = false) → stats_fit (stats_plus (rows_total (buckets c)) (carry_load l)) →
  (∀ n key e b d, (n, key, CRow e) ∈ l → buckets c !! n = Some b → gr_map (gone b) !! key = Some d → d < last_modified e) →
  apply_all c l = Ok c' → index_wf c'.
Proof.
  induction l as [|[[n key] eff] l IH]; intros c c' Hc Hl Hfit Hord H; cbn [apply_all] in H; [by injection H as <-|].
  apply bind_ok in H as (c1 & H1 & H). destruct eff as [e|d]; [|by specialize (Hl (n, key, CDelete d) ltac:(set_solver))].
  change (carry_load ((n, key, CRow e) :: l)) with (stats_plus (Stats.for_entry e) (carry_load l)) in Hfit.
  apply load_step in Hfit as [F1 F2]; [|apply carry_load_nonneg].
  destruct (carry_row_wf c n key e c1) as [Hc1 Hle]; [done|done| |done|].
  { intros b d. apply Hord. set_solver. }
  apply IH in H; [done|done|set_solver|by apply F2|].
  intros n' k' e' b' d' Hx Hb' Hd'. apply apply_one_Ok in H1 as (b & Hb & ->). cbn [buckets effect_bucket] in Hb'.
  assert ((n', k', CRow e') ∈ (n, key, CRow e) :: l) as Hx' by set_solver.
  apply lookup_insert_Some in Hb' as [[<- <-]|[? Hb']]; [|exact (Hord _ _ _ _ _ Hx' Hb' Hd')].
  destruct (inserted_rest b key e) as (Hg & _). rewrite Hg in Hd'. exact (Hord _ _ _ _ _ Hx' Hb Hd').
Qed.

(** Rows leave tombstones alone. *)
Lemma run_key_rows l name k st :
  (∀ x, x ∈ l → is_delete x = false) → (run_key l name k st).2 = st.2.
Proof.
  revert st. induction l as [|[[n k'] eff] l IH]; intros st Hl; [done|]. unfold run_key in *. cbn [foldl fst snd].
  rewrite IH by set_solver. specialize (Hl (n, k', eff) ltac:(set_solver)). destruct eff; [|done]. by case_decide.
Qed.

Lemma fit_weaken t t' l l' :
  stats_fit (stats_plus t l) → stats_le t' t → stats_le l' l → stats_fit (stats_plus t' l').
Proof. destruct t, t', l, l'. intros [] [] []. cbn in *. split; cbn; lia. Qed.

Lemma stats_le_plus x a a' t : stats_le stats_zero x → stats_le a t → a' = a ∨ a' = stats_plus x a → stats_le a' (stats_plus x t).
Proof. destruct x, a, t. intros [] [] [->| ->]; cbn in *; split; cbn; lia. Qed.

Lemma carry_load_rows (l : list (string * string * Carried)) :
  stats_le (carry_load (filter (λ x, is_delete x = false) l)) (carry_load l).
Proof.
  induction l as [|x l IH]; [by split|]. rewrite filter_cons. case_decide;
    apply (stats_le_plus (effect_load x) _ _ _ (effect_load_nonneg x) IH); [by right|by left].
Qed.

(** An install preserves the index invariant.  Where the live index and
    the candidate are well formed and the counters have room for the carried
    rows, the installed index has exact statistics, no tombstone over a live
    row, no rebuild in progress, and distinct fence tokens within the epoch the
    live index had allocated. *)
Theorem install_wf order live candidate cuts universe max_rows carry w stage' live' :
  index_wf live → index_wf candidate → visits order live →
  check_candidate order live candidate cuts universe max_rows = Ok carry →
  stats_fit (stats_plus (rows_total (buckets candidate)) (carry_load carry)) →
  install_fleet_candidate order live (Some candidate) cuts universe max_rows = (Ok w, stage', live') →
  index_wf live'.
Proof.
  intros Hl Hc Hv Hcheck Hfit H. pose proof (install_Ok _ _ _ _ _ _ _ _ _ Hv H) as (cand' & carry' & [= <-] & _ & _ & _ & Hi).
  unfold install_fleet_candidate in H. rewrite Hcheck in H.
  destruct (adopt_buckets universe live candidate) as [c1|] eqn:Ea; [|done]. cbn [mbind result_bind] in H.
  destruct (apply_carry c1 carry) as [c2|] eqn:Ep; [|done]. injection H as <- <- <-.
  apply check_candidate_Ok in Hcheck as (_ & _ & _ & Hlive & Huni & Hord & Hm).
  assert (index_wf c1) as H1.
  { eapply (adopt_wf universe live candidate); [done|done| |done]. intros name b Hb Hin.
    destruct (Huni name Hin) as (inc & Hinc & Hs & _). congruence. }
  pose proof (adopt_buckets_Ok _ _ _ _ Ea) as (Hs1 & _ & _ & _ & Hb1).
  unfold apply_carry in Ep. rewrite apply_all_app in Ep. apply bind_ok in Ep as (cd & Ed & Er).
  assert (rows_total (buckets c1) = rows_total (buckets candidate)) as Ht.
  { by rewrite <- (iw_stats _ H1), <- (iw_stats _ Hc). }
  apply carry_deletes_wf in Ed as Hd; [|done|by intros x [? _]%list_elem_of_filter]. destruct Hd as [Hcd Hle].
  rewrite Ht in Hle. apply (index_wf_same c2); [done|apply Hl|].
  apply (carry_rows_wf (filter (λ x, is_delete x = false) carry) cd); [done|by intros x [? _]%list_elem_of_filter| | |done].
  - by apply (fit_weaken (rows_total (buckets candidate)) _ (carry_load carry)), carry_load_rows.
  - intros n key e b d Hx Hb Hd. assert ((n, key, CRow e) ∈ carry) as Hx' by (by apply list_elem_of_filter in Hx as [_ ?]).
    apply Hm in Hx' as (n' & Hn' & lb & inc & Hlb & Hinc & Hx').
    destruct Hx' as [(k' & e' & Hk' & [= <- <- <-] & Hvd)|(?&?&_&?&_)]; [|done].
    destruct (is_known _ _ _ _ Hi n lb Hlb) as (inc' & b' & Hinc' & Hb' & Ho & Hk & _). cbn [buckets] in Hb'.
    assert (inc' = inc) as -> by congruence. destruct (Ho lb Hlb) as (inc' & ? & O1 & O2). assert (inc' = inc) as -> by congruence.
    destruct (apply_all_key _ _ _ _ _ Er Hb) as (b2 & Hb2 & _ & Hk2). assert (b2 = b') as -> by congruence.
    eapply (key_ordered lb inc key); [exact (iw_bucket live Hl n lb Hlb)|exact (iw_bucket candidate Hc n inc Hinc)|by apply O1|by apply O2| |].
    + unfold installed_key, carried_row. rewrite Hk'. cbn [mbind option_bind]. rewrite decide_True by done. done.
    + rewrite <- Hk, Hk2, run_key_rows; [done|]. by intros x [? _]%list_elem_of_filter.
Qed.
End inv.

(** ** Concrete installs *)

#[local] Existing Instance layout64.

(** Every position lines up. *)
#[local] Instance align_exact : AlignCuts := λ _ _, (AExact, None).

Definition millis (n : Z) : Z := n * 1000000.

(** A synced node, a delete and then a write of the same key; another key
    fenced. *)
Definition live_events : list index_event :=
  [EvResync "photos"; EvFinish "photos" 1;
   EvDel "photos" "a" (millis 10200) None Run;
   EvPut "photos" "a" (demo_entry (millis 10500)) DefinitiveMutation None;
   EvFence "photos" "k"].
Definition demo_live : KeyIndexState := default KeyIndexState_default (run KeyIndexState_default live_events).

(** A donor that listed the same version under the origin's time, and a key of
    its own. *)
Definition candidate_events (t : Z) : list index_event :=
  [EvResync "photos"; EvPage "photos" 1 [("a", demo_entry t); ("b", demo_entry (millis 8000))]; EvFinish "photos" 1].
Definition demo_candidate (t : Z) : KeyIndexState :=
  default KeyIndexState_default (run KeyIndexState_default (candidate_events t)).

Definition demo_install (t : Z) : KeyIndexState :=
  (install_fleet_candidate ["photos"] demo_live (Some (demo_candidate t)) [] ["photos"] 10).2.

Lemma run_reachable evs : ∀ s s',
  reachable s → run s evs = Some s' → Forall ev_typed evs →
  (∀ i s1 ev, run s (take i evs) = Some s1 → evs !! i = Some ev →
     from_option (ev_fits s1 ev) True (exec s1 ev)) → reachable s'.
Proof.
  induction evs as [|ev evs IH]; intros s s' Hs Hr Ht Hok; cbn in Hr; [by injection Hr as <-|].
  apply bind_Some in Hr as (s1 & Hx & Hr). apply Forall_cons in Ht as [Ht Hts].
  pose proof (Hok 0%nat s ev eq_refl eq_refl) as Hf. rewrite Hx in Hf. cbn [from_option] in Hf.
  apply (IH s1); [by apply (reach_step s ev)|done|done|].
  intros i s2 ev' Hp Hi. apply (Hok (S i) s2 ev'); [|done]. cbn. by rewrite Hx.
Qed.

Lemma demo_live_reachable : reachable demo_live.
Proof.
  apply (run_reachable live_events KeyIndexState_default); [apply reach_init|by vm_compute|by repeat constructor|].
  intros i s1 ev Hr Hi. unfold live_events in *.
  do 5 (destruct i as [|i]; [cbn [take] in Hr; vm_compute in Hr; injection Hr as <-; injection Hi as <-; vm_compute; done|]).
  done.
Qed.

Lemma demo_candidate_reachable : reachable (demo_candidate (millis 9000)) ∧ reachable (demo_candidate (millis 10300)).
Proof.
  split; (eapply (run_reachable (candidate_events _) KeyIndexState_default); [apply reach_init|by vm_compute|by repeat constructor|]);
  intros i s1 ev Hr Hi; unfold candidate_events in *.
  all: destruct i as [|[|[|i]]]; try done; cbn [take] in Hr; vm_compute in Hr; injection Hr as <-; injection Hi as <-.
  all: cbn [exec from_option ev_fits].
  all: lazymatch goal with |- ∀ _, _ => intros n; destruct n as [|[|[|n]]] | _ => idtac end; by vm_compute.
Qed.

Lemma reachable_ok s : reachable s → index_wf s.
Proof. induction 1 as [|s ev s' _ IH Hstep]; [apply index_default_wf|by eapply step_wf]. Qed.

Lemma demo_visits : visits ["photos"] demo_live.
Proof.
  intros name. rewrite list_elem_of_singleton. split; [intros ->; eexists; by vm_compute|].
  intros [b Hb%elem_of_map_to_list]. assert ((map_to_list (buckets demo_live)).*1 = ["photos"]) as Hl by by vm_compute.
  apply (list_elem_of_fmap_2 fst) in Hb. cbn [fst] in Hb. rewrite Hl in Hb. by apply list_elem_of_singleton in Hb.
Qed.

Definition photos (s : KeyIndexState) : BucketState := bucket_or_default s "photos".

Lemma demo_installs :
  install_fleet_candidate ["photos"] demo_live (Some (demo_candidate (millis 10300))) [] ["photos"] 10 =
    (Ok None, None, demo_install (millis 10300)).
Proof. vm_compute. reflexivity. Qed.

Lemma demo_lookup : buckets demo_live !! "photos" = Some (photos demo_live).
Proof. vm_compute. reflexivity. Qed.

Lemma install_keeps_effects_witness :
  row_kept (demo_entry (millis 10500)) (key_state (Some (photos (demo_install (millis 10300)))) "a") ∧
  uncertain_keys (photos (demo_install (millis 10300))) = {["k" := 1]}.
Proof.
  pose proof (install_keeps_effects _ _ _ _ _ _ _ _ _ (reachable_ok _ demo_live_reachable) demo_visits demo_installs) as [_ (c & Hc & H)].
  assert (c = demo_candidate (millis 10300)) as -> by congruence.
  destruct (H "photos" (photos demo_live) demo_lookup) as (inc & b' & Hinc & Hb' & Hu & _ & _ & _ & Hk).
  assert (b' = photos (demo_install (millis 10300))) as ->.
  { unfold photos, bucket_or_default. by rewrite Hb'. }
  split; [|rewrite Hu; vm_compute; reflexivity].
  destruct (Hk "a") as [Hrow _]. apply Hrow; [vm_compute; reflexivity|]. intros d p Hd Hp _.
  vm_compute in Hinc. injection Hinc as <-. vm_compute in Hd, Hp. injection Hd as <-. injection Hp as <-. by vm_compute.
Defined.

Lemma demo_generation name b : buckets demo_live !! name = Some b → sync_generation b < u64_max.
Proof.
  intros Hb. assert (name = "photos") as -> by (apply list_elem_of_singleton, demo_visits; by eexists).
  assert (b = photos demo_live) as -> by (pose proof demo_lookup; congruence). by vm_compute.
Qed.

Lemma demo_refused : check_candidate ["photos"] demo_live (demo_candidate (millis 10300)) [] ["photos"] 1 =
  Err (in_bucket RowLimit "photos").
Proof. vm_compute. reflexivity. Qed.

Lemma install_refusal_inert_witness :
  install_fleet_candidate ["photos"] demo_live (Some (demo_candidate (millis 10300))) [] ["photos"] 1 =
    (Err (in_bucket RowLimit "photos"), Some (demo_candidate (millis 10300)), demo_live).
Proof.
  pose proof (install_refusal_inert ["photos"] demo_live (demo_candidate (millis 10300)) [] ["photos"] 1 demo_visits demo_generation) as H.
  rewrite demo_refused in H. exact H.
Defined.

Lemma demo_check : check_candidate ["photos"] demo_live (demo_candidate (millis 10300)) [] ["photos"] 10 = Ok [].
Proof. vm_compute. reflexivity. Qed.

Lemma demo_room : stats_fit (stats_plus (rows_total (buckets (demo_candidate (millis 10300)))) (carry_load [])).
Proof. split; by vm_compute. Qed.

Lemma install_wf_witness : index_wf (demo_install (millis 10300)).
Proof.
  exact (install_wf _ _ _ _ _ _ _ _ _ _ (reachable_ok _ demo_live_reachable) (reachable_ok _ (proj2 demo_candidate_reachable))
    demo_visits demo_check demo_room demo_installs).
Defined.

(** [C37] The install can lose a live row.  The live index deleted [a] and then
    wrote it, and shows the write; the candidate shows the same version under
    the origin's time, a second before that deletion, and no tombstone.  The row
    counts as covered, the older tombstone as not: the swap carries the deletion
    alone, and the installed index holds neither side's row. *)
Theorem install_drops_covered_row :
  reachable demo_live ∧ reachable (demo_candidate (millis 9000)) ∧
  key_state (Some (photos demo_live)) "a" = (Some (demo_entry (millis 10500)), Some (millis 10200)) ∧
  key_state (Some (photos (demo_candidate (millis 9000)))) "a" = (Some (demo_entry (millis 9000)), None) ∧
  version_difference (demo_entry (millis 10500)) (demo_entry (millis 9000)) = None ∧
  is_ok (install_fleet_candidate ["photos"] demo_live (Some (demo_candidate (millis 9000))) [] ["photos"] 10).1.1 = true ∧
  key_state (Some (photos (demo_install (millis 9000)))) "a" = (None, Some (millis 10200)) ∧
  ¬ row_kept (demo_entry (millis 10500)) (key_state (Some (photos (demo_install (millis 9000)))) "a").
Proof.
  assert (key_state (Some (photos (demo_install (millis 9000)))) "a" = (None, Some (millis 10200))) as Hk by (vm_compute; reflexivity).
  split_and!; [apply demo_live_reachable|apply demo_candidate_reachable|vm_compute; reflexivity..|done|].
  rewrite Hk. intros [(e & He & _)|(d & Hd & Hlt)]; [done|]. injection Hd as <-. by vm_compute in Hlt.
Qed.
