(* ===== verification/Stage.v ===== *)
(** * The private stage of a follower

    [FleetStage] of [src/src/index/fleet/stage.rs] and [IndexDelta::apply] of
    [src/src/index/fleet/delta.rs]: chunks of a donor image are collected,
    verified against the donor's commitment and decoded, then batches of the
    donor's journal are replayed on the private index until it is installed.

    Cursors and batches are [groupnet]'s data, with the capture identity left
    abstract; [blake3] is a parameter.  A failed reservation of memory is not
    modelled. *)

From S2P Require Import Prelude.
From S2P Require Import ObjTypes.
From S2P Require Import ImageCodec.
From S2P Require Import Rows.
From S2P Require Import IndexCapture.
From S2P Require Import KeyIndex.
From S2P Require Import Image.
From S2P Require Import Install.

(** [blake3::hash(..).as_bytes()]. *)
Class ImageHash := image_hash : bytes → bytes.

(** What the stage reads of a journal batch. *)
Record JournalCursor (C : Type) := mkCursor { jc_capture : C; jc_position : Z }.
Record JournalDelta := mkJournalDelta { jd_position : Z; jd_effect : bytes }.
Record JournalBatch (C : Type) := mkBatch {
  jb_from : JournalCursor C;
  jb_through : JournalCursor C;
  jb_deltas : list JournalDelta;
}.
Arguments mkCursor {C} _ _.
Arguments jc_capture {C} _.
Arguments jc_position {C} _.
Arguments mkBatch {C} _ _ _.
Arguments jb_from {C} _.
Arguments jb_through {C} _.
Arguments jb_deltas {C} _.

#[global] Instance JournalCursor_eq_dec {C} `{EqDecision C} : EqDecision (JournalCursor C).
Proof. solve_decision. Defined.

Section delta_apply.
Context {L : Layout}.

(** [IndexDelta::apply]: whether it changed the stage, the bucket, the stage. *)
Definition delta_apply (d : IndexDelta) (stage : KeyIndexState) : bool * option string * KeyIndexState :=
  match d with
  | DPut bucket key e => let '(changed, stage) := apply_put stage bucket key e in (changed, Some bucket, stage)
  | DDelete bucket key deleted_at =>
      let '(changed, stage) := apply_replayed_del stage bucket key deleted_at in (changed, Some bucket, stage)
  | DNoop => (false, None, stage)
  end.
End delta_apply.

Section stage.
Context {L : Layout} {P : EtagParse} {H : ImageHash} {A : AlignCuts}.
Context {C : Type} `{EqDecision C}.

Record FleetStage := mkStage {
  fs_encoded : bytes;
  fs_expected_bytes : Z;
  fs_decoded_bytes : Z;
  fs_expected_chunks : Z;
  fs_next_chunk : Z;
  fs_caps : ImageCaps;
  fs_index : option KeyIndexState;
  fs_rows : Z;
  fs_through : JournalCursor C;
  fs_max_event_bytes : Z;
  fs_reserved_at : Z;
}.

Definition with_encoded (st : FleetStage) (l : bytes) (next : Z) : FleetStage :=
  mkStage l (fs_expected_bytes st) (fs_decoded_bytes st) (fs_expected_chunks st) next (fs_caps st) (fs_index st)
    (fs_rows st) (fs_through st) (fs_max_event_bytes st) (fs_reserved_at st).
Definition with_index (st : FleetStage) (index : option KeyIndexState) (rows : Z) : FleetStage :=
  mkStage (fs_encoded st) (fs_expected_bytes st) (fs_decoded_bytes st) (fs_expected_chunks st) (fs_next_chunk st)
    (fs_caps st) index rows (fs_through st) (fs_max_event_bytes st) (fs_reserved_at st).
Definition with_through (st : FleetStage) (through : JournalCursor C) : FleetStage :=
  mkStage (fs_encoded st) (fs_expected_bytes st) (fs_decoded_bytes st) (fs_expected_chunks st) (fs_next_chunk st)
    (fs_caps st) (fs_index st) (fs_rows st) through (fs_max_event_bytes st) (fs_reserved_at st).

(** [FleetStage::new]; [now] is the instant sampled. *)
Definition stage_new (expected_bytes expected_chunks : Z) (cut : JournalCursor C) (decoded_bytes : Z)
    (caps : ImageCaps) (max_event_bytes now : Z) : result ImageError FleetStage :=
  _ ← refuse_if ((expected_bytes =? 0) || (cap_bytes caps <? expected_bytes)
                 || (decoded_bytes =? 0) || (cap_decoded_bytes caps <? decoded_bytes)
                 || (expected_chunks =? 0) || (max_event_bytes =? 0)) Capacity;
  Ok (mkStage [] expected_bytes decoded_bytes expected_chunks 0 caps None 0 cut max_event_bytes now).

Definition store_chunk (st : FleetStage) (sequence : Z) (chunk : bytes) : result ImageError unit * FleetStage :=
  if negb (sequence =? fs_next_chunk st) || bool_decide (chunk = []) || (fs_expected_chunks st <=? sequence)
  then (Err Corrupt, st)
  else
    match checked_add usize_max (Z.of_nat (length (fs_encoded st))) (Z.of_nat (length chunk)) with
    | None => (Err Capacity, st)
    | Some end_ =>
        if fs_expected_bytes st <? end_ then (Err Capacity, st)
        else (Ok tt, with_encoded st (fs_encoded st ++ chunk) (fs_next_chunk st + 1))
    end.

Definition verify (st : FleetStage) (commitment : bytes) : result ImageError unit * FleetStage :=
  if is_some (fs_index st) || negb (fs_next_chunk st =? fs_expected_chunks st)
     || negb (Z.of_nat (length (fs_encoded st)) =? fs_expected_bytes st)
  then (Err Incomplete, st)
  else if negb (bool_decide (image_hash (fs_encoded st) = commitment)) then (Err Corrupt, st)
  else
    let reserved := mkCaps (fs_expected_bytes st) (fs_decoded_bytes st) (cap_buckets (fs_caps st))
                      (cap_rows (fs_caps st)) (cap_name_bytes (fs_caps st)) in
    match decode (fs_encoded st) reserved with
    | Err e => (Err e, st)
    | Ok state => (Ok tt, with_index st (Some state) (msum (λ _ b, bucket_rows b) (buckets state)))
    end.

(** One iteration of [stage_batch]'s loop: the position it expected. *)
Definition stage_delta (st : FleetStage) (expected : Z) (delta : JournalDelta) : result ImageError Z * FleetStage :=
  match fs_index st with
  | None => (Err Incomplete, st)
  | Some index =>
      let checked :=
        expected ← ok_or (checked_add u64_max expected 1) Capacity;
        _ ← refuse_if (negb (jd_position delta =? expected)) Corrupt;
        effect ← Delta.decode_delta (jd_effect delta) (fs_max_event_bytes st) (cap_name_bytes (fs_caps st))
                   (cap_decoded_bytes (fs_caps st));
        '(before, may_grow) ←
          match effect with
          | DPut bucket key _ =>
              b ← ok_or (buckets index !! bucket) Incomplete;
              Ok (bucket_rows b, is_none (Keys.get (keys b) key))
          | DDelete bucket _ _ => b ← ok_or (buckets index !! bucket) Incomplete; Ok (bucket_rows b, true)
          | DNoop => Ok (0, false)
          end;
        _ ← refuse_if (may_grow && (cap_rows (fs_caps st) <=? fs_rows st)) Capacity;
        Ok (expected, effect, before) in
      match checked with
      | Err e => (Err e, st)
      | Ok (expected, effect, before) =>
          let '(_, bucket, index) := delta_apply effect index in
          let st := with_index st (Some index) (fs_rows st) in
          match bucket with
          | None => (Ok expected, st)
          | Some bucket =>
              let counted :=
                b ← ok_or (buckets index !! bucket) Incomplete;
                ok_or (rows ← checked_sub (fs_rows st) before; checked_add usize_max rows (bucket_rows b)) Capacity in
              match counted with
              | Err e => (Err e, st)
              | Ok rows =>
                  let st := with_index st (Some index) rows in
                  if cap_rows (fs_caps st) <? rows then (Err Capacity, st) else (Ok expected, st)
              end
          end
      end
  end.

Fixpoint stage_deltas (st : FleetStage) (expected : Z) (deltas : list JournalDelta) : result ImageError Z * FleetStage :=
  match deltas with
  | [] => (Ok expected, st)
  | delta :: deltas =>
      match stage_delta st expected delta with
      | (Err e, st) => (Err e, st)
      | (Ok expected, st) => stage_deltas st expected deltas
      end
  end.

Definition stage_batch (st : FleetStage) (batch : JournalBatch C) : result ImageError unit * FleetStage :=
  match fs_index st with
  | None => (Err Incomplete, st)
  | Some _ =>
      if negb (bool_decide (jb_from batch = fs_through st))
         || negb (bool_decide (jc_capture (jb_through batch) = jc_capture (fs_through st)))
         || bool_decide (jb_deltas batch = [])
      then (Err Corrupt, st)
      else
        match stage_deltas st (jc_position (fs_through st)) (jb_deltas batch) with
        | (Err e, st) => (Err e, st)
        | (Ok expected, st) =>
            if negb (expected =? jc_position (jb_through batch)) then (Err Corrupt, st)
            else (Ok tt, with_through st (jb_through batch))
        end
  end.

Definition stage_image (st : FleetStage) : Z * Z := (fs_rows st, fs_expected_bytes st).

(** [order] is the iteration order of the live bucket table. *)
Definition check_coverage (st : FleetStage) (order : list string) (live : KeyIndexState) (cuts : list NativeCut)
    (universe : list string) : result InstallRefusal unit :=
  candidate ← ok_or (fs_index st) unavailable;
  fleet_install_check order live candidate cuts universe (cap_rows (fs_caps st)).

Definition install_into (st : FleetStage) (order : list string) (live : KeyIndexState) (cuts : list NativeCut)
    (universe : list string)
    : result InstallRefusal (option IndexCapture) * FleetStage * KeyIndexState :=
  let '(r, index, live) := install_fleet_candidate order live (fs_index st) cuts universe (cap_rows (fs_caps st)) in
  (r, with_index st index (fs_rows st), live).
End stage.
Arguments FleetStage C : clear implicits.
