(* ===== verification/Replay.v ===== *)
(** * The donor's journal replays its effects

    While a capture is attached and not withdrawn, the calls it made to the
    journal are exactly the changes of the donor's registers since the snapshot.
    A follower that replays them on the decoded image reaches the donor's rows
    and tombstones, whatever ran on the donor in between. *)

From S2P Require Import Prelude.
From S2P Require Import ObjTypes.
From S2P Require Import ImageCodec.
From S2P Require Import CodecProps.
From S2P Require Import Rows.
From S2P Require Import IndexCapture.
From S2P Require Import KeyIndex.
From S2P Require Import IndexWf.
From S2P Require Import IndexSteps.
From S2P Require Import IndexInv.
From S2P Require Import IndexMachine.
From S2P Require Import IndexLww.
From S2P Require Import Stage.

(** ** What a capture recorded *)

Definition call_effect (j : JournalCall) : option bytes :=
  match j with
  | JAppend _ _ _ l | JRenew _ _ _ _ l => Some l
  | JInvalidate _ => None
  end.

(** The call carries the effect [d]. *)
Definition recorded (max nb : Z) (j : JournalCall) (d : IndexDelta) : Prop :=
  ∃ l, call_effect j = Some l ∧ Delta.encode_delta d max nb = Ok l.

(** The candidate was not withdrawn. *)
Definition sound (c : IndexCapture) : Prop := ∀ r, JInvalidate r ∉ cp_calls c.

(** [c'] is [c] with the effects [ds] recorded. *)
Definition grows (c c' : IndexCapture) (ds : list IndexDelta) : Prop :=
  cp_max_event_bytes c' = cp_max_event_bytes c ∧ cp_max_name_bytes c' = cp_max_name_bytes c ∧
  ∃ js, cp_calls c' = cp_calls c ++ js ∧
    Forall2 (recorded (cp_max_event_bytes c) (cp_max_name_bytes c)) js ds.

Lemma grows_refl c : grows c c [].
Proof. split_and!; [done..|]. exists []. by rewrite app_nil_r. Qed.

Lemma grows_trans c1 c2 c3 d1 d2 : grows c1 c2 d1 → grows c2 c3 d2 → grows c1 c3 (d1 ++ d2).
Proof.
  intros (H1 & H2 & j1 & Hj1 & F1) (H3 & H4 & j2 & Hj2 & F2). split_and!; [congruence..|].
  exists (j1 ++ j2). rewrite Hj2, Hj1, (assoc_L (++)). split; [done|]. apply Forall2_app; [done|].
  by rewrite H1, H2 in F2.
Qed.

Lemma grows_sound c c' ds : grows c c' ds → sound c' → sound c.
Proof. intros (_ & _ & js & Hj & _) Hs r Hr. apply (Hs r). rewrite Hj. set_solver. Qed.

Lemma invalidate_unsound c r : ¬ sound (Capture.invalidate c r).
Proof. intros H. apply (H r). cbn. set_solver. Qed.

Lemma append_grows c id d l :
  Delta.encode_delta d (cp_max_event_bytes c) (cp_max_name_bytes c) = Ok l →
  grows c (Capture.append_bytes c id l) [d].
Proof.
  intros Hl. split_and!; [done..|]. eexists. split; [done|]. constructor; [|constructor]. by exists l.
Qed.

Lemma append_local_grows c d l :
  Delta.encode_delta d (cp_max_event_bytes c) (cp_max_name_bytes c) = Ok l →
  sound (Capture.append_local c l) → grows c (Capture.append_local c l) [d].
Proof.
  unfold Capture.append_local. destruct (checked_add u64_max (cp_next_local c) 1) as [n|]; intros Hl Hs.
  - split_and!; [done..|]. eexists. split; [done|]. constructor; [|constructor]. by exists l.
  - by apply invalidate_unsound in Hs.
Qed.

Lemma W_new_nonzero max w : W.new max = Ok w → max ≠ 0.
Proof. unfold W.new. by destruct (Z.eqb_spec max 0). Qed.

Lemma W_text_nonzero w s nb w' : W.text w s nb = Ok w' → nb ≠ 0.
Proof. intros H. apply text_emits in H as ([[? ?] _] & _). lia. Qed.

Lemma encode_put_delta b k e max nb l :
  Delta.encode_put b k e max nb = Ok l → Delta.encode_delta (DPut b k e) max nb = Ok l.
Proof.
  intros H. unfold Delta.encode_delta. pose proof H as Hc. unfold Delta.encode_put in Hc.
  apply bind_ok in Hc as (w0 & H0%W_new_nonzero & Hc). apply bind_ok in Hc as (w1 & _ & Hc).
  apply bind_ok in Hc as (w2 & _ & Hc). apply bind_ok in Hc as (w3 & H3%W_text_nonzero & _).
  by rewrite (proj2 (Z.eqb_neq nb 0)), (proj2 (Z.eqb_neq max 0)).
Qed.

Lemma encode_delete_delta b k t max nb l :
  Delta.encode_delete b k t max nb = Ok l → Delta.encode_delta (DDelete b k t) max nb = Ok l.
Proof.
  intros H. unfold Delta.encode_delta. pose proof H as Hc. unfold Delta.encode_delete in Hc.
  apply bind_ok in Hc as (w0 & H0%W_new_nonzero & Hc). apply bind_ok in Hc as (w1 & _ & Hc).
  apply bind_ok in Hc as (w2 & _ & Hc). apply bind_ok in Hc as (w3 & H3%W_text_nonzero & _).
  by rewrite (proj2 (Z.eqb_neq nb 0)), (proj2 (Z.eqb_neq max 0)).
Qed.

Lemma record_put_grows c id b k e :
  sound (Capture.record_put c id b k e) → grows c (Capture.record_put c id b k e) [DPut b k e].
Proof.
  unfold Capture.record_put. destruct (_ || _); [by intros ?%invalidate_unsound|].
  destruct (Delta.encode_put _ _ _ _ _) as [l|] eqn:El; [|by intros ?%invalidate_unsound].
  apply encode_put_delta in El. destruct id; intros Hs; [by apply append_grows|by apply append_local_grows].
Qed.

Lemma record_delete_grows c id b k t :
  sound (Capture.record_delete c id b k t) → grows c (Capture.record_delete c id b k t) [DDelete b k t].
Proof.
  unfold Capture.record_delete. destruct (_ || _); [by intros ?%invalidate_unsound|].
  destruct (Delta.encode_delete _ _ _ _ _) as [l|] eqn:El; [|by intros ?%invalidate_unsound].
  apply encode_delete_delta in El. destruct id; intros Hs; [by apply append_grows|by apply append_local_grows].
Qed.

Lemma record_noop_grows c id :
  sound (Capture.record_native_noop c id) → grows c (Capture.record_native_noop c id) [DNoop].
Proof.
  unfold Capture.record_native_noop. destruct (Delta.encode_delta _ _ _) as [l|] eqn:El; [|by intros ?%invalidate_unsound].
  intros _. by apply append_grows.
Qed.

Lemma record_renewal_grows c sealed epoch :
  sound (Capture.record_renewal c sealed epoch) → grows c (Capture.record_renewal c sealed epoch) [DNoop].
Proof.
  unfold Capture.record_renewal. destruct (Delta.encode_delta _ _ _) as [l|] eqn:El; [|by intros ?%invalidate_unsound].
  intros _. split_and!; [done..|]. eexists. split; [done|]. constructor; [|constructor]. by exists l.
Qed.

(** ** The donor's side *)

Section donor.
Context {L : Layout}.
Implicit Types (s : KeyIndexState) (b : BucketState) (c : IndexCapture).

Definition reg_at s (name k : string) : reg := reg_of (bucket_or_default s name) k.

(** One journalled effect on one register. *)
Definition delta_reg (name k : string) (r : reg) (d : IndexDelta) : reg :=
  match d with
  | DPut n key e => if decide (n = name ∧ key = k) then reg_write r (WPut e) else r
  | DDelete n key t => if decide (n = name ∧ key = k) then reg_write r (WDel t) else r
  | DNoop => r
  end.

(** No bucket is being rebuilt or holds an uncertain key. *)
Definition served s : Prop :=
  ∀ name b, buckets s !! name = Some b → quiet b ∧ uncertain_keys b = ∅.

Definition regs_ok s : Prop := ∀ name k, reg_ok (reg_at s name k).

Lemma served_bucket s name : served s → quiet (bucket_or_default s name) ∧ uncertain_keys (bucket_or_default s name) = ∅.
Proof.
  intros Hs. unfold bucket_or_default. destruct (buckets s !! name) as [b|] eqn:E; cbn; [by apply (Hs name)|done].
Qed.

Lemma served_with s name b t cp n :
  served s → quiet b → uncertain_keys b = ∅ → served (mkIndex (<[name := b]> (buckets s)) t cp n).
Proof. intros Hs Hq Hu name' b'. cbn. intros [[<- <-]|[? ?]]%lookup_insert_Some; [done|by apply (Hs name')]. Qed.

Lemma reg_at_with s name b t cp n name' k :
  reg_at (mkIndex (<[name := b]> (buckets s)) t cp n) name' k =
  if decide (name = name') then reg_of b k else reg_at s name' k.
Proof.
  unfold reg_at, bucket_or_default. cbn [buckets].
  case_decide; [subst; by rewrite lookup_insert_eq|by rewrite lookup_insert_ne].
Qed.

Lemma served_same s s' : same_rows s s' → served s → served s'.
Proof. intros [Hb _] Hs name b H. rewrite Hb in H. by apply (Hs name). Qed.

Lemma reg_at_same s s' name k : same_rows s s' → reg_at s' name k = reg_at s name k.
Proof. intros H. unfold reg_at. by rewrite (same_rows_default _ _ _ H). Qed.

(** A capture that survived noting a position is unchanged. *)
Lemma note_cut_sound s cut c c' :
  capture s = Some c → capture (note_native_cut s cut).2 = Some c' → sound c' → c' = c.
Proof.
  intros Hc. unfold note_native_cut, invalidate_capture.
  assert (∀ r x, Some (Capture.invalidate c r) = Some x → sound x → x = c) as Hinv.
  { intros r x [= <-] Hs. by apply invalidate_unsound in Hs. }
  destruct (_ || _ || _ || _); cbn; [rewrite Hc; apply Hinv|].
  destruct (native_cuts s !! cut_writer cut) as [[oe oq]|]; cbn.
  - destruct ((cut_epoch cut =? oe) && _); cbn; [congruence|].
    destruct (negb _); cbn; [rewrite Hc; apply Hinv|].
    destruct (negb _); cbn; [rewrite Hc; apply Hinv|congruence].
  - destruct (_ <=? _); cbn; rewrite Hc; apply Hinv.
Qed.

Lemma note_identity_sound s id c c' :
  capture s = Some c → capture (note_identity s id).2 = Some c' → sound c' → c' = c.
Proof. destruct id as [[cut|]|]; cbn; [apply note_cut_sound|congruence..]. Qed.

Lemma prepared_sound s bucket id c c' :
  capture s = Some c → capture (prepared s bucket id) = Some c' → sound c' → c' = c.
Proof.
  intros Hc Hc' Hs. unfold prepared in Hc'. destruct (is_none _).
  - cbn in Hc'. destruct (capture (note_identity s id).2); [|done]. injection Hc' as <-.
    by apply invalidate_unsound in Hs.
  - by eapply note_identity_sound.
Qed.

(** The step recorded [ds], effects within [Q], and they are what happened. *)
Definition faithful_step (Q : IndexDelta → Prop) s c s' : Prop := ∀ c', capture s' = Some c' → sound c' → ∃ ds,
  grows c c' ds ∧ Forall Q ds ∧ served s' ∧
  ∀ name k, reg_at s' name k = foldl (delta_reg name k) (reg_at s name k) ds.

Section steps.
Context (Q : IndexDelta → Prop) (Qnoop : Q DNoop).

(** The rows are untouched and the capture recorded no-ops at most. *)
Lemma faithful_same s c s' :
  served s → same_rows s s' →
  (∀ c', capture s' = Some c' → sound c' → c' = c ∨ grows c c' [DNoop]) → faithful_step Q s c s'.
Proof.
  intros Hsv Hsame Hcap c' Hc' Hs. destruct (Hcap c' Hc' Hs) as [->|Hg].
  - exists []. split; [apply grows_refl|]. split_and!; [done|by eapply served_same|]. intros name k. by apply reg_at_same.
  - exists [DNoop]. split; [done|]. split_and!; [by constructor|by eapply served_same|]. intros name k. by apply reg_at_same.
Qed.

Lemma faithful_void s c s' : (∀ c', capture s' = Some c' → ¬ sound c') → faithful_step Q s c s'.
Proof. intros H c' Hc' Hs. by destruct (H c' Hc'). Qed.

Lemma invalidated_void s r : ∀ c', capture (invalidate_capture s r) = Some c' → ¬ sound c'.
Proof. intros c'. cbn. destruct (capture s); [|done]. intros [= <-]. apply invalidate_unsound. Qed.

Definition on_bucket (bucket : string) (d : IndexDelta) : Prop :=
  match d with DPut n _ _ | DDelete n _ _ => n = bucket | DNoop => True end.

Lemma delta_reg_other bucket d name k r : on_bucket bucket d → bucket ≠ name → delta_reg name k r d = r.
Proof. destruct d; cbn; [intros ->|intros ->|done]; intros Hne; by rewrite decide_False by naive_solver. Qed.

(** A step that replaces one bucket. *)
Lemma faithful_bucket s c bucket b' t cp n ds :
  served s → quiet b' → uncertain_keys b' = ∅ →
  (∀ c', cp = Some c' → sound c' → grows c c' ds) →
  Forall (on_bucket bucket) ds → Forall Q ds →
  (∀ k, reg_of b' k = foldl (delta_reg bucket k) (reg_of (bucket_or_default s bucket) k) ds) →
  faithful_step Q s c (mkIndex (<[bucket := b']> (buckets s)) t cp n).
Proof using Type.
  intros Hs Hq Hu Hcap Hon HQ Hreg c' Hc' Hsd. exists ds. split; [by apply Hcap|]. split_and!; [done|by apply served_with|].
  intros name k. rewrite reg_at_with. case_decide as Hn; [subst; apply Hreg|].
  clear Hreg Hcap HQ. induction Hon as [|d ds Hd _ IH]; [done|]. cbn. by rewrite (delta_reg_other bucket).
Qed.

Lemma put_bucket_served b key e a : quiet b → uncertain_keys b = ∅ → quiet (put_bucket b key e a) ∧ uncertain_keys (put_bucket b key e a) = ∅.
Proof.
  intros [Hq1 Hq2] Hu. unfold put_bucket. rewrite put_base_quiet by done.
  destruct (inserted_rest b key e) as (_ & _ & _ & Hr & Ht & _ & Hun).
  destruct (definitive a); [|by rewrite Hun; unfold quiet; rewrite Hr, Ht].
  unfold touch. cbn. rewrite Hr, Hq1. cbn. unfold quiet. cbn. rewrite Hr, Ht, Hun, Hu. by rewrite delete_empty.
Qed.

Lemma put_faithful s c bucket key e a id :
  Q (DPut bucket key e) → served s → capture s = Some c →
  faithful_step Q s c (apply_put_with_authority s bucket key e a id).2.
Proof using Qnoop.
  intros HQ Hs Hc. destruct (served_bucket s bucket Hs) as [Hq Hu].
  pose proof (proj1 (prepared_same s bucket id)) as Hb.
  destruct (put_outcome_spec s bucket key e a id) as [Hf|Hf Hr|Hf Hr]; cbn [snd].
  - apply faithful_same; [done|apply note_identity_same|]. intros c' Hc' Hsd. left. by eapply note_identity_sound.
  - unfold with_capture, with_bucket. cbn [buckets i_stats native_cuts]. rewrite Hb.
    apply (faithful_bucket s c bucket _ _ _ _ (match id with Some _ => [DNoop] | None => [] end)); [done..| | | |].
    + intros c' Hc' Hsd. destruct (capture (prepared s bucket id)) as [cp|] eqn:Ep; [|by destruct id].
      destruct id as [id|]; cbn in Hc'; injection Hc' as <-.
      * pose proof (record_noop_grows cp id Hsd) as Hg. pose proof (grows_sound _ _ _ Hg Hsd) as Hsp.
        assert (cp = c) as -> by by eapply prepared_sound. done.
      * assert (cp = c) as -> by by eapply prepared_sound. apply grows_refl.
    + by destruct id; repeat constructor.
    + by destruct id; repeat constructor.
    + by destruct id.
  - unfold with_capture, with_bucket, with_stats. cbn [buckets i_stats native_cuts]. rewrite Hb.
    destruct (put_bucket_served (bucket_or_default s bucket) key e a Hq Hu) as [Hq' Hu'].
    apply (faithful_bucket s c bucket _ _ _ _ [DPut bucket key e]); [done..| |by repeat constructor|by repeat constructor|].
    + intros c' Hc' Hsd. unfold capture_put in Hc'. destruct (capture (prepared s bucket id)) as [cp|] eqn:Ep; [|done].
      cbn in Hc'. injection Hc' as <-. pose proof (record_put_grows _ _ _ _ _ Hsd) as Hg.
      assert (cp = c) as -> by (eapply prepared_sound; [done|done|by eapply grows_sound]). done.
    + intros k. pose proof (put_reg (bucket_or_default s bucket) key e a k (quiet_ordinary _ key a Hq)) as Hreg.
      rewrite Hr in Hreg. rewrite Hreg. cbn [foldl delta_reg].
      case_decide; [subst; by rewrite decide_True|by rewrite decide_False by naive_solver].
Qed.

Lemma prepared_captured s bucket id c : capture s = Some c → is_none (capture (prepared s bucket id)) = false.
Proof.
  intros Hc. assert (∀ t, is_none (capture t) = is_none (capture s) →
    is_none (capture (if is_none (buckets t !! bucket) then invalidate_capture_for_rebuild t else t)) = false) as H.
  { intros t Ht. destruct (is_none (buckets t !! bucket)); cbn; rewrite Hc in Ht; destruct (capture t); done. }
  unfold prepared. apply H. destruct id as [[cut|]|]; cbn; try done. unfold note_native_cut.
  repeat (case_match; try done); cbn; by rewrite Hc.
Qed.

Definition delete_deltas (id : option DeltaIdentity) bucket key ts (changed : bool) : list IndexDelta :=
  if changed then [DDelete bucket key ts] else match id with Some _ => [DNoop] | None => [] end.

Lemma delete_recorded s c id bucket key ts (changed : bool) dead :
  capture s = Some c → (changed = true → dead = Some ts) →
  ∀ c', record_delete_effect (capture (prepared s bucket id)) id bucket key changed dead = Some c' → sound c' →
  grows c c' (delete_deltas id bucket key ts changed).
Proof.
  intros Hc Hd c' Hc' Hsd. destruct (capture (prepared s bucket id)) as [cp|] eqn:Ep; [|done].
  assert (∀ ds, grows cp c' ds → grows c c' ds) as Hback.
  { intros ds Hg. by rewrite <- (prepared_sound s bucket id c cp Hc Ep (grows_sound _ _ _ Hg Hsd)). }
  apply Hback. unfold record_delete_effect, delete_deltas in *. destruct changed.
  - rewrite Hd in Hc' by done. injection Hc' as <-. by apply record_delete_grows.
  - destruct id; injection Hc' as <-; [by apply record_noop_grows|apply grows_refl].
Qed.

Lemma delete_on_bucket id bucket key ts changed : Forall (on_bucket bucket) (delete_deltas id bucket key ts changed).
Proof. unfold delete_deltas. destruct changed, id; by repeat constructor. Qed.

Lemma delete_within id bucket key ts changed : Q (DDelete bucket key ts) → Forall Q (delete_deltas id bucket key ts changed).
Proof using Qnoop. intros HQ. unfold delete_deltas. destruct changed, id; by repeat constructor. Qed.

(** The registers move as recorded when the effect is recorded whenever it
    matters. *)
Lemma delete_regs b b' id bucket key ts (changed : bool) :
  (∀ k, reg_of b' k = if decide (k = key) then reg_write (reg_of b key) (WDel ts) else reg_of b k) →
  (changed = false → reg_write (reg_of b key) (WDel ts) = reg_of b key) →
  ∀ k, reg_of b' k = foldl (delta_reg bucket k) (reg_of b k) (delete_deltas id bucket key ts changed).
Proof.
  intros Hreg Hch k. rewrite Hreg. unfold delete_deltas. destruct changed.
  - cbn [foldl delta_reg]. case_decide; [subst; by rewrite decide_True|by rewrite decide_False by naive_solver].
  - rewrite Hch by done. destruct id; cbn; case_decide; by subst.
Qed.

Lemma del_marked_get b key ts :
  first_rebuild b key = false →
  Gone.get (gone (del_marked b key ts)) key = later (dead (reg_of b key)) ts.
Proof. intros Hf. unfold Gone.get. rewrite del_marked_map, Hf. by rewrite lookup_insert_eq. Qed.

Lemma del_raised_later b key ts :
  first_rebuild b key = false → del_raised b key ts = negb (bool_decide (later (dead (reg_of b key)) ts = dead (reg_of b key))).
Proof. intros Hf. unfold del_raised. by rewrite del_marked_get. Qed.

Lemma del_marked_served b key ts : quiet b → uncertain_keys b = ∅ → quiet (del_marked b key ts) ∧ uncertain_keys (del_marked b key ts) = ∅.
Proof.
  intros [H1 H2] Hu. destruct (del_marked_rest b key ts) as (_ & _ & _ & _ & Hr & Ht & _ & Hun).
  unfold quiet. by rewrite Hr, Ht, Hun.
Qed.

Lemma del_bucket_served b key ts : quiet b → uncertain_keys b = ∅ → quiet (del_bucket b key ts) ∧ uncertain_keys (del_bucket b key ts) = ∅.
Proof.
  intros Hq Hu. destruct (del_marked_served b key ts Hq Hu) as [[H1 H2] H3]. unfold del_bucket.
  match goal with |- context [row_removed ?x key] => destruct (row_removed_rest x key) as (_ & _ & _ & Hr & Ht & _ & Hun) end.
  unfold quiet. rewrite Hr, Ht, Hun. unfold touch. cbn [clear_fence with_uncertain rebuild_generation]. rewrite H1. cbn.
  by rewrite H1, H2, H3, delete_empty.
Qed.

Lemma del_faithful s c bucket key ts id sweep :
  Q (DDelete bucket key ts) → served s → capture s = Some c →
  faithful_step Q s c (apply_del_with_identity s bucket key ts id sweep).2.
Proof using Qnoop.
  intros HQ Hs Hc. destruct (served_bucket s bucket Hs) as [Hq Hu].
  pose proof (proj1 (prepared_same s bucket id)) as Hb.
  assert (∀ b, b = del_swept (bucket_or_default s bucket) (capture (prepared s bucket id)) ts sweep → b = bucket_or_default s bucket) as Hsw.
  { intros b ->. unfold del_swept. by rewrite (prepared_captured s bucket id c Hc), andb_false_r. }
  destruct (del_outcome_spec s bucket key ts id sweep) as [Hf|b Eb Hf Hr|b Eb Hf Hr]; cbn [snd];
    [|apply Hsw in Eb; subst b..].
  - apply faithful_same; [done|apply note_identity_same|]. intros c' Hc' Hsd. left. by eapply note_identity_sound.
  - set (b := bucket_or_default s bucket) in *. pose proof (quiet_first b key Hq) as Hfr.
    unfold with_capture, with_bucket. cbn [buckets i_stats native_cuts]. rewrite Hb.
    destruct (del_marked_served b key ts Hq Hu) as [Hq' Hu'].
    pose proof (λ k, del_reg b key ts k Hfr) as Hreg. rewrite Hr in Hreg.
    rewrite del_stale_reg in Hr by done.
    apply (faithful_bucket s c bucket _ _ _ _ (delete_deltas id bucket key ts (del_raised b key ts))); [done..| |apply delete_on_bucket|by apply delete_within|].
    + apply delete_recorded; [done|]. rewrite del_marked_get, del_raised_later by done.
      unfold later. intros H. apply negb_true_iff, bool_decide_eq_false in H. destruct (dead (reg_of b key)); [|done].
      f_equal. destruct (Z.max_spec z ts) as [[_ E]|[_ E]]; [done|]. by rewrite E in H.
    + apply delete_regs; [done|]. rewrite del_raised_later by done. intros H. apply negb_false_iff, bool_decide_eq_true in H.
      fold b. unfold reg_write. rewrite Hr, H. by destruct (reg_of b key).
  - set (b := bucket_or_default s bucket) in *. pose proof (quiet_first b key Hq) as Hfr.
    unfold with_capture, with_bucket, with_stats. cbn [buckets i_stats native_cuts]. rewrite Hb.
    destruct (del_bucket_served b key ts Hq Hu) as [Hq' Hu'].
    pose proof (λ k, del_reg b key ts k Hfr) as Hreg. rewrite Hr in Hreg.
    rewrite del_stale_reg in Hr by done. apply orb_false_iff in Hr as [Hr1 Hr2].
    set (ch := is_some (kr_map (keys b) !! key) || del_raised b key ts).
    apply (faithful_bucket s c bucket _ _ _ _ (delete_deltas id bucket key ts ch)); [done..| |apply delete_on_bucket|by apply delete_within|].
    + apply delete_recorded; [done|]. intros _. unfold Gone.get. rewrite del_bucket_gone.
      change (Gone.get (gone (del_marked b key ts)) key = Some ts). rewrite del_marked_get by done.
      unfold later. destruct (dead (reg_of b key)) as [d|]; [|done]. cbn in Hr2. f_equal. lia.
    + apply delete_regs; [done|]. unfold ch. intros [Hn H]%orb_false_iff. rewrite del_raised_later in H by done.
      apply negb_false_iff, bool_decide_eq_true in H.
      fold b. unfold reg_write. rewrite Hr1, Hr2. cbn [orb]. rewrite H. unfold reg_of in *. cbn [dead live] in *.
      by destruct (kr_map (keys b) !! key).
Qed.

(** A bucket rewritten without a change of any register. *)
Lemma faithful_still s c bucket b' t n :
  served s → capture s = Some c → quiet b' → uncertain_keys b' = ∅ →
  (∀ k, reg_of b' k = reg_of (bucket_or_default s bucket) k) →
  faithful_step Q s c (mkIndex (<[bucket := b']> (buckets s)) t (capture s) n).
Proof using Type.
  intros Hs Hc Hq Hu Hreg. apply (faithful_bucket s c bucket _ _ _ _ []); [done..| |constructor|constructor|done].
  rewrite Hc. intros c' [= <-] _. apply grows_refl.
Qed.

Lemma complete_faithful s c bucket key fill :
  (∀ e, kr_map (keys (bucket_or_default s bucket)) !! key = Some e → Q (DPut bucket key (filled_entry fill e))) →
  served s → regs_ok s → capture s = Some c → faithful_step Q s c (complete_entry s bucket key fill).2.
Proof using Qnoop.
  intros HQ Hs Hok Hc. rewrite complete_spec. destruct (served_bucket s bucket Hs) as [Hq Hu].
  specialize (Hok bucket key). unfold reg_at, bucket_or_default in *.
  destruct (buckets s !! bucket) as [b|] eqn:Eb; cbn in *.
  2:{ apply faithful_same; [done|done|]. intros c' Hc' _. left. congruence. }
  pose proof (completed_map b key fill) as Hmap.
  assert (bucket_or_default s bucket = b) as Hbd by (unfold bucket_or_default; by rewrite Eb).
  set (ks := (Keys.update (keys b) key (fill_entry fill)).2) in *.
  assert (kr_map ks = kr_map (keys b) → faithful_step Q s c (with_bucket s bucket (with_keys b ks))) as Hstill.
  { intros Hk. apply faithful_still; [done..|]. intros k. rewrite Hbd. unfold reg_of. cbn. by rewrite Hk. }
  destruct (kr_map (keys b) !! key) as [e|] eqn:Ee; cbn [snd]; [|by apply Hstill].
  destruct (same_version e fill); [|apply Hstill; by rewrite Hmap, insert_id].
  case_bool_decide as Hfe; [apply Hstill; by rewrite Hmap, Hfe, insert_id|]. cbn [snd].
  unfold with_capture, with_stats, with_bucket. cbn [buckets i_stats native_cuts].
  apply (faithful_bucket s c bucket _ _ _ _ [DPut bucket key (filled_entry fill e)]); [done..| |by repeat constructor|by constructor; [apply HQ|]|].
  - rewrite Hc. cbn. intros c' [= <-]. apply record_put_grows.
  - intros k. rewrite Hbd. cbn [foldl delta_reg]. unfold reg_of. cbn [with_b_stats with_keys keys gone]. rewrite Hmap.
    destruct (decide (k = key)) as [->|Hne].
    + rewrite decide_True by done. rewrite lookup_insert_eq, Ee. unfold reg_write. cbn [live dead].
      cbn [filled_entry last_modified].
      destruct (gr_map (gone b) !! key) as [d|] eqn:Ed; cbn [is_some_and].
      * specialize (Hok e d Ee Ed). rewrite (proj2 (Z.leb_gt _ _)) by done. by rewrite Z.ltb_irrefl.
      * by rewrite Z.ltb_irrefl.
    + rewrite lookup_insert_ne by done. by rewrite decide_False by naive_solver.
Qed.

Lemma fence_void s bucket key t s' : fence_key s bucket key = Some (t, s') → ∀ c', capture s' = Some c' → ¬ sound c'.
Proof.
  unfold fence_key. intros H. apply bind_Some in H as (tok & _ & [= <- <-]). apply (invalidated_void s IRebuild).
Qed.

Definition keeps_capture (ev : index_event) : bool := match ev with EvCapture _ => false | _ => true end.

(** The effects an operation may have. *)
Definition ev_deltas s (ev : index_event) : list IndexDelta :=
  match ev with
  | EvPut bucket key e _ _ => [DPut bucket key e]
  | EvDel bucket key ts _ _ => [DDelete bucket key ts]
  | EvComplete bucket key fill =>
      match kr_map (keys (bucket_or_default s bucket)) !! key with
      | Some e => [DPut bucket key (filled_entry fill e)]
      | None => []
      end
  | _ => []
  end.

(** Every index operation, while the capture stands. *)
Lemma exec_faithful s c ev s' :
  Forall Q (ev_deltas s ev) →
  served s → regs_ok s → capture s = Some c → keeps_capture ev = true → exec s ev = Some s' → faithful_step Q s c s'.
Proof using Qnoop.
  intros HQ Hs Hok Hc Hkeep Hx. destruct ev; cbn in Hx; try (injection Hx as <-); try done.
  - apply Forall_cons in HQ as [HQ _]. by apply put_faithful.
  - apply Forall_cons in HQ as [HQ _]. by apply del_faithful.
  - apply fmap_Some in Hx as ([t s1] & Hx & ->). cbn. apply faithful_void. by eapply fence_void.
  - unfold fence_uncertain_key_native in Hx. pose proof (note_native_cut_same s cut) as Hsame.
    pose proof (note_cut_sound s cut c) as Hnc. destruct (note_native_cut s cut) as [[] s1]; cbn in *.
    + apply fmap_Some in Hx as ([t s2] & Hx & ->). apply bind_Some in Hx as ([t' s3] & Hx & [= <- <-]). cbn.
      apply faithful_void. by eapply fence_void.
    + injection Hx as <-. apply faithful_same; [done..|]. intros c' Hc' Hsd. left. by apply Hnc.
  - unfold fence_own_uncertain_key in Hx. apply fmap_Some in Hx as ([[t u] s2] & Hx & ->).
    apply bind_Some in Hx as ([t' s3] & Hx & [= <- <- <-]). cbn. apply faithful_void. by eapply fence_void.
  - rewrite resolve_spec. destruct (buckets s !! bucket) as [b|] eqn:Eb; cbn.
    + destruct (Hs bucket b Eb) as [_ Hu]. rewrite Hu, lookup_empty. rewrite bool_decide_false by done. cbn.
      apply faithful_same; [done|done|]. intros c' Hc' _. left. congruence.
    + apply faithful_same; [done|done|]. intros c' Hc' _. left. congruence.
  - apply faithful_void. apply (invalidated_void s IRebuild).
  - apply faithful_void. unfold sync_listing_into_generation. case_match; [apply (invalidated_void s IRebuild)|].
    destruct (foldl _ _ _). apply (invalidated_void s IRebuild).
  - unfold finish_bucket_sync_generation. destruct (served_bucket s bucket Hs) as [Hq Hu].
    unfold owns_rebuild. destruct Hq as [Hq1 Hq2]. rewrite Hq1. rewrite (bool_decide_false (None = Some generation)) by done.
    rewrite andb_false_r. cbn. by apply faithful_still.
  - apply complete_faithful; [|done..]. intros e He. cbn in HQ. rewrite He in HQ. by apply Forall_cons in HQ as [HQ _].
  - apply faithful_void. apply (invalidated_void (skip_native_gap s missed_through) IRebuild).
  - unfold remove_bucket. destruct (buckets s !! bucket) as [b|] eqn:Eb; cbn.
    + rewrite Eb. apply faithful_void. apply (invalidated_void s IRebuild).
    + rewrite Eb. apply faithful_same; [done|done|]. intros c' Hc' _. left. congruence.
  - unfold register_native_writer. destruct (_ || _ || _ || _).
    + apply faithful_same; [done|done|]. intros c' Hc' _. left. congruence.
    + destruct (_ <=? _); apply faithful_void, invalidated_void.
  - unfold note_native_seal. pose proof (note_native_cut_same s cut) as Hsame.
    pose proof (note_cut_sound s cut c) as Hnc. destruct (note_native_cut s cut) as [[] s1]; cbn in *.
    + apply faithful_same; [done|done|]. intros c' Hc' Hsd. right. cbn in Hc'.
      destruct (capture s1) as [c1|]; [|done]. injection Hc' as <-.
      pose proof (record_noop_grows _ _ Hsd) as Hg. by rewrite (Hnc c1 Hc eq_refl (grows_sound _ _ _ Hg Hsd)) in Hg |- *.
    + apply faithful_same; [done..|]. intros c' Hc' Hsd. left. by apply Hnc.
  - unfold renew_native_writer. destruct (native_cuts s !! _) as [cut|].
    + destruct (_ <=? _); [apply faithful_same; [done|done|]; intros c' Hc' _; left; congruence|].
      destruct (bool_decide _); [|apply faithful_void, invalidated_void].
      apply faithful_same; [done|done|]. cbn. rewrite Hc. intros c' [= <-] Hsd. right. by apply record_renewal_grows.
    + apply faithful_same; [done|done|]. intros c' Hc' _. left. congruence.
Qed.

End steps.

Lemma reg_write_ok r w : reg_ok r → reg_ok (reg_write r w).
Proof.
  intros Hr. destruct r as [[o|] [d0|]], w as [x|t]; cbn in *;
    repeat match goal with
           | |- context [?a <=? ?b] => destruct (Z.leb_spec a b); cbn
           | |- context [?a <? ?b] => destruct (Z.ltb_spec a b); cbn
           end; try done; intros e d [= <-] [= <-]; try lia.
  all: specialize (Hr _ _ eq_refl eq_refl); lia.
Qed.

Lemma delta_reg_ok name k r d : reg_ok r → reg_ok (delta_reg name k r d).
Proof. intros Hr. destruct d; cbn [delta_reg]; [case_decide; [by apply reg_write_ok|done]..|done]. Qed.

Lemma deltas_reg_ok name k ds r : reg_ok r → reg_ok (foldl (delta_reg name k) r ds).
Proof. revert r. induction ds as [|d ds IH]; intros r Hr; [done|]. by apply IH, delta_reg_ok. Qed.

(** No operation detaches a capture or takes back a call. *)
Definition calls_kept (o o' : option IndexCapture) : Prop :=
  ∀ c, o = Some c → ∃ c', o' = Some c' ∧ cp_calls c `prefix_of` cp_calls c'.

Lemma calls_kept_refl o : calls_kept o o.
Proof. intros c ->. by exists c. Qed.

Lemma calls_kept_trans o1 o2 o3 : calls_kept o1 o2 → calls_kept o2 o3 → calls_kept o1 o3.
Proof.
  intros H1 H2 c Hc. destruct (H1 c Hc) as (c2 & Hc2 & Hp). destruct (H2 c2 Hc2) as (c3 & Hc3 & Hp3).
  exists c3. split; [done|]. by etrans.
Qed.

Lemma calls_kept_map (f : IndexCapture → IndexCapture) o :
  (∀ c, cp_calls c `prefix_of` cp_calls (f c)) → calls_kept o (f <$> o).
Proof. intros Hf c ->. by exists (f c). Qed.

Lemma invalidate_calls c r : cp_calls c `prefix_of` cp_calls (Capture.invalidate c r).
Proof. cbn. by eexists. Qed.

Lemma append_local_calls c l : cp_calls c `prefix_of` cp_calls (Capture.append_local c l).
Proof. unfold Capture.append_local. case_match; by eexists. Qed.

Lemma record_put_calls c id bucket key e : cp_calls c `prefix_of` cp_calls (Capture.record_put c id bucket key e).
Proof.
  unfold Capture.record_put. repeat case_match; try apply invalidate_calls; [by eexists|apply append_local_calls].
Qed.

Lemma record_delete_calls c id bucket key t : cp_calls c `prefix_of` cp_calls (Capture.record_delete c id bucket key t).
Proof.
  unfold Capture.record_delete. repeat case_match; try apply invalidate_calls; [by eexists|apply append_local_calls].
Qed.

Lemma record_noop_calls c id : cp_calls c `prefix_of` cp_calls (Capture.record_native_noop c id).
Proof. unfold Capture.record_native_noop. case_match; by eexists. Qed.

Lemma record_renewal_calls c sealed epoch : cp_calls c `prefix_of` cp_calls (Capture.record_renewal c sealed epoch).
Proof. unfold Capture.record_renewal. case_match; by eexists. Qed.

Definition extends s s' : Prop := calls_kept (capture s) (capture s').

Lemma invalidate_extends s r : extends s (invalidate_capture s r).
Proof. apply calls_kept_map. intros c. apply invalidate_calls. Qed.

Lemma note_cut_extends s cut : extends s (note_native_cut s cut).2.
Proof.
  unfold note_native_cut. repeat (case_match; cbn [snd]; try apply calls_kept_refl); apply (invalidate_extends s).
Qed.

Lemma note_identity_extends s id : extends s (note_identity s id).2.
Proof. destruct id as [[cut|]|]; [apply note_cut_extends|apply calls_kept_refl..]. Qed.

Lemma prepared_extends s bucket id : extends s (prepared s bucket id).
Proof.
  unfold prepared. case_match; [|apply note_identity_extends].
  eapply calls_kept_trans; [apply note_identity_extends|apply invalidate_extends].
Qed.

Lemma fence_extends s bucket key t s' : fence_key s bucket key = Some (t, s') → extends s s'.
Proof. intros H. unfold fence_key in H. apply bind_Some in H as (? & _ & [= _ <-]). apply (invalidate_extends s IRebuild). Qed.

Lemma put_extends s bucket key e a id : extends s (apply_put_with_authority s bucket key e a id).2.
Proof.
  destruct (put_outcome_spec s bucket key e a id); [apply note_identity_extends|..];
    (eapply calls_kept_trans; [apply (prepared_extends s bucket id)|]); cbn.
  - intros c ->. destruct id; cbn; [eexists; split; [done|apply record_noop_calls]|by exists c].
  - apply calls_kept_map. intros c. apply record_put_calls.
Qed.

Lemma delete_effect_extends o id bucket key changed dead : calls_kept o (record_delete_effect o id bucket key changed dead).
Proof.
  intros c ->. cbn. repeat case_match; eexists; (split; [done|]); [apply record_delete_calls|done|apply record_noop_calls|done].
Qed.

Lemma del_extends s bucket key ts id sweep : extends s (apply_del_with_identity s bucket key ts id sweep).2.
Proof.
  destruct (del_outcome_spec s bucket key ts id sweep); [apply note_identity_extends|..];
    (eapply calls_kept_trans; [apply (prepared_extends s bucket id)|]); apply delete_effect_extends.
Qed.

Lemma exec_extends s ev s' : keeps_capture ev = true → exec s ev = Some s' → extends s s'.
Proof.
  intros Hk Hx. destruct ev; cbn in Hx; try (injection Hx as <-); try done.
  - apply put_extends.
  - apply del_extends.
  - apply fmap_Some in Hx as ([t s1] & Hx & ->). by eapply fence_extends.
  - unfold fence_uncertain_key_native in Hx. pose proof (note_cut_extends s cut) as Hn.
    destruct (note_native_cut s cut) as [[] s1]; cbn in *; [|by injection Hx as <-].
    apply fmap_Some in Hx as ([t s2] & Hx & ->). apply bind_Some in Hx as ([t' s3] & Hx & [= <- <-]).
    eapply calls_kept_trans; [exact Hn|]. by eapply fence_extends.
  - unfold fence_own_uncertain_key in Hx. apply fmap_Some in Hx as ([[t u] s2] & Hx & ->).
    apply bind_Some in Hx as ([t' s3] & Hx & [= <- <- <-]).
    eapply calls_kept_trans; [apply (note_cut_extends s cut)|]. by eapply fence_extends.
  - rewrite resolve_spec. repeat case_match; apply calls_kept_refl.
  - apply (invalidate_extends s IRebuild).
  - unfold sync_listing_into_generation. case_match; [apply (invalidate_extends s IRebuild)|].
    destruct (foldl _ _ _). apply (invalidate_extends s IRebuild).
  - unfold finish_bucket_sync_generation. case_match; apply calls_kept_refl.
  - rewrite complete_spec. repeat case_match; try apply calls_kept_refl. apply calls_kept_map. intros c. apply record_put_calls.
  - eapply calls_kept_trans; [|apply (invalidate_extends (skip_native_gap s missed_through) IRebuild)].
    unfold skip_native_gap. repeat case_match; try apply calls_kept_refl. apply (invalidate_extends s).
  - unfold remove_bucket. destruct (buckets s !! bucket) eqn:E; cbn; rewrite E; [apply (invalidate_extends s IRebuild)|apply calls_kept_refl].
  - unfold register_native_writer. repeat case_match; try apply calls_kept_refl; apply (invalidate_extends s).
  - unfold note_native_seal. pose proof (note_cut_extends s cut) as Hn. destruct (note_native_cut s cut) as [[] s1]; [|done].
    eapply calls_kept_trans; [exact Hn|]. apply calls_kept_map. intros c. apply record_noop_calls.
  - unfold renew_native_writer. repeat case_match; try apply calls_kept_refl; [|apply (invalidate_extends s)].
    apply calls_kept_map. intros c. apply record_renewal_calls.
Qed.

Lemma run_extends evs : ∀ s s',
  Forall (λ ev, keeps_capture ev = true) evs → run s evs = Some s' → extends s s'.
Proof.
  induction evs as [|ev evs IH]; intros s s' Hk Hr; cbn in Hr; [injection Hr as <-; apply calls_kept_refl|].
  apply bind_Some in Hr as (s1 & Hx & Hr). apply Forall_cons in Hk as [Hk Hks].
  eapply calls_kept_trans; [by eapply exec_extends|by apply IH].
Qed.

(** Every effect the run may have is within [Q]. *)
Fixpoint effects_within (Q : IndexDelta → Prop) s (evs : list index_event) : Prop :=
  match evs with
  | [] => True
  | ev :: evs => Forall Q (ev_deltas s ev) ∧ from_option (λ s, effects_within Q s evs) True (exec s ev)
  end.

(** A whole run under a capture that still stands at its end. *)
Lemma run_faithful (Q : IndexDelta → Prop) evs : Q DNoop → ∀ s c s' c',
  effects_within Q s evs → served s → regs_ok s → capture s = Some c → Forall (λ ev, keeps_capture ev = true) evs →
  run s evs = Some s' → capture s' = Some c' → sound c' →
  ∃ ds, grows c c' ds ∧ Forall Q ds ∧ ∀ name k, reg_at s' name k = foldl (delta_reg name k) (reg_at s name k) ds.
Proof.
  intros Qn. induction evs as [|ev evs IH]; intros s c s' c' HQ Hs Hok Hc Hk Hr Hc' Hsd; cbn in Hr.
  { injection Hr as <-. assert (c' = c) as -> by congruence. exists []. split; [apply grows_refl|done]. }
  apply bind_Some in Hr as (s1 & Hx & Hr). cbn in HQ. rewrite Hx in HQ. destruct HQ as [HQ HQs]. apply Forall_cons in Hk as [Hk Hks].
  destruct (exec_extends s ev s1 Hk Hx c Hc) as (c1 & Hc1 & _).
  destruct (run_extends evs s1 s' Hks Hr c1 Hc1) as (c2 & Hc2 & js & Hjs). assert (c2 = c') as -> by congruence.
  assert (sound c1) as H1. { intros r Hin. apply (Hsd r). rewrite Hjs. set_solver. }
  destruct (exec_faithful Q Qn s c ev s1 HQ Hs Hok Hc Hk Hx c1 Hc1 H1) as (d1 & Hg1 & HQ1 & Hs1 & Hreg1).
  destruct (IH s1 c1 s' c') as (d2 & Hg2 & HQ2 & Hreg2); [done|done| |done..|].
  { intros name k. rewrite Hreg1. by apply deltas_reg_ok, Hok. }
  exists (d1 ++ d2). split; [by eapply grows_trans|]. split; [by apply Forall_app|]. intros name k. by rewrite Hreg2, Hreg1, foldl_app.
Qed.
End donor.

(** ** The follower's side *)

Section follower.
Context {L : Layout}.
Implicit Types (t : KeyIndexState) (r : reg).

(** One effect on a private stage acts on one register. *)
Lemma delta_apply_reg d t :
  served t → served (delta_apply d t).2 ∧ ∀ name k, reg_at (delta_apply d t).2 name k = delta_reg name k (reg_at t name k) d.
Proof.
  intros Hs. destruct d as [bucket key e|bucket key at_|]; cbn [delta_apply]; [| |done].
  - destruct (served_bucket t bucket Hs) as [Hq Hu]. pose proof (proj1 (prepared_same t bucket None)) as Hb.
    pose proof (λ k, put_reg (bucket_or_default t bucket) key e DefinitiveMutation k (quiet_ordinary _ key DefinitiveMutation Hq)) as Hreg.
    unfold apply_put.
    destruct (put_outcome_spec t bucket key e DefinitiveMutation None) as [Hf|Hf Hr|Hf Hr]; [done|..]; rewrite Hr in Hreg; cbn [snd];
      unfold with_capture, with_bucket, with_stats; cbn [buckets i_stats native_cuts]; rewrite Hb.
    + split; [by apply served_with|]. intros name k. rewrite reg_at_with. cbn [delta_reg].
      case_decide as Hn; [subst|by rewrite decide_False by naive_solver]. specialize (Hreg k).
      destruct (decide (k = key)) as [->|]; [by rewrite decide_True|by rewrite decide_False by naive_solver].
    + destruct (put_bucket_served (bucket_or_default t bucket) key e DefinitiveMutation Hq Hu) as [Hq' Hu'].
      split; [by apply served_with|]. intros name k. rewrite reg_at_with. cbn [delta_reg].
      case_decide as Hn; [subst; rewrite Hreg|by rewrite decide_False by naive_solver].
      case_decide; [subst; by rewrite decide_True|by rewrite decide_False by naive_solver].
  - destruct (served_bucket t bucket Hs) as [Hq Hu]. pose proof (proj1 (prepared_same t bucket None)) as Hb.
    pose proof (λ k, del_reg (bucket_or_default t bucket) key at_ k (quiet_first _ key Hq)) as Hreg.
    unfold apply_replayed_del.
    assert (∀ b c, b = del_swept (bucket_or_default t bucket) c at_ Hold → b = bucket_or_default t bucket) as Hsw by by intros b c ->.
    destruct (del_outcome_spec t bucket key at_ None Hold) as [Hf|b Eb Hf Hr|b Eb Hf Hr]; [done|..];
      apply Hsw in Eb; subst b; rewrite Hr in Hreg; cbn [snd];
      unfold with_capture, with_bucket, with_stats; cbn [buckets i_stats native_cuts]; rewrite Hb.
    1: destruct (del_marked_served (bucket_or_default t bucket) key at_ Hq Hu) as [Hq' Hu'].
    2: destruct (del_bucket_served (bucket_or_default t bucket) key at_ Hq Hu) as [Hq' Hu'].
    all: split; [by apply served_with|]; intros name k; rewrite reg_at_with; cbn [delta_reg].
    all: case_decide as Hn; [subst; rewrite Hreg|by rewrite decide_False by naive_solver].
    all: case_decide; [subst; by rewrite decide_True|by rewrite decide_False by naive_solver].
Qed.

(** The effects of a journal in order. *)
Definition replay t (ds : list IndexDelta) : KeyIndexState := foldl (λ t d, (delta_apply d t).2) t ds.

Lemma replay_reg ds : ∀ t,
  served t → served (replay t ds) ∧ ∀ name k, reg_at (replay t ds) name k = foldl (delta_reg name k) (reg_at t name k) ds.
Proof.
  induction ds as [|d ds IH]; intros t Hs; [done|]. destruct (delta_apply_reg d t Hs) as [Hs1 Hreg].
  destruct (IH _ Hs1) as [Hs2 Hreg2]. split; [done|]. intros name k. cbn. unfold replay in *. cbn. by rewrite Hreg2, Hreg.
Qed.

(** What the wire carries of a register. *)
Definition skeletal_reg (r : reg) : reg := mkReg (skeletal <$> live r) (dead r).

Lemma skeletal_write r w :
  skeletal_reg (reg_write r w) =
  reg_write (skeletal_reg r) (match w with WPut e => WPut (skeletal e) | WDel t => WDel t end).
Proof. destruct r as [[o|] [d|]], w as [e|t]; cbn; repeat case_match; cbn; done. Qed.

Lemma skeletal_delta_reg name k r d :
  skeletal_reg (delta_reg name k r d) = delta_reg name k (skeletal_reg r) (skeletal_delta d).
Proof. destruct d; cbn [delta_reg skeletal_delta]; [case_decide; [by rewrite skeletal_write|done]..|done]. Qed.

Lemma skeletal_deltas name k ds r :
  skeletal_reg (foldl (delta_reg name k) r ds) = foldl (delta_reg name k) (skeletal_reg r) (skeletal_delta <$> ds).
Proof. revert r. induction ds as [|d ds IH]; intros r; [done|]. cbn. by rewrite IH, skeletal_delta_reg. Qed.

Lemma effects_within_True t evs : effects_within (λ _, True) t evs.
Proof.
  revert t. induction evs as [|ev evs IH]; intros t; [done|]. cbn [effects_within]. split; [by apply Forall_true|].
  destruct (exec t ev); [apply IH|done].
Qed.

Lemma regs_ok_wf t : index_wf t → regs_ok t.
Proof.
  intros Hw name k e d He Hd. pose proof (bucket_or_default_wf t name Hw) as Hb. exact (bw_order _ Hb k e d He Hd).
Qed.

(** The donor's journal is faithful.  Take a well-formed donor without
    rebuilds or fences at the moment its capture starts, let any index
    operations run, and let the capture still stand at the end.  Then every call
    of its journal carries an effect, and a follower that starts from the image
    of the donor's rows and replays the effects in order, as the wire carries
    them, reaches for every key the donor's present row and tombstone. *)
Theorem journal_replays s0 c0 evs s1 c1 t :
  index_wf s0 → served s0 → capture s0 = Some c0 → cp_calls c0 = [] →
  Forall (λ ev, keeps_capture ev = true) evs → run s0 evs = Some s1 →
  capture s1 = Some c1 → sound c1 →
  served t → (∀ name k, reg_at t name k = skeletal_reg (reg_at s0 name k)) →
  ∃ ds, Forall2 (recorded (cp_max_event_bytes c0) (cp_max_name_bytes c0)) (cp_calls c1) ds ∧
    ∀ name k, reg_at (replay t (skeletal_delta <$> ds)) name k = skeletal_reg (reg_at s1 name k).
Proof.
  intros Hw Hs Hc Hnil Hk Hr Hc1 Hsd Ht Himg.
  destruct (run_faithful (λ _, True) evs I s0 c0 s1 c1 (effects_within_True s0 evs) Hs (regs_ok_wf s0 Hw) Hc Hk Hr Hc1 Hsd)
    as (ds & (_ & _ & js & Hjs & HF) & _ & Hreg).
  exists ds. rewrite Hjs, Hnil. split; [done|]. intros name k.
  rewrite (proj2 (replay_reg (skeletal_delta <$> ds) t Ht)), Himg, Hreg. by rewrite skeletal_deltas.
Qed.
End follower.
