(* ===== verification/StageProps.v ===== *)
(** * Correctness of the private stage

    Chunks arrive in order and the stage holds exactly the donor's bytes; a
    batch that is accepted moves the stage along the journal by exactly its
    effects, with an exact row count within the cap; and a follower that took
    the image and the journal holds the donor's rows and tombstones. *)

From S2P Require Import Prelude.
From S2P Require Import ObjTypes.
From S2P Require Import ImageCodec.
From S2P Require Import CodecProps.
From S2P Require Import Rows.
From S2P Require Import IndexCapture.
From S2P Require Import KeyIndex.
From S2P Require Import IndexWf.
From S2P Require Import IndexSteps.
From S2P Require Import IndexInv.
From S2P Require Import IndexMachine.
From S2P Require Import IndexLww.
From S2P Require Import Image.
From S2P Require Import ImageProps.
From S2P Require Import ImageSizing.
From S2P Require Import ImageRound.
From S2P Require Import Install.
From S2P Require Import Stage.
From S2P Require Import Replay.

Section stage_props.
Context {L : Layout} {LO : LayoutOk L} {P : EtagParse} {H : ImageHash} {A : AlignCuts}.
Context {C : Type} `{EqDecision C}.
Implicit Types (st : FleetStage C) (t : KeyIndexState).

(** ** Transfer *)

(** Chunks handed over from position [sequence] on. *)
Fixpoint store_chunks st (sequence : Z) (chunks : list bytes) : result ImageError unit * FleetStage C :=
  match chunks with
  | [] => (Ok tt, st)
  | chunk :: chunks =>
      match store_chunk st sequence chunk with
      | (Ok _, st) => store_chunks st (sequence + 1) chunks
      | failed => failed
      end
  end.

Lemma store_chunks_Ok chunks : ∀ st,
  Forall (λ c, c ≠ []) chunks → 0 <= fs_next_chunk st →
  fs_next_chunk st + Z.of_nat (length chunks) <= fs_expected_chunks st →
  Z.of_nat (length (fs_encoded st ++ concat chunks)) <= Z.min usize_max (fs_expected_bytes st) →
  store_chunks st (fs_next_chunk st) chunks =
    (Ok tt, with_encoded st (fs_encoded st ++ concat chunks) (fs_next_chunk st + Z.of_nat (length chunks))).
Proof.
  induction chunks as [|c chunks IH]; intros st Hne Hpos Hn Hlen; cbn [store_chunks].
  { cbn [concat length]. rewrite app_nil_r, Z.add_0_r. by destruct st. }
  apply Forall_cons in Hne as [Hc Hne]. cbn [concat length] in Hn, Hlen. rewrite !length_app in Hlen.
  assert (store_chunk st (fs_next_chunk st) c = (Ok tt, with_encoded st (fs_encoded st ++ c) (fs_next_chunk st + 1))) as ->.
  { unfold store_chunk. rewrite Z.eqb_refl, bool_decide_false by done. rewrite (proj2 (Z.leb_gt _ _)) by lia. cbn [negb orb].
    assert (checked_add usize_max (Z.of_nat (length (fs_encoded st))) (Z.of_nat (length c)) =
      Some (Z.of_nat (length (fs_encoded st)) + Z.of_nat (length c))) as -> by (apply checked_add_Some; lia).
    by rewrite (proj2 (Z.ltb_ge _ _)) by lia. }
  change (fs_next_chunk st + 1) with (fs_next_chunk (with_encoded st (fs_encoded st ++ c) (fs_next_chunk st + 1))) at 2.
  rewrite IH; cbn [with_encoded fs_next_chunk fs_expected_chunks fs_expected_bytes fs_encoded]; [|done|lia|lia|].
  - cbn [concat length]. rewrite <- app_assoc. do 2 f_equal. lia.
  - rewrite <- app_assoc, !length_app. lia.
Qed.

Lemma store_chunk_cases st i c :
  match store_chunk st i c with
  | (Ok _, st') => i = fs_next_chunk st ∧ c ≠ [] ∧ i < fs_expected_chunks st ∧
      Z.of_nat (length (fs_encoded st ++ c)) <= fs_expected_bytes st ∧
      st' = with_encoded st (fs_encoded st ++ c) (i + 1)
  | (Err _, st') => st' = st
  end.
Proof.
  unfold store_chunk. destruct (_ || _ || _) eqn:Eg; [done|]. bool_prop.
  destruct (checked_add _ _ _) as [e|] eqn:Ea; [|done]. apply checked_add_Some in Ea as [-> _].
  destruct (Z.ltb_spec (fs_expected_bytes st) (Z.of_nat (length (fs_encoded st)) + Z.of_nat (length c))); [done|].
  rewrite length_app. split_and!; try done; try lia. by subst.
Qed.

(** The caps the image is decoded under. *)
Definition reserved_caps (expected decoded : Z) (caps : ImageCaps) : ImageCaps :=
  mkCaps expected decoded (cap_buckets caps) (cap_rows caps) (cap_name_bytes caps).

(** A transfer delivers the donor's bytes.  A stage reserved for [l] takes
    the nonempty chunks of [l] in order and nothing else: any other position, an
    empty chunk, or a byte too many is refused and leaves the stage as it was.
    Verification then succeeds for exactly one commitment, the hash of [l], and
    exactly when [l] decodes, and the private index is what [l] decodes to, with
    its rows counted. *)
Theorem stage_transfer caps cut decoded max_event now (chunks : list bytes) st0 commitment :
  stage_new (Z.of_nat (length (concat chunks))) (Z.of_nat (length chunks)) cut decoded caps max_event now = Ok st0 →
  Z.of_nat (length (concat chunks)) <= usize_max → Forall (λ c, c ≠ []) chunks →
  ∃ st, store_chunks st0 0 chunks = (Ok tt, st) ∧ fs_encoded st = concat chunks ∧
    (∀ i c, store_chunk st i c = (Err Corrupt, st)) ∧
    (∀ st1 i c, match store_chunk st1 i c with
                | (Ok _, st2) => i = fs_next_chunk st1 ∧ c ≠ [] ∧ i < fs_expected_chunks st1 ∧
                    Z.of_nat (length (fs_encoded st1 ++ c)) <= fs_expected_bytes st1 ∧
                    st2 = with_encoded st1 (fs_encoded st1 ++ c) (i + 1)
                | (Err _, st2) => st2 = st1
                end) ∧
    verify st commitment =
      if bool_decide (image_hash (concat chunks) = commitment)
      then match decode (concat chunks) (reserved_caps (Z.of_nat (length (concat chunks))) decoded caps) with
           | Ok t => (Ok tt, with_index st (Some t) (table_rows (buckets t)))
           | Err e => (Err e, st)
           end
      else (Err Corrupt, st).
Proof.
  intros Hnew Hmax Hne. unfold stage_new in Hnew. apply bind_ok in Hnew as ([] & _ & [= <-]).
  eexists. split; [by apply store_chunks_Ok; cbn; try lia|]. split; [done|]. split.
  - intros i c. unfold store_chunk. cbn. destruct (Z.eqb_spec i (0 + Z.of_nat (length chunks))) as [->|]; [|done]. cbn.
    rewrite orb_comm. by rewrite (proj2 (Z.leb_le _ _)) by lia.
  - split; [apply store_chunk_cases|]. unfold verify. cbn [with_encoded fs_index fs_next_chunk fs_expected_chunks fs_encoded fs_expected_bytes is_some orb app].
    rewrite Z.add_0_l, !Z.eqb_refl. cbn [negb orb]. by destruct (bool_decide _); cbn [negb].
Qed.

(** ** Replay *)

(** An effect touches its bucket alone. *)
Lemma delta_apply_bucket d t :
  match (delta_apply d t).1.2 with
  | Some bucket => on_bucket bucket d ∧ d ≠ DNoop ∧ ∃ b', buckets (delta_apply d t).2 = <[bucket := b']> (buckets t)
  | None => d = DNoop ∧ (delta_apply d t).2 = t
  end.
Proof.
  destruct d as [bucket key e|bucket key at_|]; cbn [delta_apply]; [| |done].
  - unfold apply_put. pose proof (proj1 (prepared_same t bucket None)) as Hb.
    destruct (put_outcome_spec t bucket key e DefinitiveMutation None); [done|..]; cbn; rewrite Hb; eauto.
  - unfold apply_replayed_del. pose proof (proj1 (prepared_same t bucket None)) as Hb.
    destruct (del_outcome_spec t bucket key at_ None Hold); [done|..]; cbn; rewrite Hb; eauto.
Qed.

(** The stage serves no one, counts its rows exactly and stays within its cap. *)
Definition stage_ok st t : Prop :=
  fs_index st = Some t ∧ served t ∧ fs_rows st = table_rows (buckets t) ∧ fs_rows st <= cap_rows (fs_caps st).

Definition decodes st (jd : JournalDelta) (d : IndexDelta) : Prop :=
  Delta.decode_delta (jd_effect jd) (fs_max_event_bytes st) (cap_name_bytes (fs_caps st))
    (cap_decoded_bytes (fs_caps st)) = Ok d.

(** The parts of a stage that replay leaves alone. *)
Definition same_stage st st' : Prop :=
  fs_caps st' = fs_caps st ∧ fs_max_event_bytes st' = fs_max_event_bytes st ∧ fs_through st' = fs_through st.

Lemma stage_delta_Ok st t expected jd expected' st' :
  stage_ok st t → stage_delta st expected jd = (Ok expected', st') →
  ∃ d, decodes st jd d ∧ expected' = expected + 1 ∧ jd_position jd = expected' ∧ expected' <= u64_max ∧
    stage_ok st' (delta_apply d t).2 ∧ same_stage st st'.
Proof.
  intros (Hi & Hs & Hrows & Hcap) Hd. unfold stage_delta in Hd. rewrite Hi in Hd.
  match type of Hd with (match ?m with Ok _ => _ | Err _ => _ end) = _ => destruct m as [[[x d] before]|] eqn:Em; [|done] end.
  apply bind_ok in Em as (ex & Hex & Em). apply ok_or_ok, checked_add_Some in Hex as [-> Hex].
  apply bind_ok in Em as ([] & Hpos & Em). apply refuse_if_ok in Hpos. bool_prop.
  apply bind_ok in Em as (d' & Hdec & Em). apply bind_ok in Em as ([bef grow] & Hbef & Em).
  apply bind_ok in Em as ([] & _ & [= <- <- <-]).
  destruct (delta_apply_reg d' t Hs) as [Hs' _]. pose proof (delta_apply_bucket d' t) as Hb.
  exists d'. destruct (delta_apply d' t) as [[ch bucket] t']. cbn [fst snd] in *.
  destruct bucket as [bucket|].
  - destruct Hb as (Hon & Hnoop & b' & Hb').
    assert (∃ b, buckets t !! bucket = Some b ∧ bef = bucket_rows b) as (b & Hlk & ->).
    { destruct d'; [..|done]; cbn in Hon; subst; apply bind_ok in Hbef as (b & Hb0%ok_or_ok & [= <- _]); eauto. }
    rewrite Hb', lookup_insert_eq in Hd. cbn [ok_or mbind result_bind with_index fs_rows fs_caps] in Hd.
    destruct (ok_or _ Capacity) as [rows|] eqn:Er; [|done]. apply ok_or_ok in Er. apply bind_Some in Er as (r0 & Hr0 & Hr1).
    apply checked_sub_Some in Hr0 as [-> _]. apply checked_add_Some in Hr1 as [-> _].
    destruct (Z.ltb_spec (cap_rows (fs_caps st)) (fs_rows st - bucket_rows b + bucket_rows b')); [done|].
    injection Hd as <- <-. split_and!; try done.
    unfold stage_ok. cbn. split_and!; try done. rewrite Hb'. unfold table_rows.
    rewrite (msum_insert_Some _ _ _ b) by done. rewrite Hrows. unfold table_rows. lia.
  - destruct Hb as [-> ->]. injection Hd as <- <-. split_and!; try done; lia.
Qed.

Lemma stage_deltas_Ok jds : ∀ st t expected expected' st',
  stage_ok st t → stage_deltas st expected jds = (Ok expected', st') →
  ∃ ds, Forall2 (decodes st) jds ds ∧ expected' = expected + Z.of_nat (length jds) ∧
    (∀ i jd, jds !! i = Some jd → jd_position jd = expected + 1 + Z.of_nat i) ∧
    stage_ok st' (replay t ds) ∧ same_stage st st'.
Proof.
  induction jds as [|jd jds IH]; intros st t expected expected' st' Hok Hd; cbn [stage_deltas] in Hd.
  { injection Hd as <- <-. exists []. split_and!; try done. cbn. lia. }
  destruct (stage_delta st expected jd) as [[e1|] st1] eqn:E1; [|done].
  apply (stage_delta_Ok st t) in E1 as (d & Hdec & -> & Hpos & _ & Hok1 & (S1 & S2 & S3)); [|done].
  apply (IH st1 (delta_apply d t).2) in Hd as (ds & Hds & -> & Hp & Hok' & (T1 & T2 & T3)); [|done].
  exists (d :: ds). split_and!; try done.
  - constructor; [done|]. unfold decodes in *. by rewrite S1, S2 in Hds.
  - cbn [length]. lia.
  - intros [|i] jd' Hi; cbn in Hi; [injection Hi as <-; lia|]. rewrite (Hp i jd' Hi). lia.
  - split_and!; congruence.
Qed.

Lemma stage_delta_through st expected jd : fs_through (stage_delta st expected jd).2 = fs_through st.
Proof.
  unfold stage_delta. destruct (fs_index st); [|done]. case_match; [|done]. destruct_and?. repeat case_match; done.
Qed.

Lemma stage_deltas_through jds : ∀ st expected, fs_through (stage_deltas st expected jds).2 = fs_through st.
Proof.
  induction jds as [|jd jds IH]; intros st expected; [done|]. cbn [stage_deltas].
  pose proof (stage_delta_through st expected jd) as E1. destruct (stage_delta st expected jd) as [[e1|] st1]; [|done].
  by rewrite IH.
Qed.

Lemma stage_batch_Err st batch e st' : stage_batch st batch = (Err e, st') → fs_through st' = fs_through st.
Proof.
  unfold stage_batch. intros Hb. destruct (fs_index st); [|by injection Hb as _ <-].
  destruct (_ || _ || _); [by injection Hb as _ <-|].
  pose proof (stage_deltas_through (jb_deltas batch) st (jc_position (fs_through st))) as Hd.
  destruct (stage_deltas _ _ _) as [[x|] st1]; [|by injection Hb as _ <-].
  destruct (negb _); [|done]. by injection Hb as _ <-.
Qed.

Lemma stage_batch_Ok st t batch st' :
  stage_ok st t → stage_batch st batch = (Ok tt, st') →
  jb_from batch = fs_through st ∧ fs_through st' = jb_through batch ∧ jb_deltas batch ≠ [] ∧
  jc_capture (jb_through batch) = jc_capture (fs_through st) ∧
  jc_position (jb_through batch) = jc_position (fs_through st) + Z.of_nat (length (jb_deltas batch)) ∧
  (∀ i jd, jb_deltas batch !! i = Some jd → jd_position jd = jc_position (fs_through st) + 1 + Z.of_nat i) ∧
  ∃ ds, Forall2 (decodes st) (jb_deltas batch) ds ∧ stage_ok st' (replay t ds).
Proof.
  intros Hok Hb. unfold stage_batch in Hb. pose proof Hok as (Hi & _). rewrite Hi in Hb.
  destruct (_ || _ || _) eqn:Eg; [done|]. bool_prop.
  destruct (stage_deltas _ _ _) as [[e|] st1] eqn:Ed; [|done].
  apply (stage_deltas_Ok _ st t) in Ed as (ds & Hds & -> & Hp & Hok' & (T1 & T2 & T3)); [|done].
  destruct (Z.eqb_spec (jc_position (fs_through st) + Z.of_nat (length (jb_deltas batch))) (jc_position (jb_through batch))); [|done].
  injection Hb as <-. split_and!; try done. exists ds. split; [done|]. destruct Hok' as (? & ? & ? & ?). by split_and!.
Qed.

Lemma stage_batch_same st t batch st' :
  stage_ok st t → stage_batch st batch = (Ok tt, st') →
  fs_caps st' = fs_caps st ∧ fs_max_event_bytes st' = fs_max_event_bytes st.
Proof.
  intros Hok Hb. unfold stage_batch in Hb. pose proof Hok as (Hi & _). rewrite Hi in Hb.
  destruct (_ || _ || _); [done|].
  destruct (stage_deltas _ _ _) as [[e|] st1] eqn:Ed; [|done].
  apply (stage_deltas_Ok _ st t) in Ed as (_ & _ & _ & _ & _ & (T1 & T2 & _)); [|done].
  destruct (negb _); [done|]. by injection Hb as <-.
Qed.

(** An accepted batch is exactly the next piece of the journal.  It starts
    where the stage stands, its positions follow one another without a gap, the
    stage moves to its end by decoding and applying each effect in order, the row
    count stays exact and within the cap, and no bucket is rebuilt or fenced.  A
    refused batch does not move the stage along the journal. *)
Theorem stage_batch_exact st t batch :
  stage_ok st t →
  match stage_batch st batch with
  | (Ok _, st') =>
      jb_from batch = fs_through st ∧ fs_through st' = jb_through batch ∧
      jc_position (jb_through batch) = jc_position (fs_through st) + Z.of_nat (length (jb_deltas batch)) ∧
      (∀ i jd, jb_deltas batch !! i = Some jd → jd_position jd = jc_position (fs_through st) + 1 + Z.of_nat i) ∧
      ∃ ds, Forall2 (decodes st) (jb_deltas batch) ds ∧ stage_ok st' (replay t ds)
  | (Err _, st') => fs_through st' = fs_through st
  end.
Proof.
  intros Hok. destruct (stage_batch st batch) as [[[]|e] st'] eqn:Eb.
  - by destruct (stage_batch_Ok st t batch st' Hok Eb) as (? & ? & _ & _ & ? & ? & ?).
  - by eapply stage_batch_Err.
Qed.

(** The batches a follower accepts one after the other; a refused one ends the run. *)
Fixpoint stage_batches st (batches : list (JournalBatch C)) : result ImageError unit * FleetStage C :=
  match batches with
  | [] => (Ok tt, st)
  | batch :: rest =>
      match stage_batch st batch with
      | (Ok _, st) => stage_batches st rest
      | (Err e, st) => (Err e, st)
      end
  end.

Definition batch_effects (batches : list (JournalBatch C)) : list bytes :=
  batch ← batches; jd_effect <$> jb_deltas batch.

Lemma stage_batches_Ok batches : ∀ st t st',
  stage_ok st t → stage_batches st batches = (Ok tt, st') →
  ∃ ds, Forall2 (decodes st) (mjoin (jb_deltas <$> batches)) ds ∧ stage_ok st' (replay t ds).
Proof.
  induction batches as [|batch batches IH]; intros st t st' Hok Hb; cbn [stage_batches] in Hb.
  { injection Hb as <-. by exists []. }
  destruct (stage_batch st batch) as [[[]|e] st1] eqn:E1; [|done].
  pose proof (stage_batch_same _ _ _ _ Hok E1) as (S1 & S2).
  destruct (stage_batch_Ok st t batch st1 Hok E1) as (_ & _ & _ & _ & _ & _ & ds & Hds & Hok1).
  destruct (IH st1 _ st' Hok1 Hb) as (ds' & Hds' & Hok'). exists (ds ++ ds'). split.
  - cbn. apply Forall2_app; [done|]. unfold decodes in *. by rewrite S1, S2 in Hds'.
  - unfold replay in *. by rewrite foldl_app.
Qed.

(** ** Donor and follower *)

(** The effect survives the wire under the stage's decoding budget. *)
Definition wire_ok (dmax : Z) (d : IndexDelta) : Prop :=
  delta_typed d ∧ delta_parses d ∧ delta_charge d <= Z.min usize_max dmax.

Lemma recorded_decodes st j jd d d' l :
  recorded (fs_max_event_bytes st) (cap_name_bytes (fs_caps st)) j d → call_effect j = Some l → jd_effect jd = l →
  wire_ok (cap_decoded_bytes (fs_caps st)) d → cap_decoded_bytes (fs_caps st) ≠ 0 →
  decodes st jd d' → d' = skeletal_delta d.
Proof.
  intros (l' & Hl & He) Hl' Hjd (Hty & Hpar & Hch) Hd0 Hdec. rewrite Hl in Hl'. injection Hl' as ->.
  unfold decodes in Hdec. rewrite Hjd in Hdec. apply encode_delta_Ok in He as (Hnb & Hok & Hlen & ->); [|done].
  rewrite <- (app_nil_r (enc_delta d)), decode_enc_delta in Hdec; try done; [|by rewrite app_nil_r].
  rewrite bool_decide_true in Hdec by done. by injection Hdec.
Qed.

Lemma journal_decodes st calls ds jds ds' :
  Forall2 (recorded (fs_max_event_bytes st) (cap_name_bytes (fs_caps st))) calls ds →
  Forall (wire_ok (cap_decoded_bytes (fs_caps st))) ds → cap_decoded_bytes (fs_caps st) ≠ 0 →
  jd_effect <$> jds = omap call_effect calls → Forall2 (decodes st) jds ds' → ds' = skeletal_delta <$> ds.
Proof.
  intros Hrec. revert jds ds'. induction Hrec as [|j d calls ds Hj _ IH]; intros jds ds' Hw Hd0 Heff Hdec.
  - cbn in Heff. apply fmap_nil_inv in Heff as ->. by inversion Hdec.
  - pose proof Hj as (l & Hl & _). cbn in Heff. rewrite Hl in Heff. cbn in Heff.
    apply fmap_cons_inv in Heff as (jd & jds' & Hjd & Heff & ->). apply Forall_cons in Hw as [Hw Hws].
    inversion Hdec as [|x d1 xs ds1 Hd1 Hds1]; subst. cbn. f_equal.
    + by eapply recorded_decodes.
    + by eapply IH.
Qed.

Lemma decoded_served s universe : served (decoded_image s universe).
Proof.
  intros name b. cbn [decoded_image buckets]. rewrite lookup_fmap. destruct (buckets s !! name); [|done].
  by intros [= <-].
Qed.

Lemma same_image_regs s d : same_image s d → ∀ name k, reg_at d name k = skeletal_reg (reg_at s name k).
Proof.
  intros Hs name k. specialize (Hs name). unfold reg_at, bucket_or_default.
  destruct (buckets s !! name) as [b|], (buckets d !! name) as [b'|]; try done; cbn.
  destruct Hs as (Hk & Hg & _). unfold reg_of, skeletal_reg. cbn. by rewrite Hk, Hg, lookup_fmap.
Qed.

(** The stage right after the image of [s] was verified. *)
Lemma image_staged s universe caps sz l cut max_event now chunks st0 :
  0 <= cap_rows caps → index_wf s → index_typed s → index_wire s →
  measure_image s universe caps = Ok sz → encode s universe caps sz = Ok l →
  concat chunks = l → Forall (λ c, c ≠ []) chunks →
  stage_new (Z.of_nat (length l)) (Z.of_nat (length chunks)) cut (decoded_bytes sz) caps max_event now = Ok st0 →
  ∃ st1 t, store_chunks st0 0 chunks = (Ok tt, st1) ∧
    let st2 := with_index st1 (Some t) (table_rows (buckets t)) in
    verify st1 (image_hash l) = (Ok tt, st2) ∧ stage_ok st2 t ∧
    fs_caps st2 = caps ∧ fs_max_event_bytes st2 = max_event ∧ fs_through st2 = cut ∧
    ∀ name k, reg_at t name k = skeletal_reg (reg_at s name k).
Proof.
  intros Hrc Hwf Hty Hw Hm He <- Hne Hnew. pose proof (measure_image_Ok _ _ _ _ Hm) as (Hv & _ & _ & _ & _ & _ & Hdc).
  apply validate_Ok in Hv as (_ & Hcb1 & Hcd1 & Hcb0 & Hcd0 & Hcb & Hcr & Hcn).
  unfold stage_new in Hnew. apply bind_ok in Hnew as ([] & Hg & [= <-]). apply refuse_if_ok in Hg. bool_prop.
  pose proof (encoded_decodes s universe caps sz (concat chunks) [] (Z.of_nat (length (concat chunks))) (decoded_bytes sz)
    Hty Hw Hm He) as Hdec. rewrite app_nil_r in Hdec. rewrite bool_decide_true in Hdec by done.
  specialize (Hdec ltac:(lia) ltac:(lia)).
  destruct (decoded_image_same s universe _ _ Hwf Hdec) as (Hsame & _ & _).
  pose proof (decode_Ok _ _ _ Hdec) as (_ & _ & _ & Hrows & _). cbn [cap_rows] in Hrows.
  eexists _, (decoded_image s universe). split; [by apply store_chunks_Ok; cbn; unfold usize_max, u64_max; try lia|]. cbn zeta. split_and!.
  - unfold verify. cbn [with_encoded fs_index fs_next_chunk fs_expected_chunks fs_encoded fs_expected_bytes is_some orb app
      fs_decoded_bytes fs_caps]. rewrite Z.add_0_l, !Z.eqb_refl, bool_decide_true by done. cbn [negb orb]. by rewrite Hdec.
  - split_and!; [done|apply decoded_served|done|]. cbn. apply Hrows. lia.
  - done.
  - done.
  - done.
  - by apply same_image_regs.
Qed.

(** A verified stage that holds the donor's registers replays the donor's journal. *)
Lemma staged_replays st2 t s0 c0 evs s1 c1 batches st3 :
  stage_ok st2 t → (∀ name k, reg_at t name k = skeletal_reg (reg_at s0 name k)) →
  0 < cap_decoded_bytes (fs_caps st2) → index_wf s0 → served s0 →
  capture s0 = Some c0 → cp_calls c0 = [] →
  cp_max_event_bytes c0 = fs_max_event_bytes st2 → cp_max_name_bytes c0 = cap_name_bytes (fs_caps st2) →
  Forall (λ ev, keeps_capture ev = true) evs → run s0 evs = Some s1 → capture s1 = Some c1 → sound c1 →
  effects_within (wire_ok (cap_decoded_bytes (fs_caps st2))) s0 evs →
  batch_effects batches = omap call_effect (cp_calls c1) →
  stage_batches st2 batches = (Ok tt, st3) →
  ∃ t', stage_ok st3 t' ∧ ∀ name k, reg_at t' name k = skeletal_reg (reg_at s1 name k).
Proof.
  intros Hok Hreg Hcd Hwf Hsv Hc0 Hnil Hme Hnb Hk Hr Hc1 Hsd HQ Heff Hb.
  destruct (stage_batches_Ok _ _ t _ Hok Hb) as (ds' & Hds' & Hok').
  assert (jd_effect <$> mjoin (jb_deltas <$> batches) = omap call_effect (cp_calls c1)) as Heff'.
  { rewrite <- Heff. unfold batch_effects. clear. induction batches as [|b bs IH]; [done|]. cbn. rewrite fmap_app. f_equal. exact IH. }
  destruct (run_faithful (wire_ok (cap_decoded_bytes (fs_caps st2))) evs) with s0 c0 s1 c1
    as (ds & (_ & _ & js & Hjs & HF) & HQd & Hreg1); try done.
  { split_and!; try done. cbn. unfold usize_max, u64_max. lia. }
  { by apply regs_ok_wf. }
  rewrite Hnil in Hjs. cbn in Hjs. subst js.
  assert (ds' = skeletal_delta <$> ds) as ->.
  { apply (journal_decodes _ (cp_calls c1) ds (mjoin (jb_deltas <$> batches)) ds') in Hds'; rewrite <- ?Hme, <- ?Hnb; try done. lia. }
  eexists. split; [exact Hok'|]. intros name k.
  rewrite (proj2 (replay_reg _ t (proj1 (proj2 Hok)))), Hreg, Hreg1. by rewrite skeletal_deltas.
Qed.

(** The bootstrap carries the donor's state to a follower.  A donor image
    is cut into chunks, stored and verified on a fresh stage; meanwhile any index
    operations run on the donor and its capture stands; then the follower accepts
    batches with the journal's effects.  The private index then holds, for every
    key, the donor's present row in the fields the wire carries and exactly its
    tombstone, counts its rows exactly, and has no rebuild or fence. *)
Theorem follower_matches_donor s0 universe caps sz l cut max_event now chunks st0 c0 evs s1 c1 batches st3 :
  0 <= cap_rows caps → 0 <= cap_decoded_bytes caps →
  index_wf s0 → index_typed s0 → index_wire s0 → served s0 →
  measure_image s0 universe caps = Ok sz → encode s0 universe caps sz = Ok l →
  concat chunks = l → Forall (λ c, c ≠ []) chunks →
  stage_new (Z.of_nat (length l)) (Z.of_nat (length chunks)) cut (decoded_bytes sz) caps max_event now = Ok st0 →
  capture s0 = Some c0 → cp_calls c0 = [] → cp_max_event_bytes c0 = max_event → cp_max_name_bytes c0 = cap_name_bytes caps →
  Forall (λ ev, keeps_capture ev = true) evs → run s0 evs = Some s1 → capture s1 = Some c1 → sound c1 →
  effects_within (wire_ok (cap_decoded_bytes caps)) s0 evs →
  batch_effects batches = omap call_effect (cp_calls c1) →
  stage_batches (verify (store_chunks st0 0 chunks).2 (image_hash l)).2 batches = (Ok tt, st3) →
  ∃ t, stage_ok st3 t ∧ ∀ name k, reg_at t name k = skeletal_reg (reg_at s1 name k).
Proof.
  intros Hrc Hdc Hwf Hty Hw Hsv Hm He Hl Hne Hnew Hc0 Hnil Hme Hnb Hk Hr Hc1 Hsd HQ Heff Hb.
  pose proof (measure_image_Ok _ _ _ _ Hm) as (Hv & _). apply validate_Ok in Hv as (_ & _ & _ & _ & Hcd0 & _).
  destruct (image_staged _ _ _ _ _ _ _ _ _ _ Hrc Hwf Hty Hw Hm He Hl Hne Hnew)
    as (st1 & t & Hst & Hver & Hok & Hcaps & Hev & _ & Hreg).
  rewrite Hst in Hb. cbn [snd] in Hb. rewrite Hver in Hb. cbn [snd] in Hb.
  apply (staged_replays _ t s0 c0 evs s1 c1 batches) in Hb; rewrite ?Hcaps, ?Hev; try done. lia.
Qed.
End stage_props.

(** ** A concrete bootstrap *)

#[local] Existing Instance layout64.
#[local] Existing Instance layout64_ok.
#[local] Existing Instance parse_quoted.
Definition demo_hash : ImageHash := λ l, take 32 (l ++ replicate 32 Byte.x00).
#[local] Existing Instance demo_hash.

Definition donor_start : KeyIndexState := with_capture demo_index (Some (Capture.new 3 1 (λ _, 7) 512 100)).
Definition donor_events : list index_event :=
  [EvPut "b" "n" sample_entry DefinitiveMutation None; EvDel "b" "k" 1700000000200000000 None Run;
   EvPut "b" "z" (mkObjEntry None 4 None "STANDARD" None None) Observation None].
Definition donor_end : KeyIndexState := default donor_start (run donor_start donor_events).
Definition donor_capture : IndexCapture := default (Capture.new 3 1 (λ _, 7) 512 100) (capture donor_end).
Definition demo_chunks : list bytes := [take 10 demo_bytes; drop 10 demo_bytes].
Definition demo_cut : JournalCursor unit := mkCursor tt 3.
Definition demo_batch : JournalBatch unit :=
  mkBatch demo_cut (mkCursor tt 5)
    (imap (λ i l, mkJournalDelta (4 + Z.of_nat i) l) (omap call_effect (cp_calls donor_capture))).
Definition demo_stage : FleetStage unit :=
  mkStage [] (Z.of_nat (length demo_bytes)) (decoded_bytes demo_size) 2 0 demo_caps None 0 demo_cut 512 9.
Definition demo_verified : FleetStage unit := (verify (store_chunks demo_stage 0 demo_chunks).2 (image_hash demo_bytes)).2.
Definition demo_replayed : FleetStage unit := (stage_batch demo_verified demo_batch).2.

Lemma donor_start_wf : index_wf donor_start.
Proof. apply with_capture_wf, demo_index_wf. Qed.

Lemma donor_start_served : served donor_start.
Proof. intros name b [-> ->]%demo_bucket. done. Qed.

Lemma donor_sound : sound donor_capture.
Proof.
  intros r Hr. assert (forallb (λ j, is_some (call_effect j)) (cp_calls donor_capture) = true) as Hall by (by vm_compute).
  rewrite forallb_forall in Hall. apply list_elem_of_In in Hr. discriminate (Hall _ Hr).
Qed.

Lemma journal_replays_witness :
  ∃ ds, Forall2 (recorded 512 100) (cp_calls donor_capture) ds ∧ length ds = 2%nat ∧
    reg_at (replay (decoded_image demo_index ["b"]) (skeletal_delta <$> ds)) "b" "n" = skeletal_reg (reg_at donor_end "b" "n").
Proof.
  destruct (journal_replays donor_start (Capture.new 3 1 (λ _, 7) 512 100) donor_events donor_end donor_capture
    (decoded_image demo_index ["b"]) donor_start_wf donor_start_served eq_refl eq_refl) as (ds & HF & Hreg).
  - by repeat constructor.
  - vm_compute. reflexivity.
  - vm_compute. reflexivity.
  - apply donor_sound.
  - apply decoded_served.
  - apply (same_image_regs demo_index).
    apply (decoded_image_same demo_index ["b"] demo_bytes demo_caps); [apply demo_index_wf|]. vm_compute. reflexivity.
  - exists ds. split; [exact HF|]. split; [|apply Hreg]. apply Forall2_length in HF. rewrite <- HF. vm_compute. reflexivity.
Defined.

Lemma stage_transfer_witness :
  ∃ st, store_chunks demo_stage 0 demo_chunks = (Ok tt, st) ∧ fs_encoded st = demo_bytes.
Proof.
  destruct (stage_transfer demo_caps demo_cut (decoded_bytes demo_size) 512 9 demo_chunks demo_stage [])
    as (st & Hst & Henc & _); [vm_compute; reflexivity|by vm_compute|repeat constructor; by vm_compute|].
  exists st. split; [exact Hst|]. rewrite Henc. vm_compute. reflexivity.
Defined.

Lemma demo_verified_ok : stage_ok demo_verified (decoded_image demo_index ["b"]).
Proof. split_and!; [vm_compute; reflexivity|apply decoded_served|vm_compute; reflexivity|by vm_compute]. Qed.

Lemma stage_batch_exact_witness :
  stage_batch demo_verified demo_batch = (Ok tt, demo_replayed) ∧ fs_through demo_replayed = mkCursor tt 5.
Proof.
  assert (stage_batch demo_verified demo_batch = (Ok tt, demo_replayed)) as Hb by (vm_compute; reflexivity).
  split; [exact Hb|]. pose proof (stage_batch_exact demo_verified _ demo_batch demo_verified_ok) as H.
  rewrite Hb in H. exact (proj1 (proj2 H)).
Defined.

Lemma follower_matches_donor_witness :
  ∃ t, stage_ok demo_replayed t ∧ ∀ k, reg_at t "b" k = skeletal_reg (reg_at donor_end "b" k).
Proof.
  destruct (follower_matches_donor donor_start ["b"] demo_caps demo_size demo_bytes demo_cut 512 9 demo_chunks demo_stage
    (Capture.new 3 1 (λ _, 7) 512 100) donor_events donor_end donor_capture [demo_batch] demo_replayed) as (t & Hok & Hreg);
    [by vm_compute|by vm_compute|apply donor_start_wf|exact demo_index_typed|exact demo_index_wire|apply donor_start_served
    |vm_compute; reflexivity|vm_compute; reflexivity|vm_compute; reflexivity|repeat constructor; by vm_compute
    |vm_compute; reflexivity|reflexivity|reflexivity|reflexivity|reflexivity|by repeat constructor|vm_compute; reflexivity
    |vm_compute; reflexivity|apply donor_sound| |vm_compute; reflexivity|vm_compute; reflexivity|].
  - cbn [effects_within donor_events exec from_option]. split; [repeat constructor; by vm_compute|].
    split; [repeat constructor; by vm_compute|]. split; [repeat constructor; by vm_compute|exact I].
  - exists t. split; [exact Hok|]. intros k. apply Hreg.
Defined.
