(* ===== verification/Donor.v ===== *)
(** * Donor sessions

    [src/src/index/fleet/capture.rs] with the donor half of
    [src/src/sync/volatile/fleet/] ([capture.rs], [donor.rs]): a donor sizes and snapshots
    its index at one moment C under the index lock, attaches a journal ingress there,
    encodes the snapshot off the lock, and serves the image in chunks while the ingress is
    still attached.  The answers of [groupnet] (byte admission, the journal, the guard)
    are arguments.  A refused allocation is left out. *)

From S2P Require Import Prelude.
From S2P Require Import ObjTypes.
From S2P Require Import ImageCodec.
From S2P Require Import Rows.
From S2P Require Import IndexCapture.
From S2P Require Import KeyIndex.
From S2P Require Import Image.
From S2P Require Import Stage.

(** ** Identities and limits *)

Record CaptureId := mkCaptureId {
  ci_domain : string;
  ci_partition : string;
  ci_donor : string;
  ci_generation : Z;
  ci_serial : Z;
}.

#[global] Instance CaptureId_eq_dec : EqDecision CaptureId.
Proof. solve_decision. Defined.

#[global] Instance ImageSize_eq_dec : EqDecision ImageSize.
Proof. solve_decision. Defined.

(** [NEXT_CAPTURE], and the identity it gives. *)
Definition next_id (next : Z) (domain partition donor : string) (generation : Z) : result unit CaptureId * Z :=
  match checked_add u64_max next 1 with
  | None => (Err tt, next)
  | Some after =>
      if (next =? 0) || (generation =? 0) then (Err tt, after)
      else (Ok (mkCaptureId domain partition donor generation next), after)
  end.

(** The journal's limits. *)
Record JournalConfig := mkJournalConfig {
  jc_max_encoded_bytes : Z;
  jc_max_decoded_bytes : Z;
  jc_max_events : Z;
  jc_max_suffix_bytes : Z;
  jc_max_event_bytes : Z;
  jc_max_identity_bytes : Z;
  jc_max_followers : Z;
  jc_max_follower_id_bytes : Z;
  jc_max_cuts : Z;
  jc_max_cut_bytes : Z;
  jc_max_members : Z;
  jc_max_membership_bytes : Z;
  jc_max_scope_bytes : Z;
  jc_max_batch_events : Z;
  jc_max_batch_bytes : Z;
  jc_max_inflight_bytes : Z;
  jc_max_total_ms : Z;
  jc_max_follower_ms : Z;
}.

Definition IMAGE_CAPS : ImageCaps := mkCaps (256 * 2 ^ 20) (2 ^ 30) 256 2000000 1024.
Definition JOURNAL_CONFIG : JournalConfig :=
  mkJournalConfig (cap_bytes IMAGE_CAPS) (cap_decoded_bytes IMAGE_CAPS) 1024 (8 * 2 ^ 20) 4096 256 2 256 64 4096 64 (16 * 2 ^ 10) 8192
    32 (128 * 2 ^ 10) (256 * 2 ^ 10) 600000 300000.

(** ** The capture *)

(** What [groupnet] answers while a capture begins. *)
Record BeginAnswers := mkBeginAnswers {
  ba_suffix_class : bool;
  ba_reserve_encoded : Z → bool;
  ba_reserve_decoded : Z → bool;
  (** [DonorJournal::begin_capture] of the sizes and cuts. *)
  ba_begin : Z → Z → list NativeCut → bool;
  (** [JournalIngress::new]: the ingress, told apart from every other. *)
  ba_ingress : option Z;
  ba_clock : nat → Z;
}.

Record PendingFleetCapture := mkPending {
  pf_ingress : Z;
  pf_snapshot : option KeyIndexState;
  pf_size : ImageSize;
  pf_encoded_image : option bytes;
  pf_commitment : option bytes;
  pf_encoded : option Z;
  pf_decoded : option Z;
}.

(** The native cuts in writer order, within the journal's limits. *)
Fixpoint gather_cuts (max_cut_bytes bytes : Z) (rows : list (string * (Z * Z))) : result ImageError (list NativeCut) :=
  match rows with
  | [] => Ok []
  | (writer, (epoch, sequence)) :: rows =>
      bytes ← ok_or (checked_add usize_max bytes (slen writer)) Capacity;
      _ ← refuse_if (sempty writer || (max_cut_bytes <? bytes)) Capacity;
      cuts ← gather_cuts max_cut_bytes bytes rows;
      Ok (mkCut writer epoch sequence :: cuts)
  end.

Section donor.
Context {L : Layout} {H : ImageHash}.

(** The capture with the ingress it replaces, withdrawn. *)
Definition begin_fleet_capture (live : KeyIndexState) (ans : BeginAnswers) (generation : Z) (config : JournalConfig)
    (universe : list string) (caps : ImageCaps)
    : result ImageError (PendingFleetCapture * option IndexCapture) * KeyIndexState :=
  let attached :=
    _ ← refuse_if (negb (ba_suffix_class ans)) Capacity;
    size ← tallied_size live universe caps;
    _ ← refuse_if (negb (ba_reserve_encoded ans (encoded_bytes size))) Capacity;
    _ ← refuse_if (negb (ba_reserve_decoded ans (decoded_bytes size))) Capacity;
    snapshot ← snapshot_state live universe;
    _ ← refuse_if (jc_max_cuts config <? Z.of_nat (base.size (native_cuts live))) Capacity;
    cuts ← gather_cuts (jc_max_cut_bytes config) 0 (sorted_rows (native_cuts live));
    _ ← refuse_if (negb (ba_begin ans (encoded_bytes size) (decoded_bytes size) cuts)) Incomplete;
    ingress ← ok_or (ba_ingress ans) Capacity;
    Ok (mkPending ingress (Some snapshot) size None None (Some (encoded_bytes size)) (Some (decoded_bytes size))) in
  match attached with
  | Err e => (Err e, live)
  | Ok pending =>
      (Ok (pending, (λ c, Capture.invalidate c IDonorLost) <$> capture live),
       with_capture live
         (Some (Capture.new (pf_ingress pending) generation (ba_clock ans) (jc_max_event_bytes config) (cap_name_bytes caps))))
  end.

(** [PendingFleetCapture::encode]. The snapshot is gone afterwards, whatever the outcome. *)
Definition encode_pending (p : PendingFleetCapture) (universe : list string) (caps : ImageCaps)
    : result ImageError unit * PendingFleetCapture :=
  match pf_snapshot p with
  | None => (Err Corrupt, p)
  | Some snapshot =>
      let emptied := mkPending (pf_ingress p) None (pf_size p) (pf_encoded_image p) (pf_commitment p) (pf_encoded p) (pf_decoded p) in
      let image :=
        size ← measure_image snapshot universe caps;
        _ ← refuse_if (negb (bool_decide (size = pf_size p))) Corrupt;
        encode snapshot universe caps (pf_size p) in
      match image with
      | Err e => (Err e, emptied)
      | Ok image =>
          (Ok tt, mkPending (pf_ingress p) None (pf_size p) (Some image) (Some (image_hash image)) (pf_encoded p) (pf_decoded p))
      end
  end.

(** ** Retirement *)

Definition same_ingress (c : IndexCapture) (ingress : Z) : bool := cp_ingress c =? ingress.

Definition has_fleet_capture (live : KeyIndexState) (ingress : Z) : bool :=
  is_some_and (λ c, same_ingress c ingress) (capture live).

(** The withdrawn capture, if this was still the candidate. *)
Definition retire_fleet_capture (live : KeyIndexState) (ingress : Z) : option IndexCapture * KeyIndexState :=
  if has_fleet_capture live ingress
  then ((λ c, Capture.invalidate c IDonorLost) <$> capture live, with_capture live None)
  else (None, live).

Definition retire_fleet_service (live : KeyIndexState) : option IndexCapture * KeyIndexState :=
  match capture live with
  | Some c => (Some (Capture.invalidate c IDonorLost), with_capture live None)
  | None => (None, live)
  end.

(** ** The finished image *)

Record FleetDonorImage := mkDonorImage { di_bytes : bytes; di_commitment : bytes; di_ingress : Z }.

(** [PendingFleetCapture::finish]; [finishes] is [DonorJournal::finish_capture] of the clock
    and the sizes, [accepted] is [DonorCapture::new]. A failure drops the pending capture,
    which retires its ingress. *)
Definition finish_pending (live : KeyIndexState) (p : PendingFleetCapture) (finishes : Z → Z → Z → bool) (accepted : bool)
    : result ImageError FleetDonorImage * KeyIndexState :=
  let finished :=
    image ← ok_or (pf_encoded_image p) Incomplete;
    let private_size := default 0 (pf_decoded p) in
    c ← ok_or (c ← capture live; if same_ingress c (pf_ingress p) then Some c else None) Incomplete;
    _ ← refuse_if (negb (finishes (Capture.now c) (Z.of_nat (length image)) private_size)) Incomplete;
    _ ← ok_or (pf_encoded p) Corrupt;
    _ ← ok_or (pf_decoded p) Corrupt;
    commitment ← ok_or (pf_commitment p) Corrupt;
    _ ← refuse_if (negb accepted) Incomplete;
    Ok (mkDonorImage image commitment (pf_ingress p)) in
  match finished with
  | Ok image => (Ok image, live)
  | Err e => (Err e, (retire_fleet_capture live (pf_ingress p)).2)
  end.
End donor.

(** ** Serving *)

Definition CHUNK_BYTES : Z := 64 * 2 ^ 10.
Definition IMAGE_SCHEMA : Z := 1.

Definition div_ceil (a b : Z) : Z := (a + b - 1) / b.

Record TransferOffer := mkOffer {
  to_image_cut : JournalCursor CaptureId;
  to_capture : CaptureId;
  to_schema : Z;
  to_encoded_bytes : Z;
  to_decoded_bytes : Z;
  to_chunks : Z;
  to_commitment : bytes;
  to_members : list string;
  to_cuts : list NativeCut;
}.

(** What the journal of a finished capture holds. *)
Record JournalFacts := mkJournalFacts {
  jf_id : CaptureId;
  jf_image_charge : option Z;
  jf_members : list string;
  jf_cuts : list NativeCut;
}.

Fixpoint checked_sum (acc : Z) (l : list Z) : option Z :=
  match l with
  | [] => Some acc
  | n :: l => acc ← checked_add usize_max acc n; checked_sum acc l
  end.

(** [headers] is the size of the offer's fixed parts in memory; [active] is
    [DonorCapture::is_active] when the offer starts and when it is made. *)
Definition image_offer (live : KeyIndexState) (image : FleetDonorImage) (journal : JournalFacts) (active : bool * bool)
    (max_metadata_bytes headers : Z) (reserve : Z → bool) : result unit TransferOffer :=
  _ ← refuse_if (negb (active.1) || negb (has_fleet_capture live (di_ingress image))) tt;
  let bytes := Z.of_nat (length (di_bytes image)) in
  _ ← refuse_if ((bytes =? 0) || (cap_bytes IMAGE_CAPS <? bytes) || (max_metadata_bytes =? 0)) tt;
  let chunks := div_ceil bytes CHUNK_BYTES in
  charge ← ok_or (n ← checked_mul usize_max max_metadata_bytes 4; checked_add usize_max n headers) tt;
  _ ← refuse_if (negb (reserve charge)) tt;
  decoded ← ok_or (jf_image_charge journal) tt;
  let id := jf_id journal in
  let offer := mkOffer (mkCursor id 0) id IMAGE_SCHEMA bytes decoded chunks (di_commitment image) (jf_members journal)
                 (jf_cuts journal) in
  variable ← ok_or (checked_sum 0 ([slen (ci_domain id); slen (ci_partition id)] ++ (slen <$> jf_members journal)
                                   ++ (slen ∘ cut_writer <$> jf_cuts journal))) tt;
  _ ← refuse_if ((max_metadata_bytes <? variable) || negb (active.2)) tt;
  Ok offer.

Definition image_chunk (live : KeyIndexState) (image : FleetDonorImage) (active : bool) (sequence max_bytes : Z)
    (reserve : Z → bool) : result unit bytes :=
  _ ← refuse_if (negb active || negb (has_fleet_capture live (di_ingress image)) || (max_bytes =? 0)
                 || (CHUNK_BYTES <? max_bytes)) tt;
  start ← ok_or (checked_mul usize_max sequence CHUNK_BYTES) tt;
  stop ← ok_or (checked_add usize_max start CHUNK_BYTES) tt;
  let stop := Z.min stop (Z.of_nat (length (di_bytes image))) in
  _ ← refuse_if (stop <? start) tt;
  let slice := take (Z.to_nat (stop - start)) (drop (Z.to_nat start) (di_bytes image)) in
  _ ← refuse_if (bool_decide (slice = []) || (max_bytes <? Z.of_nat (length slice))) tt;
  _ ← refuse_if (negb (reserve max_bytes)) tt;
  Ok slice.
