(* ===== verification/DonorProps.v ===== *)
(** * What a donor offers

    The image a donor session encodes is the index at the moment C, the ingress it attached
    then is the one it serves under, and the chunks it serves are the image.  Composed with
    the follower's stage: a bootstrap leaves the follower with the donor's index. *)

From S2P Require Import Prelude.
From S2P Require Import ObjTypes.
From S2P Require Import ImageCodec.
From S2P Require Import Rows.
From S2P Require Import IndexCapture.
From S2P Require Import KeyIndex.
From S2P Require Import IndexWf.
From S2P Require Import IndexSteps.
From S2P Require Import IndexInv.
From S2P Require Import IndexMachine.
From S2P Require Import IndexLww.
From S2P Require Import CodecProps.
From S2P Require Import Image.
From S2P Require Import ImageProps.
From S2P Require Import ImageSizing.
From S2P Require Import ImageRound.
From S2P Require Import Install.
From S2P Require Import Stage.
From S2P Require Import Replay.
From S2P Require Import StageProps.
From S2P Require Import Donor.

(** Follow a successful step of one chain in another. *)
Ltac same_step H := let x := fresh "x" in let E := fresh "E" in
  apply bind_ok in H as (x & E & H); rewrite E; clear E; cbn [mbind result_bind];
  match type of x with (_ * _)%type => destruct x | unit => destruct x | _ => idtac end.

(** ** The snapshot *)

Definition frozen (b : BucketState) : BucketState := image_bucket_state (keys b) (gone b) (b_stats b).

(** [d] holds the buckets of [s], without what a rebuild or a fence keeps. *)
Definition freezes (s d : KeyIndexState) : Prop := ∀ name, buckets d !! name = frozen <$> buckets s !! name.

Lemma frozen_complete b : complete_bucket (frozen b) = true.
Proof. done. Qed.


Lemma snapshot_buckets_view index universe B total B' total' :
  snapshot_buckets index universe B total = Ok (B', total') →
  ∀ name, B' !! name = if bool_decide (name ∈ universe) then frozen <$> buckets index !! name else B !! name.
Proof.
  revert B total. induction universe as [|n universe IH]; intros B total; cbn [snapshot_buckets].
  { intros [= <- <-] name. by rewrite bool_decide_eq_false_2 by apply not_elem_of_nil. }
  destruct (buckets index !! n) as [b|] eqn:Hb; [|done]. cbn. intros H name. rewrite (IH _ _ H name).
  destruct (decide (name ∈ universe)) as [Hin|Hin].
  - by rewrite !bool_decide_eq_true_2 by set_solver.
  - rewrite (bool_decide_eq_false_2 (name ∈ universe)) by done. destruct (decide (name = n)) as [->|Hne].
    + rewrite bool_decide_eq_true_2, lookup_insert_eq, Hb by set_solver. done.
    + rewrite bool_decide_eq_false_2, lookup_insert_ne by set_solver. done.
Qed.

Lemma snapshot_freezes index universe snap :
  (∀ name, is_Some (buckets index !! name) → name ∈ universe) →
  snapshot_state index universe = Ok snap → freezes index snap.
Proof.
  intros Hcov. unfold snapshot_state. intros H. apply bind_ok in H as ([B total] & HB & [= <-]). intros name. cbn.
  rewrite (snapshot_buckets_view _ _ _ _ _ _ HB name). case_bool_decide as Hin; [done|]. rewrite lookup_empty.
  destruct (buckets index !! name) eqn:Hn; [|done]. exfalso. apply Hin, Hcov. by rewrite Hn.
Qed.

Lemma freezes_size s d : freezes s d → base.size (buckets d) = base.size (buckets s).
Proof. intros Hf. assert (buckets d = frozen <$> buckets s) as -> by (apply map_eq; intros; by rewrite lookup_fmap, Hf). apply map_size_fmap. Qed.

Section snapshot.
Context {L : Layout}.

Lemma image_bucket_frozen s d name previous caps b p :
  freezes s d → image_bucket s name previous caps = Ok (b, p) → image_bucket d name previous caps = Ok (frozen b, p).
Proof.
  intros Hf. unfold image_bucket. destruct (refuse_if _ _); [|done]. cbn. rewrite Hf. destruct (buckets s !! name) as [b'|]; [|done].
  cbn. intros H. apply bind_ok in H as ([] & _ & H). by injection H as <- <-.
Qed.

Lemma measure_buckets_frozen s d caps universe budget encoded rows previous r :
  freezes s d → measure_buckets s caps universe budget encoded rows previous = Ok r →
  measure_buckets d caps universe budget encoded rows previous = Ok r.
Proof.
  intros Hf. revert budget encoded rows previous. induction universe as [|name universe IH];
    intros budget encoded rows previous; cbn [measure_buckets]; [done|].
  intros H. apply bind_ok in H as ([b p] & Hb & H). rewrite (image_bucket_frozen s d _ _ _ _ _ Hf Hb). cbn [mbind result_bind].
  unfold add_rows in H |- *. cbn [frozen image_bucket_state keys gone].
  do 7 same_step H. by apply IH.
Qed.

Lemma encode_buckets_frozen s d caps universe w rows previous w' :
  freezes s d → encode_buckets s caps universe w rows previous = Ok w' →
  encode_buckets d caps universe w rows previous = Ok w'.
Proof.
  intros Hf. revert w rows previous. induction universe as [|name universe IH]; intros w rows previous; cbn [encode_buckets]; [done|].
  intros H. same_step H. rewrite Hf.
  destruct (buckets s !! name) as [b|]; [|done]. cbn [fmap option_fmap option_map ok_or mbind result_bind] in H |- *.
  apply bind_ok in H as ([] & _ & H). cbn [frozen_complete]. rewrite frozen_complete. cbn [negb refuse_if mbind result_bind].
  unfold add_rows in H |- *. cbn [frozen image_bucket_state keys gone].
  do 6 same_step H. by apply IH.
Qed.

Lemma measure_frozen s d universe caps sz :
  freezes s d → measure_image s universe caps = Ok sz → measure_image d universe caps = Ok sz.
Proof.
  intros Hf H. unfold measure_image in *. rewrite (freezes_size s d Hf).
  do 5 same_step H. apply bind_ok in H as (r & Hr & H).
  by rewrite (measure_buckets_frozen s d _ _ _ _ _ _ _ Hf Hr).
Qed.

Lemma encode_frozen s d universe caps sz l :
  freezes s d → encode s universe caps sz = Ok l → encode d universe caps sz = Ok l.
Proof.
  intros Hf H. unfold encode in *. rewrite (freezes_size s d Hf).
  do 6 same_step H.
  apply bind_ok in H as (w3 & Hw & H). by rewrite (encode_buckets_frozen s d _ _ _ _ _ _ Hf Hw).
Qed.
End snapshot.

(** ** The capture *)

Section capture.
Context {L : Layout} {LO : LayoutOk L} {HA : ImageHash} {P : EtagParse}.

(** What a successful beginning has done. *)
Lemma begin_capture_Ok live ans generation config universe caps p withdrawn live' :
  begin_fleet_capture live ans generation config universe caps = (Ok (p, withdrawn), live') →
  tallied_size live universe caps = Ok (pf_size p) ∧
  (∃ snap, snapshot_state live universe = Ok snap ∧
    p = mkPending (pf_ingress p) (Some snap) (pf_size p) None None (Some (encoded_bytes (pf_size p))) (Some (decoded_bytes (pf_size p)))) ∧
  ba_reserve_encoded ans (encoded_bytes (pf_size p)) = true ∧ ba_reserve_decoded ans (decoded_bytes (pf_size p)) = true ∧
  ba_ingress ans = Some (pf_ingress p) ∧ withdrawn = (λ c, Capture.invalidate c IDonorLost) <$> capture live ∧
  live' = with_capture live (Some (Capture.new (pf_ingress p) generation (ba_clock ans) (jc_max_event_bytes config) (cap_name_bytes caps))).
Proof using.
  unfold begin_fleet_capture. match goal with |- context [match ?m with Ok _ => _ | Err _ => _ end] => destruct m as [q|e] eqn:E end; [|done].
  intros [= <- <- <-]. apply bind_ok in E as ([] & _ & E). apply bind_ok in E as (size & Hsize & E).
  apply bind_ok in E as ([] & He%refuse_if_ok & E). apply bind_ok in E as ([] & Hd%refuse_if_ok & E).
  apply bind_ok in E as (snap & Hsnap & E). apply bind_ok in E as ([] & _ & E). apply bind_ok in E as (cuts & _ & E).
  apply bind_ok in E as ([] & _ & E). apply bind_ok in E as (ingress & Hi%ok_or_ok & [= <-]). cbn. bool_prop.
  split_and!; try done. by exists snap.
Qed.

(** The image of what was sized at C, however the live index goes on. *)
Lemma begun_encodes live ans generation config universe caps p withdrawn live' :
  index_wf live → index_typed live → index_after_epoch live → fits_index (cap_name_bytes caps) live →
  begin_fleet_capture live ans generation config universe caps = (Ok (p, withdrawn), live') →
  measure_image live universe caps = Ok (pf_size p) ∧
  ∃ l, encode live universe caps (pf_size p) = Ok l ∧ Z.of_nat (length l) = encoded_bytes (pf_size p) ∧
    encode_pending p universe caps =
      (Ok tt, mkPending (pf_ingress p) None (pf_size p) (Some l) (Some (image_hash l)) (pf_encoded p) (pf_decoded p)).
Proof using LO.
  intros Hwf Hty Hep Hfit E. apply begin_capture_Ok in E as (Ht & (snap & Hsnap & Hp) & _).
  rewrite tallied_size_exact in Ht by done. destruct (measured_image_encodes _ _ _ _ Hty Hep Ht) as (l & Hl & Hlen).
  split; [done|]. exists l. split_and!; try done.
  pose proof (measure_image_Ok _ _ _ _ Ht) as (Hv & _ & Hsz & Hu & _). apply validate_Ok in Hv as (_ & _ & _ & _ & _ & _ & Hr & Hn).
  assert (freezes live snap) as Hf.
  { apply (snapshot_freezes live universe); [|done]. intros name. apply (universe_covers live caps universe 0 None name); [|done].
    by apply fits_universe_ok. }
  unfold encode_pending. rewrite Hp. cbn [pf_snapshot pf_size pf_ingress pf_encoded pf_decoded pf_encoded_image pf_commitment].
  rewrite (measure_frozen live snap universe caps _ Hf Ht). cbn [mbind result_bind]. rewrite bool_decide_eq_true_2 by done.
  cbn [negb refuse_if mbind result_bind]. by rewrite (encode_frozen live snap universe caps _ _ Hf Hl).
Qed.

(** [C15] A donor's image is its index at C, for a well-formed index whose rows the codec
    takes: names and fields of their widths and within the name cap, times not before the
    epoch.  A capture that begins attaches a fresh ingress in place of the old one, which it
    withdraws, changes nothing else, and has reserved exactly the size of the image;
    encoding it then cannot be refused, whatever happened to the live index since, and
    gives the image of the index at C with its hash.  A capture that does not begin changes
    nothing. *)
Theorem capture_exact live ans generation config universe caps :
  index_wf live → index_typed live → index_after_epoch live → fits_index (cap_name_bytes caps) live →
  match begin_fleet_capture live ans generation config universe caps with
  | (Err _, live') => live' = live
  | (Ok (p, withdrawn), live') =>
      live' = with_capture live (Some (Capture.new (pf_ingress p) generation (ba_clock ans) (jc_max_event_bytes config) (cap_name_bytes caps))) ∧
      withdrawn = (λ c, Capture.invalidate c IDonorLost) <$> capture live ∧
      ba_reserve_encoded ans (encoded_bytes (pf_size p)) = true ∧ ba_reserve_decoded ans (decoded_bytes (pf_size p)) = true ∧
      measure_image live universe caps = Ok (pf_size p) ∧
      ∃ l, encode live universe caps (pf_size p) = Ok l ∧ Z.of_nat (length l) = encoded_bytes (pf_size p) ∧
        encode_pending p universe caps =
          (Ok tt, mkPending (pf_ingress p) None (pf_size p) (Some l) (Some (image_hash l)) (pf_encoded p) (pf_decoded p))
  end.
Proof using LO.
  intros Hwf Hty Hep Hfit. destruct (begin_fleet_capture live ans generation config universe caps) as [[[p w]|e] live'] eqn:E.
  2:{ revert E. unfold begin_fleet_capture. match goal with |- context [match ?m with Ok _ => _ | Err _ => _ end] => destruct m end; [done|].
      by intros [= _ ->]. }
  destruct (begun_encodes _ _ _ _ _ _ _ _ _ Hwf Hty Hep Hfit E) as (Hm & Hl).
  apply begin_capture_Ok in E as (_ & _ & He & Hd & _ & Hw & Hlive). by split_and!.
Qed.

(** ** The ingress *)

(** Index operations keep the capture that is attached, in its place. *)
Lemma retire_other live ingress : has_fleet_capture live ingress = false → retire_fleet_capture live ingress = (None, live).
Proof using. unfold retire_fleet_capture. by intros ->. Qed.

Lemma finish_Ok live p finishes accepted image live' :
  finish_pending live p finishes accepted = (Ok image, live') →
  live' = live ∧ has_fleet_capture live (pf_ingress p) = true ∧ pf_encoded_image p = Some (di_bytes image) ∧
  pf_commitment p = Some (di_commitment image) ∧ di_ingress image = pf_ingress p.
Proof using.
  unfold finish_pending. match goal with |- context [match ?m with Ok _ => _ | Err _ => _ end] => destruct m as [i|e] eqn:E end; [|done].
  intros [= <- <-]. apply bind_ok in E as (l & Hl%ok_or_ok & E). apply bind_ok in E as (c & Hc%ok_or_ok & E).
  apply bind_ok in E as ([] & _ & E). apply bind_ok in E as (? & _ & E). apply bind_ok in E as (? & _ & E).
  apply bind_ok in E as (h & Hh%ok_or_ok & E). apply bind_ok in E as ([] & _ & [= <-]). cbn. split_and!; try done.
  unfold has_fleet_capture. apply bind_Some in Hc as (c' & -> & Hc). cbn. by destruct (same_ingress c' (pf_ingress p)).
Qed.

(** ** Chunks *)

Lemma concat_slices (n : nat) (l : bytes) (chunks : list bytes) :
  (∀ i c, chunks !! i = Some c → c = take n (drop (i * n) l)) → concat chunks = take (length chunks * n) l.
Proof using.
  induction chunks as [|c chunks IH] using rev_ind; intros H; [done|]. rewrite concat_app. cbn [concat]. rewrite app_nil_r, IH.
  - rewrite (H (length chunks) c) by (by rewrite lookup_app_r, Nat.sub_diag by done). rewrite length_app. cbn [length].
    rewrite Nat.mul_add_distr_r, Nat.mul_1_l. by rewrite take_take_drop.
  - intros i c' Hi. apply H. rewrite lookup_app_l; [done|by eapply lookup_lt_Some].
Qed.

Lemma image_chunk_Ok live image active sequence max_bytes reserve c :
  0 <= sequence → image_chunk live image active sequence max_bytes reserve = Ok c →
  c ≠ [] ∧ c = take (Z.to_nat CHUNK_BYTES) (drop (Z.to_nat sequence * Z.to_nat CHUNK_BYTES) (di_bytes image)).
Proof using.
  intros Hs. unfold image_chunk. intros H. apply bind_ok in H as ([] & _ & H).
  apply bind_ok in H as (start & Hst%ok_or_ok & H). apply checked_mul_Some in Hst as [-> _].
  apply bind_ok in H as (stop & Hsp%ok_or_ok & H). apply checked_add_Some in Hsp as [-> _].
  apply bind_ok in H as ([] & Hge%refuse_if_ok & H). apply bind_ok in H as ([] & Hne%refuse_if_ok & H).
  apply bind_ok in H as ([] & _ & [= <-]). apply orb_false_iff in Hne as [Hne _]. apply bool_decide_eq_false in Hne. split; [done|].
  apply Z.ltb_ge in Hge. replace (Z.to_nat (sequence * CHUNK_BYTES)) with (Z.to_nat sequence * Z.to_nat CHUNK_BYTES)%nat in *
    by (rewrite Z2Nat.inj_mul; unfold CHUNK_BYTES; lia).
  set (l := drop _ (di_bytes image)). destruct (Z.min_spec (sequence * CHUNK_BYTES + CHUNK_BYTES) (Z.of_nat (length (di_bytes image)))) as [[_ ->]|[Hle ->]].
  - f_equal. lia.
  - assert (length l <= Z.to_nat CHUNK_BYTES)%nat by (unfold l; rewrite length_drop; unfold CHUNK_BYTES in *; lia).
    rewrite !take_ge; [done|lia|]. unfold l. rewrite length_drop. unfold CHUNK_BYTES in *. lia.
Qed.

Lemma div_ceil_covers a b : 0 < b → 0 <= a → a <= div_ceil a b * b.
Proof using. intros Hb Ha. unfold div_ceil. pose proof (Z.div_mod (a + b - 1) b ltac:(lia)). pose proof (Z.mod_pos_bound (a + b - 1) b Hb). lia. Qed.

(** The chunks a donor serves, each in its place, are the image. *)
Lemma chunks_are_image image (chunks : list bytes) :
  Z.of_nat (length chunks) = div_ceil (Z.of_nat (length (di_bytes image))) CHUNK_BYTES →
  (∀ i c, chunks !! i = Some c → ∃ live active reserve, image_chunk live image active (Z.of_nat i) CHUNK_BYTES reserve = Ok c) →
  concat chunks = di_bytes image ∧ Forall (λ c, c ≠ []) chunks.
Proof using.
  intros Hn Hc. assert (∀ i c, chunks !! i = Some c → c ≠ [] ∧ c = take (Z.to_nat CHUNK_BYTES) (drop (i * Z.to_nat CHUNK_BYTES) (di_bytes image))) as H.
  { intros i c Hi. destruct (Hc i c Hi) as (live & active & reserve & Ha). apply image_chunk_Ok in Ha; [|lia]. by rewrite Nat2Z.id in Ha. }
  split.
  - rewrite (concat_slices (Z.to_nat CHUNK_BYTES) (di_bytes image) chunks) by (intros i c Hi; by apply H). apply take_ge.
    pose proof (div_ceil_covers (Z.of_nat (length (di_bytes image))) CHUNK_BYTES ltac:(unfold CHUNK_BYTES; lia) ltac:(lia)).
    unfold CHUNK_BYTES in *. nia.
  - apply Forall_forall. intros c [i Hi]%list_elem_of_lookup_1. by apply (H i c Hi).
Qed.

Lemma image_offer_Ok live image journal active max_metadata headers reserve offer :
  image_offer live image journal active max_metadata headers reserve = Ok offer →
  has_fleet_capture live (di_ingress image) = true ∧
  to_encoded_bytes offer = Z.of_nat (length (di_bytes image)) ∧ to_chunks offer = div_ceil (to_encoded_bytes offer) CHUNK_BYTES ∧
  to_commitment offer = di_commitment image ∧ jf_image_charge journal = Some (to_decoded_bytes offer) ∧
  to_image_cut offer = mkCursor (jf_id journal) 0.
Proof using.
  unfold image_offer. intros H. apply bind_ok in H as ([] & Ha%refuse_if_ok & H). apply bind_ok in H as ([] & _ & H).
  apply bind_ok in H as (? & _ & H). apply bind_ok in H as ([] & _ & H). apply bind_ok in H as (d & Hd%ok_or_ok & H).
  apply bind_ok in H as (? & _ & H). apply bind_ok in H as ([] & _ & [= <-]). cbn.
  apply orb_false_iff in Ha as [_ Ha%negb_false_iff]. done.
Qed.

(** ** The bootstrap *)

(** An index that can be imaged has no rebuild and no fence. *)
Lemma measured_served live universe caps sz :
  index_wf live → index_after_epoch live → measure_image live universe caps = Ok sz → served live.
Proof using LO.
  intros Hwf Hep Hm. pose proof (measure_image_Ok _ _ _ _ Hm) as (Hv & _ & Hsz & Hu & _).
  apply validate_Ok in Hv as (_ & _ & _ & _ & _ & _ & Hr & Hn). intros name b Hb.
  assert (universe_ok live caps universe 0 None) as Hok by (by apply fits_universe_ok).
  assert (complete_bucket b = true) as Hc.
  { apply (universe_complete live caps universe 0 None name); [done| |done]. eapply universe_covers; [done..|]. by rewrite Hb. }
  unfold complete_bucket in Hc. apply andb_true_iff in Hc as [[_ Hunc%bool_decide_eq_true]%andb_true_iff Hg].
  assert (rebuild_generation b = None) as Hg' by (by destruct (rebuild_generation b)).
  split; [|done]. split; [done|]. by apply (bw_touched b (iw_bucket live Hwf name b Hb)).
Qed.

(** [C4] A bootstrap, from the donor's lock to the follower's private index.  A donor begins
    a capture of an index at C whose rows are typed, within the name cap, with names that
    are text and tags the parser reads back, encodes it, finishes it and offers it;
    meanwhile any index operations that keep the capture attached, with effects of the same
    kind, run on the donor, and the capture stands, its journal sound.  A follower that
    stages the offer and takes the chunks the donor serves verifies them, and once it has
    accepted batches that carry the journal's effects, however they are cut, it holds for
    every key the skeleton of the donor's present row (the fields the wire carries: all but
    the content type and the metadata of a HEAD) and exactly its tombstone. *)
Theorem bootstrap_transfers live ans generation config universe caps p withdrawn s0
    s' finishes accepted image s'' journal active max_metadata headers reserve offer chunks now (st0 : FleetStage CaptureId) evs s1 c1 :
  0 <= cap_rows caps → 0 <= cap_decoded_bytes caps →
  index_wf live → index_typed live → index_after_epoch live → index_wire live → fits_index (cap_name_bytes caps) live →
  begin_fleet_capture live ans generation config universe caps = (Ok (p, withdrawn), s0) →
  finish_pending s' (encode_pending p universe caps).2 finishes accepted = (Ok image, s') →
  jf_image_charge journal = Some (decoded_bytes (pf_size p)) →
  image_offer s'' image journal active max_metadata headers reserve = Ok offer →
  Z.of_nat (length chunks) = to_chunks offer →
  (∀ i c, chunks !! i = Some c → ∃ live active reserve, image_chunk live image active (Z.of_nat i) CHUNK_BYTES reserve = Ok c) →
  stage_new (to_encoded_bytes offer) (to_chunks offer) (to_image_cut offer) (to_decoded_bytes offer) caps
    (jc_max_event_bytes config) now = Ok st0 →
  Forall (λ ev, keeps_capture ev = true) evs → run s0 evs = Some s1 → capture s1 = Some c1 → sound c1 →
  effects_within (wire_ok (cap_decoded_bytes caps)) s0 evs →
  ∃ st2, verify (store_chunks st0 0 chunks).2 (to_commitment offer) = (Ok tt, st2) ∧
    ∀ batches st3, batch_effects batches = omap call_effect (cp_calls c1) → stage_batches st2 batches = (Ok tt, st3) →
      ∃ t, stage_ok st3 t ∧ ∀ name k, reg_at t name k = skeletal_reg (reg_at s1 name k).
Proof using LO.
  intros Hrc Hdc Hwf Hty Hep Hw Hfit Hbegin Hfin Hch Hoff Hn Hchunks Hnew Hk Hr Hc1 Hsd HQ.
  destruct (begun_encodes _ _ _ _ _ _ _ _ _ Hwf Hty Hep Hfit Hbegin) as (Hm & l & Hl & _ & Henc). rewrite Henc in Hfin. cbn [snd] in Hfin.
  apply finish_Ok in Hfin as (_ & _ & [= Hbytes] & [= Hcom] & _). cbn in Hbytes, Hcom. subst l.
  apply image_offer_Ok in Hoff as (_ & Hob & Hoc & Hcm & Hcharge & _). rewrite Hch in Hcharge. injection Hcharge as Hdec.
  rewrite Hoc, Hob in Hn. destruct (chunks_are_image image chunks Hn Hchunks) as [Hcat Hne].
  rewrite Hob, <- Hdec, Hoc, Hob, <- Hn in Hnew. rewrite Hcm, <- Hcom.
  destruct (image_staged _ _ _ _ _ _ _ _ _ _ Hrc Hwf Hty Hw Hm Hl Hcat Hne Hnew) as (st1 & t & Hst & Hver & Hok & Hcaps & Hev & _ & Hreg).
  rewrite Hst. eexists. split; [exact Hver|]. intros batches st3 Heff Hb.
  pose proof (measure_image_Ok _ _ _ _ Hm) as (Hv & _). apply validate_Ok in Hv as (_ & _ & _ & _ & Hcd0 & _).
  apply begin_capture_Ok in Hbegin as (_ & _ & _ & _ & _ & _ & ->).
  set (c0 := Capture.new _ _ _ _ _) in *.
  apply (staged_replays _ t (with_capture live (Some c0)) c0 evs s1 c1 batches st3 Hok) in Hb; rewrite ?Hcaps, ?Hev; try done; [lia|by apply with_capture_wf|].
  by apply (measured_served live universe caps (pf_size p)).
Qed.
End capture.

(** ** A concrete bootstrap *)

#[local] Existing Instance layout64.
#[local] Existing Instance layout64_ok.
#[local] Existing Instance parse_quoted.
#[local] Existing Instance demo_hash.

Definition demo_answers : BeginAnswers := mkBeginAnswers true (λ _, true) (λ _, true) (λ _ _ _, true) (Some 3) (λ _, 7).
Definition demo_config : JournalConfig :=
  mkJournalConfig 1000 20000 16 1024 512 64 2 64 64 4096 8 1024 512 8 1024 2048 60000 30000.
Definition demo_begun := begin_fleet_capture demo_index demo_answers 1 demo_config ["b"] demo_caps.
Definition demo_pending : PendingFleetCapture :=
  match demo_begun.1 with Ok (p, _) => p | Err _ => mkPending 0 None demo_size None None None None end.
Definition demo_image : FleetDonorImage := mkDonorImage demo_bytes (image_hash demo_bytes) 3.
Definition demo_capture_id : CaptureId := mkCaptureId "d" "p" "n" 1 1.
Definition demo_journal : JournalFacts := mkJournalFacts demo_capture_id (Some (decoded_bytes demo_size)) ["n"] [].
Definition demo_offer : TransferOffer :=
  mkOffer (mkCursor demo_capture_id 0) demo_capture_id 1 (Z.of_nat (length demo_bytes)) (decoded_bytes demo_size) 1
    (image_hash demo_bytes) ["n"] [].
Definition offered_stage : FleetStage CaptureId :=
  mkStage [] (Z.of_nat (length demo_bytes)) (decoded_bytes demo_size) 1 0 demo_caps None 0 (mkCursor demo_capture_id 0) 512 9.
Definition offered_batch : JournalBatch CaptureId :=
  mkBatch (mkCursor demo_capture_id 0) (mkCursor demo_capture_id 2)
    (imap (λ i l, mkJournalDelta (1 + Z.of_nat i) l) (omap call_effect (cp_calls donor_capture))).

Lemma demo_after_epoch : index_after_epoch demo_index.
Proof.
  intros name b [-> ->]%demo_bucket. split.
  - intros k e [-> ->]%demo_key. by vm_compute.
  - by intros k t [-> ->]%demo_tomb.
Qed.

Lemma demo_fits : fits_index 100 demo_index.
Proof. intros name b [-> ->]%demo_bucket. split; repeat constructor; by vm_compute. Qed.

Lemma capture_exact_witness :
  demo_begun.2 = donor_start ∧ encode_pending demo_pending ["b"] demo_caps =
    (Ok tt, mkPending 3 None demo_size (Some demo_bytes) (Some (image_hash demo_bytes)) (Some (encoded_bytes demo_size))
       (Some (decoded_bytes demo_size))).
Proof.
  pose proof (capture_exact demo_index demo_answers 1 demo_config ["b"] demo_caps demo_index_wf demo_index_typed demo_after_epoch
    demo_fits) as H. destruct (begin_fleet_capture _ _ _ _ _ _) as [[[p w]|e] live'] eqn:E; [|exfalso; by vm_compute in E].
  assert (p = demo_pending) as -> by (unfold demo_pending, demo_begun; by rewrite E).
  destruct H as (Hlive & _ & _ & _ & _ & l & Hl & _ & Henc). split.
  - unfold demo_begun. rewrite E. cbn [snd]. rewrite Hlive. vm_compute. reflexivity.
  - rewrite Henc. assert (encode demo_index ["b"] demo_caps (pf_size demo_pending) = Ok demo_bytes) as Hb by (vm_compute; reflexivity).
    rewrite Hb in Hl. apply (f_equal (λ r, match r with Ok x => x | Err _ => [] end)) in Hl. cbv beta iota in Hl. rewrite <- Hl.
    vm_compute. reflexivity.
Defined.

Lemma bootstrap_transfers_witness :
  ∃ st2, verify (store_chunks offered_stage 0 [demo_bytes]).2 (image_hash demo_bytes) = (Ok tt, st2) ∧
    ∃ t, stage_ok (stage_batch st2 offered_batch).2 t ∧ ∀ k, reg_at t "b" k = skeletal_reg (reg_at donor_end "b" k).
Proof.
  destruct (bootstrap_transfers demo_index demo_answers 1 demo_config ["b"] demo_caps demo_pending None donor_start
    donor_start (λ _ _ _, true) true demo_image donor_start demo_journal (true, true) 4096 256 (λ _, true) demo_offer [demo_bytes] 9
    offered_stage donor_events donor_end donor_capture) as (st2 & Hv & Hb);
    [by vm_compute|by vm_compute|apply demo_index_wf|apply demo_index_typed|apply demo_after_epoch|apply demo_index_wire|apply demo_fits
    |vm_compute; reflexivity|vm_compute; reflexivity|vm_compute; reflexivity|vm_compute; reflexivity|vm_compute; reflexivity
    | |vm_compute; reflexivity|by repeat constructor|vm_compute; reflexivity|vm_compute; reflexivity|apply donor_sound| |].
  - intros [|i] c; [|done]. intros Hc. apply (f_equal (default [])) in Hc. change (demo_bytes = c) in Hc. rewrite <- Hc. exists donor_start, true, (λ _, true). vm_compute. reflexivity.
  - cbn [effects_within donor_events exec from_option]. split; [repeat constructor; by vm_compute|].
    split; [repeat constructor; by vm_compute|]. split; [repeat constructor; by vm_compute|exact I].
  - exists st2. split; [exact Hv|].
    assert (stage_batch st2 offered_batch = (Ok tt, (stage_batch st2 offered_batch).2)) as Hok.
    { assert (st2 = (verify (store_chunks offered_stage 0 [demo_bytes]).2 (to_commitment demo_offer)).2) as -> by (by rewrite Hv).
      vm_compute. reflexivity. }
    assert (stage_batches st2 [offered_batch] = (Ok tt, (stage_batch st2 offered_batch).2)) as Hoks by (cbn [stage_batches]; by rewrite Hok).
    destruct (Hb [offered_batch] _ ltac:(vm_compute; reflexivity) Hoks) as (t & Ht & Hreg). exists t. split; [exact Ht|].
    intros k. apply Hreg.
Defined.
