(* ===== verification/FollowerPort.v ===== *)
(** * The follower's port

    [src/src/sync/volatile/fleet/follower.rs] with the follower half of
    [src/src/sync/volatile/fleet/donor.rs] and the roster checks of
    [src/src/sync/volatile/fleet.rs]: [groupnet]'s transfer worker asks for one effect at a
    time, and the port carries it out on the private stage and, once, on the live index.
    What [groupnet] and the runtime answer (admission, the observed roster, the permit, the
    blocking task) are arguments. *)

From S2P Require Import Prelude.
From S2P Require Import ObjTypes.
From S2P Require Import ImageCodec.
From S2P Require Import Rows.
From S2P Require Import IndexCapture.
From S2P Require Import KeyIndex.
From S2P Require Import Image.
From S2P Require Import Install.
From S2P Require Import Stage.
From S2P Require Import Donor.

(** ** The source roster *)

Record Member := mkMember { mb_node : string; mb_presence : option (Z * Z); mb_incarnation : Z; mb_status : Z }.

#[global] Instance Member_eq_dec : EqDecision Member.
Proof. solve_decision. Defined.

Record Participation := mkParticipation {
  pn_sampled_at : Z;
  pn_roster : list Member;
  pn_participants : list (Member * Z);
}.

(** [groupnet]'s [same_membership]. *)
Class SameMembership := same_membership : list Member → list Member → bool.

Definition u128_max : Z := 2 ^ 128 - 1.

Section roster.
Context `{SameMembership}.

(** The age of a snapshot in milliseconds, rounded up, and one more. *)
Definition snapshot_age (sampled_at now : Z) : option Z :=
  elapsed ← checked_sub now sampled_at;
  nanos ← checked_add u128_max elapsed 999999;
  millis ← try_from u64_max (nanos / 1000000);
  checked_add u64_max millis 1.

Definition fresh_roster (snapshot : Participation) (expected : list Member) (now : Z) : bool :=
  match snapshot_age (pn_sampled_at snapshot) now with
  | None => false
  | Some age =>
      same_membership (pn_roster snapshot) expected
      && forallb (λ p, age <? p.2) (pn_participants snapshot)
      && forallb (λ m, is_none (mb_presence m) || existsb (λ p, bool_decide (p.1 = m)) (pn_participants snapshot)) (pn_roster snapshot)
  end.

(** [observed]: the participation [groupnet] reports in time, and the clock then. *)
Definition source_matches (observed : option (Participation * Z)) (expected : list Member) : bool :=
  is_some_and (λ '(snapshot, now), fresh_roster snapshot expected now) observed.
End roster.

(** ** Effects and events *)

Record ReservationId := mkReservation { rv_follower : string; rv_serial : Z }.

#[global] Instance ReservationId_eq_dec : EqDecision ReservationId.
Proof. solve_decision. Defined.

Record BarrierReceipt := mkBarrier {
  br_cursor : JournalCursor CaptureId;
  br_reservation : ReservationId;
  br_attach_operation : Z;
  br_covered_cuts : list NativeCut;
  br_members : list Member;
}.

Record NativeCoverage := mkCoverage {
  nc_parent : Z;
  nc_staged_through : JournalCursor CaptureId;
  nc_proven_cuts : list NativeCut;
  nc_members : list Member;
  nc_buffered_bytes : Z;
  nc_barrier : BarrierReceipt;
}.

Record AttachToken := mkAttach { at_reservation : ReservationId; at_operation : Z }.

#[global] Instance AttachToken_eq_dec : EqDecision AttachToken.
Proof. solve_decision. Defined.

Inductive TransferEffect :=
| ReserveStage (op : Z) (image_cut : JournalCursor CaptureId) (chunks encoded_bytes decoded_bytes : Z)
| VerifyImage (op : Z) (commitment : bytes)
| CheckNativeCoverage (op : Z) (receipt : BarrierReceipt)
| InstallCandidate (op : Z) (coverage : NativeCoverage)
| DiscardStage
| OtherEffect.

Record NativeHandoff := mkHandoff {
  nh_install : Z;
  nh_coverage : NativeCoverage;
  nh_attachment : AttachToken;
  nh_schema : Z;
  nh_applier_generation : Z;
  nh_continued_cuts : list NativeCut;
  nh_buffered_bytes : Z;
}.

Inductive TransferEvent :=
| StageReserved (op : Z)
| ImageVerified (op : Z) (commitment : bytes)
| NativePending (op : Z)
| NativeCovered (op : Z) (coverage : NativeCoverage)
| Installed (op : Z) (handoff : NativeHandoff).

(** ** The port *)

Record PortAnswers := mkAnswers {
  pa_expired : bool;
  pa_now : Z;
  pa_encoded : Z → bool;
  pa_decoded : Z → bool;
  (** [StageResources::new] of the stage and its permits. *)
  pa_resources : bool;
  (** [event_charge], with metadata or without. *)
  pa_charge : bool → bool;
  (** The blocking task returned. *)
  pa_joined : bool;
  pa_observed : option (Participation * Z);
  (** The permit there is, and whether it publishes. *)
  pa_permit : option bool;
  (** The iteration order of the live bucket table. *)
  pa_order : list string;
}.

(** The stage and the attachment of a transfer, the live index and [NEXT_APPLIER]. *)
Record Port := mkPort {
  pt_stage : option (FleetStage CaptureId);
  pt_attachment : option AttachToken;
  pt_live : KeyIndexState;
  pt_next_applier : Z;
}.

Definition with_stage (p : Port) (stage : option (FleetStage CaptureId)) : Port :=
  mkPort stage (pt_attachment p) (pt_live p) (pt_next_applier p).
Definition with_live (p : Port) (live : KeyIndexState) : Port :=
  mkPort (pt_stage p) (pt_attachment p) live (pt_next_applier p).

Section port.
Context {L : Layout} {P : EtagParse} {H : ImageHash} {A : AlignCuts} `{SameMembership}.

(** An event in its charge. *)
Definition charged (ans : PortAnswers) (metadata : bool) (e : TransferEvent) : result unit (option TransferEvent) :=
  _ ← refuse_if (negb (pa_charge ans metadata)) tt;
  Ok (Some e).

Definition reserve_stage (p : Port) (ans : PortAnswers) (op : Z) (image_cut : JournalCursor CaptureId)
    (chunks encoded_bytes decoded_bytes : Z) : result unit (option TransferEvent) * Port :=
  let staged :=
    _ ← refuse_if (is_some (pt_stage p) || (cap_bytes IMAGE_CAPS <? encoded_bytes)
                   || (cap_decoded_bytes IMAGE_CAPS <? decoded_bytes)) tt;
    _ ← refuse_if (negb (pa_encoded ans encoded_bytes) || negb (pa_decoded ans decoded_bytes)) tt;
    stage ← map_err (λ _, tt) (stage_new encoded_bytes chunks image_cut decoded_bytes IMAGE_CAPS
              (jc_max_event_bytes JOURNAL_CONFIG) (pa_now ans));
    _ ← refuse_if (negb (pa_resources ans)) tt;
    Ok stage in
  match staged with
  | Err e => (Err e, p)
  | Ok stage => (charged ans false (StageReserved op), with_stage p (Some stage))
  end.

(** The stage is lost with a verification that fails. *)
Definition verify_image (p : Port) (ans : PortAnswers) (op : Z) (commitment : bytes)
    : result unit (option TransferEvent) * Port :=
  match pt_stage p with
  | None => (Err tt, p)
  | Some stage =>
      match verify stage commitment with
      | (Ok _, stage) =>
          if pa_joined ans then (charged ans false (ImageVerified op commitment), with_stage p (Some stage))
          else (Err tt, with_stage p None)
      | (Err _, _) => (Err tt, with_stage p None)
      end
  end.

Definition check_native_coverage (p : Port) (ans : PortAnswers) (parent : Z) (follower : string) (universe : list string)
    (op : Z) (receipt : BarrierReceipt) : result unit (option TransferEvent) * Port :=
  match pt_stage p with
  | None => (Err tt, p)
  | Some stage =>
      if negb (bool_decide (fs_through stage = br_cursor receipt))
         || negb (bool_decide (rv_follower (br_reservation receipt) = follower))
         || negb (source_matches (pa_observed ans) (br_members receipt))
      then (Err tt, p)
      else
        match check_coverage stage (pa_order ans) (pt_live p) (br_covered_cuts receipt) universe with
        | Ok _ =>
            (charged ans true (NativeCovered op (mkCoverage parent (br_cursor receipt) (br_covered_cuts receipt)
               (br_members receipt) 0 receipt)), p)
        | Err (Pending _) => (charged ans false (NativePending op), p)
        | Err (Incompatible _) => (Err tt, p)
        end
  end.

(** What must hold before the publication guard is entered. *)
Definition install_allowed (p : Port) (ans : PortAnswers) (parent : Z) (coverage : NativeCoverage) : option AttachToken :=
  _ ← pa_permit ans;
  attachment ← pt_attachment p;
  if negb (nc_parent coverage =? parent)
     || negb (bool_decide (br_reservation (nc_barrier coverage) = at_reservation attachment))
     || negb (br_attach_operation (nc_barrier coverage) =? at_operation attachment)
     || negb (bool_decide (nc_staged_through coverage = br_cursor (nc_barrier coverage)))
     || negb (nc_buffered_bytes coverage =? 0)
     || negb (source_matches (pa_observed ans) (nc_members coverage)) || negb (pa_charge ans true)
  then None else Some attachment.

Definition install_candidate (p : Port) (ans : PortAnswers) (parent : Z) (universe : list string) (op : Z)
    (coverage : NativeCoverage) : result unit (option TransferEvent) * Port :=
  match install_allowed p ans parent coverage with
  | None => (Err tt, p)
  | Some attachment =>
      match checked_add u64_max (pt_next_applier p) 1 with
      | None => (Err tt, p)
      | Some next =>
          let applier_generation := pt_next_applier p in
          let p := mkPort (pt_stage p) (pt_attachment p) (pt_live p) next in
          if applier_generation =? 0 then (Err tt, p)
          else
            match pt_stage p with
            | None => (Err tt, p)
            | Some stage =>
                if negb (default false (pa_permit ans)) then (Err tt, p)
                else
                  let '(installed, stage, live) :=
                    install_into stage (pa_order ans) (pt_live p) (nc_proven_cuts coverage) universe in
                  let p := with_live (with_stage p (Some stage)) live in
                  match installed with
                  | Ok _ =>
                      (Ok (Some (Installed op (mkHandoff op coverage attachment IMAGE_SCHEMA applier_generation
                         (nc_proven_cuts coverage) 0))), with_stage p None)
                  | Err (Pending _) => (charged ans false (NativePending op), p)
                  | Err (Incompatible _) => (Err tt, p)
                  end
            end
      end
  end.

Definition execute_follower (p : Port) (ans : PortAnswers) (parent : Z) (follower : string) (universe : list string)
    (effect : TransferEffect) : result unit (option TransferEvent) * Port :=
  if pa_expired ans then (Err tt, p)
  else
    match effect with
    | ReserveStage op image_cut chunks encoded_bytes decoded_bytes => reserve_stage p ans op image_cut chunks encoded_bytes decoded_bytes
    | VerifyImage op commitment => verify_image p ans op commitment
    | CheckNativeCoverage op receipt => check_native_coverage p ans parent follower universe op receipt
    | InstallCandidate op coverage => install_candidate p ans parent universe op coverage
    | DiscardStage => (Ok None, with_stage p None)
    | OtherEffect => (Err tt, p)
    end.

(** The port's other callbacks. *)
Definition port_store_chunk (p : Port) (sequence : Z) (chunk : bytes) : result unit unit * Port :=
  match pt_stage p with
  | None => (Err tt, p)
  | Some stage =>
      let '(r, stage) := store_chunk stage sequence chunk in
      (map_err (λ _, tt) r, with_stage p (Some stage))
  end.

Definition port_stage_batch (p : Port) (batch : JournalBatch CaptureId) : result unit unit * Port :=
  match pt_stage p with
  | None => (Err tt, p)
  | Some stage =>
      let '(r, stage) := stage_batch stage batch in
      (map_err (λ _, tt) r, with_stage p (Some stage))
  end.

Definition detach (p : Port) (token : AttachToken) : result unit unit * Port :=
  if negb (bool_decide (pt_attachment p = Some token)) then (Err tt, p)
  else (Ok tt, mkPort (pt_stage p) None (pt_live p) (pt_next_applier p)).
End port.

(** [FleetStatePort::new]: the universe it accepts. *)
Fixpoint has_disorder (l : list string) : bool :=
  match l with
  | [] => false
  | a :: l => is_some_and (λ b, sleb b a) (head l) || has_disorder l
  end.

Definition port_new (universe : list string) : result unit (list string) :=
  _ ← refuse_if (bool_decide (universe = []) || (cap_buckets IMAGE_CAPS <? Z.of_nat (length universe)) || has_disorder universe) tt;
  Ok universe.
