(* ===== verification/FollowerProps.v ===== *)
(** * What the follower's port promises

    Whatever [groupnet] asks for and in whatever order, the live index changes only in a
    permitted install, the candidate is then a verified image with journal effects replayed
    on it, and an install uses its stage up. *)

From S2P Require Import Prelude.
From S2P Require Import ObjTypes.
From S2P Require Import ImageCodec.
From S2P Require Import Rows.
From S2P Require Import IndexCapture.
From S2P Require Import KeyIndex.
From S2P Require Import IndexMachine.
From S2P Require Import CodecProps.
From S2P Require Import Image.
From S2P Require Import ImageRound.
From S2P Require Import Install.
From S2P Require Import Stage.
From S2P Require Import Replay.
From S2P Require Import StageProps.
From S2P Require Import Donor.
From S2P Require Import DonorProps.
From S2P Require Import FollowerPort.

(** ** Steps *)

(** What happens to a port: an effect, a chunk, a batch, an attachment that comes or goes,
    an operation on the live index. *)
Inductive PortStep :=
| Effect (ans : PortAnswers) (effect : TransferEffect)
| Chunk (sequence : Z) (chunk : bytes)
| Batch (batch : JournalBatch CaptureId)
| Attach (token : AttachToken)
| Detach (token : AttachToken)
| Live (ev : index_event).

Section props.
Context {L : Layout} {P : EtagParse} {H : ImageHash} {A : AlignCuts} {SM : SameMembership}.
Context (parent : Z) (follower : string) (universe : list string).

Definition port_step (p : Port) (st : PortStep) : Port :=
  match st with
  | Effect ans effect => (execute_follower p ans parent follower universe effect).2
  | Chunk sequence chunk => (port_store_chunk p sequence chunk).2
  | Batch batch => (port_stage_batch p batch).2
  | Attach token => mkPort (pt_stage p) (Some token) (pt_live p) (pt_next_applier p)
  | Detach token => (detach p token).2
  | Live ev => with_live p (default (pt_live p) (exec (pt_live p) ev))
  end.

Definition port_run (p : Port) (steps : list PortStep) : Port := foldl port_step p steps.

(** ** The live index *)

Lemma install_cases order live stage cuts max_rows :
  match install_fleet_candidate order live stage cuts universe max_rows with
  | (Ok _, index, _) => index = None
  | (Err _, index, live') => live' = live ∧ (index = stage ∨ index = None)
  end.
Proof using.
  unfold install_fleet_candidate. destruct stage as [candidate|]; [|auto]. destruct (check_candidate _ _ _ _ _ _); [|auto].
  destruct (_ ≫= _); auto.
Qed.

(** Only a permitted install writes it. *)
Lemma execute_live p ans effect :
  match execute_follower p ans parent follower universe effect with
  | (r, p') =>
      pt_live p' = pt_live p ∨
      ∃ op coverage attachment stage w, effect = InstallCandidate op coverage ∧
        pa_expired ans = false ∧ pa_permit ans = Some true ∧ install_allowed p ans parent coverage = Some attachment ∧
        pt_stage p = Some stage ∧ pt_stage p' = None ∧
        install_fleet_candidate (pa_order ans) (pt_live p) (fs_index stage) (nc_proven_cuts coverage) universe
          (cap_rows (fs_caps stage)) = (Ok w, None, pt_live p') ∧
        r = Ok (Some (Installed op (mkHandoff op coverage attachment IMAGE_SCHEMA (pt_next_applier p) (nc_proven_cuts coverage) 0)))
  end.
Proof using.
  unfold execute_follower. destruct (pa_expired ans); [by left|].
  destruct effect as [op cut chunks enc dec|op commitment|op receipt|op coverage| |]; [| | | |by left|by left].
  - unfold reserve_stage. match goal with |- context [match ?m with Ok _ => _ | Err _ => _ end] => destruct m end; by left.
  - unfold verify_image. destruct (pt_stage p) as [stage|]; [|by left]. destruct (verify stage commitment) as [[]]; [|by left].
    by destruct (pa_joined ans); left.
  - unfold check_native_coverage. destruct (pt_stage p) as [stage|]; [|by left]. destruct (_ || _ || _); [by left|].
    destruct (check_coverage _ _ _ _ _) as [|[]]; by left.
  - unfold install_candidate. destruct (install_allowed p ans parent coverage) as [attachment|] eqn:Ea; [|by left].
    destruct (checked_add _ _ _) as [next|]; [|by left]. destruct (_ =? 0); [by left|]. cbn [pt_stage pt_live].
    destruct (pt_stage p) as [stage|] eqn:Es; [|by left]. destruct (pa_permit ans) as [[]|] eqn:Ep; [|by left..]. cbn [default negb].
    unfold install_into. pose proof (install_cases (pa_order ans) (pt_live p) (fs_index stage) (nc_proven_cuts coverage) (cap_rows (fs_caps stage))) as Hi.
    destruct (install_fleet_candidate _ _ _ _ _ _) as [[[w|[]] index] live] eqn:Ei.
    + subst index. right. exists op, coverage, attachment, stage, w. by split_and!.
    + left. apply Hi.
    + left. apply Hi.
Qed.

(** ** The candidate *)

(** A batch, whether it is accepted or not, only replays effects. *)
Lemma stage_delta_replays (st : FleetStage CaptureId) expected jd t :
  fs_index st = Some t →
  let st' := (stage_delta st expected jd).2 in
  (∃ ds, fs_index st' = Some (replay t ds)) ∧ fs_encoded st' = fs_encoded st ∧ fs_caps st' = fs_caps st ∧
  fs_expected_bytes st' = fs_expected_bytes st ∧ fs_decoded_bytes st' = fs_decoded_bytes st ∧
  fs_expected_chunks st' = fs_expected_chunks st ∧ fs_next_chunk st' = fs_next_chunk st.
Proof using.
  intros Hi. unfold stage_delta. rewrite Hi.
  match goal with |- context [match ?m with Ok _ => _ | Err _ => _ end] => destruct m as [[[x d] before]|] end;
    [|cbn; split_and!; try done; by exists []].
  assert (∃ ds, Some (delta_apply d t).2 = Some (replay t ds)) as Hd by (by exists [d]).
  destruct (delta_apply d t) as [[ch bucket] t']. cbn [fst snd] in *. destruct bucket as [bucket|]; [|done].
  destruct (ok_or (buckets t' !! bucket) Incomplete ≫= _); [|done]. by destruct (_ <? _).
Qed.

Definition same_shape (st st' : FleetStage CaptureId) : Prop :=
  fs_encoded st' = fs_encoded st ∧ fs_caps st' = fs_caps st ∧ fs_expected_bytes st' = fs_expected_bytes st ∧
  fs_decoded_bytes st' = fs_decoded_bytes st ∧ fs_expected_chunks st' = fs_expected_chunks st ∧ fs_next_chunk st' = fs_next_chunk st.

Lemma stage_deltas_replays jds : ∀ (st : FleetStage CaptureId) expected t,
  fs_index st = Some t →
  (∃ ds, fs_index (stage_deltas st expected jds).2 = Some (replay t ds)) ∧ same_shape st (stage_deltas st expected jds).2.
Proof using.
  induction jds as [|jd jds IH]; intros st expected t Hi; cbn [stage_deltas]; [split; [by exists []|done]|].
  pose proof (stage_delta_replays st expected jd t Hi) as Hd. destruct (stage_delta st expected jd) as [[e|] st1]; cbn in Hd.
  - destruct Hd as ([ds1 H1] & S1 & S2 & S3 & S4 & S5 & S6). destruct (IH st1 e _ H1) as ([ds2 H2] & T1 & T2 & T3 & T4 & T5 & T6). split.
    + exists (ds1 ++ ds2). rewrite H2. unfold replay. by rewrite foldl_app.
    + split_and!; congruence.
  - done.
Qed.

Lemma stage_batch_replays (st : FleetStage CaptureId) batch :
  same_shape st (stage_batch st batch).2 ∧
  match fs_index st with
  | Some t => ∃ ds, fs_index (stage_batch st batch).2 = Some (replay t ds)
  | None => fs_index (stage_batch st batch).2 = None
  end.
Proof using.
  unfold stage_batch. destruct (fs_index st) as [t|] eqn:Hi; [|done]. destruct (_ || _ || _); [split; [done|by exists []]|].
  pose proof (stage_deltas_replays (jb_deltas batch) st (jc_position (fs_through st)) t Hi) as [Hd Hs].
  destruct (stage_deltas _ _ _) as [[e|] st1]; [|done]. by destruct (negb _).
Qed.

(** What the stage holds is an image one of the [commitments] vouches for, with effects
    replayed on it. *)
Definition vouched (commitments : list bytes) (st : FleetStage CaptureId) : Prop :=
  ∀ t, fs_index st = Some t →
    fs_next_chunk st = fs_expected_chunks st ∧ image_hash (fs_encoded st) ∈ commitments ∧
    ∃ d ds, decode (fs_encoded st) (reserved_caps (fs_expected_bytes st) (fs_decoded_bytes st) (fs_caps st)) = Ok d ∧ t = replay d ds.

Definition port_ok (commitments : list bytes) (p : Port) : Prop :=
  ∀ st, pt_stage p = Some st → fs_caps st = IMAGE_CAPS ∧ vouched commitments st.

Definition commitment_of (st : PortStep) : option bytes :=
  match st with Effect _ (VerifyImage _ commitment) => Some commitment | _ => None end.

Lemma port_ok_more cs c p : port_ok cs p → port_ok (c :: cs) p.
Proof using. intros Hp st Hst. destruct (Hp st Hst) as [? Hv]. split; [done|]. intros t Ht. destruct (Hv t Ht) as (? & ? & ?). set_solver. Qed.

Lemma port_ok_stage cs p p' : pt_stage p' = pt_stage p ∨ pt_stage p' = None → port_ok cs p → port_ok cs p'.
Proof using. intros Hs Hp st Hst. destruct Hs as [Hs|Hs]; [|congruence]. apply Hp. congruence. Qed.

Lemma execute_ok cs p ans effect :
  port_ok cs p →
  port_ok (match commitment_of (Effect ans effect) with Some c => c :: cs | None => cs end)
    (execute_follower p ans parent follower universe effect).2.
Proof using.
  intros Hp. unfold execute_follower. destruct (pa_expired ans).
  { cbn. destruct effect; try done. by apply port_ok_more. }
  destruct effect as [op cut chunks enc dec|op commitment|op receipt|op coverage| |]; cbn [commitment_of]; [| | | | |done].
  - unfold reserve_stage. match goal with |- context [match ?m with Ok _ => _ | Err _ => _ end] => destruct m as [stage|] eqn:E end; [|done].
    apply bind_ok in E as ([] & _ & E). apply bind_ok in E as ([] & _ & E). apply bind_ok in E as (stage' & Hs%map_err_ok & E).
    apply bind_ok in E as ([] & _ & [= ->]). unfold stage_new in Hs. apply bind_ok in Hs as ([] & _ & [= <-]).
    intros st [= <-]. split; [done|]. intros t [=].
  - unfold verify_image. destruct (pt_stage p) as [stage|] eqn:Es; [|by apply port_ok_more].
    destruct (Hp stage Es) as [Hcaps Hv]. unfold verify. destruct (_ || _ || _) eqn:Eg; [by intros st|].
    destruct (negb (bool_decide _)) eqn:Eh; [by intros st|]. destruct (decode _ _) as [d|] eqn:Ed; [|by intros st]. cbn [fst snd].
    destruct (pa_joined ans); [|by intros st]. intros st [= <-]. split; [done|]. intros t [= <-]. cbn.
    apply negb_false_iff, bool_decide_eq_true in Eh. bool_prop. split_and!; [done|set_solver|]. exists d, []. by split.
  - unfold check_native_coverage. destruct (pt_stage p) as [stage|]; [|done]. destruct (_ || _ || _); [done|].
    by destruct (check_coverage _ _ _ _ _) as [|[]].
  - unfold install_candidate. destruct (install_allowed p ans parent coverage); [|done]. destruct (checked_add _ _ _); [|done].
    destruct (_ =? 0); [done|]. cbn [pt_stage pt_live]. destruct (pt_stage p) as [stage|] eqn:Es; [|done].
    destruct (negb _); [by eapply port_ok_stage; [|exact Hp]; left|]. unfold install_into.
    pose proof (install_cases (pa_order ans) (pt_live p) (fs_index stage) (nc_proven_cuts coverage) (cap_rows (fs_caps stage))) as Hi.
    destruct (Hp stage Es) as [Hcaps Hv].
    assert (∀ index, index = fs_index stage ∨ index = None → ∀ st, Some (with_index stage index (fs_rows stage)) = Some st →
      fs_caps st = IMAGE_CAPS ∧ vouched cs st) as Hkeep.
    { intros index Hx st [= <-]. split; [done|]. intros t Ht. cbn in Ht. destruct Hx as [-> | ->]; [|done]. by apply Hv. }
    destruct (install_fleet_candidate _ _ _ _ _ _) as [[[w|[]] index] live]; [by intros st|..]; exact (Hkeep index (proj2 Hi)).
  - by intros st.
Qed.

Lemma port_step_ok cs p st :
  port_ok cs p → port_ok (match commitment_of st with Some c => c :: cs | None => cs end) (port_step p st).
Proof using.
  intros Hp. destruct st as [ans effect|sequence chunk|batch|token|token|ev]; cbn [port_step commitment_of];
    [by apply execute_ok| | |by apply (port_ok_stage cs p); [left|]| |by apply (port_ok_stage cs p); [left|]].
  - unfold port_store_chunk. destruct (pt_stage p) as [stage|] eqn:Es; [|done]. destruct (Hp stage Es) as [Hcaps Hv].
    pose proof (store_chunk_cases stage sequence chunk) as Hc. destruct (store_chunk stage sequence chunk) as [[[]|] stage'].
    + destruct Hc as (-> & _ & Hlt & _ & ->). intros st [= <-]. split; [done|]. intros t Ht. destruct (Hv t Ht) as (Hn & _). lia.
    + subst stage'. intros st [= <-]. done.
  - unfold port_stage_batch. destruct (pt_stage p) as [stage|] eqn:Es; [|done]. destruct (Hp stage Es) as [Hcaps Hv].
    pose proof (stage_batch_replays stage batch) as [(S1 & S2 & S3 & S4 & S5 & S6) Hb]. destruct (stage_batch stage batch) as [r stage']. cbn [snd] in *.
    intros st [= <-]. split; [congruence|]. intros t Ht. destruct (fs_index stage) as [t0|] eqn:Ei; [|congruence].
    destruct Hb as [ds Hb]. destruct (Hv t0 Ei) as (Hn & Hh & d & ds0 & Hd & ->). rewrite S1, S2, S3, S4, S5, S6. split_and!; [done..|].
    exists d, (ds0 ++ ds). split; [done|]. rewrite Hb in Ht. injection Ht as <-. unfold replay. by rewrite foldl_app.
  - unfold detach. destruct (negb _); [done|]. by apply (port_ok_stage cs p); [left|].
Qed.

Lemma port_run_ok steps : ∀ cs p, port_ok cs p → port_ok (reverse (omap commitment_of steps) ++ cs) (port_run p steps).
Proof using.
  induction steps as [|st steps IH]; intros cs p Hp; [done|]. unfold port_run in *. cbn [foldl omap list_omap].
  specialize (IH _ _ (port_step_ok cs p st Hp)). destruct (commitment_of st) as [c|]; [|done].
  rewrite reverse_cons, <- app_assoc. done.
Qed.

(** [C11] A follower installs only what was verified, once, and under a permit.  Whatever
    effects, chunks, batches, attachments and operations on the live index a port has seen,
    an effect changes the live index only when it is an install that the permit publishes,
    of a coverage that carries this attachment's reservation and operation, under an
    unchanged roster; the candidate it installs is the decoding of bytes whose hash is a
    commitment some verification asked for, with journal effects replayed on it; it reports
    the handoff and uses the stage up, so no second install can follow. *)
Theorem follower_installs_verified p0 steps ans effect :
  pt_stage p0 = None →
  let p := port_run p0 steps in
  let '(r, p') := execute_follower p ans parent follower universe effect in
  pt_live p' = pt_live p ∨
  ∃ op coverage attachment bytes_ caps d ds w,
    effect = InstallCandidate op coverage ∧ pa_permit ans = Some true ∧ pt_attachment p = Some attachment ∧
    br_reservation (nc_barrier coverage) = at_reservation attachment ∧ br_attach_operation (nc_barrier coverage) = at_operation attachment ∧
    nc_staged_through coverage = br_cursor (nc_barrier coverage) ∧ source_matches (pa_observed ans) (nc_members coverage) = true ∧
    Some (image_hash bytes_) ∈ commitment_of <$> steps ∧ decode bytes_ caps = Ok d ∧
    install_fleet_candidate (pa_order ans) (pt_live p) (Some (replay d ds)) (nc_proven_cuts coverage) universe (cap_rows IMAGE_CAPS) =
      (Ok w, None, pt_live p') ∧
    (∃ handoff, r = Ok (Some (Installed op handoff)) ∧ nh_coverage handoff = coverage ∧ nh_attachment handoff = attachment) ∧
    pt_stage p' = None ∧ ∀ ans' op' coverage', pt_live (execute_follower p' ans' parent follower universe (InstallCandidate op' coverage')).2 = pt_live p'.
Proof using.
  intros H0 p. assert (port_ok (reverse (omap commitment_of steps) ++ []) p) as Hp.
  { apply port_run_ok. intros st Hst. congruence. }
  pose proof (execute_live p ans effect) as Hx. destruct (execute_follower p ans parent follower universe effect) as [r p'].
  destruct Hx as [|(op & coverage & attachment & stage & w & -> & Hexp & Hperm & Hal & Hst & Hst' & Hi & ->)]; [by left|]. right.
  destruct (Hp stage Hst) as [Hcaps Hv]. rewrite Hcaps in Hi.
  destruct (fs_index stage) as [t|] eqn:Ef; [|by unfold install_fleet_candidate in Hi].
  destruct (Hv t Ef) as (_ & Hh & d & ds & Hd & ->). rewrite app_nil_r in Hh.
  unfold install_allowed in Hal. apply bind_Some in Hal as (? & _ & (att & Hatt & Hal)%bind_Some).
  destruct (_ || _) eqn:Eg in Hal; [done|]. injection Hal as ->. bool_prop.
  eexists op, coverage, attachment, _, _, d, ds, w. split_and!; try done.
  - apply list_elem_of_fmap. apply elem_of_reverse, list_elem_of_omap in Hh as (st & Hin & Hc). eauto.
  - eauto.
  - intros ans' op' coverage'. pose proof (execute_live p' ans' (InstallCandidate op' coverage')) as Hy.
    destruct (execute_follower p' ans' _ _ _ _) as [r2 p2]. destruct Hy as [|(? & ? & ? & st2 & ? & _ & _ & _ & _ & Hs2 & _)]; [done|]. congruence.
Qed.
End props.

(** ** A concrete install *)

#[local] Existing Instance layout64.
#[local] Existing Instance parse_quoted.
#[local] Existing Instance demo_hash.
#[local] Instance demo_align : AlignCuts := λ _ _, (AExact, None).
#[local] Instance demo_membership : SameMembership := λ a b, bool_decide (a = b).

Definition demo_port : Port := mkPort None None KeyIndexState_default 1.
Definition demo_token : AttachToken := mkAttach (mkReservation "me" 4) 5.
Definition demo_roster : Participation := mkParticipation 0 [mkMember "d" (Some (1, 2)) 3 0] [(mkMember "d" (Some (1, 2)) 3 0, 2000)].
Definition demo_port_answers : PortAnswers :=
  mkAnswers false 9 (λ _, true) (λ _, true) true (λ _, true) true (Some (demo_roster, 1000000)) (Some true) [].
Definition demo_barrier : BarrierReceipt :=
  mkBarrier (mkCursor demo_capture_id 2) (mkReservation "me" 4) 5 [] [mkMember "d" (Some (1, 2)) 3 0].
Definition demo_coverage : NativeCoverage :=
  mkCoverage 8 (mkCursor demo_capture_id 2) [] [mkMember "d" (Some (1, 2)) 3 0] 0 demo_barrier.
Definition demo_steps : list PortStep :=
  [Attach demo_token;
   Effect demo_port_answers (ReserveStage 1 (mkCursor demo_capture_id 0) 1 (Z.of_nat (length demo_bytes)) (decoded_bytes demo_size));
   Chunk 0 demo_bytes; Effect demo_port_answers (VerifyImage 2 (image_hash demo_bytes)); Batch offered_batch;
   Effect demo_port_answers (CheckNativeCoverage 3 demo_barrier)].
Definition demo_installed : Port :=
  (execute_follower (port_run 8 "me" ["b"] demo_port demo_steps) demo_port_answers 8 "me" ["b"] (InstallCandidate 4 demo_coverage)).2.

Lemma follower_installs_verified_witness :
  is_some (buckets (pt_live demo_installed) !! "b") = true ∧
  (∃ bytes_ caps d, Some (image_hash bytes_) ∈ commitment_of <$> demo_steps ∧ decode bytes_ caps = Ok d) ∧ pt_stage demo_installed = None.
Proof.
  assert (is_some (buckets (pt_live demo_installed) !! "b") = true) as Hb by (vm_compute; reflexivity). split; [exact Hb|].
  pose proof (follower_installs_verified 8 "me" ["b"] demo_port demo_steps demo_port_answers (InstallCandidate 4 demo_coverage) eq_refl) as Hx.
  unfold demo_installed in *. cbv zeta in Hx.
  destruct (execute_follower (port_run 8 "me" ["b"] demo_port demo_steps) _ _ _ _ _) as [r p']. cbn [snd] in *.
  destruct Hx as [Hl|(op & coverage & attachment & l & caps & d & ds & w & _ & _ & _ & _ & _ & _ & _ & Hc & Hd & _ & _ & Hs & _)].
  - exfalso. rewrite Hl in Hb. vm_compute in Hb. discriminate Hb.
  - split; [|exact Hs]. exists l, caps, d. split; [exact Hc|exact Hd].
Defined.
