(* ===== verification/Control.v ===== *)
(** * Control-source slots

    [src/src/sync/control/]: a bounded history of immutable records over a
    store that can only create an absent object.  [types.rs] gives the data,
    [codec.rs] the record frame, [journal.rs] the operations, [pending.rs] the
    projection of unresolved mutations, [s3.rs] the store.

    A store operation is awaited and other writers run in between, so an
    operation of the journal is a program ([prog]) of store calls; its meaning on
    a shared store is given in [ControlStore].  [postcard], [base64] and [blake3]
    are parameters. *)

From S2P Require Import Prelude.
From S2P Require Import LegacyCodec.
From stdpp Require Import pretty.
#[local] Open Scope Z_scope.

(** ** Data ([types.rs]) *)

Record SourceId := mkSource { src_name : string; src_generation : Z }.
Record Cursor := mkCtlCursor { cur_source : SourceId; cur_bucket : string; cur_next_slot : Z }.

Inductive Mutation := MPut | MDelete | MCopy | MMultipartComplete.
Inductive FinalOutcome := Committed | RejectedWithoutMutation | AbortedBeforeDispatch.

Inductive Record_ :=
| Intent (op_id key : string) (mutation : Mutation)
| Outcome (op_id : string) (intent_slot : Z) (key : string) (result_ : FinalOutcome)
| ReaderAdmission (reader_id : string) (incarnation max_serve_ms config_version : Z).

Inductive PutVerdict := Created | Occupied | Unknown.
Definition StoreError : Type := string.

#[global] Instance SourceId_eq_dec : EqDecision SourceId.
Proof. solve_decision. Defined.
#[global] Instance Cursor_eq_dec : EqDecision Cursor.
Proof. solve_decision. Defined.
#[global] Instance Mutation_eq_dec : EqDecision Mutation.
Proof. solve_decision. Defined.
#[global] Instance FinalOutcome_eq_dec : EqDecision FinalOutcome.
Proof. solve_decision. Defined.
#[global] Instance Record_eq_dec : EqDecision Record_.
Proof. solve_decision. Defined.
#[global] Instance PutVerdict_eq_dec : EqDecision PutVerdict.
Proof. solve_decision. Defined.

(** ** Limits and errors ([journal.rs]) *)

Record Limits := mkLimits {
  max_record_bytes : Z;
  max_slots : Z;
  max_scan_events : Z;
  max_scan_bytes : Z;
  max_append_probes : Z;
}.
Definition Limits_default : Limits := mkLimits (16 * 1024) 1000000 4096 (8 * 1024 * 1024) 64.

Record JournalConfig := mkConfig {
  jcfg_source : SourceId;
  admission_version : Z;
  max_admission_ms : Z;
  limits : Limits;
}.

Inductive JournalError :=
| StoreFailed (e : StoreError)
| UnknownWrite (slot : Z) (retry_from : Cursor)
| UnknownManifest
| JCapacity
| Backpressured
| AppendBackpressured (resume : Cursor)
| JCorrupt (what : string)
| ConfigMismatch.

Inductive AppendResult := ACreated (c : Cursor) | ARecovered (c : Cursor).
Record ScanPage := mkPage { pg_records : list Record_; pg_cursor : Cursor; pg_at_first_absent : bool }.
Record SlotEnvelope := mkEnvelopeOf { env_source : SourceId; env_bucket : string; env_slot : Z; env_record : Record_ }.

#[global] Instance Limits_eq_dec : EqDecision Limits.
Proof. solve_decision. Defined.
#[global] Instance JournalConfig_eq_dec : EqDecision JournalConfig.
Proof. solve_decision. Defined.
#[global] Instance SlotEnvelope_eq_dec : EqDecision SlotEnvelope.
Proof. solve_decision. Defined.

(** ** The record frame ([codec.rs]) *)

(** [codec::to_vec], [codec::from_slice] and [codec::legacy::from_slice] of one
    record type. *)
Record RecordCodec (T : Type) := mkCodec {
  rc_to_vec : T → option bytes;
  rc_from_slice : bytes → option T;
  rc_legacy : bytes → option T;
}.
Arguments rc_to_vec {T} _ _.
Arguments rc_from_slice {T} _ _.
Arguments rc_legacy {T} _ _.

Definition MAGIC : bytes := [Byte.x53; Byte.x33; Byte.x43; Byte.x4a].
Definition CVERSION : Z := 2.
Definition LEGACY_VERSION : Z := 1.
Definition HEADER : Z := 9.
Definition DIGEST : Z := 32.

(** [blake3::hash(..).as_bytes()]. *)
Class RecordHash := record_hash : bytes → bytes.

Section frame.
Context {B : RecordHash} {T : Type}.

Definition record_encode (cd : RecordCodec T) (value : T) (max_bytes : Z) : result JournalError bytes :=
  payload ← ok_or (rc_to_vec cd value) (JCorrupt "record cannot encode");
  let len := Z.of_nat (length payload) in
  total ← ok_or (size ← checked_add usize_max HEADER len; checked_add usize_max size DIGEST) JCapacity;
  _ ← refuse_if (max_bytes <? total) JCapacity;
  payload_len ← ok_or (try_from u32_max len) JCapacity;
  let l := MAGIC ++ to_le_bytes 1 CVERSION ++ to_le_bytes 4 payload_len ++ payload in
  Ok (l ++ record_hash l).

Definition is_current (l : bytes) : bool :=
  bool_decide (take 4 l = MAGIC) && bool_decide (take 1 (drop 4 l) = to_le_bytes 1 CVERSION).

Definition record_decode (cd : RecordCodec T) (l : bytes) (max_bytes : Z) : result JournalError T :=
  let n := Z.of_nat (length l) in
  _ ← refuse_if ((max_bytes <? n) || (n <? HEADER + DIGEST)) (JCorrupt "record length outside limit");
  let version := from_le_bytes (take 1 (drop 4 l)) in
  _ ← refuse_if (negb (bool_decide (take 4 l = MAGIC))
                 || (negb (version =? CVERSION) && negb (version =? LEGACY_VERSION)))
        (JCorrupt "record format mismatch");
  let len := from_le_bytes (take 4 (drop 5 l)) in
  _ ← refuse_if (negb (bool_decide (checked_add usize_max len (HEADER + DIGEST) = Some n)))
        (JCorrupt "record length mismatch");
  let contents := take (Z.to_nat (HEADER + len)) l in
  let checksum := drop (Z.to_nat (HEADER + len)) l in
  _ ← refuse_if (negb (bool_decide (record_hash contents = checksum))) (JCorrupt "record checksum mismatch");
  let payload := drop (Z.to_nat HEADER) contents in
  ok_or (if version =? CVERSION then rc_from_slice cd payload else rc_legacy cd payload)
    (JCorrupt "record payload invalid").
End frame.

(** ** Store programs *)

Inductive prog (A : Type) : Type :=
| Ret (a : A)
| PutIfAbsent (key : string) (l : bytes) (k : result StoreError PutVerdict → prog A)
| Get (key : string) (k : result StoreError (option bytes) → prog A).
Arguments Ret {A} a.
Arguments PutIfAbsent {A} key l k.
Arguments Get {A} key k.

(** An awaited computation that may fail. *)
Definition J (A : Type) : Type := prog (result JournalError A).

Fixpoint prog_bind {A B} (p : J A) (f : A → J B) : J B :=
  match p with
  | Ret (Ok a) => f a
  | Ret (Err e) => Ret (Err e)
  | PutIfAbsent key l k => PutIfAbsent key l (λ ans, prog_bind (k ans) f)
  | Get key k => Get key (λ ans, prog_bind (k ans) f)
  end.
#[global] Instance J_bind : MBind J := λ A B f p, prog_bind p f.

Definition lift {A} (r : result JournalError A) : J A := Ret r.
Definition ret {A} (a : A) : J A := Ret (Ok a).
Definition raise {A} (e : JournalError) : J A := Ret (Err e).

(** [store.put_if_absent(..).await?] and [store.get(..).await?]. *)
Definition store_put (key : string) (l : bytes) : J PutVerdict :=
  PutIfAbsent key l (λ ans, Ret (map_err StoreFailed ans)).
Definition store_get (key : string) : J (option bytes) := Get key (λ ans, Ret (map_err StoreFailed ans)).

(** ** Keys *)

(** [URL_SAFE_NO_PAD.encode]. *)
Class KeyEncoding := b64url : string → string.

(** [{n:0w$}] for [0 <= n < 10^w]. *)
Definition digit (d : Z) : Ascii.ascii := Ascii.ascii_of_nat (Z.to_nat (48 + d)).
Fixpoint padded (w : nat) (n : Z) : string :=
  match w with
  | O => ""
  | S w => padded w (n / 10) +:+ String (digit (n mod 10)) ""
  end.

Section journal.
Context {B : RecordHash} {K : KeyEncoding}.
Context (slots : RecordCodec SlotEnvelope) (manifests : RecordCodec JournalConfig).

Definition manifest_key (source : SourceId) : string :=
  "s3cache-control/v1/" +:+ b64url (src_name source) +:+ "/manifest".

Definition slot_key (source : SourceId) (bucket : string) (slot : Z) : string :=
  "s3cache-control/v1/" +:+ b64url (src_name source) +:+ "/" +:+ pretty (Z.to_N (src_generation source))
    +:+ "/bucket/" +:+ b64url bucket +:+ "/slot/" +:+ padded 20 slot.

(** ** The journal *)

Definition validate_config (config : JournalConfig) : result JournalError unit :=
  let l := limits config in
  refuse_if (sempty (src_name (jcfg_source config)) || (admission_version config =? 0) || (max_admission_ms config =? 0)
             || (max_record_bytes l <? 128) || (max_slots l =? 0) || (max_scan_events l =? 0)
             || (max_scan_bytes l <? max_record_bytes l) || (max_append_probes l =? 0)
             || is_none (checked_mul u64_max (max_slots l) (max_record_bytes l))) ConfigMismatch.

Definition open_journal (config : JournalConfig) : J JournalConfig :=
  _ ← lift (validate_config config);
  let key := manifest_key (jcfg_source config) in
  expected ← lift (record_encode manifests config (max_record_bytes (limits config)));
  verdict ← store_put key expected;
  match verdict with
  | Created => ret config
  | Occupied | Unknown =>
      actual ← store_get key;
      actual ← lift (ok_or actual UnknownManifest);
      stored ← lift (record_decode manifests actual (max_record_bytes (limits config)));
      if negb (bool_decide (stored = config)) || (is_current actual && negb (bool_decide (actual = expected)))
      then raise ConfigMismatch
      else ret config
  end.

Definition start (config : JournalConfig) (bucket : string) : Cursor := mkCtlCursor (jcfg_source config) bucket 0.

Definition check_cursor (config : JournalConfig) (c : Cursor) : result JournalError unit :=
  refuse_if (negb (bool_decide (cur_source c = jcfg_source config)) || sempty (cur_bucket c)) ConfigMismatch.

Definition validate_record (config : JournalConfig) (r : Record_) : result JournalError unit :=
  match r with
  | Intent op_id key _ | Outcome op_id _ key _ =>
      refuse_if (sempty op_id || sempty key) (JCorrupt "empty operation ID or key")
  | ReaderAdmission reader_id incarnation max_serve_ms config_version =>
      refuse_if (sempty reader_id || (incarnation =? 0) || (max_serve_ms =? 0)
                 || (max_admission_ms config <? max_serve_ms)
                 || negb (config_version =? admission_version config)) ConfigMismatch
  end.

Definition decode_slot (config : JournalConfig) (l : bytes) (c : Cursor) (slot : Z) : result JournalError SlotEnvelope :=
  envelope ← record_decode slots l (max_record_bytes (limits config));
  _ ← refuse_if (negb (bool_decide (env_source envelope = cur_source c))
                 || negb (bool_decide (env_bucket envelope = cur_bucket c)) || negb (env_slot envelope =? slot))
        (JCorrupt "slot identity mismatch");
  _ ← validate_record config (env_record envelope);
  Ok envelope.

Definition after (from : Cursor) (slot : Z) : result JournalError Cursor :=
  next ← ok_or (checked_add u64_max slot 1) JCapacity;
  Ok (mkCtlCursor (cur_source from) (cur_bucket from) next).

(** The two records claim the same logical identity. *)
Definition same_identity (stored record : Record_) : bool :=
  match stored, record with
  | Intent a _ _, Intent b _ _ => bool_decide (a = b)
  | Outcome a a_slot _ _, Outcome b b_slot _ _ => bool_decide (a = b) && (a_slot =? b_slot)
  | ReaderAdmission a a_inc _ _, ReaderAdmission b b_inc _ _ => bool_decide (a = b) && (a_inc =? b_inc)
  | _, _ => false
  end.

Definition occupied (config : JournalConfig) (actual expected : bytes) (c : Cursor) (slot : Z) (record : Record_)
    : result JournalError bool :=
  envelope ← decode_slot config actual c slot;
  let stored := env_record envelope in
  if bool_decide (actual = expected) || (negb (is_current actual) && bool_decide (stored = record)) then Ok true
  else if same_identity stored record then Err (JCorrupt "logical record identity conflict")
  else Ok false.

Definition validate_predecessor (config : JournalConfig) (c : Cursor) : J unit :=
  match checked_sub (cur_next_slot c) 1 with
  | None => ret tt
  | Some prior =>
      _ ← lift (refuse_if (max_slots (limits config) <=? prior) JCapacity);
      found ← store_get (slot_key (jcfg_source config) (cur_bucket c) prior);
      l ← lift (ok_or found (JCorrupt "cursor predecessor absent"));
      _ ← lift (decode_slot config l c prior);
      ret tt
  end.

Definition validate_outcome_binding (config : JournalConfig) (c : Cursor) (slot : Z) (record : Record_) : J unit :=
  match record with
  | Outcome op_id intent_slot key _ =>
      _ ← lift (refuse_if (slot <=? intent_slot) (JCorrupt "outcome precedes intent"));
      found ← store_get (slot_key (jcfg_source config) (cur_bucket c) intent_slot);
      l ← lift (ok_or found (JCorrupt "outcome intent absent"));
      envelope ← lift (decode_slot config l c intent_slot);
      match env_record envelope with
      | Intent original original_key _ =>
          lift (refuse_if (negb (bool_decide (original = op_id) && bool_decide (original_key = key)))
                  (JCorrupt "outcome intent mismatch"))
      | _ => raise (JCorrupt "outcome intent mismatch")
      end
  | _ => ret tt
  end.

Definition envelope_of (config : JournalConfig) (c : Cursor) (slot : Z) (record : Record_) : SlotEnvelope :=
  mkEnvelopeOf (jcfg_source config) (cur_bucket c) slot record.

(** The loop of [append]; [probes] iterations are left. *)
Fixpoint append_probe (config : JournalConfig) (from : Cursor) (record : Record_) (probes : nat) (slot : Z)
    : J AppendResult :=
  match probes with
  | O =>
      if max_slots (limits config) <=? slot then raise JCapacity
      else raise (AppendBackpressured (mkCtlCursor (cur_source from) (cur_bucket from) slot))
  | S probes =>
      if max_slots (limits config) <=? slot then raise JCapacity
      else
        let key := slot_key (jcfg_source config) (cur_bucket from) slot in
        expected ← lift (record_encode slots (envelope_of config from slot record) (max_record_bytes (limits config)));
        found ← store_get key;
        match found with
        | Some actual =>
            same ← lift (occupied config actual expected from slot record);
            if same : bool then c ← lift (after from slot); ret (ARecovered c)
            else slot ← lift (ok_or (checked_add u64_max slot 1) JCapacity);
                 append_probe config from record probes slot
        | None =>
            _ ← validate_outcome_binding config from slot record;
            put ← store_put key expected;
            if bool_decide (put = Created) then c ← lift (after from slot); ret (ACreated c)
            else
              found ← store_get key;
              match found with
              | Some actual =>
                  same ← lift (occupied config actual expected from slot record);
                  if same : bool then c ← lift (after from slot); ret (ARecovered c)
                  else slot ← lift (ok_or (checked_add u64_max slot 1) JCapacity);
                       append_probe config from record probes slot
              | None => raise (UnknownWrite slot from)
              end
        end
  end.

Definition append (config : JournalConfig) (from : Cursor) (record : Record_) : J AppendResult :=
  _ ← lift (check_cursor config from);
  _ ← lift (validate_record config record);
  _ ← validate_predecessor config from;
  append_probe config from record (Z.to_nat (max_append_probes (limits config))) (cur_next_slot from).

(** The loop of [scan]; [events] iterations are left. *)
Fixpoint scan_page (config : JournalConfig) (events : nat) (records : list Record_) (c : Cursor) (bytes_read : Z)
    : J ScanPage :=
  match events with
  | O => ret (mkPage records c false)
  | S events =>
      if max_slots (limits config) <=? cur_next_slot c then
        if bool_decide (records = []) then raise JCapacity else ret (mkPage records c false)
      else
        found ← store_get (slot_key (jcfg_source config) (cur_bucket c) (cur_next_slot c));
        match found with
        | None => ret (mkPage records c true)
        | Some l =>
            bytes_read ← lift (ok_or (checked_add usize_max bytes_read (Z.of_nat (length l))) Backpressured);
            if max_scan_bytes (limits config) <? bytes_read then
              if bool_decide (records = []) then raise Backpressured else ret (mkPage records c false)
            else
              envelope ← lift (decode_slot config l c (cur_next_slot c));
              scan_page config events (records ++ [env_record envelope])
                (mkCtlCursor (cur_source c) (cur_bucket c) (cur_next_slot c + 1)) bytes_read
        end
  end.

Definition scan (config : JournalConfig) (from : Cursor) : J ScanPage :=
  _ ← lift (check_cursor config from);
  _ ← validate_predecessor config from;
  scan_page config (Z.to_nat (max_scan_events (limits config))) [] from 0.
End journal.

(** ** Unresolved mutations ([pending.rs]) *)

Record PendingSet := mkPending {
  pd_scope : option (SourceId * string);
  pd_next_slot : Z;
  pd_seen_ops : gset string;
  pd_by_op : gmap string (string * Z);
  pd_by_key : gmap string (gset string);
}.
Definition PendingSet_default : PendingSet := mkPending None 0 ∅ ∅ ∅.

(** The result and the set afterwards. *)
Definition apply_at (p : PendingSet) (c : Cursor) (record : Record_) : result JournalError unit * PendingSet :=
  if negb (cur_next_slot c =? pd_next_slot p)
     || is_some_and (λ sb, negb (bool_decide (sb.1 = cur_source c)) || negb (bool_decide (sb.2 = cur_bucket c))) (pd_scope p)
     || (is_none (pd_scope p) && negb (pd_next_slot p =? 0))
  then (Err ConfigMismatch, p)
  else match checked_add u64_max (pd_next_slot p) 1 with
  | None => (Err JCapacity, p)
  | Some next =>
      let finish seen by_op by_key :=
        (Ok tt, mkPending (Some (default (cur_source c, cur_bucket c) (pd_scope p))) next seen by_op by_key) in
      match record with
      | Intent op_id key _ =>
          if sempty op_id || sempty key then (Err (JCorrupt "empty operation ID or key"), p)
          else if bool_decide (op_id ∈ pd_seen_ops p) then (Err (JCorrupt "reused operation ID"), p)
          else finish ({[op_id]} ∪ pd_seen_ops p) (<[op_id := (key, cur_next_slot c)]> (pd_by_op p))
                 (<[key := {[op_id]} ∪ default ∅ (pd_by_key p !! key)]> (pd_by_key p))
      | Outcome op_id intent_slot key _ =>
          if negb (bool_decide (pd_by_op p !! op_id = Some (key, intent_slot)))
          then (Err (JCorrupt "outcome has no matching intent"), p)
          else match pd_by_key p !! key with
          | None => (Err (JCorrupt "missing pending key"), p)
          | Some ops =>
              if negb (bool_decide (op_id ∈ ops)) then (Err (JCorrupt "missing pending key"), p)
              else
                let ops := ops ∖ {[op_id]} in
                finish (pd_seen_ops p) (delete op_id (pd_by_op p))
                  (if bool_decide (ops = ∅) then delete key (pd_by_key p) else <[key := ops]> (pd_by_key p))
          end
      | ReaderAdmission _ _ _ _ => finish (pd_seen_ops p) (pd_by_op p) (pd_by_key p)
      end
  end.

Definition operations_for (p : PendingSet) (key : string) : option (gset string) := pd_by_key p !! key.
Definition pending_is_empty (p : PendingSet) : bool := bool_decide (pd_by_op p = ∅).
