(* ===== verification/ControlPending.v ===== *)
(** * The projection of unresolved mutations

    [PendingSet::apply_at] of [src/src/sync/control/pending.rs] against its
    history: the records accepted so far, in slot order. *)

From S2P Require Import Prelude.
From S2P Require Import LegacyCodec.
From S2P Require Import Control.

(** The intent of [op] on [key] at [slot] of the history has no outcome. *)
Definition unresolved (h : list Record_) (op key : string) (slot : Z) : Prop :=
  0 <= slot ∧ (∃ m, h !! Z.to_nat slot = Some (Intent op key m)) ∧
  ∀ r, Outcome op slot key r ∉ h.

(** The operation ids of the history's intents. *)
Definition op_seen (h : list Record_) (op : string) : Prop := ∃ key m, Intent op key m ∈ h.

(** What a record needs of the history before it. *)
Definition legal (h : list Record_) (r : Record_) : Prop :=
  match r with
  | Intent op key _ => op ≠ "" ∧ key ≠ "" ∧ ¬ op_seen h op
  | Outcome op slot key _ => unresolved h op key slot
  | ReaderAdmission _ _ _ _ => True
  end.

(** [apply_at] of each record at the next slot of the bucket. *)
Fixpoint apply_history (p : PendingSet) (source : SourceId) (bucket : string) (h : list Record_)
    : result JournalError PendingSet :=
  match h with
  | [] => Ok p
  | r :: h =>
      let '(res, p) := apply_at p (mkCtlCursor source bucket (pd_next_slot p)) r in
      _ ← res; apply_history p source bucket h
  end.

(** A set reads its history: what each field is. *)
Record projects (p : PendingSet) (source : SourceId) (bucket : string) (h : list Record_) : Prop := mkProjects {
  pj_scope : pd_scope p = if bool_decide (h = []) then None else Some (source, bucket);
  pj_next : pd_next_slot p = Z.of_nat (length h);
  pj_bound : Z.of_nat (length h) <= u64_max;
  pj_seen : ∀ op, op ∈ pd_seen_ops p ↔ op_seen h op;
  pj_ops : ∀ op key slot, pd_by_op p !! op = Some (key, slot) ↔ unresolved h op key slot;
  pj_keys : ∀ key, operations_for p key ≠ Some ∅;
  pj_key : ∀ key op, op ∈ default ∅ (operations_for p key) ↔ ∃ slot, unresolved h op key slot;
  (** An outcome refers to an earlier slot and an operation has one intent. *)
  pj_back : ∀ i op slot key r, h !! i = Some (Outcome op slot key r) → 0 <= slot < Z.of_nat i;
  pj_once : ∀ i j op k1 m1 k2 m2,
    h !! i = Some (Intent op k1 m1) → h !! j = Some (Intent op k2 m2) → i = j;
}.

Lemma unresolved_slot h op key slot : unresolved h op key slot → 0 <= slot < Z.of_nat (length h).
Proof. intros (? & (m & Hm%lookup_lt_Some) & _). lia. Qed.

Lemma unresolved_seen h op key slot : unresolved h op key slot → op_seen h op.
Proof. intros (? & (m & Hm%list_elem_of_lookup_2) & _). by exists key, m. Qed.

Lemma op_seen_snoc h r op :
  op_seen (h ++ [r]) op ↔ op_seen h op ∨ match r with Intent o _ _ => o = op | _ => False end.
Proof.
  unfold op_seen. setoid_rewrite elem_of_app. setoid_rewrite list_elem_of_singleton.
  destruct r; naive_solver.
Qed.

(** A record changes the unresolved operations in one way. *)
Lemma unresolved_snoc h r op key slot :
  (∀ i o s k q, h !! i = Some (Outcome o s k q) → s < Z.of_nat (length h)) →
  unresolved (h ++ [r]) op key slot ↔
  match r with
  | Intent o k _ => unresolved h op key slot ∨ (o = op ∧ k = key ∧ slot = Z.of_nat (length h))
  | Outcome o s k _ => unresolved h op key slot ∧ ¬ (o = op ∧ s = slot ∧ k = key) ∧ slot < Z.of_nat (length h)
  | ReaderAdmission _ _ _ _ => unresolved h op key slot
  end.
Proof.
  intros Hback. unfold unresolved. setoid_rewrite elem_of_app. setoid_rewrite list_elem_of_singleton.
  assert (Hl : ∀ m, 0 <= slot → (h ++ [r]) !! Z.to_nat slot = Some (Intent op key m) ↔
                    h !! Z.to_nat slot = Some (Intent op key m) ∨ (r = Intent op key m ∧ slot = Z.of_nat (length h))).
  { intros m Hs. rewrite lookup_app_Some. split.
    - intros [?|[? Hr]]; [auto|]. right. apply list_lookup_singleton_Some in Hr. split; [naive_solver|lia].
    - intros [?|[-> ->]]; [auto|]. right. rewrite Nat2Z.id, Nat.sub_diag. auto. }
  assert (Hlt : ∀ m, h !! Z.to_nat slot = Some (Intent op key m) → 0 <= slot → slot < Z.of_nat (length h)).
  { intros m Hm%lookup_lt_Some ?. lia. }
  assert (Hnew : ∀ q, Outcome op (Z.of_nat (length h)) key q ∉ h).
  { intros q (i & Hi)%list_elem_of_lookup. apply Hback in Hi. lia. }
  destruct r as [o k m0|o s k q|]; split.
  - intros (Hs & (m & Hm) & Hn). apply Hl in Hm as [Hm|[[= -> -> ->] ->]]; [left; naive_solver|right; naive_solver|done].
  - intros [(Hs & (m & Hm) & Hn)|(-> & -> & ->)].
    + split; [done|split; [exists m; apply Hl; auto|naive_solver]].
    + split; [lia|split; [exists m0; apply Hl; [lia|auto]|]]. intros q [Hin|?]; [by eapply Hnew|done].
  - intros (Hs & (m & Hm) & Hn). apply Hl in Hm as [Hm|[[=] ->]]; [|done].
    split; [naive_solver|split; [naive_solver|eauto]].
  - intros ((Hs & (m & Hm) & Hn) & Hne & ?). split; [done|split; [exists m; apply Hl; auto|naive_solver]].
  - intros (Hs & (m & Hm) & Hn). apply Hl in Hm as [Hm|[[=] ->]]; [|done]. naive_solver.
  - intros (Hs & (m & Hm) & Hn). split; [done|split; [exists m; apply Hl; auto|naive_solver]].
Qed.

Lemma sempty_spec s : sempty s = false ↔ s ≠ "".
Proof. by destruct s. Qed.

Lemma projects_default source bucket : projects PendingSet_default source bucket [].
Proof.
  split; try done.
  - intros op. split; [set_solver|]. intros (? & ? & ?%not_elem_of_nil). done.
  - intros op key slot. cbn [PendingSet_default pd_by_op]. rewrite lookup_empty. split; [done|]. intros (? & (m & ?) & _). done.
  - intros key op. unfold operations_for. cbn [PendingSet_default pd_by_key]. rewrite lookup_empty. cbn [default]. split; [set_solver|].
    intros (? & ? & (m & ?) & _). done.
Qed.

(** The cursor of the next slot passes the scope and order guards. *)
Lemma projects_guard p source bucket h :
  projects p source bucket h →
  negb (pd_next_slot p =? pd_next_slot p)
  || is_some_and (λ sb, negb (bool_decide (sb.1 = source)) || negb (bool_decide (sb.2 = bucket))) (pd_scope p)
  || (is_none (pd_scope p) && negb (pd_next_slot p =? 0)) = false.
Proof.
  intros Hp. rewrite Z.eqb_refl, (pj_scope _ _ _ _ Hp), (pj_next _ _ _ _ Hp).
  destruct h; cbn; [done|]. rewrite !bool_decide_eq_true_2 by done. done.
Qed.

Lemma pending_unique p source bucket h op k1 s1 k2 s2 :
  projects p source bucket h → unresolved h op k1 s1 → unresolved h op k2 s2 → k1 = k2 ∧ s1 = s2.
Proof.
  intros Hp H1%(pj_ops _ _ _ _ Hp) H2%(pj_ops _ _ _ _ Hp). rewrite H1 in H2. naive_solver.
Qed.

(** ** One record *)

(** The set after an accepted record, past the scope guards. *)
Definition advanced (p : PendingSet) (source : SourceId) (bucket : string) (seen : gset string)
    (by_op : gmap string (string * Z)) (by_key : gmap string (gset string)) : PendingSet :=
  mkPending (Some (default (source, bucket) (pd_scope p))) (pd_next_slot p + 1) seen by_op by_key.

Section record.
Context (p : PendingSet) (source : SourceId) (bucket : string) (h : list Record_).
Context (Hp : projects p source bucket h) (Hroom : Z.of_nat (length h) < u64_max).

Abbreviation here := (mkCtlCursor source bucket (pd_next_slot p)).

Lemma next_room : checked_add u64_max (pd_next_slot p) 1 = Some (pd_next_slot p + 1).
Proof using Hp Hroom. apply checked_add_Some. rewrite (pj_next _ _ _ _ Hp). lia. Qed.

Lemma accepts_intent op key m :
  legal h (Intent op key m) →
  apply_at p here (Intent op key m) =
  (Ok tt, advanced p source bucket ({[op]} ∪ pd_seen_ops p) (<[op := (key, pd_next_slot p)]> (pd_by_op p))
            (<[key := {[op]} ∪ default ∅ (pd_by_key p !! key)]> (pd_by_key p))).
Proof using Hp Hroom.
  intros (Ho & Hk & Hs). unfold apply_at. cbn [cur_next_slot cur_source cur_bucket].
  rewrite (projects_guard _ _ _ _ Hp), next_room.
  rewrite (proj2 (sempty_spec op) Ho), (proj2 (sempty_spec key) Hk). cbn [orb].
  rewrite bool_decide_eq_false_2 by (by rewrite (pj_seen _ _ _ _ Hp)). done.
Qed.

Lemma accepts_outcome op slot key r :
  legal h (Outcome op slot key r) →
  ∃ ops, pd_by_key p !! key = Some ops ∧ op ∈ ops ∧
  apply_at p here (Outcome op slot key r) =
  (Ok tt, advanced p source bucket (pd_seen_ops p) (delete op (pd_by_op p))
            (if bool_decide (ops ∖ {[op]} = ∅) then delete key (pd_by_key p)
             else <[key := ops ∖ {[op]}]> (pd_by_key p))).
Proof using Hp Hroom.
  intros Hu. cbn in Hu.
  assert (Hin : op ∈ default ∅ (operations_for p key)) by (apply (pj_key _ _ _ _ Hp); eauto).
  unfold operations_for in Hin. destruct (pd_by_key p !! key) as [ops|] eqn:Ek; [|set_solver].
  exists ops. split_and!; [done..|]. unfold apply_at. cbn [cur_next_slot cur_source cur_bucket].
  rewrite (projects_guard _ _ _ _ Hp), next_room, Ek.
  rewrite bool_decide_eq_true_2 by (by apply (pj_ops _ _ _ _ Hp)). cbn [negb].
  rewrite bool_decide_eq_true_2 by done. done.
Qed.

Lemma accepts_admission a b c d :
  apply_at p here (ReaderAdmission a b c d) =
  (Ok tt, advanced p source bucket (pd_seen_ops p) (pd_by_op p) (pd_by_key p)).
Proof using Hp Hroom.
  unfold apply_at. cbn [cur_next_slot cur_source cur_bucket]. by rewrite (projects_guard _ _ _ _ Hp), next_room.
Qed.

Lemma rejects_illegal r : ¬ legal h r → ∃ e, apply_at p here r = (Err e, p).
Proof using Hp Hroom.
  intros Hl. unfold apply_at. cbn [cur_next_slot cur_source cur_bucket].
  rewrite (projects_guard _ _ _ _ Hp), next_room. destruct r as [op key m|op slot key q|]; [| |by destruct Hl].
  - destruct (sempty op || sempty key) eqn:E; [eauto|]. apply orb_false_iff in E as [E1 E2].
    destruct (bool_decide _) eqn:E3; [eauto|]. bool_prop. destruct Hl.
    split_and!; [by apply sempty_spec..|by rewrite <- (pj_seen _ _ _ _ Hp)].
  - rewrite bool_decide_eq_false_2; [eauto|]. by rewrite (pj_ops _ _ _ _ Hp).
Qed.

Lemma back_lt : ∀ i o s k q, h !! i = Some (Outcome o s k q) → s < Z.of_nat (length h).
Proof using Hp.
  clear Hroom. intros i o s k q Hi. pose proof (lookup_lt_Some _ _ _ Hi). apply (pj_back _ _ _ _ Hp) in Hi. lia.
Qed.

(** The parts of [projects] that the record alone decides. *)
Lemma projects_advanced r seen by_op by_key :
  legal h r →
  (∀ op, op ∈ seen ↔ op_seen (h ++ [r]) op) →
  (∀ op key slot, by_op !! op = Some (key, slot) ↔ unresolved (h ++ [r]) op key slot) →
  (∀ key, by_key !! key ≠ Some ∅) →
  (∀ key op, op ∈ default ∅ (by_key !! key) ↔ ∃ slot, unresolved (h ++ [r]) op key slot) →
  projects (advanced p source bucket seen by_op by_key) source bucket (h ++ [r]).
Proof using Hp Hroom.
  intros Hl ????. split; unfold operations_for; cbn [advanced pd_scope pd_next_slot pd_seen_ops pd_by_op pd_by_key]; try done.
  - rewrite bool_decide_eq_false_2 by (by intros ?%app_eq_nil; naive_solver).
    rewrite (pj_scope _ _ _ _ Hp). by case_bool_decide.
  - rewrite (pj_next _ _ _ _ Hp), length_app. cbn. lia.
  - rewrite length_app. cbn. lia.
  - intros i op slot key q [Hi|[? Hi]]%lookup_app_Some; [by eapply (pj_back _ _ _ _ Hp)|].
    apply list_lookup_singleton_Some in Hi as [Hi ->]. apply unresolved_slot in Hl. lia.
  - intros i j op k1 m1 k2 m2 [Hi|[? Hi]]%lookup_app_Some [Hj|[? Hj]]%lookup_app_Some.
    + by eapply (pj_once _ _ _ _ Hp).
    + apply list_lookup_singleton_Some in Hj as [Hj ->]. destruct Hl as (_ & _ & []).
      apply list_elem_of_lookup_2 in Hi. by exists k1, m1.
    + apply list_lookup_singleton_Some in Hi as [Hi ->]. destruct Hl as (_ & _ & []).
      apply list_elem_of_lookup_2 in Hj. by exists k2, m2.
    + apply list_lookup_singleton_Some in Hi as [Hi _]. apply list_lookup_singleton_Some in Hj as [Hj _]. lia.
Qed.

Lemma default_insert (m : gmap string (gset string)) k v k' :
  default ∅ (<[k:=v]> m !! k') = if decide (k = k') then v else default ∅ (m !! k').
Proof. case_decide as E; [subst; by rewrite lookup_insert_eq|by rewrite lookup_insert_ne]. Qed.

Lemma default_delete (m : gmap string (gset string)) k k' :
  default ∅ (delete k m !! k') = if decide (k = k') then ∅ else default ∅ (m !! k').
Proof. case_decide as E; [subst; by rewrite lookup_delete_eq|by rewrite lookup_delete_ne]. Qed.

Lemma intent_projects op key m :
  legal h (Intent op key m) →
  projects (advanced p source bucket ({[op]} ∪ pd_seen_ops p) (<[op := (key, pd_next_slot p)]> (pd_by_op p))
              (<[key := {[op]} ∪ default ∅ (pd_by_key p !! key)]> (pd_by_key p))) source bucket
           (h ++ [Intent op key m]).
Proof using Hp Hroom.
  intros Hl. pose proof Hl as (_ & _ & Hs). apply projects_advanced; [done|..].
  - intros o. rewrite elem_of_union, elem_of_singleton, (pj_seen _ _ _ _ Hp), op_seen_snoc. naive_solver.
  - intros o k s. rewrite unresolved_snoc by apply back_lt. rewrite <- (pj_ops _ _ _ _ Hp).
    destruct (decide (op = o)) as [<-|Hne].
    + rewrite lookup_insert_eq, (pj_next _ _ _ _ Hp). split; [naive_solver|].
      intros [Hu%(pj_ops _ _ _ _ Hp)%unresolved_seen|]; [done|naive_solver].
    + rewrite lookup_insert_ne by done. naive_solver.
  - intros k. destruct (decide (key = k)) as [<-|Hne].
    + rewrite lookup_insert_eq. intros [= E]. set_solver.
    + rewrite lookup_insert_ne by done. apply (pj_keys _ _ _ _ Hp).
  - intros k o. rewrite default_insert. setoid_rewrite unresolved_snoc; [|apply back_lt..].
    pose proof (pj_key _ _ _ _ Hp k o) as Hk. unfold operations_for in Hk. case_decide as E; [subst k|].
    + rewrite elem_of_union, elem_of_singleton, Hk. naive_solver.
    + rewrite Hk. naive_solver.
Qed.

Lemma outcome_projects op slot key r ops :
  legal h (Outcome op slot key r) → pd_by_key p !! key = Some ops → op ∈ ops →
  projects (advanced p source bucket (pd_seen_ops p) (delete op (pd_by_op p))
              (if bool_decide (ops ∖ {[op]} = ∅) then delete key (pd_by_key p)
               else <[key := ops ∖ {[op]}]> (pd_by_key p))) source bucket (h ++ [Outcome op slot key r]).
Proof using Hp Hroom.
  intros Hl Ek Hin. cbn in Hl. apply projects_advanced; [done|..].
  - intros o. rewrite (pj_seen _ _ _ _ Hp), op_seen_snoc. naive_solver.
  - intros o k s. rewrite unresolved_snoc by apply back_lt. rewrite <- (pj_ops _ _ _ _ Hp).
    destruct (decide (op = o)) as [<-|Hne].
    + rewrite lookup_delete_eq. split; [done|]. intros (Hu%(pj_ops _ _ _ _ Hp) & Hn & _).
      destruct Hn. destruct (pending_unique _ _ _ _ _ _ _ _ _ Hp Hl Hu) as [-> ->]. done.
    + rewrite lookup_delete_ne by done. split; [|naive_solver]. intros Hu. split_and!; [done|naive_solver|].
      apply (pj_ops _ _ _ _ Hp), unresolved_slot in Hu. lia.
  - intros k. case_bool_decide as E; destruct (decide (key = k)) as [<-|Hne].
    + by rewrite lookup_delete_eq.
    + rewrite lookup_delete_ne by done. apply (pj_keys _ _ _ _ Hp).
    + rewrite lookup_insert_eq. by intros [=].
    + rewrite lookup_insert_ne by done. apply (pj_keys _ _ _ _ Hp).
  - intros k o. setoid_rewrite unresolved_snoc; [|apply back_lt..].
    pose proof (pj_key _ _ _ _ Hp k o) as Hk. unfold operations_for in Hk.
    assert (Hd : default ∅ ((if bool_decide (ops ∖ {[op]} = ∅) then delete key (pd_by_key p)
                 else <[key := ops ∖ {[op]}]> (pd_by_key p)) !! k) =
                 if decide (key = k) then ops ∖ {[op]} else default ∅ (pd_by_key p !! k)).
    { case_bool_decide as E; [rewrite default_delete, E|rewrite default_insert]; done. }
    rewrite Hd. case_decide as E; [subst k|].
    + rewrite Ek in Hk. cbn in Hk. rewrite elem_of_difference, elem_of_singleton, Hk. split.
      * intros [(s & Hs) Hne]. exists s. split_and!; [done|naive_solver|]. apply unresolved_slot in Hs. lia.
      * intros (s & Hs & Hn & _). split; [eauto|]. intros ->.
        destruct (pending_unique _ _ _ _ _ _ _ _ _ Hp Hl Hs) as [_ ->]. by destruct Hn.
    + rewrite Hk. split; [|naive_solver]. intros (s & Hs). exists s. split_and!; [done|naive_solver|].
      apply unresolved_slot in Hs. lia.
Qed.
End record.

Lemma apply_at_legal p source bucket h r :
  projects p source bucket h → Z.of_nat (length h) < u64_max → legal h r →
  ∃ p', apply_at p (mkCtlCursor source bucket (pd_next_slot p)) r = (Ok tt, p') ∧ projects p' source bucket (h ++ [r]).
Proof.
  intros Hp Hroom Hl. destruct r as [op key m|op slot key q|a b c d].
  - eexists. split; [by apply (accepts_intent _ _ _ h)|by apply intent_projects].
  - destruct (accepts_outcome _ _ _ _ Hp Hroom _ _ _ _ Hl) as (ops & Ek & Hin & E).
    eexists. split; [exact E|by apply outcome_projects].
  - eexists. split; [by apply (accepts_admission _ _ _ h)|]. apply projects_advanced; [done..|idtac| | |].
    + intros o. rewrite (pj_seen _ _ _ _ Hp), op_seen_snoc. naive_solver.
    + intros. rewrite unresolved_snoc by by eapply back_lt. apply (pj_ops _ _ _ _ Hp).
    + apply (pj_keys _ _ _ _ Hp).
    + intros. setoid_rewrite unresolved_snoc; [|by eapply back_lt..]. apply (pj_key _ _ _ _ Hp).
Qed.

Lemma apply_at_full p source bucket h r :
  projects p source bucket h → u64_max <= Z.of_nat (length h) →
  apply_at p (mkCtlCursor source bucket (pd_next_slot p)) r = (Err JCapacity, p).
Proof.
  intros Hp Hfull. unfold apply_at. cbn [cur_next_slot cur_source cur_bucket].
  rewrite (projects_guard _ _ _ _ Hp). unfold checked_add.
  rewrite (proj2 (Z.leb_gt _ _)) by (rewrite (pj_next _ _ _ _ Hp); lia). done.
Qed.

Lemma legal_dec h p source bucket r : projects p source bucket h → legal h r ∨ ¬ legal h r.
Proof.
  intros Hp. destruct r as [op key m|op slot key q|]; cbn; [| |by left].
  - rewrite <- (pj_seen _ _ _ _ Hp). destruct (decide (op ∈ pd_seen_ops p)), (decide (op = "")), (decide (key = "")); naive_solver.
  - rewrite <- (pj_ops _ _ _ _ Hp). destruct (decide (pd_by_op p !! op = Some (key, slot))); auto.
Qed.

Lemma apply_history_projects p source bucket h0 h p' :
  projects p source bucket h0 → apply_history p source bucket h = Ok p' → projects p' source bucket (h0 ++ h).
Proof.
  revert p h0. induction h as [|r h IH]; intros p h0 Hp; cbn [apply_history].
  { intros [= <-]. by rewrite app_nil_r. }
  destruct (decide (Z.of_nat (length h0) < u64_max)) as [Hroom|Hfull].
  2:{ rewrite (apply_at_full _ _ _ h0) by (done || lia). done. }
  destruct (legal_dec h0 p source bucket r Hp) as [Hl|Hl].
  - destruct (apply_at_legal _ _ _ _ _ Hp Hroom Hl) as (p1 & -> & Hp1). cbn. intros Hr.
    apply (IH _ _ Hp1) in Hr. by rewrite <- app_assoc in Hr.
  - destruct (rejects_illegal _ _ _ _ Hp Hroom _ Hl) as (e & ->). done.
Qed.

Lemma outcome_dec (h : list Record_) op slot key : (∃ r, Outcome op slot key r ∈ h) ∨ ∀ r, Outcome op slot key r ∉ h.
Proof.
  destruct (decide (Outcome op slot key Committed ∈ h)); [eauto|].
  destruct (decide (Outcome op slot key RejectedWithoutMutation ∈ h)); [eauto|].
  destruct (decide (Outcome op slot key AbortedBeforeDispatch ∈ h)); [eauto|].
  right. by intros [].
Qed.

(** [C20] After any history of records it accepts, a [PendingSet] holds exactly the
    intents without a definitive outcome, by operation and by key, no key is held
    with an empty set, and [is_empty] is true exactly when every recorded intent has
    the outcome that binds its slot and key. *)
Theorem pending_exact source bucket h p :
  apply_history PendingSet_default source bucket h = Ok p →
  pd_next_slot p = Z.of_nat (length h) ∧
  (∀ op key slot, pd_by_op p !! op = Some (key, slot) ↔ unresolved h op key slot) ∧
  (∀ key ops, operations_for p key = Some ops → ops ≠ ∅) ∧
  (∀ key op, op ∈ default ∅ (operations_for p key) ↔ ∃ slot, unresolved h op key slot) ∧
  (pending_is_empty p = true ↔
   ∀ i op key m, h !! i = Some (Intent op key m) → ∃ r, Outcome op (Z.of_nat i) key r ∈ h).
Proof.
  intros H%(apply_history_projects _ _ _ []); [|apply projects_default]. rename H into Hp.
  split_and!; try by destruct Hp.
  - intros key ops Ho ->. by apply (pj_keys _ _ _ _ Hp key).
  - unfold pending_is_empty. rewrite bool_decide_eq_true. split.
    + intros E i op key m Hi.
      destruct (outcome_dec h op (Z.of_nat i) key) as [|Hn]; [done|]. exfalso.
      assert (Hu : unresolved h op key (Z.of_nat i)).
      { split_and!; [lia|rewrite Nat2Z.id; eauto|done]. }
      apply (pj_ops _ _ _ _ Hp) in Hu. by rewrite E, lookup_empty in Hu.
    + intros Hall. apply map_empty. intros op. destruct (pd_by_op p !! op) as [[key slot]|] eqn:E; [|done].
      apply (pj_ops _ _ _ _ Hp) in E as (? & (m & Hm) & Hn). destruct (Hall _ _ _ _ Hm) as (r & Hr).
      rewrite Z2Nat.id in Hr by done. by apply Hn in Hr.
Qed.

(** A history with a resolved and an unresolved mutation. *)
Definition demo_source : SourceId := mkSource "gw" 3.
Definition demo_history : list Record_ :=
  [Intent "op1" "k" MPut; ReaderAdmission "r" 1 500 1; Intent "op2" "k" MDelete; Outcome "op1" 0 "k" Committed].
Definition demo_pending : PendingSet :=
  mkPending (Some (demo_source, "b")) 4 {["op1"; "op2"]} {["op2" := ("k", 2)]} {["k" := {["op2"]}]}.

Lemma demo_history_accepted :
  apply_history PendingSet_default demo_source "b" demo_history = Ok demo_pending.
Proof. vm_compute. reflexivity. Qed.

Lemma pending_exact_witness :
  pd_by_op demo_pending !! "op2" = Some ("k", 2) ↔ unresolved demo_history "op2" "k" 2.
Proof. exact (proj1 (proj2 (pending_exact demo_source "b" demo_history demo_pending demo_history_accepted)) "op2" "k" 2). Defined.

(** A record is accepted at the next slot exactly when its history allows it: an
    intent names a nonempty key under a nonempty operation id that no earlier intent
    used, an outcome binds the slot and key of an unresolved intent.  A refused record,
    at any cursor, leaves the set as it was. *)
Theorem pending_accepts source bucket h p r :
  apply_history PendingSet_default source bucket h = Ok p → Z.of_nat (length h) < u64_max →
  (legal h r ↔ is_ok (apply_at p (mkCtlCursor source bucket (pd_next_slot p)) r).1 = true) ∧
  ∀ c, is_ok (apply_at p c r).1 = false → (apply_at p c r).2 = p.
Proof.
  intros H%(apply_history_projects _ _ _ []) Hroom; [|apply projects_default]. split.
  - destruct (legal_dec h p source bucket r H) as [Hl|Hl].
    + destruct (apply_at_legal _ _ _ _ _ H Hroom Hl) as (p' & -> & _). done.
    + destruct (rejects_illegal _ _ _ _ H Hroom _ Hl) as (e & ->). done.
  - intros c. clear H Hroom. unfold apply_at. repeat case_match; simplify_eq/=; done.
Qed.

Lemma pending_accepts_witness :
  is_ok (apply_at demo_pending (mkCtlCursor demo_source "b" 4) (Intent "op1" "z" MCopy)).1 = false ∧
  (legal demo_history (Outcome "op2" 2 "k" RejectedWithoutMutation) ↔
   is_ok (apply_at demo_pending (mkCtlCursor demo_source "b" 4) (Outcome "op2" 2 "k" RejectedWithoutMutation)).1 = true).
Proof.
  split; [vm_compute; reflexivity|].
  exact (proj1 (pending_accepts demo_source "b" demo_history demo_pending (Outcome "op2" 2 "k" RejectedWithoutMutation)
    demo_history_accepted (eq_refl : Z.of_nat (length demo_history) < u64_max))).
Defined.
