(* ===== verification/ControlStore.v ===== *)
(** * Executions of the control journal on a shared store

    The store is the [SlotStore] contract of [src/src/sync/control/types.rs]: a put
    creates an absent key and never overwrites, an unknown or failed put may have
    committed or may still commit later, a get answers with what is stored.  Between any
    two calls, and after the last, other writers create further keys and the program's own
    puts in flight land; both only add absent keys.  [exec] gives a store program's
    executions on such a store with the calls it makes. *)

From S2P Require Import Prelude.
From S2P Require Import LegacyCodec.
From S2P Require Import Control.

(** ** The record frame *)

(** What [postcard] and [blake3] promise. *)
Class CodecLaw {T} (cd : RecordCodec T) : Prop :=
  codec_law v l : rc_to_vec cd v = Some l → rc_from_slice cd l = Some v.
Class HashLaw {B : RecordHash} : Prop := hash_length l : length (record_hash l) = 32%nat.

Section frame.
Context {B : RecordHash} {HB : HashLaw} {T : Type} (cd : RecordCodec T).

(** A frame is its header, its payload and the digest of both. *)
Lemma record_encode_shape v max l :
  record_encode cd v max = Ok l →
  ∃ payload, rc_to_vec cd v = Some payload ∧
    Z.of_nat (length payload) <= u32_max ∧ HEADER + Z.of_nat (length payload) + DIGEST <= max ∧
    let c := MAGIC ++ to_le_bytes 1 CVERSION ++ to_le_bytes 4 (Z.of_nat (length payload)) ++ payload in
    l = c ++ record_hash c.
Proof.
  unfold record_encode. intros H. apply bind_ok in H as (payload & Hp%ok_or_ok & H). inv_ok. bool_prop.
  exists payload. apply bind_Some in H as (? & [-> ?]%checked_add_Some & [-> ?]%checked_add_Some).
  apply try_from_Some in H1 as [-> ?]. split_and!; [done|lia|lia|]. by symmetry.
Qed.

Lemma record_encode_length v max l : record_encode cd v max = Ok l → Z.of_nat (length l) <= max.
Proof using HB.
  intros (pl & _ & ? & ? & ->)%record_encode_shape.
  repeat rewrite ?length_app, ?length_to_le_bytes, ?hash_length. cbn [MAGIC length].
  unfold HEADER, DIGEST in *. lia.
Qed.

Lemma record_encode_current v max l : record_encode cd v max = Ok l → is_current l = true.
Proof.
  intros (pl & _ & ? & ? & ->)%record_encode_shape. unfold is_current, MAGIC. cbn [app take drop].
  change (to_le_bytes 1 CVERSION) with [Byte.x02]. done.
Qed.

Lemma take_header (h4 v1 l4 pl rest : bytes) :
  length h4 = 4%nat → length v1 = 1%nat → length l4 = 4%nat →
  let l := (h4 ++ v1 ++ l4 ++ pl) ++ rest in
  take 4 l = h4 ∧ take 1 (drop 4 l) = v1 ∧ take 4 (drop 5 l) = l4 ∧
  take (9 + length pl) l = h4 ++ v1 ++ l4 ++ pl ∧ drop (9 + length pl) l = rest ∧
  drop 9 (h4 ++ v1 ++ l4 ++ pl) = pl.
Proof.
  intros. destruct h4 as [|? [|? [|? [|? []]]]], v1 as [|? []], l4 as [|? [|? [|? [|? []]]]]; try done.
  cbn. rewrite take_app_length, drop_app_length. done.
Qed.

(** The frame read back is the value that was written. *)
Lemma record_frame {CL : CodecLaw cd} v max l :
  max <= usize_max → record_encode cd v max = Ok l → record_decode cd l max = Ok v.
Proof using HB.
  intros Hmax Hl. pose proof (record_encode_length _ _ _ Hl) as Hlen.
  apply record_encode_shape in Hl as (pl & Hpl & Hu & Hm & ->).
  set (c := MAGIC ++ to_le_bytes 1 CVERSION ++ to_le_bytes 4 (Z.of_nat (length pl)) ++ pl) in *.
  destruct (take_header MAGIC (to_le_bytes 1 CVERSION) (to_le_bytes 4 (Z.of_nat (length pl))) pl (record_hash c))
    as (E1 & E2 & E3 & E4 & E5 & E6); [done..|]. fold c in E1, E2, E3, E4, E5, E6.
  assert (Hn : Z.of_nat (length (c ++ record_hash c)) = HEADER + Z.of_nat (length pl) + DIGEST).
  { subst c. repeat rewrite ?length_app, ?length_to_le_bytes, ?hash_length. cbn [MAGIC length].
    unfold HEADER, DIGEST. lia. }
  unfold record_decode. rewrite E1, E2, E3, Hn.
  rewrite (proj2 (Z.ltb_ge max _)), (proj2 (Z.ltb_ge _ (HEADER + DIGEST))) by lia. cbn [orb refuse_if mbind result_bind].
  rewrite (bool_decide_eq_true_2 (MAGIC = MAGIC)) by done. change (from_le_bytes (to_le_bytes 1 CVERSION)) with 2.
  cbn [negb orb andb CVERSION Z.eqb Pos.eqb refuse_if mbind result_bind].
  rewrite from_to_le_bytes by (unfold u32_max in Hu; lia).
  rewrite (bool_decide_eq_true_2 (checked_add _ _ _ = _)).
  2:{ apply checked_add_Some. unfold HEADER, DIGEST in *. lia. }
  cbn [negb refuse_if mbind result_bind].
  replace (Z.to_nat (HEADER + Z.of_nat (length pl))) with (9 + length pl)%nat by (unfold HEADER; lia).
  rewrite E4, E5. rewrite bool_decide_eq_true_2 by done. cbn [negb refuse_if mbind result_bind].
  change (Z.to_nat HEADER) with 9%nat. rewrite E6. by rewrite (codec_law _ _ Hpl).
Qed.
End frame.

(** ** The store *)

Abbreviation world := (gmap string bytes).

(** What becomes of a put: it created the key before its answer, it never has an effect,
    or it is still in flight after its answer and creates the key whenever it arrives, if
    the key is absent then. *)
Inductive Fate := Took | Refused | InFlight.
#[global] Instance Fate_eq_dec : EqDecision Fate.
Proof. solve_decision. Defined.

(** The put answers [ans].  Only [Created] says what became of it; [Occupied] says that the
    key is taken, which a resent put may have done itself. *)
Definition put_step (w : world) (key : string) (l : bytes) (ans : result StoreError PutVerdict) (fate : Fate) (w' : world)
    : Prop :=
  w' = (match fate with Took => <[key := l]> w | _ => w end) ∧ (fate = Took → w !! key = None) ∧
  match ans with
  | Ok Created => fate = Took
  | Ok Occupied => is_Some (w' !! key)
  | Ok Unknown | Err _ => True
  end.

Definition get_step (w : world) (key : string) (ans : result StoreError (option bytes)) : Prop :=
  match ans with Ok o => o = w !! key | Err _ => True end.

(** A call and its answer. *)
Inductive event :=
| EGet (key : string) (ans : result StoreError (option bytes))
| EPut (key : string) (l : bytes) (ans : result StoreError PutVerdict) (fate : Fate).

(** What the program itself created before its calls were answered. *)
Definition wrote (ev : event) : list (string * bytes) :=
  match ev with EPut key l _ Took => [(key, l)] | _ => [] end.
Definition writes (tr : list event) : list (string * bytes) := tr ≫= wrote.

(** Every creation that can be the program's, now or later: what it created and what it
    has in flight. *)
Definition effect (ev : event) : list (string * bytes) :=
  match ev with EPut key l _ Took | EPut key l _ InFlight => [(key, l)] | _ => [] end.
Definition effects (tr : list event) : list (string * bytes) := tr ≫= effect.

(** Whether every call had an answer. *)
Definition reliable (tr : list event) : Prop :=
  Forall (λ ev, match ev with EGet _ ans => is_ok ans = true | EPut _ _ ans _ => is_ok ans = true end) tr.

(** From [w], with other writers and landings before each step and after the last, [p]
    answers [a] in [w']. *)
Inductive exec {A} : world → prog A → list event → A → world → Prop :=
| exec_ret w w' a : w ⊆ w' → exec w (Ret a) [] a w'
| exec_put w w1 w2 w' key l k ans fate tr a :
    w ⊆ w1 → put_step w1 key l ans fate w2 → exec w2 (k ans) tr a w' →
    exec w (PutIfAbsent key l k) (EPut key l ans fate :: tr) a w'
| exec_get w w1 w' key k ans tr a :
    w ⊆ w1 → get_step w1 key ans → exec w1 (k ans) tr a w' →
    exec w (Get key k) (EGet key ans :: tr) a w'.

Lemma put_step_grows w key l ans fate w' : put_step w key l ans fate w' → w ⊆ w'.
Proof. intros (-> & Hn & _). destruct fate; [by apply insert_subseteq, Hn|done..]. Qed.

Lemma exec_grows {A} w (p : prog A) tr a w' : exec w p tr a w' → w ⊆ w'.
Proof. induction 1; [done|..]; [apply put_step_grows in H0|]; etrans; eauto; etrans; eauto. Qed.

Lemma exec_env {A} w0 w (p : prog A) tr a w' : w0 ⊆ w → exec w p tr a w' → exec w0 p tr a w'.
Proof.
  intros Hw. destruct 1; [apply exec_ret; by trans w|eapply exec_put; [by trans w|done..]|eapply exec_get; [by trans w|done..]].
Qed.

Lemma writes_app tr1 tr2 : writes (tr1 ++ tr2) = writes tr1 ++ writes tr2.
Proof. apply bind_app. Qed.
Lemma effects_app tr1 tr2 : effects (tr1 ++ tr2) = effects tr1 ++ effects tr2.
Proof. apply bind_app. Qed.

(** What was created is among the effects. *)
Lemma writes_effects tr : writes tr ⊆ effects tr.
Proof.
  intros x (ev & Hx & Hev)%list_elem_of_bind. apply list_elem_of_bind. exists ev. split; [|done].
  destruct ev as [|key l ans []]; try done; by apply not_elem_of_nil in Hx.
Qed.
Lemma effects_nil tr : effects tr = [] → writes tr = [].
Proof. intros E. pose proof (writes_effects tr) as H. rewrite E in H. by apply list_nil_subseteq in H. Qed.

(** The [?] after an awaited call. *)
Lemma exec_bind {A C} w (p : J A) (f : A → J C) tr r w' :
  exec w (p ≫= f) tr r w' →
  ∃ tr1 tr2 ra w1, tr = tr1 ++ tr2 ∧ exec w p tr1 ra w1 ∧
    match ra with Ok a => exec w1 (f a) tr2 r w' | Err e => r = Err e ∧ tr2 = [] ∧ w1 = w' end.
Proof.
  unfold mbind, J_bind. revert w tr. induction p as [[a|e]|key l k IH|key k IH]; intros w tr; cbn [prog_bind].
  - intros H. exists [], tr, (Ok a), w. split; [done|split; [by apply exec_ret|done]].
  - inversion 1; subst. exists [], [], (Err e), w'. split; [done|split; [by apply exec_ret|done]].
  - inversion 1; subst.
    match goal with Hk : exec _ (prog_bind _ _) _ _ _ |- _ => destruct (IH _ _ _ Hk) as (tr1 & tr2 & ra & w3 & -> & Hp & Hf) end.
    exists (EPut key l ans fate :: tr1), tr2, ra, w3. split; [done|split; [by econstructor|done]].
  - inversion 1; subst.
    match goal with Hk : exec _ (prog_bind _ _) _ _ _ |- _ => destruct (IH _ _ _ Hk) as (tr1 & tr2 & ra & w3 & -> & Hp & Hf) end.
    exists (EGet key ans :: tr1), tr2, ra, w3. split; [done|split; [by econstructor|done]].
Qed.

(** ** Inverting an execution *)

Lemma exec_Ret {A} w (a b : A) tr w' : exec w (Ret a) tr b w' → tr = [] ∧ b = a ∧ w ⊆ w'.
Proof. by inversion 1. Qed.

Lemma exec_lift {A C} w (x : result JournalError A) (f : A → J C) tr r w' :
  exec w (lift x ≫= f) tr r w' →
  match x with Ok a => exec w (f a) tr r w' | Err e => r = Err e ∧ tr = [] ∧ w ⊆ w' end.
Proof. destruct x; cbn; [done|]. intros (-> & -> & ?)%exec_Ret. done. Qed.

Lemma exec_store_get {C} w key (f : option bytes → J C) tr r w' :
  exec w (store_get key ≫= f) tr r w' →
  ∃ ans w1 tr', w ⊆ w1 ∧ tr = EGet key ans :: tr' ∧ get_step w1 key ans ∧
    match ans with
    | Ok o => exec w1 (f o) tr' r w'
    | Err e => r = Err (StoreFailed e) ∧ tr' = [] ∧ w1 ⊆ w'
    end.
Proof.
  inversion 1; subst. exists ans, w1, tr0. do 3 (split; [done|]).
  destruct ans; [done|]. cbn in *.
  match goal with Hk : exec _ (Ret _) _ _ _ |- _ => apply exec_Ret in Hk as (-> & -> & ?) end. done.
Qed.

Lemma exec_store_put {C} w key l (f : PutVerdict → J C) tr r w' :
  exec w (store_put key l ≫= f) tr r w' →
  ∃ ans fate w1 w2 tr', w ⊆ w1 ∧ tr = EPut key l ans fate :: tr' ∧ put_step w1 key l ans fate w2 ∧
    match ans with
    | Ok v => exec w2 (f v) tr' r w'
    | Err e => r = Err (StoreFailed e) ∧ tr' = [] ∧ w2 ⊆ w'
    end.
Proof.
  inversion 1; subst. exists ans, fate, w1, w2, tr0. do 3 (split; [done|]).
  destruct ans; [done|]. cbn in *.
  match goal with Hk : exec _ (Ret _) _ _ _ |- _ => apply exec_Ret in Hk as (-> & -> & ?) end. done.
Qed.

(** Take an execution apart at its first step. *)
Ltac exec_inv H :=
  lazymatch type of H with
  | exec _ (lift ?x ≫= _) _ _ _ =>
      let E := fresh "E" in apply exec_lift in H; destruct x eqn:E; [|destruct H as (-> & -> & H)]
  | exec _ (store_get _ ≫= _) _ _ _ =>
      let ans := fresh "ans" in let w1 := fresh "w" in
      apply exec_store_get in H as (ans & w1 & ? & ? & -> & ? & H);
      destruct ans; [|destruct H as (-> & -> & H)]
  | exec _ (store_put _ _ ≫= _) _ _ _ =>
      let ans := fresh "ans" in let w1 := fresh "w" in let w2 := fresh "w" in
      apply exec_store_put in H as (ans & ? & w1 & w2 & ? & ? & -> & ? & H);
      destruct ans; [|destruct H as (-> & -> & H)]
  | exec _ (Ret _) _ _ _ => apply exec_Ret in H as (-> & -> & H)
  | exec _ (ret _) _ _ _ => apply exec_Ret in H as (-> & -> & H)
  | exec _ (raise _) _ _ _ => apply exec_Ret in H as (-> & -> & H)
  | exec _ (lift _) _ _ _ => apply exec_Ret in H as (-> & -> & H)
  end.

Section journal.
Context {B : RecordHash} {HB : HashLaw} {K : KeyEncoding}.
Context (slots : RecordCodec SlotEnvelope) {SL : CodecLaw slots}.
Context (config : JournalConfig).

(** Only reads: the predecessor and the binding checks create nothing. *)
Lemma predecessor_reads c w tr r w' :
  exec w (validate_predecessor slots config c) tr r w' → effects tr = [] ∧ (length tr <= 1)%nat.
Proof.
  unfold validate_predecessor. intros H. destruct (checked_sub _ _); [|exec_inv H; auto].
  exec_inv H; [|auto]. exec_inv H; [|auto]. exec_inv H; [|auto]. exec_inv H; [|auto]. exec_inv H. auto.
Qed.

Lemma binding_reads c slot record w tr r w' :
  exec w (validate_outcome_binding slots config c slot record) tr r w' → effects tr = [] ∧ (length tr <= 1)%nat.
Proof.
  unfold validate_outcome_binding. intros H. destruct record; try (exec_inv H; auto).
  exec_inv H; [|auto]. exec_inv H; [|auto]. exec_inv H; [|auto].
  destruct (env_record _); exec_inv H; auto.
Qed.

Abbreviation key_of c s := (slot_key (jcfg_source config) (cur_bucket c) s).

(** The slot of the bucket of [c] holds a valid record. *)
Definition slot_holds (c : Cursor) (w : world) (slot : Z) (env : SlotEnvelope) : Prop :=
  ∃ l, w !! key_of c slot = Some l ∧ decode_slot slots config l c slot = Ok env.

(** Every slot from [a] to [b] holds a record of another identity. *)
Definition passed (c : Cursor) (record : Record_) (w : world) (a b : Z) : Prop :=
  ∀ t, a <= t < b → ∃ env, slot_holds c w t env ∧ same_identity (env_record env) record = false.

Lemma slot_holds_grows c w w' s env : w ⊆ w' → slot_holds c w s env → slot_holds c w' s env.
Proof. intros Hw (l & Hl & Hd). exists l. split; [by eapply lookup_weaken|done]. Qed.

Lemma passed_grows c record w w' a b : w ⊆ w' → passed c record w a b → passed c record w' a b.
Proof. intros Hw Hp t Ht. destruct (Hp t Ht) as (env & ? & ?). eauto using slot_holds_grows. Qed.

Lemma passed_snoc c record w a b env :
  passed c record w a b → slot_holds c w b env → same_identity (env_record env) record = false →
  passed c record w a (b + 1).
Proof. intros Hp Hb Hi t Ht. destruct (decide (t = b)) as [->|]; [eauto|]. apply Hp. lia. Qed.

Lemma passed_nil c record w a b : b <= a → passed c record w a b.
Proof. intros ? t ?. lia. Qed.

Lemma same_identity_refl r : same_identity r r = true.
Proof. destruct r; cbn; rewrite ?bool_decide_eq_true_2, ?Z.eqb_refl by done; done. Qed.
End journal.
