(* ===== verification/ControlProps.v ===== *)
(** * What the control journal promises

    [append] and [scan] of [src/src/sync/control/journal.rs] under every execution of
    [ControlStore]: appends commit once, at the first absent slot, and retries find the
    committed copy; scans return the consecutive records of the bucket. *)

From S2P Require Import Prelude.
From S2P Require Import LegacyCodec.
From S2P Require Import Control.
From S2P Require Import ControlStore.

Section journal.
Context {B : RecordHash} {HB : HashLaw} {K : KeyEncoding}.
Context (slots : RecordCodec SlotEnvelope) {SL : CodecLaw slots}.
Context (config : JournalConfig).
Context (Hbytes : max_record_bytes (limits config) <= usize_max).

Abbreviation key_of c s := (slot_key (jcfg_source config) (cur_bucket c) s).
Abbreviation frame c s r := (record_encode slots (envelope_of config c s r) (max_record_bytes (limits config))).
Abbreviation holds := (slot_holds slots config).
Abbreviation skips := (passed slots config).

Lemma decode_own c slot record l :
  check_cursor config c = Ok tt → validate_record config record = Ok tt → frame c slot record = Ok l →
  decode_slot slots config l c slot = Ok (envelope_of config c slot record).
Proof using HB SL Hbytes.
  unfold check_cursor. intros Hc Hr Hl. inv_ok. bool_prop. unfold decode_slot.
  rewrite (record_frame slots _ _ _ Hbytes Hl). cbn [mbind result_bind envelope_of env_source env_bucket env_slot env_record].
  rewrite (bool_decide_eq_true_2 (jcfg_source config = cur_source c)), (bool_decide_eq_true_2 (cur_bucket c = _)) by done.
  rewrite Z.eqb_refl. cbn [negb orb refuse_if mbind result_bind]. by rewrite Hr.
Qed.

(** The verdict on an occupied slot. *)
Lemma occupied_sound c slot record actual expected same :
  check_cursor config c = Ok tt → validate_record config record = Ok tt → frame c slot record = Ok expected →
  occupied slots config actual expected c slot record = Ok same →
  ∃ env, decode_slot slots config actual c slot = Ok env ∧
    if same : bool then env_record env = record else same_identity (env_record env) record = false.
Proof using HB SL Hbytes.
  intros Hc Hr Hl. unfold occupied. intros H. apply bind_ok in H as (env & Hd & H). exists env. split; [done|].
  destruct (bool_decide (actual = expected)) eqn:E1; cbn [orb] in H.
  { inv_ok. subst same. bool_prop. subst actual. rewrite (decode_own c slot record expected) in Hd by done.
    by injection Hd as <-. }
  destruct (negb (is_current actual) && bool_decide (env_record env = record)) eqn:E2.
  { inv_ok. subst same. by bool_prop. }
  destruct (same_identity (env_record env) record) eqn:E3; [done|]. inv_ok. by subst same.
Qed.

(** A slot found occupied by another record. *)
Lemma found_other c slot record w l expected :
  check_cursor config c = Ok tt → validate_record config record = Ok tt → frame c slot record = Ok expected →
  w !! key_of c slot = Some l → occupied slots config l expected c slot record = Ok false →
  ∃ env, holds c w slot env ∧ same_identity (env_record env) record = false.
Proof using HB SL Hbytes.
  intros Hc Hr Hl Hw Ho. destruct (occupied_sound _ _ _ _ _ _ Hc Hr Hl Ho) as (env & ? & ?).
  exists env. split; [by exists l|done].
Qed.

(** What an execution of [append]'s loop from [slot] leaves behind. *)
Definition appended (from : Cursor) (record : Record_) (s0 : Z) (r : result JournalError AppendResult) (w : world) : Prop :=
  match r with
  | Ok (ACreated c) | Ok (ARecovered c) =>
      ∃ s env, c = mkCtlCursor (cur_source from) (cur_bucket from) (s + 1) ∧
        s0 <= s < max_slots (limits config) ∧ skips from record w s0 s ∧ holds from w s env ∧ env_record env = record
  | Err (UnknownWrite s c) => c = from ∧ s0 <= s ∧ skips from record w s0 s
  | Err (AppendBackpressured c) =>
      ∃ s, c = mkCtlCursor (cur_source from) (cur_bucket from) s ∧ s0 <= s < max_slots (limits config) ∧ skips from record w s0 s
  | Err _ => True
  end.

(** A put that can no longer take effect, and did not: its key holds something else. *)
Definition lost (w : world) (x : string * bytes) : Prop := ∃ l, w !! x.1 = Some l ∧ l ≠ x.2.

(** The effects of the execution, now or later: all but lost ones are the record at one
    slot, after occupied slots only. *)
Definition wrote_once (from : Cursor) (record : Record_) (s0 : Z) (tr : list event) (w : world) : Prop :=
  ∃ s, s0 <= s ∧ skips from record w s0 s ∧
    ∀ x, x ∈ effects tr → lost w x ∨ s < max_slots (limits config) ∧ x.1 = key_of from s ∧ frame from s record = Ok x.2.

(** [Created] answers a write of its own; an unknown write created nothing yet, and only
    the slot it reports can still be its own; a later cursor is given when nothing was
    created nor can be. *)
Definition accounts (from : Cursor) (record : Record_) (r : result JournalError AppendResult) (tr : list event) (w : world) : Prop :=
  match r with
  | Ok (ACreated c) => ∃ s l, cur_next_slot c = s + 1 ∧ frame from s record = Ok l ∧ writes tr = [(key_of from s, l)]
  | Err (UnknownWrite slot _) => writes tr = [] ∧ ∀ x, x ∈ effects tr → lost w x ∨ x.1 = key_of from slot
  | Err (AppendBackpressured _) => writes tr = [] ∧ ∀ x, x ∈ effects tr → lost w x
  | _ => True
  end.

Lemma lost_grows w w' x : w ⊆ w' → lost w x → lost w' x.
Proof using. intros Hw (l & Hl & Hne). exists l. split; [by eapply lookup_weaken|done]. Qed.

Definition append_post from record s0 tr r w : Prop :=
  appended from record s0 r w ∧ wrote_once from record s0 tr w ∧ accounts from record r tr w.

(** The first slot was passed: what is known from the next slot. *)
Lemma append_post_step from record s0 tr r w env :
  holds from w s0 env → same_identity (env_record env) record = false →
  append_post from record (s0 + 1) tr r w → append_post from record s0 tr r w.
Proof using.
  intros Hh Hi (Ha & Hw & Hc).
  assert (Hs : ∀ s, skips from record w (s0 + 1) s → skips from record w s0 s).
  { intros s Hs t Ht. destruct (decide (t = s0)) as [->|]; [eauto|]. apply Hs. lia. }
  split_and!; [|destruct Hw as (s & ? & ? & ?); exists s; split_and!; auto; lia|done].
  destruct r as [[c|c]|[]]; cbn in *; try done.
  1,2: destruct Ha as (s & e & -> & ? & ? & ? & ?); exists s, e; split_and!; auto; lia.
  - destruct Ha as (-> & ? & ?). split_and!; auto; lia.
  - destruct Ha as (s & -> & ? & ?). exists s. split_and!; auto; lia.
Qed.

Context (Hslots : max_slots (limits config) <= u64_max).

Lemma after_ok from slot :
  slot < max_slots (limits config) → after from slot = Ok (mkCtlCursor (cur_source from) (cur_bucket from) (slot + 1)).
Proof using Hslots.
  intros ?. unfold after. rewrite (proj2 (checked_add_Some u64_max slot 1 (slot + 1))) by lia. done.
Qed.

(** The errors that carry no cursor. *)
Definition plain (e : JournalError) : Prop :=
  match e with UnknownWrite _ _ | AppendBackpressured _ => False | _ => True end.

Lemma effects_once from record s0 tr w : effects tr = [] → wrote_once from record s0 tr w.
Proof using. intros Ht. exists s0. split_and!; [done|apply passed_nil; lia|]. rewrite Ht. by intros x ?%elem_of_nil. Qed.

Lemma plain_post from record s0 e tr w :
  plain e → effects tr = [] → append_post from record s0 tr (Err e) w.
Proof using. intros He Ht. split_and!; [by destruct e|by apply effects_once|by destruct e]. Qed.

Lemma refuse_plain bad e e' : plain e → refuse_if bad e = Err e' → plain e'.
Proof using. destruct bad; cbn; [by intros ? [= <-]|done]. Qed.

Lemma ok_or_plain {A} (o : option A) e e' : plain e → ok_or o e = Err e' → plain e'.
Proof using. destruct o; cbn; [done|by intros ? [= <-]]. Qed.

Lemma bind_plain {A C} (m : result JournalError A) (f : A → result JournalError C) :
  (∀ e, m = Err e → plain e) → (∀ a e, m = Ok a → f a = Err e → plain e) → ∀ e, m ≫= f = Err e → plain e.
Proof using. intros Hm Hf e. destruct m; cbn; eauto. intros [= <-]. by apply Hm. Qed.

Ltac plain_tac :=
  intros; repeat match goal with
  | H : refuse_if _ _ = Err _ |- plain _ => by eapply refuse_plain, H
  | H : ok_or _ _ = Err _ |- plain _ => by eapply ok_or_plain, H
  | H : mbind _ _ = Err _ |- plain _ => revert H; apply bind_plain; intros
  | H : Ok _ = Err _ |- _ => discriminate H
  | H : Err _ = Err ?e |- plain ?e => by injection H as <-
  | H : (if ?b then _ else _) = Err _ |- _ => destruct b
  end.

Lemma encode_plain (env : SlotEnvelope) max e : record_encode slots env max = Err e → plain e.
Proof using. unfold record_encode. plain_tac. Qed.

Lemma validate_plain r e : validate_record config r = Err e → plain e.
Proof using. destruct r; cbn; plain_tac. Qed.

Lemma decode_slot_plain l c slot e : decode_slot slots config l c slot = Err e → plain e.
Proof using.
  unfold decode_slot, record_decode. plain_tac. by eapply validate_plain.
Qed.

Lemma occupied_plain actual expected c slot record e :
  occupied slots config actual expected c slot record = Err e → plain e.
Proof using. unfold occupied. plain_tac. by eapply decode_slot_plain. Qed.

(** The branch of the loop for a slot that is occupied: by this record, or by another
    one and the loop goes on. *)
Definition probe_occupied (from : Cursor) (record : Record_) (probes : nat) (slot : Z) (actual expected : bytes)
    : J AppendResult :=
  same ← lift (occupied slots config actual expected from slot record);
  if same : bool then c ← lift (after from slot); ret (ARecovered c)
  else slot ← lift (ok_or (checked_add u64_max slot 1) JCapacity);
       append_probe slots config from record probes slot.

Section probe.
Context (from : Cursor) (record : Record_).
Context (Hc : check_cursor config from = Ok tt) (Hr : validate_record config record = Ok tt).

Lemma probe_occupied_post probes slot actual expected w tr r w' :
  slot < max_slots (limits config) → frame from slot record = Ok expected → w !! key_of from slot = Some actual →
  (∀ w tr r, exec w (append_probe slots config from record probes (slot + 1)) tr r w' →
             append_post from record (slot + 1) tr r w') →
  exec w (probe_occupied from record probes slot actual expected) tr r w' →
  append_post from record slot tr r w' ∧
  (actual = expected → effects tr = [] ∧ ∃ c, r = Ok (ARecovered c)).
Proof using HB SL Hbytes Hslots Hc Hr.
  intros Hs Hf Hw IH H. unfold probe_occupied in H.
  exec_inv H; [|split; [by apply plain_post; [eapply occupied_plain|]|intros ->]].
  2:{ exfalso. unfold occupied in E. rewrite (decode_own _ _ _ _ Hc Hr Hf) in E. cbn [mbind result_bind] in E.
      by rewrite bool_decide_eq_true_2 in E. }
  destruct (occupied_sound _ _ _ _ _ _ Hc Hr Hf E) as (env & Hd & He).
  assert (Hh : holds from w' slot env).
  { apply (slot_holds_grows _ _ _ w); [by eapply exec_grows|by exists actual]. }
  destruct a.
  - exec_inv H; rewrite after_ok in E0 by done; simplify_eq. exec_inv H. split; [|eauto].
    split_and!; [|by apply effects_once|done]. exists slot, env. split_and!; [done|lia..| |done|done]. apply passed_nil. lia.
  - exec_inv H; rewrite (proj2 (checked_add_Some u64_max slot 1 (slot + 1))) in E0 by lia; simplify_eq/=. split; [by eapply append_post_step, IH|].
    intros ->. rewrite (decode_own _ _ _ _ Hc Hr Hf) in Hd. injection Hd as <-. cbn in He.
    by rewrite same_identity_refl in He.
Qed.
(** Prefixing events that wrote nothing and whose effects are lost. *)
Lemma append_post_lost tr0 tr s0 r w :
  writes tr0 = [] → (∀ x, x ∈ effects tr0 → lost w x) → append_post from record s0 tr r w → append_post from record s0 (tr0 ++ tr) r w.
Proof using.
  intros Hw0 H0 (Ha & (s & Hs & Hk & He) & Hacc). split_and!; [done| |].
  - exists s. split_and!; [done..|]. intros x. rewrite effects_app. intros [?|?]%elem_of_app; auto.
  - unfold accounts in *. rewrite writes_app, effects_app, Hw0.
    destruct r as [[]|[]]; try done; destruct Hacc as [? Hacc]; (split; [done|]); intros x [?|?]%elem_of_app; auto.
Qed.

Lemma append_post_reads tr0 tr s0 r w :
  effects tr0 = [] → append_post from record s0 tr r w → append_post from record s0 (tr0 ++ tr) r w.
Proof using. intros E. apply append_post_lost; [by apply effects_nil|]. rewrite E. by intros x ?%elem_of_nil. Qed.

Lemma binding_err slot w tr e w' :
  exec w (validate_outcome_binding slots config from slot record) tr (Err e) w' → plain e.
Proof using.
  clear Hc Hr. unfold validate_outcome_binding. intros H.
  destruct record as [|op_id intent_slot key q|] eqn:Erec; try (by apply exec_Ret in H as (_ & ? & _)).
  apply exec_lift in H. destruct (refuse_if _ _) eqn:E1; [|destruct H as ([= ->] & _); by eapply refuse_plain, E1].
  apply exec_store_get in H as (ans & w1 & tr1 & _ & _ & _ & H). destruct ans; [|by destruct H as ([= ->] & _)].
  apply exec_lift in H. destruct (ok_or _ _) eqn:E2; [|destruct H as ([= ->] & _); by eapply ok_or_plain, E2].
  apply exec_lift in H. destruct (decode_slot _ _ _ _ _) eqn:E3; [|destruct H as ([= ->] & _); by eapply decode_slot_plain].
  destruct (env_record _); apply exec_Ret in H as (_ & H & _); try by simplify_eq.
  symmetry in H. by eapply refuse_plain, H.
Qed.

(** The put of an absent slot and what follows it. *)
Definition probe_put (probes : nat) (slot : Z) (expected : bytes) : J AppendResult :=
  put ← store_put (key_of from slot) expected;
  if bool_decide (put = Created) then c ← lift (after from slot); ret (ACreated c)
  else
    found ← store_get (key_of from slot);
    match found with
    | Some actual => probe_occupied from record probes slot actual expected
    | None => raise (UnknownWrite slot from)
    end.

Lemma probe_put_post probes slot expected w tr r w' :
  slot < max_slots (limits config) → frame from slot record = Ok expected →
  (∀ w tr r, exec w (append_probe slots config from record probes (slot + 1)) tr r w' →
             append_post from record (slot + 1) tr r w') →
  exec w (probe_put probes slot expected) tr r w' →
  append_post from record slot tr r w'.
Proof using HB SL Hbytes Hslots Hc Hr.
  intros Hs Hf IH H. unfold probe_put in H.
  apply exec_store_put in H as (ans & fate & w1 & w2 & tr1 & Hw1 & -> & Hput & H).
  set (put := EPut (key_of from slot) expected ans fate).
  assert (Hkey : fate = Took → w2 !! key_of from slot = Some expected).
  { intros ->. destruct Hput as (-> & _). apply lookup_insert_eq. }
  assert (Heff : ∀ x, x ∈ effects [put] → x = (key_of from slot, expected)).
  { intros x. unfold effects. cbn [mbind list_bind]. rewrite app_nil_r. subst put. destruct fate; cbn [effect]; [by intros ?%list_elem_of_singleton|by intros ?%elem_of_nil|by intros ?%list_elem_of_singleton]. }
  assert (Hone : ∀ tr, effects tr = [] → wrote_once from record slot (put :: tr) w').
  { intros tr0 E0. exists slot. split_and!; [done|apply passed_nil; lia|]. intros x. change (put :: tr0) with ([put] ++ tr0).
    rewrite effects_app, E0, app_nil_r. intros ->%Heff. by right. }
  assert (Hmiss : fate ≠ Took → ∀ tr, effects tr = [] → writes (put :: tr) = []).
  { intros Hf0 tr0 E0%effects_nil. unfold writes in *. cbn [mbind list_bind]. rewrite E0. by destruct fate. }
  destruct ans as [v|e]; [|destruct H as (-> & -> & H); split_and!; [done|by apply Hone|done]].
  destruct (bool_decide (v = Created)) eqn:Ev.
  { bool_prop. subst v. destruct Hput as (Hw2 & Hn & ->). exec_inv H; rewrite after_ok in E by done; simplify_eq/=.
    exec_inv H. split_and!; [|by apply Hone|by exists slot, expected]. exists slot, (envelope_of config from slot record).
    split_and!; [done|lia..|apply passed_nil; lia| |done]. exists expected.
    split; [eapply lookup_weaken; [by apply Hkey|done]|by apply decode_own]. }
  apply exec_store_get in H as (ans & w3 & tr2 & Hw3 & -> & Hget & H).
  destruct ans as [o|e]; [|destruct H as (-> & -> & H); split_and!; [done|by apply Hone|done]].
  cbn in Hget. subst o. destruct (w3 !! key_of from slot) as [actual|] eqn:Ea.
  - destruct (probe_occupied_post _ _ _ _ _ _ _ _ Hs Hf Ea IH H) as [Hpost Hsame].
    destruct (decide (actual = expected)) as [->|Hne].
    + destruct (Hsame eq_refl) as (Hq & c & ->). destruct Hpost as (Ha & _ & _). by split_and!; [|apply Hone|].
    + apply (append_post_lost [put; _]); [| |done].
      * apply Hmiss; [|done]. intros Ht. rewrite (lookup_weaken _ _ _ _ (Hkey Ht) Hw3) in Ea. by injection Ea.
      * intros x Hx. assert (x = (key_of from slot, expected)) as -> by (by apply Heff). exists actual. split; [|done].
        eapply lookup_weaken; [exact Ea|by eapply exec_grows].
  - exec_inv H. split_and!; [|by apply Hone|].
    + split_and!; [done|lia|apply passed_nil; lia].
    + split; [|intros x Hx; right; by rewrite (Heff x Hx)]. apply Hmiss; [|done]. intros Ht.
      by rewrite (lookup_weaken _ _ _ _ (Hkey Ht) Hw3) in Ea.
Qed.

Lemma append_probe_post probes slot w tr r w' :
  exec w (append_probe slots config from record probes slot) tr r w' →
  append_post from record slot tr r w'.
Proof using HB SL Hbytes Hslots Hc Hr.
  revert slot w tr r. induction probes as [|probes IH]; intros slot w tr r H; cbn [append_probe] in H.
  - destruct (Z.leb_spec (max_slots (limits config)) slot); exec_inv H; [by apply plain_post|].
    split_and!; [|by apply effects_once|split; [done|by intros x ?%elem_of_nil]]. exists slot. split_and!; [done|lia..|apply passed_nil; lia].
  - destruct (Z.leb_spec (max_slots (limits config)) slot) as [|Hs]; [by exec_inv H; apply plain_post|].
    exec_inv H; [|by apply plain_post; [eapply encode_plain|]]. rename a into expected, E into Hf.
    apply exec_store_get in H as (ans & w1 & tr1 & Hw1 & -> & Hget & H).
    destruct ans as [o|e]; [|destruct H as (-> & -> & H); by apply plain_post].
    apply (append_post_reads [_]); [done|]. cbn in Hget. subst o.
    destruct (w1 !! key_of from slot) as [actual|] eqn:Ea.
    + by destruct (probe_occupied_post _ _ _ _ _ _ _ _ Hs Hf Ea (IH (slot + 1)) H) as [? _].
    + apply exec_bind in H as (tb & tr2 & rb & w2 & -> & Hb & H).
      pose proof (binding_reads _ _ _ _ _ _ _ _ _ Hb) as [Hq _].
      destruct rb as [[]|e].
      * apply append_post_reads; [done|]. exact (probe_put_post _ _ _ _ _ _ _ Hs Hf (IH (slot + 1)) H).
      * destruct H as (-> & -> & ->). rewrite app_nil_r. apply plain_post; [exact (binding_err _ _ _ _ _ Hb)|done].
Qed.
End probe.
End journal.

(** The limits are values of their types. *)
Definition widths (config : JournalConfig) : Prop :=
  max_record_bytes (limits config) <= usize_max ∧ max_slots (limits config) <= u64_max.

Section append.
Context {B : RecordHash} {HB : HashLaw} {K : KeyEncoding}.
Context (slots : RecordCodec SlotEnvelope) {SL : CodecLaw slots}.
Context (config : JournalConfig).

Lemma predecessor_err c w tr e w' :
  exec w (validate_predecessor slots config c) tr (Err e) w' → plain e.
Proof using.
  unfold validate_predecessor. intros H. destruct (checked_sub _ _); [|by apply exec_Ret in H as (_ & ? & _)].
  apply exec_lift in H. destruct (refuse_if _ _) eqn:E1; [|destruct H as ([= ->] & _); by eapply refuse_plain, E1].
  apply exec_store_get in H as (ans & w1 & tr1 & _ & _ & _ & H). destruct ans; [|by destruct H as ([= ->] & _)].
  apply exec_lift in H. destruct (ok_or _ _) eqn:E2; [|destruct H as ([= ->] & _); by eapply ok_or_plain, E2].
  apply exec_lift in H. destruct (decode_slot _ _ _ _ _) eqn:E3; [|destruct H as ([= ->] & _); by eapply decode_slot_plain].
  by apply exec_Ret in H as (_ & ? & _).
Qed.

Lemma append_post_all from record w tr r w' :
  widths config → exec w (append slots config from record) tr r w' →
  append_post slots config from record (cur_next_slot from) tr r w'.
Proof using HB SL.
  intros [Hb Hs] H. unfold append in H.
  apply exec_lift in H. destruct (check_cursor config from) as [[]|e] eqn:Hc.
  2:{ destruct H as (-> & -> & H). apply plain_post; [|done]. unfold check_cursor in Hc. by eapply refuse_plain, Hc. }
  apply exec_lift in H. destruct (validate_record config record) as [[]|e] eqn:Hr.
  2:{ destruct H as (-> & -> & H). apply plain_post; [|done]. by eapply validate_plain. }
  apply exec_bind in H as (tp & tr2 & rp & w2 & -> & Hp & H).
  pose proof (predecessor_reads _ _ _ _ _ _ _ Hp) as [Hq _].
  destruct rp as [[]|e].
  - apply append_post_reads; [done|]. by eapply append_probe_post.
  - destruct H as (-> & -> & ->). rewrite app_nil_r. apply plain_post; [|done]. exact (predecessor_err _ _ _ _ _ Hp).
Qed.

(** ** Calls *)

Lemma append_probe_calls from record probes slot w tr r w' :
  exec w (append_probe slots config from record probes slot) tr r w' → (length tr <= 4 * probes)%nat.
Proof using.
  revert slot w tr r. induction probes as [|probes IH]; intros slot w tr r H; cbn [append_probe] in H.
  { destruct (_ <=? _); exec_inv H; cbn; lia. }
  assert (Hocc : ∀ actual expected w tr r, exec w (probe_occupied slots config from record probes slot actual expected) tr r w' →
                 (length tr <= 4 * probes)%nat).
  { clear H w tr r. intros actual expected w tr r H. unfold probe_occupied in H. exec_inv H; [|cbn; lia].
    destruct a; (exec_inv H; [|cbn; lia]); [exec_inv H; cbn; lia|]. by apply IH in H. }
  destruct (_ <=? _); [exec_inv H; cbn; lia|]. exec_inv H; [|cbn; lia]. exec_inv H; [|cbn; lia].
  match goal with o : option bytes |- _ => destruct o as [actual|]; [apply Hocc in H; cbn; lia|] end.
  apply exec_bind in H as (tb & tr2 & rb & w2 & -> & Hb & H).
  pose proof (binding_reads _ _ _ _ _ _ _ _ _ Hb) as [_ Hq]. cbn. rewrite length_app.
  destruct rb as [[]|e]; [|destruct H as (-> & -> & ->); cbn; lia].
  exec_inv H; [|cbn; lia]. destruct (bool_decide _); [exec_inv H; [exec_inv H|]; cbn; lia|].
  exec_inv H; [|cbn; lia].
  match goal with o : option bytes |- _ => destruct o as [actual|]; [apply Hocc in H; cbn; lia|] end.
  exec_inv H. cbn. lia.
Qed.
End append.
