(* ===== verification/ControlScan.v ===== *)
(** * Retries, scans and the claims on the control journal *)

From S2P Require Import Prelude.
From S2P Require Import LegacyCodec.
From S2P Require Import Control.
From S2P Require Import ControlStore.
From S2P Require Import ControlProps.

Section retry.
Context {B : RecordHash} {HB : HashLaw} {K : KeyEncoding}.
Context (slots : RecordCodec SlotEnvelope) {SL : CodecLaw slots}.
Context (config : JournalConfig) (Hwidth : widths config).
Context (from : Cursor) (record : Record_).
Context (Hc : check_cursor config from = Ok tt) (Hr : validate_record config record = Ok tt).

Abbreviation key_of c s := (slot_key (jcfg_source config) (cur_bucket c) s).
Abbreviation frame c s r := (record_encode slots (envelope_of config c s r) (max_record_bytes (limits config))).

(** The record is committed at [s], behind other records of its bucket. *)
Definition committed (w : world) (a s : Z) : Prop :=
  a <= s < max_slots (limits config) ∧
  passed slots config from record w a s ∧ (∀ t, a <= t < s → is_ok (frame from t record) = true) ∧
  ∃ l, frame from s record = Ok l ∧ w !! key_of from s = Some l.

Lemma committed_grows w w' a s : w ⊆ w' → committed w a s → committed w' a s.
Proof using.
  intros Hw (? & Hp & ? & l & ? & Hl). do 2 (split; [done || by eapply passed_grows|]).
  split; [done|]. exists l. split; [done|]. by eapply lookup_weaken.
Qed.

Lemma occupied_own slot l : frame from slot record = Ok l → occupied slots config l l from slot record = Ok true.
Proof using HB SL Hwidth Hc Hr.
  intros Hf. unfold occupied. rewrite (decode_own slots config (proj1 Hwidth) _ _ _ _ Hc Hr Hf).
  cbn [mbind result_bind]. by rewrite bool_decide_eq_true_2.
Qed.

Lemma occupied_other slot actual expected env :
  frame from slot record = Ok expected → decode_slot slots config actual from slot = Ok env →
  same_identity (env_record env) record = false → occupied slots config actual expected from slot record = Ok false.
Proof using HB SL Hwidth Hc Hr.
  intros Hf Hd Hi. unfold occupied. rewrite Hd. cbn [mbind result_bind]. rewrite Hi.
  assert (Hne : env_record env ≠ record) by (intros E; by rewrite E, same_identity_refl in Hi).
  rewrite (bool_decide_eq_false_2 (actual = expected)).
  - rewrite bool_decide_eq_false_2 by done. by rewrite andb_false_r.
  - intros ->. rewrite (decode_own slots config (proj1 Hwidth) _ _ _ _ Hc Hr Hf) in Hd. by injection Hd as <-.
Qed.

Lemma reliable_cons ev tr : reliable (ev :: tr) → reliable tr.
Proof. by inversion 1. Qed.

(** A retry that meets the committed copy returns it. *)
Lemma retry_probe probes slot s w tr r w' :
  committed w slot s → s - slot < Z.of_nat probes →
  exec w (append_probe slots config from record probes slot) tr r w' → reliable tr →
  r = Ok (ARecovered (mkCtlCursor (cur_source from) (cur_bucket from) (s + 1))) ∧ effects tr = [].
Proof using HB SL Hwidth Hc Hr.
  revert slot w tr r. induction probes as [|probes IH]; intros slot w tr r Hw Hn H Hrel; [destruct Hw; lia|].
  cbn [append_probe] in H. destruct (Hw) as (Hs & Hp & Hf & l & Hfl & Hl).
  rewrite (proj2 (Z.leb_gt _ _)) in H by lia.
  assert (∃ expected, frame from slot record = Ok expected) as (expected & He).
  { destruct (decide (slot = s)) as [->|]; [eauto|]. specialize (Hf slot ltac:(lia)).
    destruct (frame from slot record); [eauto|done]. }
  apply exec_lift in H. rewrite He in H.
  apply exec_store_get in H as (ans & w1 & tr1 & Hw1 & -> & Hget & H).
  destruct ans as [o|e]; [|by inversion Hrel]. apply reliable_cons in Hrel. cbn in Hget. subst o.
  destruct (decide (slot = s)) as [->|Hne].
  - rewrite (lookup_weaken _ _ _ _ Hl Hw1) in H. apply exec_lift in H. rewrite He in Hfl. injection Hfl as <-.
    rewrite (occupied_own _ _ He) in H. apply exec_lift in H. rewrite (after_ok config (proj2 Hwidth)) in H by lia.
    apply exec_Ret in H as (-> & -> & _). done.
  - destruct (Hp slot ltac:(lia)) as (env & (actual & Ha & Hd) & Hi).
    rewrite (lookup_weaken _ _ _ _ Ha Hw1) in H. apply exec_lift in H.
    rewrite (occupied_other _ _ _ _ He Hd Hi) in H. apply exec_lift in H.
    rewrite (proj2 (checked_add_Some u64_max slot 1 (slot + 1))) in H by (destruct Hwidth; lia).
    cbn [ok_or] in H. edestruct (IH (slot + 1)) as [-> Hq]; [|lia|exact H|done|split; [done|exact Hq]].
    apply (committed_grows w); [done|]. split_and!; [lia|lia| |intros; apply Hf; lia|eauto].
    intros t Ht. apply Hp. lia.
Qed.
End retry.

(** ** Scans *)

Section scan.
Context {B : RecordHash} {K : KeyEncoding}.
Context (slots : RecordCodec SlotEnvelope).
Context (config : JournalConfig).

Abbreviation key_of c s := (slot_key (jcfg_source config) (cur_bucket c) s).
Definition at_slot (c : Cursor) (s : Z) : Cursor := mkCtlCursor (cur_source c) (cur_bucket c) s.

(** The stored bytes of the [n] slots from [a]. *)
Fixpoint stored_bytes (c : Cursor) (w : world) (a : Z) (n : nat) : Z :=
  match n with
  | O => 0
  | S n => Z.of_nat (length (default [] (w !! key_of c a))) + stored_bytes c w (a + 1) n
  end.

Lemma stored_bytes_at c s w a n : stored_bytes (at_slot c s) w a n = stored_bytes c w a n.
Proof using. revert a. induction n as [|n IH]; intros a; cbn [stored_bytes]; [done|]. by rewrite IH. Qed.

(** The records from slot [a] are those the store holds there. *)
Definition reads (c : Cursor) (w : world) (a : Z) (records : list Record_) : Prop :=
  ∀ i r, records !! i = Some r → ∃ env, slot_holds slots config c w (a + Z.of_nat i) env ∧ env_record env = r.

(** A page of at most [events] records read after [records], of [read] bytes, from [c]. *)
Definition paged (c : Cursor) (w w' : world) (records : list Record_) (read : Z) (events : nat) (page : ScanPage) : Prop :=
  ∃ more, pg_records page = records ++ more ∧
    pg_cursor page = at_slot c (cur_next_slot c + Z.of_nat (length more)) ∧
    (length more <= events)%nat ∧ reads c w' (cur_next_slot c) more ∧
    (more = [] ∨ read + stored_bytes c w' (cur_next_slot c) (length more) <= max_scan_bytes (limits config)) ∧
    (pg_at_first_absent page = true → w !! key_of c (cur_next_slot (pg_cursor page)) = None) ∧
    ((0 < events)%nat → pg_at_first_absent page = false → pg_records page ≠ []).

Lemma paged_stop c w w' records read events b :
  (b = true → w !! key_of c (cur_next_slot c) = None) → ((0 < events)%nat → b = false → records ≠ []) →
  paged c w w' records read events (mkPage records c b).
Proof using.
  intros H1 H2. exists []. cbn [pg_records pg_cursor pg_at_first_absent length].
  rewrite Z.add_0_r, app_nil_r. split_and!; try done; [by destruct c|lia|by left].
Qed.

Lemma paged_next c w w1 w' records read events l env page :
  w ⊆ w1 → w1 ⊆ w' → w1 !! key_of c (cur_next_slot c) = Some l →
  decode_slot slots config l c (cur_next_slot c) = Ok env → read + Z.of_nat (length l) <= max_scan_bytes (limits config) →
  paged (at_slot c (cur_next_slot c + 1)) w1 w' (records ++ [env_record env]) (read + Z.of_nat (length l)) events page →
  paged c w w' records read (S events) page.
Proof using.
  intros Hw1 Hw' El Hd Hlen (more & Hrec & Hcur & Hlm & Hreads & Hb & Habs & _).
  cbn [cur_next_slot cur_bucket cur_source at_slot] in *.
  exists (env_record env :: more). rewrite Hrec, <- app_assoc. split_and!; [done|..].
  - rewrite Hcur. unfold at_slot. cbn [cur_source cur_bucket length]. f_equal. lia.
  - cbn [length]. lia.
  - intros [|i] r; cbn [lookup list_lookup].
    + intros [= <-]. rewrite Z.add_0_r. exists env. split; [|done]. exists l. split; [by eapply lookup_weaken|done].
    + intros Hi. destruct (Hreads i r Hi) as (env' & Hh & ?). exists env'. split; [|done].
      by replace (cur_next_slot c + Z.of_nat (S i)) with (cur_next_slot c + 1 + Z.of_nat i) by lia.
  - right. cbn [length stored_bytes]. rewrite (lookup_weaken _ _ _ _ El Hw'). cbn [default from_option id].
    destruct Hb as [->|Hb]; [cbn [length stored_bytes]; lia|]. rewrite stored_bytes_at in Hb. lia.
  - intros Ha. apply Habs in Ha. by eapply lookup_weaken_None.
  - intros _ _. by intros ?%app_eq_nil; naive_solver.
Qed.

Lemma scan_page_reads events records c read w tr r w' :
  exec w (scan_page slots config events records c read) tr r w' →
  effects tr = [] ∧ (length tr <= events)%nat ∧ ∀ page, r = Ok page → paged c w w' records read events page.
Proof using.
  revert records c read w tr r. induction events as [|events IH]; intros records c read w tr r H; cbn [scan_page] in H.
  { exec_inv H. split_and!; [done|done|]. intros page [= <-]. apply paged_stop; [done|lia]. }
  destruct (_ <=? _); [destruct (bool_decide (records = [])) eqn:Ee; exec_inv H; bool_prop|].
  { split_and!; [done|cbn; lia|done]. }
  { split_and!; [done|cbn; lia|]. intros page [= <-]. by apply paged_stop. }
  apply exec_store_get in H as (ans & w1 & tr1 & Hw1 & -> & Hget & H).
  destruct ans as [o|e]; [|destruct H as (-> & -> & H); split_and!; [done|cbn; lia|done]].
  cbn in Hget. subst o. destruct (w1 !! key_of c (cur_next_slot c)) as [l|] eqn:El.
  2:{ exec_inv H. split_and!; [done|cbn; lia|]. intros page [= <-]. apply paged_stop; [|done].
      intros _. by eapply lookup_weaken_None. }
  exec_inv H; [|split_and!; [done|cbn; lia|done]]. apply ok_or_ok, checked_add_Some in E as [-> ?].
  destruct (Z.ltb_spec (max_scan_bytes (limits config)) (read + Z.of_nat (length l))) as [|Hlen].
  { destruct (bool_decide (records = [])) eqn:Ee; exec_inv H; bool_prop; [split_and!; [done|cbn; lia|done]|].
    split_and!; [done|cbn; lia|]. intros page [= <-]. by apply paged_stop. }
  exec_inv H; [|split_and!; [done|cbn; lia|done]].
  destruct (IH _ _ _ _ _ _ H) as (Hwr & Hcalls & Hpage).
  split_and!; [by cbn|cbn; lia|]. intros page ->.
  exact (paged_next _ _ _ _ _ _ _ _ _ _ Hw1 (exec_grows _ _ _ _ _ H) El E Hlen (Hpage page eq_refl)).
Qed.
End scan.
