(* ===== verification/ControlKeys.v ===== *)
(** * The object keys of the control journal

    [manifest_key] and [slot_key] of [src/src/sync/control/journal.rs]: distinct sources,
    buckets and slots are distinct objects. *)

From S2P Require Import Prelude.
From S2P Require Import LegacyCodec.
From S2P Require Import Control.
From stdpp Require Import pretty.
#[local] Open Scope Z_scope.

(** No character of the string is a slash. *)
Fixpoint clean (s : string) : Prop :=
  match s with
  | EmptyString => True
  | String a s => a ≠ Ascii.ascii_of_nat 47 ∧ clean s
  end.

(** What [base64]'s URL-safe alphabet promises. *)
Class KeyLaw {K : KeyEncoding} : Prop := {
  b64_inj a b : b64url a = b64url b → a = b;
  b64_clean a : clean (b64url a);
}.

Lemma clean_split a b x y : clean a → clean b → a +:+ "/" +:+ x = b +:+ "/" +:+ y → a = b ∧ x = y.
Proof.
  revert b. induction a as [|c a IH]; intros [|d b]; rewrite ?append_cons; cbn [clean].
  - intros _ _ H. split; [done|]. by injection H.
  - intros _ [Hd _] H. injection H as Hc _. by destruct Hd.
  - intros [Hc _] _ H. injection H as Hd _. by destruct Hc.
  - intros [_ Ha] [_ Hb] [= -> E]. destruct (IH b Ha Hb E) as [-> ->]. done.
Qed.

Lemma pretty_char_clean x : pretty_N_char x ≠ Ascii.ascii_of_nat 47.
Proof. unfold pretty_N_char. by repeat case_match. Qed.

Lemma pretty_go_clean x s : clean s → clean (pretty_N_go x s).
Proof.
  revert s. induction x as [x IH] using (well_founded_induction N.lt_wf_0); intros s Hs.
  destruct (decide (0 < x)%N) as [Hx|Hx].
  - rewrite pretty_N_go_step by done. apply IH; [by apply N.div_lt|]. split; [apply pretty_char_clean|done].
  - replace x with 0%N by lia. by rewrite pretty_N_go_0.
Qed.

Lemma pretty_clean (x : N) : clean (pretty x).
Proof. unfold pretty, pretty_N. case_decide; [by split|]. by apply pretty_go_clean. Qed.

Lemma append_last_inj a b c d : a +:+ String c "" = b +:+ String d "" → a = b ∧ c = d.
Proof.
  revert b. induction a as [|x a IH]; intros [|y b]; rewrite ?append_cons.
  - by intros [= ->].
  - intros [= _ E]. by destruct b.
  - intros [= _ E]. by destruct a.
  - intros [= -> E]. by destruct (IH b E) as [-> ->].
Qed.

Lemma digit_inj d e : 0 <= d < 10 → 0 <= e < 10 → digit d = digit e → d = e.
Proof.
  unfold digit. intros ?? H%(f_equal Ascii.nat_of_ascii). rewrite !Ascii.nat_ascii_embedding in H by lia. lia.
Qed.

(** The digits identify a value of the width. *)
Lemma padded_inj w a b : 0 <= a < 10 ^ Z.of_nat w → 0 <= b < 10 ^ Z.of_nat w → padded w a = padded w b → a = b.
Proof.
  revert a b. induction w as [|w IH]; intros a b Ha Hb; [change (10 ^ Z.of_nat 0) with 1 in *; lia|].
  rewrite Nat2Z.inj_succ, Z.pow_succ_r in Ha, Hb by lia. cbn [padded].
  intros [Hq Hd]%append_last_inj.
  apply digit_inj in Hd; [|by apply Z.mod_pos_bound..].
  apply IH in Hq; [|split; [by apply Z.div_pos; lia|by apply Z.div_lt_upper_bound; lia]..].
  rewrite (Z.div_mod a 10), (Z.div_mod b 10) by done. lia.
Qed.

Section keys.
Context {K : KeyEncoding} {KL : KeyLaw}.

(** A slot's object key names its source generation, bucket and slot: two slots of
    the [u64] range, of any sources and buckets, share an object only when they are the
    same slot, and no slot shares one with a manifest. *)
Theorem slot_keys_distinct s1 b1 n1 s2 b2 n2 :
  0 <= n1 <= u64_max → 0 <= n2 <= u64_max → 0 <= src_generation s1 → 0 <= src_generation s2 →
  (slot_key s1 b1 n1 = slot_key s2 b2 n2 → s1 = s2 ∧ b1 = b2 ∧ n1 = n2) ∧
  slot_key s1 b1 n1 ≠ manifest_key s2.
Proof using KL.
  intros Hn1 Hn2 Hg1 Hg2. unfold slot_key, manifest_key. split.
  - intros H. apply append_inj_l in H.
    apply (clean_split _ _ (pretty (Z.to_N (src_generation s1)) +:+ "/" +:+ _)
                           (pretty (Z.to_N (src_generation s2)) +:+ "/" +:+ _)) in H as [Hs H];
      [|apply b64_clean..].
    apply (clean_split _ _ ("bucket/" +:+ _) ("bucket/" +:+ _)) in H as [Hg H]; [|apply pretty_clean..].
    apply append_inj_l in H.
    apply (clean_split _ _ ("slot/" +:+ _) ("slot/" +:+ _)) in H as [Hb H]; [|apply b64_clean..].
    apply append_inj_l, padded_inj in H; [|unfold u64_max in *; lia..].
    apply b64_inj in Hs, Hb. apply (inj pretty) in Hg.
    destruct s1, s2; cbn in *. split_and!; [f_equal; [done|lia]|done|done].
  - intros H. apply append_inj_l in H.
    apply (clean_split _ _ (pretty (Z.to_N (src_generation s1)) +:+ "/" +:+ _) "manifest") in H as [_ H];
      [|apply b64_clean..].
    assert (Hm : clean "manifest") by (cbn; split_and!; done).
    rewrite <- H in Hm. clear H. induction (pretty _) as [|a s IH]; [by destruct Hm|]. destruct Hm. auto.
Qed.
End keys.

(** Hexadecimal digits, an encoding that keeps the promise. *)
Definition hex_digit (d : nat) : Ascii.ascii := Ascii.ascii_of_nat (97 + d).
Fixpoint hex (s : string) : string :=
  match s with
  | EmptyString => ""
  | String a s => let n := Ascii.nat_of_ascii a in String (hex_digit (n / 16)) (String (hex_digit (n mod 16)) (hex s))
  end.

Lemma hex_digit_inj d e : (d < 16)%nat → (e < 16)%nat → hex_digit d = hex_digit e → d = e.
Proof.
  unfold hex_digit. intros ?? H%(f_equal Ascii.nat_of_ascii). rewrite !Ascii.nat_ascii_embedding in H by lia. lia.
Qed.

Lemma hex_digit_clean d : (d < 16)%nat → hex_digit d ≠ Ascii.ascii_of_nat 47.
Proof.
  unfold hex_digit. intros ? H%(f_equal Ascii.nat_of_ascii). rewrite !Ascii.nat_ascii_embedding in H by lia. lia.
Qed.

Lemma nibbles a : (Ascii.nat_of_ascii a / 16 < 16 ∧ Ascii.nat_of_ascii a mod 16 < 16)%nat.
Proof.
  pose proof (Ascii.nat_ascii_bounded a). split; [by apply Nat.Div0.div_lt_upper_bound|by apply Nat.mod_upper_bound].
Qed.

#[global] Instance hex_encoding : KeyEncoding := hex.
#[global] Instance hex_law : KeyLaw.
Proof.
  split.
  - intros a. induction a as [|x a IH]; intros [|y b]; cbn [b64url hex_encoding hex]; try done.
    intros [= H1 H2 H3]. destruct (nibbles x), (nibbles y).
    apply (hex_digit_inj (Ascii.nat_of_ascii x / 16) (Ascii.nat_of_ascii y / 16)) in H1; [|done..].
    apply (hex_digit_inj (Ascii.nat_of_ascii x mod 16) (Ascii.nat_of_ascii y mod 16)) in H2; [|done..].
    assert (Ascii.nat_of_ascii x = Ascii.nat_of_ascii y) as E.
    { pose proof (Nat.div_mod_eq (Ascii.nat_of_ascii x) 16). pose proof (Nat.div_mod_eq (Ascii.nat_of_ascii y) 16). lia. }
    rewrite <- (Ascii.ascii_nat_embedding x), <- (Ascii.ascii_nat_embedding y), E. f_equal. by apply IH.
  - intros a. induction a as [|x a IH]; cbn [b64url hex_encoding hex clean]; [done|].
    destruct (nibbles x). split_and!; [by apply hex_digit_clean..|done].
Qed.

Lemma slot_keys_distinct_witness :
  slot_key (mkSource "gw" 1) "b" 11 ≠ slot_key (mkSource "gw" 11) "b" 1.
Proof.
  intros H. destruct (slot_keys_distinct (mkSource "gw" 1) "b" 11 (mkSource "gw" 11) "b" 1) as [Hi _];
    [unfold u64_max; lia..|cbn; lia|cbn; lia|]. destruct (Hi H) as ([=] & _).
Defined.
