(* ===== verification/ControlClaims.v ===== *)
(** * Theorems on the control journal and their instances *)

From S2P Require Import Prelude.
From S2P Require Import LegacyCodec.
From S2P Require Import Control.
From S2P Require Import ControlStore.
From S2P Require Import ControlProps.
From S2P Require Import ControlScan.
From S2P Require Import ControlKeys.
From S2P Require Import ControlPending.

(** ** A store without other writers

    Every call is answered, nothing else runs: an execution every program has. *)

Definition honest_put (w : world) (key : string) (l : bytes) : PutVerdict * Fate * world :=
  match w !! key with Some _ => (Occupied, Refused, w) | None => (Created, Took, <[key := l]> w) end.

Fixpoint honest {A} (w : world) (p : prog A) : list event * A * world :=
  match p with
  | Ret a => ([], a, w)
  | PutIfAbsent key l k =>
      let '(v, fate, w) := honest_put w key l in
      let '(tr, a, w') := honest w (k (Ok v)) in (EPut key l (Ok v) fate :: tr, a, w')
  | Get key k => let '(tr, a, w') := honest w (k (Ok (w !! key))) in (EGet key (Ok (w !! key)) :: tr, a, w')
  end.

Lemma honest_exec {A} w (p : prog A) :
  let '(tr, a, w') := honest w p in exec w p tr a w' ∧ reliable tr.
Proof.
  revert w. induction p as [a|key l k IH|key k IH]; intros w; cbn [honest].
  - split; [by constructor|constructor].
  - unfold honest_put. destruct (w !! key) eqn:Ek.
    + specialize (IH (Ok Occupied) w). destruct (honest w _) as [[tr a] w']. destruct IH as [He Hr].
      split; [|by constructor]. apply (exec_put w w w); [done| |done]. split; [done|split; [done|by eexists]].
    + specialize (IH (Ok Created) (<[key:=l]> w)). destruct (honest _ _) as [[tr a] w']. destruct IH as [He Hr].
      split; [|by constructor]. apply (exec_put w w (<[key:=l]> w)); [done| |done]. by split_and!.
  - specialize (IH (Ok (w !! key)) w). destruct (honest _ _) as [[tr a] w']. destruct IH as [He Hr].
    split; [|by constructor]. by apply (exec_get w w).
Qed.

(** ** The frame *)

Section frame.
Context {B : RecordHash} {HB : HashLaw} {T : Type} (cd : RecordCodec T) {CL : CodecLaw cd}.

(** A shortened frame keeps its header, not its length. *)
Lemma torn_frame v max l n :
  record_encode cd v max = Ok l → (n < length l)%nat → ∃ what, record_decode cd (take n l) max = Err (JCorrupt what).
Proof using HB.
  intros Hl Hn. pose proof (record_encode_length cd _ _ _ Hl) as Hlen.
  apply record_encode_shape in Hl as (pl & Hpl & Hu & Hm & ->).
  set (c := MAGIC ++ to_le_bytes 1 CVERSION ++ to_le_bytes 4 (Z.of_nat (length pl)) ++ pl) in *.
  destruct (take_header MAGIC (to_le_bytes 1 CVERSION) (to_le_bytes 4 (Z.of_nat (length pl))) pl (record_hash c))
    as (E1 & E2 & E3 & _); [reflexivity|reflexivity|apply length_to_le_bytes|]. fold c in E1, E2, E3.
  assert (Hc : length (c ++ record_hash c) = (41 + length pl)%nat).
  { subst c. repeat rewrite ?length_app, ?length_to_le_bytes, ?hash_length. cbn [MAGIC length]. lia. }
  unfold record_decode. rewrite length_take_le by lia. destruct (decide (n < 41)%nat) as [Hs|Hs].
  { rewrite (proj2 (Z.ltb_lt (Z.of_nat n) (HEADER + DIGEST))) by (unfold HEADER, DIGEST; lia).
    rewrite orb_true_r. cbn. eauto. }
  rewrite (proj2 (Z.ltb_ge max _)), (proj2 (Z.ltb_ge _ (HEADER + DIGEST))) by (unfold HEADER, DIGEST; lia).
  cbn [orb refuse_if mbind result_bind]. rewrite !skipn_firstn_comm, !take_take.
  replace (4 `min` n)%nat with 4%nat by lia. replace (1 `min` (n - 4))%nat with 1%nat by lia.
  replace (4 `min` (n - 5))%nat with 4%nat by lia. rewrite E1, E2, E3.
  rewrite (bool_decide_eq_true_2 (MAGIC = MAGIC)) by done. change (from_le_bytes (to_le_bytes 1 CVERSION)) with 2.
  cbn [negb orb andb CVERSION Z.eqb Pos.eqb refuse_if mbind result_bind].
  rewrite from_to_le_bytes by (unfold u32_max in Hu; lia).
  rewrite (bool_decide_eq_false_2 (checked_add _ _ _ = _)); [cbn; eauto|].
  intros [E _]%checked_add_Some. unfold HEADER, DIGEST in E. lia.
Qed.

(** A record frame within the limit reads back as the record, is in the current
    format, and no proper prefix of it (a torn write) is accepted. *)
Theorem record_roundtrip v max l :
  max <= usize_max → record_encode cd v max = Ok l →
  Z.of_nat (length l) <= max ∧ record_decode cd l max = Ok v ∧ is_current l = true ∧
  ∀ n, (n < length l)%nat → ∃ what, record_decode cd (take n l) max = Err (JCorrupt what).
Proof using HB CL.
  intros Hmax Hl. split_and!.
  - by eapply record_encode_length.
  - by apply record_frame.
  - by eapply record_encode_current.
  - intros n Hn. by eapply torn_frame.
Qed.
End frame.

(** ** The manifest *)

Section manifest.
Context {B : RecordHash} {HB : HashLaw} {K : KeyEncoding}.
Context (manifests : RecordCodec JournalConfig) {ML : CodecLaw manifests}.

(** The source's manifest decodes to the configuration. *)
Definition manifest_holds (w : world) (config : JournalConfig) : Prop :=
  ∃ l, w !! manifest_key (jcfg_source config) = Some l ∧
    record_decode manifests l (max_record_bytes (limits config)) = Ok config.

Lemma open_holds config w tr c w' :
  max_record_bytes (limits config) <= usize_max →
  exec w (open_journal manifests config) tr (Ok c) w' → c = config ∧ manifest_holds w' config.
Proof using HB ML.
  intros Hm H. unfold open_journal in H. apply exec_lift in H. destruct (validate_config config); [|by destruct H].
  apply exec_lift in H. destruct (record_encode manifests config _) as [expected|] eqn:Ee; [|by destruct H].
  apply exec_store_put in H as (ans & fate & w1 & w2 & tr1 & Hw1 & -> & Hput & H).
  destruct ans as [v|e]; [|by destruct H]. destruct v.
  { destruct Hput as (-> & _ & ->). apply exec_Ret in H as (-> & [= ->] & Hw). split; [done|].
    exists expected. split; [eapply lookup_weaken; [apply lookup_insert_eq|done]|by apply record_frame]. }
  all: apply exec_store_get in H as (ans & w3 & tr2 & Hw3 & -> & Hget & H); destruct ans as [o|e]; [|by destruct H];
    cbn in Hget; subst o; apply exec_lift in H; destruct (w3 !! _) as [actual|] eqn:Ea; [|by destruct H];
    apply exec_lift in H; destruct (record_decode manifests actual _) as [stored|] eqn:Ed; [|by destruct H];
    destruct (negb _ || _) eqn:Eb; apply exec_Ret in H as (-> & Hc & Hw); [done|];
    injection Hc as ->; bool_prop; subst stored; (split; [done|]);
    exists actual; (split; [by eapply lookup_weaken|done]).
Qed.

(** The size limit is only a guard of the decoder. *)
Lemma record_decode_max l m1 m2 v1 v2 :
  record_decode manifests l m1 = Ok v1 → record_decode manifests l m2 = Ok v2 → v1 = v2.
Proof using.
  unfold record_decode. intros H1 H2.
  repeat (apply bind_ok in H1 as (? & _ & H1); apply bind_ok in H2 as (? & _ & H2)). congruence.
Qed.

(** A source has one configuration: of any two journals opened on the store under
    one source name, in any interleaving with other writers, the later one has the
    generation, the limits and the admission policy of the earlier one. *)
Theorem open_agrees c1 c2 w1 tr1 r1 w1' w2 tr2 r2 w2' :
  max_record_bytes (limits c1) <= usize_max → max_record_bytes (limits c2) <= usize_max →
  src_name (jcfg_source c1) = src_name (jcfg_source c2) →
  exec w1 (open_journal manifests c1) tr1 (Ok r1) w1' → w1' ⊆ w2 →
  exec w2 (open_journal manifests c2) tr2 (Ok r2) w2' → c1 = c2.
Proof using HB ML.
  intros Hm1 Hm2 Hn H1 Hw H2. pose proof (exec_grows _ _ _ _ _ H2) as Hg.
  apply open_holds in H1 as (_ & l1 & Hl1 & Hd1); [|done].
  apply open_holds in H2 as (_ & l2 & Hl2 & Hd2); [|done].
  unfold manifest_key in Hl1, Hl2. rewrite Hn in Hl1.
  assert (Hl : w2' !! ("s3cache-control/v1/" +:+ b64url (src_name (jcfg_source c2)) +:+ "/manifest") = Some l1).
  { eapply lookup_weaken; [exact Hl1|by trans w2]. }
  rewrite Hl2 in Hl. injection Hl as ->. by eapply record_decode_max.
Qed.
End manifest.

(** ** Appends *)

Section claims.
Context {B : RecordHash} {HB : HashLaw} {K : KeyEncoding}.
Context (slots : RecordCodec SlotEnvelope) {SL : CodecLaw slots}.

Abbreviation key_of config c s := (slot_key (jcfg_source config) (cur_bucket c) s).
Abbreviation frame config c s r := (record_encode slots (envelope_of config c s r) (max_record_bytes (limits config))).

(** An object of the store that is an execution's own: it put these bytes at this key, and
    the put took effect or was in flight when it was answered. *)
Definition own (tr : list event) (w : world) (x : string * bytes) : Prop := x ∈ effects tr ∧ w !! x.1 = Some x.2.

(** [C18] Whatever other writers do and however the store answers, when [append] returns
    a cursor the record is committed: the slot before the returned cursor holds it, and
    every slot between the starting cursor and that slot holds a valid record of another
    identity, so no absent slot was skipped. *)
Theorem append_commits config from record w tr r c w' :
  widths config → exec w (append slots config from record) tr (Ok r) w' → r = ACreated c ∨ r = ARecovered c →
  ∃ s env, c = mkCtlCursor (cur_source from) (cur_bucket from) (s + 1) ∧
    cur_next_slot from <= s < max_slots (limits config) ∧
    slot_holds slots config from w' s env ∧ env_record env = record ∧
    ∀ t, cur_next_slot from <= t < s →
      ∃ other, slot_holds slots config from w' t other ∧ same_identity (env_record other) record = false.
Proof using HB SL.
  intros Hw H%append_post_all Hr; [|done|done]. destruct H as (Ha & _ & _).
  destruct Hr as [-> | ->]; destruct Ha as (s & env & ? & ? & ? & ? & ?); by exists s, env.
Qed.

(** [C13] An execution of [append] never changes an existing object.  Whatever becomes of
    its puts, those still in flight when it returns included, at most one object of the
    store is ever its own: the record's frame, at one slot that follows only occupied
    slots.  [Created] answers exactly that creation.  An unknown write has created nothing
    yet and can only create the slot it reports, with the original cursor to retry from;
    a later cursor is given only when nothing was created and nothing can be any more. *)
Theorem append_writes_once config from record w tr r w' :
  widths config → exec w (append slots config from record) tr r w' →
  w ⊆ w' ∧
  (∃ s, cur_next_slot from <= s ∧ passed slots config from record w' (cur_next_slot from) s ∧
     ∀ w'' x, w' ⊆ w'' → own tr w'' x → s < max_slots (limits config) ∧ x.1 = key_of config from s ∧ frame config from s record = Ok x.2) ∧
  match r with
  | Ok (ACreated c) => ∃ s l, cur_next_slot c = s + 1 ∧ frame config from s record = Ok l ∧ writes tr = [(key_of config from s, l)]
  | Err (UnknownWrite slot retry_from) =>
      writes tr = [] ∧ retry_from = from ∧ passed slots config from record w' (cur_next_slot from) slot ∧
      ∀ w'' x, w' ⊆ w'' → own tr w'' x → x.1 = key_of config from slot
  | Err (AppendBackpressured resume) =>
      writes tr = [] ∧ cur_next_slot from <= cur_next_slot resume ∧
      passed slots config from record w' (cur_next_slot from) (cur_next_slot resume) ∧
      ∀ w'' x, w' ⊆ w'' → ¬ own tr w'' x
  | _ => True
  end.
Proof using HB SL.
  intros Hw H. pose proof (exec_grows _ _ _ _ _ H) as Hg.
  destruct (append_post_all _ _ _ _ _ _ _ _ Hw H) as (Ha & (s & Hs & Hp & He) & Hacc).
  assert (Hown : ∀ w'' x, w' ⊆ w'' → own tr w'' x → x ∈ effects tr ∧ ¬ lost w' x).
  { intros w'' x Hg' [Hx Hl]. split; [done|]. intros (l & Hl' & Hne). rewrite (lookup_weaken _ _ _ _ Hl' Hg') in Hl. congruence. }
  split_and!; [done| |].
  - exists s. split_and!; [done..|]. intros w'' x Hg' [Hx Hn]%(Hown _ _ Hg'). destruct (He x Hx); [by destruct Hn|done].
  - destruct r as [[c|c]|[]]; cbn in *; try done.
    + destruct Ha as (? & ? & Hpass), Hacc as [? Hacc]. split_and!; [done..|]. intros w'' x Hg' [Hx Hn]%(Hown _ _ Hg'). destruct (Hacc x Hx); [by destruct Hn|done].
    + destruct Ha as (s' & -> & [? ?] & ?), Hacc as [? Hacc]. split_and!; [done..|]. intros w'' x Hg' [Hx Hn]%(Hown _ _ Hg'). by destruct Hn; apply Hacc.
Qed.

(** [C28] A retry of a committed append finds it: with answers from the store and enough
    probes to reach the slot, it returns the cursor after the committed copy, creates
    nothing and leaves nothing in flight. *)
Theorem append_retry_recovers config from record w tr r w' s :
  widths config → check_cursor config from = Ok tt → validate_record config record = Ok tt →
  (cur_next_slot from = 0 ∨
   1 <= cur_next_slot from <= max_slots (limits config) ∧ ∃ env, slot_holds slots config from w (cur_next_slot from - 1) env) →
  committed slots config from record w (cur_next_slot from) s →
  s - cur_next_slot from < max_append_probes (limits config) →
  exec w (append slots config from record) tr r w' → reliable tr →
  r = Ok (ARecovered (mkCtlCursor (cur_source from) (cur_bucket from) (s + 1))) ∧ effects tr = [].
Proof using HB SL.
  intros Hw Hc Hr Hpre Hcom Hn H Hrel. unfold append in H. apply exec_lift in H. rewrite Hc in H.
  apply exec_lift in H. rewrite Hr in H. apply exec_bind in H as (tp & tr2 & rp & w2 & -> & Hp & H).
  pose proof (predecessor_reads _ _ _ _ _ _ _ Hp) as [Hq _]. apply Forall_app in Hrel as [Hrel1 Hrel2].
  pose proof (exec_grows _ _ _ _ _ Hp) as Hg. rewrite effects_app, Hq.
  assert (rp = Ok tt) as ->.
  2:{ eapply (retry_probe slots config Hw from record Hc Hr); [by eapply committed_grows| |exact H|done]. lia. }
  unfold validate_predecessor in Hp. destruct Hpre as [E|(Hpos & env & l & Hl & Hd)].
  { rewrite E in Hp. by apply exec_Ret in Hp as (_ & -> & _). }
  rewrite (proj2 (checked_sub_Some _ 1 (cur_next_slot from - 1))) in Hp by lia.
  apply exec_lift in Hp. rewrite (proj2 (Z.leb_gt _ _)) in Hp by lia. cbn [refuse_if] in Hp.
  apply exec_store_get in Hp as (ans & w1 & tr1 & Hw1 & -> & Hget & Hp).
  destruct ans as [o|e]; [|by inversion Hrel1]. cbn in Hget. subst o. rewrite (lookup_weaken _ _ _ _ Hl Hw1) in Hp.
  apply exec_lift in Hp. cbn [ok_or] in Hp. apply exec_lift in Hp. rewrite Hd in Hp.
  by apply exec_Ret in Hp as (_ & -> & _).
Qed.

(** Whatever the store answers, [append] returns after at most one call for the
    cursor's predecessor and four for each slot it probes. *)
Theorem append_calls_bounded config from record w tr r w' :
  exec w (append slots config from record) tr r w' →
  Z.of_nat (length tr) <= 1 + 4 * Z.max 0 (max_append_probes (limits config)).
Proof using.
  intros H. unfold append in H. exec_inv H; [|cbn; lia]. exec_inv H; [|cbn; lia].
  apply exec_bind in H as (tp & tr2 & rp & w2 & -> & Hp & H).
  pose proof (predecessor_reads _ _ _ _ _ _ _ Hp) as [_ Hq]. rewrite length_app.
  destruct rp as [[]|e]; [|destruct H as (-> & -> & ->); cbn; lia]. apply append_probe_calls in H. lia.
Qed.

(** ** Scans *)

(** [C29] A page of [scan] is the bucket's history from the cursor: consecutive records,
    each the one its slot holds, no more than the configured events and stored bytes, and
    a cursor just after them.  When it reports the first absent slot, that slot was absent
    when the scan began, so nothing committed before it is missed; otherwise it made
    progress.  A scan creates nothing. *)
Theorem scan_exact config from w tr r w' :
  0 < max_scan_events (limits config) → exec w (scan slots config from) tr r w' →
  effects tr = [] ∧ Z.of_nat (length tr) <= 1 + max_scan_events (limits config) ∧
  ∀ page, r = Ok page →
    pg_cursor page = at_slot from (cur_next_slot from + Z.of_nat (length (pg_records page))) ∧
    reads slots config from w' (cur_next_slot from) (pg_records page) ∧
    Z.of_nat (length (pg_records page)) <= max_scan_events (limits config) ∧
    (pg_records page = [] ∨
     stored_bytes config from w' (cur_next_slot from) (length (pg_records page)) <= max_scan_bytes (limits config)) ∧
    if pg_at_first_absent page then w !! key_of config from (cur_next_slot (pg_cursor page)) = None
    else pg_records page ≠ [].
Proof using.
  intros Hev H. unfold scan in H. exec_inv H; [|split_and!; [done|cbn; lia|done]].
  apply exec_bind in H as (tp & tr2 & rp & w2 & -> & Hp & H).
  pose proof (predecessor_reads _ _ _ _ _ _ _ Hp) as [Hq1 Hq2]. rewrite effects_app, Hq1, length_app.
  destruct rp as [[]|e]; [|destruct H as (-> & -> & ->); split_and!; [done|cbn; lia|done]].
  destruct (scan_page_reads _ _ _ _ _ _ _ _ _ _ H) as (Hwr & Hcalls & Hpage). split_and!; [done|lia|].
  intros page ->. destruct (Hpage page eq_refl) as (more & -> & -> & Hlm & Hreads & Hb & Habs & Hprog).
  cbn [app] in *. split_and!; [done|done|lia|by destruct Hb; [left|right]|].
  destruct (pg_at_first_absent page); [|apply Hprog; [lia|done]].
  eapply lookup_weaken_None; [by apply Habs|by eapply exec_grows].
Qed.
Lemma scan_reads config bucket w tr page w' :
  0 < max_scan_events (limits config) → exec w (scan slots config (start config bucket)) tr (Ok page) w' →
  pg_at_first_absent page = true →
  (∀ i r, pg_records page !! i = Some r →
     ∃ env, slot_holds slots config (start config bucket) w' (Z.of_nat i) env ∧ env_record env = r) ∧
  w !! slot_key (jcfg_source config) bucket (Z.of_nat (length (pg_records page))) = None.
Proof using.
  intros Hev H Habs. unfold scan in H. apply exec_lift in H. destruct (check_cursor _ _) as [[]|]; [|by destruct H].
  apply exec_bind in H as (tp & tr2 & rp & w2 & -> & Hp & H).
  destruct rp as [[]|e]; [|by destruct H].
  destruct (scan_page_reads _ _ _ _ _ _ _ _ _ _ H) as (_ & _ & Hpage).
  destruct (Hpage page eq_refl) as (more & -> & Hcur & _ & Hreads & _ & Hnone & _). cbn [app] in *.
  split; [exact Hreads|]. specialize (Hnone Habs). rewrite Hcur in Hnone.
  eapply lookup_weaken_None; [exact Hnone|by eapply exec_grows].
Qed.

(** ** From an append to the fence *)

(** Every slot below the cursor holds a valid record, as it does below the cursors that
    [append] and [scan] return. *)
Definition contiguous (config : JournalConfig) (w : world) (c : Cursor) : Prop :=
  ∀ t, 0 <= t < cur_next_slot c → ∃ env, slot_holds slots config c w t env.

Lemma slot_holds_cursor config c1 c2 w s env :
  cur_source c1 = cur_source c2 → cur_bucket c1 = cur_bucket c2 →
  slot_holds slots config c1 w s env → slot_holds slots config c2 w s env.
Proof using. intros Hs Hb (l & Hl & Hd). exists l. rewrite <- Hb. split; [done|]. unfold decode_slot in *. by rewrite <- Hs, <- Hb. Qed.

Lemma append_checked config from record w tr r w' :
  exec w (append slots config from record) tr (Ok r) w' → check_cursor config from = Ok tt.
Proof using.
  unfold append. intros H. apply exec_lift in H. destruct (check_cursor config from) as [[]|]; [done|]. by destruct H.
Qed.

(** [C19] Once the intent of a mutation is committed by [append], a reader whose scan from
    the bucket's start reaches the first absent slot has the operation fencing its key in
    the [PendingSet] of the records it read, unless one of them is its outcome. *)
Theorem committed_intent_fences config from op key m w tr r w1 w2 tr2 page w3 p :
  widths config → 0 < max_scan_events (limits config) → 0 <= cur_next_slot from → contiguous config w from →
  exec w (append slots config from (Intent op key m)) tr (Ok r) w1 → w1 ⊆ w2 →
  exec w2 (scan slots config (start config (cur_bucket from))) tr2 (Ok page) w3 → pg_at_first_absent page = true →
  apply_history PendingSet_default (cur_source from) (cur_bucket from) (pg_records page) = Ok p →
  (∀ slot q, Outcome op slot key q ∉ pg_records page) →
  op ∈ default ∅ (operations_for p key).
Proof using HB SL.
  intros Hw Hev Hpos Hcont Ha Hw12 Hscan Habs Hp Hout.
  pose proof (append_checked _ _ _ _ _ _ _ Ha) as Hc. unfold check_cursor in Hc. inv_ok. bool_prop.
  pose proof (exec_grows _ _ _ _ _ Ha) as Hg. pose proof (exec_grows _ _ _ _ _ Hscan) as Hg3.
  destruct (append_post_all _ _ _ _ _ _ _ _ Hw Ha) as (Hpost & _ & _).
  assert (∃ s env, cur_next_slot from <= s ∧ passed slots config from (Intent op key m) w1 (cur_next_slot from) s ∧
          slot_holds slots config from w1 s env ∧ env_record env = Intent op key m) as (s & env & Hs & Hpass & Hh & He).
  { destruct r as [c|c]; destruct Hpost as (s & env & _ & [? _] & ? & ? & ?); by exists s, env. }
  apply (scan_reads config) in Hscan as (Hreads & Habsent); [|done|done].
  assert (Hpresent : ∀ t, 0 <= t <= s → ∃ env, slot_holds slots config from w2 t env).
  { intros t Ht. destruct (decide (t < cur_next_slot from)).
    - destruct (Hcont t ltac:(lia)) as (e & ?). exists e. eapply slot_holds_grows; [|done]. by trans w1.
    - destruct (decide (t = s)) as [->|]; [exists env; by eapply slot_holds_grows|].
      destruct (Hpass t ltac:(lia)) as (e & ? & _). exists e. by eapply slot_holds_grows. }
  destruct (decide (s < Z.of_nat (length (pg_records page)))) as [Hlt|Hge].
  2:{ exfalso. destruct (Hpresent (Z.of_nat (length (pg_records page)))) as (e & l & Hl & _); [lia|].
      by rewrite Habsent in Hl. }
  destruct (lookup_lt_is_Some_2 (pg_records page) (Z.to_nat s)) as (r' & Hr'); [lia|].
  destruct (Hreads _ _ Hr') as (e & Hh2 & <-).
  apply (slot_holds_cursor config _ from) in Hh2 as (l & Hl & Hd); [|done..]. destruct Hh as (l' & Hl' & Hd').
  rewrite Z2Nat.id in Hl, Hd by lia. rewrite (lookup_weaken _ _ _ _ Hl' ltac:(by trans w2)) in Hl. injection Hl as <-.
  rewrite Hd' in Hd. injection Hd as <-. rewrite He in Hr'.
  apply (apply_history_projects _ _ _ []) in Hp; [|apply projects_default].
  apply (pj_key _ _ _ _ Hp). exists s. split_and!; [lia|by exists m|by intros; apply Hout].
Qed.
End claims.
