(* ===== verification/ControlDemo.v ===== *)
(** * The control journal at concrete stores

    An instance of the codec and of the hash that keep their laws, and the executions
    at which the theorems of [ControlClaims] are applied. *)

From S2P Require Import Prelude.
From S2P Require Import LegacyCodec.
From S2P Require Import Control.
From S2P Require Import ControlStore.
From S2P Require Import ControlProps.
From S2P Require Import ControlScan.
From S2P Require Import ControlKeys.
From S2P Require Import ControlPending.
From S2P Require Import ControlClaims.

(** ** A codec for countable records *)

Definition countable_codec (T : Type) `{Countable T} : RecordCodec T :=
  mkCodec T (λ v, Some (pos_bytes (countable.encode v))) (λ l, countable.decode (bytes_pos l)) (λ _, None).

#[global] Instance countable_codec_law T `{Countable T} : CodecLaw (countable_codec T).
Proof. intros v l [= <-]. cbn. by rewrite bytes_pos_bytes, countable.decode_encode. Qed.

(** The first bytes of the input, padded to the digest's width. *)
#[global] Instance demo_hash : RecordHash := λ l, take 32 (l ++ replicate 32 Byte.x00).
#[global] Instance demo_hash_law : HashLaw.
Proof. intros l. unfold record_hash, demo_hash. rewrite length_take, length_app, length_replicate. lia. Qed.

#[global] Instance SourceId_countable : Countable SourceId.
Proof. by refine (inj_countable' (λ s, (src_name s, src_generation s)) (λ p, mkSource p.1 p.2) _); intros []. Defined.

Definition mutation_code (m : Mutation) : Z := match m with MPut => 0 | MDelete => 1 | MCopy => 2 | MMultipartComplete => 3 end.
Definition code_mutation (z : Z) : Mutation :=
  if z =? 0 then MPut else if z =? 1 then MDelete else if z =? 2 then MCopy else MMultipartComplete.
#[global] Instance Mutation_countable : Countable Mutation.
Proof. by refine (inj_countable' mutation_code code_mutation _); intros []. Defined.

Definition outcome_code (m : FinalOutcome) : Z := match m with Committed => 0 | RejectedWithoutMutation => 1 | AbortedBeforeDispatch => 2 end.
Definition code_outcome (z : Z) : FinalOutcome :=
  if z =? 0 then Committed else if z =? 1 then RejectedWithoutMutation else AbortedBeforeDispatch.
#[global] Instance FinalOutcome_countable : Countable FinalOutcome.
Proof. by refine (inj_countable' outcome_code code_outcome _); intros []. Defined.

Definition record_code (r : Record_)
    : (string * string * Mutation) + (string * Z * string * FinalOutcome) + (string * Z * Z * Z) :=
  match r with
  | Intent o k m => inl (inl (o, k, m))
  | Outcome o s k q => inl (inr (o, s, k, q))
  | ReaderAdmission i a b c => inr (i, a, b, c)
  end.
Definition code_record (c : (string * string * Mutation) + (string * Z * string * FinalOutcome) + (string * Z * Z * Z)) : Record_ :=
  match c with
  | inl (inl (o, k, m)) => Intent o k m
  | inl (inr (o, s, k, q)) => Outcome o s k q
  | inr (i, a, b, c) => ReaderAdmission i a b c
  end.
#[global] Instance Record_countable : Countable Record_.
Proof. by refine (inj_countable' record_code code_record _); intros []. Defined.

#[global] Instance SlotEnvelope_countable : Countable SlotEnvelope.
Proof.
  by refine (inj_countable' (λ e, (env_source e, env_bucket e, env_slot e, env_record e))
               (λ p, mkEnvelopeOf p.1.1.1 p.1.1.2 p.1.2 p.2) _); intros [].
Defined.
#[global] Instance Limits_countable : Countable Limits.
Proof.
  by refine (inj_countable' (λ l, (max_record_bytes l, max_slots l, max_scan_events l, max_scan_bytes l, max_append_probes l))
               (λ p, mkLimits p.1.1.1.1 p.1.1.1.2 p.1.1.2 p.1.2 p.2) _); intros [].
Defined.
#[global] Instance JournalConfig_countable : Countable JournalConfig.
Proof.
  by refine (inj_countable' (λ c, (jcfg_source c, admission_version c, max_admission_ms c, limits c))
               (λ p, mkConfig p.1.1.1 p.1.1.2 p.1.2 p.2) _); intros [].
Defined.

Abbreviation slots := (countable_codec SlotEnvelope).
Abbreviation manifests := (countable_codec JournalConfig).

(** ** A run

    Two intents are appended, the second from a cursor that is behind, then the bucket
    is scanned. *)

Definition dconfig : JournalConfig := mkConfig demo_source 1 1000 (mkLimits 4096 100 16 65536 4).
Definition dstart : Cursor := start dconfig "b".
Definition first_intent : Record_ := Intent "op1" "k" MPut.
Definition second_intent : Record_ := Intent "op2" "k" MDelete.

Definition run1 := honest ∅ (append slots dconfig dstart first_intent).
Definition w1 : world := run1.2.
Definition run2 := honest w1 (append slots dconfig dstart second_intent).
Definition w2 : world := run2.2.
Definition run3 := honest w2 (append slots dconfig dstart second_intent).
Definition run4 := honest w2 (scan slots dconfig dstart).

Lemma run1_ok : run1.1.2 = Ok (ACreated (at_slot dstart 1)).
Proof. vm_compute. reflexivity. Qed.
Lemma run2_ok : run2.1.2 = Ok (ACreated (at_slot dstart 2)).
Proof. vm_compute. reflexivity. Qed.
Lemma run3_ok : run3.1.2 = Ok (ARecovered (at_slot dstart 2)).
Proof. vm_compute. reflexivity. Qed.
Lemma run4_ok : run4.1.2 = Ok (mkPage [first_intent; second_intent] (at_slot dstart 2) true).
Proof. vm_compute. reflexivity. Qed.

Lemma honest_run {A} w (p : prog A) run :
  honest w p = run → exec w p run.1.1 run.1.2 run.2 ∧ reliable run.1.1.
Proof. intros <-. pose proof (honest_exec w p) as H. by destruct (honest w p) as [[tr a] w']. Qed.

Lemma run1_exec : exec ∅ (append slots dconfig dstart first_intent) run1.1.1 (Ok (ACreated (at_slot dstart 1))) w1.
Proof. rewrite <- run1_ok. exact (proj1 (honest_run _ _ run1 eq_refl)). Qed.
Lemma run2_exec : exec w1 (append slots dconfig dstart second_intent) run2.1.1 (Ok (ACreated (at_slot dstart 2))) w2.
Proof. rewrite <- run2_ok. exact (proj1 (honest_run _ _ run2 eq_refl)). Qed.
Lemma run3_exec :
  exec w2 (append slots dconfig dstart second_intent) run3.1.1 (Ok (ARecovered (at_slot dstart 2))) run3.2 ∧ reliable run3.1.1.
Proof. rewrite <- run3_ok. exact (honest_run _ _ run3 eq_refl). Qed.
Lemma run4_exec :
  exec w2 (scan slots dconfig dstart) run4.1.1 (Ok (mkPage [first_intent; second_intent] (at_slot dstart 2) true)) run4.2.
Proof. rewrite <- run4_ok. exact (proj1 (honest_run _ _ run4 eq_refl)). Qed.

Lemma dwidths : widths dconfig.
Proof. split; vm_compute; discriminate. Qed.

Lemma append_commits_witness :
  ∃ s env, at_slot dstart 2 = mkCtlCursor demo_source "b" (s + 1) ∧ slot_holds slots dconfig dstart w2 s env ∧
    env_record env = second_intent.
Proof.
  destruct (append_commits slots dconfig dstart second_intent w1 run2.1.1 (ACreated (at_slot dstart 2)) (at_slot dstart 2) w2
              dwidths run2_exec (or_introl eq_refl)) as (s & env & Hc & _ & Hh & He & _).
  exists s, env. split; [exact Hc|split; [exact Hh|exact He]].
Defined.

Definition bytes0 : bytes := Eval vm_compute in default [] (w2 !! slot_key demo_source "b" 0).
Definition bytes1 : bytes := Eval vm_compute in default [] (w2 !! slot_key demo_source "b" 1).

(** A store whose puts are answered with nothing and stay in flight. *)
Fixpoint silent {A} (w : world) (p : prog A) : list event * A :=
  match p with
  | Ret a => ([], a)
  | PutIfAbsent key l k => let '(tr, a) := silent w (k (Ok Unknown)) in (EPut key l (Ok Unknown) InFlight :: tr, a)
  | Get key k => let '(tr, a) := silent w (k (Ok (w !! key))) in (EGet key (Ok (w !! key)) :: tr, a)
  end.

Lemma silent_exec {A} w w' (p : prog A) : w ⊆ w' → let '(tr, a) := silent w p in exec w p tr a w'.
Proof.
  intros Hw. induction p as [a|key l k IH|key k IH]; cbn [silent]; [by constructor|..].
  - specialize (IH (Ok Unknown)). destruct (silent w _) as [tr a]. by apply (exec_put w w w).
  - specialize (IH (Ok (w !! key))). destruct (silent w _) as [tr a]. by apply (exec_get w w).
Qed.

(** The put is not there when it is read back, and lands after the append has answered. *)
Definition key0 : string := slot_key demo_source "b" 0.
Definition late_trace : list event := [EGet key0 (Ok None); EPut key0 bytes0 (Ok Unknown) InFlight; EGet key0 (Ok None)].
Definition landed : world := <[key0 := bytes0]> ∅.

Lemma late_exec : exec ∅ (append slots dconfig dstart first_intent) late_trace (Err (UnknownWrite 0 dstart)) landed.
Proof.
  assert (Hs : silent ∅ (append slots dconfig dstart first_intent) = (late_trace, Err (UnknownWrite 0 dstart))) by (vm_compute; reflexivity).
  pose proof (silent_exec ∅ landed (append slots dconfig dstart first_intent) (map_empty_subseteq _)) as H. by rewrite Hs in H.
Qed.

Lemma late_own : own late_trace landed (key0, bytes0).
Proof. split; [by left|apply lookup_insert_eq]. Qed.

(** The late creation is the append's own, at the slot it reported; a created one is counted
    once. *)
Lemma append_writes_once_witness :
  (writes late_trace = [] ∧ key0 = slot_key demo_source "b" 0) ∧ (length (writes run2.1.1) = 1)%nat.
Proof.
  destruct (append_writes_once slots dconfig dstart first_intent ∅ late_trace (Err (UnknownWrite 0 dstart)) landed dwidths late_exec)
    as (_ & _ & Hw & _ & _ & Hslot).
  destruct (append_writes_once slots dconfig dstart second_intent w1 run2.1.1 (Ok (ACreated (at_slot dstart 2))) w2 dwidths run2_exec)
    as (_ & _ & s & l & _ & _ & Hc).
  split; [split; [exact Hw|exact (Hslot landed (key0, bytes0) (reflexivity landed) late_own)]|by rewrite Hc].
Defined.

(** The second intent stands at slot 1, behind the first. *)
Lemma second_committed : committed slots dconfig dstart second_intent w2 0 1.
Proof.
  split; [vm_compute; split; [discriminate|reflexivity]|]. split; [|split].
  - intros t Ht. assert (t = 0) as -> by lia. exists (envelope_of dconfig dstart 0 first_intent).
    split; [|reflexivity]. exists bytes0. split; vm_compute; reflexivity.
  - intros t Ht. assert (t = 0) as -> by lia. vm_compute. reflexivity.
  - exists bytes1. split; vm_compute; reflexivity.
Qed.

Lemma append_retry_recovers_witness :
  Ok (ARecovered (at_slot dstart 2)) = @Ok JournalError _ (ARecovered (mkCtlCursor demo_source "b" (1 + 1))) ∧
  effects run3.1.1 = [].
Proof.
  exact (append_retry_recovers slots dconfig dstart second_intent w2 run3.1.1 (Ok (ARecovered (at_slot dstart 2))) run3.2 1
    dwidths eq_refl eq_refl (or_introl eq_refl) second_committed eq_refl (proj1 run3_exec) (proj2 run3_exec)).
Defined.

Lemma append_calls_bounded_witness : Z.of_nat (length run2.1.1) <= 1 + 4 * Z.max 0 4.
Proof. exact (append_calls_bounded slots dconfig dstart second_intent w1 run2.1.1 (Ok (ACreated (at_slot dstart 2))) w2 run2_exec). Defined.

Lemma scan_exact_witness :
  effects run4.1.1 = [] ∧ reads slots dconfig dstart run4.2 0 [first_intent; second_intent].
Proof.
  destruct (scan_exact slots dconfig dstart w2 run4.1.1 (Ok (mkPage [first_intent; second_intent] (at_slot dstart 2) true))
              run4.2 eq_refl run4_exec) as (Hw & _ & Hp).
  split; [exact Hw|exact (proj1 (proj2 (Hp _ eq_refl)))].
Defined.

Definition scanned : PendingSet :=
  mkPending (Some (demo_source, "b")) 2 {["op1"; "op2"]} {["op2" := ("k", 1); "op1" := ("k", 0)]} {["k" := {["op1"; "op2"]}]}.

Lemma committed_intent_fences_witness : "op2" ∈ default ∅ (operations_for scanned "k").
Proof.
  apply (committed_intent_fences slots dconfig dstart "op2" "k" MDelete w1 run2.1.1 (ACreated (at_slot dstart 2)) w2
           w2 run4.1.1 (mkPage [first_intent; second_intent] (at_slot dstart 2) true) run4.2 scanned
           dwidths eq_refl).
  - reflexivity || (vm_compute; discriminate).
  - intros t Ht. cbn in Ht. lia.
  - exact run2_exec.
  - reflexivity.
  - exact run4_exec.
  - reflexivity.
  - vm_compute. reflexivity.
  - intros slot q. unfold pg_records, first_intent, second_intent. set_solver.
Defined.

(** ** Manifests *)

Definition open1 := honest ∅ (open_journal manifests dconfig).
Definition open2 := honest open1.2 (open_journal manifests dconfig).

Lemma open1_ok : open1.1.2 = Ok dconfig.
Proof. vm_compute. reflexivity. Qed.
Lemma open2_ok : open2.1.2 = Ok dconfig.
Proof. vm_compute. reflexivity. Qed.
Lemma open1_exec : exec ∅ (open_journal manifests dconfig) open1.1.1 (Ok dconfig) open1.2.
Proof. rewrite <- open1_ok. exact (proj1 (honest_run _ _ open1 eq_refl)). Qed.
Lemma open2_exec : exec open1.2 (open_journal manifests dconfig) open2.1.1 (Ok dconfig) open2.2.
Proof. rewrite <- open2_ok. exact (proj1 (honest_run _ _ open2 eq_refl)). Qed.

(** The same source name with another generation. *)
Definition dconfig2 : JournalConfig := mkConfig (mkSource "gw" 4) 1 1000 (mkLimits 4096 100 16 65536 4).

Lemma open_agrees_witness :
  exec open1.2 (open_journal manifests dconfig) open2.1.1 (Ok dconfig) open2.2 ∧
  ¬ ∃ tr r w', exec open1.2 (open_journal manifests dconfig2) tr (Ok r) w'.
Proof.
  split; [exact open2_exec|]. intros (tr & r & w' & H).
  discriminate (open_agrees manifests dconfig dconfig2 ∅ open1.1.1 dconfig open1.2 open1.2 tr r w'
    (proj1 dwidths) (proj1 dwidths) eq_refl open1_exec (reflexivity _) H).
Defined.

Lemma record_roundtrip_witness :
  record_decode slots bytes0 4096 = Ok (envelope_of dconfig dstart 0 first_intent) ∧
  record_decode slots (take 60 bytes0) 4096 = Err (JCorrupt "record length mismatch").
Proof.
  split; [|vm_compute; reflexivity].
  exact (proj1 (proj2 (record_roundtrip slots (envelope_of dconfig dstart 0 first_intent) 4096 bytes0
    ltac:(vm_compute; discriminate) ltac:(vm_compute; reflexivity)))).
Defined.
