(* ===== verification/ControlS3.v ===== *)
(** * The control store on S3

    [S3SlotStore] of [src/src/sync/control/s3.rs].  The client's answers are inputs: a
    put answers or fails with a service error code, a get answers with a declared length
    and body chunks.  What S3 promises of a conditional put is the hypothesis of
    [s3_put_refines]: the store's put is then a [put_step] of [ControlStore]. *)

From S2P Require Import Prelude.
From S2P Require Import LegacyCodec.
From S2P Require Import Control.
From S2P Require Import ControlStore.

Record S3SlotStore := mkS3Store { s3_bucket : string; s3_max_object_bytes : Z }.

Definition s3_new (control_bucket : string) (max_object_bytes : Z) : result StoreError S3SlotStore :=
  _ ← refuse_if (sempty control_bucket || (max_object_bytes =? 0)) "invalid control bucket or object limit";
  Ok (mkS3Store control_bucket max_object_bytes).

(** The failure of a request: its service error code, if it has one. *)
Definition ServiceCode : Type := option string.

Definition put_verdict (response : result ServiceCode unit) : PutVerdict :=
  match response with
  | Ok _ => Created
  | Err code => if bool_decide (code = Some "PreconditionFailed") then Occupied else Unknown
  end.

(** [put_if_absent]: the conditional put is sent only within the limit. *)
Definition s3_put_if_absent (st : S3SlotStore) (l : bytes) (send : unit → result ServiceCode unit)
    : result StoreError PutVerdict :=
  if s3_max_object_bytes st <? Z.of_nat (length l) then Err "control object exceeds configured limit"
  else Ok (put_verdict (send tt)).

(** A response: its declared length (an [i64]) and its body chunks. *)
Record GetResponse := mkResponse { content_length : option Z; body : list (result string bytes) }.

Fixpoint s3_body (st : S3SlotStore) (acc : bytes) (chunks : list (result string bytes)) : result StoreError bytes :=
  match chunks with
  | [] => Ok acc
  | chunk :: chunks =>
      chunk ← map_err (λ error, "control GET body: " +:+ error) chunk;
      _ ← refuse_if (saturating_sub (s3_max_object_bytes st) (Z.of_nat (length acc)) <? Z.of_nat (length chunk))
            "control object exceeds configured limit";
      s3_body st (acc ++ chunk) chunks
  end.

(** The failure carries its service code and its text. *)
Definition s3_get (st : S3SlotStore) (response : result (ServiceCode * string) GetResponse)
    : result StoreError (option bytes) :=
  match response with
  | Ok response =>
      _ ← refuse_if (is_some_and (λ length, match try_from usize_max length with
                                            | None => true
                                            | Some size => s3_max_object_bytes st <? size
                                            end) (content_length response))
            "control Content-Length outside limit";
      Some <$> s3_body st [] (body response)
  | Err (code, error) =>
      if bool_decide (code = Some "NoSuchKey") || bool_decide (code = Some "NotFound") then Ok None
      else Err ("control GET failed: " +:+ error)
  end.

(** S3's [If-None-Match: *] put: it succeeds by creating the absent object, answers
    [PreconditionFailed] only when the object exists, and any other failure may have
    committed, may not, or may be in flight. *)
Definition conditional_put (w : world) (key : string) (l : bytes) (response : result ServiceCode unit) (fate : Fate) (w' : world)
    : Prop :=
  w' = (match fate with Took => <[key := l]> w | _ => w end) ∧ (fate = Took → w !! key = None) ∧
  match response with
  | Ok _ => fate = Took
  | Err code => code = Some "PreconditionFailed" → is_Some (w' !! key)
  end.

(** The S3 store keeps the [SlotStore] contract for puts; a put over the limit sends
    nothing. *)
Lemma s3_put_refines st w key l response fate w' :
  conditional_put w key l response fate w' → Z.of_nat (length l) <= s3_max_object_bytes st →
  put_step w key l (s3_put_if_absent st l (λ _, response)) fate w'.
Proof.
  intros (Hw & Hn & Hr) Hl. unfold s3_put_if_absent. rewrite (proj2 (Z.ltb_ge _ _)) by done.
  split; [done|]. split; [done|]. destruct response as [|code]; cbn; [done|]. case_bool_decide; auto.
Qed.

Lemma s3_body_concat st acc chunks l :
  s3_body st acc chunks = Ok l → Z.of_nat (length acc) <= Z.max 0 (s3_max_object_bytes st) →
  Z.of_nat (length l) <= Z.max 0 (s3_max_object_bytes st) ∧
  ∃ parts, chunks = Ok <$> parts ∧ l = acc ++ concat parts.
Proof.
  revert acc. induction chunks as [|c chunks IH]; intros acc; cbn [s3_body].
  { intros [= <-] ?. split; [done|]. exists []. by rewrite app_nil_r. }
  intros H Hacc. apply bind_ok in H as (chunk & Hc%map_err_ok & H). subst c. apply bind_ok in H as ([] & Hb%refuse_if_ok & H). bool_prop.
  unfold saturating_sub in Hb. apply IH in H as (Hl & parts & -> & ->); [|rewrite length_app; lia].
  split; [done|]. exists (chunk :: parts). cbn. by rewrite app_assoc.
Qed.

(** A get answers with the whole body within the limit, or with absence only on the two
    codes that say so. *)
Lemma s3_get_exact st response o :
  s3_get st response = Ok o → 0 < s3_max_object_bytes st →
  match o with
  | Some l => Z.of_nat (length l) <= s3_max_object_bytes st ∧
      ∃ len parts, response = Ok (mkResponse len (Ok <$> parts)) ∧ l = concat parts
  | None => ∃ code error, response = Err (code, error) ∧ (code = Some "NoSuchKey" ∨ code = Some "NotFound")
  end.
Proof.
  intros H Hm. destruct response as [[len b]|[code error]]; cbn [s3_get] in H.
  - apply bind_ok in H as ([] & _ & H). cbn [body] in H. destruct (s3_body st [] b) as [l|] eqn:Eb; [|done].
    cbn in H. injection H as <-. apply s3_body_concat in Eb as (Hl & parts & -> & ->); [|cbn; lia].
    split; [lia|]. by exists len, parts.
  - destruct (bool_decide _ || _) eqn:E; [|done]. injection H as <-. exists code, error. split; [done|].
    apply orb_true_iff in E as [E|E]; bool_prop; auto.
Qed.
