(* ===== verification/Wire.v ===== *)
(** * The write feed's events

    [src/src/sync/wire.rs]: the event a durable write is advertised with, its
    timestamp's precision, and the session token a client echoes. *)

From S2P Require Import Prelude.
From S2P Require Import ObjTypes.
From S2P Require Import ImageCodec.
From stdpp Require Import pretty.
#[local] Open Scope Z_scope.

(** ** Session tokens *)

(** [str::rsplit_once]: split at the last occurrence. *)
Fixpoint rsplit_once (c : Ascii.ascii) (s : string) : option (string * string) :=
  match s with
  | EmptyString => None
  | String a t =>
      match rsplit_once c t with
      | Some (u, v) => Some (String a u, v)
      | None => if bool_decide (a = c) then Some ("", t) else None
      end
  end.

Definition char_digit (a : Ascii.ascii) : option Z :=
  let d := Z.of_nat (Ascii.nat_of_ascii a) - 48 in
  if (0 <=? d) && (d <=? 9) then Some d else None.

Fixpoint parse_digits (acc : Z) (s : string) : option Z :=
  match s with
  | EmptyString => Some acc
  | String a s =>
      d ← char_digit a;
      acc ← checked_mul u64_max acc 10;
      acc ← checked_add u64_max acc d;
      parse_digits acc s
  end.

Definition plus : Ascii.ascii := Ascii.ascii_of_nat 43.
Definition colon : Ascii.ascii := Ascii.ascii_of_nat 58.

(** [str::parse::<u64>]: digits after an optional plus sign. *)
Definition parse_u64 (s : string) : option Z :=
  let digits := match s with String a t => if bool_decide (a = plus) then t else s | EmptyString => s end in
  if sempty digits then None else parse_digits 0 digits.

Definition parse_token (value : string) : option (string * Z * Z) :=
  '(rest, seq) ← rsplit_once colon value;
  '(writer, epoch) ← rsplit_once colon rest;
  epoch ← parse_u64 epoch;
  seq ← parse_u64 seq;
  Some (writer, epoch, seq).

(** The header of a [WriteReceipt]. *)
Definition token_header (me : string) (epoch seq : Z) : string :=
  me +:+ ":" +:+ pretty (Z.to_N epoch) +:+ ":" +:+ pretty (Z.to_N seq).

(** ** Events *)

Definition WIRE_MAGIC : Byte.byte := Byte.xfe.

Inductive IndexOp :=
| OpPut (size : option Z) (etag content_type storage_class : option string)
| OpDel.

Definition op_unknown : IndexOp := OpPut None None None None.

Definition describes_nothing (op : IndexOp) : bool :=
  match op with OpPut None None _ _ => true | _ => false end.

Record IndexEvent := mkEvent { ev_op : IndexOp; ev_bucket : string; ev_key : string; ev_ts_us : Z }.

#[global] Instance IndexOp_eq_dec : EqDecision IndexOp.
Proof. solve_decision. Defined.
#[global] Instance IndexEvent_eq_dec : EqDecision IndexEvent.
Proof. solve_decision. Defined.

(** Nanoseconds in a microsecond. *)
Definition nanos_per_micro : Z := 1000.

Definition to_micros (ts : Z) : Z := if ts <? 0 then 0 else Z.min u64_max (ts / nanos_per_micro).
Definition from_micros (us : Z) : Z := UNIX_EPOCH + us * nanos_per_micro.
Definition wire_stamp (ts : Z) : Z := from_micros (to_micros ts).

Definition etag_to_wire (tag : ETag) : string :=
  match tag with
  | Strong value => quote +:+ value +:+ quote
  | Weak value => "W/" +:+ quote +:+ value +:+ quote
  end.

(** [codec::to_vec] and [codec::from_slice] of an event. *)
Class EventCodec := {
  event_to_vec : IndexEvent → option bytes;
  event_from_slice : bytes → option IndexEvent;
}.
Class EventCodecLaw {C : EventCodec} : Prop :=
  event_codec_law ev l : event_to_vec ev = Some l → event_from_slice l = Some ev.

Section envelope.
Context {C : EventCodec}.

Definition encode_event (event : IndexEvent) : bytes :=
  match event_to_vec event with
  | Some body => WIRE_MAGIC :: body
  | None => []
  end.

Definition decode_event (l : bytes) : option IndexEvent :=
  match l with
  | b :: body => if bool_decide (b = WIRE_MAGIC) then event_from_slice body else None
  | [] => None
  end.

(** An event that could be written is read back; the empty message of one that could
    not is no event. *)
Lemma event_roundtrip {CL : EventCodecLaw} ev :
  decode_event (encode_event ev) = if is_some (event_to_vec ev) then Some ev else None.
Proof using.
  unfold encode_event. destruct (event_to_vec ev) as [l|] eqn:E; [|done]. cbn.
  rewrite bool_decide_eq_true_2 by done. by apply event_codec_law.
Qed.
End envelope.

(** ** Stamps *)

Lemma to_micros_range ts : 0 <= to_micros ts <= u64_max.
Proof.
  unfold to_micros, u64_max, nanos_per_micro. destruct (Z.ltb_spec ts 0); [lia|].
  pose proof (Z.div_pos ts 1000 ltac:(lia) ltac:(lia)). lia.
Qed.

Lemma to_from_micros us : 0 <= us <= u64_max → to_micros (from_micros us) = us.
Proof.
  intros H. unfold to_micros, from_micros, UNIX_EPOCH, nanos_per_micro. rewrite Z.add_0_l, Z.div_mul by lia.
  rewrite (proj2 (Z.ltb_ge _ _)) by lia. lia.
Qed.

(** Stamping loses nothing a second time. *)
Lemma wire_stamp_idem ts : wire_stamp (wire_stamp ts) = wire_stamp ts.
Proof. unfold wire_stamp. by rewrite (to_from_micros (to_micros ts)) by apply to_micros_range. Qed.

(** Stamping keeps the order of times. *)
Lemma wire_stamp_mono a b : a <= b → wire_stamp a <= wire_stamp b.
Proof.
  intros H. unfold wire_stamp, from_micros, to_micros, nanos_per_micro.
  destruct (Z.ltb_spec a 0), (Z.ltb_spec b 0); try lia.
  - pose proof (Z.div_pos b 1000 ltac:(lia) ltac:(lia)). unfold u64_max. lia.
  - pose proof (Z.div_le_mono a b 1000 ltac:(lia) H). lia.
Qed.

(** Within the wire's range it moves a time back by less than a microsecond. *)
Lemma wire_stamp_near ts :
  0 <= ts <= from_micros u64_max → wire_stamp ts <= ts < wire_stamp ts + nanos_per_micro.
Proof.
  unfold wire_stamp, from_micros, to_micros, nanos_per_micro, UNIX_EPOCH. intros H.
  rewrite (proj2 (Z.ltb_ge _ _)) by lia. pose proof (Z.div_mod ts 1000 ltac:(lia)).
  pose proof (Z.mod_pos_bound ts 1000 ltac:(lia)). lia.
Qed.

(** ** Tokens read back *)

(** No character of the string is [c]. *)
Fixpoint avoids (c : Ascii.ascii) (s : string) : bool :=
  match s with
  | EmptyString => true
  | String a s => negb (bool_decide (a = c)) && avoids c s
  end.

Lemma rsplit_avoids c s : avoids c s = true → rsplit_once c s = None.
Proof.
  induction s as [|a s IH]; cbn; [done|]. intros H. bool_prop. rewrite IH by done.
  by rewrite bool_decide_eq_false_2.
Qed.

Lemma rsplit_last c a b : avoids c b = true → rsplit_once c (a +:+ String c b) = Some (a, b).
Proof.
  intros Hb. induction a as [|x a IH]; [|by rewrite append_cons; cbn; rewrite IH].
  change ("" +:+ String c b) with (String c b). cbn. rewrite (rsplit_avoids c b Hb).
  by rewrite bool_decide_eq_true_2.
Qed.

Lemma pretty_char_digit (d : N) : (d < 10)%N → char_digit (pretty_N_char d) = Some (Z.of_N d).
Proof.
  intros H. assert (d = 0 ∨ d = 1 ∨ d = 2 ∨ d = 3 ∨ d = 4 ∨ d = 5 ∨ d = 6 ∨ d = 7 ∨ d = 8 ∨ d = 9)%N as Hd by lia.
  repeat destruct Hd as [->|Hd]; try reflexivity. by subst d.
Qed.

Lemma pretty_go_avoids c x s :
  (∀ d, pretty_N_char d ≠ c) → avoids c s = true → avoids c (pretty_N_go x s) = true.
Proof.
  intros Hc. revert s. induction x as [x IH] using (well_founded_induction N.lt_wf_0); intros s Hs.
  destruct (decide (0 < x)%N) as [Hx|Hx].
  - rewrite pretty_N_go_step by done. apply IH; [by apply N.div_lt|]. cbn. by rewrite bool_decide_eq_false_2.
  - replace x with 0%N by lia. by rewrite pretty_N_go_0.
Qed.

(** A number's decimal digits hold no other character. *)
Lemma pretty_avoids c (x : N) : (∀ d, pretty_N_char d ≠ c) → avoids c (pretty x) = true.
Proof.
  intros Hc. unfold pretty, pretty_N. case_decide; [|by apply pretty_go_avoids].
  cbn. rewrite bool_decide_eq_false_2; [done|]. exact (Hc 0%N).
Qed.

Lemma pretty_char_colon d : pretty_N_char d ≠ colon.
Proof. unfold pretty_N_char. by repeat case_match. Qed.

Lemma parse_digits_go x s :
  Z.of_N x <= u64_max → parse_digits 0 (pretty_N_go x s) = parse_digits (Z.of_N x) s.
Proof.
  revert s. induction x as [x IH] using (well_founded_induction N.lt_wf_0); intros s Hs.
  destruct (decide (0 < x)%N) as [Hx|Hx].
  - rewrite pretty_N_go_step by done.
    assert (Z.of_N x = Z.of_N (x `div` 10) * 10 + Z.of_N (x `mod` 10)) as E.
    { pose proof (N.div_mod x 10 ltac:(lia)). lia. }
    pose proof (N.mod_lt x 10 ltac:(lia)). pose proof (N.div_lt x 10 Hx ltac:(lia)).
    pose proof (N2Z.is_nonneg (x `mod` 10)). pose proof (N2Z.is_nonneg (x `div` 10)).
    set (q := Z.of_N (x `div` 10)) in *. set (m := Z.of_N (x `mod` 10)) in *.
    rewrite IH; [|done|fold q; lia]. fold q. cbn [parse_digits]. rewrite pretty_char_digit by done. fold m. cbn [mbind option_bind].
    rewrite (proj2 (checked_mul_Some u64_max q 10 (q * 10))) by lia. cbn [mbind option_bind].
    rewrite (proj2 (checked_add_Some u64_max (q * 10) m (q * 10 + m))) by lia. cbn [mbind option_bind].
    by rewrite <- E.
  - replace x with 0%N by lia. by rewrite pretty_N_go_0.
Qed.

Lemma pretty_N_char_plus (d : N) : pretty_N_char d ≠ plus.
Proof. unfold pretty_N_char. by repeat case_match. Qed.

(** A printed number starts with a digit. *)
Lemma pretty_head (x : N) s : (0 < x)%N → ∃ d t, pretty_N_go x s = String (pretty_N_char d) t.
Proof.
  revert s. induction x as [x IH] using (well_founded_induction N.lt_wf_0); intros s Hx.
  rewrite pretty_N_go_step by done. destruct (decide (0 < x `div` 10)%N) as [Hq|Hq].
  - apply IH; [by apply N.div_lt|done].
  - apply N.nlt_ge, N.le_0_r in Hq. rewrite Hq, pretty_N_go_0. eauto.
Qed.

Lemma parse_pretty n : 0 <= n <= u64_max → parse_u64 (pretty (Z.to_N n)) = Some n.
Proof.
  intros H. unfold pretty, pretty_N. case_decide as E; [replace n with 0 by lia; done|].
  destruct (pretty_head (Z.to_N n) "" ltac:(lia)) as (d & t & Ht).
  pose proof (parse_digits_go (Z.to_N n) "" ltac:(lia)) as Hp. rewrite Ht in *. unfold parse_u64.
  rewrite bool_decide_eq_false_2 by apply pretty_N_char_plus. cbn [sempty]. rewrite Hp. cbn. f_equal. lia.
Qed.

(** The token a client echoes names the write it was handed out for, whatever the
    writer's name contains. *)
Lemma token_header_parses me epoch seq :
  0 <= epoch <= u64_max → 0 <= seq <= u64_max → parse_token (token_header me epoch seq) = Some (me, epoch, seq).
Proof.
  intros He Hs. unfold parse_token, token_header.
  change (":" +:+ pretty (Z.to_N seq)) with (String colon (pretty (Z.to_N seq))).
  change (":" +:+ ?s) with (String colon s).
  replace (me +:+ String colon (pretty (Z.to_N epoch) +:+ String colon (pretty (Z.to_N seq))))
    with ((me +:+ String colon (pretty (Z.to_N epoch))) +:+ String colon (pretty (Z.to_N seq)))
    by (by rewrite append_assoc, append_cons).
  rewrite rsplit_last by apply pretty_avoids, pretty_char_colon. cbn [mbind option_bind].
  rewrite rsplit_last by apply pretty_avoids, pretty_char_colon. cbn [mbind option_bind].
  by rewrite !parse_pretty.
Qed.
