(* ===== verification/Coherence.v ===== *)
(** * Write coherence

    [src/src/sync/coherence.rs] with the crossings of [src/src/sync/stop.rs]: what a
    node does with its own writes, with its peers' events and with the answers of
    the cluster-wide wait.  Membership, leases, the feed and the frontier belong to
    [groupnet]: their answers are arguments.  Logs and metrics are left out. *)

From S2P Require Import Prelude.
From S2P Require Import ObjTypes.
From S2P Require Import ImageCodec.
From S2P Require Import Rows.
From S2P Require Import IndexCapture.
From S2P Require Import KeyIndex.
From S2P Require Import Wire.

Abbreviation NodeId := string.
Record WriteToken := mkToken { tk_epoch : Z; tk_seq : Z }.

#[global] Instance WriteToken_eq_dec : EqDecision WriteToken.
Proof. solve_decision. Defined.

Definition native_cut (peer : NodeId) (token : WriteToken) : NativeCut := mkCut peer (tk_epoch token) (tk_seq token).

(** ** Modes *)

Inductive Consistency := CStrong | StrongAcks | Bounded.

#[global] Instance Consistency_eq_dec : EqDecision Consistency.
Proof. solve_decision. Defined.

(** [groupnet]'s capability names. *)
Class Capabilities := { CAP_ACKS : string; CAP_LEASE : string }.
Definition CAP_BOUNDED : string := "s3cache:bounded".

Definition label (c : Consistency) : string :=
  match c with CStrong => "strong" | StrongAcks => "strong-acks" | Bounded => "bounded" end.

Definition acks (c : Consistency) : bool := match c with CStrong | StrongAcks => true | Bounded => false end.
Definition leases (c : Consistency) : bool := match c with CStrong => true | StrongAcks | Bounded => false end.
Definition capabilities `{Capabilities} (c : Consistency) : list string :=
  match c with CStrong => [CAP_ACKS; CAP_LEASE] | StrongAcks => [CAP_ACKS] | Bounded => [CAP_BOUNDED] end.

(** [str::trim]: the characters of Unicode's [White_Space] as UTF-8, stripped from both
    ends; a well-formed string holds them only on character boundaries. *)
Definition utf8 (l : list nat) : string := String.string_of_list_ascii (Ascii.ascii_of_nat <$> l).
Definition white_space : list string :=
  utf8 <$> [[9]; [10]; [11]; [12]; [13]; [32]; [194; 133]; [194; 160]; [225; 154; 128];
            [226; 128; 128]; [226; 128; 129]; [226; 128; 130]; [226; 128; 131]; [226; 128; 132]; [226; 128; 133];
            [226; 128; 134]; [226; 128; 135]; [226; 128; 136]; [226; 128; 137]; [226; 128; 138]; [226; 128; 168];
            [226; 128; 169]; [226; 128; 175]; [226; 129; 159]; [227; 128; 128]]%nat.
Fixpoint strip (spaces : list string) (fuel : nat) (s : string) : string :=
  match fuel with
  | O => s
  | S fuel =>
      match List.find (λ p, starts_with p s) spaces with
      | Some p => strip spaces fuel (sdrop (String.length p) s)
      | None => s
      end
  end.
Definition srev (s : string) : string := String.string_of_list_ascii (reverse (String.list_ascii_of_string s)).
Definition trim (s : string) : string :=
  let s := strip white_space (String.length s) s in
  srev (strip (srev <$> white_space) (String.length s) (srev s)).

Definition lower (a : Ascii.ascii) : Ascii.ascii :=
  let n := Ascii.nat_of_ascii a in if ((65 <=? n) && (n <=? 90))%nat then Ascii.ascii_of_nat (n + 32) else a.
Fixpoint to_ascii_lowercase (s : string) : string :=
  match s with String a s => String (lower a) (to_ascii_lowercase s) | EmptyString => s end.

Definition consistency_parse (raw : string) : Consistency :=
  let s := to_ascii_lowercase (trim raw) in
  if sempty s || bool_decide (s = "strong") then CStrong
  else if bool_decide (s = "strong-acks") then StrongAcks
  else if bool_decide (s = "bounded") then Bounded
  else CStrong.

(** Durations are nanoseconds. *)
Definition from_millis (ms : Z) : Z := ms * 1000000.
Definition lapse_poll (duration : Z) : Z := Z.max (duration / 4) (from_millis 25).

(** ** Who a write waits on; [caps] is what a node advertises. *)

Definition has_capability (caps : NodeId → list string) (node : NodeId) (c : string) : bool := bool_decide (c ∈ caps node).
Definition waits_on `{Capabilities} (caps : NodeId → list string) (node : NodeId) : bool :=
  has_capability caps node CAP_ACKS || bool_decide (caps node = []).
Definition waits_on_unleased `{Capabilities} (caps : NodeId → list string) (node : NodeId) : bool :=
  waits_on caps node && negb (has_capability caps node CAP_LEASE).

(** ** How a write's wait ended *)

Inductive CoherenceOutcome :=
| AllApplied
| LeaseLapsed (stragglers : list NodeId)
| TimedOut (waiting_on : list NodeId).

Inductive WriteWait :=
| Applied
| Lapsed (stragglers : list NodeId)
| Stalled (waiting_on lapsed : list NodeId).

Definition retires_feed (w : WriteWait) (c : Consistency) : bool :=
  (match c with CStrong | StrongAcks => true | Bounded => false end)
  && (match w with Applied | Lapsed _ => true | Stalled _ _ => false end).

Definition wait_leased (coherent : CoherenceOutcome) (insured : bool) : WriteWait :=
  match coherent, insured with
  | TimedOut waiting_on, _ => Stalled waiting_on []
  | coherent, false => Stalled [] (match coherent with LeaseLapsed stragglers => stragglers | _ => [] end)
  | LeaseLapsed stragglers, true => Lapsed stragglers
  | AllApplied, true => Applied
  end.

(** [has_leases] is [self.leases.is_some()]; [coherent] the lease tier's wait;
    [applied_by sel] whether every peer selected by [sel] acknowledged in time. *)
Definition wait_cluster_applied `{Capabilities} (c : Consistency) (has_leases : bool) (caps : NodeId → list string)
    (coherent : CoherenceOutcome) (applied_by : (NodeId → bool) → bool) : WriteWait :=
  match c with
  | Bounded => Applied
  | CStrong | StrongAcks =>
      if bool_decide (c = CStrong) && has_leases then wait_leased coherent (applied_by (waits_on_unleased caps))
      else if applied_by (waits_on caps) then Applied else Stalled [] []
  end.

(** [ack_write]: whether the write may be reported, whether its feed prefix retires. *)
Definition ack_write (outcome : WriteWait) (c : Consistency) : bool * bool :=
  ((match outcome with Applied | Lapsed _ => true | Stalled _ _ => false end), retires_feed outcome c).

(** ** What a read may be answered from *)

Record RecoveryStatus := mkRecovery { may_serve : bool; rs_generation : Z }.

Definition recovery_generation_permits (status : option RecoveryStatus) (expected : option Z) : bool :=
  match status with
  | Some status => may_serve status && bool_decide (Some (rs_generation status) = expected)
  | None => is_none expected
  end.

Definition cluster_healthy (c : Consistency) (alive : list bool) : bool :=
  bool_decide (c = Bounded) || forallb id alive.

(** [lease_valid] is [LeaseView::valid], [None] without a lease view. *)
Definition mode_allows_local (c : Consistency) (lease_valid : option bool) (alive : list bool) : bool :=
  match c with
  | CStrong => is_some_and id lease_valid
  | StrongAcks => cluster_healthy c alive
  | Bounded => true
  end.

Definition may_serve_local (recovery : option RecoveryStatus) (c : Consistency) (lease_valid : option bool) (alive : list bool)
    : bool :=
  if is_some_and (λ r, negb (may_serve r)) recovery then false else mode_allows_local c lease_valid alive.

Definition may_serve_local_in_generation (recovery : option RecoveryStatus) (expected : option Z) (c : Consistency)
    (lease_valid : option bool) (alive : list bool) : bool :=
  if negb (recovery_generation_permits recovery expected) then false else mode_allows_local c lease_valid alive.

(** [roster] is the lease set's granters, [None] without one; [alive] the members reported
    alive.  The set last logged is replaced whenever it changes. *)
Definition absent_granters (roster : option (list NodeId)) (alive : list NodeId) (logged : list NodeId)
    : list NodeId * list NodeId :=
  match roster with
  | None => ([], logged)
  | Some roster =>
      let absent := merge_sort String.le (filter (λ granter, granter ∉ alive) roster) in
      (absent, if bool_decide (logged = absent) then logged else absent)
  end.

(** [reached]: whether the frontier passes a peer's position in time, [None] without
    an apply loop. *)
Definition reached_token (me : NodeId) (reached : option (NodeId → WriteToken → bool)) (header : string) : bool :=
  match parse_token header with
  | None => true
  | Some (writer, epoch, seq) =>
      if bool_decide (writer = me) then true
      else match reached with
           | None => false
           | Some reached => reached writer (mkToken epoch seq)
           end
  end.

(** [head] is the position a member advertises; each wait gets what is left of the
    deadline. *)
Fixpoint await_members (me : NodeId) (reached : NodeId → WriteToken → bool) (head : NodeId → option WriteToken)
    (members : list NodeId) : bool :=
  match members with
  | [] => true
  | member :: members =>
      if bool_decide (member = me) then await_members me reached head members
      else match head member with
           | None => await_members me reached head members
           | Some head_ => if reached member head_ then await_members me reached head members else false
           end
  end.

Definition await_fresh (me : NodeId) (reached : option (NodeId → WriteToken → bool)) (head : NodeId → option WriteToken)
    (members : list NodeId) : bool :=
  match reached with
  | None => true
  | Some reached => await_members me reached head members
  end.

(** ** Crossings ([stop.rs]) *)

Inductive SealOutcome := Observed | Unconfirmed.

Definition seal `{Capabilities} (c : Consistency) (caps : NodeId → list string) (applied_by : (NodeId → bool) → bool)
    : SealOutcome :=
  if acks c && applied_by (waits_on caps) then Observed else Unconfirmed.

Record Mark := mkMark { mk_epoch : Z; mk_sequence : Z }.
Record Renewal := mkRenewal { rn_sealed : Mark; rn_epoch : Z }.
Record Crossing := mkCrossing { cr_renewal : option Renewal; cr_sealed : option Mark }.
Definition Crossing_default : Crossing := mkCrossing None None.
Abbreviation Crossings := (gmap NodeId Crossing).

Definition observe_seal (cs : Crossings) (peer : NodeId) (sealed : WriteToken) : Crossings :=
  let c := default Crossing_default (cs !! peer) in
  <[peer := mkCrossing (cr_renewal c) (Some (mkMark (tk_epoch sealed) (tk_seq sealed)))]> cs.

Definition observe_renewal (cs : Crossings) (s : KeyIndexState) (peer : NodeId) (sealed : WriteToken) (epoch : Z)
    : WriteToken * Crossings * KeyIndexState :=
  let s := renew_native_writer s (native_cut peer sealed) epoch in
  let cs := <[peer := mkCrossing (Some (mkRenewal (mkMark (tk_epoch sealed) (tk_seq sealed)) epoch)) None]> cs in
  (mkToken epoch 0, cs, s).

Definition forget_crossing (cs : Crossings) (peer : NodeId) : Crossings := delete peer cs.
Definition crossing_of (cs : Crossings) (peer : NodeId) : Crossing := default Crossing_default (cs !! peer).

(** ** Own writes *)

(** The feed's epoch and its last assigned position. *)
Record Feed := mkFeed { fd_epoch : Z; fd_last : option WriteToken }.

Definition own_position (me : NodeId) (feed : Feed) : NativeCut :=
  mkCut me (fd_epoch feed) (match fd_last feed with Some token => tk_seq token | None => 0 end).

Section writes.
Context {L : Layout} {P : EtagParse}.

(** The event a put is advertised with. *)
Definition put_event (bucket key : string) (e : ObjEntry) : IndexEvent :=
  mkEvent (OpPut (size e) (etag_to_wire <$> etag e) (content_type e) (Some (storage_class e))) bucket key
    (to_micros (last_modified e)).

(** [feed] is the feed after it assigned this write's position. *)
Definition index_put (me : NodeId) (feed : Feed) (s : KeyIndexState) (bucket key : string) (e : ObjEntry)
    : bool * IndexEvent * KeyIndexState :=
  apply_own_put s bucket key e (put_event bucket key e, own_position me feed).

Definition index_del (me : NodeId) (feed : Feed) (s : KeyIndexState) (bucket key : string) (ts : Z)
    : IndexEvent * KeyIndexState :=
  let event := mkEvent OpDel bucket key (to_micros ts) in
  let '(_, event, s) := apply_own_del s bucket key ts (event, own_position me feed) in
  (event, s).

(** [now] is [SystemTime::now()]; [None] is the panic of an exhausted token space. *)
Definition index_unknown (me : NodeId) (feed : Feed) (s : KeyIndexState) (bucket key : string) (now : Z)
    : option (Z * IndexEvent * KeyIndexState) :=
  let event := mkEvent op_unknown bucket key (to_micros now) in
  fence_own_uncertain_key s bucket key (event, own_position me feed).

(** ** Peers' writes *)

(** The row of a put event. *)
Definition feed_entry (op_size : option Z) (op_etag op_type op_class : option string) (ts : Z) : ObjEntry :=
  mkObjEntry op_size ts (op_etag ≫= etag_parse) (default standard_class op_class) op_type None.

(** The fence to reconcile, and the index. *)
Definition apply_feed_index (s : KeyIndexState) (peer : NodeId) (token : WriteToken) (event : IndexEvent)
    : option (option Z * KeyIndexState) :=
  let ts := from_micros (ev_ts_us event) in
  let cut := native_cut peer token in
  if describes_nothing (ev_op event) then fence_uncertain_key_native s (ev_bucket event) (ev_key event) cut
  else
    match ev_op event with
    | OpPut size etag content_type storage_class =>
        Some (None, (apply_put_native s (ev_bucket event) (ev_key event)
                       (feed_entry size etag content_type storage_class ts) cut).2)
    | OpDel => Some (None, (apply_del_native s (ev_bucket event) (ev_key event) ts cut).2)
    end.
End writes.
