(* ===== verification/CoherenceProps.v ===== *)
(** * The fleet converges, and what a reported write guarantees

    Each node indexes its own writes and folds its peers' advertised writes into the
    same index.  Nodes that hold the same writes, applied in any interleaving that keeps
    each writer's order, agree on every key. *)

From S2P Require Import Prelude.
From S2P Require Import ObjTypes.
From S2P Require Import ImageCodec.
From S2P Require Import CodecProps.
From S2P Require Import Rows.
From S2P Require Import IndexCapture.
From S2P Require Import KeyIndex.
From S2P Require Import IndexWf.
From S2P Require Import IndexSteps.
From S2P Require Import IndexInv.
From S2P Require Import IndexMachine.
From S2P Require Import IndexLww.
From S2P Require Import Wire.
From S2P Require Import Coherence.

(** What a peer keeps of a row: all but the metadata only a HEAD gives. *)
Definition advertised (e : ObjEntry) : ObjEntry :=
  mkObjEntry (size e) (last_modified e) (etag e) (storage_class e) (content_type e) None.

(** [ETag]'s parser reads back its header spelling. *)
Class EtagLaw {P : EtagParse} : Prop := etag_law tag : etag_parse (etag_to_wire tag) = Some tag.

(** The operations of a node: its own writes, and peers' messages. *)
Inductive NodeOp :=
| OwnPut (feed : Feed) (bucket key : string) (e : ObjEntry)
| OwnDel (feed : Feed) (bucket key : string) (ts : Z)
| FeedEvent (peer : NodeId) (token : WriteToken) (message : bytes).

Section node.
Context {L : Layout} {P : EtagParse} {C : EventCodec}.

(** A message that does not decode is not delivered. *)
Definition node_step (me : NodeId) (s : KeyIndexState) (op : NodeOp) : option KeyIndexState :=
  match op with
  | OwnPut feed bucket key e => Some (index_put me feed s bucket key e).2
  | OwnDel feed bucket key ts => Some (index_del me feed s bucket key ts).2
  | FeedEvent peer token message =>
      match decode_event message with
      | Some event => snd <$> apply_feed_index s peer token event
      | None => Some s
      end
  end.

Fixpoint node_run (me : NodeId) (s : KeyIndexState) (ops : list NodeOp) : option KeyIndexState :=
  match ops with
  | [] => Some s
  | op :: ops => s ← node_step me s op; node_run me s ops
  end.

(** The write an operation applies: its feed position and its event. *)
Definition op_write (me : NodeId) (op : NodeOp) : option (NativeCut * IndexEvent) :=
  match op with
  | OwnPut feed bucket key e => Some (own_position me feed, put_event bucket key e)
  | OwnDel feed bucket key ts => Some (own_position me feed, mkEvent OpDel bucket key (to_micros ts))
  | FeedEvent peer token message => event ← decode_event message; Some (native_cut peer token, event)
  end.

Definition node_writes (me : NodeId) (ops : list NodeOp) : list (NativeCut * IndexEvent) := omap (op_write me) ops.

(** Own writes are stamped at the wire's precision and describe something, and so do
    the peers' events. *)
Definition op_plain (me : NodeId) (op : NodeOp) : Prop :=
  (match op with
   | OwnPut _ _ _ e => wire_stamp (last_modified e) = last_modified e
   | OwnDel _ _ _ ts => wire_stamp ts = ts
   | FeedEvent _ _ _ => True
   end) ∧
  ∀ w, op_write me op = Some w → describes_nothing (ev_op w.2) = false.

(** Positions of one writer's life come in order. *)
Definition cut_before (a b : NativeCut) : Prop :=
  cut_writer a = cut_writer b → cut_epoch a = cut_epoch b → cut_sequence a < cut_sequence b.
Definition in_order (ws : list (NativeCut * IndexEvent)) : Prop :=
  ∀ i j a b, (i < j)%nat → ws !! i = Some a → ws !! j = Some b → cut_before a.1 b.1.

(** The index event of an operation. *)
Definition op_index (me : NodeId) (op : NodeOp) : list index_event :=
  match op with
  | OwnPut feed bucket key e => [EvPut bucket key e DefinitiveMutation (Some (Native (own_position me feed)))]
  | OwnDel feed bucket key ts => [EvDel bucket key ts (Some (Native (own_position me feed))) Run]
  | FeedEvent peer token message =>
      match decode_event message with
      | Some event =>
          match ev_op event with
          | OpPut size etag ty class =>
              [EvPut (ev_bucket event) (ev_key event) (feed_entry size etag ty class (from_micros (ev_ts_us event)))
                 DefinitiveMutation (Some (Native (native_cut peer token)))]
          | OpDel => [EvDel (ev_bucket event) (ev_key event) (from_micros (ev_ts_us event)) (Some (Native (native_cut peer token))) Run]
          end
      | None => []
      end
  end.

Lemma node_step_index me s op :
  op_plain me op → node_step me s op = run s (op_index me op).
Proof using.
  intros [_ Hd]. destruct op as [feed bk k e|feed bk k ts|peer token message]; cbn [node_step op_index].
  - unfold index_put, apply_own_put. cbn [run exec mbind option_bind].
    by destruct (apply_put_with_authority _ _ _ _ _ _).
  - unfold index_del, apply_own_del. cbn [run exec mbind option_bind].
    by destruct (apply_del_with_identity _ _ _ _ _ _).
  - destruct (decode_event message) as [ev|] eqn:E; [|done].
    specialize (Hd (native_cut peer token, ev)). cbn [op_write snd] in Hd. rewrite E in Hd. specialize (Hd eq_refl).
    unfold apply_feed_index. rewrite Hd. destruct (ev_op ev); cbn [run exec mbind option_bind fmap option_fmap option_map]; done.
Qed.

Lemma node_run_index me s ops :
  Forall (op_plain me) ops → node_run me s ops = run s (ops ≫= op_index me).
Proof using.
  intros H. revert s. induction H as [|op ops Hop Hops IH]; intros s; [done|].
  cbn [node_run]. rewrite bind_cons, run_app, (node_step_index me s op Hop).
  destruct (run s (op_index me op)); cbn; [apply IH|done].
Qed.

Lemma op_index_writes me ops : Forall (λ ev, is_write ev = true) (ops ≫= op_index me).
Proof using.
  apply Forall_bind, Forall_true. intros op. destruct op as [| |peer token message].
  - by repeat constructor.
  - by repeat constructor.
  - unfold op_index, compose. repeat case_match; by repeat constructor.
Qed.

(** ** Positions *)

Lemma note_cut_known st cut w p :
  native_cuts (note_native_cut st cut).2 !! w = Some p →
  native_cuts st !! w = Some p ∨ (w = cut_writer cut ∧ p = (cut_epoch cut, cut_sequence cut)).
Proof using.
  unfold note_native_cut. set (moved := <[cut_writer cut := _]> _).
  assert (Hm : moved !! w = Some p → native_cuts st !! w = Some p ∨ (w = cut_writer cut ∧ p = (cut_epoch cut, cut_sequence cut))).
  { subst moved. destruct (decide (cut_writer cut = w)) as [<-|?].
    - rewrite lookup_insert_eq. intros [= <-]. by right.
    - rewrite lookup_insert_ne by done. auto. }
  destruct (_ || _ || _ || _); [by left|]. destruct (native_cuts st !! cut_writer cut) as [[oe oq]|].
  - destruct (_ && _); [by left|]. cbn [snd with_cuts native_cuts]. done.
  - destruct (_ <=? _); [by left|]. cbn [snd invalidate_capture with_capture with_cuts native_cuts]. done.
Qed.

Lemma note_cut_fresh st cut :
  (∀ q, native_cuts st !! cut_writer cut = Some (cut_epoch cut, q) → q < cut_sequence cut) →
  (note_native_cut st cut).1 = true.
Proof using.
  intros H. unfold note_native_cut. destruct (_ || _ || _ || _); [done|].
  destruct (native_cuts st !! cut_writer cut) as [[oe oq]|]; [|by destruct (_ <=? _)].
  destruct (Z.eqb_spec (cut_epoch cut) oe) as [<-|]; [|done]. specialize (H oq eq_refl).
  rewrite (proj2 (Z.leb_gt _ _)) by done. done.
Qed.

(** The position an index event carries. *)
Definition ev_cut (ev : index_event) : option NativeCut :=
  match ev with
  | EvPut _ _ _ _ (Some (Native cut)) | EvDel _ _ _ (Some (Native cut)) _ => Some cut
  | _ => None
  end.

Lemma write_cuts st ev cut st' :
  ev_cut ev = Some cut → exec st ev = Some st' → native_cuts st' = native_cuts (note_native_cut st cut).2.
Proof using.
  destruct ev as [bk k e a id|bk k ts id sw|?|?|?|?|?|?|?|?|?|?|?|?|?|?]; try done; cbn [ev_cut exec];
    (destruct id as [[c|]|]; try done); intros [= ->] [= <-]; [apply put_cuts|apply del_cuts].
Qed.

(** What the index knows of its writers are positions it was given. *)
Definition known (st : KeyIndexState) (seen : list (NativeCut * IndexEvent)) : Prop :=
  ∀ w e q, native_cuts st !! w = Some (e, q) → ∃ x, x ∈ seen ∧ x.1 = mkCut w e q.

Lemma known_step st ev cut st' seen x :
  ev_cut ev = Some cut → exec st ev = Some st' → x.1 = cut → known st seen → known st' (seen ++ [x]).
Proof using.
  intros Hc Hx Hcut Hk w e q Hw. rewrite (write_cuts _ _ _ _ Hc Hx) in Hw.
  apply note_cut_known in Hw as [Hw|[-> [= -> ->]]].
  - destruct (Hk _ _ _ Hw) as (y & Hy & ?). exists y. split; [apply elem_of_app; by left|done].
  - exists x. split; [apply elem_of_app; right; by apply list_elem_of_singleton|]. rewrite Hcut. by destruct cut.
Qed.

Lemma in_order_fresh st ev cut seen x rest :
  ev_cut ev = Some cut → x.1 = cut → known st seen → in_order (seen ++ x :: rest) → duplicate st ev = false.
Proof using.
  intros Hc Hcut Hk Ho. assert (Hf : (note_native_cut st cut).1 = true).
  { apply note_cut_fresh. intros q Hq. destruct (Hk _ _ _ Hq) as (y & Hy & Ey).
    apply list_elem_of_lookup in Hy as (i & Hi). pose proof (lookup_lt_Some _ _ _ Hi) as Hlt.
    assert (Hb : cut_before y.1 x.1).
    { apply (Ho i (length seen)); [done|by rewrite lookup_app_l|].
      by rewrite lookup_app_r, Nat.sub_diag by done. }
    rewrite Ey, Hcut in Hb. by apply Hb. }
  destruct ev as [bk k e a id|bk k ts id sw|?|?|?|?|?|?|?|?|?|?|?|?|?|?]; try done; cbn [ev_cut duplicate] in *;
    (destruct id as [[c|]|]; try done); injection Hc as ->; cbn [note_identity]; by rewrite Hf.
Qed.

(** ** Registers *)

(** The register write an event describes. *)
Definition event_write (bucket key : string) (ev : IndexEvent) : option write :=
  if decide (ev_bucket ev = bucket ∧ ev_key ev = key)
  then Some (match ev_op ev with
             | OpPut size etag ty class => WPut (feed_entry size etag ty class (from_micros (ev_ts_us ev)))
             | OpDel => WDel (from_micros (ev_ts_us ev))
             end)
  else None.

Definition advertised_write (w : write) : write := match w with WPut e => WPut (advertised e) | WDel ts => WDel ts end.
Definition advertised_reg (r : reg) : reg := mkReg (advertised <$> live r) (dead r).

Lemma advertised_reg_write r w : advertised_reg (reg_write r w) = reg_write (advertised_reg r) (advertised_write w).
Proof using.
  destruct r as [[o|] [d|]], w as [e|t]; unfold advertised_reg, reg_write; cbn;
    repeat match goal with
    | |- context [?a <=? ?b] => destruct (Z.leb_spec a b); cbn
    | |- context [?a <? ?b] => destruct (Z.ltb_spec a b); cbn
    end; done.
Qed.

Lemma advertised_lww ws : advertised_reg (lww ws) = lww (advertised_write <$> ws).
Proof using.
  rewrite <- !lww_foldl. induction ws as [|w ws IH] using rev_ind; [done|].
  rewrite fmap_app, !foldl_app. cbn. by rewrite advertised_reg_write, IH.
Qed.
End node.

Section converge.
Context {L : Layout} {P : EtagParse} {EL : EtagLaw} {C : EventCodec}.

Lemma own_entry e :
  wire_stamp (last_modified e) = last_modified e →
  feed_entry (size e) (etag_to_wire <$> etag e) (content_type e) (Some (storage_class e))
    (from_micros (to_micros (last_modified e))) = advertised e.
Proof using EL.
  intros Hs. unfold feed_entry, advertised. fold (wire_stamp (last_modified e)). rewrite Hs. cbn [default from_option].
  destruct (etag e) as [t|]; cbn; [by rewrite etag_law|done].
Qed.

(** An operation is one index event at its write's position, or none. *)
Lemma op_index_spec me op :
  op_plain me op →
  match op_write me op with
  | Some x => ∃ ev, op_index me op = [ev] ∧ ev_cut ev = Some x.1 ∧
      is_del ev = bool_decide (ev_op x.2 = OpDel) ∧
      ∀ bucket key, advertised_write <$> write_to bucket key ev = event_write bucket key x.2
  | None => op_index me op = []
  end.
Proof using EL.
  intros [Hs Hd]. destruct op as [feed bk k e|feed bk k ts|peer token message]; cbn [op_write op_index].
  - eexists. split_and!; [done|done|by cbn|]. intros bucket key. unfold event_write.
    cbn [write_to snd put_event ev_bucket ev_key ev_op ev_ts_us]. case_decide; [|done]. cbn. by rewrite own_entry.
  - eexists. split_and!; [done|done|by cbn|]. intros bucket key. unfold event_write.
    cbn [write_to snd ev_bucket ev_key ev_op ev_ts_us]. case_decide; [|done]. cbn. fold (wire_stamp ts). by rewrite Hs.
  - destruct (decode_event message) as [ev|]; [|done]. cbn [mbind option_bind].
    destruct (ev_op ev) eqn:Eo; eexists; (split_and!; [done|done|cbn [snd]; rewrite Eo; by cbn|]);
      intros bucket key; unfold event_write; cbn [write_to snd]; rewrite Eo; by case_decide.
Qed.

Lemma node_writes_cons me op ops :
  node_writes me (op :: ops) = match op_write me op with Some x => x :: node_writes me ops | None => node_writes me ops end.
Proof. done. Qed.

(** Nothing a node is given in order is dropped as a duplicate. *)
Lemma node_delivered me st ops seen st' bucket key :
  Forall (op_plain me) ops → run st (ops ≫= op_index me) = Some st' → known st seen →
  in_order (seen ++ node_writes me ops) →
  advertised_write <$> delivered st bucket key (ops ≫= op_index me) =
  omap (event_write bucket key) (snd <$> node_writes me ops).
Proof using EL.
  intros Hp. revert st seen. induction Hp as [|op ops Hop Hops IH]; intros st seen Hr Hk Ho; [done|].
  rewrite node_writes_cons in *. rewrite bind_cons in Hr |- *. pose proof (op_index_spec me op Hop) as Hs.
  destruct (op_write me op) as [x|]; [|rewrite Hs in *; by eapply IH].
  destruct Hs as (ev & Hev & Hc & _ & Hw). rewrite Hev in Hr |- *. cbn [app run] in Hr. apply bind_Some in Hr as (st1 & Hx & Hr).
  cbn [app delivered]. rewrite Hx. rewrite (in_order_fresh st ev _ seen x _ Hc eq_refl Hk Ho).
  assert (Htail : advertised_write <$> delivered st1 bucket key (ops ≫= op_index me) =
                  omap (event_write bucket key) (snd <$> node_writes me ops)).
  { apply (IH st1 (seen ++ [x])); [done|by eapply known_step|]. by rewrite <- app_assoc. }
  cbn [fmap list_fmap omap list_omap]. rewrite <- (Hw bucket key), <- Htail.
  by destruct (write_to bucket key ev).
Qed.

Definition node_dels (ws : list (NativeCut * IndexEvent)) : nat := length (filter (λ w, ev_op w.2 = OpDel) ws).

Lemma node_del_count me ops : Forall (op_plain me) ops → del_count (ops ≫= op_index me) = node_dels (node_writes me ops).
Proof using EL.
  induction 1 as [|op ops Hop Hops IH]; [done|]. rewrite node_writes_cons, bind_cons.
  pose proof (op_index_spec me op Hop) as Hs. unfold del_count in *. rewrite filter_app, length_app, IH.
  destruct (op_write me op) as [x|]; [|by rewrite Hs].
  destruct Hs as (ev & -> & _ & Hd & _). unfold node_dels. rewrite !filter_cons, filter_nil, Hd.
  destruct (decide (ev_op x.2 = OpDel)) as [E|E].
  - by rewrite bool_decide_eq_true_2.
  - by rewrite bool_decide_eq_false_2.
Qed.

Lemma node_register me ops st bucket key :
  node_run me KeyIndexState_default ops = Some st → Forall (op_plain me) ops → in_order (node_writes me ops) →
  Z.of_nat (node_dels (node_writes me ops)) <= TOMBSTONE_PRUNE_LEN →
  advertised_reg (reg_of (bucket_or_default st bucket) key) =
  lww (omap (event_write bucket key) (snd <$> node_writes me ops)).
Proof using EL.
  intros Hr Hp Ho Hn. rewrite node_run_index in Hr by done.
  rewrite (run_reg _ _ _ 0 bucket key Hr (op_index_writes me ops) default_calm)
    by (rewrite node_del_count by done; exact Hn).
  rewrite default_reg, lww_foldl, advertised_lww.
  rewrite (node_delivered me _ ops [] st bucket key Hp Hr); [done| |done].
  intros w e q Hw. cbn [KeyIndexState_default native_cuts] in Hw. by rewrite lookup_empty in Hw.
Qed.

(** [C10] The fleet converges: two nodes that start empty and hold the same writes (their
    own through [index_put] and [index_del], their peers' decoded from the feed), each
    writer's in its order and everything else in any interleaving, keep the same
    tombstones and the same rows up to the metadata only a HEAD completes.  Every write is
    a put or a delete (no write of unknown outcome) stamped at the feed's precision, no two
    different puts of a key share a time (of those each node keeps the one it got last),
    and no more deletes are held than are kept without a sweep. *)
Theorem fleet_converges me1 me2 ops1 ops2 s1 s2 bucket :
  node_run me1 KeyIndexState_default ops1 = Some s1 → node_run me2 KeyIndexState_default ops2 = Some s2 →
  Forall (op_plain me1) ops1 → Forall (op_plain me2) ops2 →
  in_order (node_writes me1 ops1) → in_order (node_writes me2 ops2) →
  node_writes me1 ops1 ≡ₚ node_writes me2 ops2 →
  Z.of_nat (node_dels (node_writes me1 ops1)) <= TOMBSTONE_PRUNE_LEN →
  (∀ key, put_times_unique (omap (event_write bucket key) (snd <$> node_writes me1 ops1))) →
  advertised <$> kr_map (keys (bucket_or_default s1 bucket)) = advertised <$> kr_map (keys (bucket_or_default s2 bucket)) ∧
  gr_map (gone (bucket_or_default s1 bucket)) = gr_map (gone (bucket_or_default s2 bucket)).
Proof using EL.
  intros Hr1 Hr2 Hp1 Hp2 Ho1 Ho2 Hperm Hn Hu.
  assert (Hn2 : Z.of_nat (node_dels (node_writes me2 ops2)) <= TOMBSTONE_PRUNE_LEN).
  { unfold node_dels in *. by rewrite <- Hperm. }
  assert (Hreg : ∀ key, advertised_reg (reg_of (bucket_or_default s1 bucket) key) =
                        advertised_reg (reg_of (bucket_or_default s2 bucket) key)).
  { intros key. rewrite (node_register me1 ops1 s1), (node_register me2 ops2 s2) by done.
    apply lww_perm; [by rewrite Hperm|apply Hu]. }
  split; apply map_eq; intros key; specialize (Hreg key); injection Hreg as H1 H2; [by rewrite !lookup_fmap|done].
Qed.
End converge.

(** ** What a reported write guarantees *)

Section guarantee.
Context {CP : Capabilities}.
Context (caps : NodeId → list string) (peers : list NodeId) (coherent : CoherenceOutcome)
        (applied_by : (NodeId → bool) → bool) (applied lapsed : NodeId → Prop).

(** What [groupnet]'s waits promise: the lease tier accounts for every advertiser of the
    lease capability, the acknowledgement wait for every peer it was asked about. *)
Definition tier_contract : Prop :=
  ∀ n, n ∈ peers → CAP_LEASE ∈ caps n →
    match coherent with
    | AllApplied => applied n
    | LeaseLapsed stragglers => applied n ∨ (n ∈ stragglers ∧ lapsed n)
    | TimedOut _ => True
    end.
Definition ack_contract : Prop := ∀ sel n, applied_by sel = true → n ∈ peers → sel n = true → applied n.

(** In either strong mode a write is reported as a success, and its feed prefix
    retired, only when every peer that may serve local state and is not declared bounded
    (it acknowledges, or it advertises nothing) has applied the write or lost its lease;
    a bounded writer never retires its feed. *)
Theorem reported_write_covered c has_leases :
  tier_contract → ack_contract →
  let outcome := wait_cluster_applied c has_leases caps coherent applied_by in
  let '(reported, retires) := ack_write outcome c in
  (c ≠ Bounded → retires = reported) ∧ (c = Bounded → retires = false) ∧
  (c ≠ Bounded → reported = true → ∀ n, n ∈ peers → waits_on caps n = true → applied n ∨ lapsed n).
Proof using.
  intros Ht Ha. cbn zeta. unfold ack_write, retires_feed. split_and!.
  - by destruct c, (wait_cluster_applied _ _ _ _ _).
  - by intros ->.
  - intros Hc Hr n Hn Hw. unfold wait_cluster_applied in Hr.
    assert (Hacks : applied_by (waits_on caps) = true → applied n ∨ lapsed n).
    { intros E. left. by apply (Ha _ _ E). }
    destruct c; [|by destruct (applied_by (waits_on caps)); [apply Hacks|]|done].
    destruct has_leases; [|by rewrite andb_false_r in Hr; destruct (applied_by (waits_on caps)); [apply Hacks|]].
    rewrite bool_decide_eq_true_2 in Hr by done. cbn [andb] in Hr.
    destruct (decide (CAP_LEASE ∈ caps n)) as [Hl|Hl].
    + specialize (Ht n Hn Hl). destruct coherent, (applied_by (waits_on_unleased caps)); try done; naive_solver.
    + assert (Hi : applied_by (waits_on_unleased caps) = true).
      { by destruct coherent, (applied_by (waits_on_unleased caps)). }
      left. apply (Ha _ _ Hi Hn). unfold waits_on_unleased, has_capability. rewrite Hw, bool_decide_eq_false_2 by done. done.
Qed.
End guarantee.

(** ** Instances *)

#[local] Existing Instance layout64.
#[local] Existing Instance parse_quoted.

Lemma parse_etag_law : @EtagLaw parse_quoted.
Proof.
  assert (Hlast : ∀ v, stake (String.length (v +:+ quote) - 1) (v +:+ quote) = v).
  { intros v. rewrite length_append. cbn [quote String.length]. rewrite Nat.add_sub. apply stake_append. }
  intros [v|v]; unfold etag_parse, parse_quoted, etag_to_wire.
  - replace (strip_prefix ("W/" +:+ quote) (quote +:+ v +:+ quote)) with (@None string) by done.
    by rewrite strip_prefix_append, Hlast.
  - rewrite <- append_assoc, strip_prefix_append. by rewrite Hlast.
Qed.
#[local] Existing Instance parse_etag_law.

Definition op_code (op : IndexOp) : (option Z * option string * option string * option string) + unit :=
  match op with OpPut a b c d => inl (a, b, c, d) | OpDel => inr tt end.
Definition code_op (c : (option Z * option string * option string * option string) + unit) : IndexOp :=
  match c with inl (a, b, c, d) => OpPut a b c d | inr _ => OpDel end.
#[local] Instance IndexOp_countable : Countable IndexOp.
Proof. by refine (inj_countable' op_code code_op _); intros []. Defined.
#[local] Instance IndexEvent_countable : Countable IndexEvent.
Proof.
  by refine (inj_countable' (λ e, (ev_op e, ev_bucket e, ev_key e, ev_ts_us e))
               (λ p, mkEvent p.1.1.1 p.1.1.2 p.1.2 p.2) _); intros [].
Defined.
#[local] Instance demo_events : EventCodec := {
  event_to_vec ev := Some (pos_bytes (countable.encode ev));
  event_from_slice l := countable.decode (bytes_pos l);
}.

(** Node [a] puts a key, node [b] deletes it later; each sees the other's write last
    or first. *)
Definition feed_row : ObjEntry :=
  mkObjEntry (Some 3) 5000000 (Some (Strong "v1")) "STANDARD" (Some "text/plain") (Some ObjMeta_default).
Definition ops_a : list NodeOp :=
  [OwnPut (mkFeed 7 (Some (mkToken 7 1))) "photos" "k" feed_row;
   FeedEvent "b" (mkToken 9 1) (encode_event (mkEvent OpDel "photos" "k" 4000));
   OwnPut (mkFeed 7 (Some (mkToken 7 2))) "photos" "j" feed_row].
Definition ops_b : list NodeOp :=
  [OwnDel (mkFeed 9 (Some (mkToken 9 1))) "photos" "k" 4000000;
   FeedEvent "a" (mkToken 7 1) (encode_event (put_event "photos" "k" feed_row));
   FeedEvent "a" (mkToken 7 2) (encode_event (put_event "photos" "j" feed_row))].
Definition end_a : KeyIndexState := default KeyIndexState_default (node_run "a" KeyIndexState_default ops_a).
Definition end_b : KeyIndexState := default KeyIndexState_default (node_run "b" KeyIndexState_default ops_b).

Definition writes_a : list (NativeCut * IndexEvent) :=
  [(mkCut "a" 7 1, put_event "photos" "k" feed_row); (mkCut "b" 9 1, mkEvent OpDel "photos" "k" 4000);
   (mkCut "a" 7 2, put_event "photos" "j" feed_row)].
Definition writes_b : list (NativeCut * IndexEvent) :=
  [(mkCut "b" 9 1, mkEvent OpDel "photos" "k" 4000); (mkCut "a" 7 1, put_event "photos" "k" feed_row);
   (mkCut "a" 7 2, put_event "photos" "j" feed_row)].

Lemma ops_a_writes : node_writes "a" ops_a = writes_a.
Proof. vm_compute. reflexivity. Qed.
Lemma ops_b_writes : node_writes "b" ops_b = writes_b.
Proof. vm_compute. reflexivity. Qed.

Lemma ops_plain me ops :
  Forall (λ op, match op with
                | OwnPut _ _ _ e => wire_stamp (last_modified e) = last_modified e
                | OwnDel _ _ _ ts => wire_stamp ts = ts
                | FeedEvent _ _ _ => True
                end) ops →
  Forall (λ w, describes_nothing (ev_op w.2) = false) (node_writes me ops) → Forall (op_plain me) ops.
Proof.
  intros H. induction H as [|op ops Hop Hops IH]; [constructor|]. rewrite node_writes_cons. intros Hw. constructor.
  - split; [done|]. intros w Ew. rewrite Ew in Hw. by apply Forall_cons in Hw as [? _].
  - apply IH. destruct (op_write me op); [by apply Forall_cons in Hw as [_ ?]|done].
Qed.

Ltac order_tac :=
  intros i j x y Hij Hx Hy; destruct i as [|[|[|]]], j as [|[|[|]]]; try lia; try done;
  injection Hx as <-; injection Hy as <-; unfold cut_before; cbn; first [lia|done].

Lemma fleet_converges_witness :
  advertised <$> kr_map (keys (bucket_or_default end_a "photos")) =
  advertised <$> kr_map (keys (bucket_or_default end_b "photos")).
Proof.
  refine (proj1 (fleet_converges "a" "b" ops_a ops_b end_a end_b "photos" _ _ _ _ _ _ _ _ _)).
  - vm_compute. reflexivity.
  - vm_compute. reflexivity.
  - apply ops_plain; [repeat constructor|rewrite ops_a_writes; repeat constructor].
  - apply ops_plain; [repeat constructor|rewrite ops_b_writes; repeat constructor].
  - rewrite ops_a_writes. order_tac.
  - rewrite ops_b_writes. order_tac.
  - rewrite ops_a_writes, ops_b_writes. apply Permutation_swap.
  - rewrite ops_a_writes. vm_compute. discriminate.
  - intros key. rewrite ops_a_writes. intros e1 e2 H1 H2.
    assert (Hall : ∀ e, e ∈ puts (omap (event_write "photos" key) (snd <$> writes_a)) → e = advertised feed_row).
    { intros e (w & (ev & Hev & Ew)%list_elem_of_omap & Ee)%list_elem_of_omap.
      assert (Hput : ∀ k, event_write "photos" key (put_event "photos" k feed_row) = Some w → w = WPut (advertised feed_row)).
      { intros k. unfold event_write. case_decide; [|done]. intros [= <-]. vm_compute. reflexivity. }
      assert (Hdel : event_write "photos" key (mkEvent OpDel "photos" "k" 4000) = Some w → w = WDel 4000000).
      { unfold event_write. case_decide; [|done]. intros [= <-]. reflexivity. }
      cbn in Hev. apply elem_of_cons in Hev as [->|Hev]; [apply Hput in Ew; subst w; by injection Ee|].
      apply elem_of_cons in Hev as [->|Hev]; [apply Hdel in Ew; by subst w|].
      apply list_elem_of_singleton in Hev as ->. apply Hput in Ew. subst w. by injection Ee. }
    intros _. by rewrite (Hall _ H1), (Hall _ H2).
Defined.

(** A leased peer whose lease lapsed, an acknowledging one and one that advertises
    nothing. *)
#[local] Instance demo_caps : Capabilities := { CAP_ACKS := "acks"; CAP_LEASE := "lease" }.
Definition fleet_caps (n : NodeId) : list string :=
  if bool_decide (n = "leased") then capabilities CStrong
  else if bool_decide (n = "acking") then capabilities StrongAcks
  else [].
Definition fleet_peers : list NodeId := ["leased"; "acking"; "old"].

Lemma reported_write_covered_witness :
  ack_write (wait_cluster_applied CStrong true fleet_caps (LeaseLapsed ["leased"]) (λ sel, negb (sel "leased"))) CStrong = (true, true) ∧
  ∀ n, n ∈ fleet_peers → waits_on fleet_caps n = true → (n = "acking" ∨ n = "old") ∨ n = "leased".
Proof.
  split; [reflexivity|].
  assert (Ht : tier_contract fleet_caps fleet_peers (LeaseLapsed ["leased"]) (λ n, n = "acking" ∨ n = "old") (λ n, n = "leased")).
  { intros n Hn Hl. cbn. repeat (apply elem_of_cons in Hn as [->|Hn]); [|by auto..|by apply elem_of_nil in Hn].
    right. split; [by apply list_elem_of_singleton|done]. }
  assert (Ha : ack_contract fleet_peers (λ sel, negb (sel "leased")) (λ n, n = "acking" ∨ n = "old")).
  { intros sel n Hs Hn Hsel. repeat (apply elem_of_cons in Hn as [->|Hn]); [|by auto..|by apply elem_of_nil in Hn].
    by rewrite Hsel in Hs. }
  exact (proj2 (proj2 (reported_write_covered fleet_caps fleet_peers (LeaseLapsed ["leased"])
    (λ sel, negb (sel "leased")) (λ n, n = "acking" ∨ n = "old") (λ n, n = "leased") CStrong true Ht Ha))
    ltac:(discriminate) eq_refl).
Defined.
