(* ===== verification/Apply.v ===== *)
(** * The apply loop

    [WriteSync::start_apply] of [src/src/sync/coherence.rs]: a node's own writer is
    declared, the lapse watcher reports to the recovery driver, and one task handles the
    events of its peers' feeds in the order [groupnet]'s [PeerWrites] delivers them.  The
    handling of an event is a script of actions, one per call or await; between two of
    them any other task may use the index.  The frontier, the acknowledgement ledger, the
    recovery driver and the body tiers are behind the calls: what the loop asked of them
    is its trace.  What the calls on the body tiers do is the subject of TierFence;
    logs and counters are left out. *)

From S2P Require Import Prelude.
From S2P Require Import ObjTypes.
From S2P Require Import ImageCodec.
From S2P Require Import Rows.
From S2P Require Import IndexCapture.
From S2P Require Import KeyIndex.
From S2P Require Import IndexMachine.
From S2P Require Import Wire.
From S2P Require Import Coherence.

(** ** Events and scripts *)

(** [groupnet]'s [PeerWrite], with the decoded event. *)
Inductive PeerWrite :=
| Sealed (peer : NodeId) (token : WriteToken)
| Renewed (peer : NodeId) (sealed : WriteToken) (epoch : Z)
| Wrote (peer : NodeId) (token : WriteToken) (event : IndexEvent)
| Gap (peer : NodeId) (missed_through : WriteToken).

Inductive Act :=
(** On the bodies of a key: [fence_mutation], [invalidate_hot] and the spawned [invalidate]. *)
| ActFence (bucket key : string)
| ActHot (bucket key : string)
| ActRetire (bucket key : string)
(** On the index and the crossings. *)
| ActNoteSeal (peer : NodeId) (token : WriteToken)
| ActObserveSeal (peer : NodeId) (token : WriteToken)
| ActRenew (peer : NodeId) (sealed : WriteToken) (epoch : Z)
| ActApply (peer : NodeId) (token : WriteToken) (event : IndexEvent)
| ActForget (peer : NodeId)
| ActDiscard (peer : NodeId) (missed_through : WriteToken)
(** [recovery.feed_gap], when a recovery driver is attached. *)
| ActFeedGap
(** [frontier.advance] and [ledger.record]. *)
| ActAdvance (peer : NodeId) (token : WriteToken)
| ActRecord (peer : NodeId) (token : WriteToken).

(** Bounded mode has no ledger. *)
Definition publish (c : Consistency) (peer : NodeId) (token : WriteToken) : list Act :=
  ActAdvance peer token :: (if acks c then [ActRecord peer token] else []).

Definition script (c : Consistency) (event : PeerWrite) : list Act :=
  match event with
  | Sealed peer token => [ActNoteSeal peer token; ActObserveSeal peer token] ++ publish c peer token
  | Renewed peer sealed epoch => ActRenew peer sealed epoch :: publish c peer (mkToken epoch 0)
  | Wrote peer token event =>
      [ActFence (ev_bucket event) (ev_key event); ActApply peer token event; ActHot (ev_bucket event) (ev_key event)]
      ++ publish c peer token ++ [ActRetire (ev_bucket event) (ev_key event)]
  | Gap peer missed_through =>
      [ActForget peer; ActDiscard peer missed_through; ActFeedGap] ++ publish c peer missed_through
  end.

(** ** The loop *)

Record Loop := mkLoop {
  lp_index : KeyIndexState;
  lp_crossings : Crossings;
  (** The fences handed to [reconcile]. *)
  lp_reconciles : list (string * string * Z);
  lp_trace : list Act;
  lp_todo : list Act;
  lp_queue : list PeerWrite;
}.

(** The lapse watcher's turn: the call it makes, given the recovery driver's covered
    count and the lease view's count. *)
Definition lapse_turn (covered : Z) (lapses : option Z) : option Z :=
  let count := default 0 lapses in
  if covered <? count then Some count else None.

Section loop.
Context {L : Layout} {P : EtagParse}.

Definition start_apply (me : NodeId) (feed : Feed) (state : KeyIndexState) (stream : list PeerWrite) : Loop :=
  mkLoop (register_native_writer state (own_position me feed)) ∅ [] [] [] stream.

(** One action; [None] is the panic of an exhausted token space, which ends the task. *)
Definition act (l : Loop) (a : Act) : option (KeyIndexState * Crossings * list (string * string * Z)) :=
  let '(s, cs, rs) := (lp_index l, lp_crossings l, lp_reconciles l) in
  match a with
  | ActNoteSeal peer token => Some (note_native_seal s (native_cut peer token), cs, rs)
  | ActObserveSeal peer token => Some (s, observe_seal cs peer token, rs)
  | ActRenew peer sealed epoch => let '(_, cs, s) := observe_renewal cs s peer sealed epoch in Some (s, cs, rs)
  | ActApply peer token event =>
      match apply_feed_index s peer token event with
      | None => None
      | Some (fenced, s) =>
          Some (s, cs, match fenced with Some fence => rs ++ [(ev_bucket event, ev_key event, fence)] | None => rs end)
      end
  | ActForget peer => Some (s, forget_crossing cs peer, rs)
  | ActDiscard peer missed_through => Some (discard_for_gap s (native_cut peer missed_through), cs, rs)
  | ActFence _ _ | ActHot _ _ | ActRetire _ _ | ActFeedGap | ActAdvance _ _ | ActRecord _ _ => Some (s, cs, rs)
  end.

(** The writer an operation of another task positions, when it positions one. *)
Definition ev_writer (ev : index_event) : option string :=
  match ev with
  | EvPut _ _ _ _ (Some (Native cut)) | EvDel _ _ _ (Some (Native cut)) _ | EvFenceNative _ _ cut | EvFenceOwn _ _ cut
  | EvGap cut | EvRegister cut | EvSeal cut | EvRenew cut _ => Some (cut_writer cut)
  | _ => None
  end.

(** The loop takes its next event, or runs the next action of the one it is on; another
    task runs an operation of the index, positioning no writer but this node; or an
    install replaces the rows under the cuts. *)
Inductive loop_step (c : Consistency) (me : NodeId) (l : Loop) : Loop → Prop :=
| loop_next event queue :
    lp_todo l = [] → lp_queue l = event :: queue →
    loop_step c me l (mkLoop (lp_index l) (lp_crossings l) (lp_reconciles l) (lp_trace l) (script c event) queue)
| loop_act a todo s cs rs :
    lp_todo l = a :: todo → act l a = Some (s, cs, rs) →
    loop_step c me l (mkLoop s cs rs (lp_trace l ++ [a]) todo (lp_queue l))
| loop_other ev s :
    (∀ w, ev_writer ev = Some w → w = me) → exec (lp_index l) ev = Some s →
    loop_step c me l (mkLoop s (lp_crossings l) (lp_reconciles l) (lp_trace l) (lp_todo l) (lp_queue l))
| loop_install s :
    native_cuts s = native_cuts (lp_index l) →
    loop_step c me l (mkLoop s (lp_crossings l) (lp_reconciles l) (lp_trace l) (lp_todo l) (lp_queue l)).

(** The loop on its own: its next step, and its steps while it has some. *)
Definition loop_turn (c : Consistency) (l : Loop) : option Loop :=
  match lp_todo l with
  | a :: todo =>
      match act l a with
      | None => None
      | Some (s, cs, rs) => Some (mkLoop s cs rs (lp_trace l ++ [a]) todo (lp_queue l))
      end
  | [] =>
      match lp_queue l with
      | [] => None
      | event :: queue =>
          Some (mkLoop (lp_index l) (lp_crossings l) (lp_reconciles l) (lp_trace l) (script c event) queue)
      end
  end.

Fixpoint drain (c : Consistency) (fuel : nat) (l : Loop) : Loop :=
  match fuel with
  | O => l
  | S fuel => match loop_turn c l with Some l => drain c fuel l | None => l end
  end.

Inductive loop_run (c : Consistency) (me : NodeId) (l : Loop) : Loop → Prop :=
| run_none : loop_run c me l l
| run_step l1 l2 : loop_run c me l l1 → loop_step c me l1 l2 → loop_run c me l l2.
End loop.
