(* ===== verification/ApplyProps.v ===== *)
(** * Acknowledgements follow the index

    The runs of the apply loop (Apply), with any other operations on the index between
    two of its actions.  The loop handles a prefix of the stream, in order and script by
    script, and no position reaches the frontier or the acknowledgement ledger before
    the index moved past it: a donor capture begun at any moment carries every position
    this node acknowledged. *)

From S2P Require Import Prelude.
From S2P Require Import ObjTypes.
From S2P Require Import ImageCodec.
From S2P Require Import CodecProps.
From S2P Require Import Rows.
From S2P Require Import IndexCapture.
From S2P Require Import KeyIndex.
From S2P Require Import IndexWf.
From S2P Require Import IndexSteps.
From S2P Require Import IndexMachine.
From S2P Require Import Donor.
From S2P Require Import Wire.
From S2P Require Import Coherence.
From S2P Require Import CoherenceProps.
From S2P Require Import Apply.

Abbreviation Position := (string * (Z * Z))%type.

(** ** How an operation moves the writers' positions *)

(** A name the index keeps a position for. *)
Definition name_ok (w : string) : Prop := sempty w = false ∧ (MAX_NATIVE_ID_BYTES <? slen w) = false.

(** Only [w] may move, and only to [p]; a position that stays put is not behind [p]. *)
Record moves (s s' : KeyIndexState) (w : string) (p : Z * Z) : Prop := {
  mv_other w' : w' ≠ w → native_cuts s' !! w' = native_cuts s !! w';
  mv_self c : native_cuts s' !! w = Some c → c = p ∨ (native_cuts s !! w = Some c ∧ position_le p c = true);
  mv_kept : is_Some (native_cuts s !! w) → is_Some (native_cuts s' !! w);
  mv_new : is_Some (native_cuts s' !! w) → is_Some (native_cuts s !! w) ∨ name_ok w }.

Lemma position_le_spec a b : position_le a b = true ↔ (a.1 < b.1 ∨ a.1 = b.1 ∧ a.2 <= b.2).
Proof. unfold position_le. rewrite orb_true_iff, andb_true_iff, Z.ltb_lt, Z.eqb_eq, Z.leb_le. done. Qed.

Lemma position_le_trans a b c : position_le a b = true → position_le b c = true → position_le a c = true.
Proof. rewrite !position_le_spec. lia. Qed.

Lemma moves_insert s s' w p :
  native_cuts s' = <[w := p]> (native_cuts s) → is_Some (native_cuts s !! w) ∨ name_ok w → moves s s' w p.
Proof.
  intros E Hn. split; [intros w' Hw|intros c|intros _|done]; rewrite E.
  - by rewrite lookup_insert_ne.
  - rewrite lookup_insert_eq. intros [= <-]. by left.
  - rewrite lookup_insert_eq. by eexists.
Qed.

Lemma moves_stay s s' w p :
  native_cuts s' = native_cuts s → (∀ c, native_cuts s !! w = Some c → position_le p c = true) → moves s s' w p.
Proof. intros E H. split; rewrite ?E; [done| |done|by left]. intros c Hc. right. auto. Qed.

Lemma moves_cuts s s' s1 w p : native_cuts s1 = native_cuts s' → moves s s' w p → moves s s1 w p.
Proof. intros E [H1 H2 H3 H4]. by split; rewrite E. Qed.

(** A delivered token is a position of a life: both its words are set. *)
Definition token_ok (t : WriteToken) : Prop := 1 <= tk_epoch t ∧ 1 <= tk_seq t.

(** [behind s w p]: the index does not hold [w] past [p]. *)
Definition behind (s : KeyIndexState) (w : string) (p : Z * Z) : Prop :=
  ∀ c, native_cuts s !! w = Some c → position_le c p = true ∧ 0 <= c.2 ∧ name_ok w.

Lemma note_moves s peer t :
  token_ok t → behind s peer (tk_epoch t, tk_seq t) →
  moves s (note_native_cut s (native_cut peer t)).2 peer (tk_epoch t, tk_seq t).
Proof.
  intros [He Hq] Hb. unfold note_native_cut, native_cut. cbn [cut_writer cut_epoch cut_sequence].
  rewrite (proj2 (Z.eqb_neq (tk_epoch t) 0)), (proj2 (Z.eqb_neq (tk_seq t) 0)), !orb_false_r by lia.
  destruct (native_cuts s !! peer) as [[oe oq]|] eqn:E.
  - destruct (Hb _ E) as (_ & _ & Hw & Hw'). rewrite Hw, Hw'. cbn [orb].
    destruct (Z.eqb_spec (tk_epoch t) oe) as [->|Hne]; cbn [andb]; [destruct (Z.leb_spec (tk_seq t) oq)|].
    + apply moves_stay; [done|]. intros c Hc. rewrite E in Hc. injection Hc as <-. apply position_le_spec. cbn. lia.
    + apply moves_insert; [by repeat case_match|]. left. by rewrite E.
    + apply moves_insert; [by repeat case_match|]. left. by rewrite E.
  - destruct (sempty peer || (MAX_NATIVE_ID_BYTES <? slen peer)) eqn:Hn.
    + apply moves_stay; [done|]. intros c Hc. by rewrite E in Hc.
    + destruct (_ <=? _); [apply moves_stay; [done|]; intros c Hc; by rewrite E in Hc|].
      apply moves_insert; [done|]. right. by apply orb_false_iff in Hn.
Qed.

Lemma renew_moves s peer t e :
  behind s peer (e, 0) → moves s (renew_native_writer s (native_cut peer t) e) peer (e, 0).
Proof.
  intros Hb. unfold renew_native_writer, native_cut. cbn [cut_writer cut_epoch cut_sequence].
  destruct (native_cuts s !! peer) as [c|] eqn:E.
  - destruct (Hb _ E) as (Hle & H0 & _). apply position_le_spec in Hle. cbn in Hle. destruct (Z.leb_spec e c.1).
    + apply moves_stay; [done|]. intros c' Hc. rewrite E in Hc. injection Hc as <-. apply position_le_spec. cbn. lia.
    + apply moves_insert; [by destruct (bool_decide _)|]. left. by rewrite E.
  - apply moves_stay; [done|]. intros c' Hc. by rewrite E in Hc.
Qed.

Lemma skip_moves s peer t : moves s (skip_native_gap s (native_cut peer t)) peer (tk_epoch t, tk_seq t).
Proof.
  unfold skip_native_gap, native_cut. cbn [cut_writer cut_epoch cut_sequence].
  destruct (native_cuts s !! peer) as [c|] eqn:E.
  - destruct (position_le _ c) eqn:Hle; [|apply moves_insert; [done|]; left; by rewrite E].
    apply moves_stay; [done|]. intros c' Hc. rewrite E in Hc. by injection Hc as <-.
  - apply moves_stay; [done|]. intros c' Hc. by rewrite E in Hc.
Qed.

(** ** Operations of other tasks *)

Section cuts.
Context {L : Layout} {P : EtagParse}.

Lemma fence_key_cuts s bucket key t s' : fence_key s bucket key = Some (t, s') → native_cuts s' = native_cuts s.
Proof using. unfold fence_key. intros H. apply bind_Some in H as (tk & _ & [= _ <-]). done. Qed.

(** At most the writer [o] moves. *)
Definition cuts_step (s s' : KeyIndexState) (o : option string) : Prop :=
  native_cuts s' = native_cuts s ∨ ∃ w p, o = Some w ∧ native_cuts s' = <[w := p]> (native_cuts s).

Lemma note_step s cut : cuts_step s (note_native_cut s cut).2 (Some (cut_writer cut)).
Proof using.
  unfold note_native_cut. destruct (_ || _ || _ || _); [by left|]. destruct (native_cuts s !! cut_writer cut) as [[oe oq]|].
  - destruct (_ && _); [by left|]. right. eexists _, _. split; [done|]. by repeat case_match.
  - destruct (_ <=? _); [by left|]. right. by eexists _, _.
Qed.

Lemma skip_step s cut : cuts_step s (skip_native_gap s cut) (Some (cut_writer cut)).
Proof using.
  unfold skip_native_gap. destruct (native_cuts s !! cut_writer cut); [|by left]. destruct (position_le _ _); [by left|].
  right. by eexists _, _.
Qed.

Lemma cuts_step_eq s s1 s' o : native_cuts s' = native_cuts s1 → cuts_step s s1 o → cuts_step s s' o.
Proof using. unfold cuts_step. by intros ->. Qed.

Lemma sync_listing_cuts s bucket g rows : native_cuts (sync_listing_into_generation s bucket g rows).2 = native_cuts s.
Proof using.
  unfold sync_listing_into_generation. destruct (negb _); [done|]. by destruct (foldl _ _ _).
Qed.

(** An operation moves no writer but the one it names. *)
Lemma exec_cuts s ev s' : exec s ev = Some s' → cuts_step s s' (ev_writer ev).
Proof using.
  intros Hx.
  destruct ev as [bk k e a id|bk k ts id sw|bk k|bk k cut|bk k cut|bk k t a now|bk|bk g rows|bk g|bk k fl|cut|bk|cut|cut|cut ep|c];
    cbn [exec] in Hx.
  - injection Hx as <-. apply (cuts_step_eq _ _ _ _ (put_cuts s bk k e a id)). destruct id as [[cut|]|]; [apply note_step|by left..].
  - injection Hx as <-. apply (cuts_step_eq _ _ _ _ (del_cuts s bk k ts id sw)). destruct id as [[cut|]|]; [apply note_step|by left..].
  - unfold fence_uncertain_key in Hx. apply fmap_Some in Hx as ([t s1] & Hf & ->). left. by apply fence_key_cuts in Hf.
  - apply exec_fence_native in Hx as [[_ ->]|[_ [t Hx]]]; [|apply fence_key_cuts in Hx; apply (cuts_step_eq _ _ _ _ Hx)]; apply note_step.
  - apply exec_fence_own in Hx as [t Hx]. apply fence_key_cuts in Hx. apply (cuts_step_eq _ _ _ _ Hx), note_step.
  - injection Hx as <-. left. unfold resolve_uncertain_key. destruct (buckets s !! bk); [|done]. destruct (negb _); [done|].
    by destruct (match a with Present _ => _ | KeyAbsent => _ end).
  - injection Hx as <-. by left.
  - injection Hx as <-. left. apply sync_listing_cuts.
  - injection Hx as <-. left. unfold finish_bucket_sync_generation. by destruct (negb _).
  - injection Hx as <-. left. unfold complete_entry. destruct (buckets s !! bk); [|done]. destruct (Keys.update _ _ _) as [o ks].
    destruct o as [[[p [cu|]]|]|]; done.
  - injection Hx as <-. apply (cuts_step_eq _ (skip_native_gap s cut)); [done|apply skip_step].
  - injection Hx as <-. left. unfold remove_bucket. by repeat case_match.
  - injection Hx as <-. unfold register_native_writer. destruct (_ || _ || _ || _); [by left|]. destruct (_ <=? _); [by left|].
    right. by eexists _, _.
  - injection Hx as <-. unfold note_native_seal. pose proof (note_step s cut) as Hn. by destruct (note_native_cut s cut) as [[] s1].
  - injection Hx as <-. unfold renew_native_writer. destruct (native_cuts s !! cut_writer cut); [|by left]. destruct (_ <=? _); [by left|].
    right. eexists _, _. split; [done|]. by destruct (bool_decide _).
  - injection Hx as <-. by left.
Qed.

Lemma cuts_step_other s s' o w : cuts_step s s' o → o ≠ Some w → native_cuts s' !! w = native_cuts s !! w.
Proof using.
  intros [->|(w' & p & -> & ->)] Hw; [done|]. apply lookup_insert_ne. congruence.
Qed.

(** The table never forgets a writer. *)
Lemma cuts_step_kept s s' o w : cuts_step s s' o → is_Some (native_cuts s !! w) → is_Some (native_cuts s' !! w).
Proof using.
  intros [->|(w' & p & -> & ->)] Hw; [done|]. destruct (decide (w' = w)) as [->|?]; [rewrite lookup_insert_eq; by eexists|].
  by rewrite lookup_insert_ne.
Qed.

Lemma cuts_step_size s s' o : cuts_step s s' o → (base.size (native_cuts s) <= base.size (native_cuts s'))%nat.
Proof using.
  intros [->|(w' & p & -> & ->)]; [done|]. rewrite map_size_insert. case_match; cbn [id]; unfold id; lia.
Qed.

(** An event of the feed moves its writer to its token. *)
Lemma feed_cuts s peer t ev f s' :
  apply_feed_index s peer t ev = Some (f, s') → native_cuts s' = native_cuts (note_native_cut s (native_cut peer t)).2.
Proof using.
  unfold apply_feed_index. destruct (describes_nothing _).
  - unfold fence_uncertain_key_native. destruct (note_native_cut s (native_cut peer t)) as [[] s1]; [|by intros [= _ <-]].
    intros H. apply bind_Some in H as ([tk s2] & Hf & [= _ <-]). cbn [snd]. by apply fence_key_cuts in Hf.
  - destruct (ev_op ev); intros [= _ <-]; [apply put_cuts|apply del_cuts].
Qed.

(** ** The actions *)

Definition position (t : WriteToken) : Z * Z := (tk_epoch t, tk_seq t).

Definition position_of (e : PeerWrite) : Position :=
  match e with
  | Sealed peer t | Wrote peer t _ | Gap peer t => (peer, position t)
  | Renewed peer _ epoch => (peer, (epoch, 0))
  end.

(** The position an action moves the index to, and the one it publishes. *)
Definition effect_of (a : Act) : option Position :=
  match a with
  | ActNoteSeal peer t | ActApply peer t _ | ActDiscard peer t => Some (peer, position t)
  | ActRenew peer _ epoch => Some (peer, (epoch, 0))
  | _ => None
  end.
Definition ack_of (a : Act) : option Position :=
  match a with
  | ActAdvance peer t | ActRecord peer t => Some (peer, position t)
  | _ => None
  end.

(** What [PeerWrites] delivers: other nodes' events, with set words in a token and each
    peer's positions in order. *)
Definition event_ok (me : NodeId) (e : PeerWrite) : Prop :=
  (position_of e).1 ≠ me ∧ match e with Sealed _ t | Wrote _ t _ => token_ok t | Renewed _ _ _ => True | Gap _ t => 0 <= tk_seq t end.
Definition follows (p q : Position) : Prop := p.1 = q.1 → position_le p.2 q.2 = true.
Definition stream_ok (me : NodeId) (stream : list PeerWrite) : Prop :=
  Forall (event_ok me) stream ∧ StronglySorted follows (position_of <$> stream).

Definition act_ok (a : Act) : Prop :=
  match a with ActNoteSeal _ t | ActApply _ t _ => token_ok t | ActDiscard _ t => 0 <= tk_seq t | _ => True end.

Lemma script_effect c e : omap effect_of (script c e) = [position_of e].
Proof using. unfold script, publish. by destruct e, (acks c). Qed.

Lemma script_ok c me e a : event_ok me e → a ∈ script c e → act_ok a.
Proof using.
  intros [_ H] Ha. unfold script, publish in Ha.
  destruct e, (acks c); cbn [app] in Ha; rewrite !elem_of_cons, elem_of_nil in Ha; naive_solver.
Qed.

Lemma script_effects c es : omap effect_of (es ≫= script c) = position_of <$> es.
Proof using.
  induction es as [|e es IH]; [done|]. rewrite bind_cons, omap_app, script_effect, IH. done.
Qed.

Lemma act_moves l a s cs rs p :
  act l a = Some (s, cs, rs) → effect_of a = Some p → act_ok a → behind (lp_index l) p.1 p.2 → moves (lp_index l) s p.1 p.2.
Proof using.
  destruct a; try done; cbn [act effect_of act_ok]; intros Hx [= <-] Hok Hb; cbn [fst snd] in *.
  - injection Hx as <- _ _. apply (moves_cuts _ (note_native_cut (lp_index l) (native_cut peer token)).2); [|by apply note_moves].
    unfold note_native_seal. by destruct (note_native_cut _ _) as [[] ?].
  - unfold observe_renewal in Hx. injection Hx as <- _ _. by apply renew_moves.
  - destruct (apply_feed_index _ _ _ _) as [[f s1]|] eqn:E; [|done]. injection Hx as <- _ _.
    apply (moves_cuts _ _ _ _ _ (feed_cuts _ _ _ _ _ _ E)). by apply note_moves.
  - injection Hx as <- _ _. apply (moves_cuts _ (skip_native_gap (lp_index l) (native_cut peer missed_through))); [done|apply skip_moves].
Qed.

Lemma act_still l a s cs rs : act l a = Some (s, cs, rs) → effect_of a = None → s = lp_index l.
Proof using. destruct a; try done; cbn [act]; by intros [= <- _ _]. Qed.

(** What the loop does to the index are operations of the index. *)
Lemma act_exec l a s cs rs : act l a = Some (s, cs, rs) → s = lp_index l ∨ ∃ ev, exec (lp_index l) ev = Some s.
Proof using.
  destruct a; cbn [act]; try (intros [= <- _ _]; by left).
  - intros [= <- _ _]. right. by exists (EvSeal (native_cut peer token)).
  - unfold observe_renewal. intros [= <- _ _]. right. by exists (EvRenew (native_cut peer sealed) epoch).
  - unfold apply_feed_index. set (cut := native_cut peer token). set (ts := from_micros _). destruct (describes_nothing _).
    + destruct (fence_uncertain_key_native _ _ _ _) as [[f s1]|] eqn:E; [|done]. intros [= <- _ _]. right.
      exists (EvFenceNative (ev_bucket event) (ev_key event) cut). cbn [exec]. by rewrite E.
    + destruct (ev_op event) as [sz et ct sc|]; intros [= <- _ _]; right.
      * by exists (EvPut (ev_bucket event) (ev_key event) (feed_entry sz et ct sc ts) DefinitiveMutation (Some (Native cut))).
      * by exists (EvDel (ev_bucket event) (ev_key event) ts (Some (Native cut)) Run).
  - intros [= <- _ _]. right. by exists (EvGap (native_cut peer missed_through)).
Qed.

Lemma act_cuts l a s cs rs : act l a = Some (s, cs, rs) → ∃ o, cuts_step (lp_index l) s o.
Proof using.
  intros [->|[ev Hx]]%act_exec; [exists None; by left|]. exists (ev_writer ev). by apply exec_cuts.
Qed.

(** ** The invariant *)

Definition full (s : KeyIndexState) : Prop := MAX_NATIVE_WRITERS <= Z.of_nat (base.size (native_cuts s)).
(** The writer of an event or a seal the index was given. *)
Definition written_by (a : Act) : option NodeId :=
  match a with ActNoteSeal peer _ | ActApply peer _ _ => Some peer | _ => None end.

Definition done_at (l : Loop) : list Position := omap effect_of (lp_trace l).
Definition rest_at (l : Loop) : list Position := omap effect_of (lp_todo l) ++ (position_of <$> lp_queue l).

Record LoopInv (c : Consistency) (me : NodeId) (stream : list PeerWrite) (l : Loop) : Prop := {
  li_order : ∃ handled, handled ++ lp_queue l = stream ∧ lp_trace l ++ lp_todo l = handled ≫= script c;
  li_cuts w cut : w ≠ me → native_cuts (lp_index l) !! w = Some cut →
    name_ok w ∧ 0 <= cut.2 ∧ (∀ p, (w, p) ∈ done_at l → position_le p cut = true) ∧
    (∀ p, (w, p) ∈ rest_at l → position_le cut p = true);
  li_tracked a peer : a ∈ lp_trace l → written_by a = Some peer → name_ok peer →
    is_Some (native_cuts (lp_index l) !! peer) ∨ full (lp_index l) }.

Lemma positions_split c stream l :
  (∃ handled, handled ++ lp_queue l = stream ∧ lp_trace l ++ lp_todo l = handled ≫= script c) →
  done_at l ++ rest_at l = position_of <$> stream.
Proof using.
  intros (handled & <- & E). unfold done_at, rest_at. rewrite app_assoc, <- omap_app, E, script_effects. by rewrite fmap_app.
Qed.

Lemma sorted_around p (l1 l2 : list Position) :
  StronglySorted follows (l1 ++ p :: l2) → (∀ q, q ∈ l1 → follows q p) ∧ (∀ q, q ∈ l2 → follows p q).
Proof using.
  induction l1 as [|x l1 IH]; cbn [app]; intros H.
  - apply StronglySorted_inv in H as [_ H]. rewrite Forall_forall in H. split; [by intros q ?%elem_of_nil|done].
  - apply StronglySorted_inv in H as [H1 H2]. rewrite Forall_forall in H2. destruct (IH H1) as [IH1 IH2]. split; [|done].
    intros q [->|Hq]%elem_of_cons; [|auto]. apply H2, elem_of_app. right. by left.
Qed.

Lemma full_step s s' o : cuts_step s s' o → full s → full s'.
Proof using. intros H%cuts_step_size. unfold full. lia. Qed.

Lemma tracked_step s s' o peer :
  cuts_step s s' o → is_Some (native_cuts s !! peer) ∨ full s → is_Some (native_cuts s' !! peer) ∨ full s'.
Proof using. intros H [?|?]; [left; by eapply cuts_step_kept|right; by eapply full_step]. Qed.

(** A named writer is in the table once an event of it was noted, unless there is no room. *)
Lemma note_tracks s peer t :
  token_ok t → name_ok peer →
  is_Some (native_cuts (note_native_cut s (native_cut peer t)).2 !! peer) ∨ full (note_native_cut s (native_cut peer t)).2.
Proof using.
  intros [He Hq] [Hn Hn']. unfold note_native_cut, native_cut. cbn [cut_writer cut_epoch cut_sequence]. rewrite Hn, Hn'.
  rewrite (proj2 (Z.eqb_neq (tk_epoch t) 0)), (proj2 (Z.eqb_neq (tk_seq t) 0)) by lia. cbn [orb].
  destruct (native_cuts s !! peer) as [[oe oq]|] eqn:E.
  - destruct (_ && _); [left; cbn [snd]; by rewrite E|]. left. cbn [snd with_cuts native_cuts]. rewrite lookup_insert_eq. by eexists.
  - destruct (Z.leb_spec MAX_NATIVE_WRITERS (Z.of_nat (base.size (native_cuts s)))); [by right|]. left.
    cbn [snd with_cuts native_cuts invalidate_capture with_capture]. rewrite lookup_insert_eq. by eexists.
Qed.

Lemma act_tracks l a s cs rs peer :
  act l a = Some (s, cs, rs) → act_ok a → written_by a = Some peer → name_ok peer → is_Some (native_cuts s !! peer) ∨ full s.
Proof using.
  destruct a; try done; cbn [act written_by act_ok]; intros Hx Hok [= <-] Hn;
    pose proof (note_tracks (lp_index l) peer0 token Hok Hn) as Ht.
  - injection Hx as <- _ _. unfold note_native_seal. by destruct (note_native_cut _ _) as [[] ?].
  - destruct (apply_feed_index _ _ _ _) as [[f s1]|] eqn:E; [|done]. injection Hx as <- _ _.
    unfold full in *. by rewrite (feed_cuts _ _ _ _ _ _ E).
Qed.

Section inv.
Context (c : Consistency) (me : NodeId) (stream : list PeerWrite).
Hypothesis Hstream : stream_ok me stream.

Lemma todo_ok l a todo : LoopInv c me stream l → lp_todo l = a :: todo →
  act_ok a ∧ ∀ p, effect_of a = Some p → p.1 ≠ me ∧ 0 <= p.2.2.
Proof using Hstream.
  intros [(handled & Hh & Ht) _ _] E. assert (Ha : a ∈ handled ≫= script c).
  { rewrite <- Ht, E. apply elem_of_app. right. by left. }
  apply list_elem_of_bind in Ha as (e & Ha & He). destruct Hstream as [Hok _]. rewrite Forall_forall in Hok.
  assert (Hev : event_ok me e). { apply Hok. rewrite <- Hh. apply elem_of_app. by left. }
  split; [by eapply script_ok|]. intros p Hp.
  assert (p ∈ omap effect_of (script c e)) as Hin by (apply list_elem_of_omap; by exists a).
  rewrite script_effect in Hin. apply list_elem_of_singleton in Hin as ->. destruct Hev as [Hne Hq]. split; [done|].
  destruct e; cbn; unfold token_ok in Hq; lia.
Qed.

Lemma next_inv l event queue :
  LoopInv c me stream l → lp_todo l = [] → lp_queue l = event :: queue →
  LoopInv c me stream (mkLoop (lp_index l) (lp_crossings l) (lp_reconciles l) (lp_trace l) (script c event) queue).
Proof using.
  intros [(handled & Hh & Ht) Hc Htr] Et Eq. split; [|..|done].
  - exists (handled ++ [event]). rewrite <- app_assoc. cbn [app lp_queue lp_trace lp_todo]. rewrite <- Eq. split; [done|].
    rewrite bind_app, <- Ht, Et, app_nil_r, bind_singleton. done.
  - intros w cut Hw Hl. destruct (Hc w cut Hw Hl) as (? & ? & ? & Hr). split_and!; [done..|]. intros p Hp. apply Hr.
    unfold rest_at in *. rewrite Et, Eq. cbn [lp_todo lp_queue] in Hp. by rewrite script_effect in Hp.
Qed.

(** Operations that leave the peers' positions alone. *)
Lemma other_inv l s o :
  LoopInv c me stream l → cuts_step (lp_index l) s o → (∀ w, o = Some w → w = me) →
  LoopInv c me stream (mkLoop s (lp_crossings l) (lp_reconciles l) (lp_trace l) (lp_todo l) (lp_queue l)).
Proof using.
  intros [Ho Hc Htr] Hs Hme. split; [done|..].
  - intros w cut Hw Hl. cbn [lp_index] in Hl. rewrite (cuts_step_other _ _ _ w Hs) in Hl by (intros E; by apply Hw, Hme). by apply Hc.
  - intros a peer Ha Hp Hn. by eapply tracked_step, Htr.
Qed.

Lemma act_inv l a todo s cs rs :
  LoopInv c me stream l → lp_todo l = a :: todo → act l a = Some (s, cs, rs) →
  LoopInv c me stream (mkLoop s cs rs (lp_trace l ++ [a]) todo (lp_queue l)).
Proof using Hstream.
  intros Hi Et Hx. pose proof (todo_ok l a todo Hi Et) as [Hok Hp]. destruct Hi as [Ho Hc Htr].
  pose proof (positions_split c stream l Ho) as Hsplit. split.
  - destruct Ho as (handled & Hh & Ht). exists handled. split; [done|]. cbn [lp_trace lp_todo]. by rewrite <- Ht, Et, <- app_assoc.
  - intros w cut Hw Hl. cbn [lp_index] in Hl. unfold done_at, rest_at. cbn [lp_trace lp_todo lp_queue]. rewrite omap_app.
    destruct (effect_of a) as [p|] eqn:Ea.
    2:{ rewrite (act_still l a s cs rs Hx Ea) in Hl. destruct (Hc w cut Hw Hl) as (? & ? & Hd & Hr). unfold done_at, rest_at in *.
        rewrite Et in Hr. cbn [omap list_omap] in *. rewrite Ea in *. rewrite app_nil_r. by split_and!. }
    destruct (Hp p eq_refl) as [_ H0].
    assert (Hrest : rest_at l = p :: omap effect_of todo ++ (position_of <$> lp_queue l)).
    { unfold rest_at. rewrite Et. cbn [omap list_omap]. by rewrite Ea. }
    rewrite Hrest in Hsplit. destruct Hstream as [_ Hsort]. rewrite <- Hsplit in Hsort.
    destruct (sorted_around _ _ _ Hsort) as [Hbefore Hafter].
    assert (Hm : moves (lp_index l) s p.1 p.2).
    { destruct (decide (p.1 = me)) as [E|Hne]; [by destruct (Hp p eq_refl)|]. eapply act_moves; [done..|].
      intros c0 Hc0. destruct (Hc _ _ Hne Hc0) as (? & ? & _ & Hr). split_and!; [|done..]. apply Hr. rewrite Hrest, <- surjective_pairing. left. }
    cbn [omap list_omap]. rewrite Ea. fold (done_at l).
    destruct (decide (w = p.1)) as [->|Hwp].
    2:{ rewrite (mv_other _ _ _ _ Hm w Hwp) in Hl. destruct (Hc w cut Hw Hl) as (? & ? & Hd & Hr). split_and!; [done..| |].
        - intros q [Hq|Hq]%elem_of_app; [by apply Hd|]. apply list_elem_of_singleton in Hq. by rewrite <- Hq in Hwp.
        - intros q Hq. apply Hr. rewrite Hrest. by right. }
    destruct (mv_self _ _ _ _ Hm cut Hl) as [->|[Hold Hle]].
    + split_and!; [|done|..].
      * destruct (mv_new _ _ _ _ Hm) as [[c0 Hc0]|?]; [by rewrite Hl| |done]. by destruct (Hc _ _ Hw Hc0).
      * intros q [Hq|Hq]%elem_of_app; [by apply (Hbefore _ Hq)|]. apply list_elem_of_singleton in Hq. rewrite <- Hq. apply position_le_spec. cbn. lia.
      * intros q Hq. by apply (Hafter _ Hq).
    + destruct (Hc _ _ Hw Hold) as (? & ? & Hd & Hr). split_and!; [done..| |].
      * intros q [Hq|Hq]%elem_of_app; [by apply Hd|]. apply list_elem_of_singleton in Hq. by rewrite <- Hq in Hle.
      * intros q Hq. apply Hr. rewrite Hrest. by right.
  - intros a' peer [Ha|Ha]%elem_of_app Hwb Hn; cbn [lp_index].
    + destruct (act_cuts l a s cs rs Hx) as [o Hs]. by eapply tracked_step, Htr.
    + apply list_elem_of_singleton in Ha as ->. by eapply act_tracks.
Qed.

Lemma loop_step_inv l l' : LoopInv c me stream l → loop_step c me l l' → LoopInv c me stream l'.
Proof using Hstream.
  intros Hi Hs. destruct Hs as [event queue Et Eq|a todo s cs rs Et Hx|ev s Hme Hx|s Hx].
  - by apply next_inv.
  - by eapply act_inv.
  - eapply other_inv; [done|by apply exec_cuts|done].
  - apply (other_inv _ _ None); [done|by left|done].
Qed.
End inv.

(** ** Publications *)

(** Every position [acts] publishes is in [seen] or moved to before. *)
Fixpoint acks_after (seen : list Position) (acts : list Act) : Prop :=
  match acts with
  | [] => True
  | a :: acts => (∀ p, ack_of a = Some p → p ∈ seen) ∧ acks_after (seen ++ omap effect_of [a]) acts
  end.

Lemma acks_after_app seen l1 l2 :
  acks_after seen (l1 ++ l2) ↔ acks_after seen l1 ∧ acks_after (seen ++ omap effect_of l1) l2.
Proof using.
  revert seen. induction l1 as [|a l1 IH]; intros seen; cbn [app acks_after]; [rewrite app_nil_r; tauto|].
  rewrite IH, <- app_assoc, <- omap_app. tauto.
Qed.

Lemma acks_after_mono seen seen' acts : (∀ p, p ∈ seen → p ∈ seen') → acks_after seen acts → acks_after seen' acts.
Proof using.
  revert seen seen'. induction acts as [|a acts IH]; intros seen seen' Hs; cbn [acks_after]; [done|]. intros [H1 H2].
  split; [auto|]. eapply IH, H2. intros p. rewrite !elem_of_app. naive_solver.
Qed.

Lemma script_acks c e : acks_after [] (script c e).
Proof using.
  unfold script, publish. destruct e, (acks c); cbn [app acks_after omap list_omap effect_of ack_of];
    repeat split; try done; intros p [= <-]; rewrite ?elem_of_cons, ?elem_of_app; set_solver.
Qed.

Lemma stream_acks c es : acks_after [] (es ≫= script c).
Proof using.
  induction es as [|e es IH]; [done|]. rewrite bind_cons, acks_after_app. split; [apply script_acks|].
  eapply acks_after_mono, IH. by intros p ?%elem_of_nil.
Qed.

Lemma acks_seen acts a p : acks_after [] acts → a ∈ acts → ack_of a = Some p → p ∈ omap effect_of acts.
Proof using.
  intros H (l1 & l2 & ->)%list_elem_of_split Hp. rewrite acks_after_app in H. destruct H as [_ [H _]]. rewrite omap_app.
  apply elem_of_app. left. by apply H.
Qed.

Lemma gather_cuts_from m n rows cuts cut :
  gather_cuts m n rows = Ok cuts → cut ∈ cuts → (cut_writer cut, (cut_epoch cut, cut_sequence cut)) ∈ rows.
Proof using.
  revert n cuts. induction rows as [|[w [e q]] rows IH]; intros n cuts; cbn [gather_cuts].
  - intros [= <-]. by intros ?%elem_of_nil.
  - intros H. apply bind_ok in H as (b & _ & H). apply bind_ok in H as ([] & _ & H). apply bind_ok in H as (cs & Hg & [= <-]).
    intros [->|Hin]%elem_of_cons; [by left|]. right. by eapply IH.
Qed.

(** ** The loop on its own *)

Lemma turn_step c me l l' : loop_turn c l = Some l' → loop_step c me l l'.
Proof using.
  unfold loop_turn. destruct (lp_todo l) as [|a todo] eqn:Et.
  - destruct (lp_queue l) as [|e queue] eqn:Eq; [done|]. intros [= <-]. by apply loop_next.
  - destruct (act l a) as [[[s cs] rs]|] eqn:Ex; [|done]. intros [= <-]. by eapply loop_act.
Qed.

Lemma run_trans c me l1 l2 l3 : loop_run c me l1 l2 → loop_run c me l2 l3 → loop_run c me l1 l3.
Proof using. intros H1 H2. induction H2; [done|]. by eapply run_step. Qed.

Lemma drain_run c me fuel l : loop_run c me l (drain c fuel l).
Proof using.
  revert l. induction fuel as [|fuel IH]; intros l; cbn [drain]; [constructor|].
  destruct (loop_turn c l) as [l1|] eqn:E; [|constructor].
  eapply run_trans, IH. eapply run_step; [constructor|by apply turn_step].
Qed.

(** The steps left; a script has at most six actions. *)
Definition weight (l : Loop) : nat := length (lp_todo l) + 7 * length (lp_queue l).

Lemma script_length c e : (length (script c e) <= 6)%nat.
Proof using. unfold script, publish. destruct e, (acks c); cbn; lia. Qed.

Lemma turn_weight c l l' : loop_turn c l = Some l' → (weight l' < weight l)%nat.
Proof using.
  unfold loop_turn, weight. destruct (lp_todo l) as [|a todo].
  - destruct (lp_queue l) as [|e queue]; [done|]. intros [= <-]. pose proof (script_length c e). cbn [lp_todo lp_queue length]. lia.
  - destruct (act l a) as [[[s cs] rs]|]; [|done]. intros [= <-]. cbn [lp_todo lp_queue length]. lia.
Qed.

(** The loop ends with everything handled, or on the panic of an action. *)
Lemma drain_ends c fuel l :
  (weight l <= fuel)%nat →
  let l' := drain c fuel l in
  (lp_todo l' = [] ∧ lp_queue l' = []) ∨ ∃ a todo, lp_todo l' = a :: todo ∧ act l' a = None.
Proof using.
  revert l. induction fuel as [|fuel IH]; intros l Hw; cbn [drain].
  - unfold weight in Hw. left. split; apply nil_length_inv; lia.
  - destruct (loop_turn c l) as [l1|] eqn:E; [apply IH; apply turn_weight in E; lia|].
    unfold loop_turn in E. destruct (lp_todo l) as [|a todo] eqn:Et.
    + left. by destruct (lp_queue l).
    + right. exists a, todo. split; [done|]. by destruct (act l a) as [[[? ?] ?]|].
Qed.

(** The invariant holds in every run, and the index's positions are ones the loop moved to. *)
Lemma run_inv c me feed state stream l :
  stream_ok me stream → (∀ peer, peer ≠ me → native_cuts state !! peer = None) →
  loop_run c me (start_apply me feed state stream) l →
  LoopInv c me stream l ∧ ∀ w cut, w ≠ me → native_cuts (lp_index l) !! w = Some cut → (w, cut) ∈ done_at l.
Proof using.
  intros Hok Hnone Hrun.
  assert (H0 : ∀ w, w ≠ me → native_cuts (lp_index (start_apply me feed state stream)) !! w = None).
  { intros w Hw. cbn [start_apply lp_index]. rewrite (cuts_step_other state _ (Some me) w); [by apply Hnone| |congruence].
    by apply (exec_cuts state (EvRegister (own_position me feed))). }
  induction Hrun as [|l1 l2 _ [IHi IHf] Hs].
  - split; [|intros w cut Hw Hl; by rewrite H0 in Hl]. split; [by exists []| |by intros a peer ?%elem_of_nil].
    intros w cut Hw Hl. by rewrite H0 in Hl.
  - split; [by eapply loop_step_inv|]. intros w cut Hw Hl.
    destruct Hs as [e q Et Eq|a todo s cs rs Et Hx|ev s Hme Hx|s Hx]; unfold done_at in *; cbn [lp_index lp_trace] in *.
    + by apply IHf.
    + rewrite omap_app. apply elem_of_app. pose proof (todo_ok c me stream Hok l1 a todo IHi Et) as [Hak Hp].
      destruct (effect_of a) as [p|] eqn:Ea; [|left; apply IHf; [done|]; by rewrite <- (act_still l1 a s cs rs Hx Ea)].
      assert (Hm : moves (lp_index l1) s p.1 p.2).
      { eapply act_moves; [done..|]. intros c0 Hc0. destruct (Hp p eq_refl) as [Hne _].
        destruct (li_cuts _ _ _ _ IHi _ _ Hne Hc0) as (? & ? & _ & Hr). split_and!; [|done..]. apply Hr.
        unfold rest_at. rewrite Et. cbn [omap list_omap]. rewrite Ea, <- surjective_pairing. left. }
      destruct (decide (w = p.1)) as [->|Hne]; [|left; apply IHf; [done|]; by rewrite <- (mv_other _ _ _ _ Hm w Hne)].
      destruct (mv_self _ _ _ _ Hm cut Hl) as [->|[Hold _]]; [|left; by apply IHf].
      right. cbn [omap list_omap]. rewrite Ea, <- surjective_pairing. left.
    + apply IHf; [done|]. rewrite <- (cuts_step_other _ _ _ w (exec_cuts _ _ _ Hx)); [done|]. intros E. by apply Hw, Hme.
    + apply IHf; [done|]. by rewrite <- Hx.
Qed.

(** [C21] Acknowledgements follow the index.  In every run of the apply loop, with any
    operations of other tasks and any installs between its actions: the loop handles a
    prefix of what the feed delivers, in order and each event by its whole script (bodies
    fenced, index moved, hot copies gone, then published); every position it published to
    the frontier or recorded in the ledger is one the index's table of writers is not
    behind, so the cuts a donor capture gathers at any moment cover it; and a peer whose
    event was applied is in that table, unless its name is unusable or the table is full. *)
Theorem acks_follow_index (c : Consistency) (me : NodeId) (feed : Feed) (state : KeyIndexState) (stream : list PeerWrite) (l : Loop) :
  stream_ok me stream → (∀ peer, peer ≠ me → native_cuts state !! peer = None) →
  loop_run c me (start_apply me feed state stream) l →
  (∃ handled, handled ++ lp_queue l = stream ∧ lp_trace l ++ lp_todo l = handled ≫= script c) ∧
  (∀ peer token, ActAdvance peer token ∈ lp_trace l ∨ ActRecord peer token ∈ lp_trace l →
     ∀ max cuts cut, gather_cuts max 0 (sorted_rows (native_cuts (lp_index l))) = Ok cuts → cut ∈ cuts → cut_writer cut = peer →
       position_le (tk_epoch token, tk_seq token) (cut_epoch cut, cut_sequence cut) = true) ∧
  (∀ peer token event, ActApply peer token event ∈ lp_trace l → sempty peer = false → (MAX_NATIVE_ID_BYTES <? slen peer) = false →
     is_Some (native_cuts (lp_index l) !! peer) ∨ MAX_NATIVE_WRITERS <= Z.of_nat (base.size (native_cuts (lp_index l)))).
Proof using.
  intros Hok Hnone Hrun. destruct (run_inv c me feed state stream l Hok Hnone Hrun) as [Hi _].
  destruct Hi as [Ho Hc Htr]. split_and!; [done| |].
  - intros peer token Hpub max cuts cut Hg Hin <-.
    apply (gather_cuts_from _ _ _ _ _ Hg), elem_of_sorted_rows in Hin.
    assert (Hd : (cut_writer cut, position token) ∈ done_at l).
    { destruct Ho as (handled & _ & Ht). pose proof (stream_acks c handled) as Ha. rewrite <- Ht, acks_after_app in Ha.
      destruct Ha as [Ha _]. by destruct Hpub as [Hp|Hp]; eapply acks_seen. }
    assert (Hne : cut_writer cut ≠ me).
    { destruct Hok as [Hev _]. rewrite Forall_forall in Hev.
      assert (Hm : (cut_writer cut, position token) ∈ position_of <$> stream).
      { rewrite <- (positions_split c stream l Ho). apply elem_of_app. by left. }
      apply list_elem_of_fmap in Hm as (e & He & Hm). destruct (Hev e Hm) as [Hme _]. by rewrite <- He in Hme. }
    by destruct (Hc _ _ Hne Hin) as (_ & _ & H & _); apply H.
  - intros peer token event Ha Hn Hn'. by apply (Htr _ peer Ha).
Qed.
End cuts.

(** ** A run: a peer writes, writes again, seals and comes back *)

#[local] Existing Instance layout64.
#[local] Existing Instance parse_quoted.

Definition demo_stream : list PeerWrite :=
  [Wrote "b" (mkToken 9 1) (mkEvent (OpPut (Some 3) None None None) "photos" "k" 4000);
   Wrote "b" (mkToken 9 2) (mkEvent OpDel "photos" "k" 5000);
   Sealed "b" (mkToken 9 3); Renewed "b" (mkToken 9 3) 10; Gap "b" (mkToken 10 4)].
Definition demo_loop (fuel : nat) : Loop :=
  drain CStrong fuel (start_apply "a" (mkFeed 7 None) KeyIndexState_default demo_stream).

Lemma demo_stream_ok : stream_ok "a" demo_stream.
Proof.
  split; [repeat constructor; done|].
  repeat (apply SSorted_cons; [|repeat (apply Forall_cons; split; [by intros _|]); try apply Forall_nil; done]); constructor.
Qed.

(** In the middle of the second write the first is acknowledged and covered; at the end
    the whole stream is handled. *)
Lemma acks_follow_index_witness :
  lp_queue (demo_loop 40) = [] ∧ length (lp_trace (demo_loop 40)) = 24%nat ∧
  ActRecord "b" (mkToken 9 1) ∈ lp_trace (demo_loop 10) ∧
  position_le (9, 1) (9, 2) = true.
Proof.
  assert (Hin : ActRecord "b" (mkToken 9 1) ∈ lp_trace (demo_loop 10)).
  { assert (lp_trace (demo_loop 10) = take 8 (demo_stream ≫= script CStrong)) as -> by (vm_compute; reflexivity).
    cbn. do 4 right. left. }
  split_and!; [vm_compute; reflexivity|vm_compute; reflexivity|exact Hin|].
  destruct (acks_follow_index CStrong "a" (mkFeed 7 None) KeyIndexState_default demo_stream (demo_loop 10))
    as (_ & H & _).
  - apply demo_stream_ok.
  - intros peer _. apply lookup_empty.
  - apply drain_run.
  - refine (H "b" (mkToken 9 1) (or_intror Hin) 100 [mkCut "a" 7 0; mkCut "b" 9 2] (mkCut "b" 9 2) _ _ eq_refl).
    + vm_compute. reflexivity.
    + right. left.
Defined.
