(* ===== verification/Tier.v ===== *)
(** * Cached bodies and their disk records

    The sequential half of [src/src/tier.rs]: the cached object and the responses built
    from it, draining a body against a cap, and the record format of the warm tier.
    [CachedRange] of [src/src/cache/proxy.rs] routes range requests to it.

    [postcard] is a parameter, with the round trip it promises; so is the derived reader
    of the oldest record, which gives the position of the body it borrows. *)

From stdpp Require Import pretty.
From S2P Require Import Prelude.
From S2P Require Import ObjTypes.
#[local] Open Scope Z_scope.

(** ** Objects and responses *)

(** The ten response fields that [GetObjectOutput] and [HeadObjectOutput] spell alike are
    an [HeadObjectOutput]. *)
Record CachedObject := mkCached { body : bytes; fields : HeadObjectOutput; trusted_gen : Z }.

Record GetObjectOutput := mkGet {
  g_body : option bytes;
  g_content_range : option string;
  g_fields : HeadObjectOutput;
}.

Definition from_get (out : GetObjectOutput) (body : bytes) : CachedObject := mkCached body (g_fields out) 0.

Definition trusted (obj : CachedObject) (generation : Z) : bool := trusted_gen obj =? generation.
Definition mark_trusted (obj : CachedObject) (generation : Z) : CachedObject :=
  mkCached (body obj) (fields obj) generation.

Definition meta_get (obj : CachedObject) : GetObjectOutput := mkGet None None (fields obj).
Definition to_get (obj : CachedObject) : GetObjectOutput := mkGet (Some (body obj)) None (g_fields (meta_get obj)).
Definition to_head (obj : CachedObject) : HeadObjectOutput := fields obj.

Definition blen (l : bytes) : Z := Z.of_nat (length l).

Definition with_content_length (h : HeadObjectOutput) (len : Z) : HeadObjectOutput :=
  mkHead (Some len) (h_last_modified h) (h_e_tag h) (h_content_type h) (h_accept_ranges h) (h_cache_control h)
    (h_content_disposition h) (h_content_encoding h) (h_content_language h) (h_metadata h).

Definition show (n : Z) : string := pretty (Z.to_N n).

(** [Bytes::slice(first..=last)]: [None] is its panic, on a range that ends before it
    starts or past the end. *)
Definition slice_incl (l : bytes) (first last : Z) : option bytes :=
  if (first <=? last + 1) && (last + 1 <=? blen l)
  then Some (take (Z.to_nat (last + 1 - first)) (drop (Z.to_nat first) l))
  else None.

(** The outer [None] is a panic, the inner one the code's [None]. *)
Definition to_get_range (obj : CachedObject) (first : Z) (last : option Z) : option (option GetObjectOutput) :=
  let total := blen (body obj) in
  if total <=? first then Some None
  else
    let last_incl := match last with None => total - 1 | Some l => Z.min l (total - 1) end in
    slice ← slice_incl (body obj) first last_incl;
    Some (Some (mkGet (Some slice)
      (Some ("bytes " +:+ show first +:+ "-" +:+ show last_incl +:+ "/" +:+ show total))
      (with_content_length (g_fields (meta_get obj)) (default i64_max (try_from i64_max (blen slice)))))).

Definition to_get_suffix (obj : CachedObject) (length : Z) : option (option GetObjectOutput) :=
  let total := blen (body obj) in
  if (total =? 0) || (length =? 0) then Some None
  else to_get_range obj (saturating_sub total length) None.

(** [s3s::dto::Range]. *)
Inductive Range := RInt (first : Z) (last : option Z) | RSuffix (length : Z).

Inductive CachedRange := CInt (first : Z) (last : option Z) | CSuffix (length : Z).

Definition from_request (unconditional : bool) (range : option Range) : option CachedRange :=
  match unconditional, range with
  | true, Some (RInt first last) => Some (CInt first last)
  | true, Some (RSuffix length) => if 0 <? length then Some (CSuffix length) else None
  | _, _ => None
  end.

Definition slice (r : CachedRange) (obj : CachedObject) : option (option GetObjectOutput) :=
  match r with
  | CInt first last => to_get_range obj first last
  | CSuffix length => to_get_suffix obj length
  end.

(** ** Draining a stream *)

(** A stream is its chunks, in order, up to and including a fault. *)
Definition Chunk := result string bytes.

Inductive BufferedBody := Whole (b : bytes) | Streamed (blob : list Chunk).

Fixpoint drain (buf : bytes) (blob : list Chunk) (cap : Z) : BufferedBody :=
  match blob with
  | [] => Whole buf
  | Ok b :: rest => if blen buf + blen b <=? cap then drain (buf ++ b) rest cap else Streamed (Ok buf :: Ok b :: rest)
  | Err e :: rest => Streamed (Ok buf :: Err e :: rest)
  end.

Definition buffer_or_forward (blob : list Chunk) (cap : Z) : BufferedBody := drain [] blob cap.

Definition buffer_body (blob : list Chunk) (cap : Z) : option bytes :=
  match buffer_or_forward blob cap with Whole b => Some b | Streamed _ => None end.

(** ** Warm records *)

Abbreviation CKey := (string * string)%type.

Record WarmHeader := mkWarm { wh_key : CKey; wh_body_len : Z; wh_fields : HeadObjectOutput }.

Definition capture (key : CKey) (object : CachedObject) : WarmHeader :=
  mkWarm key (default u64_max (try_from u64_max (blen (body object)))) (fields object).

Definition finish (h : WarmHeader) (body : bytes) : CKey * CachedObject := (wh_key h, mkCached body (wh_fields h) 0).

(** [codec] and [codec::legacy] at these types; [warm_tuple] also gives where the body
    lies. *)
Class WarmCodec := {
  header_to_vec : WarmHeader → option bytes;
  header_from_slice : bytes → option WarmHeader;
  header_legacy : bytes → option WarmHeader;
  warm_tuple : bytes → option (CKey * (Z * Z) * HeadObjectOutput);
}.
Class WarmCodecLaw {C : WarmCodec} : Prop :=
  warm_codec_law h l : header_to_vec h = Some l → header_from_slice l = Some h.

Definition WARM_MAGIC : bytes := [Byte.x53; Byte.x33; Byte.x43; Byte.x57; Byte.x52; Byte.x4d; Byte.x30; Byte.x32].
Definition LEGACY_WARM_MAGIC : bytes := [Byte.x53; Byte.x33; Byte.x43; Byte.x57; Byte.x52; Byte.x4d; Byte.x30; Byte.x31].
Definition WARM_PREFIX_LEN : Z := 12.

Section records.
Context {C : WarmCodec}.

Definition encode_warm_record (key : CKey) (object : CachedObject) (max_bytes : Z) : result string (option bytes) :=
  header ← ok_or (header_to_vec (capture key object)) "codec";
  header_len ← ok_or (try_from u32_max (blen header)) "warm record header exceeds u32";
  total ← ok_or (len ← checked_add usize_max WARM_PREFIX_LEN (blen header); checked_add usize_max len (blen (body object)))
            "warm record length overflow";
  if max_bytes <? total then Ok None
  else Ok (Some (WARM_MAGIC ++ to_le_bytes 4 header_len ++ header ++ body object)).

(** [bytes.get(a..b)]. *)
Definition get_range (l : bytes) (a b : Z) : option bytes :=
  if (a <=? b) && (b <=? blen l) then Some (take (Z.to_nat (b - a)) (drop (Z.to_nat a) l)) else None.

Definition decode_legacy_tuple (l : bytes) : result string (CKey * CachedObject) :=
  '(key, (start, len), legacy) ← ok_or (warm_tuple l) "codec";
  body ← (if len =? 0 then Ok []
          else
            start ← ok_or (if start <=? blen l then Some start else None) "legacy warm body is outside its record";
            end_ ← ok_or (e ← checked_add usize_max start len; if e <=? blen l then Some e else None)
                     "legacy warm body is truncated";
            ok_or (get_range l start end_) "slice");
  Ok (key, mkCached body legacy 0).

Definition decode_warm_record (l : bytes) : result string (CKey * CachedObject) :=
  let magic := default [] (get_range l 0 8) in
  if negb (bool_decide (magic = WARM_MAGIC)) && negb (bool_decide (magic = LEGACY_WARM_MAGIC))
  then decode_legacy_tuple l
  else
    header_len_bytes ← ok_or (get_range l 8 WARM_PREFIX_LEN) "truncated warm record prefix";
    let header_len := from_le_bytes header_len_bytes in
    body_start ← ok_or (e ← checked_add usize_max WARM_PREFIX_LEN header_len; if e <=? blen l then Some e else None)
                   "truncated warm record header";
    header_bytes ← ok_or (get_range l WARM_PREFIX_LEN body_start) "slice";
    header ← ok_or (if bool_decide (magic = WARM_MAGIC) then header_from_slice header_bytes else header_legacy header_bytes) "codec";
    let body := drop (Z.to_nat body_start) l in
    _ ← refuse_if (negb (default u64_max (try_from u64_max (blen body)) =? wh_body_len header)) "warm record body length mismatch";
    Ok (finish header body).
End records.

(** ** Ranges *)

(** The inclusive byte positions a range asks of a body of [total] bytes. *)
Definition covered (r : CachedRange) (total : Z) : option (Z * Z) :=
  match r with
  | CInt first last =>
      if first <? total then Some (first, match last with None => total - 1 | Some l => Z.min l (total - 1) end) else None
  | CSuffix n => if (0 <? total) && (0 <? n) then Some (Z.max 0 (total - n), total - 1) else None
  end.

(** What [s3s] parses: a range never ends before it starts. *)
Definition range_wf (r : CachedRange) : Prop :=
  match r with
  | CInt first last => 0 <= first ∧ (∀ l, last = Some l → first <= l)
  | CSuffix n => 0 <= n
  end.

Lemma blen_app a b : blen (a ++ b) = blen a + blen b.
Proof. unfold blen. rewrite length_app. lia. Qed.

Lemma blen_nonneg l : 0 <= blen l.
Proof. unfold blen. lia. Qed.

Lemma covered_range r total a b : range_wf r → 0 <= total → covered r total = Some (a, b) → 0 <= a <= b ∧ b < total.
Proof.
  intros Hr Ht. destruct r as [f l|n]; cbn.
  - destruct Hr as [Hf Hl]. destruct (Z.ltb_spec f total); [|done]. intros [= <- <-].
    destruct l as [l|]; [specialize (Hl l eq_refl)|]; lia.
  - destruct (Z.ltb_spec 0 total), (Z.ltb_spec 0 n); cbn; [|done..]. intros [= <- <-]. cbn in Hr. lia.
Qed.

(** The response to the bytes [a] to [b]. *)
Definition piece (obj : CachedObject) (a b : Z) : GetObjectOutput :=
  mkGet (Some (take (Z.to_nat (b + 1 - a)) (drop (Z.to_nat a) (body obj))))
    (Some ("bytes " +:+ show a +:+ "-" +:+ show b +:+ "/" +:+ show (blen (body obj))))
    (with_content_length (fields obj) (Z.min i64_max (b + 1 - a))).

Lemma range_piece obj a last b :
  0 <= a <= b → b < blen (body obj) →
  match last with None => blen (body obj) - 1 | Some l => Z.min l (blen (body obj) - 1) end = b →
  to_get_range obj a last = Some (Some (piece obj a b)).
Proof.
  intros Hab Hb Hl. unfold to_get_range. destruct (Z.leb_spec (blen (body obj)) a); [lia|]. rewrite Hl.
  unfold slice_incl. destruct (Z.leb_spec a (b + 1)); [|lia]. destruct (Z.leb_spec (b + 1) (blen (body obj))); [|lia].
  cbn [andb mbind option_bind]. unfold piece. do 4 f_equal.
  unfold try_from, fits, blen in *. rewrite length_take, length_drop.
  destruct (Z.leb_spec (Z.of_nat (Nat.min (Z.to_nat (b + 1 - a)) (length (body obj) - Z.to_nat a))) i64_max);
    destruct (Z.leb_spec 0 (Z.of_nat (Nat.min (Z.to_nat (b + 1 - a)) (length (body obj) - Z.to_nat a)))); cbn; lia.
Qed.

Lemma slice_piece r obj :
  range_wf r → slice r obj = Some ((λ '(a, b), piece obj a b) <$> covered r (blen (body obj))).
Proof.
  intros Hr. pose proof (blen_nonneg (body obj)) as Hn.
  destruct (covered r (blen (body obj))) as [[a b]|] eqn:Hc; cbn [fmap option_fmap option_map].
  - destruct (covered_range r _ a b Hr Hn Hc) as [Hab Hb]. destruct r as [f l|n]; cbn in Hc |- *.
    + destruct (Z.ltb_spec f (blen (body obj))); [|done]. simplify_eq. by apply range_piece.
    + unfold to_get_suffix. destruct (Z.ltb_spec 0 (blen (body obj))), (Z.ltb_spec 0 n); try done. simplify_eq/=.
      destruct (Z.eqb_spec (blen (body obj)) 0); [lia|]. destruct (Z.eqb_spec n 0); [lia|]. cbn [orb].
      by apply range_piece.
  - destruct r as [f l|n]; cbn in Hc |- *.
    + destruct (Z.ltb_spec f (blen (body obj))); [done|]. unfold to_get_range.
      destruct (Z.leb_spec (blen (body obj)) f); [done|lia].
    + unfold to_get_suffix. destruct (Z.ltb_spec 0 (blen (body obj))), (Z.ltb_spec 0 n); try done; cbn in Hr.
      all: destruct (Z.eqb_spec (blen (body obj)) 0); try done; destruct (Z.eqb_spec n 0); try done; lia.
Qed.

(** [C33] A well-formed range never panics, is answered exactly when it covers a byte of the
    body, and then carries those bytes and no others. *)
Theorem range_exact r obj :
  range_wf r →
  match covered r (blen (body obj)) with
  | None => slice r obj = Some None
  | Some (a, b) => ∃ out l, slice r obj = Some (Some out) ∧ g_body out = Some l ∧ blen l = b + 1 - a ∧
      ∀ i, (i < length l)%nat → l !! i = body obj !! (Z.to_nat a + i)%nat
  end.
Proof.
  intros Hr. rewrite slice_piece by done. pose proof (blen_nonneg (body obj)) as Hn.
  destruct (covered r (blen (body obj))) as [[a b]|] eqn:Hc; [|done].
  destruct (covered_range r _ a b Hr Hn Hc) as [Hab Hb]. eexists _, _. split; [done|]. split; [done|].
  unfold blen in *. rewrite length_take, length_drop. split; [lia|].
  intros i Hi. rewrite lookup_take_lt by lia. by rewrite lookup_drop.
Qed.

Lemma range_exact_witness :
  range_wf (CInt 1 (Some 9)) ∧ ∃ out l, slice (CInt 1 (Some 9)) (mkCached [Byte.x61; Byte.x62; Byte.x63] (mkHead None None None None None None None None None None) 1) = Some (Some out) ∧
  g_body out = Some l ∧ blen l = 2.
Proof.
  split; [split; [lia|intros l [= <-]; lia]|].
  destruct (range_exact (CInt 1 (Some 9)) (mkCached [Byte.x61; Byte.x62; Byte.x63] (mkHead None None None None None None None None None None) 1))
    as (out & l & H1 & H2 & H3 & _); [split; [lia|intros l [= <-]; lia]|].
  exists out, l. split; [exact H1|]. split; [exact H2|exact H3].
Defined.

(** ** Streams *)

(** What a reader of a stream receives: its bytes, and the fault that ends it. *)
Fixpoint received (blob : list Chunk) : bytes * option string :=
  match blob with
  | [] => ([], None)
  | Ok b :: rest => let (l, e) := received rest in (b ++ l, e)
  | Err e :: _ => ([], Some e)
  end.

Lemma drain_whole buf blob cap b :
  blen buf <= cap →
  drain buf blob cap = Whole b ↔ ∃ l, received blob = (l, None) ∧ b = buf ++ l ∧ blen b <= cap.
Proof.
  revert buf. induction blob as [|[c|e] blob IH]; intros buf Hbuf; cbn [drain received].
  - split; [intros [= <-]; exists []; by rewrite app_nil_r|]. intros (l & [= <-] & -> & _). by rewrite app_nil_r.
  - destruct (received blob) as [l e] eqn:E. destruct (Z.leb_spec (blen buf + blen c) cap) as [Hc|Hc].
    + rewrite IH by (rewrite blen_app; lia). split.
      * intros (l' & [= <- ->] & -> & Hl). exists (c ++ l). rewrite <- app_assoc in Hl |- *. done.
      * intros (l' & [= <- ->] & -> & Hl). exists l. rewrite app_assoc in Hl |- *. done.
    + split; [done|]. intros (l' & [= <- ->] & -> & Hl). rewrite !blen_app in Hl. pose proof (blen_nonneg l). lia.
  - split; [done|]. by intros (l' & [=] & _).
Qed.

Lemma drain_streamed buf blob cap s :
  drain buf blob cap = Streamed s → received s = (buf ++ (received blob).1, (received blob).2).
Proof.
  revert buf. induction blob as [|[c|e] blob IH]; intros buf; cbn [drain received]; [done| |].
  - destruct (Z.leb_spec (blen buf + blen c) cap) as [Hc|Hc].
    + intros ->%IH. destruct (received blob) as [l e]. cbn. by rewrite app_assoc.
    + intros [= <-]. cbn [received]. by destruct (received blob) as [l e].
  - intros [= <-]. done.
Qed.

(** Buffering a body never loses a byte: it is held whole exactly when the stream
    ends without a fault within the cap, and otherwise what is forwarded reads exactly
    like the original stream, drained prefix and fault included. *)
Theorem buffered_or_intact (blob : list Chunk) (cap : Z) :
  0 <= cap →
  (∀ b, buffer_or_forward blob cap = Whole b ↔ received blob = (b, None) ∧ blen b <= cap) ∧
  (∀ s, buffer_or_forward blob cap = Streamed s → received s = received blob) ∧
  (is_Some (buffer_body blob cap) ↔ (received blob).2 = None ∧ blen (received blob).1 <= cap).
Proof.
  intros Hcap. assert (∀ b, buffer_or_forward blob cap = Whole b ↔ received blob = (b, None) ∧ blen b <= cap) as Hw.
  { intros b. unfold buffer_or_forward. rewrite drain_whole by done. split; [by intros (l & ? & -> & ?)|].
    intros [? ?]. by exists b. }
  split; [done|]. split.
  - intros s Hs%drain_streamed. cbn in Hs. by destruct (received blob).
  - unfold buffer_body. destruct (buffer_or_forward blob cap) as [b|s] eqn:E.
    + destruct (proj1 (Hw b) eq_refl) as [-> ?]. split; eauto.
    + split; [by intros [? [=]]|]. intros [Hn Hl]. destruct (received blob) as [l e] eqn:E'. cbn in *. subst e.
      assert (Streamed s = Whole l) by (by apply Hw). done.
Qed.

Definition demo_blob : list Chunk := [Ok [Byte.x01]; Ok [Byte.x02]; Ok [Byte.x03; Byte.x04]; Err "reset"].

Lemma buffered_or_intact_witness : 0 <= 3 ∧
  buffer_or_forward demo_blob 3 = Streamed [Ok [Byte.x01; Byte.x02]; Ok [Byte.x03; Byte.x04]; Err "reset"] ∧
  received [Ok [Byte.x01; Byte.x02]; Ok [Byte.x03; Byte.x04]; Err "reset"] = received demo_blob.
Proof.
  split; [lia|]. split; [reflexivity|].
  apply (proj1 (proj2 (buffered_or_intact demo_blob 3 ltac:(lia)))). reflexivity.
Defined.

(** ** Records *)

Lemma get_range_split (a b c : bytes) (i j : Z) :
  i = blen a → j = blen a + blen b → get_range (a ++ b ++ c) i j = Some b.
Proof.
  intros -> ->. unfold get_range. pose proof (blen_nonneg a). pose proof (blen_nonneg b). pose proof (blen_nonneg c).
  destruct (Z.leb_spec (blen a) (blen a + blen b)); [|lia].
  destruct (Z.leb_spec (blen a + blen b) (blen (a ++ b ++ c))) as [_|Hn]; [|rewrite !blen_app in Hn; lia].
  cbn [andb]. f_equal. unfold blen. replace (Z.to_nat (Z.of_nat (length a))) with (length a) by lia.
  rewrite drop_app_length. replace (Z.to_nat _) with (length b) by lia. by rewrite take_app_length.
Qed.

Section roundtrip.
Context {C : WarmCodec} {CL : WarmCodecLaw}.

Lemma encode_warm_Ok key obj max l :
  encode_warm_record key obj max = Ok (Some l) →
  ∃ header, header_to_vec (capture key obj) = Some header ∧ blen header <= u32_max ∧
    12 + blen header + blen (body obj) <= usize_max ∧ 12 + blen header + blen (body obj) <= max ∧
    l = WARM_MAGIC ++ to_le_bytes 4 (blen header) ++ header ++ body obj.
Proof using.
  unfold encode_warm_record. destruct (header_to_vec _) as [h|]; [|done]. cbn [ok_or mbind result_bind].
  destruct (try_from u32_max (blen h)) as [n|] eqn:En; [|done]. cbn [ok_or mbind result_bind].
  unfold try_from in En. destruct (fits u32_max (blen h)) eqn:Ef; [|done]. injection En as <-.
  apply fits_spec in Ef. unfold checked_add, WARM_PREFIX_LEN. cbn [mbind option_bind].
  destruct (Z.leb_spec (12 + blen h) usize_max); [|done]. cbn [mbind option_bind].
  destruct (Z.leb_spec (12 + blen h + blen (body obj)) usize_max); [|done]. cbn [ok_or mbind result_bind].
  destruct (Z.ltb_spec max (12 + blen h + blen (body obj))); [done|]. intros [= <-]. exists h. split_and!; [done|lia..|done].
Qed.

(** Reading a record whose header is whole: only the length of the tail is left to check. *)
Lemma decode_framed h header tail :
  header_to_vec h = Some header → blen header <= u32_max → 0 <= wh_body_len h < u64_max →
  decode_warm_record (WARM_MAGIC ++ to_le_bytes 4 (blen header) ++ header ++ tail) =
  if blen tail =? wh_body_len h then Ok (finish h tail) else Err "warm record body length mismatch".
Proof using CL.
  intros Hh Hl Hb. unfold decode_warm_record. pose proof (blen_nonneg header) as Hn.
  assert (blen (to_le_bytes 4 (blen header)) = 4) as H4 by (unfold blen at 1; by rewrite length_to_le_bytes).
  assert (∀ R, get_range (WARM_MAGIC ++ R) 0 8 = Some WARM_MAGIC) as ->
    by (intros R; exact (get_range_split [] WARM_MAGIC R 0 8 eq_refl eq_refl)). cbn [default].
  rewrite (bool_decide_eq_true_2 (WARM_MAGIC = WARM_MAGIC)) by done. cbn [negb andb].
  rewrite (get_range_split WARM_MAGIC (to_le_bytes 4 (blen header)) _ 8) by (rewrite ?H4; done). cbn [ok_or mbind result_bind].
  rewrite from_to_le_bytes by (unfold u32_max in Hl; change (256 ^ Z.of_nat 4) with 4294967296; lia).
  unfold checked_add at 1, WARM_PREFIX_LEN. destruct (Z.leb_spec (12 + blen header) usize_max) as [_|Hx];
    [|unfold usize_max, u64_max, u32_max in *; lia]. cbn [mbind option_bind].
  assert (blen (WARM_MAGIC ++ to_le_bytes 4 (blen header) ++ header ++ tail) = 12 + blen header + blen tail) as Hlen.
  { rewrite !blen_app, H4. change (blen WARM_MAGIC) with 8. lia. }
  pose proof (blen_nonneg tail). rewrite Hlen. destruct (Z.leb_spec (12 + blen header) (12 + blen header + blen tail)); [|lia].
  cbn [ok_or mbind result_bind]. rewrite app_assoc.
  rewrite (get_range_split (WARM_MAGIC ++ to_le_bytes 4 (blen header)) header tail 12)
    by (rewrite blen_app, H4; change (blen WARM_MAGIC) with 8; lia). cbn [ok_or mbind result_bind].
  rewrite (warm_codec_law _ _ Hh). cbn [ok_or mbind result_bind].
  assert (drop (Z.to_nat (12 + blen header)) ((WARM_MAGIC ++ to_le_bytes 4 (blen header)) ++ header ++ tail) = tail) as ->.
  { rewrite app_assoc, drop_app_length'; [done|]. rewrite !length_app, length_to_le_bytes. unfold blen. cbn [length WARM_MAGIC]. lia. }
  assert ((default u64_max (try_from u64_max (blen tail)) =? wh_body_len h) = (blen tail =? wh_body_len h)) as ->.
  { unfold try_from. destruct (fits u64_max (blen tail)) eqn:Ef; [done|]. cbn [default].
    assert (u64_max < blen tail). { unfold fits in Ef. destruct (Z.leb_spec 0 (blen tail)), (Z.leb_spec (blen tail) u64_max); done || lia. }
    destruct (Z.eqb_spec u64_max (wh_body_len h)), (Z.eqb_spec (blen tail) (wh_body_len h)); done || lia. }
  destruct (blen tail =? wh_body_len h); done.
Qed.
(** A record that ends before its header does. *)
Lemma decode_cut n cut :
  0 <= n <= u32_max → blen cut < 4 + n → (∃ tail, to_le_bytes 4 n ++ tail = cut) ∨ blen cut < 4 →
  ∃ e, decode_warm_record (WARM_MAGIC ++ cut) = Err e.
Proof using.
  intros Hn Hc Hcut. unfold decode_warm_record.
  assert (get_range (WARM_MAGIC ++ cut) 0 8 = Some WARM_MAGIC) as ->
    by exact (get_range_split [] WARM_MAGIC cut 0 8 eq_refl eq_refl). cbn [default].
  rewrite (bool_decide_eq_true_2 (WARM_MAGIC = WARM_MAGIC)) by done. cbn [negb andb].
  assert (blen (WARM_MAGIC ++ cut) = 8 + blen cut) as Hlen by (rewrite blen_app; done).
  destruct Hcut as [[tail <-]|Hshort].
  - assert (blen (to_le_bytes 4 n) = 4) as H4 by (unfold blen; by rewrite length_to_le_bytes).
    rewrite (get_range_split WARM_MAGIC (to_le_bytes 4 n) tail 8 WARM_PREFIX_LEN) by (rewrite ?H4; done).
    cbn [ok_or mbind result_bind].
    rewrite from_to_le_bytes by (unfold u32_max in Hn; change (256 ^ Z.of_nat 4) with 4294967296; lia).
    unfold checked_add, WARM_PREFIX_LEN. destruct (12 + n <=? usize_max); [|by eexists]. cbn [mbind option_bind].
    rewrite Hlen. destruct (Z.leb_spec (12 + n) (8 + blen (to_le_bytes 4 n ++ tail))); [lia|]. by eexists.
  - unfold get_range, WARM_PREFIX_LEN. rewrite Hlen. destruct (Z.leb_spec 12 (8 + blen cut)); [lia|].
    rewrite andb_false_r. by eexists.
Qed.

(** [C32] A warm record reads back as the object it was written for, in the format's own
    bound and never trusted whatever the stamp of the copy was; a record with bytes
    missing after its magic, or with extra bytes, is refused. *)
Theorem warm_record_roundtrip (key : CKey) (obj : CachedObject) (max : Z) (l : bytes) :
  encode_warm_record key obj max = Ok (Some l) →
  blen l <= max ∧
  decode_warm_record l = Ok (key, mark_trusted obj 0) ∧
  (∀ extra, extra ≠ [] → ∃ e, decode_warm_record (l ++ extra) = Err e) ∧
  (∀ n, (8 <= n < length l)%nat → ∃ e, decode_warm_record (take n l) = Err e).
Proof using CL.
  intros (header & Hh & Hlen & Hus & Hmax & ->)%encode_warm_Ok.
  pose proof (blen_nonneg header) as Hn1. pose proof (blen_nonneg (body obj)) as Hn2.
  assert (wh_body_len (capture key obj) = blen (body obj)) as Hbl.
  { cbn. unfold try_from. destruct (fits u64_max (blen (body obj))) eqn:E; [done|].
    assert (fits u64_max (blen (body obj)) = true) by (apply fits_spec; unfold usize_max in Hus; lia). congruence. }
  assert (blen (to_le_bytes 4 (blen header)) = 4) as H4 by (unfold blen at 1; by rewrite length_to_le_bytes).
  assert (∀ tail, decode_warm_record (WARM_MAGIC ++ to_le_bytes 4 (blen header) ++ header ++ tail) =
    if blen tail =? blen (body obj) then Ok (finish (capture key obj) tail) else Err "warm record body length mismatch") as Hdec.
  { intros tail. rewrite <- Hbl. apply decode_framed; [done|done|]. rewrite Hbl. unfold usize_max in Hus. lia. }
  split_and!.
  - rewrite !blen_app, H4. change (blen WARM_MAGIC) with 8. lia.
  - by rewrite Hdec, Z.eqb_refl.
  - intros extra He. rewrite <- !app_assoc, Hdec, blen_app. destruct (Z.eqb_spec (blen (body obj) + blen extra) (blen (body obj))); [|by eexists].
    destruct extra; [done|]. unfold blen in *. cbn [length] in *. lia.
  - intros n Hn. rewrite take_app_ge by (cbn [length WARM_MAGIC]; lia). change (length WARM_MAGIC) with 8%nat.
    rewrite !length_app, length_to_le_bytes in Hn. change (length WARM_MAGIC) with 8%nat in Hn.
    destruct (decide (n < 12 + length header)%nat) as [Hcut|Hcut].
    + apply (decode_cut (blen header)); [lia|unfold blen in *; rewrite length_take; lia|].
      destruct (decide (n < 12)%nat); [right; unfold blen; rewrite length_take; lia|left].
      rewrite take_app_ge by (rewrite length_to_le_bytes; lia). by eexists.
    + rewrite (take_app_ge (to_le_bytes 4 (blen header))) by (rewrite length_to_le_bytes; lia).
      rewrite length_to_le_bytes, (take_app_ge header) by lia. rewrite Hdec.
      unfold blen. rewrite length_take. case_match eqn:E; [|by eexists]. apply Z.eqb_eq in E. lia.
Qed.
End roundtrip.

(** A codec for the witness: a header is numbered, and the number written in bits. *)
Definition etag_sum (t : ETag) : string + string := match t with Strong r => inl r | Weak r => inr r end.
Definition sum_etag (x : string + string) : ETag := match x with inl r => Strong r | inr r => Weak r end.

Definition header_tuple (h : WarmHeader) :=
  let f := wh_fields h in
  (wh_key h, wh_body_len h, (h_content_length f, h_last_modified f, etag_sum <$> h_e_tag f),
   (h_content_type f, h_accept_ranges f, h_cache_control f), (h_content_disposition f, h_content_encoding f),
   (h_content_language f, map_to_list <$> h_metadata f)).
Definition tuple_header t : WarmHeader :=
  let '(key, len, (cl, lm, et), (ct, ar, cc), (cd, ce), (la, md)) := t in
  mkWarm key len (mkHead cl lm (sum_etag <$> et) ct ar cc cd ce la (list_to_map <$> md)).

Lemma tuple_header_tuple h : tuple_header (header_tuple h) = h.
Proof.
  destruct h as [key len [cl lm et ct ar cc cd ce la md]]. unfold header_tuple, tuple_header. cbn. do 2 f_equal.
  - by destruct et as [[]|].
  - destruct md; cbn; [|done]. by rewrite list_to_map_to_list.
Qed.

Definition demo_warm_codec : WarmCodec := {|
  header_to_vec h := Some (pos_bytes (encode (header_tuple h)));
  header_from_slice l := tuple_header <$> decode (bytes_pos l);
  header_legacy _ := None;
  warm_tuple _ := None;
|}.

Lemma demo_warm_codec_law : @WarmCodecLaw demo_warm_codec.
Proof.
  intros h l [= <-]. cbn [header_from_slice demo_warm_codec]. rewrite bytes_pos_bytes, decode_encode. cbn [fmap option_fmap option_map].
  by rewrite tuple_header_tuple.
Qed.

Definition demo_cached : CachedObject :=
  mkCached [Byte.x68; Byte.x69] (mkHead (Some 2) (Some 0) (Some (Strong "v1")) None None None None None None None) 7.

Lemma warm_record_roundtrip_witness : ∃ l,
  @encode_warm_record demo_warm_codec ("b", "k") demo_cached 4096 = Ok (Some l) ∧
  @decode_warm_record demo_warm_codec l = Ok (("b", "k"), mark_trusted demo_cached 0) ∧
  ∃ e, @decode_warm_record demo_warm_codec (take 20 l) = Err e.
Proof.
  eexists. split; [vm_compute; reflexivity|].
  edestruct (@warm_record_roundtrip demo_warm_codec demo_warm_codec_law ("b", "k") demo_cached 4096)
    as (_ & Hdec & _ & Hcut); [vm_compute; reflexivity|].
  split; [exact Hdec|apply Hcut; vm_compute; lia].
Defined.
