(* ===== verification/TierFence.v ===== *)
(** * Fills, mutations and revalidation of the body cache

    The concurrent half of [src/src/tier.rs], with the revalidation of
    [validated_get] in [src/src/cache/proxy.rs] and the order in which the apply loop
    of [src/src/sync/coherence.rs] uses it, as a step relation.  A process is a task
    between two of its awaits; every interleaving of steps is a run.

    A body is its key and the number of the origin version it holds.  The index is the
    number of the version it last applied for each key.  The hot tier holds shared
    copies ([Arc]s, whose trust stamp is mutable), the warm tier versions: a copy read
    from it is born untrusted.  Tiers may evict at any time. *)

From S2P Require Import Prelude.

Abbreviation CacheKey := (string * string)%type.

(** A registered fill or observation: [FillFence]. *)
Record Fence := mkFence { fn_key : CacheKey; fn_stale : bool; fn_holder : option nat }.
(** A body in memory: [CachedObject] with its trust stamp. *)
Record Copy := mkCopy { cp_key : CacheKey; cp_version : nat; cp_trusted : Z; cp_written : bool }.

(** What a mutation does while it holds the guards of its key: move the index, drop the
    hot copy, or drop every copy. *)
Inductive Round := IndexRound | HotRound | DropRound.

Inductive Proc :=
(** [get_or_fetch_with_commit] ([body]) and [ObservationFence]. *)
| Fetching (k : CacheKey) (g : Z) (f : nat) (body : bool)
| Fetched (k : CacheKey) (g : Z) (f : nat) (body : bool) (u : nat)
| Committing (k : CacheKey) (g : Z) (f : nat) (body : bool) (u : nat)
| Inserting (k : CacheKey) (f o : nat) (u : nat)
| Releasing (k : CacheKey) (f : nat)
(** [fence_key]: the snapshot, the fences still to mark or to lock. *)
| Marking (r : Round) (k : CacheKey) (v : nat) (all todo : list nat)
| Locking (r : Round) (k : CacheKey) (v : nat) (all todo : list nat)
| IndexApplied (k : CacheKey) (v : nat)
(** [lookup] and [validated_get]. *)
| Warmed (k : CacheKey) (u : nat)
| Got (k : CacheKey) (o : nat)
| Proved (k : CacheKey) (o : nat) (g : Z).

Record World := mkWorld {
  origin : gmap CacheKey nat;
  index : gmap CacheKey nat;
  hot : gmap CacheKey nat;
  warm : gmap CacheKey nat;
  copies : gmap nat Copy;
  fences : gmap nat Fence;
  active : gmap CacheKey (list nat);
  gen : Z;
  procs : gmap nat Proc;
  (** The peer writes whose application is finished: the ones acknowledged. *)
  done_ : list (CacheKey * nat);
}.

Definition start : World := mkWorld ∅ ∅ ∅ ∅ ∅ ∅ ∅ 1 ∅ [].

Definition ver (m : gmap CacheKey nat) (k : CacheKey) : nat := default 0%nat (m !! k).
Definition raise_to (m : gmap CacheKey nat) (k : CacheKey) (v : nat) : gmap CacheKey nat := <[k := Nat.max (ver m k) v]> m.

(** Updates of one component. *)
Definition w_origin w x := mkWorld x (index w) (hot w) (warm w) (copies w) (fences w) (active w) (gen w) (procs w) (done_ w).
Definition w_index w x := mkWorld (origin w) x (hot w) (warm w) (copies w) (fences w) (active w) (gen w) (procs w) (done_ w).
Definition w_hot w x := mkWorld (origin w) (index w) x (warm w) (copies w) (fences w) (active w) (gen w) (procs w) (done_ w).
Definition w_warm w x := mkWorld (origin w) (index w) (hot w) x (copies w) (fences w) (active w) (gen w) (procs w) (done_ w).
Definition w_copies w x := mkWorld (origin w) (index w) (hot w) (warm w) x (fences w) (active w) (gen w) (procs w) (done_ w).
Definition w_fences w x := mkWorld (origin w) (index w) (hot w) (warm w) (copies w) x (active w) (gen w) (procs w) (done_ w).
Definition w_active w x := mkWorld (origin w) (index w) (hot w) (warm w) (copies w) (fences w) x (gen w) (procs w) (done_ w).
Definition w_gen w x := mkWorld (origin w) (index w) (hot w) (warm w) (copies w) (fences w) (active w) x (procs w) (done_ w).
Definition w_procs w x := mkWorld (origin w) (index w) (hot w) (warm w) (copies w) (fences w) (active w) (gen w) x (done_ w).
Definition w_done w x := mkWorld (origin w) (index w) (hot w) (warm w) (copies w) (fences w) (active w) (gen w) (procs w) x.

Definition goto w (p : nat) (P : Proc) : World := w_procs w (<[p := P]> (procs w)).
Definition leave w (p : nat) : World := w_procs w (delete p (procs w)).

Definition set_holder (h : option nat) (F : Fence) : Fence := mkFence (fn_key F) (fn_stale F) h.
Definition set_stale (F : Fence) : Fence := mkFence (fn_key F) true (fn_holder F).
Definition release (fs : gmap nat Fence) (S : list nat) : gmap nat Fence := foldr (alter (set_holder None)) fs S.

(** [ActiveFill::drop]. *)
Definition unregister w (k : CacheKey) (f : nat) : World :=
  w_active w (match active w !! k with
              | None => active w
              | Some fs =>
                  let fs := filter (λ g, g ≠ f) fs in
                  if bool_decide (fs = []) then delete k (active w) else <[k := fs]> (active w)
              end).

(** The guard of a fill's commit is dropped and its fence unregistered. *)
Definition finish_fill w (p : nat) (k : CacheKey) (f : nat) : World :=
  leave (unregister (w_fences w (alter (set_holder None) f (fences w))) k f) p.

(** What an answer at [u] may do to the index row: nothing, or move it up. *)
Definition observed (w : World) (k : CacheKey) (u : nat) (i : gmap CacheKey nat) : Prop :=
  i = index w ∨ i = raise_to (index w) k u.

Inductive step (w : World) : World → Prop :=
(** The origin commits another version. *)
| step_origin k : step w (w_origin w (<[k := S (ver (origin w) k)]> (origin w)))
(** [ActiveFill::register]; [g] is a generation sampled before. *)
| step_register p k g f body :
    procs w !! p = None → fences w !! f = None →
    step w (goto (w_active (w_fences w (<[f := mkFence k false None]> (fences w)))
                    (<[k := default [] (active w !! k) ++ [f]]> (active w))) p (Fetching k g f body))
| step_fetch p k g f body :
    procs w !! p = Some (Fetching k g f body) → step w (goto w p (Fetched k g f body (ver (origin w) k)))
| step_fetch_fails p k g f body :
    procs w !! p = Some (Fetching k g f body) → step w (leave (unregister w k f) p)
| step_lock p k g f body u F :
    procs w !! p = Some (Fetched k g f body u) → fences w !! f = Some F → fn_holder F = None →
    step w (goto (w_fences w (<[f := set_holder (Some p) F]> (fences w))) p (Committing k g f body u))
(** Stale, or [can_commit] is false. *)
| step_refuse p k g f body u :
    procs w !! p = Some (Committing k g f body u) → step w (finish_fill w p k f)
| step_observe p k g f u F i :
    procs w !! p = Some (Committing k g f false u) → fences w !! f = Some F → fn_stale F = false →
    observed w k u i → step w (finish_fill (w_index w i) p k f)
| step_commit p k g f u F i o :
    procs w !! p = Some (Committing k g f true u) → fences w !! f = Some F → fn_stale F = false → gen w = g →
    observed w k u i → copies w !! o = None →
    step w (goto (w_index (w_copies w (<[o := mkCopy k u g false]> (copies w))) i) p (Inserting k f o u))
(** Hot and, when the disk accepts it, warm. *)
| step_insert p k f o u (disk : bool) :
    procs w !! p = Some (Inserting k f o u) →
    step w (goto (w_warm (w_hot w (<[k := o]> (hot w))) (if disk then <[k := u]> (warm w) else warm w)) p (Releasing k f))
| step_release p k f : procs w !! p = Some (Releasing k f) → step w (finish_fill w p k f)
(** [fence_key] for a peer's event of version [v], which its origin already holds, or
    for a local invalidation. *)
| step_mutate p r k v :
    procs w !! p = None → r ≠ HotRound → (r = IndexRound → v <= ver (origin w) k)%nat →
    step w (goto w p (Marking r k v (default [] (active w !! k)) (default [] (active w !! k))))
| step_mark p r k v all f todo :
    procs w !! p = Some (Marking r k v all (f :: todo)) →
    step w (goto (w_fences w (alter set_stale f (fences w))) p (Marking r k v all todo))
| step_marked p r k v all :
    procs w !! p = Some (Marking r k v all []) → step w (goto w p (Locking r k v all all))
| step_guard p r k v all f todo F :
    procs w !! p = Some (Locking r k v all (f :: todo)) → fences w !! f = Some F → fn_holder F = None →
    step w (goto (w_fences w (<[f := set_holder (Some p) F]> (fences w))) p (Locking r k v all todo))
(** The apply loop: the index moves under the guards, they drop, then [invalidate_hot]
    takes the guards again. *)
| step_apply p k v all :
    procs w !! p = Some (Locking IndexRound k v all []) →
    step w (goto (w_index (w_fences w (release (fences w) all)) (raise_to (index w) k v)) p (IndexApplied k v))
| step_invalidate_hot p k v :
    procs w !! p = Some (IndexApplied k v) →
    step w (goto w p (Marking HotRound k v (default [] (active w !! k)) (default [] (active w !! k))))
| step_acknowledge p k v all :
    procs w !! p = Some (Locking HotRound k v all []) →
    step w (leave (w_done (w_hot (w_fences w (release (fences w) all)) (delete k (hot w))) ((k, v) :: done_ w)) p)
| step_dropped p k v all :
    procs w !! p = Some (Locking DropRound k v all []) →
    step w (leave (w_warm (w_hot (w_fences w (release (fences w) all)) (delete k (hot w))) (delete k (warm w))) p)
(** [lookup]: a hot hit, or a warm one promoted. *)
| step_hit p k o : procs w !! p = None → hot w !! k = Some o → step w (goto w p (Got k o))
| step_warm p k u : procs w !! p = None → warm w !! k = Some u → step w (goto w p (Warmed k u))
| step_promote p k u o :
    procs w !! p = Some (Warmed k u) → copies w !! o = None →
    step w (goto (w_hot (w_copies w (<[o := mkCopy k u 0 false]> (copies w))) (<[k := o]> (hot w))) p (Got k o))
(** [validated_get]: the index holds the copy's version; the stamp follows. *)
| step_prove p k o c :
    procs w !! p = Some (Got k o) → copies w !! o = Some c → ver (index w) k = cp_version c →
    step w (goto w p (Proved k o (gen w)))
| step_trust p k o g c :
    procs w !! p = Some (Proved k o g) → copies w !! o = Some c →
    step w (leave (w_copies w (<[o := mkCopy (cp_key c) (cp_version c) g (cp_written c)]> (copies w))) p)
| step_read p k o : procs w !! p = Some (Got k o) → step w (leave w p)
(** Evictions, [distrust_all], and the body a write keeps. *)
| step_evict_hot k : step w (w_hot w (delete k (hot w)))
| step_evict_warm k : step w (w_warm w (delete k (warm w)))
| step_distrust : step w (w_gen w (gen w + 1))
| step_write_fill k u g o (disk : bool) :
    copies w !! o = None →
    step w (w_warm (w_hot (w_copies w (<[o := mkCopy k u g true]> (copies w))) (<[k := o]> (hot w)))
              (if disk then <[k := u]> (warm w) else warm w)).

Inductive reachable : World → Prop :=
| reach_start : reachable start
| reach_step w w' : reachable w → step w w' → reachable w'.
