(* ===== verification/TierInv.v ===== *)
(** * No stale fill outlives an acknowledged write

    The invariant of the runs of TierFence, by rule induction, and its consequence: a
    body in the hot tier that a read may serve unchecked holds at least the version of
    every peer write acknowledged for its key. *)

From S2P Require Import Prelude.
From S2P Require Import TierFence.

#[local] Open Scope nat_scope.

Create HintDb tier.

Definition stale_at (w : World) (f : nat) : Prop := ∃ F, fences w !! f = Some F ∧ fn_stale F = true.
Definition held (w : World) (f p : nat) : Prop := ∃ F, fences w !! f = Some F ∧ fn_holder F = Some p.
Definition members (w : World) (k : CacheKey) : list nat := default [] (active w !! k).
Definition registered (w : World) (k : CacheKey) (f : nat) : Prop := is_Some (fences w !! f) ∧ f ∈ members w k.
(** Every acknowledged version of [k] is at most [u]. *)
Definition bounded (w : World) (k : CacheKey) (u : nat) : Prop := ∀ v, (k, v) ∈ done_ w → v <= u.
Definition copy_at (w : World) (o : nat) (k : CacheKey) (u : nat) : Prop :=
  ∃ c, copies w !! o = Some c ∧ cp_key c = k ∧ cp_version c = u.

Definition bounds (w : World) (r : Round) (k : CacheKey) (v : nat) : Prop :=
  match r with
  | IndexRound => v <= ver (origin w) k
  | HotRound => v <= ver (origin w) k ∧ v <= ver (index w) k
  | DropRound => True
  end.

Definition ok (w : World) (p : nat) (P : Proc) : Prop :=
  match P with
  | Fetching k _ f _ => registered w k f
  | Fetched k _ f _ u => registered w k f ∧ (stale_at w f ∨ bounded w k u)
  | Committing k _ f _ u => registered w k f ∧ (stale_at w f ∨ bounded w k u) ∧ held w f p
  | Inserting k f o u => registered w k f ∧ held w f p ∧ bounded w k u ∧ copy_at w o k u
  | Releasing k f => registered w k f ∧ held w f p
  | Marking r k v all todo =>
      (∀ f, f ∈ all → is_Some (fences w !! f)) ∧
      (∃ d, all = d ++ todo ∧ ∀ f, f ∈ d → stale_at w f) ∧ bounds w r k v
  | Locking r k v all todo =>
      (∀ f, f ∈ all → stale_at w f) ∧
      (∃ d, all = d ++ todo ∧ ∀ f, f ∈ d → held w f p) ∧ bounds w r k v
  | IndexApplied k v => bounds w HotRound k v
  | Warmed _ _ => True
  | Got k o => ∃ u, copy_at w o k u
  | Proved k o _ => ∃ u, copy_at w o k u ∧ (hot w !! k = Some o → bounded w k u)
  end.

Definition fence_of (P : Proc) : option nat :=
  match P with
  | Fetching _ _ f _ | Fetched _ _ f _ _ | Committing _ _ f _ _ | Inserting _ f _ _ | Releasing _ f => Some f
  | _ => None
  end.
Definition fill_of (P : Proc) : option (CacheKey * nat * nat) :=
  match P with
  | Fetched k _ f _ u | Committing k _ f _ u | Inserting k f _ u => Some (k, f, u)
  | _ => None
  end.
Definition round_of (P : Proc) : option (CacheKey * nat * list nat) :=
  match P with
  | Marking HotRound k v all _ | Locking HotRound k v all _ => Some (k, v, all)
  | _ => None
  end.

(** Two processes never share a fence, and a hot round has in its snapshot every fill
    whose body is older than the write it applies. *)
Definition apart (P Q : Proc) : Prop :=
  (∀ f, fence_of P = Some f → fence_of Q = Some f → False) ∧
  (∀ k v all f u, round_of P = Some (k, v, all) → fill_of Q = Some (k, f, u) → f ∈ all ∨ v <= u).

Record Inv (w : World) : Prop := {
  inv_gen : (1 <= gen w)%Z;
  inv_ok : ∀ p P, procs w !! p = Some P → ok w p P;
  inv_apart : ∀ p q P Q, p ≠ q → procs w !! p = Some P → procs w !! q = Some Q → apart P Q;
  inv_members : ∀ k f, f ∈ members w k → is_Some (fences w !! f);
  inv_done : ∀ k v, (k, v) ∈ done_ w → v <= ver (origin w) k ∧ v <= ver (index w) k;
  inv_hot : ∀ k o, hot w !! k = Some o → ∃ c, copies w !! o = Some c ∧ cp_key c = k ∧
      (cp_trusted c ≠ 0%Z → cp_written c = false → bounded w k (cp_version c)) }.

(** ** What one process may do to the others *)

Record Frame (p x : option nat) (w w' : World) : Prop := {
  fr_dom : ∀ f, is_Some (fences w !! f) → is_Some (fences w' !! f);
  fr_stale : ∀ f, stale_at w f → stale_at w' f;
  fr_held : ∀ f q, p ≠ Some q → held w f q → held w' f q;
  fr_members : ∀ k f, f ∈ members w k → x ≠ Some f → f ∈ members w' k;
  fr_origin : ∀ k, ver (origin w) k <= ver (origin w') k;
  fr_index : ∀ k, ver (index w) k <= ver (index w') k;
  fr_copies : ∀ o k u, copy_at w o k u → copy_at w' o k u;
  fr_done : done_ w' = done_ w;
  fr_hot : ∀ k o, hot w' !! k = Some o → hot w !! k = Some o ∨ (∀ u, copy_at w o k u → bounded w k u) }.

Lemma copy_at_fun w o k u u' : copy_at w o k u → copy_at w o k u' → u = u'.
Proof. intros (c & H & _ & Hu) (c' & H' & _ & Hu'). congruence. Qed.

Section Framed.
  Context {p x : option nat} {w w' : World} (HF : Frame p x w w').

Lemma frame_registered k f : registered w k f → x ≠ Some f → registered w' k f.
Proof using HF. intros [Hd Hm] Hx. split; [by apply (fr_dom _ _ _ _ HF)|by apply (fr_members _ _ _ _ HF)]. Qed.

Lemma frame_bounded k u : bounded w k u → bounded w' k u.
Proof using HF. intros H v Hv. rewrite (fr_done _ _ _ _ HF) in Hv. by apply H. Qed.

Lemma frame_bounds r k v : bounds w r k v → bounds w' r k v.
Proof using HF.
  pose proof (fr_origin _ _ _ _ HF k). pose proof (fr_index _ _ _ _ HF k).
  destruct r; cbn [bounds]; [lia|lia|done].
Qed.

Lemma frame_proved k o u :
  copy_at w o k u → (hot w !! k = Some o → bounded w k u) → hot w' !! k = Some o → bounded w' k u.
Proof using HF.
  intros Hc Hb [Hh|Hn]%(fr_hot _ _ _ _ HF).
  - by apply frame_bounded, Hb.
  - by apply frame_bounded, Hn.
Qed.

#[local] Hint Resolve frame_registered frame_bounded frame_bounds frame_proved : tier.

Lemma frame_ok q Q : p ≠ Some q → (∀ f, fence_of Q = Some f → x ≠ Some f) → ok w q Q → ok w' q Q.
Proof using HF.
  intros Hq Hx. pose proof (fr_dom _ _ _ _ HF). pose proof (fr_stale _ _ _ _ HF).
  pose proof (fr_held _ _ _ _ HF). pose proof (fr_copies _ _ _ _ HF).
  destruct Q; cbn [ok fence_of] in *; try (specialize (Hx _ eq_refl)).
  - eauto with tier.
  - intros [? [?|?]]; eauto with tier.
  - intros (? & [?|?] & ?); split_and!; eauto with tier.
  - intros (? & ? & ? & ?); split_and!; eauto with tier.
  - intros (? & ?); split_and!; eauto with tier.
  - intros (? & (d & ? & ?) & ?). split; [eauto with tier|]. split; [exists d|]; eauto with tier.
  - intros (? & (d & ? & ?) & ?). split; [eauto with tier|]. split; [exists d|]; eauto with tier.
  - eauto with tier.
  - done.
  - intros (u & ?). exists u; eauto with tier.
  - intros (u & ? & ?). exists u; eauto with tier.
Qed.

(** One process moves, the others stay where they are. *)
Lemma frame_inv :
  Inv w →
  (1 <= gen w')%Z →
  (∀ q, p ≠ Some q → procs w' !! q = procs w !! q) →
  (∀ q Q f, p ≠ Some q → procs w !! q = Some Q → fence_of Q = Some f → x ≠ Some f) →
  (∀ q P, p = Some q → procs w' !! q = Some P →
     ok w' q P ∧ ∀ r R, q ≠ r → procs w !! r = Some R → apart P R ∧ apart R P) →
  (∀ k f, f ∈ members w' k → is_Some (fences w' !! f)) →
  (∀ k o, hot w' !! k = Some o → ∃ c, copies w' !! o = Some c ∧ cp_key c = k ∧
      (cp_trusted c ≠ 0%Z → cp_written c = false → bounded w' k (cp_version c))) →
  Inv w'.
Proof using HF.
  intros [_ Hok Hap _ Hdone _] Hgen Hprocs Hx Hmine Hmem Hhot. split; [done| | |done| |done].
  - intros q Q HQ. destruct (decide (p = Some q)) as [->|Hq]; [by apply (Hmine q Q)|].
    rewrite Hprocs in HQ by done. apply frame_ok; eauto.
  - intros q r Q R Hne HQ HR.
    destruct (decide (p = Some q)) as [->|Hq].
    + rewrite Hprocs in HR by congruence. destruct (Hmine q Q eq_refl HQ) as [_ H]. by apply (H r R).
    + rewrite Hprocs in HQ by done. destruct (decide (p = Some r)) as [->|Hr].
      * destruct (Hmine r R eq_refl HR) as [_ H]. by apply (H q Q).
      * rewrite Hprocs in HR by done. by apply (Hap q r).
  - intros k v Hv. rewrite (fr_done _ _ _ _ HF) in Hv. destruct (Hdone k v Hv).
    pose proof (fr_origin _ _ _ _ HF k). pose proof (fr_index _ _ _ _ HF k). lia.
Qed.

End Framed.

(** ** The changes of one component *)

Lemma ver_insert m k k' v : ver (<[k := v]> m) k' = if decide (k = k') then v else ver m k'.
Proof. unfold ver. case_decide; subst; [by rewrite lookup_insert_eq|by rewrite lookup_insert_ne]. Qed.

Lemma raise_to_le m k v k' : ver m k' <= ver (raise_to m k v) k'.
Proof. unfold raise_to. rewrite ver_insert. case_decide; subst; lia. Qed.

Lemma raise_to_ge m k v : v <= ver (raise_to m k v) k.
Proof. unfold raise_to. rewrite ver_insert, decide_True by done. lia. Qed.

Lemma observed_le w k u i k' : observed w k u i → ver (index w) k' <= ver i k'.
Proof. intros [->| ->]; [lia|apply raise_to_le]. Qed.

(** What an update of the fences keeps, seen by the processes other than [p]. *)
Record FencesKept (p : option nat) (fs fs' : gmap nat Fence) : Prop := {
  fk_stale : ∀ f F, fs !! f = Some F → ∃ F', fs' !! f = Some F' ∧ (fn_stale F = true → fn_stale F' = true) ∧
      (∀ q, p ≠ Some q → fn_holder F = Some q → fn_holder F' = Some q) }.

Lemma fences_kept_refl p fs : FencesKept p fs fs.
Proof. split. eauto. Qed.

Lemma fences_kept_trans p fs fs' fs'' : FencesKept p fs fs' → FencesKept p fs' fs'' → FencesKept p fs fs''.
Proof.
  intros [H] [H']. split. intros f F HF. destruct (H f F HF) as (G & HG & Hs & Hh).
  destruct (H' f G HG) as (G' & HG' & Hs' & Hh'). exists G'. eauto 10.
Qed.

Lemma fences_kept_new p fs f F : fs !! f = None → FencesKept p fs (<[f := F]> fs).
Proof. intros Hf. split. intros g G HG. exists G. rewrite lookup_insert_ne by congruence. eauto. Qed.

Lemma fences_kept_alter p fs f (h : Fence → Fence) :
  (∀ F, fs !! f = Some F → (fn_stale F = true → fn_stale (h F) = true) ∧
     ∀ q, p ≠ Some q → fn_holder F = Some q → fn_holder (h F) = Some q) →
  FencesKept p fs (alter h f fs).
Proof.
  intros Hh. split. intros g G HG. destruct (decide (f = g)) as [->|Hne].
  - exists (h G). rewrite lookup_alter_eq, HG. destruct (Hh G HG). eauto.
  - exists G. rewrite lookup_alter_ne by done. eauto.
Qed.

Lemma fences_kept_stale p fs f : FencesKept p fs (alter set_stale f fs).
Proof. apply fences_kept_alter. eauto. Qed.

Lemma fences_kept_lock p fs f F q : fs !! f = Some F → fn_holder F = None → FencesKept p fs (<[f := set_holder (Some q) F]> fs).
Proof.
  intros Hf Hh. split. intros g G HG. destruct (decide (f = g)) as [->|Hne].
  - exists (set_holder (Some q) F). rewrite lookup_insert_eq. simplify_eq. split_and!; [done..|congruence].
  - exists G. rewrite lookup_insert_ne by done. eauto.
Qed.

Lemma fences_kept_release p fs S :
  (∀ f, f ∈ S → ∃ F, fs !! f = Some F ∧ fn_holder F = Some p) → FencesKept (Some p) fs (release fs S).
Proof.
  intros HS. split. intros g G HG.
  assert (∃ G', release fs S !! g = Some G' ∧ fn_stale G' = fn_stale G ∧
    (fn_holder G' = fn_holder G ∨ g ∈ S)) as (G' & HG' & Hs & Hh).
  { clear HS. induction S as [|f S IH]; cbn [release foldr]; [eauto|].
    destruct IH as (G' & HG' & Hs & Hh). destruct (decide (f = g)) as [->|Hne].
    - exists (set_holder None G'). rewrite lookup_alter_eq. unfold release in HG'. rewrite HG'. split_and!; [done|done|].
      right. left.
    - exists G'. rewrite lookup_alter_ne by done. split_and!; [done..|]. destruct Hh; [by left|right; by right]. }
  exists G'. split; [done|]. split; [congruence|]. intros q Hq Hheld. destruct Hh as [->|Hin]; [done|].
  destruct (HS g Hin) as (F & HF & HFh). simplify_eq.
Qed.

Lemma held_release1 p (fs : gmap nat Fence) f F :
  fs !! f = Some F → fn_holder F = Some p → FencesKept (Some p) fs (alter (set_holder None) f fs).
Proof. intros Hf Hh. apply fences_kept_alter. intros F' HF'. simplify_eq. split; [done|congruence]. Qed.

Lemma frame_of p x w w' :
  FencesKept p (fences w) (fences w') →
  (∀ k f, f ∈ members w k → x ≠ Some f → f ∈ members w' k) →
  (∀ k, ver (origin w) k <= ver (origin w') k) →
  (∀ k, ver (index w) k <= ver (index w') k) →
  (∀ o k u, copy_at w o k u → copy_at w' o k u) →
  done_ w' = done_ w →
  (∀ k o, hot w' !! k = Some o → hot w !! k = Some o ∨ (∀ u, copy_at w o k u → bounded w k u)) →
  Frame p x w w'.
Proof.
  intros [HF] Hm Ho Hi Hc Hd Hh. split; try done.
  - intros f [F Hf]. destruct (HF f F Hf) as (F' & HF' & _). eauto.
  - intros f (F & Hf & Hs). destruct (HF f F Hf) as (F' & HF' & Hs' & _). exists F'. eauto.
  - intros f q Hq (F & Hf & Hs). destruct (HF f F Hf) as (F' & HF' & _ & Hh'). exists F'. eauto.
Qed.

Lemma members_unregister w k f k' :
  members (unregister w k f) k' = if decide (k = k') then filter (λ g, g ≠ f) (members w k') else members w k'.
Proof.
  unfold members, unregister. cbn [active w_active]. case_decide as Hk.
  - subst k'. destruct (active w !! k) as [fs|] eqn:E; [|by rewrite E].
    case_bool_decide as Hn; [rewrite lookup_delete_eq; cbn; by rewrite Hn|by rewrite lookup_insert_eq].
  - destruct (active w !! k) as [fs|] eqn:E; [|done].
    case_bool_decide; [by rewrite lookup_delete_ne|by rewrite lookup_insert_ne].
Qed.

Lemma members_unregister_sub w k f k' g : g ∈ members (unregister w k f) k' → g ∈ members w k'.
Proof. rewrite members_unregister. case_decide; [|done]. rewrite list_elem_of_filter. tauto. Qed.

Lemma members_unregister_keep w k f k' g : g ∈ members w k' → Some f ≠ Some g → g ∈ members (unregister w k f) k'.
Proof. rewrite members_unregister. intros Hg Hne. case_decide; [|done]. rewrite list_elem_of_filter. split; [congruence|done]. Qed.

Lemma copies_fresh w w' o c :
  copies w !! o = None → copies w' = <[o := c]> (copies w) → ∀ o' k u, copy_at w o' k u → copy_at w' o' k u.
Proof. intros Ho E o' k u (c' & Hc' & ?). exists c'. rewrite E, lookup_insert_ne by congruence. done. Qed.

(** [P'] claims no more of the others than [P] did. *)
Definition sub (P' P : Proc) : Prop :=
  (∀ f, fence_of P' = Some f → fence_of P = Some f) ∧ (∀ t, fill_of P' = Some t → fill_of P = Some t) ∧
  (∀ t, round_of P' = Some t → round_of P = Some t).

Lemma sub_apart w p P P' : Inv w → procs w !! p = Some P → sub P' P →
  ∀ r R, p ≠ r → procs w !! r = Some R → apart P' R ∧ apart R P'.
Proof.
  intros HI HP (Hf & Hl & Hr) r R Hne HR.
  destruct (inv_apart _ HI p r P R Hne HP HR) as [A1 A2].
  destruct (inv_apart _ HI r p R P (not_eq_sym Hne) HR HP) as [B1 B2].
  split; split; eauto.
Qed.

Lemma free_apart P' : fence_of P' = None → fill_of P' = None → round_of P' = None → ∀ R, apart P' R ∧ apart R P'.
Proof. intros H1 H2 H3 R. split; split; congruence. Qed.

(** The fence of [p] is nobody else's. *)
Lemma own_fence w p P f : Inv w → procs w !! p = Some P → fence_of P = Some f →
  ∀ q Q g, Some p ≠ Some q → procs w !! q = Some Q → fence_of Q = Some g → Some f ≠ Some g.
Proof.
  intros HI HP Hf q Q g Hne HQ Hg E. simplify_eq.
  destruct (inv_apart _ HI p q P Q) as [A _]; [congruence|done..|]. eauto.
Qed.

(** ** The steps *)

(** The obligations of the process that moved from [P] (if it ran) to [P'] (if it stays). *)
Definition moved (w w' : World) (p : nat) (P' : option Proc) : Prop :=
  procs w' = partial_alter (λ _, P') p (procs w) ∧
  ∀ Q, P' = Some Q → ok w' p Q ∧ ∀ r R, p ≠ r → procs w !! r = Some R → apart Q R ∧ apart R Q.

Lemma moved_inv p x w w' P' :
  Inv w → Frame (Some p) x w w' → gen w' = gen w → moved w w' p P' →
  (∀ f, x = Some f → ∃ P, procs w !! p = Some P ∧ fence_of P = Some f) →
  (∀ k f, f ∈ members w' k → is_Some (fences w' !! f)) →
  (∀ k o, hot w' !! k = Some o → ∃ c, copies w' !! o = Some c ∧ cp_key c = k ∧
      (cp_trusted c ≠ 0%Z → cp_written c = false → bounded w' k (cp_version c))) →
  Inv w'.
Proof.
  intros HI HF Hg [Hprocs Hmine] Hx Hmem Hhot. apply (frame_inv HF); [done| | | | |done|done].
  - rewrite Hg. apply HI.
  - intros q Hq. rewrite Hprocs, lookup_partial_alter_ne by congruence. done.
  - intros q Q f Hq HQ Hf ->. destruct (Hx f eq_refl) as (P & HP & HPf).
    by apply (own_fence w p P f HI HP HPf q Q f Hq HQ Hf).
  - intros q P [= <-] HP. rewrite Hprocs, lookup_partial_alter_eq in HP. by apply Hmine.
Qed.

(** Bodies in memory are untouched, hot entries at most disappear, fences are kept. *)
Lemma quiet_inv p x w w' P' :
  Inv w → FencesKept (Some p) (fences w) (fences w') →
  (∀ k f, f ∈ members w k → x ≠ Some f → f ∈ members w' k) → (∀ k f, f ∈ members w' k → f ∈ members w k) →
  (∀ f, x = Some f → ∃ P, procs w !! p = Some P ∧ fence_of P = Some f) →
  origin w' = origin w → (∀ k, ver (index w) k <= ver (index w') k) →
  copies w' = copies w → done_ w' = done_ w → (∀ k o, hot w' !! k = Some o → hot w !! k = Some o) → gen w' = gen w →
  moved w w' p P' → Inv w'.
Proof.
  intros HI HF Hm1 Hm2 Hx Ho Hi Hc Hd Hh Hg Hmv.
  assert (Frame (Some p) x w w') as HFr.
  { apply frame_of; [done|done|by rewrite Ho|done| |done|eauto]. intros o k u (c & ?). exists c. by rewrite Hc. }
  apply (moved_inv p x w w' P'); [done..| |].
  - intros k f Hf. apply (fr_dom _ _ _ _ HFr), (inv_members _ HI k), Hm2, Hf.
  - intros k o Ho'. destruct (inv_hot _ HI k o (Hh k o Ho')) as (c & Hc' & Hk & Hb).
    exists c. rewrite Hc. split_and!; [done..|]. intros H1 H2. apply (frame_bounded HFr), Hb; done.
Qed.

Lemma moved_goto w w' p P Q :
  Inv w → procs w !! p = Some P → sub Q P → procs w' = procs w → ok w' p Q → moved w (goto w' p Q) p (Some Q).
Proof.
  intros HI HP Hs E Hok. split; [cbn; by rewrite E|]. intros ? [= <-]. split; [destruct Q; exact Hok|].
  by apply (sub_apart w p P Q HI HP Hs).
Qed.

Lemma moved_leave w w' p : procs w' = procs w → moved w (leave w' p) p None.
Proof. intros E. split; [cbn; by rewrite E|done]. Qed.

Lemma moved_enter w w' p Q :
  procs w' = procs w → fence_of Q = None → fill_of Q = None → round_of Q = None → ok w' p Q → moved w (goto w' p Q) p (Some Q).
Proof.
  intros E H1 H2 H3 Hok. split; [cbn; by rewrite E|]. intros ? [= <-]. split; [destruct Q; exact Hok|].
  intros r R _ _. by apply free_apart.
Qed.

Lemma finish_fill_inv w i p P k f :
  Inv w → procs w !! p = Some P → fence_of P = Some f → held w f p → (∀ k', ver (index w) k' <= ver i k') →
  Inv (finish_fill (w_index w i) p k f).
Proof.
  intros HI HP Hf (F & HF & Hh) Hi. apply (quiet_inv p (Some f) w _ None); try done.
  - by apply (held_release1 p _ f F).
  - intros k' g Hg Hne. by apply members_unregister_keep.
  - intros k' g Hg. by apply members_unregister_sub in Hg.
  - intros ? [= <-]. eauto.
Qed.

(** The apply loop acknowledges under the guards, with the hot copy gone. *)
Lemma acknowledge_inv w p k v all :
  Inv w → procs w !! p = Some (Locking HotRound k v all []) → hot w !! k = None → Inv (w_done w ((k, v) :: done_ w)).
Proof.
  intros HI HP Hk. destruct (inv_ok _ HI p _ HP) as (Hst & (d & Hall & Hheld) & Ho & Hix).
  rewrite app_nil_r in Hall. subst d.
  set (w' := w_done w ((k, v) :: done_ w)).
  assert (∀ k' u, bounded w k' u → (k' = k → v <= u) → bounded w' k' u) as Hb.
  { intros k' u Hb Hv v' [E|Hin]%elem_of_cons; [simplify_eq; by apply Hv|by apply Hb]. }
  assert (∀ q Q k' f u, procs w !! q = Some Q → fill_of Q = Some (k', f, u) → k' = k → f ∈ all ∨ v <= u) as Hfill.
  { intros q Q k' f u HQ HQf ->. assert (p ≠ q) by (intros ->; simplify_eq).
    destruct (inv_apart _ HI p q _ Q ltac:(done) HP HQ) as [_ Hr]. by apply (Hr k v all f u). }
  assert (∀ q Q k' f u, procs w !! q = Some Q → fill_of Q = Some (k', f, u) →
    stale_at w f ∨ bounded w k' u → stale_at w' f ∨ bounded w' k' u) as Hfetched.
  { intros q Q k' f u HQ HQf [Hs|Hbd]; [by left|]. destruct (decide (k' = k)) as [->|Hne]; [|right; by apply Hb].
    destruct (Hfill q Q k f u HQ HQf eq_refl) as [Hin|Hle]; [left; by apply Hst|right; by apply Hb]. }
  split; [apply HI| |apply HI|apply HI| |].
  - intros q Q HQ. pose proof (inv_ok _ HI q Q HQ) as Hq. destruct Q as [| | |k' f o u| | | | | | |k' o g]; cbn [ok] in *; try exact Hq.
    + destruct Hq as [Hr Hs]. split; [done|]. by apply (Hfetched q _ _ _ _ HQ eq_refl).
    + destruct Hq as (Hr & Hs & Hh). split_and!; [done| |done]. by apply (Hfetched q _ _ _ _ HQ eq_refl).
    + destruct Hq as (Hr & (F & HF & HFh) & Hbd & Hc). split_and!; [done|by exists F| |done].
      apply Hb; [done|]. intros ->. destruct (Hfill q _ k f u HQ eq_refl eq_refl) as [Hin|]; [|done].
      destruct (Hheld f Hin) as (F' & HF' & HFh'). assert (p = q) by congruence. subst q. cbn in HQ. congruence.
    + destruct Hq as (u & Hc & Hbd). exists u. split; [done|]. intros Hh. apply Hb; [by apply Hbd|].
      intros ->. cbn in Hh. congruence.
  - intros k' v' [E|Hin]%elem_of_cons; [simplify_eq; done|by apply (inv_done _ HI)].
  - intros k' o Hh. destruct (inv_hot _ HI k' o Hh) as (c & Hc & Hck & Hbd). exists c. split_and!; [done..|].
    intros H1 H2. apply Hb; [by apply Hbd|]. intros ->. cbn in Hh. congruence.
Qed.

(** No process moves. *)
Lemma still_inv w w' :
  Inv w → procs w' = procs w → fences w' = fences w → active w' = active w →
  (∀ k, ver (origin w) k <= ver (origin w') k) → index w' = index w →
  copies w' = copies w → done_ w' = done_ w → (∀ k o, hot w' !! k = Some o → hot w !! k = Some o) →
  (gen w <= gen w')%Z → Inv w'.
Proof.
  intros HI Hp Hf Ha Ho Hi Hc Hd Hh Hg.
  assert (Frame None None w w') as HFr.
  { apply frame_of; [rewrite Hf; apply fences_kept_refl|unfold members; by rewrite Ha|done|by rewrite Hi| |done|eauto].
    intros o k u (c & ?). exists c. by rewrite Hc. }
  apply (frame_inv HFr); try done.
  - pose proof (inv_gen _ HI). lia.
  - by rewrite Hp.
  - intros k f. unfold members. rewrite Ha, Hf. apply (inv_members _ HI).
  - intros k o Ho'. destruct (inv_hot _ HI k o (Hh k o Ho')) as (c & Hc' & Hk & Hb).
    exists c. rewrite Hc. split_and!; [done..|]. intros H1 H2. apply (frame_bounded HFr), Hb; done.
Qed.

(** A process moves among states that touch no body. *)
Ltac quiet p :=
  eapply (quiet_inv p None); [done|try apply fences_kept_refl|done|done|done|done|done|done|done|try done|done| ].

Lemma register_inv w p k g f body :
  Inv w → procs w !! p = None → fences w !! f = None →
  Inv (goto (w_active (w_fences w (<[f := mkFence k false None]> (fences w)))
              (<[k := members w k ++ [f]]> (active w))) p (Fetching k g f body)).
Proof.
  intros HI Hp Hf. set (w' := goto _ _ _).
  assert (∀ k' g', g' ∈ members w k' → g' ∈ members w' k') as Hmem.
  { intros k' g' Hg. unfold members, w'. cbn. destruct (decide (k = k')) as [->|].
    - rewrite lookup_insert_eq. apply elem_of_app. by left.
    - by rewrite lookup_insert_ne. }
  assert (Frame (Some p) None w w') as HFr.
  { apply frame_of; [by apply fences_kept_new|eauto|done|done|done|done|eauto]. }
  apply (moved_inv p None w w' (Some (Fetching k g f body))); try done.
  - split; [done|]. intros ? [= <-]. split.
    + split; cbn; [rewrite lookup_insert_eq; eauto|].
      unfold members. cbn. rewrite lookup_insert_eq. apply elem_of_app. right. apply list_elem_of_singleton. done.
    + intros r R Hne HR. assert (fence_of R ≠ Some f) as Hfr.
      { intros HRf. pose proof (inv_ok _ HI r R HR) as Hok.
        assert (is_Some (fences w !! f)) as [? ?]; [|congruence].
        destruct R; simplify_eq/=; first [exact (proj1 Hok)|exact (proj1 (proj1 Hok))]. }
      split; split; [..|intros ????? _ [=]]; cbn; congruence.
  - intros k' g' Hg. destruct (decide (g' = f)) as [->|Hne].
    + cbn. rewrite lookup_insert_eq. eauto.
    + apply (fr_dom _ _ _ _ HFr), (inv_members _ HI k'). revert Hg. unfold members, w'. cbn.
      destruct (decide (k = k')) as [->|]; [|by rewrite lookup_insert_ne].
      rewrite lookup_insert_eq. cbn. rewrite elem_of_app, list_elem_of_singleton. tauto.
  - intros k' o Ho. destruct (inv_hot _ HI k' o Ho) as (c & ?). by exists c.
Qed.

Lemma fetch_inv w p k g f body :
  Inv w → procs w !! p = Some (Fetching k g f body) → Inv (goto w p (Fetched k g f body (ver (origin w) k))).
Proof.
  intros HI HP. quiet p. split; [done|]. intros ? [= <-]. split.
  - split; [apply (inv_ok _ HI _ _ HP)|]. right. intros v Hv. by apply (inv_done _ HI).
  - intros r R Hne HR. destruct (inv_apart _ HI p r _ R Hne HP HR) as [A1 A2].
    destruct (inv_apart _ HI r p R _ (not_eq_sym Hne) HR HP) as [B1 B2].
    split; split; [done|done|done|]. intros k' v all f' u HRr [= <- <- <-]. right.
    pose proof (inv_ok _ HI r R HR) as Hok.
    destruct R as [| | | | |[] ????|[] ????| | | |]; simplify_eq/=; apply Hok.
Qed.

Lemma fetch_fails_inv w p k g f body :
  Inv w → procs w !! p = Some (Fetching k g f body) → Inv (leave (unregister w k f) p).
Proof.
  intros HI HP. apply (quiet_inv p (Some f) w _ None); try done.
  - apply fences_kept_refl.
  - intros k' h Hg Hne. by apply members_unregister_keep.
  - intros k' h Hg. by apply members_unregister_sub in Hg.
  - intros ? [= <-]. eauto.
Qed.

Lemma lock_inv w p k g f body u F :
  Inv w → procs w !! p = Some (Fetched k g f body u) → fences w !! f = Some F → fn_holder F = None →
  Inv (goto (w_fences w (<[f := set_holder (Some p) F]> (fences w))) p (Committing k g f body u)).
Proof.
  intros HI HP HF Hh. quiet p; [by apply fences_kept_lock|].
  eapply moved_goto; [done|done|done|done|].
  destruct (inv_ok _ HI _ _ HP) as [[_ Hr] Hs]. cbn [ok]. split_and!.
  - split; [|done]. cbn. rewrite lookup_insert_eq. eauto.
  - destruct Hs as [(F' & HF' & Hs)|Hb]; [left|by right]. exists (set_holder (Some p) F). cbn.
    rewrite lookup_insert_eq. simplify_eq. done.
  - exists (set_holder (Some p) F). cbn. by rewrite lookup_insert_eq.
Qed.

(** A new body and its place in the hot tier: [Some o] when the step inserts it. *)
Lemma body_frame p w w' o k :
  copies w !! o = None → (∃ c, copies w' = <[o := c]> (copies w)) → fences w' = fences w → active w' = active w →
  origin w' = origin w → (∀ k', ver (index w) k' <= ver (index w') k') → done_ w' = done_ w →
  (hot w' = hot w ∨ hot w' = <[k := o]> (hot w)) → Frame p None w w'.
Proof.
  intros Ho [c Hc] Hf Ha Hor Hi Hd Hh.
  apply frame_of; [rewrite Hf; apply fences_kept_refl|unfold members; by rewrite Ha|by rewrite Hor|done| |done|].
  - by apply (copies_fresh w w' o c).
  - destruct Hh as [Hh|Hh]; rewrite Hh; [eauto|]. intros k' o'. destruct (decide (k = k')) as [->|].
    + rewrite lookup_insert_eq. intros [= <-]. right. intros u (c' & Hc' & _). congruence.
    + rewrite lookup_insert_ne by done. eauto.
Qed.

Lemma body_hot w w' o c k :
  Inv w → copies w !! o = None → copies w' = <[o := c]> (copies w) → done_ w' = done_ w →
  (hot w' = hot w ∨ hot w' = <[k := o]> (hot w) ∧ cp_key c = k ∧ (cp_trusted c = 0%Z ∨ cp_written c = true)) →
  ∀ k o, hot w' !! k = Some o → ∃ c, copies w' !! o = Some c ∧ cp_key c = k ∧
      (cp_trusted c ≠ 0%Z → cp_written c = false → bounded w' k (cp_version c)).
Proof.
  intros HI Ho Hc Hd Hh k' o' Hk'.
  assert (hot w !! k' = Some o' ∨ k = k' ∧ o = o' ∧ cp_key c = k ∧ (cp_trusted c = 0%Z ∨ cp_written c = true)) as [H|H].
  { destruct Hh as [Hh|(Hh & H2)]; rewrite Hh in Hk'; [eauto|]. destruct (decide (k = k')) as [->|].
    - rewrite lookup_insert_eq in Hk'. simplify_eq. eauto.
    - rewrite lookup_insert_ne in Hk' by done. eauto. }
  - destruct (inv_hot _ HI k' o' H) as (c' & Hc' & Hk & Hb). exists c'. rewrite Hc, lookup_insert_ne by congruence.
    unfold bounded. rewrite Hd. done.
  - destruct H as (-> & -> & Hk & Hn). exists c. rewrite Hc, lookup_insert_eq. split_and!; [done..|].
    intros ??. destruct Hn; congruence.
Qed.

Lemma commit_inv w p k g f u F i o :
  Inv w → procs w !! p = Some (Committing k g f true u) → fences w !! f = Some F → fn_stale F = false →
  observed w k u i → copies w !! o = None →
  Inv (goto (w_index (w_copies w (<[o := mkCopy k u g false]> (copies w))) i) p (Inserting k f o u)).
Proof.
  intros HI HP HF Hst Hi Ho. destruct (inv_ok _ HI _ _ HP) as (Hr & Hs & Hh).
  assert (bounded w k u) as Hb.
  { destruct Hs as [(F' & HF' & Hs)|]; [congruence|done]. }
  set (w' := goto _ _ _).
  assert (Frame (Some p) None w w') as HFr.
  { eapply (body_frame _ w w' o k Ho); try done; [by eexists| |by left]. intros k'. by apply (observed_le w k u). }
  apply (moved_inv p None w w' (Some (Inserting k f o u))); try done.
  - eapply moved_goto; [done|done| |done|]; [split_and!; naive_solver|].
    cbn [ok]. split_and!; [exact Hr|exact Hh|exact Hb|].
    exists (mkCopy k u g false). cbn. by rewrite lookup_insert_eq.
  - apply (inv_members _ HI).
  - apply (body_hot w w' o (mkCopy k u g false) k HI Ho); try done. by left.
Qed.

Lemma insert_inv w p k f o u (disk : bool) :
  Inv w → procs w !! p = Some (Inserting k f o u) →
  Inv (goto (w_warm (w_hot w (<[k := o]> (hot w))) (if disk then <[k := u]> (warm w) else warm w)) p (Releasing k f)).
Proof.
  intros HI HP. destruct (inv_ok _ HI _ _ HP) as (Hr & Hh & Hb & Hc). set (w' := goto _ _ _).
  assert (Frame (Some p) None w w') as HFr.
  { apply frame_of; try done; [apply fences_kept_refl|]. intros k' o'. unfold w'. cbn. destruct (decide (k = k')) as [->|].
    - rewrite lookup_insert_eq. intros [= <-]. right. intros u' Hc'. by rewrite <- (copy_at_fun w o k' u u').
    - rewrite lookup_insert_ne by done. eauto. }
  apply (moved_inv p None w w' (Some (Releasing k f))); try done.
  - eapply moved_goto; [done|done| |done|]; [split_and!; naive_solver|]. cbn [ok]. split; [exact Hr|exact Hh].
  - apply (inv_members _ HI).
  - intros k' o'. unfold w'. cbn. destruct (decide (k = k')) as [->|].
    + rewrite lookup_insert_eq. intros [= <-]. destruct Hc as (c & Hc & Hk & Hv). exists c.
      split_and!; [done..|]. intros _ _. rewrite Hv. exact Hb.
    + rewrite lookup_insert_ne by done. apply (inv_hot _ HI).
Qed.

Lemma release_inv w p k f : Inv w → procs w !! p = Some (Releasing k f) → Inv (finish_fill w p k f).
Proof. intros HI HP. destruct (inv_ok _ HI _ _ HP) as [_ Hh]. by apply (finish_fill_inv w (index w) p _ k f HI HP). Qed.

(** Mutations. *)

Lemma mark_inv w p r k v all f todo :
  Inv w → procs w !! p = Some (Marking r k v all (f :: todo)) →
  Inv (goto (w_fences w (alter set_stale f (fences w))) p (Marking r k v all todo)).
Proof.
  intros HI HP. quiet p; [apply fences_kept_stale|].
  pose proof (fences_kept_stale (Some p) (fences w) f) as [HK].
  eapply moved_goto; [done|done|destruct r; done|done|].
  destruct (inv_ok _ HI _ _ HP) as (Hdom & (d & Hall & Hst) & Hbd). cbn [ok]. split_and!; [| |done].
  - intros h Hh. destruct (Hdom h Hh) as [F HF]. destruct (HK h F HF) as (F' & HF' & _). eexists. exact HF'.
  - exists (d ++ [f]). rewrite <- app_assoc. split; [done|]. intros h [Hh|Hh]%elem_of_app.
    + destruct (Hst h Hh) as (F & HF & Hs). destruct (HK h F HF) as (F' & HF' & Hs' & _). exists F'. eauto.
    + apply list_elem_of_singleton in Hh as ->. destruct (Hdom f) as [F HF]; [rewrite Hall; set_solver|].
      exists (set_stale F). cbn. by rewrite lookup_alter_eq, HF.
Qed.

Lemma guard_inv w p r k v all f todo F :
  Inv w → procs w !! p = Some (Locking r k v all (f :: todo)) → fences w !! f = Some F → fn_holder F = None →
  Inv (goto (w_fences w (<[f := set_holder (Some p) F]> (fences w))) p (Locking r k v all todo)).
Proof.
  intros HI HP HF Hn. quiet p; [by apply fences_kept_lock|].
  pose proof (fences_kept_lock None (fences w) f F p HF Hn) as [HK].
  eapply moved_goto; [done|done|destruct r; done|done|].
  destruct (inv_ok _ HI _ _ HP) as (Hst & (d & Hall & Hheld) & Hbd). cbn [ok]. split_and!; [| |done].
  - intros h Hh. destruct (Hst h Hh) as (G & HG & Hs). destruct (HK h G HG) as (F' & HF' & Hs' & _). exists F'. eauto.
  - exists (d ++ [f]). rewrite <- app_assoc. split; [done|]. intros h [Hh|Hh]%elem_of_app.
    + destruct (Hheld h Hh) as (G & HG & Hs). destruct (HK h G HG) as (F' & HF' & _ & Hs'). exists F'.
      split; [done|]. by apply Hs'.
    + apply list_elem_of_singleton in Hh as ->. exists (set_holder (Some p) F). cbn. by rewrite lookup_insert_eq.
Qed.

(** Everything in the snapshot is in this mutation's hands. *)
Lemma all_held w p r k v all :
  Inv w → procs w !! p = Some (Locking r k v all []) → FencesKept (Some p) (fences w) (release (fences w) all).
Proof.
  intros HI HP. destruct (inv_ok _ HI _ _ HP) as (_ & (d & Hall & Hheld) & _).
  rewrite app_nil_r in Hall. subst d. by apply fences_kept_release.
Qed.

Lemma mutate_inv w p r k v :
  Inv w → procs w !! p = None → r ≠ HotRound → (r = IndexRound → v <= ver (origin w) k) →
  Inv (goto w p (Marking r k v (members w k) (members w k))).
Proof.
  intros HI HP Hr Hv. quiet p. apply moved_enter; [done|done|done|by destruct r|]. cbn [ok]. split_and!.
  - apply (inv_members _ HI).
  - exists []. split; [done|]. intros f [] % not_elem_of_nil.
  - destruct r; [by apply Hv|done|done].
Qed.

Lemma marked_inv w p r k v all : Inv w → procs w !! p = Some (Marking r k v all []) → Inv (goto w p (Locking r k v all all)).
Proof.
  intros HI HP. quiet p. eapply moved_goto; [done|done|destruct r; done|done|].
  destruct (inv_ok _ HI _ _ HP) as (_ & (d & Hall & Hst) & Hbd). rewrite app_nil_r in Hall. subst d. cbn [ok].
  split_and!; [done| |done]. exists []. split; [done|]. intros f [] % not_elem_of_nil.
Qed.

Lemma apply_inv w p k v all :
  Inv w → procs w !! p = Some (Locking IndexRound k v all []) →
  Inv (goto (w_index (w_fences w (release (fences w) all)) (raise_to (index w) k v)) p (IndexApplied k v)).
Proof.
  intros HI HP. eapply (quiet_inv p None); try done.
  - by apply (all_held w p IndexRound k v).
  - intros k'. apply raise_to_le.
  - eapply moved_enter; [done..|]. split; [apply (inv_ok _ HI _ _ HP)|apply raise_to_ge].
Qed.

Lemma invalidate_hot_inv w p k v :
  Inv w → procs w !! p = Some (IndexApplied k v) → Inv (goto w p (Marking HotRound k v (members w k) (members w k))).
Proof.
  intros HI HP. quiet p. split; [done|]. intros ? [= <-]. split.
  - cbn [ok]. split_and!; [apply (inv_members _ HI)| |apply (inv_ok _ HI _ _ HP)].
    exists []. split; [done|]. intros f [] % not_elem_of_nil.
  - intros r R Hne HR. split; split; try done. intros k' v' all f u [= <- <- <-] Hf. left.
    pose proof (inv_ok _ HI r R HR) as Hok. destruct R; simplify_eq/=; apply Hok.
Qed.

Lemma dropped_inv w p r k v all x :
  Inv w → procs w !! p = Some (Locking r k v all []) →
  Inv (leave (w_warm (w_hot (w_fences w (release (fences w) all)) (delete k (hot w))) x) p).
Proof.
  intros HI HP. eapply (quiet_inv p None); try done.
  - by apply (all_held w p r k v).
  - intros k' o. cbn. rewrite lookup_delete_Some. tauto.
Qed.

(** Reads. *)

Lemma hot_copy w k o : Inv w → hot w !! k = Some o → ∃ u, copy_at w o k u.
Proof. intros HI Hh. destruct (inv_hot _ HI k o Hh) as (c & Hc & Hk & _). exists (cp_version c), c. done. Qed.

Lemma prove_inv w p k o c g :
  Inv w → procs w !! p = Some (Got k o) → copies w !! o = Some c → ver (index w) k = cp_version c →
  Inv (goto w p (Proved k o g)).
Proof.
  intros HI HP Hc Hv. quiet p. apply moved_enter; [done..|].
  destruct (inv_ok _ HI _ _ HP) as (u & c' & Hc' & Hk & Hu). exists u. split; [by exists c'|].
  intros _ v Hin. destruct (inv_done _ HI k v Hin). assert (c = c') by congruence. subst. lia.
Qed.

Lemma promote_inv w p k u o :
  Inv w → procs w !! p = Some (Warmed k u) → copies w !! o = None →
  Inv (goto (w_hot (w_copies w (<[o := mkCopy k u 0 false]> (copies w))) (<[k := o]> (hot w))) p (Got k o)).
Proof.
  intros HI HP Ho. set (w' := goto _ _ _).
  assert (Frame (Some p) None w w') as HFr.
  { eapply (body_frame _ w w' o k Ho); try done; [by eexists|by right]. }
  apply (moved_inv p None w w' (Some (Got k o))); try done.
  - apply moved_enter; [done..|]. exists u, (mkCopy k u 0 false). cbn. by rewrite lookup_insert_eq.
  - apply (inv_members _ HI).
  - apply (body_hot w w' o (mkCopy k u 0 false) k HI Ho); try done. right. split_and!; [done|done|by left].
Qed.

Lemma trust_inv w p k o g c :
  Inv w → procs w !! p = Some (Proved k o g) → copies w !! o = Some c →
  Inv (leave (w_copies w (<[o := mkCopy (cp_key c) (cp_version c) g (cp_written c)]> (copies w))) p).
Proof.
  intros HI HP Hc. set (w' := leave _ _). destruct (inv_ok _ HI _ _ HP) as (u & (c' & Hc' & Hk & Hu) & Hb).
  assert (c' = c) by congruence. subst c'.
  assert (Frame (Some p) None w w') as HFr.
  { apply frame_of; try done; [apply fences_kept_refl| |eauto]. intros o' k' u' (d & Hd & ? & ?).
    unfold copy_at, w'. cbn. destruct (decide (o = o')) as [->|].
    - rewrite lookup_insert_eq. eexists. split; [done|]. cbn. naive_solver.
    - exists d. rewrite lookup_insert_ne by done. done. }
  apply (moved_inv p None w w' None); try done.
  - apply (inv_members _ HI).
  - intros k' o' Hh. cbn in Hh. destruct (inv_hot _ HI k' o' Hh) as (d & Hd & Hdk & Hdb).
    unfold w'. cbn. destruct (decide (o = o')) as [->|].
    + rewrite lookup_insert_eq. simplify_eq. eexists. split_and!; [done..|]. intros _ _. by apply Hb.
    + exists d. rewrite lookup_insert_ne by done. done.
Qed.

Lemma write_fill_inv w k u g o x :
  Inv w → copies w !! o = None →
  Inv (w_warm (w_hot (w_copies w (<[o := mkCopy k u g true]> (copies w))) (<[k := o]> (hot w))) x).
Proof.
  intros HI Ho. set (w' := w_warm _ _).
  assert (Frame None None w w') as HFr.
  { eapply (body_frame _ w w' o k Ho); try done; [by eexists|by right]. }
  apply (frame_inv HFr); try done; [apply HI|apply (inv_members _ HI)|].
  apply (body_hot w w' o (mkCopy k u g true) k HI Ho); try done. right. split_and!; [done|done|by right].
Qed.

Lemma step_inv w w' : Inv w → step w w' → Inv w'.
Proof.
  intros HI Hs. destruct Hs as
    [k| | | | | p k g f body u HP| p k g f u F i HP HF Hst Hi| | | | | | | | | | p k v all HP| | p k o HP Hh| | | | | p k o HP| k| | | ].
  - apply (still_inv w); try done. intros k'. cbn. rewrite ver_insert. case_decide; subst; lia.
  - by apply register_inv.
  - by apply fetch_inv.
  - by eapply fetch_fails_inv.
  - by apply lock_inv.
  - destruct (inv_ok _ HI _ _ HP) as (_ & _ & Hh). by apply (finish_fill_inv w (index w) p _ k f HI HP).
  - destruct (inv_ok _ HI _ _ HP) as (_ & _ & Hh).
    apply (finish_fill_inv w i p _ k f HI HP); [done..|]. intros k'. by apply (observed_le w k u).
  - by eapply commit_inv.
  - by apply insert_inv.
  - by apply release_inv.
  - by apply mutate_inv.
  - by eapply mark_inv.
  - by apply marked_inv.
  - by eapply guard_inv.
  - by apply apply_inv.
  - by apply invalidate_hot_inv.
  - assert (Inv (w_hot w (delete k (hot w)))) as H1.
    { apply (still_inv w); try done. intros k' o. cbn. rewrite lookup_delete_Some. tauto. }
    apply (acknowledge_inv _ p k v all) in H1; [|done|cbn; by rewrite lookup_delete_eq].
    eapply (dropped_inv _ p HotRound k v all (warm w)) in H1; [|done]. cbn in H1. by rewrite delete_delete_eq in H1.
  - by eapply dropped_inv.
  - quiet p. apply moved_enter; [done..|]. by apply hot_copy.
  - quiet p. by apply moved_enter.
  - by eapply promote_inv.
  - by eapply prove_inv.
  - by eapply trust_inv.
  - quiet p. by apply moved_leave.
  - apply (still_inv w); try done. intros k' o. cbn. rewrite lookup_delete_Some. tauto.
  - by apply (still_inv w).
  - apply (still_inv w); try done. cbn. lia.
  - by apply write_fill_inv.
Qed.

Lemma start_inv : Inv start.
Proof.
  split; cbn; try done.
  - intros k f. unfold members. cbn. rewrite lookup_empty. intros [] % not_elem_of_nil.
  - intros k v [] % not_elem_of_nil.
Qed.

Lemma reachable_inv w : reachable w → Inv w.
Proof. induction 1 as [|w w' _ IH Hs]; [apply start_inv|by apply (step_inv w)]. Qed.

(** [C12] However the fetches, commits, evictions, promotions and revalidations of a node
    interleave with the application of peers' writes: once a write of version [v] is
    acknowledged for a key, a body of that key in the hot tier which a read would serve
    unchecked (its stamp is the current generation) and which an origin read filled is
    of version [v] or newer. A fill that began before the write and returns after the
    acknowledgement is kept out by its fence. *)
Theorem no_stale_fill (w : World) (k : CacheKey) (o : nat) (c : Copy) :
  reachable w → hot w !! k = Some o → copies w !! o = Some c → cp_written c = false → cp_trusted c = gen w →
  ∀ v, (k, v) ∈ done_ w → v <= cp_version c.
Proof.
  intros HI%reachable_inv Hh Hc Hw Ht. destruct (inv_hot _ HI k o Hh) as (c' & Hc' & _ & Hb).
  assert (c' = c) by congruence. subst c'. apply Hb; [|done]. pose proof (inv_gen _ HI). rewrite Ht. lia.
Qed.

(** ** A race *)

Definition demo_key : CacheKey := ("b", "k").

Ltac world := cbv beta iota delta [origin index hot warm copies fences active gen procs done_ start goto leave unregister finish_fill
  w_origin w_index w_hot w_warm w_copies w_fences w_active w_gen w_procs w_done release foldr].
Ltac lookups := world; unfold raise_to, ver; repeat (first [reflexivity|rewrite lookup_empty|rewrite lookup_insert_eq
  |rewrite lookup_insert_ne by done|rewrite lookup_delete_eq|rewrite lookup_delete_ne by done|rewrite lookup_alter_eq
  |rewrite lookup_alter_ne by done]; cbn [fmap option_fmap option_map default set_stale set_holder app fn_key fn_stale fn_holder id]).

Tactic Notation "advance" hyp(R) uconstr(st) :=
  let H := fresh "R" in
  match type of R with
  | reachable ?w => eassert (step w _) as H by (refine st; first [solve [lookups] | discriminate | left; reflexivity | intros _; solve [lookups; lia]])
  end;
  apply (reach_step _ _ R) in H; clear R; rename H into R; revert R; world; intros R.

(** A fill fetches version 0, a peer writes version 1 and its event is applied and
    acknowledged, and only then the fill locks its fence: it is stale, and refused. The
    next fill holds version 1. *)
Lemma demo_race : ∃ w, reachable w ∧ hot w !! demo_key = Some 0 ∧
  copies w !! 0 = Some (mkCopy demo_key 1 1 false) ∧ gen w = 1%Z ∧ done_ w = [(demo_key, 1)].
Proof.
  pose proof reach_start as R.
  advance R (step_register _ 0 demo_key 1 0 true _ _).
  advance R (step_fetch _ 0 demo_key 1 0 true _).
  advance R (step_origin _ demo_key).
  advance R (step_mutate _ 1 IndexRound demo_key 1 _ _ _).
  advance R (step_mark _ 1 IndexRound demo_key 1 [0] 0 [] _).
  advance R (step_marked _ 1 IndexRound demo_key 1 [0] _).
  advance R (step_guard _ 1 IndexRound demo_key 1 [0] 0 [] (mkFence demo_key true None) _ _ _).
  advance R (step_apply _ 1 demo_key 1 [0] _).
  advance R (step_invalidate_hot _ 1 demo_key 1 _).
  advance R (step_mark _ 1 HotRound demo_key 1 [0] 0 [] _).
  advance R (step_marked _ 1 HotRound demo_key 1 [0] _).
  advance R (step_guard _ 1 HotRound demo_key 1 [0] 0 [] (mkFence demo_key true None) _ _ _).
  advance R (step_acknowledge _ 1 demo_key 1 [0] _).
  advance R (step_lock _ 0 demo_key 1 0 true 0 (mkFence demo_key true None) _ _ _).
  advance R (step_refuse _ 0 demo_key 1 0 true 0 _).
  advance R (step_register _ 2 demo_key 1 1 true _ _).
  advance R (step_fetch _ 2 demo_key 1 1 true _).
  advance R (step_lock _ 2 demo_key 1 1 true 1 (mkFence demo_key false None) _ _ _).
  advance R (step_commit _ 2 demo_key 1 1 1 (mkFence demo_key false (Some 2)) _ 0 _ _ _ _
               _ _).
  advance R (step_insert _ 2 demo_key 1 0 1 true _).
  eexists. split; [exact R|]. split_and!; reflexivity.
Qed.

Lemma no_stale_fill_witness : ∃ w, reachable w ∧ hot w !! demo_key = Some 0 ∧ (demo_key, 1) ∈ done_ w ∧
  ∃ c, copies w !! 0 = Some c ∧ cp_trusted c = gen w ∧ ∀ v, (demo_key, v) ∈ done_ w → v <= cp_version c.
Proof.
  destruct demo_race as (w & R & Hh & Hc & Hg & Hd). exists w. split; [exact R|]. split; [exact Hh|].
  split; [rewrite Hd; left|]. exists (mkCopy demo_key 1 1 false). split; [exact Hc|]. split; [by rewrite Hg|].
  apply (no_stale_fill w demo_key 0 (mkCopy demo_key 1 1 false) R Hh Hc); [reflexivity|by rewrite Hg].
Defined.
