(* ===== verification/Proxy.v ===== *)
(** * The request handlers

    The GET and HEAD decision trees of [src/src/cache/proxy.rs] and the write-through
    mutations of [src/src/cache/mutation.rs], as functions of a node's state and of the
    answers it meets: the origin's responses, the clock, and what [groupnet] says about
    leases, freshness and acknowledgements.  A handler here runs without interference;
    the races between its awaits are the subject of [TierFence].  Metrics and logs are
    left out. *)

From S2P Require Import Prelude.
From S2P Require Import ObjTypes.
From S2P Require Import ImageCodec.
From S2P Require Import Rows.
From S2P Require Import IndexCapture.
From S2P Require Import KeyIndex.
From S2P Require Import ListToken.
From S2P Require Import ListIndex.
From S2P Require Import Wire.
From S2P Require Import Coherence.
From S2P Require Import Tier.

(** ** Data *)

(** An S3 error: its status, when there was a response, and its code. *)
Record S3Error := mkS3Error { se_status : option Z; se_code : string }.

(** A read response: the fields a cached copy carries, and the two the proxy reads or sets
    beside them. *)
Record HeadAnswer := mkHeadAnswer {
  ha_fields : HeadObjectOutput;
  ha_storage_class : option string;
  ha_expires : option string;
}.
Record GetAnswer := mkGetAnswer {
  ga_body : option (list Chunk);
  ga_content_range : option string;
  ga_head : HeadAnswer;
}.

Definition local_head (h : HeadObjectOutput) : HeadAnswer := mkHeadAnswer h None None.
Definition local_get (out : GetObjectOutput) : GetAnswer :=
  mkGetAnswer ((λ b, [Ok b]) <$> g_body out) (g_content_range out) (local_head (g_fields out)).

Record ReadInput := mkReadInput {
  ri_bucket : string;
  ri_key : string;
  ri_range : option Range;
  ri_part_number : option Z;
  ri_version_id : option string;
  ri_checksum_mode : option string;
  ri_sse_customer_key : option string;
  ri_expected_bucket_owner : option string;
  ri_if_match : option string;
  ri_if_none_match : option string;
  ri_if_modified_since : option Z;
  ri_if_unmodified_since : option Z;
}.

Definition ckey_of (input : ReadInput) : CKey := (ri_bucket input, ri_key input).

Record ObservedObject := mkObserved {
  ob_size : option Z;
  ob_last_modified : option Z;
  ob_etag : option ETag;
  ob_content_type : option string;
  ob_storage_class : string;
  ob_meta : ObjMeta;
}.

Definition fields_meta (h : HeadObjectOutput) : ObjMeta :=
  mkObjMeta (h_cache_control h) (h_content_disposition h) (h_content_encoding h) (h_content_language h) (h_metadata h).

(** [observed!]. *)
Definition observed (out : HeadAnswer) : ObservedObject :=
  let h := ha_fields out in
  mkObserved (h_content_length h) (h_last_modified h) (h_e_tag h) (h_content_type h)
    (default standard_class (ha_storage_class out)) (fields_meta h).

(** The part of a node the handlers work on. [n_warm] holds what the disk holds: the trust
    stamp is not part of it. *)
Record Node := mkNode {
  n_index : KeyIndexState;
  n_hot : gmap CKey CachedObject;
  n_warm : gmap CKey CachedObject;
  n_gen : Z;
}.
Definition with_index (n : Node) (i : KeyIndexState) : Node := mkNode i (n_hot n) (n_warm n) (n_gen n).
Definition with_hot (n : Node) (h : gmap CKey CachedObject) : Node := mkNode (n_index n) h (n_warm n) (n_gen n).

(** What a read meets beside the node and the origin. *)
Record ReadEnv := mkReadEnv {
  re_gossip : bool;
  re_may_serve_local : bool;
  re_fresh : bool;
  (** The echoed write token, if the request carries one: whether it was reached. *)
  re_token_reached : option bool;
  (** The licence when the answer is about to be returned. *)
  re_gate : bool;
  re_max_obj_bytes : Z;
  (** Whether the disk tier takes a fill. *)
  re_disk : bool;
  re_now : Z;
}.

(** ** The tiers, one caller at a time *)

(** [TieredCache::get]: a warm hit is promoted. *)
Definition tier_get (n : Node) (k : CKey) : option CachedObject * Node :=
  match n_hot n !! k with
  | Some obj => (Some obj, n)
  | None =>
      match n_warm n !! k with
      | Some obj => let obj := mark_trusted obj 0 in (Some obj, with_hot n (<[k := obj]> (n_hot n)))
      | None => (None, n)
      end
  end.

Definition tier_insert (n : Node) (k : CKey) (obj : CachedObject) (disk : bool) : Node :=
  mkNode (n_index n) (<[k := obj]> (n_hot n)) (if disk then <[k := obj]> (n_warm n) else n_warm n) (n_gen n).

Definition tier_invalidate (n : Node) (k : CKey) : Node :=
  mkNode (n_index n) (delete k (n_hot n)) (delete k (n_warm n)) (n_gen n).

(** ** Revalidation *)

Definition BODY_MTIME_SLACK : Z := from_secs 1.

Inductive BodyMatch := Match | MissingIdentity | EtagMismatch | TimestampMismatch.

Definition compare_entry_body (e : ObjEntry) (obj : CachedObject) : BodyMatch :=
  match etag e, h_e_tag (fields obj) with
  | Some indexed, Some cached =>
      match h_last_modified (fields obj) with
      | None => MissingIdentity
      | Some filled_at =>
          let floor := default (last_modified e) (time_checked_sub (last_modified e) BODY_MTIME_SLACK) in
          if negb (bool_decide (indexed = cached)) then EtagMismatch
          else if filled_at <? floor then TimestampMismatch
          else Match
      end
  | _, _ => MissingIdentity
  end.

Definition validated_get (gossip : bool) (n : Node) (k : CKey) : option CachedObject * Node :=
  match tier_get n k with
  | (None, n) => (None, n)
  | (Some obj, n) =>
      if negb gossip then (Some obj, n)
      else if trusted obj (n_gen n) then (Some obj, n)
      else
        let proved :=
          b ← buckets (n_index n) !! k.1;
          if synced b then Some ((λ e, compare_entry_body e obj) <$> Keys.get (keys b) k.2) else None in
        match proved with
        | Some (Some Match) =>
            let obj := mark_trusted obj (n_gen n) in (Some obj, with_hot n (<[k := obj]> (n_hot n)))
        | _ => (None, tier_invalidate n k)
        end
  end.

(** ** Reads of the index *)

Definition key_uncertain (s : KeyIndexState) (bucket key : string) : bool :=
  is_some (b ← buckets s !! bucket; uncertain_keys b !! key).

Definition index_size (s : KeyIndexState) (bucket key : string) : option Z :=
  b ← buckets s !! bucket; e ← Keys.get (keys b) key; size e.

Definition head_from_index (s : KeyIndexState) (bucket key : string) : IndexedHead :=
  head_object_from_index (keys <$> buckets s !! bucket) key.

(** [Local] is [true]. *)
Definition read_barrier (env : ReadEnv) : bool :=
  if negb (re_gossip env) then true
  else re_may_serve_local env && re_fresh env && default true (re_token_reached env).

Definition local_read_gate_now (env : ReadEnv) (n : Node) (body_generation : Z) : bool :=
  (n_gen n =? body_generation) && (negb (re_gossip env) || re_gate env).

Section reads.
Context {L : Layout}.

(** [OffsetDateTime::unix_timestamp]. *)
Definition unix_timestamp (stamp : Z) : Z := stamp / nanos_per_sec.

Definition observe (s : KeyIndexState) (bucket key : string) (o : ObservedObject) (now : Z) : KeyIndexState :=
  let fill := mkEntryFill (ob_size o) (ob_etag o) (ob_content_type o) (ob_meta o) in
  match complete_entry s bucket key fill with
  | (NotIndexed, s) =>
      (apply_observed_put s bucket key
         (mkObjEntry (ob_size o)
            (default now (stamp ← ob_last_modified o; origin_time (unix_timestamp stamp)))
            (ob_etag o) (ob_storage_class o) (ob_content_type o) (Some (ob_meta o)))).2
  | (_, s) => s
  end.

Definition index_size_only (s : KeyIndexState) (bucket key : string) (sz now : Z) : KeyIndexState :=
  (apply_observed_put s bucket key (mkObjEntry (Some sz) (wire_stamp now) None standard_class None None)).2.

(** [get_or_fetch_with_commit] with [validated_get] as its validation: two probes, then the
    fetch, committed when [can_commit] still holds. *)
Definition probe (gossip : bool) (n : Node) (k : CKey) : option CachedObject * Node :=
  match tier_get n k with
  | (None, n) => (None, n)
  | (Some _, n) => validated_get gossip n k
  end.

Definition get_or_fetch {E} (env : ReadEnv) (n : Node) (k : CKey) (generation : Z)
    (fetch : result E (CachedObject * ObservedObject)) : result E CachedObject * Node :=
  match probe (re_gossip env) n k with
  | (Some obj, n) => (Ok obj, n)
  | (None, n) =>
      match probe (re_gossip env) n k with
      | (Some obj, n) => (Ok obj, n)
      | (None, n) =>
          match fetch with
          | Err e => (Err e, n)
          | Ok (obj, o) =>
              let can_commit := (n_gen n =? generation) && (negb (re_gossip env) || re_may_serve_local env)
                                && negb (key_uncertain (n_index n) k.1 k.2) in
              if can_commit
              then
                let obj := mark_trusted obj generation in
                let n := with_index n (observe (n_index n) k.1 k.2 o (re_now env)) in
                (Ok obj, tier_insert n k obj (re_disk env))
              else (Ok obj, n)
          end
      end
  end.

(** ** GET *)

Definition fits_cap (env : ReadEnv) (len : Z) : bool := (0 <=? len) && (len <=? re_max_obj_bytes env).

Inductive WholeGetFillError := FillOrigin (e : S3Error) | Uncacheable (resp : GetAnswer).

(** The fill's future: the origin's answer, buffered. *)
Definition whole_fetch (env : ReadEnv) (answer : result S3Error GetAnswer)
    : result WholeGetFillError (CachedObject * ObservedObject) :=
  match answer with
  | Err e => Err (FillOrigin e)
  | Ok resp =>
      if negb (fits_cap env (default (-1) (h_content_length (ha_fields (ga_head resp))))) then Err (Uncacheable resp)
      else
        match ga_body resp with
        | None => Err (Uncacheable resp)
        | Some blob =>
            match buffer_body blob (re_max_obj_bytes env) with
            | None => Err (FillOrigin (mkS3Error (Some 500) "InternalError"))
            | Some bytes =>
                Ok (from_get (mkGet None (ga_content_range resp) (ha_fields (ga_head resp))) bytes, observed (ga_head resp))
            end
        end
  end.

Definition fill_whole_get (env : ReadEnv) (origin : ReadInput → result S3Error GetAnswer) (n : Node)
    (req : ReadInput) (read_fence : Z) : result S3Error GetAnswer * Node :=
  let generation := n_gen n in
  match get_or_fetch env n (ckey_of req) generation (whole_fetch env (origin req)) with
  | (Ok filled, n) =>
      (if local_read_gate_now env n read_fence then Ok (local_get (to_get filled)) else origin req, n)
  | (Err (FillOrigin e), n) => (Err e, n)
  | (Err (Uncacheable resp), n) => (Ok resp, n)
  end.

(** The error texts of [promote_range] that it reads back: [Oversize] carries the declared
    length. *)
Inductive PromoteError := PromoteOrigin (e : S3Error) | Oversize (declared : Z).

Definition without_range (req : ReadInput) : ReadInput :=
  mkReadInput (ri_bucket req) (ri_key req) None (ri_part_number req) (ri_version_id req) (ri_checksum_mode req)
    (ri_sse_customer_key req) (ri_expected_bucket_owner req) (ri_if_match req) (ri_if_none_match req)
    (ri_if_modified_since req) (ri_if_unmodified_since req).

Definition promote_fetch (env : ReadEnv) (answer : result S3Error GetAnswer)
    : result PromoteError (CachedObject * ObservedObject) :=
  match answer with
  | Err e => Err (PromoteOrigin e)
  | Ok resp =>
      let declared := default (-1) (h_content_length (ha_fields (ga_head resp))) in
      if negb (fits_cap env declared) then Err (Oversize declared)
      else
        match (match ga_body resp with None => Some [] | Some blob => buffer_body blob (re_max_obj_bytes env) end) with
        | None => Err (Oversize declared)
        | Some bytes =>
            Ok (from_get (mkGet None (ga_content_range resp) (ha_fields (ga_head resp))) bytes, observed (ga_head resp))
        end
  end.

(** [None]: the caller streams the range through. The outer [None] is a panic. *)
Definition promote_range (env : ReadEnv) (origin : ReadInput → result S3Error GetAnswer) (n : Node)
    (req : ReadInput) (first : Z) (last : option Z) : option (option GetAnswer * Node) :=
  match get_or_fetch env n (ckey_of req) (n_gen n) (promote_fetch env (origin (without_range req))) with
  | (Ok obj, n) =>
      match to_get_range obj first last with
      | None => None
      | Some None => Some (None, n)
      | Some (Some out) => Some (Some (local_get out), n)
      end
  | (Err e, n) =>
      Some (None, match e with
                  | Oversize sz =>
                      if 0 <=? sz then with_index n (index_size_only (n_index n) (ri_bucket req) (ri_key req) sz (re_now env))
                      else n
                  | PromoteOrigin _ => n
                  end)
  end.

Definition read_origin_only (req : ReadInput) : bool :=
  is_some (ri_version_id req) || is_some (ri_checksum_mode req) || is_some (ri_sse_customer_key req)
  || is_some (ri_expected_bucket_owner req).

Definition read_unconditional (req : ReadInput) : bool :=
  negb (read_origin_only req) && is_none (ri_part_number req) && is_none (ri_if_match req)
  && is_none (ri_if_none_match req) && is_none (ri_if_modified_since req) && is_none (ri_if_unmodified_since req).

(** Past the cached slice: promote a small object, or stream through. *)
Definition serve_range_miss (env : ReadEnv) (origin : ReadInput → result S3Error GetAnswer) (n : Node)
    (req : ReadInput) (range : CachedRange) (local_ok : bool) (read_fence : Z) : option (result S3Error GetAnswer * Node) :=
  let small := is_some_and (fits_cap env) (index_size (n_index n) (ri_bucket req) (ri_key req)) in
  match range with
  | CInt first last =>
      if local_ok && small then
        '(resp, n) ← promote_range env origin n req first last;
        match resp with
        | Some resp => Some (if local_read_gate_now env n read_fence then Ok resp else origin req, n)
        | None => Some (origin req, n)
        end
      else Some (origin req, n)
  | CSuffix _ => Some (origin req, n)
  end.

(** Past the cached body: forward, or fill. *)
Definition serve_whole_miss (env : ReadEnv) (origin : ReadInput → result S3Error GetAnswer) (n : Node)
    (req : ReadInput) (cacheable local_ok : bool) (read_fence : Z) : result S3Error GetAnswer * Node :=
  if negb cacheable || negb local_ok then (origin req, n)
  else
    let known_oversized :=
      is_some_and (λ sz, (0 <=? sz) && (re_max_obj_bytes env <? sz)) (index_size (n_index n) (ri_bucket req) (ri_key req)) in
    if known_oversized then (origin req, n) else fill_whole_get env origin n req read_fence.

Definition serve_get (env : ReadEnv) (origin : ReadInput → result S3Error GetAnswer) (n : Node) (req : ReadInput)
    : option (result S3Error GetAnswer * Node) :=
  let read_fence := n_gen n in
  let unconditional := read_unconditional req in
  let cacheable := unconditional && is_none (ri_range req) in
  let k := ckey_of req in
  let cached_range := from_request unconditional (ri_range req) in
  let local_ok :=
    if cacheable || is_some cached_range then negb (key_uncertain (n_index n) k.1 k.2) && read_barrier env else true in
  match cached_range with
  | Some range =>
      let '(hit, n) := if local_ok then validated_get (re_gossip env) n k else (None, n) in
      sliced ← match hit with Some obj => slice range obj | None => Some None end;
      match sliced with
      | Some out =>
          if local_read_gate_now env n read_fence then Some (Ok (local_get out), n)
          else serve_range_miss env origin n req range local_ok read_fence
      | None => serve_range_miss env origin n req range local_ok read_fence
      end
  | None =>
      let '(hit, n) := if local_ok && cacheable then validated_get (re_gossip env) n k else (None, n) in
      match hit with
      | Some obj =>
          if local_read_gate_now env n read_fence then Some (Ok (local_get (to_get obj)), n)
          else Some (serve_whole_miss env origin n req cacheable local_ok read_fence)
      | None => Some (serve_whole_miss env origin n req cacheable local_ok read_fence)
      end
  end.

(** ** HEAD *)

Definition head_eligible (req : ReadInput) : bool :=
  is_none (ri_range req) && is_none (ri_part_number req) && is_none (ri_version_id req)
  && is_none (ri_checksum_mode req) && is_none (ri_sse_customer_key req) && is_none (ri_expected_bucket_owner req)
  && is_none (ri_if_match req) && is_none (ri_if_none_match req) && is_none (ri_if_modified_since req)
  && is_none (ri_if_unmodified_since req).

(** The forwarded HEAD, folded into the index when it is a plain one. *)
Definition head_forward (env : ReadEnv) (origin : ReadInput → result S3Error HeadAnswer) (n : Node) (req : ReadInput)
    : result S3Error HeadAnswer * Node :=
  match origin req with
  | Err e => (Err e, n)
  | Ok resp =>
      (Ok resp,
       if head_eligible req
       then with_index n (observe (n_index n) (ri_bucket req) (ri_key req) (observed resp) (re_now env)) else n)
  end.

Definition head_indexed (env : ReadEnv) (origin : ReadInput → result S3Error HeadAnswer) (n : Node) (req : ReadInput)
    (read_fence : Z) : result S3Error HeadAnswer * Node :=
  if is_synced (n_index n) (ri_bucket req) && local_read_gate_now env n read_fence then
    match head_from_index (n_index n) (ri_bucket req) (ri_key req) with
    | Faithful out => (Ok (local_head out), n)
    | ObjTypes.Absent => if negb (re_gossip env) then (Err (mkS3Error (Some 404) "NoSuchKey"), n) else head_forward env origin n req
    | ObjTypes.Incomplete => head_forward env origin n req
    end
  else head_forward env origin n req.

Definition serve_head (env : ReadEnv) (origin : ReadInput → result S3Error HeadAnswer) (n : Node) (req : ReadInput)
    : result S3Error HeadAnswer * Node :=
  let read_fence := n_gen n in
  let k := ckey_of req in
  if head_eligible req && negb (key_uncertain (n_index n) k.1 k.2) && read_barrier env then
    let '(hit, n) := validated_get (re_gossip env) n k in
    match hit with
    | Some obj =>
        if local_read_gate_now env n read_fence then (Ok (local_head (to_head obj)), n)
        else head_indexed env origin n req read_fence
    | None => head_indexed env origin n req read_fence
    end
  else head_forward env origin n req.
End reads.

(** ** Response overrides *)

Record ResponseOverrides := mkOverrides {
  ro_content_type : option string;
  ro_content_disposition : option string;
  ro_content_encoding : option string;
  ro_content_language : option string;
  ro_cache_control : option string;
  ro_expires : option string;
}.

Definition or_else {A} (o d : option A) : option A := match o with Some _ => o | None => d end.

Definition apply_overrides (o : ResponseOverrides) (a : HeadAnswer) : HeadAnswer :=
  let h := ha_fields a in
  mkHeadAnswer
    (mkHead (h_content_length h) (h_last_modified h) (h_e_tag h) (or_else (ro_content_type o) (h_content_type h))
       (h_accept_ranges h) (or_else (ro_cache_control o) (h_cache_control h))
       (or_else (ro_content_disposition o) (h_content_disposition h))
       (or_else (ro_content_encoding o) (h_content_encoding h))
       (or_else (ro_content_language o) (h_content_language h)) (h_metadata h))
    (ha_storage_class a) (or_else (ro_expires o) (ha_expires a)).

(** [req] is the request with the overrides lifted off. *)
Definition get_object `{Layout} (env : ReadEnv) (origin : ReadInput → result S3Error GetAnswer) (n : Node)
    (overrides : ResponseOverrides) (req : ReadInput) : option (result S3Error GetAnswer * Node) :=
  '(resp, n) ← serve_get env origin n req;
  Some (out ← resp; Ok (mkGetAnswer (ga_body out) (ga_content_range out) (apply_overrides overrides (ga_head out))), n).

Definition head_object `{Layout} (env : ReadEnv) (origin : ReadInput → result S3Error HeadAnswer) (n : Node)
    (overrides : ResponseOverrides) (req : ReadInput) : result S3Error HeadAnswer * Node :=
  let '(resp, n) := serve_head env origin n req in
  (out ← resp; Ok (apply_overrides overrides out), n).
