(* ===== verification/Mutation.v ===== *)
(** * The write-through mutations

    [src/src/cache/mutation.rs] with the write half of [src/src/cache/proxy.rs]: forward a
    mutation, then bring the index, the body tiers and the peers in line with what the
    origin did.  As in [Proxy], a handler runs without interference and the answers it
    meets are arguments.  A mutation task that panics is not modelled, and neither is the
    drain of a planned stop beyond the refusal it causes. *)

From S2P Require Import Prelude.
From S2P Require Import ObjTypes.
From S2P Require Import ImageCodec.
From S2P Require Import Rows.
From S2P Require Import IndexCapture.
From S2P Require Import KeyIndex.
From S2P Require Import Wire.
From S2P Require Import Coherence.
From S2P Require Import Tier.
From S2P Require Import Proxy.

(** ** Failures *)

Definition uncertain_mutation_error (e : S3Error) (locally_vouched : bool) : option string :=
  match se_status e with
  | Some status =>
      if (status =? 412) && locally_vouched then Some "origin rejected a locally-vouched precondition"
      else if ((500 <=? status) && (status <? 600)) || (status =? 408) then Some "origin returned an ambiguous server failure"
      else None
  | None => Some "origin response was unavailable"
  end.

Definition uncertain_completion_error (e : S3Error) : option string :=
  match uncertain_mutation_error e false with
  | Some reason => Some reason
  | None =>
      if bool_decide (se_code e = "NoSuchUpload")
      then Some "the upload is gone; an earlier attempt may have completed it" else None
  end.

Definition copy_conflict_needs_reconcile (e : S3Error) (create_only : bool) : bool :=
  create_only && bool_decide (se_status e = Some 412).

(** ** Requests and answers *)

Inductive ETagCondition := CondAny | CondETag (e : ETag).

Record PutInput := mkPutInput {
  pi_bucket : string;
  pi_key : string;
  pi_body : option (list Chunk);
  pi_content_length : option Z;
  pi_content_type : option string;
  pi_cache_control : option string;
  pi_content_disposition : option string;
  pi_content_encoding : option string;
  pi_content_language : option string;
  pi_metadata : option Metadata;
  pi_storage_class : option string;
  pi_sse_customer_algorithm : option string;
  pi_sse_customer_key : option string;
  pi_sse_customer_key_md5 : option string;
  pi_write_offset_bytes : option Z;
  pi_object_lock_mode : option string;
  pi_object_lock_retain_until_date : option string;
  pi_object_lock_legal_hold_status : option string;
  pi_tagging : option string;
  pi_website_redirect_location : option string;
  pi_expires : option string;
  pi_if_match : option ETagCondition;
  pi_if_none_match : option ETagCondition;
}.

Definition with_body (p : PutInput) (b : option (list Chunk)) : PutInput :=
  mkPutInput (pi_bucket p) (pi_key p) b (pi_content_length p) (pi_content_type p) (pi_cache_control p)
    (pi_content_disposition p) (pi_content_encoding p) (pi_content_language p) (pi_metadata p) (pi_storage_class p)
    (pi_sse_customer_algorithm p) (pi_sse_customer_key p) (pi_sse_customer_key_md5 p) (pi_write_offset_bytes p)
    (pi_object_lock_mode p) (pi_object_lock_retain_until_date p) (pi_object_lock_legal_hold_status p) (pi_tagging p)
    (pi_website_redirect_location p) (pi_expires p) (pi_if_match p) (pi_if_none_match p).

(** The gossip side a write meets: its node, the feed after it assigned this write's
    position, the read licence, and the outcome of the cluster-wide wait. *)
Record Sync := mkSync { sy_me : string; sy_feed : Feed; sy_may_serve_local : bool; sy_ack : bool }.

Record WriteEnv := mkWriteEnv {
  we_sync : option Sync;
  (** Mutations are still admitted. *)
  we_admitted : bool;
  we_max_obj_bytes : Z;
  we_disk : bool;
  (** The clock when the copy is described, and when the write is recorded. *)
  we_now_body : Z;
  we_now : Z;
}.

Definition may_serve (env : WriteEnv) : bool := is_none_or sy_may_serve_local (we_sync env).

Definition put_origin_only (p : PutInput) : bool :=
  is_some (pi_sse_customer_algorithm p) || is_some (pi_sse_customer_key p) || is_some (pi_sse_customer_key_md5 p)
  || is_some (pi_write_offset_bytes p) || is_some (pi_storage_class p) || is_some (pi_object_lock_mode p)
  || is_some (pi_object_lock_retain_until_date p) || is_some (pi_object_lock_legal_hold_status p)
  || is_some (pi_tagging p) || is_some (pi_website_redirect_location p) || is_some (pi_expires p).

Definition write_storage_class (requested : option string) : string := default standard_class requested.

(** The body kept for a fill, and the request that is forwarded. *)
Definition buffered_put_body (max : Z) (p : PutInput) : option bytes * PutInput :=
  if is_none (pi_content_type p) || put_origin_only p then (None, p)
  else if is_some_and (λ len, (len <? 0) || (max <? len)) (pi_content_length p) then (None, p)
  else
    match pi_body p with
    | None => (Some [], p)
    | Some body =>
        match buffer_or_forward body max with
        | Whole b => (Some b, with_body p (Some [Ok b]))
        | Streamed rest => (None, with_body p (Some rest))
        end
    end.

Definition written_object (content_type : option string) (e_tag : ETag) (meta : ObjMeta) (len now : Z)
    : GetObjectOutput :=
  mkGet None None
    (mkHead (Some (default i64_max (try_from i64_max len))) (Some now) (Some e_tag) content_type (Some "bytes")
       (cache_control meta) (content_disposition meta) (content_encoding meta) (content_language meta) (metadata meta)).

(** The index vouches for every condition on the request. *)
Definition condition_holds (entry : option ObjEntry) (if_match if_none_match : option ETagCondition) : bool :=
  (match if_match with
   | None => true
   | Some CondAny => is_some entry
   | Some (CondETag expected) => bool_decide ((entry ≫= etag) = Some expected)
   end)
  && match if_none_match with
     | None => true
     | Some CondAny => is_none entry
     | Some (CondETag expected) =>
         match entry with
         | None => true
         | Some e => is_some_and (λ t, negb (bool_decide (t = expected))) (etag e)
         end
     end.

Definition locally_vouches_for_put (env : WriteEnv) (s : KeyIndexState) (p : PutInput) : bool :=
  if is_none (pi_if_match p) && is_none (pi_if_none_match p) then false
  else if negb (may_serve env) then false
  else
    match buckets s !! pi_bucket p with
    | Some b =>
        if negb (synced b) || is_some (uncertain_keys b !! pi_key p) then false
        else condition_holds (Keys.get (keys b) (pi_key p)) (pi_if_match p) (pi_if_none_match p)
    | None => false
    end.

(** ASCII lower case. *)
Definition lower_char (c : Ascii.ascii) : Ascii.ascii :=
  let n := Ascii.nat_of_ascii c in
  if (65 <=? n)%nat && (n <=? 90)%nat then Ascii.ascii_of_nat (n + 32) else c.
Fixpoint to_ascii_lowercase (s : string) : string :=
  match s with EmptyString => EmptyString | String c s => String (lower_char c) (to_ascii_lowercase s) end.
Definition lower_metadata (m : Metadata) : Metadata :=
  list_to_map ((λ '(k, v), (to_ascii_lowercase k, v)) <$> map_to_list m).

Definition put_meta (p : PutInput) : ObjMeta :=
  mkObjMeta (pi_cache_control p) (pi_content_disposition p) (pi_content_encoding p) (pi_content_language p)
    (lower_metadata <$> pi_metadata p).

(** The row a put is recorded with, before it is stamped. *)
Definition put_entry (p : PutInput) (e_tag : option ETag) : ObjEntry :=
  mkObjEntry (pi_content_length p) UNIX_EPOCH e_tag (write_storage_class (pi_storage_class p)) (pi_content_type p)
    (if is_some (pi_content_type p) then Some (put_meta p) else None).

Section writes.
Context {L : Layout} {P : EtagParse}.

(** ** Recording

    A receipt is the session token of an advertised write. [None] is the panic of an
    exhausted token space. *)

Definition receipt_of (sy : Sync) : string :=
  token_header (sy_me sy) (fd_epoch (sy_feed sy)) (match fd_last (sy_feed sy) with Some t => tk_seq t | None => 0 end).

Definition announce_unknown (sync : option Sync) (n : Node) (bucket key : string) (now : Z)
    : option (option string * Node) :=
  match sync with
  | None =>
      '(_, s) ← fence_uncertain_key (n_index n) bucket key;
      Some (None, tier_invalidate (with_index n s) (bucket, key))
  | Some sy =>
      '(_, _, s) ← index_unknown (sy_me sy) (sy_feed sy) (n_index n) bucket key now;
      Some (Some (receipt_of sy), tier_invalidate (with_index n s) (bucket, key))
  end.

Definition await_cluster (sync : option Sync) (receipt : option string) : result S3Error (option string) :=
  match sync, receipt with
  | Some sy, Some header => if sy_ack sy then Ok (Some header) else Err (mkS3Error (Some 503) "ServiceUnavailable")
  | _, _ => Ok None
  end.

(** The wait on a path that already answers an error adds nothing to it. *)
Definition publish_unknown (sync : option Sync) (n : Node) (bucket key : string) (now : Z) : option Node :=
  '(_, n) ← announce_unknown sync n bucket key now; Some n.

Definition record_put (sync : option Sync) (n : Node) (bucket key : string) (entry : ObjEntry) (now : Z)
    : option (result S3Error (option string) * Node) :=
  if is_none (etag entry) && is_none (size entry) then
    '(receipt, n) ← announce_unknown sync n bucket key now;
    Some (await_cluster sync receipt, n)
  else
    let entry := mkObjEntry (size entry) (wire_stamp now) (etag entry) (storage_class entry) (content_type entry) (meta entry) in
    match sync with
    | None => Some (Ok None, with_index n (apply_put (n_index n) bucket key entry).2)
    | Some sy =>
        let '(_, _, s) := index_put (sy_me sy) (sy_feed sy) (n_index n) bucket key entry in
        Some (await_cluster sync (Some (receipt_of sy)), with_index n s)
    end.

Definition record_del (sync : option Sync) (n : Node) (bucket key : string) (now : Z) : option string * Node :=
  let ts := wire_stamp now in
  match sync with
  | None => (None, with_index n (apply_del (n_index n) bucket key ts).2)
  | Some sy =>
      let '(_, s) := index_del (sy_me sy) (sy_feed sy) (n_index n) bucket key ts in
      (Some (receipt_of sy), with_index n s)
  end.

Definition stopping : S3Error := mkS3Error (Some 503) "ServiceUnavailable".

(** A failed mutation: fence the key when the failure does not prove it was refused. *)
Definition mutation_failed {A} (sync : option Sync) (n : Node) (bucket key : string) (now : Z)
    (reason : option string) (e : S3Error) : option (result S3Error A * Node) :=
  match reason with
  | Some _ => n ← publish_unknown sync n bucket key now; Some (Err e, n)
  | None => Some (Err e, n)
  end.

(** ** Put *)

(** The answer: the origin's tag, and the session token attached to the response. *)
Definition put_object (env : WriteEnv) (origin : PutInput → result S3Error (option ETag)) (n : Node) (input : PutInput)
    : option (result S3Error (option ETag * option string) * Node) :=
  let k := (pi_bucket input, pi_key input) in
  let generation := n_gen n in
  let '(written, forwarded) :=
    if may_serve env then buffered_put_body (we_max_obj_bytes env) input else (None, input) in
  let locally_vouched := locally_vouches_for_put env (n_index n) input in
  let n := tier_invalidate n k in
  if negb (we_admitted env) then Some (Err stopping, n)
  else
    match origin forwarded with
    | Err e => mutation_failed (we_sync env) n (pi_bucket input) (pi_key input) (we_now env)
                 (uncertain_mutation_error e locally_vouched) e
    | Ok e_tag =>
        let entry := put_entry input e_tag in
        let n := tier_invalidate n k in
        let n :=
          match written, etag entry with
          | Some body, Some tag =>
              let out := written_object (pi_content_type input) tag (put_meta input) (blen body) (we_now_body env) in
              tier_insert n k (mark_trusted (from_get out body) generation) (we_disk env)
          | _, _ => n
          end in
        '(token, n) ← record_put (we_sync env) n (pi_bucket input) (pi_key input) entry (we_now env);
        Some (t ← token; Ok (e_tag, t), n)
    end.

(** ** Deletes *)

Definition delete_object (env : WriteEnv) (origin : result S3Error unit) (n : Node) (bucket key : string) (versioned : bool)
    : option (result S3Error (option string) * Node) :=
  if negb (we_admitted env) then Some (Err stopping, n)
  else
    match origin with
    | Err e => mutation_failed (we_sync env) n bucket key (we_now env) (uncertain_mutation_error e false) e
    | Ok _ =>
        let n := tier_invalidate n (bucket, key) in
        '(receipt, n) ←
          (if versioned then announce_unknown (we_sync env) n bucket key (we_now env)
           else Some (record_del (we_sync env) n bucket key (we_now env)));
        Some (await_cluster (we_sync env) receipt, n)
    end.

(** What [DeleteObjects] answers: the keys it reports refused and deleted. *)
Record BatchAnswer := mkBatchAnswer { ba_errors : list string; ba_deleted : list string }.

(** Each key of a batch has its own feed position and clock reading. *)
Fixpoint delete_each (quiet : bool) (answer : BatchAnswer) (n : Node) (bucket : string)
    (requested : list (string * bool * option Sync * Z)) (receipt : option string) : option (option string * Node) :=
  match requested with
  | [] => Some (receipt, n)
  | (key, versioned, sync, now) :: rest =>
      let applied :=
        if quiet then negb (bool_decide (key ∈ ba_errors answer)) else bool_decide (key ∈ ba_deleted answer) in
      if negb applied then delete_each quiet answer n bucket rest receipt
      else
        let n := tier_invalidate n (bucket, key) in
        '(published, n) ←
          (if (versioned : bool) then announce_unknown sync n bucket key now else Some (record_del sync n bucket key now));
        delete_each quiet answer n bucket rest (or_else published receipt)
  end.

Fixpoint announce_each (n : Node) (bucket : string) (requested : list (string * bool * option Sync * Z)) : option Node :=
  match requested with
  | [] => Some n
  | (key, _, sync, now) :: rest =>
      '(_, n) ← announce_unknown sync n bucket key now;
      announce_each n bucket rest
  end.

Definition delete_objects (env : WriteEnv) (origin : result S3Error BatchAnswer) (n : Node) (bucket : string) (quiet : bool)
    (requested : list (string * bool * option Sync * Z)) : option (result S3Error (option string) * Node) :=
  if negb (we_admitted env) then Some (Err stopping, n)
  else
    match origin with
    | Err e =>
        match uncertain_mutation_error e false with
        | Some _ => n ← announce_each n bucket requested; Some (Err e, n)
        | None => Some (Err e, n)
        end
    | Ok answer =>
        '(receipt, n) ← delete_each quiet answer n bucket requested None;
        Some (await_cluster (we_sync env) receipt, n)
    end.

(** ** Multipart completion and copy *)

(** A HEAD through the SDK client: the raw tag, and the time in seconds and nanoseconds. *)
Record SdkHead := mkSdkHead {
  sh_content_length : option Z;
  sh_last_modified : option (Z * Z);
  sh_e_tag : option string;
  sh_storage_class : option string;
  sh_content_type : option string;
  sh_meta : ObjMeta;
}.

Definition sdk_observed (h : SdkHead) : ObservedObject :=
  mkObserved (sh_content_length h)
    (stamp ← sh_last_modified h; secs ← try_from u64_max stamp.1; Some (UNIX_EPOCH + from_secs secs + stamp.2))
    (sh_e_tag h ≫= etag_parse) (sh_content_type h) (default standard_class (sh_storage_class h)) (sh_meta h).

(** One HEAD, retried once. *)
Definition upstream_meta (first second : option SdkHead) : option ObservedObject :=
  match first with Some h => Some (sdk_observed h) | None => sdk_observed <$> second end.

Definition observed_entry (o : option ObservedObject) : ObjEntry :=
  match o with
  | None => mkObjEntry None UNIX_EPOCH None standard_class None None
  | Some o => mkObjEntry (ob_size o) UNIX_EPOCH (ob_etag o) (ob_storage_class o) (ob_content_type o) (Some (ob_meta o))
  end.

(** Only an answer about the object this mutation made. *)
Definition of_this (tag : option ETag) (o : option ObservedObject) : option ObservedObject :=
  o ← o; if is_none tag || bool_decide (ob_etag o = tag) then Some o else None.

Definition with_etag (e : ObjEntry) (tag : option ETag) : ObjEntry :=
  mkObjEntry (size e) (last_modified e) (or_else tag (etag e)) (storage_class e) (content_type e) (meta e).

Definition complete_multipart_upload (env : WriteEnv) (origin : result S3Error (option ETag))
    (heads : option SdkHead * option SdkHead) (n : Node) (bucket key : string)
    : option (result S3Error (option ETag * option string) * Node) :=
  if negb (we_admitted env) then Some (Err stopping, n)
  else
    match origin with
    | Err e => mutation_failed (we_sync env) n bucket key (we_now env) (uncertain_completion_error e) e
    | Ok completed =>
        let n := tier_invalidate n (bucket, key) in
        let o := of_this completed (upstream_meta heads.1 heads.2) in
        '(token, n) ← record_put (we_sync env) n bucket key (with_etag (observed_entry o) completed) (we_now env);
        Some (t ← token; Ok (completed, t), n)
    end.

(** [CopySource]: a plain bucket and key, or a form the index does not answer. *)
Inductive CopySource := SourceBucket (bucket key : string) (version_id : option string) | SourceOther.

Definition indexed_source_size (s : KeyIndexState) (source : CopySource) (copied_etag : ETag) : option Z :=
  match source with
  | SourceBucket bucket key None =>
      b ← buckets s !! bucket;
      if negb (synced b) || is_some (uncertain_keys b !! key) then None
      else
        e ← Keys.get (keys b) key;
        if bool_decide (etag e = Some copied_etag) then size e else None
  | _ => None
  end.

Definition copy_entry (s : KeyIndexState) (source : CopySource) (storage_class : string) (copied_etag : option ETag)
    (heads : option SdkHead * option SdkHead) : ObjEntry :=
  match copied_etag ≫= indexed_source_size s source with
  | Some sz => mkObjEntry (Some sz) UNIX_EPOCH copied_etag storage_class None None
  | None => observed_entry (of_this copied_etag (upstream_meta heads.1 heads.2))
  end.

Definition copy_object (env : WriteEnv) (origin : result S3Error (option ETag)) (heads : option SdkHead * option SdkHead)
    (n : Node) (bucket key : string) (source : CopySource) (requested_class : option string) (create_only : bool)
    : option (result S3Error (option ETag * option string) * Node) :=
  let n := tier_invalidate n (bucket, key) in
  if negb (we_admitted env) then Some (Err stopping, n)
  else
    match origin with
    | Err e =>
        if copy_conflict_needs_reconcile e create_only then
          Some (Err e,
                match upstream_meta heads.1 heads.2 with
                | Some o => with_index n (observe (n_index n) bucket key o (we_now env))
                | None => n
                end)
        else mutation_failed (we_sync env) n bucket key (we_now env) (uncertain_mutation_error e false) e
    | Ok copied_etag =>
        let n := tier_invalidate n (bucket, key) in
        let entry := copy_entry (n_index n) source (write_storage_class requested_class) copied_etag heads in
        '(token, n) ← record_put (we_sync env) n bucket key (with_etag entry copied_etag) (we_now env);
        Some (t ← token; Ok (copied_etag, t), n)
    end.

(** ** Reconciliation *)

Definition SYNC_RETRY_MIN : Z := from_secs 1.
Definition SYNC_RETRY_MAX : Z := from_secs 60.

Definition authoritative_head_entry (h : SdkHead) (now : Z) : ObjEntry :=
  mkObjEntry (sh_content_length h) (default now (stamp ← sh_last_modified h; origin_time stamp.1))
    (sh_e_tag h ≫= etag_parse) (default standard_class (sh_storage_class h)) (sh_content_type h) (Some (sh_meta h)).

Inductive HeadReply := HeadFound (h : SdkHead) | HeadNotFound | HeadFailed.

(** One turn of [spawn_key_reconcile]'s loop: [Some] is the next backoff, [None] the end
    of the task. *)
Definition reconcile_turn (s : KeyIndexState) (bucket key : string) (token backoff : Z) (reply : HeadReply) (now : Z)
    : option Z * KeyIndexState :=
  if negb (uncertain_key_is_current s bucket key token) then (None, s)
  else
    match reply with
    | HeadFound h => (None, (resolve_uncertain_key s bucket key token (Present (authoritative_head_entry h now)) now).2)
    | HeadNotFound => (None, (resolve_uncertain_key s bucket key token KeyAbsent now).2)
    | HeadFailed => (Some (Z.min (backoff * 2) SYNC_RETRY_MAX), s)
    end.

(** [delete_bucket]. *)
Definition delete_bucket (origin : result S3Error unit) (n : Node) (bucket : string) : result S3Error unit * Node :=
  match origin with
  | Err e => (Err e, n)
  | Ok _ => (Ok tt, with_index n (remove_bucket (n_index n) bucket))
  end.
End writes.
