(* ===== verification/ProxyView.v ===== *)
(** * The index as the request handlers see it

    For one key: its row, its tombstone and its fence; for a bucket: whether it is synced.
    What each index operation of the handlers does to that view, when its stamp is newer
    than everything the index holds. *)

From S2P Require Import Prelude.
From S2P Require Import ObjTypes.
From S2P Require Import ImageCodec.
From S2P Require Import Rows.
From S2P Require Import IndexCapture.
From S2P Require Import KeyIndex.
From S2P Require Import IndexWf.
From S2P Require Import IndexSteps.
From S2P Require Import IndexInv.
From S2P Require Import IndexMachine.
From S2P Require Import IndexLww.
From S2P Require Import IndexRebuild.

Definition row (s : KeyIndexState) (bk k : string) : option ObjEntry := kr_map (keys (bucket_or_default s bk)) !! k.
Definition dead_at (s : KeyIndexState) (bk k : string) : option Z := gr_map (gone (bucket_or_default s bk)) !! k.
Definition fenced (s : KeyIndexState) (bk k : string) : option Z := uncertain_keys (bucket_or_default s bk) !! k.
Definition synced_at (s : KeyIndexState) (bk : string) : bool := synced (bucket_or_default s bk).

(** [s'] differs from [s] at one key only, tombstones that were swept apart. *)
Record only_at (s s' : KeyIndexState) (bk k : string) : Prop := {
  oa_row : ∀ bk' k', (bk', k') ≠ (bk, k) → row s' bk' k' = row s bk' k';
  oa_fence : ∀ bk' k', (bk', k') ≠ (bk, k) → fenced s' bk' k' = fenced s bk' k';
  oa_dead : ∀ bk' k' t, (bk', k') ≠ (bk, k) → dead_at s' bk' k' = Some t → dead_at s bk' k' = Some t;
  oa_synced : ∀ bk', synced_at s' bk' = synced_at s bk' }.

Lemma only_at_refl s bk k : only_at s s bk k.
Proof. by split. Qed.

Lemma only_at_trans s s' s'' bk k : only_at s s' bk k → only_at s' s'' bk k → only_at s s'' bk k.
Proof.
  intros [R F D S] [R' F' D' S']. split.
  - intros. by rewrite R', R.
  - intros. by rewrite F', F.
  - intros bk' k' t Hne Ht. by apply D, D'.
  - intros. by rewrite S', S.
Qed.

(** An update of one bucket. *)
Lemma only_at_bucket s s' bk k b' :
  (∀ name, bucket_or_default s' name = if decide (bk = name) then b' else bucket_or_default s name) →
  let b := bucket_or_default s bk in
  (∀ k', k' ≠ k → kr_map (keys b') !! k' = kr_map (keys b) !! k') →
  (∀ k', k' ≠ k → uncertain_keys b' !! k' = uncertain_keys b !! k') →
  (∀ k' t, k' ≠ k → gr_map (gone b') !! k' = Some t → gr_map (gone b) !! k' = Some t) →
  synced b' = synced b →
  only_at s s' bk k.
Proof.
  intros Hb b Hr Hf Hd Hs. split; unfold row, fenced, dead_at, synced_at.
  - intros bk' k' Hne. rewrite Hb. case_decide; [subst bk'; apply Hr; congruence|done].
  - intros bk' k' Hne. rewrite Hb. case_decide; [subst bk'; apply Hf; congruence|done].
  - intros bk' k' t Hne. rewrite Hb. case_decide; [subst bk'; apply Hd; congruence|done].
  - intros bk'. rewrite Hb. case_decide; [by subst bk'|done].
Qed.

Section view.
Context {L : Layout}.

Lemma put_bucket_synced b key e a : synced (put_bucket b key e a) = synced b.
Proof.
  unfold put_bucket. destruct (inserted_rest (put_base b key a) key e) as (_ & H & _).
  assert (synced (put_base b key a) = synced b) by (unfold put_base; by destruct (_ && _)).
  destruct (definitive a); [|congruence].
  match goal with |- context [touch ?x key] => destruct (touch_rest x key) as (_ & _ & _ & -> & _) end.
  cbn. congruence.
Qed.

Lemma put_bucket_dead b key e a k t : gr_map (gone (put_bucket b key e a)) !! k = Some t → gr_map (gone b) !! k = Some t.
Proof.
  rewrite put_bucket_gone. unfold put_base. destruct (_ && _); [|done]. cbn.
  rewrite gone_remove_map, lookup_delete_Some. tauto.
Qed.

(** A put of either authority, accepted or not. *)
Lemma put_view s bk k e a :
  let s' := (apply_put_with_authority s bk k e a None).2 in
  only_at s s' bk k ∧
  (∀ t, dead_at s' bk k = Some t → dead_at s bk k = Some t) ∧
  if put_rejects (bucket_or_default s bk) k e a
  then row s' bk k = row s bk k ∧ fenced s' bk k = fenced s bk k
  else row s' bk k = Some e ∧ fenced s' bk k = if definitive a then None else fenced s bk k.
Proof.
  cbn zeta. destruct (put_outcome_spec s bk k e a None) as [Hd|Hf Hr|Hf Hr]; [done|..]; cbn [snd].
  - rewrite Hr. split; [|split].
    + eapply only_at_bucket; [intros name; by autorewrite with bod|done..].
    + unfold dead_at. autorewrite with bod. by rewrite decide_True.
    + unfold row, fenced. autorewrite with bod. by rewrite decide_True.
  - rewrite Hr. pose proof (put_bucket_fences (bucket_or_default s bk) k e a) as [Hu _]. split; [|split].
    + eapply only_at_bucket; [intros name; by autorewrite with bod|..].
      * intros k' Hne. by rewrite put_bucket_map, lookup_insert_ne.
      * intros k' Hne. rewrite Hu. destruct (definitive a); [by rewrite lookup_delete_ne|done].
      * intros k' t Hne. apply put_bucket_dead.
      * apply put_bucket_synced.
    + unfold dead_at. autorewrite with bod. rewrite decide_True by done. intros t. apply put_bucket_dead.
    + unfold row, fenced. autorewrite with bod. rewrite decide_True by done.
      rewrite put_bucket_map, lookup_insert_eq, Hu. split; [done|]. destruct (definitive a); [by rewrite lookup_delete_eq|done].
Qed.

(** A definitive put newer than its key. *)
Lemma fresh_put_view s bk k e :
  (∀ o, row s bk k = Some o → last_modified o <= last_modified e) →
  (∀ t, dead_at s bk k = Some t → t < last_modified e) →
  let s' := (apply_put s bk k e).2 in
  only_at s s' bk k ∧ (∀ t, dead_at s' bk k = Some t → dead_at s bk k = Some t) ∧
  row s' bk k = Some e ∧ fenced s' bk k = None.
Proof.
  intros Hr Hd. destruct (put_view s bk k e DefinitiveMutation) as (H1 & H2 & H3).
  assert (put_rejects (bucket_or_default s bk) k e DefinitiveMutation = false) as Hn; [|by rewrite Hn in H3].
  unfold put_rejects, Gone.get, Keys.get. cbn [definitive andb negb]. rewrite orb_false_r.
  apply orb_false_iff. split; apply andb_false_iff; right.
  - unfold dead_at in Hd. destruct (gr_map _ !! k) as [t|]; cbn; [|done]. apply Z.leb_gt. by apply Hd.
  - unfold row in Hr. destruct (kr_map _ !! k) as [o|]; cbn; [|done]. apply Z.ltb_ge. by apply Hr.
Qed.

Lemma observed_put_view s bk k e :
  let s' := (apply_observed_put s bk k e).2 in
  only_at s s' bk k ∧ (∀ t, dead_at s' bk k = Some t → dead_at s bk k = Some t) ∧
  (row s' bk k = row s bk k ∨ row s' bk k = Some e) ∧ fenced s' bk k = fenced s bk k.
Proof.
  destruct (put_view s bk k e Observation) as (H1 & H2 & H3). cbn zeta. split; [done|]. split; [done|].
  destruct (put_rejects _ _ _ _); cbn [definitive] in H3; tauto.
Qed.

Ltac settle Hmain :=
  lazymatch goal with |- only_at _ ?s1 _ _ ∧ _ =>
    let H1 := fresh in let H2 := fresh in let H3 := fresh in let H4 := fresh in
    edestruct (Hmain s1) as (H1 & H2 & H3 & H4); [intros name; by autorewrite with bod|done..|];
    split; [exact H1|]; split; [exact H2|]; split; [exact H3|]; split; [exact H4|]
  end.

Lemma complete_view s bk k fill :
  let s' := (complete_entry s bk k fill).2 in
  only_at s s' bk k ∧ dead_at s' bk k = dead_at s bk k ∧ fenced s' bk k = fenced s bk k ∧
  (row s' bk k = row s bk k ∨
   ∃ e, row s bk k = Some e ∧ same_version e fill = true ∧ row s' bk k = Some (filled_entry fill e)) ∧
  ((complete_entry s bk k fill).1 = NotIndexed → row s bk k = None).
Proof.
  cbn zeta. rewrite complete_spec. unfold row, dead_at, fenced.
  destruct (buckets s !! bk) as [b|] eqn:Eb; cbn [fst snd].
  2:{ split; [apply only_at_refl|]. split_and!; [done|done|by left|]. intros _. unfold bucket_or_default. by rewrite Eb. }
  assert (Hb : bucket_or_default s bk = b) by (unfold bucket_or_default; by rewrite Eb).
  pose proof (completed_map b k fill) as Hm.
  assert (∀ s1 b1, (∀ name, bucket_or_default s1 name = if decide (bk = name) then b1 else bucket_or_default s name) →
    kr_map (keys b1) = kr_map (Keys.update (keys b) k (fill_entry fill)).2 → gone b1 = gone b →
    uncertain_keys b1 = uncertain_keys b → synced b1 = synced b →
    only_at s s1 bk k ∧ gr_map (gone (bucket_or_default s1 bk)) !! k = gr_map (gone (bucket_or_default s bk)) !! k ∧
    uncertain_keys (bucket_or_default s1 bk) !! k = uncertain_keys (bucket_or_default s bk) !! k ∧
    (kr_map (keys (bucket_or_default s1 bk)) !! k = kr_map (keys (bucket_or_default s bk)) !! k ∨
     ∃ e, kr_map (keys (bucket_or_default s bk)) !! k = Some e ∧ same_version e fill = true ∧
       kr_map (keys (bucket_or_default s1 bk)) !! k = Some (filled_entry fill e))) as Hmain.
  { intros s1 b1 H1 Hk Hg Hu Hs. rewrite H1, decide_True, Hb, Hk, Hm, Hg, Hu by done. split_and!; [|done|done|].
    - eapply only_at_bucket; [exact H1|..]; rewrite Hb.
      + intros k' Hne. rewrite Hk, Hm. destruct (kr_map (keys b) !! k); [by rewrite lookup_insert_ne|done].
      + by rewrite Hu.
      + by rewrite Hg.
      + done.
    - destruct (kr_map (keys b) !! k) as [e|] eqn:Ee; [|left; done]. rewrite lookup_insert_eq.
      destruct (same_version e fill) eqn:Ev; [right; by exists e|by left]. }
  destruct (kr_map (keys b) !! k) as [e|] eqn:Ee; [|cbn [fst snd]; settle Hmain; by rewrite Hb].
  destruct (same_version e fill); [destruct (bool_decide _)|]; cbn [fst snd]; settle Hmain; done.
Qed.

Lemma del_swept_dead b c ts sw k t : gr_map (gone (del_swept b c ts sw)) !! k = Some t → gr_map (gone b) !! k = Some t.
Proof. unfold del_swept. repeat case_match; try done. cbn. apply sweep_subset. Qed.

Lemma del_bucket_synced b key ts : synced (del_bucket b key ts) = synced b.
Proof.
  unfold del_bucket.
  match goal with |- context [row_removed ?x key] => destruct (row_removed_rest x key) as (_ & -> & _) end.
  match goal with |- context [touch ?x key] => destruct (touch_rest x key) as (_ & _ & _ & -> & _) end.
  cbn. by destruct (del_marked_rest b key ts) as (_ & _ & -> & _).
Qed.

(** A delete newer than its key. *)
Lemma fresh_del_view s bk k ts :
  (∀ o, row s bk k = Some o → last_modified o <= ts) →
  (∀ t, dead_at s bk k = Some t → t <= ts) →
  let s' := (apply_del s bk k ts).2 in
  only_at s s' bk k ∧ (∀ t, dead_at s' bk k = Some t → t <= ts) ∧ row s' bk k = None ∧ fenced s' bk k = None.
Proof.
  intros Hr Hd. cbn zeta. unfold apply_del.
  destruct (del_outcome_spec s bk k ts None Run) as [Hx|b Hb Hf Hst|b Hb Hf Hst]; [done|..]; cbn [snd].
  - exfalso. revert Hst. unfold del_stale, Keys.get, Gone.get. rewrite andb_true_iff, orb_true_iff. intros [_ [H|H]].
    + destruct (del_swept_rest (bucket_or_default s bk) (capture (prepared s bk None)) ts Run) as (Hk & _).
      rewrite <- Hb in Hk. rewrite Hk in H. unfold row in Hr.
      destruct (kr_map _ !! k) as [o|]; cbn in H; [|done]. apply Z.ltb_lt in H. specialize (Hr o eq_refl). lia.
    + destruct (gr_map (gone b) !! k) as [t|] eqn:E; cbn in H; [|done]. apply Z.ltb_lt in H.
      rewrite Hb in E. apply del_swept_dead, Hd in E. lia.
  - pose proof (del_bucket_fences b k ts) as [Hu _].
    destruct (del_swept_rest (bucket_or_default s bk) (capture (prepared s bk None)) ts Run)
      as (Hk & _ & Hs & _ & _ & _ & _ & Hun). rewrite <- Hb in Hk, Hs, Hun.
    assert (∀ k' t, gr_map (gone b) !! k' = Some t → gr_map (gone (bucket_or_default s bk)) !! k' = Some t) as Hg.
    { intros k' t. rewrite Hb. apply del_swept_dead. }
    split; [|split; [|split]].
    + eapply only_at_bucket; [intros name; by autorewrite with bod|..].
      * intros k' Hne. by rewrite del_bucket_map, Hk, lookup_delete_ne.
      * intros k' Hne. by rewrite Hu, Hun, lookup_delete_ne.
      * intros k' t Hne. rewrite del_bucket_gone, del_marked_map, lookup_insert_ne by done. apply Hg.
      * by rewrite del_bucket_synced.
    + unfold dead_at. autorewrite with bod. rewrite decide_True, del_bucket_gone, del_marked_map, lookup_insert_eq by done.
      intros t [= <-]. destruct (first_rebuild b k); [done|].
      destruct (gr_map (gone b) !! k) as [d|] eqn:E; [|done]. apply Hg, Hd in E. lia.
    + unfold row. autorewrite with bod. by rewrite decide_True, del_bucket_map, lookup_delete_eq.
    + unfold fenced. autorewrite with bod. by rewrite decide_True, Hu, lookup_delete_eq.
Qed.

Lemma fence_view s bk k token s' :
  fence_key s bk k = Some (token, s') →
  only_at s s' bk k ∧ row s' bk k = row s bk k ∧ dead_at s' bk k = dead_at s bk k ∧ fenced s' bk k = Some token.
Proof.
  intros (-> & _ & ->)%fence_key_spec. unfold row, dead_at, fenced, invalidate_capture_for_rebuild. split_and!.
  - eapply only_at_bucket; [intros name; by autorewrite with bod|..]; [done| |done|done].
    intros k' Hne. cbn. by rewrite lookup_insert_ne.
  - autorewrite with bod. by rewrite decide_True.
  - autorewrite with bod. by rewrite decide_True.
  - autorewrite with bod. rewrite decide_True by done. cbn. by rewrite lookup_insert_eq.
Qed.

Lemma resolved_dead b key a now k t :
  gr_map (gone (resolved b key a now)) !! k = Some t →
  gr_map (gone b) !! k = Some t ∨ k = key ∧ (t = now ∨ ∃ d, gr_map (gone b) !! k = Some d ∧ t = Z.max d now).
Proof.
  unfold resolved.
  match goal with |- context [touch ?x key] => destruct (touch_rest x key) as (_ & -> & _) end.
  destruct a as [e|]; cbn.
  - destruct (inserted_rest (with_gone b (Gone.remove (gone b) key).2) key e) as (-> & _). cbn.
    rewrite gone_remove_map, lookup_delete_Some. tauto.
  - destruct (row_removed_rest (with_gone b (Gone.raise (gone b) key now)) key) as (-> & _). cbn. rewrite raise_map.
    intros [[<- <-]|[? ?]]%lookup_insert_Some; [|by left]. right. split; [done|].
    destruct (gr_map (gone b) !! key) as [d|]; [right; by exists d|by left].
Qed.

Lemma resolved_synced b key a now : synced (resolved b key a now) = synced b.
Proof.
  unfold resolved.
  match goal with |- context [touch ?x key] => destruct (touch_rest x key) as (_ & _ & _ & -> & _) end.
  destruct a as [e|]; cbn.
  - by destruct (inserted_rest (with_gone b (Gone.remove (gone b) key).2) key e) as (_ & -> & _).
  - by destruct (row_removed_rest (with_gone b (Gone.raise (gone b) key now)) key) as (_ & -> & _).
Qed.

(** A resolution with the current token, or nothing. *)
Lemma resolve_view s bk k token a now :
  let s' := (resolve_uncertain_key s bk k token a now).2 in
  s' = s ∨
  only_at s s' bk k ∧ row s' bk k = resolved_row a ∧ fenced s' bk k = None ∧
  (∀ t, dead_at s' bk k = Some t → t = now ∨ ∃ d, dead_at s bk k = Some d ∧ (t = d ∨ t = Z.max d now)).
Proof.
  cbn zeta. rewrite resolve_spec. destruct (buckets s !! bk) as [b|] eqn:Eb; [|by left].
  destruct (bool_decide _); [|by left]. right. cbn [snd].
  assert (Hb : bucket_or_default s bk = b) by (unfold bucket_or_default; by rewrite Eb).
  destruct (resolved_fences b k a now) as [Hu _]. split_and!.
  - eapply only_at_bucket; [intros name; by autorewrite with bod|..]; rewrite Hb.
    + intros k' Hne. rewrite resolved_map. destruct a; [by rewrite lookup_insert_ne|by rewrite lookup_delete_ne].
    + intros k' Hne. by rewrite Hu, lookup_delete_ne.
    + intros k' t Hne [H|[H _]]%resolved_dead; done.
    + apply resolved_synced.
  - unfold row. autorewrite with bod. rewrite decide_True, resolved_map by done.
    destruct a; [by rewrite lookup_insert_eq|by rewrite lookup_delete_eq].
  - unfold fenced. autorewrite with bod. by rewrite decide_True, Hu, lookup_delete_eq.
  - unfold dead_at. autorewrite with bod. rewrite decide_True, Hb by done.
    intros t [H|[_ [->|(d & H & ->)]]]%resolved_dead; [right; exists t; eauto|by left|right; exists d; eauto].
Qed.

(** A warm-up that nothing interrupts: begin, one listing, finish. *)
Definition warm_up (s : KeyIndexState) (bk : string) (page : list (string * ObjEntry)) : KeyIndexState :=
  let '(g, s) := begin_bucket_resync s bk in
  (finish_bucket_sync_generation (sync_listing_into_generation s bk g page).2 bk g).2.

Lemma rows_for_none k page : k ∉ page.*1 → rows_for k page = [].
Proof.
  unfold rows_for. induction page as [|[k' e'] page IH]; [done|]. cbn [fmap list_fmap fst]. intros [Hne Hk]%not_elem_of_cons.
  rewrite filter_cons, decide_False by (cbn; congruence). by apply IH.
Qed.

Lemma rows_for_unique k e page : NoDup page.*1 → (k, e) ∈ page → rows_for k page = [e].
Proof.
  induction page as [|[k' e'] page IH]; intros Hnd Hin; [by apply not_elem_of_nil in Hin|].
  cbn [fmap list_fmap fst] in Hnd. apply NoDup_cons in Hnd as [Hk Hnd]. unfold rows_for. rewrite filter_cons. cbn [fst].
  apply elem_of_cons in Hin as [[= <- <-]|Hin].
  - rewrite decide_True by done. cbn [fmap list_fmap snd]. f_equal. by apply rows_for_none.
  - rewrite decide_False; [by apply IH|]. intros ->. apply Hk, list_elem_of_fmap. by exists (k, e).
Qed.

(** After a warm-up the bucket holds the listing, fenced keys apart. *)
Lemma warm_up_view s bk page :
  let s' := warm_up s bk page in
  (∀ bk', bk' ≠ bk → bucket_or_default s' bk' = bucket_or_default s bk') ∧
  synced_at s' bk = true ∧
  (∀ k, fenced s' bk k = fenced s bk k) ∧ (∀ k, dead_at s' bk k = None) ∧
  (∀ k, row s' bk k = if is_some (fenced s bk k) then None else best_row (rows_for k page)).
Proof.
  cbn zeta. unfold warm_up. destruct (begin_bucket_resync s bk) as [g s1] eqn:Eb.
  assert (Hs1 : ∀ name, bucket_or_default s1 name = if decide (bk = name)
    then mkBucket false KeyRows_default GoneRows_default g (Some g) ∅ (epoch_of s bk) (fences s bk) stats_zero
    else bucket_or_default s name).
  { intros name. pose proof (resync_bod s bk name) as H. by rewrite Eb in H. }
  assert (Ho : owns_rebuild (bucket_or_default s1 bk) g = true).
  { rewrite Hs1, decide_True by done. by apply owns_rebuild_spec. }
  set (b1 := (foldl sync_row (bucket_or_default s1 bk, i_stats s1) page).1).
  assert (Hp : progress g b1 (λ k, is_some (fenced s bk k)) (λ k, [] ++ rows_for k page) (λ _, []) 0).
  { apply page_progress. rewrite Hs1, decide_True by done. split; cbn.
    - done.
    - by rewrite map_size_empty.
    - intros k. rewrite elem_of_empty. naive_solver.
    - done.
    - intros k. unfold reg_of. cbn. rewrite !lookup_empty. by destruct (is_some _). }
  destruct (sync_rows_fences (bucket_or_default s1 bk) (i_stats s1) page) as (Hu & _ & _ & Hrg & Hsg & _ & Hgo).
  fold b1 in Hu, Hrg, Hsg, Hgo. rewrite (Hs1 bk), decide_True in Hu, Hrg, Hsg, Hgo by done.
  assert (Hs2 : ∀ name, bucket_or_default (sync_listing_into_generation s1 bk g page).2 name =
    if decide (bk = name) then b1 else bucket_or_default s1 name).
  { intros name. unfold sync_listing_into_generation.
    change (bucket_or_default (invalidate_capture_for_rebuild s1) bk) with (bucket_or_default s1 bk).
    change (i_stats (invalidate_capture_for_rebuild s1)) with (i_stats s1).
    rewrite Ho. cbn [negb]. unfold b1. destruct (foldl _ _ _) as [b t]. cbn [snd fst].
    unfold invalidate_capture_for_rebuild. by autorewrite with bod. }
  set (s2 := (sync_listing_into_generation s1 bk g page).2) in *.
  assert (Hs3 : ∀ name, bucket_or_default (finish_bucket_sync_generation s2 bk g).2 name =
    if decide (bk = name) then mkBucket true (keys b1) (gone b1) (sync_generation b1) None ∅ (uncertainty_epoch b1)
      (uncertain_keys b1) (b_stats b1) else bucket_or_default s name).
  { intros name. unfold finish_bucket_sync_generation. rewrite (Hs2 bk), decide_True by done.
    assert (owns_rebuild b1 g = true) as -> by (by apply owns_rebuild_spec). cbn [negb snd].
    autorewrite with bod. case_decide; [done|]. rewrite Hs2, decide_False, Hs1, decide_False by done. done. }
  unfold synced_at, fenced, dead_at, row. split_and!.
  - intros bk' Hne. by rewrite Hs3, decide_False.
  - by rewrite Hs3, decide_True.
  - intros k. rewrite Hs3, decide_True by done. cbn. by rewrite Hu.
  - intros k. rewrite Hs3, decide_True by done. cbn. rewrite Hgo. apply lookup_empty.
  - intros k. rewrite Hs3, decide_True by done. pose proof (pr_reg _ _ _ _ _ _ Hp k) as H.
    unfold reg_of in H. cbn in H |- *. by injection H.
Qed.

Lemma remove_bucket_view s bk :
  let s' := remove_bucket s bk in
  (∀ bk', bk' ≠ bk → bucket_or_default s' bk' = bucket_or_default s bk') ∧
  bucket_or_default s' bk = BucketState_default.
Proof.
  cbn zeta. unfold remove_bucket, bucket_or_default. destruct (buckets s !! bk) as [b|] eqn:E; cbn; rewrite E; cbn.
  - split; [intros bk' Hne; by rewrite lookup_delete_ne|by rewrite lookup_delete_eq].
  - by rewrite E.
Qed.
End view.
