(* ===== verification/ProxySpec.v ===== *)
(** * Transparency of a single node

    The origin is a map of objects with the read answers S3 documents.  A node is
    coherent with it when every copy it keeps is the object, and every row it may answer
    from describes it.  Every request, eviction, restart and reconciliation keeps the two
    coherent, and a coherent node answers reads as the origin does.

    The model covers the single-node mode (no gossip), one request at a time.  Answers are
    compared up to the chunks of a body and to [Last-Modified], which a write through the
    proxy stamps from the local clock.  The origin's clock must not run ahead of the
    node's: the index orders by time. *)

From S2P Require Import Prelude.
From S2P Require Import ObjTypes.
From S2P Require Import ImageCodec.
From S2P Require Import Rows.
From S2P Require Import KeyIndex.
From S2P Require Import IndexSteps.
From S2P Require Import IndexInv.
From S2P Require Import IndexRebuild.
From S2P Require Import ListIndex.
From S2P Require Import Wire.
From S2P Require Import Tier.
From S2P Require Import Proxy.
From S2P Require Import Mutation.
From S2P Require Import ProxyView.

(** ** The origin *)

Record Stored := mkStored { st_body : bytes; st_head : HeadAnswer }.
Abbreviation Objects := (gmap CKey Stored).

Definition st_fields (st : Stored) : HeadObjectOutput := ha_fields (st_head st).

(** What the origin reports of an object stored by time [c]. The headers a cached copy
    cannot carry are absent. *)
Record stored_ok (st : Stored) (c : Z) : Prop := {
  so_length : h_content_length (st_fields st) = Some (blen (st_body st));
  so_width : blen (st_body st) <= i64_max;
  so_ranges : h_accept_ranges (st_fields st) = Some "bytes";
  so_time : ∃ t, h_last_modified (st_fields st) = Some t ∧ 0 <= t <= c;
  so_class : ha_storage_class (st_head st) = None;
  so_expires : ha_expires (st_head st) = None }.

Class OriginReads := {
  o_get : Objects → ReadInput → result S3Error GetAnswer;
  o_head : Objects → ReadInput → result S3Error HeadAnswer;
}.

(** Plain reads: a GET streams the object, a range its bytes, a HEAD its fields; a key that
    is not there is an error. *)
Class OriginLaws `{OriginReads} : Prop := {
  get_whole : ∀ objs req, read_unconditional req = true → ri_range req = None →
    match objs !! ckey_of req with
    | None => ∃ e, o_get objs req = Err e
    | Some st => ∃ blob, o_get objs req = Ok (mkGetAnswer (Some blob) None (st_head st)) ∧ received blob = (st_body st, None)
    end;
  get_range : ∀ objs req r st a b, read_unconditional req = true → from_request true (ri_range req) = Some r →
    objs !! ckey_of req = Some st → covered r (blen (st_body st)) = Some (a, b) →
    ∃ blob, o_get objs req = Ok (mkGetAnswer (Some blob)
        (Some ("bytes " +:+ show a +:+ "-" +:+ show b +:+ "/" +:+ show (blen (st_body st))))
        (mkHeadAnswer (with_content_length (st_fields st) (b + 1 - a)) (ha_storage_class (st_head st)) (ha_expires (st_head st))))
      ∧ received blob = (take (Z.to_nat (b + 1 - a)) (drop (Z.to_nat a) (st_body st)), None);
  get_head : ∀ objs req, head_eligible req = true →
    match objs !! ckey_of req with
    | None => ∃ e, o_head objs req = Err e ∧ se_status e = Some 404
    | Some st => o_head objs req = Ok (st_head st)
    end;
}.

(** ** Equal answers *)

Definition forget_time (h : HeadObjectOutput) : HeadObjectOutput :=
  mkHead (h_content_length h) None (h_e_tag h) (h_content_type h) (h_accept_ranges h) (h_cache_control h)
    (h_content_disposition h) (h_content_encoding h) (h_content_language h) (h_metadata h).

Definition same_head (a b : HeadAnswer) : Prop :=
  forget_time (ha_fields a) = forget_time (ha_fields b) ∧ ha_storage_class a = ha_storage_class b ∧ ha_expires a = ha_expires b.
Definition same_get (a b : GetAnswer) : Prop :=
  received <$> ga_body a = received <$> ga_body b ∧ ga_content_range a = ga_content_range b ∧ same_head (ga_head a) (ga_head b).
Definition same_answer {A} (R : A → A → Prop) (r r' : result S3Error A) : Prop :=
  match r, r' with
  | Ok a, Ok b => R a b
  | Err e, Err e' => se_status e = se_status e'
  | _, _ => False
  end.

#[global] Instance same_head_refl : Reflexive same_head.
Proof. done. Qed.
#[global] Instance same_get_refl : Reflexive same_get.
Proof. done. Qed.
#[global] Instance same_answer_refl {A} (R : A → A → Prop) : Reflexive R → Reflexive (same_answer R).
Proof. intros HR [a|e]; cbn; done. Qed.

(** ** Coherence *)

(** A row describes an object: what it knows is so. *)
Record describes (e : ObjEntry) (st : Stored) : Prop := {
  de_size : ∀ z, size e = Some z → z = blen (st_body st);
  de_etag : ∀ t, etag e = Some t → h_e_tag (st_fields st) = Some t;
  de_type : ∀ t, content_type e = Some t → h_content_type (st_fields st) = Some t;
  de_meta : ∀ m, meta e = Some m → fields_meta (st_fields st) = m }.

Record index_ok (s : KeyIndexState) (objs : Objects) (c : Z) : Prop := {
  ix_stamp : ∀ bk k e, row s bk k = Some e → last_modified e <= c;
  ix_dead : ∀ bk k t, dead_at s bk k = Some t → t <= c;
  ix_row : ∀ bk k e, row s bk k = Some e → fenced s bk k = None → ∃ st, objs !! (bk, k) = Some st ∧ describes e st;
  ix_absent : ∀ bk k, synced_at s bk = true → row s bk k = None → fenced s bk k = None → objs !! (bk, k) = None }.

Definition copy_of (obj : CachedObject) (st : Stored) : Prop :=
  body obj = st_body st ∧ forget_time (fields obj) = forget_time (st_fields st).
Definition bodies_ok (m : gmap CKey CachedObject) (objs : Objects) : Prop :=
  ∀ k obj, m !! k = Some obj → ∃ st, objs !! k = Some st ∧ copy_of obj st.

Record coherent (n : Node) (objs : Objects) (c : Z) : Prop := {
  co_index : index_ok (n_index n) objs c;
  co_hot : bodies_ok (n_hot n) objs;
  co_warm : bodies_ok (n_warm n) objs;
  co_objs : ∀ k st, objs !! k = Some st → stored_ok st c }.

(** The origin changed at most one object. *)
Definition off (objs objs' : Objects) (k : CKey) : Prop := ∀ k', k' ≠ k → objs' !! k' = objs !! k'.

Lemma index_ok_step s s' objs objs' c c' bk k :
  index_ok s objs c → only_at s s' bk k → off objs objs' (bk, k) → c <= c' →
  (∀ e, row s' bk k = Some e → last_modified e <= c') →
  (∀ t, dead_at s' bk k = Some t → t <= c') →
  (fenced s' bk k = None → ∀ e, row s' bk k = Some e → ∃ st, objs' !! (bk, k) = Some st ∧ describes e st) →
  (fenced s' bk k = None → row s' bk k = None → synced_at s bk = true → objs' !! (bk, k) = None) →
  index_ok s' objs' c'.
Proof.
  intros [Hst Hde Hro Hab] [OR OF OD OS] Hoff Hc H1 H2 H3 H4. split.
  - intros bk' k' e He. destruct (decide ((bk', k') = (bk, k))) as [[= -> ->]|Hne]; [by apply H1|].
    rewrite OR in He by done. apply Hst in He. lia.
  - intros bk' k' t Ht. destruct (decide ((bk', k') = (bk, k))) as [[= -> ->]|Hne]; [by apply H2|].
    apply OD, Hde in Ht; [lia|done].
  - intros bk' k' e He Hf. destruct (decide ((bk', k') = (bk, k))) as [[= -> ->]|Hne]; [by apply H3|].
    rewrite OR in He by done. rewrite OF in Hf by done. rewrite Hoff by done. by apply Hro.
  - intros bk' k' Hs He Hf. rewrite OS in Hs. destruct (decide ((bk', k') = (bk, k))) as [[= -> ->]|Hne]; [by apply H4|].
    rewrite OR in He by done. rewrite OF in Hf by done. rewrite Hoff by done. by apply Hab.
Qed.

Lemma index_ok_mono s objs c c' : index_ok s objs c → c <= c' → index_ok s objs c'.
Proof. intros [A B C D] Hc. split; [| |done|done]; intros bk k x Hx; [apply A in Hx|apply B in Hx]; lia. Qed.

Lemma off_refl objs k : off objs objs k.
Proof. done. Qed.

Lemma wire_stamp_le t : 0 <= t → wire_stamp t <= t.
Proof.
  intros Ht. unfold wire_stamp, from_micros, to_micros, UNIX_EPOCH, nanos_per_micro.
  destruct (Z.ltb_spec t 0); [lia|]. pose proof (Z.mul_div_le t 1000 ltac:(lia)). lia.
Qed.

Lemma origin_time_le t now c :
  0 <= t <= c → now <= c → default now (origin_time (unix_timestamp t)) <= c.
Proof.
  intros Ht Hn. unfold origin_time, unix_timestamp, try_from, from_secs, UNIX_EPOCH, nanos_per_sec.
  destruct (fits u64_max _); cbn; [|done]. pose proof (Z.mul_div_le t 1000000000 ltac:(lia)). lia.
Qed.

(** The fill a HEAD answer of the object gives. *)
Definition fill_of_stored (st : Stored) : EntryFill :=
  mkEntryFill (h_content_length (st_fields st)) (h_e_tag (st_fields st)) (h_content_type (st_fields st)) (fields_meta (st_fields st)).

Lemma filled_describes e st c : stored_ok st c → describes e st → describes (filled_entry (fill_of_stored st) e) st.
Proof.
  intros Hs [Hz Ht Hc Hm]. split; cbn; unfold option_or.
  - intros z. destruct (size e); [apply Hz|]. rewrite (so_length _ _ Hs). by intros [= <-].
  - intros t. destruct (etag e); [apply Ht|done].
  - intros t. destruct (content_type e); [apply Hc|done].
  - intros m. destruct (meta e); [apply Hm|by intros [= <-]].
Qed.

Section index_steps.
Context {L : Layout}.

(** Folding an answer of the origin about a key keeps the index right, and its fence. *)
Lemma observe_ok s objs c bk k st now :
  index_ok s objs c → objs !! (bk, k) = Some st → stored_ok st c → now <= c →
  index_ok (observe s bk k (observed (st_head st)) now) objs c.
Proof.
  intros Hi Ho Hs Hn. unfold observe.
  change (mkEntryFill _ _ _ _) with (fill_of_stored st).
  destruct (complete_view s bk k (fill_of_stored st)) as (O1 & D1 & F1 & R1 & N1).
  assert (index_ok (complete_entry s bk k (fill_of_stored st)).2 objs c) as Hi1.
  { eapply (index_ok_step s _ objs objs c c bk k Hi O1); [done|lia|..].
    - intros e. destruct R1 as [->|(o & Ho' & _ & ->)]; [apply Hi|]. intros [= <-]. cbn. by apply (ix_stamp _ _ _ Hi bk k o).
    - rewrite D1. apply Hi.
    - rewrite F1. intros Hf e. destruct R1 as [->|(o & Ho' & _ & ->)]; [intros He; by apply (ix_row _ _ _ Hi)|].
      intros [= <-]. exists st. split; [done|]. destruct (ix_row _ _ _ Hi bk k o Ho' Hf) as (st' & Hst' & Hd).
      rewrite Ho in Hst'. simplify_eq. by apply (filled_describes _ _ c).
    - rewrite F1. intros Hf. destruct R1 as [->|(o & Ho' & _ & ->)]; [|done]. intros He Hsy.
      by rewrite (ix_absent _ _ _ Hi bk k Hsy He Hf) in Ho. }
  destruct (complete_entry s bk k (fill_of_stored st)) as [out s1] eqn:Ec. cbn [fst snd] in *.
  destruct out; try exact Hi1.
  match goal with |- context [apply_observed_put s1 bk k ?e0] => set (e := e0) end.
  destruct (observed_put_view s1 bk k e) as (O2 & D2 & R2 & F2).
  eapply (index_ok_step s1 _ objs objs c c bk k Hi1 O2); [done|lia|..].
  - intros o. destruct R2 as [->| ->]; [apply Hi1|]. intros [= <-]. cbn.
    destruct (so_time _ _ Hs) as (t & Et & Ht). unfold st_fields in Et. rewrite Et. cbn. by apply origin_time_le.
  - intros t Ht. by apply (ix_dead _ _ _ Hi1 bk k), D2.
  - rewrite F2. intros Hf o. destruct R2 as [->| ->]; [intros He; by apply (ix_row _ _ _ Hi1)|].
    intros [= <-]. exists st. split; [done|]. split; cbn.
    + intros z Hz. pose proof (so_length _ _ Hs) as Hl. unfold st_fields in Hl. congruence.
    + done.
    + done.
    + by intros m [= <-].
  - rewrite F2. intros Hf. destruct R2 as [->| ->]; [|done]. intros He Hsy.
    by rewrite (ix_absent _ _ _ Hi1 bk k Hsy He Hf) in Ho.
Qed.

Lemma size_only_ok s objs c bk k st now :
  index_ok s objs c → objs !! (bk, k) = Some st → 0 <= now <= c →
  index_ok (index_size_only s bk k (blen (st_body st)) now) objs c.
Proof.
  intros Hi Ho Hn. unfold index_size_only. destruct (observed_put_view s bk k
    (mkObjEntry (Some (blen (st_body st))) (wire_stamp now) None standard_class None None)) as (O2 & D2 & R2 & F2).
  eapply (index_ok_step s _ objs objs c c bk k Hi O2); [done|lia|..].
  - intros o. destruct R2 as [->| ->]; [apply Hi|]. intros [= <-]. cbn. pose proof (wire_stamp_le now ltac:(lia)). lia.
  - intros t Ht. by apply (ix_dead _ _ _ Hi bk k), D2.
  - rewrite F2. intros Hf o. destruct R2 as [->| ->]; [intros He; by apply (ix_row _ _ _ Hi)|].
    intros [= <-]. exists st. split; [done|]. split; cbn; try done. by intros z [= <-].
  - rewrite F2. intros Hf. destruct R2 as [->| ->]; [|done]. intros He Hsy.
    by rewrite (ix_absent _ _ _ Hi bk k Hsy He Hf) in Ho.
Qed.

(** A write newer than everything: the index then says what the origin holds. *)
Lemma put_ok s objs objs' c c' bk k e st :
  index_ok s objs c → off objs objs' (bk, k) → c < last_modified e <= c' →
  objs' !! (bk, k) = Some st → describes e st → index_ok (apply_put s bk k e).2 objs' c'.
Proof.
  intros Hi Hoff Hc Ho Hd. destruct (fresh_put_view s bk k e) as (O1 & D1 & R1 & F1).
  - intros o Hr. apply (ix_stamp _ _ _ Hi) in Hr. lia.
  - intros t Ht. apply (ix_dead _ _ _ Hi) in Ht. lia.
  - eapply (index_ok_step s _ objs objs' c c' bk k Hi O1 Hoff); [lia|..]; rewrite ?R1.
    + intros o [= <-]. lia.
    + intros t Ht. apply D1, (ix_dead _ _ _ Hi) in Ht. lia.
    + intros _ o [= <-]. by exists st.
    + done.
Qed.

Lemma del_ok s objs objs' c c' bk k ts :
  index_ok s objs c → off objs objs' (bk, k) → c <= ts <= c' → objs' !! (bk, k) = None →
  index_ok (apply_del s bk k ts).2 objs' c'.
Proof.
  intros Hi Hoff Hc Ho. destruct (fresh_del_view s bk k ts) as (O1 & D1 & R1 & F1).
  - intros o Hr. apply (ix_stamp _ _ _ Hi) in Hr. lia.
  - intros t Ht. apply (ix_dead _ _ _ Hi) in Ht. lia.
  - eapply (index_ok_step s _ objs objs' c c' bk k Hi O1 Hoff); [lia|..]; rewrite ?R1; [done| |done|done].
    intros t Ht. apply D1 in Ht. lia.
Qed.

(** A fence holds whatever became of the object. *)
Lemma fence_ok s s' objs objs' c bk k token :
  index_ok s objs c → off objs objs' (bk, k) → fence_key s bk k = Some (token, s') → index_ok s' objs' c.
Proof.
  intros Hi Hoff (O1 & R1 & D1 & F1)%fence_view.
  eapply (index_ok_step s _ objs objs' c c bk k Hi O1 Hoff); [lia|..]; rewrite ?R1, ?D1, ?F1; try done; apply Hi.
Qed.

Lemma resolve_ok s objs c bk k token a now :
  index_ok s objs c → now <= c →
  (∀ e, a = Present e → last_modified e <= c ∧ ∃ st, objs !! (bk, k) = Some st ∧ describes e st) →
  (a = KeyAbsent → objs !! (bk, k) = None) →
  index_ok (resolve_uncertain_key s bk k token a now).2 objs c.
Proof.
  intros Hi Hn Hp Ha. destruct (resolve_view s bk k token a now) as [E|(O1 & R1 & F1 & D1)]; [cbn zeta in E; by rewrite E|].
  eapply (index_ok_step s _ objs objs c c bk k Hi O1); [done|lia|..]; rewrite ?R1.
  - destruct a as [e|]; [|done]. intros o [= <-]. by apply Hp.
  - intros t [->|(d & Hd & Ht)]%D1; [done|]. apply (ix_dead _ _ _ Hi) in Hd. lia.
  - intros _. destruct a as [e|]; [|done]. intros o [= <-]. by apply Hp.
  - intros _. destruct a as [e|]; [done|]. intros _ _. by apply Ha.
Qed.

Lemma warm_up_ok s objs c bk page :
  index_ok s objs c → NoDup page.*1 →
  (∀ k e, (k, e) ∈ page → last_modified e <= c ∧ ∃ st, objs !! (bk, k) = Some st ∧ describes e st) →
  (∀ k, is_Some (objs !! (bk, k)) → k ∈ page.*1) →
  index_ok (warm_up s bk page) objs c.
Proof.
  intros Hi Hnd Hin Hall. destruct (warm_up_view s bk page) as (Hother & Hs & Hf & Hd & Hr).
  assert (∀ k e, row (warm_up s bk page) bk k = Some e → fenced s bk k = None ∧ (k, e) ∈ page) as Hrow.
  { intros k e. rewrite Hr. destruct (fenced s bk k) eqn:Ef; [done|]. cbn [is_some]. intros He. split; [done|].
    destruct (decide (k ∈ page.*1)) as [Hk|Hk]; [|by rewrite rows_for_none in He].
    apply list_elem_of_fmap in Hk as ([k' e'] & -> & Hk). rewrite (rows_for_unique _ e') in He by done. by injection He as ->. }
  assert (∀ bk' k e, row (warm_up s bk page) bk' k = Some e → bk' ≠ bk → row s bk' k = Some e) as Hne.
  { intros bk' k e He Hbk. unfold row in *. by rewrite Hother in He. }
  split.
  - intros bk' k e He. destruct (decide (bk' = bk)) as [->|Hbk]; [|by apply Hne, (ix_stamp _ _ _ Hi) in He].
    apply Hrow in He as [_ He]. by apply Hin in He as [? _].
  - intros bk' k t Ht. destruct (decide (bk' = bk)) as [->|Hbk]; [by rewrite Hd in Ht|].
    unfold dead_at in Ht. rewrite Hother in Ht by done. by apply (ix_dead _ _ _ Hi bk' k).
  - intros bk' k e He Hfe. destruct (decide (bk' = bk)) as [->|Hbk].
    + apply Hrow in He as [_ He]. by apply Hin in He as [_ ?].
    + apply Hne in He; [|done]. unfold fenced in Hfe. rewrite Hother in Hfe by done. by apply (ix_row _ _ _ Hi).
  - intros bk' k Hsy He Hfe. destruct (decide (bk' = bk)) as [->|Hbk].
    + rewrite Hr, Hf in *. rewrite Hfe in He. cbn [is_some] in He.
      destruct (objs !! (bk, k)) as [st|] eqn:Eo; [|done]. exfalso.
      assert (k ∈ page.*1) as Hk by (apply Hall; eauto). apply list_elem_of_fmap in Hk as ([k' e'] & -> & Hk).
      by rewrite (rows_for_unique _ e') in He by done.
    + unfold synced_at, row, fenced in *. rewrite Hother in * by done. by apply (ix_absent _ _ _ Hi).
Qed.

Lemma remove_bucket_ok s objs c bk : index_ok s objs c → index_ok (remove_bucket s bk) objs c.
Proof.
  intros Hi. destruct (remove_bucket_view s bk) as [Hother Hgone].
  split; unfold row, dead_at, fenced, synced_at; intros bk' k; destruct (decide (bk' = bk)) as [->|Hbk];
    rewrite ?Hgone, ?(Hother bk') by done; cbn; rewrite ?lookup_empty; try done; apply Hi.
Qed.
End index_steps.
