(* ===== verification/ProxyReads.v ===== *)
(** * A coherent node answers reads as the origin does *)

From S2P Require Import Prelude.
From S2P Require Import ObjTypes.
From S2P Require Import ImageCodec.
From S2P Require Import Rows.
From S2P Require Import KeyIndex.
From S2P Require Import ListIndex.
From S2P Require Import Tier.
From S2P Require Import Proxy.
From S2P Require Import ProxyView.
From S2P Require Import ProxySpec.

(** ** Tiers *)

Lemma bodies_ok_delete m objs objs' k : bodies_ok m objs → off objs objs' k → bodies_ok (delete k m) objs'.
Proof. intros Hm Hoff k' obj [Hne Hk]%lookup_delete_Some. rewrite Hoff by done. by apply Hm. Qed.

Lemma bodies_ok_insert m objs k obj st :
  bodies_ok m objs → objs !! k = Some st → copy_of obj st → bodies_ok (<[k := obj]> m) objs.
Proof. intros Hm Hk Hc k' obj' [[<- <-]|[_ H]]%lookup_insert_Some; [by exists st|by apply Hm]. Qed.

(** The node was only read: a body may have moved to the hot tier. *)
Record touched (n n' : Node) : Prop := {
  to_index : n_index n' = n_index n;
  to_gen : n_gen n' = n_gen n }.

Definition found (objs : Objects) (k : CKey) (o : option CachedObject) : Prop :=
  ∀ obj, o = Some obj → ∃ st, objs !! k = Some st ∧ copy_of obj st.

Lemma tier_get_ok n objs c k :
  coherent n objs c →
  coherent (tier_get n k).2 objs c ∧ touched n (tier_get n k).2 ∧ found objs k (tier_get n k).1.
Proof.
  intros Hco. unfold tier_get. destruct (n_hot n !! k) as [obj|] eqn:Eh.
  { cbn. split; [done|]. split; [done|]. intros ? [= <-]. by apply (co_hot _ _ _ Hco). }
  destruct (n_warm n !! k) as [obj|] eqn:Ew; cbn.
  2:{ split; [done|]. split; [done|]. by intros ? [=]. }
  destruct (co_warm _ _ _ Hco k obj Ew) as (st & Hst & Hc). split; [|split; [done|]].
  - split; [apply Hco| |apply Hco|apply Hco]. by eapply bodies_ok_insert; [apply Hco|done|].
  - intros ? [= <-]. by exists st.
Qed.

Lemma validated_get_ok n objs c k :
  coherent n objs c →
  coherent (validated_get false n k).2 objs c ∧ touched n (validated_get false n k).2 ∧ found objs k (validated_get false n k).1.
Proof.
  intros Hco. destruct (tier_get_ok n objs c k Hco) as (H1 & H2 & H3). unfold validated_get.
  destruct (tier_get n k) as [[obj|] n']; cbn in *; done.
Qed.

Lemma probe_ok n objs c k :
  coherent n objs c →
  coherent (probe false n k).2 objs c ∧ touched n (probe false n k).2 ∧ found objs k (probe false n k).1.
Proof.
  intros Hco. destruct (tier_get_ok n objs c k Hco) as (H1 & [H2 H2'] & H3). unfold probe.
  destruct (tier_get n k) as [[obj|] n']; cbn in *; [|done].
  destruct (validated_get_ok n' objs c k H1) as (? & [] & ?). split; [done|]. split; [|done]. split; congruence.
Qed.

Section reads.
Context {L : Layout} {OR : OriginReads} {OL : OriginLaws}.
Context (env : ReadEnv) (objs : Objects) (c : Z).
Hypothesis (Hsingle : re_gossip env = false) (Hnow : 0 <= re_now env <= c).

(** A fetch that brings what the origin holds. *)
Lemma get_or_fetch_ok {E} n k generation (fetch : result E (CachedObject * ObservedObject)) :
  coherent n objs c →
  (∀ obj o, fetch = Ok (obj, o) → ∃ st, objs !! k = Some st ∧ copy_of obj st ∧ o = observed (st_head st)) →
  let '(r, n') := get_or_fetch env n k generation fetch in
  coherent n' objs c ∧ n_gen n' = n_gen n ∧
  match r with
  | Ok obj => ∃ st, objs !! k = Some st ∧ copy_of obj st
  | Err e => fetch = Err e
  end.
Proof using Hsingle Hnow.
  intros Hco Hf. unfold get_or_fetch. rewrite Hsingle.
  destruct (probe_ok n objs c k Hco) as (H1 & [H2 H2'] & H3). destruct (probe false n k) as [[obj|] n1]; cbn in *.
  { split; [done|]. split; [done|]. by apply H3. }
  destruct (probe_ok n1 objs c k H1) as (K1 & [K2 K2'] & K3). destruct (probe false n1 k) as [[obj|] n2]; cbn in *.
  { split; [done|]. split; [congruence|]. by apply K3. }
  destruct fetch as [[obj o]|e]; [|split; [done|split; [congruence|done]]].
  destruct (Hf obj o eq_refl) as (st & Hst & Hc & ->).
  destruct (_ && _ && _); cbn.
  - split; [|split; [congruence|by exists st]]. assert (copy_of (mark_trusted obj generation) st) as Hc' by done.
    split; cbn.
    + destruct k as [bk k]. apply observe_ok; [apply K1|done|by apply (co_objs _ _ _ K1 (bk, k))|lia].
    + by eapply bodies_ok_insert; [apply K1|..].
    + destruct (re_disk env); [by eapply bodies_ok_insert; [apply K1|..]|apply K1].
    + apply K1.
  - split; [done|]. split; [congruence|by exists st].
Qed.

Lemma gate_open n : local_read_gate_now env n (n_gen n) = true.
Proof using Hsingle. unfold local_read_gate_now. by rewrite Z.eqb_refl, Hsingle. Qed.

Lemma gate_kept n n' : n_gen n' = n_gen n → local_read_gate_now env n' (n_gen n) = true.
Proof using Hsingle. intros <-. apply gate_open. Qed.

(** ** Local answers *)

Lemma same_whole obj st blob :
  copy_of obj st → stored_ok st c → received blob = (st_body st, None) →
  same_get (local_get (to_get obj)) (mkGetAnswer (Some blob) None (st_head st)).
Proof using.
  intros [Hb Hf] Hs Hr. split; cbn.
  - rewrite Hr, Hb, app_nil_r. done.
  - split; [done|]. split; [exact Hf|]. cbn. by rewrite (so_class _ _ Hs), (so_expires _ _ Hs).
Qed.

Lemma buffered_whole blob l : received blob = (l, None) → blen l <= re_max_obj_bytes env → 0 <= re_max_obj_bytes env →
  buffer_body blob (re_max_obj_bytes env) = Some l.
Proof using.
  intros Hr Hl Hm. unfold buffer_body, buffer_or_forward.
  assert (drain [] blob (re_max_obj_bytes env) = Whole l) as ->; [|done]. apply drain_whole; [done|]. by exists l.
Qed.

(** What the origin answers to a plain GET, as the fills read it. *)
Lemma fits_cap_len len : fits_cap env len = true → 0 <= len <= re_max_obj_bytes env.
Proof using. unfold fits_cap. rewrite andb_true_iff, !Z.leb_le. done. Qed.

Lemma filled_copy st bytes : bytes = st_body st →
  copy_of (from_get (mkGet None None (ha_fields (st_head st))) bytes) st.
Proof using. by intros ->. Qed.

Lemma whole_fetch_ok n req :
  coherent n objs c → read_unconditional req = true → ri_range req = None →
  match whole_fetch env (o_get objs req) with
  | Ok (obj, o) => ∃ st, objs !! ckey_of req = Some st ∧ copy_of obj st ∧ o = observed (st_head st)
  | Err (FillOrigin e) => o_get objs req = Err e
  | Err (Uncacheable resp) => o_get objs req = Ok resp
  end.
Proof using OL.
  intros Hco Hu Hr. pose proof (get_whole objs req Hu Hr) as Hg. unfold whole_fetch.
  destruct (objs !! ckey_of req) as [st|] eqn:Eo; [|by destruct Hg as [e ->]].
  destruct Hg as (blob & -> & Hrec). pose proof (co_objs _ _ _ Hco _ _ Eo) as Hs. cbn [ga_head ga_body ga_content_range].
  pose proof (so_length _ _ Hs) as Hl. unfold st_fields in Hl. rewrite Hl. cbn [default id].
  destruct (fits_cap env (blen (st_body st))) eqn:Ef; cbn [negb]; [|done]. apply fits_cap_len in Ef.
  rewrite (buffered_whole blob (st_body st)) by (done || lia). exists st. split; [done|]. by split; [apply filled_copy|].
Qed.

Lemma promote_fetch_ok n req :
  coherent n objs c → read_unconditional req = true → ri_range req = None →
  match promote_fetch env (o_get objs req) with
  | Ok (obj, o) => ∃ st, objs !! ckey_of req = Some st ∧ copy_of obj st ∧ o = observed (st_head st)
  | Err (PromoteOrigin _) => True
  | Err (Oversize sz) => ∃ st, objs !! ckey_of req = Some st ∧ sz = blen (st_body st)
  end.
Proof using OL.
  intros Hco Hu Hr. pose proof (get_whole objs req Hu Hr) as Hg. unfold promote_fetch.
  destruct (objs !! ckey_of req) as [st|] eqn:Eo; [|by destruct Hg as [e ->]].
  destruct Hg as (blob & -> & Hrec). pose proof (co_objs _ _ _ Hco _ _ Eo) as Hs. cbn [ga_head ga_body ga_content_range].
  pose proof (so_length _ _ Hs) as Hl. unfold st_fields in Hl. rewrite Hl. cbn [default id].
  destruct (fits_cap env (blen (st_body st))) eqn:Ef; cbn [negb]; [|by exists st]. apply fits_cap_len in Ef.
  rewrite (buffered_whole blob (st_body st)) by (done || lia). exists st. split; [done|]. by split; [apply filled_copy|].
Qed.

(** A slice of a copy is the origin's range. *)
Lemma same_slice req r obj st a b :
  copy_of obj st → stored_ok st c → read_unconditional req = true → from_request true (ri_range req) = Some r →
  range_wf r → objs !! ckey_of req = Some st → covered r (blen (body obj)) = Some (a, b) →
  same_answer same_get (Ok (local_get (piece obj a b))) (o_get objs req).
Proof using OL.
  intros [Hb Hf] Hs Hu Hr Hw Ho Hc. rewrite Hb in Hc. destruct (get_range objs req r st a b Hu Hr Ho Hc) as (blob & -> & Hrec).
  destruct (covered_range r _ a b Hw (blen_nonneg _) Hc) as [Hab Hlt]. cbn. split; cbn.
  - rewrite Hrec, Hb, app_nil_r. done.
  - split; [by rewrite Hb|]. split; cbn; [|by rewrite (so_class _ _ Hs), (so_expires _ _ Hs)].
    pose proof (so_width _ _ Hs) as Hwd.
    replace (Z.min i64_max (b + 1 - a)) with (b + 1 - a) by lia.
    unfold forget_time, with_content_length in *. cbn in *. injection Hf; intros; congruence.
Qed.

(** ** The decision trees *)

(** The answer of a read, and the node it leaves. *)
Definition get_ok (req : ReadInput) (o : option (result S3Error GetAnswer * Node)) : Prop :=
  ∃ r n', o = Some (r, n') ∧ same_answer same_get r (o_get objs req) ∧ coherent n' objs c.

Lemma forwarded n req : coherent n objs c → get_ok req (Some (o_get objs req, n)).
Proof using. intros Hco. exists (o_get objs req), n. split; [done|]. by split. Qed.

Lemma fill_whole_get_ok n n0 req :
  coherent n objs c → n_gen n = n_gen n0 → read_unconditional req = true → ri_range req = None →
  get_ok req (Some (fill_whole_get env (o_get objs) n req (n_gen n0))).
Proof using Hsingle Hnow OL.
  intros Hco Hg Hu Hr. unfold fill_whole_get. pose proof (whole_fetch_ok n req Hco Hu Hr) as Hfe.
  pose proof (get_or_fetch_ok n (ckey_of req) (n_gen n) (whole_fetch env (o_get objs req)) Hco) as Hgf.
  destruct (get_or_fetch env n (ckey_of req) (n_gen n) _) as [r n'].
  destruct Hgf as (Hco' & Hg' & Hres); [intros obj o E; by rewrite E in Hfe|].
  destruct r as [obj|e].
  - rewrite gate_kept by congruence. destruct Hres as (st & Hst & Hc).
    exists (Ok (local_get (to_get obj))), n'. split; [done|]. split; [|done].
    pose proof (get_whole objs req Hu Hr) as Hgw. rewrite Hst in Hgw. destruct Hgw as (blob & -> & Hrec).
    eapply same_whole; [done|by apply (co_objs _ _ _ Hco (ckey_of req))|done].
  - rewrite Hres in Hfe. destruct e as [e|resp].
    + rewrite <- Hfe. by apply forwarded.
    + rewrite <- Hfe. by apply forwarded.
Qed.

Lemma range_miss_ok n n0 req r local_ok :
  coherent n objs c → n_gen n = n_gen n0 → read_unconditional req = true →
  from_request true (ri_range req) = Some r → range_wf r →
  get_ok req (serve_range_miss env (o_get objs) n req r local_ok (n_gen n0)).
Proof using Hsingle Hnow OL.
  intros Hco Hg Hu Hr Hw. unfold serve_range_miss. destruct r as [first last|len]; [|by apply forwarded].
  destruct (local_ok && _); [|by apply forwarded].
  unfold promote_range. set (req' := without_range req).
  assert (read_unconditional req' = true) as Hu' by exact Hu.
  pose proof (promote_fetch_ok n req' Hco Hu' eq_refl) as Hfe. change (ckey_of req') with (ckey_of req) in Hfe.
  pose proof (get_or_fetch_ok n (ckey_of req) (n_gen n) (promote_fetch env (o_get objs req')) Hco) as Hgf.
  destruct (get_or_fetch env n (ckey_of req) (n_gen n) _) as [res n'].
  destruct Hgf as (Hco' & Hg' & Hres); [intros obj o E; by rewrite E in Hfe|].
  destruct res as [obj|e].
  - destruct Hres as (st & Hst & Hc). pose proof (slice_piece (CInt first last) obj Hw) as Hp. cbn [slice] in Hp. rewrite Hp.
    destruct (covered (CInt first last) (blen (body obj))) as [[a b]|] eqn:Ec; cbn [fmap option_fmap option_map mbind option_bind].
    + rewrite gate_kept by congruence. eexists _, n'. split; [done|]. split; [|done].
      by eapply same_slice; [|apply (co_objs _ _ _ Hco (ckey_of req))|..].
    + by apply forwarded.
  - cbn [mbind option_bind]. apply forwarded. rewrite Hres in Hfe. destruct e as [e|sz]; [done|].
    destruct Hfe as (st & Hst & ->). destruct (_ <=? _); [|done].
    split; [|apply Hco'..]. cbn. apply size_only_ok; [apply Hco'|done|lia].
Qed.

(** The local probe of a read, if it is allowed one. *)
Lemma local_hit n k (allowed : bool) :
  coherent n objs c →
  ∃ hit n', (if allowed then validated_get false n k else (None, n)) = (hit, n') ∧
    coherent n' objs c ∧ n_gen n' = n_gen n ∧ n_index n' = n_index n ∧ found objs k hit.
Proof using.
  intros Hco. destruct allowed; [|exists None, n; by split_and!].
  destruct (validated_get_ok n objs c k Hco) as (H1 & [H2 H2'] & H3).
  destruct (validated_get false n k) as [hit n']. by exists hit, n'.
Qed.

Lemma serve_range_ok n req r :
  coherent n objs c → read_unconditional req = true → from_request true (ri_range req) = Some r → range_wf r →
  get_ok req (serve_get env (o_get objs) n req).
Proof using Hsingle Hnow OL.
  intros Hco Hu Hr Hw. unfold serve_get. rewrite Hu, Hr, Hsingle. cbn [is_some]. rewrite orb_true_r.
  set (local_ok := negb _ && read_barrier env).
  destruct (local_hit n (ckey_of req) local_ok Hco) as (hit & n' & -> & Hco' & Hg & _ & Hfound).
  destruct hit as [obj|]; cbn [mbind option_bind]; [|by apply range_miss_ok].
  destruct (Hfound obj eq_refl) as (st & Hst & Hc). rewrite slice_piece by done.
  destruct (covered r (blen (body obj))) as [[a b]|] eqn:Ec; cbn [fmap option_fmap option_map mbind option_bind].
  - rewrite gate_kept by done. eexists _, n'. split; [done|]. split; [|done].
    by eapply same_slice; [|apply (co_objs _ _ _ Hco (ckey_of req))|..].
  - by apply range_miss_ok.
Qed.

Lemma serve_whole_ok n req :
  coherent n objs c → read_unconditional req = true → ri_range req = None → get_ok req (serve_get env (o_get objs) n req).
Proof using Hsingle Hnow OL.
  intros Hco Hu Hr. unfold serve_get. rewrite Hu, Hr, Hsingle. cbn [is_some is_none andb orb from_request].
  set (local_ok := negb _ && read_barrier env). rewrite andb_true_r.
  destruct (local_hit n (ckey_of req) local_ok Hco) as (hit & n' & -> & Hco' & Hg & _ & Hfound).
  destruct hit as [obj|].
  - destruct (Hfound obj eq_refl) as (st & Hst & Hc). rewrite gate_kept by done.
    exists (Ok (local_get (to_get obj))), n'. split; [done|]. split; [|done].
    pose proof (get_whole objs req Hu Hr) as Hgw. rewrite Hst in Hgw. destruct Hgw as (blob & -> & Hrec).
    eapply same_whole; [done|by apply (co_objs _ _ _ Hco (ckey_of req))|done].
  - unfold serve_whole_miss. cbn [negb orb]. destruct local_ok; cbn [negb]; [|by apply forwarded].
    destruct (is_some_and _ _); [by apply forwarded|]. by apply fill_whole_get_ok.
Qed.

Lemma serve_get_ok n req :
  coherent n objs c → (∀ r, from_request true (ri_range req) = Some r → range_wf r) →
  get_ok req (serve_get env (o_get objs) n req).
Proof using Hsingle Hnow OL.
  intros Hco Hw. destruct (read_unconditional req) eqn:Hu.
  - destruct (from_request true (ri_range req)) as [r|] eqn:Er; [by apply (serve_range_ok n req r); auto|].
    destruct (ri_range req) as [r0|] eqn:Hr; [|by apply serve_whole_ok].
    unfold serve_get. rewrite Hu, Hr, Er. cbn [is_some is_none andb orb]. unfold serve_whole_miss. cbn [negb orb].
    by apply forwarded.
  - unfold serve_get. rewrite Hu. assert (from_request false (ri_range req) = None) as -> by (by destruct (ri_range req)).
    cbn [is_some is_none andb orb]. unfold serve_whole_miss. cbn [negb orb]. by apply forwarded.
Qed.

Lemma index_head_same st e out :
  stored_ok st c → describes e st →
  is_faithful e = true → out = mkHead (size e) (Some (last_modified e)) (etag e) (content_type e) (Some "bytes")
    (cache_control (default ObjMeta_default (meta e))) (content_disposition (default ObjMeta_default (meta e)))
    (content_encoding (default ObjMeta_default (meta e))) (content_language (default ObjMeta_default (meta e)))
    (metadata (default ObjMeta_default (meta e))) →
  same_head (local_head out) (st_head st).
Proof using.
  intros Hs [Hz Ht Hy Hm] Hf ->. unfold is_faithful in Hf.
  destruct (size e) as [z|] eqn:Ez, (etag e) as [t|] eqn:Et, (content_type e) as [y|] eqn:Ey, (meta e) as [m|] eqn:Em; try done.
  rewrite (Hz z eq_refl). specialize (Ht t eq_refl). specialize (Hy y eq_refl). specialize (Hm m eq_refl). subst m.
  split; cbn; [|by rewrite (so_class _ _ Hs), (so_expires _ _ Hs)].
  pose proof (so_length _ _ Hs). pose proof (so_ranges _ _ Hs). unfold forget_time, fields_meta, st_fields in *. cbn. congruence.
Qed.

Definition head_ok (req : ReadInput) (o : result S3Error HeadAnswer * Node) : Prop :=
  same_answer same_head o.1 (o_head objs req) ∧ coherent o.2 objs c.

Lemma head_forward_ok n req : coherent n objs c → head_ok req (head_forward env (o_head objs) n req).
Proof using Hnow OL.
  intros Hco. unfold head_forward. destruct (o_head objs req) as [resp|e] eqn:Eh; split; cbn; try rewrite Eh; try done.
  destruct (head_eligible req) eqn:He; [|done]. pose proof (get_head objs req He) as Hg.
  destruct (objs !! ckey_of req) as [st|] eqn:Eo; [|destruct Hg as (e & Hg & _); congruence].
  rewrite Eh in Hg. injection Hg as ->. split; [|apply Hco..]. cbn.
  apply observe_ok; [apply Hco|done|by apply (co_objs _ _ _ Hco (ckey_of req))|lia].
Qed.

Lemma row_synced s bk k b : buckets s !! bk = Some b → kr_map (keys b) !! k = row s bk k.
Proof using. intros Hb. unfold row, bucket_or_default. by rewrite Hb. Qed.

Lemma head_indexed_ok n n0 req :
  coherent n objs c → n_gen n = n_gen n0 → head_eligible req = true →
  key_uncertain (n_index n) (ri_bucket req) (ri_key req) = false →
  head_ok req (head_indexed env (o_head objs) n req (n_gen n0)).
Proof using Hsingle Hnow OL.
  intros Hco Hg He Hun. unfold head_indexed. destruct (is_synced _ _) eqn:Hs; cbn [andb]; [|by apply head_forward_ok].
  rewrite gate_kept by done. unfold is_synced in Hs. unfold key_uncertain in Hun.
  destruct (buckets (n_index n) !! ri_bucket req) as [b|] eqn:Eb; [|done]. cbn in Hs, Hun.
  assert (bucket_or_default (n_index n) (ri_bucket req) = b) as Hb by (unfold bucket_or_default; by rewrite Eb).
  assert (fenced (n_index n) (ri_bucket req) (ri_key req) = None) as Hf.
  { unfold fenced. rewrite Hb. by destruct (uncertain_keys b !! ri_key req). }
  pose proof (get_head objs req He) as Hgh. unfold head_from_index, head_object_from_index. rewrite Eb.
  cbn [fmap option_fmap option_map mbind option_bind]. unfold Keys.get. rewrite (row_synced _ _ _ _ Eb).
  destruct (row (n_index n) (ri_bucket req) (ri_key req)) as [e|] eqn:Er.
  - destruct (is_faithful e) eqn:Hfa; cbn [negb]; [|by apply head_forward_ok].
    destruct (ix_row _ _ _ (co_index _ _ _ Hco) _ _ e Er Hf) as (st & Hst & Hd).
    change (ri_bucket req, ri_key req) with (ckey_of req) in Hst. rewrite Hst in Hgh. split; [|done]. rewrite Hgh. cbn.
    by eapply (index_head_same st e); [apply (co_objs _ _ _ Hco (ckey_of req))|..].
  - rewrite Hsingle. cbn [negb]. split; [|done].
    assert (objs !! ckey_of req = None) as Hn.
    { apply (ix_absent _ _ _ (co_index _ _ _ Hco)); [|done..]. unfold synced_at. by rewrite Hb. }
    rewrite Hn in Hgh. by destruct Hgh as (e & -> & Hst).
Qed.

Lemma serve_head_ok n req : coherent n objs c → head_ok req (serve_head env (o_head objs) n req).
Proof using Hsingle Hnow OL.
  intros Hco. unfold serve_head. destruct (head_eligible req) eqn:He; cbn [andb]; [|by apply head_forward_ok].
  destruct (key_uncertain _ _ _) eqn:Hun; cbn [negb andb]; [by apply head_forward_ok|].
  destruct (read_barrier env); [|by apply head_forward_ok]. rewrite Hsingle.
  destruct (local_hit n (ckey_of req) true Hco) as (hit & n' & -> & Hco' & Hg & Hix & Hfound).
  rewrite <- Hix in Hun. destruct hit as [obj|]; [|by apply head_indexed_ok].
  rewrite gate_kept by done. destruct (Hfound obj eq_refl) as (st & Hst & Hc).
  pose proof (get_head objs req He) as Hgh. rewrite Hst in Hgh. split; [|done]. rewrite Hgh. cbn. destruct Hc as [_ Hf].
  pose proof (co_objs _ _ _ Hco _ _ Hst) as Hs. split; [exact Hf|]. cbn. by rewrite (so_class _ _ Hs), (so_expires _ _ Hs).
Qed.
End reads.
