(* ===== verification/ProxyWrites.v ===== *)
(** * Mutations keep a node coherent

    What S3 documents of each mutation, as a relation between the objects before and
    after and the answer; and that the handlers of [Mutation] then leave the node
    coherent with the objects after. *)

From S2P Require Import Prelude.
From S2P Require Import ObjTypes.
From S2P Require Import ImageCodec.
From S2P Require Import Rows.
From S2P Require Import KeyIndex.
From S2P Require Import Wire.
From S2P Require Import Tier.
From S2P Require Import Proxy.
From S2P Require Import Mutation.
From S2P Require Import ProxyView.
From S2P Require Import ProxySpec.
From S2P Require Import ProxyReads.

(** ** Contracts *)

Definition objects_ok (objs : Objects) (c : Z) : Prop := ∀ k st, objs !! k = Some st → stored_ok st c.

(** A failure that is not uncertain proves the origin refused the mutation. *)
Definition definite (e : S3Error) : Prop := uncertain_mutation_error e false = None.

(** A failed mutation of [k]. *)
Definition refused (objs objs' : Objects) (k : CKey) (certain : Prop) : Prop := off objs objs' k ∧ (certain → objs' = objs).

(** The object a put stores. *)
Record put_stored (p : PutInput) (tag : option ETag) (st : Stored) : Prop := {
  ps_body : received (default [] (pi_body p)) = (st_body st, None);
  ps_length : ∀ z, pi_content_length p = Some z → z = blen (st_body st);
  ps_etag : ∀ t, tag = Some t → h_e_tag (st_fields st) = Some t;
  ps_type : ∀ t, pi_content_type p = Some t → h_content_type (st_fields st) = Some t;
  ps_meta : fields_meta (st_fields st) = put_meta p }.

Definition put_contract (objs : Objects) (p : PutInput) (r : result S3Error (option ETag)) (objs' : Objects) : Prop :=
  let k := (pi_bucket p, pi_key p) in
  match r with
  | Ok tag => ∃ st, objs' = <[k := st]> objs ∧ put_stored p tag st
  | Err e => refused objs objs' k (definite e)
  end.

Definition delete_contract (objs : Objects) (k : CKey) (versioned : bool) (r : result S3Error unit) (objs' : Objects) : Prop :=
  match r with
  | Ok _ => if versioned then off objs objs' k else objs' = delete k objs
  | Err e => refused objs objs' k (definite e)
  end.

(** A HEAD through the SDK reports the object as the proxy's own HEAD would. *)
Definition sdk_reports `{EtagParse} (h : SdkHead) (st : Stored) : Prop :=
  sdk_observed h = observed (st_head st) ∧ ∀ s ns, sh_last_modified h = Some (s, ns) → 0 <= ns.

(** Both HEADs of [upstream_meta], when they answer, are about the object now there. *)
Definition heads_report `{EtagParse} (objs : Objects) (k : CKey) (heads : option SdkHead * option SdkHead) : Prop :=
  ∀ h, heads.1 = Some h ∨ heads.2 = Some h → ∃ st, objs !! k = Some st ∧ sdk_reports h st.

Definition complete_contract `{EtagParse} (objs : Objects) (k : CKey) (r : result S3Error (option ETag))
    (heads : option SdkHead * option SdkHead) (objs' : Objects) : Prop :=
  match r with
  | Ok tag => (∃ st, objs' = <[k := st]> objs ∧ ∀ t, tag = Some t → h_e_tag (st_fields st) = Some t) ∧ heads_report objs' k heads
  | Err e => refused objs objs' k (uncertain_completion_error e = None)
  end.

(** Objects with the same tag have the same bytes, so the same length. *)
Definition copy_contract `{EtagParse} (objs : Objects) (k : CKey) (r : result S3Error (option ETag))
    (heads : option SdkHead * option SdkHead) (objs' : Objects) : Prop :=
  heads_report objs' k heads ∧
  match r with
  | Ok tag => ∃ st, objs' = <[k := st]> objs ∧
      ∀ t, tag = Some t → h_e_tag (st_fields st) = Some t ∧
        ∀ k1 st1, objs !! k1 = Some st1 → h_e_tag (st_fields st1) = Some t → blen (st_body st1) = blen (st_body st)
  | Err e => refused objs objs' k (definite e)
  end.

(** ** Bodies *)

Lemma off_insert objs k st : off objs (<[k := st]> objs) k.
Proof. intros k' Hne. by rewrite lookup_insert_ne. Qed.

Lemma off_delete objs k : off objs (delete k objs) k.
Proof. intros k' Hne. by rewrite lookup_delete_ne. Qed.

(** After an invalidation the bodies are right whatever became of the key. *)
Lemma invalidated_ok n objs objs' k :
  bodies_ok (n_hot n) objs → bodies_ok (n_warm n) objs → off objs objs' k →
  bodies_ok (n_hot (tier_invalidate n k)) objs' ∧ bodies_ok (n_warm (tier_invalidate n k)) objs'.
Proof. intros Hh Hw Hoff. split; by eapply bodies_ok_delete. Qed.

Lemma coherent_invalidate n objs c k : coherent n objs c → coherent (tier_invalidate n k) objs c.
Proof.
  intros Hco. destruct (invalidated_ok n objs objs k) as [H1 H2]; [apply Hco..|done|].
  split; [apply Hco|done|done|apply Hco].
Qed.

Lemma drain_received buf blob cap b : drain buf blob cap = Whole b → ∃ l, received blob = (l, None) ∧ b = buf ++ l.
Proof.
  revert buf. induction blob as [|[x|e] blob IH]; intros buf; cbn [drain received].
  - intros [= <-]. exists []. by rewrite app_nil_r.
  - case_match; [|done]. intros (l & -> & ->)%IH. exists (x ++ l). by rewrite app_assoc.
  - done.
Qed.

(** The forwarded request is the client's, body included; what is kept is its body. *)
Lemma buffered_put_spec max p :
  let '(w, p') := buffered_put_body max p in
  ∃ b, p' = with_body p b ∧ (pi_body p = None → b = None) ∧ received (default [] b) = received (default [] (pi_body p)) ∧
    ∀ bytes, w = Some bytes → received (default [] (pi_body p)) = (bytes, None) ∧ is_Some (pi_content_type p).
Proof.
  assert (∃ b, p = with_body p b ∧ (pi_body p = None → b = None) ∧ received (default [] b) = received (default [] (pi_body p)) ∧
    ∀ bytes, @None (list Byte.byte) = Some bytes → received (default [] (pi_body p)) = (bytes, None) ∧ is_Some (pi_content_type p)) as Hnone.
  { exists (pi_body p). by destruct p. }
  unfold buffered_put_body. destruct (is_none (pi_content_type p)) eqn:Ect; cbn [orb]; [done|].
  assert (is_Some (pi_content_type p)) as Hct by (destruct (pi_content_type p); [eauto|done]).
  destruct (put_origin_only p); [done|]. destruct (is_some_and _ _); [done|].
  destruct (pi_body p) as [blob|] eqn:Eb.
  2:{ exists None. split; [rewrite <- Eb; by destruct p|]. split_and!; [done..|]. by intros ? [= <-]. }
  unfold buffer_or_forward. destruct (drain [] blob max) as [bytes|rest] eqn:Ed.
  - apply drain_received in Ed as (l & Hr & ->). exists (Some [Ok l]). cbn in *. rewrite Hr, app_nil_r.
    split_and!; [done|done|done|]. by intros ? [= <-].
  - exists (Some rest). split_and!; [done|done| |done]. apply drain_streamed in Ed. cbn in *. rewrite Ed. by destruct (received blob).
Qed.

(** ** Recording *)

Section writes.
Context {L : Layout} {P : EtagParse}.

Lemma announce_ok n objs objs' c c' bk k now r n' :
  index_ok (n_index n) objs c → bodies_ok (n_hot n) objs → bodies_ok (n_warm n) objs → off objs objs' (bk, k) →
  objects_ok objs' c' → c <= c' →
  announce_unknown None n bk k now = Some (r, n') → r = None ∧ coherent n' objs' c'.
Proof using.
  intros Hi Hh Hw Hoff Ho Hc. unfold announce_unknown. destruct (fence_uncertain_key _ _ _) as [[token s]|] eqn:Ef; [|done].
  cbn [mbind option_bind]. intros [= <- <-]. split; [done|].
  destruct (invalidated_ok (with_index n s) objs objs' (bk, k)) as [H1 H2]; [done..|].
  split; [|done|done|done]. eapply index_ok_mono; [|done]. by eapply fence_ok.
Qed.

Lemma record_put_ok n objs objs' c c' bk k e st now r n' :
  index_ok (n_index n) objs c → bodies_ok (n_hot n) objs' → bodies_ok (n_warm n) objs' → off objs objs' (bk, k) →
  objects_ok objs' c' → c < wire_stamp now <= c' → objs' !! (bk, k) = Some st → describes e st →
  record_put None n bk k e now = Some (r, n') → r = Ok None ∧ coherent n' objs' c'.
Proof using.
  intros Hi Hh Hw Hoff Ho Hc Hst Hd. unfold record_put. destruct (_ && _).
  - unfold announce_unknown. destruct (fence_uncertain_key _ _ _) as [[token s]|] eqn:Ef; [|done].
    cbn [mbind option_bind]. intros [= <- <-]. split; [done|].
    destruct (invalidated_ok (with_index n s) objs' objs' (bk, k)) as [H1 H2]; [done..|].
    split; [|done|done|done]. eapply (index_ok_mono _ _ c); [|lia]. by eapply fence_ok.
  - intros [= <- <-]. split; [done|]. split; [|done..]. cbn [n_index with_index]. eapply put_ok; [done|done|done|done|].
    destruct Hd as [H1 H2 H3 H4]. by split.
Qed.

Lemma record_del_ok n objs objs' c c' bk k now :
  index_ok (n_index n) objs c → bodies_ok (n_hot n) objs' → bodies_ok (n_warm n) objs' → off objs objs' (bk, k) →
  objects_ok objs' c' → c <= wire_stamp now <= c' → objs' !! (bk, k) = None →
  (record_del None n bk k now).1 = None ∧ coherent (record_del None n bk k now).2 objs' c'.
Proof using.
  intros Hi Hh Hw Hoff Ho Hc Hn. unfold record_del. cbn [fst snd]. split; [done|]. split; [|done..]. cbn [n_index with_index]. by eapply del_ok.
Qed.

(** A refused or ambiguous mutation. *)
Lemma failed_ok {A} n objs objs' c c' bk k now reason e (r : result S3Error A) n' :
  coherent n objs c → off objs objs' (bk, k) → (reason = None → objs' = objs) → objects_ok objs' c' → c <= c' →
  mutation_failed None n bk k now reason e = Some (r, n') → r = Err e ∧ coherent n' objs' c'.
Proof using.
  intros Hco Hoff Hn Ho Hc. unfold mutation_failed. destruct reason as [why|].
  - unfold publish_unknown. destruct (announce_unknown None n bk k now) as [[x n1]|] eqn:Ea; [|done]. cbn [mbind option_bind].
    intros [= <- <-]. split; [done|]. eapply announce_ok in Ea as [_ H]; [exact H|apply Hco|apply Hco|apply Hco|done..].
  - intros [= <- <-]. split; [done|]. rewrite (Hn eq_refl) in *. destruct Hco as [Hi H2 H3 _]. split; [|done..].
    by eapply index_ok_mono.
Qed.

(** ** The handlers *)

Context (env : WriteEnv) (Hsync : we_sync env = None).

Definition put_forwarded (input : PutInput) : PutInput :=
  (if may_serve env then buffered_put_body (we_max_obj_bytes env) input else (None, input)).2.

(** The copy a put keeps is the object it stored. *)
Lemma written_copy input tag st bytes now g c :
  put_stored input (Some tag) st → stored_ok st c → received (default [] (pi_body input)) = (bytes, None) →
  is_Some (pi_content_type input) →
  copy_of (mark_trusted (from_get (written_object (pi_content_type input) tag (put_meta input) (blen bytes) now) bytes) g) st.
Proof using.
  intros Hps Hs Hr [ct Hct]. pose proof (ps_body _ _ _ Hps) as Hb. rewrite Hr in Hb. injection Hb as ->. split; [done|].
  pose proof (so_length _ _ Hs) as Hl. pose proof (so_ranges _ _ Hs) as Ha. pose proof (so_width _ _ Hs) as Hw.
  pose proof (ps_etag _ _ _ Hps tag eq_refl) as He. pose proof (ps_type _ _ _ Hps ct Hct) as Ht.
  pose proof (ps_meta _ _ _ Hps) as Hm. unfold put_meta in *. unfold fields_meta in Hm. injection Hm as H1 H2 H3 H4 H5.
  unfold forget_time. cbn. rewrite Hl, Ha, He, Ht, Hct, H1, H2, H3, H4, H5.
  unfold try_from. assert (fits i64_max (blen (st_body st)) = true) as ->; [|done].
  apply fits_spec. split; [apply blen_nonneg|done].
Qed.

Lemma put_describes input tag st : put_stored input tag st → describes (put_entry input tag) st.
Proof using.
  intros Hps. split; cbn; [apply Hps|apply Hps|apply Hps|]. intros m. destruct (is_some _); [|done].
  intros [= <-]. apply Hps.
Qed.

(** A contract on the forwarded request is one on the client's. *)
Lemma put_stored_with_body input b tag st :
  received (default [] b) = received (default [] (pi_body input)) → put_stored (with_body input b) tag st → put_stored input tag st.
Proof using. intros Hb [H1 H2 H3 H4 H5]. split; [|done..]. cbn in H1. congruence. Qed.

Lemma put_object_ok origin n objs objs' c c' input r n' :
  coherent n objs c → objects_ok objs' c' → c < wire_stamp (we_now env) <= c' →
  (if we_admitted env then put_contract objs (put_forwarded input) (origin (put_forwarded input)) objs' else objs' = objs) →
  put_object env origin n input = Some (r, n') → coherent n' objs' c'.
Proof using Hsync.
  intros Hco Ho Hc Hct. unfold put_object, put_forwarded in *.
  assert (∃ w p', (if may_serve env then buffered_put_body (we_max_obj_bytes env) input else (None, input)) = (w, p') ∧
    ∃ b, p' = with_body input b ∧ received (default [] b) = received (default [] (pi_body input)) ∧
      ∀ bytes, w = Some bytes → received (default [] (pi_body input)) = (bytes, None) ∧ is_Some (pi_content_type input))
    as (w & p' & E & b & -> & Hb & Hw).
  { destruct (may_serve env).
    - pose proof (buffered_put_spec (we_max_obj_bytes env) input) as H. destruct (buffered_put_body _ _) as [w p'].
      destruct H as (b & -> & _ & Hb & Hw). exists w, (with_body input b). split; [done|]. by exists b.
    - exists None, input. split; [done|]. exists (pi_body input). by destruct input. }
  rewrite E in Hct |- *. cbn [snd] in Hct. set (k := (pi_bucket input, pi_key input)).
  pose proof (coherent_invalidate n objs c k Hco) as Hco1.
  destruct (we_admitted env); cbn [negb].
  2:{ intros [= <- <-]. subst objs'. destruct Hco1 as [Hi Hh Hwm _]. split; [|done..]. eapply index_ok_mono; [done|lia]. }
  destruct (origin (with_body input b)) as [tag|e]; cbn in Hct.
  2:{ destruct Hct as [Hoff Hd]. rewrite Hsync. intros H. eapply failed_ok in H as [_ H]; [exact H|done|done| |done|lia].
      intros Hr. apply Hd. unfold definite. revert Hr. unfold uncertain_mutation_error.
      destruct (se_status e) as [x|]; [|done]. rewrite andb_false_r. by destruct (_ && _). }
  destruct Hct as (st & -> & Hps). apply put_stored_with_body in Hps; [|done]. fold k in Ho |- *.
  assert (stored_ok st c') as Hs by (apply (Ho k); by rewrite lookup_insert_eq).
  set (n1 := tier_invalidate (tier_invalidate n k) k).
  assert (bodies_ok (n_hot n1) (<[k := st]> objs) ∧ bodies_ok (n_warm n1) (<[k := st]> objs)) as [Hh1 Hw1].
  { apply (invalidated_ok _ objs); [apply Hco1..|apply off_insert]. }
  match goal with |- context [record_put _ ?n2 _ _ _ _] => set (n2' := n2) end.
  assert (n_index n2' = n_index n ∧ bodies_ok (n_hot n2') (<[k := st]> objs) ∧ bodies_ok (n_warm n2') (<[k := st]> objs))
    as (Hi2 & Hh2 & Hw2).
  { unfold n2'. destruct w as [bytes|]; [|done]. destruct (etag (put_entry input tag)) as [t|] eqn:Et; [|done]. cbn in Et. subst tag.
    destruct (Hw bytes eq_refl) as [Hrec Hty].
    assert (Hcp := written_copy input t st bytes (we_now_body env) (n_gen n) c' Hps Hs Hrec Hty).
    assert (<[k := st]> objs !! k = Some st) as Hk by apply lookup_insert_eq. cbn [tier_insert n_index n_hot n_warm].
    split; [done|]. split; [by eapply bodies_ok_insert|].
    destruct (we_disk env); [by eapply bodies_ok_insert|done]. }
  rewrite Hsync. clearbody n2'.
  destruct (record_put None n2' _ _ _ _) as [[tok n3]|] eqn:Er; [|done]. cbn [mbind option_bind]. intros [= _ <-].
  eapply record_put_ok in Er as [_ H]; [exact H|rewrite Hi2; apply Hco|done|done|apply off_insert|done|done|apply lookup_insert_eq|].
  by apply put_describes.
Qed.

Lemma delete_object_ok origin n objs objs' c c' bk k versioned r n' :
  coherent n objs c → objects_ok objs' c' → c <= wire_stamp (we_now env) <= c' →
  (if we_admitted env then delete_contract objs (bk, k) versioned origin objs' else objs' = objs) →
  delete_object env origin n bk k versioned = Some (r, n') → coherent n' objs' c'.
Proof using Hsync.
  intros Hco Ho Hc Hct. unfold delete_object. rewrite Hsync. destruct (we_admitted env); cbn [negb].
  2:{ intros [= <- <-]. subst objs'. destruct Hco as [Hi Hh Hw _]. split; [|done..]. eapply index_ok_mono; [done|lia]. }
  destruct origin as [[]|e]; cbn in Hct.
  2:{ destruct Hct as [Hoff Hd]. intros H. by eapply failed_ok in H as [_ H]; [exact H|done|done|done|done|lia]. }
  pose proof (coherent_invalidate n objs c (bk, k) Hco) as Hco1. destruct versioned.
  - destruct (announce_unknown None _ _ _ _) as [[x n1]|] eqn:Ea; [|done]. cbn [mbind option_bind]. intros [= _ <-].
    eapply announce_ok in Ea as [_ H]; [exact H|apply Hco1..|done|done|lia].
  - subst objs'. cbn [mbind option_bind].
    destruct (invalidated_ok n objs (delete (bk, k) objs) (bk, k)) as [H1 H2]; [apply Hco..|apply off_delete|].
    destruct (record_del_ok (tier_invalidate n (bk, k)) objs (delete (bk, k) objs) c c' bk k (we_now env)) as [_ H];
      [apply Hco|done|done|apply off_delete|done|done|apply lookup_delete_eq|].
    destruct (record_del None (tier_invalidate n (bk, k)) bk k (we_now env)) as [x n1]. cbn [snd] in H. by intros [= _ <-].
Qed.

(** ** Batches *)

(** The effect of a batch, key by key: an applied key is deleted (one version of it may be
    anything), any other key is as it was. Clock readings do not go back. *)
Fixpoint batch_contract (quiet : bool) (answer : BatchAnswer) (bk : string) (requested : list (string * bool * option Sync * Z))
    (objs : Objects) (c : Z) (objs' : Objects) (c' : Z) : Prop :=
  match requested with
  | [] => objs' = objs ∧ c <= c' ∧ objects_ok objs c'
  | (k, versioned, sync, now) :: rest =>
      let applied := if quiet then negb (bool_decide (k ∈ ba_errors answer)) else bool_decide (k ∈ ba_deleted answer) in
      sync = None ∧ ∃ objs1 c1,
        (if applied
         then delete_contract objs (bk, k) versioned (Ok tt) objs1 ∧ c <= wire_stamp now <= c1 ∧ objects_ok objs1 c1
         else objs1 = objs ∧ c1 = c) ∧
        batch_contract quiet answer bk rest objs1 c1 objs' c'
  end.

Lemma coherent_mono n objs c c' : coherent n objs c → c <= c' → objects_ok objs c' → coherent n objs c'.
Proof using. intros [Hi Hh Hw _] Hc Ho. split; [by eapply index_ok_mono|done..]. Qed.

Lemma delete_each_ok quiet answer n objs objs' c c' bk requested receipt r n' :
  coherent n objs c → batch_contract quiet answer bk requested objs c objs' c' →
  delete_each quiet answer n bk requested receipt = Some (r, n') → coherent n' objs' c'.
Proof using.
  revert n objs c receipt. induction requested as [|[[[k versioned] sync] now] rest IH]; intros n objs c receipt Hco;
    cbn [batch_contract delete_each].
  { intros (-> & Hc & Ho) [= <- <-]. by eapply coherent_mono. }
  intros (-> & objs1 & c1 & H1 & Hrest). destruct (if quiet then _ else _); cbn [negb].
  2:{ destruct H1 as [-> ->]. by eapply IH. }
  destruct H1 as (Hd & Hc & Ho). pose proof (coherent_invalidate n objs c (bk, k) Hco) as Hco1.
  assert (∀ p n1, (if versioned then announce_unknown None (tier_invalidate n (bk, k)) bk k now
      else Some (record_del None (tier_invalidate n (bk, k)) bk k now)) = Some (p, n1) → coherent n1 objs1 c1) as Hone.
  { intros p n1. destruct versioned; cbn in Hd.
    - intros Ea. eapply announce_ok in Ea as [_ H]; [exact H|apply Hco1..|done|done|lia].
    - subst objs1. destruct (invalidated_ok n objs (delete (bk, k) objs) (bk, k)) as [H1 H2]; [apply Hco..|apply off_delete|].
      destruct (record_del_ok (tier_invalidate n (bk, k)) objs (delete (bk, k) objs) c c1 bk k now) as [_ H];
        [apply Hco|done|done|apply off_delete|done|done|apply lookup_delete_eq|].
      intros E. injection E as _ <-. exact H. }
  destruct (if versioned then _ else _) as [[p n1]|]; [|done]. cbn [mbind option_bind].
  by eapply IH; [apply (Hone p n1)|].
Qed.

(** A batch whose outcome is unknown: any requested key may have changed. *)
Definition off_all (objs objs' : Objects) (ks : list CKey) : Prop := ∀ k, k ∉ ks → objs' !! k = objs !! k.

Lemma announce_each_ok n objs objs' c c' bk requested n' :
  coherent n objs c → objects_ok objs' c' → c <= c' →
  Forall (λ r, r.1.2 = None) requested → off_all objs objs' ((λ r, (bk, r.1.1.1)) <$> requested) →
  announce_each n bk requested = Some n' → coherent n' objs' c'.
Proof using.
  revert n objs c. induction requested as [|[[[k versioned] sync] now] rest IH]; intros n objs c Hco Ho Hc Hsy Hoff;
    cbn [announce_each].
  { intros [= <-]. assert (objs' = objs) as -> by (apply map_eq; intros k; apply Hoff; by apply not_elem_of_nil).
    by eapply coherent_mono. }
  apply Forall_cons in Hsy as [Hsync1 Hsy]. cbn in Hsync1. subst sync.
  destruct (announce_unknown None n bk k now) as [[x n1]|] eqn:Ea; [|done]. cbn [mbind option_bind].
  set (objs1 := partial_alter (λ _, objs' !! (bk, k)) (bk, k) objs).
  assert (∀ k', objs1 !! k' = if decide (k' = (bk, k)) then objs' !! k' else objs !! k') as Hl.
  { intros k'. unfold objs1. case_decide; [subst; by rewrite lookup_partial_alter_eq|by rewrite lookup_partial_alter_ne]. }
  assert (objects_ok objs1 c') as Ho1.
  { intros k' st. rewrite Hl. case_decide; [apply Ho|]. intros Hst. apply (co_objs _ _ _ Hco) in Hst.
    destruct Hst as [? ? ? (t & ? & ?) ? ?]. split; try done. exists t. split; [done|lia]. }
  eapply announce_ok in Ea as [_ H1]; [|apply Hco..| |exact Ho1|exact Hc].
  2:{ intros k' Hne. rewrite Hl. by rewrite decide_False. }
  eapply IH; [exact H1|done|lia|done|]. intros k' Hk'. rewrite Hl. case_decide; [done|]. apply Hoff.
  cbn. rewrite not_elem_of_cons. done.
Qed.

Definition batch_outcome (quiet : bool) (bk : string) (requested : list (string * bool * option Sync * Z))
    (origin : result S3Error BatchAnswer) (objs : Objects) (c : Z) (objs' : Objects) (c' : Z) : Prop :=
  match origin with
  | Ok answer => batch_contract quiet answer bk requested objs c objs' c'
  | Err e =>
      off_all objs objs' ((λ r, (bk, r.1.1.1)) <$> requested) ∧ (definite e → objs' = objs) ∧
      Forall (λ r, r.1.2 = None) requested ∧ objects_ok objs' c' ∧ c <= c'
  end.

Lemma delete_objects_ok origin n objs objs' c c' bk quiet requested r n' :
  coherent n objs c →
  (if we_admitted env then batch_outcome quiet bk requested origin objs c objs' c' else objs' = objs ∧ c' = c) →
  delete_objects env origin n bk quiet requested = Some (r, n') → coherent n' objs' c'.
Proof using Hsync.
  intros Hco Hct. unfold delete_objects. destruct (we_admitted env); cbn [negb].
  2:{ destruct Hct as [-> ->]. by intros [= <- <-]. }
  destruct origin as [answer|e]; cbn in Hct.
  - destruct (delete_each _ _ _ _ _ _) as [[rc n1]|] eqn:E; [|done]. cbn [mbind option_bind]. intros [= _ <-].
    by eapply delete_each_ok.
  - destruct Hct as (Hoff & Hd & Hsy & Ho & Hc). unfold definite in Hd.
    destruct (uncertain_mutation_error e false) as [why|].
    + destruct (announce_each n bk requested) as [n1|] eqn:E; [|done]. cbn [mbind option_bind]. intros [= _ <-].
      by eapply announce_each_ok.
    + intros [= <- <-]. rewrite (Hd eq_refl) in *. by eapply coherent_mono.
Qed.

(** ** Multipart completion, copies and reconciliation *)

Lemma upstream_reports objs k heads o :
  heads_report objs k heads → upstream_meta heads.1 heads.2 = Some o → ∃ st, objs !! k = Some st ∧ o = observed (st_head st).
Proof using.
  intros Hh. unfold upstream_meta. destruct heads as [[h1|] [h2|]]; cbn in *; try done;
    intros [= <-]; match goal with |- context [sdk_observed ?h] => destruct (Hh h) as (st & Hst & -> & _) end; eauto.
Qed.

Lemma observed_describes st c : stored_ok st c → describes (observed_entry (Some (observed (st_head st)))) st.
Proof using.
  intros Hs. split; cbn.
  - intros z Hz. pose proof (so_length _ _ Hs) as Hl. unfold st_fields in Hl. congruence.
  - done.
  - done.
  - by intros m [= <-].
Qed.

Lemma with_etag_describes e tag st :
  describes e st → (∀ t, tag = Some t → h_e_tag (st_fields st) = Some t) → describes (with_etag e tag) st.
Proof using. intros [H1 H2 H3 H4] Ht. split; cbn; [done| |done|done]. intros t. unfold or_else. destruct tag; eauto. Qed.

Lemma nothing_describes st : describes (observed_entry None) st.
Proof using. by split. Qed.

Lemma of_this_describes objs k heads tag st c :
  heads_report objs k heads → objs !! k = Some st → stored_ok st c →
  describes (observed_entry (of_this tag (upstream_meta heads.1 heads.2))) st.
Proof using.
  intros Hh Hst Hs. destruct (upstream_meta heads.1 heads.2) as [o|] eqn:E; [|apply nothing_describes].
  apply (upstream_reports objs k heads) in E as (st' & Hst' & ->); [|done]. assert (st' = st) by congruence. subst st'.
  cbn [of_this mbind option_bind]. destruct (_ || _); [by eapply observed_describes|apply nothing_describes].
Qed.

Lemma complete_ok origin heads n objs objs' c c' bk k r n' :
  coherent n objs c → objects_ok objs' c' → c < wire_stamp (we_now env) <= c' →
  (if we_admitted env then complete_contract objs (bk, k) origin heads objs' else objs' = objs) →
  complete_multipart_upload env origin heads n bk k = Some (r, n') → coherent n' objs' c'.
Proof using Hsync.
  intros Hco Ho Hc Hct. unfold complete_multipart_upload. rewrite Hsync. destruct (we_admitted env); cbn [negb].
  2:{ intros [= <- <-]. subst objs'. by apply (coherent_mono _ _ c); [|lia|]. }
  destruct origin as [tag|e]; cbn in Hct.
  2:{ destruct Hct as [Hoff Hd]. intros H. by eapply failed_ok in H as [_ H]; [exact H|done|done|done|done|lia]. }
  destruct Hct as ((st & -> & Htag) & Hh). set (k' := (bk, k)) in *.
  assert (<[k' := st]> objs !! k' = Some st) as Hk by apply lookup_insert_eq.
  destruct (record_put None _ bk k _ _) as [[t n1]|] eqn:Er; [|done]. cbn [mbind option_bind]. intros [= _ <-].
  destruct (invalidated_ok n objs (<[k' := st]> objs) k') as [H1 H2]; [apply Hco..|apply off_insert|].
  eapply record_put_ok in Er as [_ H]; [exact H|apply Hco|done|done|apply off_insert|done|done|done|].
  apply with_etag_describes; [|done]. by eapply of_this_describes; [|done|apply (Ho k')].
Qed.

Lemma copy_describes s objs objs' c c' k st source class tag heads :
  index_ok s objs c → objs' !! k = Some st → stored_ok st c' → heads_report objs' k heads →
  (∀ t, tag = Some t → h_e_tag (st_fields st) = Some t ∧
     ∀ k1 st1, objs !! k1 = Some st1 → h_e_tag (st_fields st1) = Some t → blen (st_body st1) = blen (st_body st)) →
  describes (copy_entry s source class tag heads) st.
Proof using.
  intros Hi Hk Hs Hh Ht. unfold copy_entry. destruct (tag ≫= indexed_source_size s source) as [sz|] eqn:E;
    [|by eapply of_this_describes].
  destruct tag as [t|]; [|done]. destruct (Ht t eq_refl) as [Het Hlen].
  split; cbn; [|intros t' [= <-]; done|done|done]. intros z [= <-]. cbn in E.
  unfold indexed_source_size in E. destruct source as [sb sk [|]|]; try done.
  destruct (buckets s !! sb) as [b|] eqn:Eb; [|done]. cbn in E.
  destruct (synced b); cbn in E; [|done]. destruct (uncertain_keys b !! sk) eqn:Eu; cbn in E; [done|].
  unfold Keys.get in E. destruct (kr_map (keys b) !! sk) as [e|] eqn:Ee; [|done]. cbn in E.
  case_bool_decide as Hte; [|done].
  assert (bucket_or_default s sb = b) as Hb by (unfold bucket_or_default; by rewrite Eb).
  destruct (ix_row _ _ _ Hi sb sk e) as (st1 & Hst1 & Hd1); [unfold row; by rewrite Hb|unfold fenced; by rewrite Hb|].
  rewrite (de_size _ _ Hd1 sz E). apply (Hlen (sb, sk)); [done|]. by apply (de_etag _ _ Hd1).
Qed.

Lemma copy_object_ok origin heads n objs objs' c c' bk k source class create_only r n' :
  coherent n objs c → objects_ok objs' c' → 0 <= we_now env → c < wire_stamp (we_now env) → we_now env <= c' →
  (if we_admitted env then copy_contract objs (bk, k) origin heads objs' else objs' = objs) →
  copy_object env origin heads n bk k source class create_only = Some (r, n') → coherent n' objs' c'.
Proof using Hsync.
  intros Hco Ho H0 Hc1 Hc2 Hct. pose proof (wire_stamp_le (we_now env) H0) as Hws. unfold copy_object. rewrite Hsync.
  pose proof (coherent_invalidate n objs c (bk, k) Hco) as Hco1. destruct (we_admitted env); cbn [negb].
  2:{ intros [= <- <-]. subst objs'. by apply (coherent_mono _ _ c); [|lia|]. }
  destruct Hct as [Hh Hct]. destruct origin as [tag|e].
  - destruct Hct as (st & -> & Htag). set (k' := (bk, k)) in *.
    assert (<[k' := st]> objs !! k' = Some st) as Hk by apply lookup_insert_eq.
    destruct (record_put None _ bk k _ _) as [[t n1]|] eqn:Er; [|done]. cbn [mbind option_bind]. intros [= _ <-].
    destruct (invalidated_ok (tier_invalidate n k') objs (<[k' := st]> objs) k') as [H1 H2]; [apply Hco1..|apply off_insert|].
    eapply record_put_ok in Er as [_ H]; [exact H|apply Hco|done|done|apply off_insert|done|lia|done|].
    apply with_etag_describes; [|intros t' Ht'; by apply Htag].
    eapply (copy_describes _ objs _ c c' k'); [apply Hco|done|by apply (Ho k')|done|done].
  - destruct Hct as [Hoff Hd]. destruct (copy_conflict_needs_reconcile e create_only) eqn:Ecr.
    + unfold copy_conflict_needs_reconcile in Ecr. apply andb_true_iff in Ecr as [_ Ecr]. apply bool_decide_eq_true in Ecr.
      assert (objs' = objs) as -> by (apply Hd; unfold definite, uncertain_mutation_error; by rewrite Ecr).
      intros [= <- <-]. assert (coherent (tier_invalidate n (bk, k)) objs c') as Hco2 by (by apply (coherent_mono _ _ c); [|lia|]).
      destruct (upstream_meta heads.1 heads.2) as [o|] eqn:E; [|done].
      apply (upstream_reports objs (bk, k) heads) in E as (st & Hst & ->); [|done].
      split; [|apply Hco2..]. cbn [n_index with_index]. apply observe_ok; [apply Hco2|done|by apply (Ho (bk, k))|lia].
    + intros H. by eapply failed_ok in H as [_ H]; [exact H|done|done|done|done|lia].
Qed.

(** What a reconciling HEAD says of the key. *)
Definition reply_ok (objs : Objects) (k : CKey) (reply : HeadReply) : Prop :=
  match reply with
  | HeadFound h => ∃ st, objs !! k = Some st ∧ sdk_reports h st
  | HeadNotFound => objs !! k = None
  | HeadFailed => True
  end.

Lemma authoritative_describes h st now c :
  sdk_reports h st → stored_ok st c → now <= c →
  describes (authoritative_head_entry h now) st ∧ last_modified (authoritative_head_entry h now) <= c.
Proof using.
  intros [Hr Hns] Hs Hn. unfold sdk_observed, observed in Hr. injection Hr as R1 R2 R3 R4 R5 R6. split.
  - pose proof (so_length _ _ Hs) as Hl. unfold st_fields in Hl. split; cbn; unfold st_fields.
    + intros z Hz. congruence.
    + intros t Ht. congruence.
    + intros t Ht. congruence.
    + intros m [= <-]. done.
  - cbn. destruct (so_time _ _ Hs) as (t & Et & Ht). unfold st_fields in Et. rewrite Et in R2.
    destruct (sh_last_modified h) as [[secs ns]|] eqn:Em; [|done]. specialize (Hns secs ns eq_refl). cbn in R2 |- *.
    unfold origin_time. destruct (try_from u64_max secs) as [z|] eqn:Ez; [|done]. cbn in R2 |- *.
    injection R2 as <-. unfold UNIX_EPOCH in *. lia.
Qed.

Lemma reconcile_ok n objs c bk k token backoff reply now :
  coherent n objs c → now <= c → reply_ok objs (bk, k) reply →
  coherent (with_index n (reconcile_turn (n_index n) bk k token backoff reply now).2) objs c.
Proof using.
  intros Hco Hn Hr. unfold reconcile_turn. assert (coherent (with_index n (n_index n)) objs c) as Hsame by (by destruct n).
  destruct (uncertain_key_is_current _ _ _ _); cbn [negb]; [|exact Hsame].
  destruct reply as [h| |]; [..|exact Hsame]; (split; [|apply Hco..]); cbn [n_index with_index snd].
  - destruct Hr as (st & Hst & Hrep). destruct (authoritative_describes h st now c) as [H1 H2]; [done|by apply (co_objs _ _ _ Hco (bk, k))|done|].
    apply resolve_ok; [apply Hco|done| |done]. intros e [= <-]. split; [done|]. by exists st.
  - apply resolve_ok; [apply Hco|done|done|done].
Qed.
End writes.
