(* ===== verification/Transparency.v ===== *)
(** * A single node is transparent

    The runs of a node without gossip, its origin and its clock, and the theorem: whatever
    was read, written, evicted, reconciled or restarted before, a read is answered as the
    origin would answer it. *)

From S2P Require Import Prelude.
From S2P Require Import ObjTypes.
From S2P Require Import ImageCodec.
From S2P Require Import Rows.
From S2P Require Import KeyIndex.
From S2P Require Import Wire.
From S2P Require Import Tier.
From S2P Require Import Proxy.
From S2P Require Import Mutation.
From S2P Require Import ProxyView.
From S2P Require Import ProxySpec.
From S2P Require Import ProxyReads.
From S2P Require Import ProxyWrites.

(** The clock bounds every stamp so far. *)
Record Sys := mkSys { sys_node : Node; sys_objs : Objects; sys_clock : Z }.

Definition fresh_node (warm : gmap CKey CachedObject) : Node := mkNode KeyIndexState_default ∅ warm 1.

(** A request [s3s] parsed: a range never ends before it starts. *)
Definition parsed (req : ReadInput) : Prop := ∀ r, from_request true (ri_range req) = Some r → range_wf r.

Definition reads_now (env : ReadEnv) (c : Z) : Prop := re_gossip env = false ∧ 0 <= re_now env <= c.

Section system.
Context {L : Layout} {P : EtagParse} {OR : OriginReads} {OL : OriginLaws}.

Inductive sys_step : Sys → Sys → Prop :=
| sys_get n objs c env req r n' :
    reads_now env c → parsed req → serve_get env (o_get objs) n req = Some (r, n') →
    sys_step (mkSys n objs c) (mkSys n' objs c)
| sys_head n objs c env req :
    reads_now env c → sys_step (mkSys n objs c) (mkSys (serve_head env (o_head objs) n req).2 objs c)
| sys_put n objs c env origin input r n' objs' c' :
    we_sync env = None → c < wire_stamp (we_now env) <= c' → objects_ok objs' c' →
    (if we_admitted env then put_contract objs (put_forwarded env input) (origin (put_forwarded env input)) objs' else objs' = objs) →
    put_object env origin n input = Some (r, n') → sys_step (mkSys n objs c) (mkSys n' objs' c')
| sys_delete n objs c env origin bk k versioned r n' objs' c' :
    we_sync env = None → c <= wire_stamp (we_now env) <= c' → objects_ok objs' c' →
    (if we_admitted env then delete_contract objs (bk, k) versioned origin objs' else objs' = objs) →
    delete_object env origin n bk k versioned = Some (r, n') → sys_step (mkSys n objs c) (mkSys n' objs' c')
| sys_delete_batch n objs c env origin bk quiet requested r n' objs' c' :
    we_sync env = None →
    (if we_admitted env then batch_outcome quiet bk requested origin objs c objs' c' else objs' = objs ∧ c' = c) →
    delete_objects env origin n bk quiet requested = Some (r, n') → sys_step (mkSys n objs c) (mkSys n' objs' c')
| sys_complete n objs c env origin heads bk k r n' objs' c' :
    we_sync env = None → c < wire_stamp (we_now env) <= c' → objects_ok objs' c' →
    (if we_admitted env then complete_contract objs (bk, k) origin heads objs' else objs' = objs) →
    complete_multipart_upload env origin heads n bk k = Some (r, n') → sys_step (mkSys n objs c) (mkSys n' objs' c')
| sys_copy n objs c env origin heads bk k source class create_only r n' objs' c' :
    we_sync env = None → 0 <= we_now env → c < wire_stamp (we_now env) → we_now env <= c' → objects_ok objs' c' →
    (if we_admitted env then copy_contract objs (bk, k) origin heads objs' else objs' = objs) →
    copy_object env origin heads n bk k source class create_only = Some (r, n') → sys_step (mkSys n objs c) (mkSys n' objs' c')
| sys_reconcile n objs c bk k token backoff reply now :
    now <= c → reply_ok objs (bk, k) reply →
    sys_step (mkSys n objs c) (mkSys (with_index n (reconcile_turn (n_index n) bk k token backoff reply now).2) objs c)
(** A bucket's index is built from a complete listing of the origin. *)
| sys_warm_up n objs c bk page :
    NoDup page.*1 →
    (∀ k e, (k, e) ∈ page → last_modified e <= c ∧ ∃ st, objs !! (bk, k) = Some st ∧ describes e st) →
    (∀ k, is_Some (objs !! (bk, k)) → k ∈ page.*1) →
    sys_step (mkSys n objs c) (mkSys (with_index n (warm_up (n_index n) bk page)) objs c)
(** The origin deletes only an empty bucket. *)
| sys_delete_bucket n objs c origin bk :
    sys_step (mkSys n objs c) (mkSys (delete_bucket origin n bk).2 objs c)
| sys_evict_hot n objs c k : sys_step (mkSys n objs c) (mkSys (with_hot n (delete k (n_hot n))) objs c)
| sys_evict_warm n objs c k :
    sys_step (mkSys n objs c) (mkSys (mkNode (n_index n) (n_hot n) (delete k (n_warm n)) (n_gen n)) objs c)
| sys_distrust n objs c : sys_step (mkSys n objs c) (mkSys (mkNode (n_index n) (n_hot n) (n_warm n) (n_gen n + 1)) objs c)
(** The process restarts; the disk survives. *)
| sys_restart n objs c : sys_step (mkSys n objs c) (mkSys (fresh_node (n_warm n)) objs c).

Inductive sys_reachable : Sys → Prop :=
| sys_start objs c : objects_ok objs c → sys_reachable (mkSys (fresh_node ∅) objs c)
| sys_next s s' : sys_reachable s → sys_step s s' → sys_reachable s'.

Lemma default_index_ok objs c : index_ok KeyIndexState_default objs c.
Proof using. split; intros bk k; unfold row, dead_at, fenced, synced_at, bucket_or_default; cbn; rewrite ?lookup_empty; done. Qed.

Lemma fresh_coherent warm objs c : bodies_ok warm objs → objects_ok objs c → coherent (fresh_node warm) objs c.
Proof using. intros Hw Ho. split; [apply default_index_ok|intros k o; cbn; by rewrite lookup_empty|done|done]. Qed.

Lemma bodies_ok_evict m objs k : bodies_ok m objs → bodies_ok (delete k m) objs.
Proof using. intros Hm. by eapply bodies_ok_delete. Qed.

Lemma sys_step_coherent s s' :
  sys_step s s' → coherent (sys_node s) (sys_objs s) (sys_clock s) → coherent (sys_node s') (sys_objs s') (sys_clock s').
Proof using OL.
  intros Hs Hco. destruct Hs as [n objs c env req r n' [He Hn] Hp E|n objs c env req [He Hn]| | | | | | | |n objs c [u|e] bk
    |n objs c k|n objs c k|n objs c|n objs c]; cbn [sys_node sys_objs sys_clock] in *.
  - destruct (serve_get_ok env objs c He Hn n req Hco Hp) as (r1 & n1 & E1 & _ & H). congruence.
  - by apply serve_head_ok.
  - by eapply put_object_ok.
  - by eapply delete_object_ok.
  - by eapply delete_objects_ok.
  - by eapply complete_ok.
  - by eapply copy_object_ok.
  - by apply reconcile_ok.
  - split; [by apply warm_up_ok; [apply Hco|..]|apply Hco..].
  - split; [cbn; apply remove_bucket_ok, Hco|apply Hco..].
  - done.
  - split; [apply Hco|apply bodies_ok_evict, Hco|apply Hco..].
  - split; [apply Hco|apply Hco|apply bodies_ok_evict, Hco|apply Hco].
  - split; apply Hco.
  - apply fresh_coherent; [apply Hco|exact (co_objs _ _ _ Hco)].
Qed.

Lemma reachable_coherent s : sys_reachable s → coherent (sys_node s) (sys_objs s) (sys_clock s).
Proof using OL. induction 1 as [objs c Ho|s s' _ IH Hs]; [by apply fresh_coherent|by eapply sys_step_coherent]. Qed.

(** [C3] A single node is transparent: after any run of the steps below, every GET and every
    HEAD a client can send is answered as the origin would answer it itself, up to the chunks
    of the body and [Last-Modified]; and no such request makes the GET path panic.  The steps
    are reads, puts, deletes, batch deletes, multipart completions, copies (refused and
    ambiguous ones included), reconciliations, index warm-ups, evictions and restarts.  What
    is assumed of them: the origin's objects carry only headers a cached copy has a field for
    (no [Expires], storage class or lock headers), a write replaces the whole object (no
    append), each write is stamped later than what was stamped before it, and the origin
    answers reads and reports writes as the S3 documentation says. *)
Theorem reads_transparent (s : Sys) (env : ReadEnv) (req : ReadInput) :
  sys_reachable s → reads_now env (sys_clock s) → parsed req →
  (∃ r n, serve_get env (o_get (sys_objs s)) (sys_node s) req = Some (r, n) ∧ same_answer same_get r (o_get (sys_objs s) req)) ∧
  same_answer same_head (serve_head env (o_head (sys_objs s)) (sys_node s) req).1 (o_head (sys_objs s) req).
Proof using OL.
  intros Hr%reachable_coherent [He Hn] Hp. split.
  - destruct (serve_get_ok env (sys_objs s) (sys_clock s) He Hn (sys_node s) req Hr Hp) as (r & n & E & H & _). by exists r, n.
  - by apply (serve_head_ok env (sys_objs s) (sys_clock s) He Hn (sys_node s) req Hr).
Qed.
End system.
