(* ===== verification/TransparencyDemo.v ===== *)
(** * Transparency at a concrete origin

    An origin that keeps the documented read behaviour, and a run of the system on it. *)

From S2P Require Import Prelude.
From S2P Require Import ObjTypes.
From S2P Require Import ImageCodec.
From S2P Require Import Rows.
From S2P Require Import KeyIndex.
From S2P Require Import Wire.
From S2P Require Import Tier.
From S2P Require Import Proxy.
From S2P Require Import Mutation.
From S2P Require Import ProxyView.
From S2P Require Import ProxySpec.
From S2P Require Import ProxyReads.
From S2P Require Import ProxyWrites.
From S2P Require Import Transparency.
From S2P Require Import CodecProps.

#[local] Existing Instance layout64.
#[local] Existing Instance parse_quoted.

Definition no_such_key : S3Error := mkS3Error (Some 404) "NoSuchKey".

Definition demo_reads : OriginReads := {|
  o_get objs req :=
    match objs !! ckey_of req with
    | None => Err no_such_key
    | Some st =>
        let whole := Ok (mkGetAnswer (Some [Ok (st_body st)]) None (st_head st)) in
        match from_request true (ri_range req) with
        | None => whole
        | Some r =>
            match covered r (blen (st_body st)) with
            | None => Err (mkS3Error (Some 416) "InvalidRange")
            | Some (a, b) =>
                Ok (mkGetAnswer (Some [Ok (take (Z.to_nat (b + 1 - a)) (drop (Z.to_nat a) (st_body st)))])
                      (Some ("bytes " +:+ show a +:+ "-" +:+ show b +:+ "/" +:+ show (blen (st_body st))))
                      (mkHeadAnswer (with_content_length (st_fields st) (b + 1 - a)) (ha_storage_class (st_head st))
                         (ha_expires (st_head st))))
            end
        end
    end;
  o_head objs req := match objs !! ckey_of req with None => Err no_such_key | Some st => Ok (st_head st) end;
|}.
#[local] Existing Instance demo_reads.

Lemma demo_reads_laws : OriginLaws.
Proof.
  split.
  - intros objs req _ Hr. cbn [o_get demo_reads]. destruct (objs !! ckey_of req) as [st|]; [|by eexists]. rewrite Hr. cbn.
    eexists. split; [done|]. cbn. by rewrite app_nil_r.
  - intros objs req r st a b _ Hr Ho Hc. cbn [o_get demo_reads]. rewrite Ho, Hr, Hc. eexists. split; [done|]. cbn. by rewrite app_nil_r.
  - intros objs req _. cbn [o_head demo_reads]. destruct (objs !! ckey_of req) as [st|]; [done|]. by eexists.
Qed.

(** ** A run *)

Definition plain_read (bk k : string) (range : option Range) : ReadInput :=
  mkReadInput bk k range None None None None None None None None None.

Definition plain_put (bk k : string) (body : bytes) : PutInput :=
  mkPutInput bk k (Some [Ok body]) (Some (blen body)) (Some "text/plain") None None None None None None None None None None
    None None None None None None None None.

Definition demo_read_env (now : Z) : ReadEnv := mkReadEnv false true true None true 1024 true now.
Definition demo_write_env (now : Z) : WriteEnv := mkWriteEnv None true 1024 true now now.

Definition hello : bytes := [Byte.x68; Byte.x65; Byte.x6c; Byte.x6c; Byte.x6f].

Definition demo_stored (t : Z) : Stored :=
  mkStored hello (mkHeadAnswer (mkHead (Some 5) (Some t) (Some (Strong "v1")) (Some "text/plain") (Some "bytes")
    None None None None None) None None).

Definition demo_put (n : Node) : option (result S3Error (option ETag * option string) * Node) :=
  put_object (demo_write_env 5000) (λ _, Ok (Some (Strong "v1"))) n (plain_put "b" "k" hello).
Definition demo_synced : Node := with_index (fresh_node ∅) (warm_up KeyIndexState_default "b" []).
Definition demo_node : Node := match demo_put demo_synced with Some (_, n) => n | None => demo_synced end.

Lemma demo_put_runs : ∃ r, demo_put demo_synced = Some (r, demo_node).
Proof. unfold demo_node. destruct (demo_put demo_synced) as [[r n]|] eqn:E; [by exists r|]. vm_compute in E. discriminate. Qed.

Lemma demo_objects_ok : objects_ok (<[("b", "k") := demo_stored 5000]> ∅) 5000.
Proof.
  intros k st [[<- <-]|[_ H]]%lookup_insert_Some; [|by rewrite lookup_empty in H].
  split; try done. exists 5000. split; [done|lia].
Qed.

Lemma demo_reachable : sys_reachable (mkSys demo_node (<[("b", "k") := demo_stored 5000]> ∅) 5000).
Proof.
  destruct demo_put_runs as [r Hr]. eapply sys_next; [eapply sys_next; [apply (sys_start ∅ 0)|]|].
  - intros k st H. by rewrite lookup_empty in H.
  - apply (sys_warm_up (fresh_node ∅) ∅ 0 "b" []); [constructor|..].
    + intros k e H. by apply not_elem_of_nil in H.
    + intros k [st H]. by rewrite lookup_empty in H.
  - eapply sys_put; [..|exact Hr]; [done|cbn; vm_compute; split; done|apply demo_objects_ok|].
    cbn. exists (demo_stored 5000). split; [done|]. by split; try intros ? [= <-].
Qed.

(** The written object is read back from the node: a range of its body, and its HEAD. *)
Lemma reads_transparent_witness :
  sys_reachable (mkSys demo_node (<[("b", "k") := demo_stored 5000]> ∅) 5000) ∧
  reads_now (demo_read_env 5000) 5000 ∧ parsed (plain_read "b" "k" (Some (RInt 1 (Some 3)))) ∧
  (∃ r n, serve_get (demo_read_env 5000) (o_get (<[("b", "k") := demo_stored 5000]> ∅)) demo_node
            (plain_read "b" "k" (Some (RInt 1 (Some 3)))) = Some (r, n) ∧
          same_answer same_get r (o_get (<[("b", "k") := demo_stored 5000]> ∅) (plain_read "b" "k" (Some (RInt 1 (Some 3)))))).
Proof.
  assert (reads_now (demo_read_env 5000) 5000) as Hn by (split; [reflexivity|cbn; lia]).
  assert (parsed (plain_read "b" "k" (Some (RInt 1 (Some 3))))) as Hp.
  { intros r [= <-]. split; [lia|]. intros l [= <-]. lia. }
  split; [exact demo_reachable|]. split; [exact Hn|]. split; [exact Hp|].
  exact (proj1 (@reads_transparent _ _ _ demo_reads_laws (mkSys demo_node (<[("b", "k") := demo_stored 5000]> ∅) 5000)
    (demo_read_env 5000) (plain_read "b" "k" (Some (RInt 1 (Some 3)))) demo_reachable Hn Hp)).
Defined.
