(* ===== verification/TransparencyEnds.v ===== *)
(** * Where transparency ends

    Two requests of a single node after which a read is not answered as the origin answers
    it: an append, and a GET of an object with headers a cached copy has no field for.
    [Transparency] assumes both away; here they are followed through the handlers. *)

From S2P Require Import Prelude.
From S2P Require Import ObjTypes.
From S2P Require Import ImageCodec.
From S2P Require Import Rows.
From S2P Require Import KeyIndex.
From S2P Require Import ListIndex.
From S2P Require Import Wire.
From S2P Require Import Tier.
From S2P Require Import Proxy.
From S2P Require Import Mutation.
From S2P Require Import ProxyView.
From S2P Require Import ProxySpec.
From S2P Require Import ProxyReads.
From S2P Require Import ProxyWrites.
From S2P Require Import Transparency.
From S2P Require Import TransparencyDemo.
From S2P Require Import CodecProps.

Section ends.
Context {L : Layout} {P : EtagParse}.

(** ** Reads past the body tiers *)

Definition uncached (n : Node) (k : CKey) : Prop := n_hot n !! k = None ∧ n_warm n !! k = None.

Lemma uncached_get n k : uncached n k → validated_get false n k = (None, n).
Proof using. intros [Hh Hw]. unfold validated_get, tier_get. by rewrite Hh, Hw. Qed.

Lemma uncached_probe n k : uncached n k → probe false n k = (None, n).
Proof using. intros [Hh Hw]. unfold probe, tier_get. by rewrite Hh, Hw. Qed.

Lemma not_uncertain s bk k : fenced s bk k = None → key_uncertain s bk k = false.
Proof using. unfold fenced, key_uncertain, bucket_or_default. by destruct (buckets s !! bk) as [b|]; cbn; [intros ->|]. Qed.

(** A faithful row of a synced bucket, not fenced and not cached, answers the HEAD. *)
Lemma faithful_head env origin n req e :
  re_gossip env = false → head_eligible req = true → uncached n (ckey_of req) →
  synced_at (n_index n) (ri_bucket req) = true → fenced (n_index n) (ri_bucket req) (ri_key req) = None →
  row (n_index n) (ri_bucket req) (ri_key req) = Some e → is_faithful e = true →
  ∃ a, (serve_head env origin n req).1 = Ok a ∧ h_content_length (ha_fields a) = size e.
Proof using.
  intros Hg He Hu Hs Hf Hr Hfa. unfold serve_head, read_barrier. rewrite He, Hg. cbn [negb ckey_of fst snd].
  rewrite (not_uncertain _ _ _ Hf). cbn [negb andb]. rewrite uncached_get by done. unfold head_indexed.
  unfold synced_at, row, bucket_or_default in *. unfold is_synced, head_from_index, head_object_from_index.
  destruct (buckets (n_index n) !! ri_bucket req) as [b|]; cbn in Hs, Hr; [|done].
  rewrite gate_open by done. cbn [from_option is_some_and]. rewrite Hs. cbn [andb fmap option_fmap option_map mbind option_bind].
  unfold Keys.get. rewrite Hr, Hfa. by eexists.
Qed.

(** ** Appends *)

(** [C39] An append breaks transparency.  On any reachable single node whose bucket is
    indexed, a put with [write_offset_bytes] that the origin accepts is indexed with the
    length of the bytes it added: every HEAD of the key that is then answered from the
    index reports that length, while the origin reports the bytes before the offset as
    well. *)
Theorem append_head_wrong `{OriginLaws} (s : Sys) wenv origin input offset len ct tag :
  sys_reachable s → synced_at (n_index (sys_node s)) (pi_bucket input) = true →
  we_sync wenv = None → we_admitted wenv = true → sys_clock s < wire_stamp (we_now wenv) →
  pi_write_offset_bytes input = Some offset → 0 < offset → pi_content_length input = Some len → pi_content_type input = Some ct →
  origin input = Ok (Some tag) →
  ∃ n, put_object wenv origin (sys_node s) input = Some (Ok (Some tag, None), n) ∧
    ∀ env objs req st, re_gossip env = false → head_eligible req = true → ckey_of req = (pi_bucket input, pi_key input) →
      objs !! ckey_of req = Some st → h_content_length (st_fields st) = Some (offset + len) →
      (∃ a, (serve_head env (o_head objs) n req).1 = Ok a ∧ h_content_length (ha_fields a) = Some len) ∧
      ¬ same_answer same_head (serve_head env (o_head objs) n req).1 (o_head objs req).
Proof using.
  intros Hr%reachable_coherent Hs Hy Ha Hc Ho Hpos Hl Ht Htag. set (bk := pi_bucket input) in *. set (k := pi_key input).
  set (e := mkObjEntry (Some len) (wire_stamp (we_now wenv)) (Some tag) (write_storage_class (pi_storage_class input)) (Some ct) (Some (put_meta input))).
  set (n0 := tier_invalidate (tier_invalidate (sys_node s) (bk, k)) (bk, k)).
  set (n := with_index n0 (apply_put (n_index (sys_node s)) bk k e).2). exists n. split.
  - assert (Hoo : put_origin_only input = true).
    { unfold put_origin_only. rewrite Ho. change (is_some (Some offset)) with true. by rewrite !orb_true_r. }
    unfold put_object, may_serve. rewrite Hy, Ha. cbn [is_none_or negb]. unfold buffered_put_body. rewrite Hoo, orb_true_r, Htag. unfold put_entry. rewrite Ht, Hl.
    cbn [record_put is_none is_some negb andb etag size storage_class content_type meta]. reflexivity.
  - intros env objs req st Hg He Hk Hst Hlen. injection Hk as Hkb Hkk.
    destruct (fresh_put_view (n_index (sys_node s)) bk k e) as (Hat & _ & Hrow & Hf).
    { intros o Hx. apply (ix_stamp _ _ _ (co_index _ _ _ Hr)) in Hx. cbn. lia. }
    { intros t Hx. apply (ix_dead _ _ _ (co_index _ _ _ Hr)) in Hx. cbn. lia. }
    destruct (faithful_head env (o_head objs) n req e) as (a & Hx & Hal); [done|done| |rewrite Hkb|rewrite Hkb, Hkk|rewrite Hkb, Hkk|done|].
    { unfold ckey_of. rewrite Hkb, Hkk. by split; apply lookup_delete_eq. }
    { cbn [n n_index with_index]. by rewrite (oa_synced _ _ _ _ Hat). }
    { exact Hf. }
    { exact Hrow. }
    split; [by exists a|]. rewrite Hx. pose proof (get_head objs req He) as Hgh. rewrite Hst in Hgh. rewrite Hgh.
    intros [Hsame _]. unfold st_fields in Hlen. apply (f_equal h_content_length) in Hsame. cbn in Hsame. rewrite Hal, Hlen in Hsame.
    injection Hsame as Hsame. cbn in Hsame. lia.
Qed.

(** ** Headers without a field *)

(** [C40] A GET that fills the cache drops headers.  On a single node in any state, a plain
    GET of a key that is not cached, not fenced and not known to be oversized, whose answer
    fits the cap and arrives whole, is answered with the copy it filled: without the
    [Expires] and the storage class the origin sent, so not as the origin answered; and so
    is every plain GET of the key after it. *)
Theorem get_drops_expires env origin n req resp blob body :
  re_gossip env = false → read_unconditional req = true → ri_range req = None →
  uncached n (ckey_of req) → fenced (n_index n) (ri_bucket req) (ri_key req) = None →
  (∀ sz, index_size (n_index n) (ri_bucket req) (ri_key req) = Some sz → sz <= re_max_obj_bytes env) →
  origin req = Ok resp → fits_cap env (default (-1) (h_content_length (ha_fields (ga_head resp)))) = true →
  ga_body resp = Some blob → buffer_body blob (re_max_obj_bytes env) = Some body →
  ∃ a n', serve_get env origin n req = Some (Ok a, n') ∧
    ha_expires (ga_head a) = None ∧ ha_storage_class (ga_head a) = None ∧
    (is_Some (ha_expires (ga_head resp)) ∨ is_Some (ha_storage_class (ga_head resp)) → ¬ same_answer same_get (Ok a) (origin req)) ∧
    ∀ env' origin', re_gossip env' = false → key_uncertain (n_index n') (ri_bucket req) (ri_key req) = false →
      serve_get env' origin' n' req = Some (Ok a, n').
Proof using.
  intros Hg Hu Hr Hun Hf Hsz Ho Hcap Hb Hbuf. set (k := ckey_of req).
  set (obj := mark_trusted (from_get (mkGet None (ga_content_range resp) (ha_fields (ga_head resp))) body) (n_gen n)).
  set (n' := tier_insert (with_index n (observe (n_index n) k.1 k.2 (observed (ga_head resp)) (re_now env))) k obj (re_disk env)).
  exists (local_get (to_get obj)), n'. split_and!; [|done|done| |].
  - unfold serve_get. rewrite Hu, Hr, Hg. cbn [is_some is_none andb orb from_request negb]. cbn [ckey_of fst snd].
    rewrite (not_uncertain _ _ _ Hf). unfold read_barrier. rewrite Hg. cbn [negb andb]. rewrite uncached_get by done.
    unfold serve_whole_miss. cbn [negb orb]. replace (is_some_and _ (index_size _ _ _)) with false.
    2:{ destruct (index_size _ _ _) as [sz|]; cbn; [|done]. specialize (Hsz sz eq_refl). symmetry. apply andb_false_iff. right. by apply Z.ltb_ge. }
    unfold fill_whole_get, get_or_fetch. rewrite Hg, !uncached_probe by done. unfold whole_fetch. rewrite Ho, Hcap, Hb, Hbuf. cbn [negb].
    cbn [ckey_of fst snd]. rewrite Z.eqb_refl, (not_uncertain _ _ _ Hf). cbn [negb orb andb]. unfold local_read_gate_now.
    cbn [tier_insert with_index n_gen]. rewrite Z.eqb_refl, Hg. reflexivity.
  - intros Hx. rewrite Ho. intros (_ & _ & _ & Hc & He). cbn in Hc, He. destruct Hx as [[x Hx]|[x Hx]]; congruence.
  - intros env' origin' Hg' Hk. unfold serve_get. rewrite Hu, Hr, Hg'. cbn [is_some is_none andb orb from_request negb]. cbn [ckey_of fst snd].
    rewrite Hk. unfold read_barrier. rewrite Hg'. cbn [negb andb]. unfold validated_get, tier_get.
    assert (n_hot n' !! ckey_of req = Some obj) as -> by apply lookup_insert_eq. cbn [negb]. by rewrite gate_open.
Qed.
End ends.

(** ** At the demonstration's node *)

#[local] Existing Instance layout64.
#[local] Existing Instance parse_quoted.
#[local] Existing Instance demo_reads.
#[local] Existing Instance demo_reads_laws.

(** An append to the object of the run: the request carries the bytes added at its end. *)
Definition append_put (bk k : string) (offset : Z) (body : bytes) : PutInput :=
  mkPutInput bk k (Some [Ok body]) (Some (blen body)) (Some "text/plain") None None None None None None None None None
    (Some offset) None None None None None None None None.

Definition appended_stored (t : Z) : Stored :=
  mkStored (hello ++ hello) (mkHeadAnswer (mkHead (Some 10) (Some t) (Some (Strong "v2")) (Some "text/plain") (Some "bytes")
    None None None None None) None None).
Definition appended_objs : Objects := <[("b", "k") := appended_stored 5000000000]> ∅.

Lemma append_head_wrong_witness :
  ∃ n, put_object (demo_write_env 5000000000) (λ _, Ok (Some (Strong "v2"))) demo_node (append_put "b" "k" 5 hello)
         = Some (Ok (Some (Strong "v2"), None), n) ∧
    ¬ same_answer same_head (serve_head (demo_read_env 5000000000) (o_head appended_objs) n (plain_read "b" "k" None)).1
        (o_head appended_objs (plain_read "b" "k" None)).
Proof.
  destruct (append_head_wrong (mkSys demo_node (<[("b", "k") := demo_stored 5000]> ∅) 5000) (demo_write_env 5000000000)
    (λ _, Ok (Some (Strong "v2"))) (append_put "b" "k" 5 hello) 5 5 "text/plain" (Strong "v2"))
    as (n & Hp & Hh); [exact demo_reachable|vm_compute; reflexivity|reflexivity|reflexivity|vm_compute; reflexivity|reflexivity|lia|reflexivity..|].
  exists n. split; [exact Hp|].
  exact (proj2 (Hh (demo_read_env 5000000000) appended_objs (plain_read "b" "k" None) (appended_stored 5000000000)
    eq_refl eq_refl eq_refl (lookup_insert_eq _ _ _) eq_refl)).
Defined.

(** An object stored with an [Expires] header. *)
Definition expiring_stored (t : Z) : Stored :=
  mkStored hello (mkHeadAnswer (mkHead (Some 5) (Some t) (Some (Strong "v1")) (Some "text/plain") (Some "bytes")
    None None None None None) None (Some "Thu, 01 Dec 2033 16:00:00 GMT")).
Definition expiring_objs : Objects := <[("b", "k") := expiring_stored 5000]> ∅.

Lemma get_drops_expires_witness :
  ∃ a n, serve_get (demo_read_env 5000) (o_get expiring_objs) (fresh_node ∅) (plain_read "b" "k" None) = Some (Ok a, n) ∧
    ¬ same_answer same_get (Ok a) (o_get expiring_objs (plain_read "b" "k" None)).
Proof.
  destruct (get_drops_expires (demo_read_env 5000) (o_get expiring_objs) (fresh_node ∅) (plain_read "b" "k" None)
    (mkGetAnswer (Some [Ok hello]) None (st_head (expiring_stored 5000))) [Ok hello] hello)
    as (a & n & Hs & _ & _ & Hd & _); [reflexivity..|split; reflexivity|reflexivity|intros sz Hsz; discriminate Hsz|vm_compute; reflexivity|reflexivity|reflexivity|reflexivity|].
  exists a, n. split; [exact Hs|]. apply Hd. left. by eexists.
Defined.
