(* ===== verification/Scan.v ===== *)
(** * Origin scans

    [src/src/index/scan.rs]: a full LIST of a bucket, split into adjacent key ranges that
    are scanned concurrently under one rebuild generation.  The origin's replies are
    arguments, each listed object with the clock reading its row falls back on.  A range's
    scan is one function per page, since other scans and writes run between two pages. *)

From S2P Require Import Prelude.
From S2P Require Import ObjTypes.
From S2P Require Import ImageCodec.
From S2P Require Import Rows.
From S2P Require Import IndexCapture.
From S2P Require Import KeyIndex.

(** ** The client *)

Record ListCall := mkListCall {
  lc_prefix : option string;
  lc_delimiter : option string;
  lc_start_after : option string;
  lc_token : option string;
}.

Record ListedObject := mkListed {
  lo_key : option string;
  lo_size : option Z;
  lo_last_modified : option Z;
  lo_e_tag : option string;
  lo_storage_class : option string;
}.

Record ListReply := mkListReply {
  lr_contents : list (ListedObject * Z);
  lr_common_prefixes : list (option string);
  lr_is_truncated : option bool;
  lr_next_token : option string;
}.

Inductive ScanError :=
| OriginFailed | OmittedKey | OutOfOrder | Superseded | TooManyEmptyPages | OmittedToken | RepeatedToken.

(** ** Limits *)

Definition MAX_WORKERS : Z := 64.
Definition MAX_DISCOVERY_REQUESTS : Z := 64.
Definition MAX_PREFIX_DEPTH : Z := 8.

Record ScanConfig := mkScanConfig { workers : Z; discovery_budget : Z }.

Definition clamp (lo hi v : Z) : Z := if v <? lo then lo else if hi <? v then hi else v.

Definition bounded (c : ScanConfig) : ScanConfig :=
  mkScanConfig (clamp 1 MAX_WORKERS (workers c)) (Z.min (discovery_budget c) MAX_DISCOVERY_REQUESTS).

(** ** Ranges *)

Record KeyRange := mkKeyRange { kr_lower : option string; kr_upper : option string }.

Fixpoint ranges_from (lower : option string) (boundaries : list string) : list KeyRange :=
  match boundaries with
  | [] => [mkKeyRange lower None]
  | b :: boundaries => mkKeyRange lower (Some b) :: ranges_from (Some b) boundaries
  end.
Definition ranges (boundaries : list string) : list KeyRange := ranges_from None boundaries.

(** [None] is the panic of an index out of bounds. *)
Definition choose_boundaries (prefixes : list string) (workers : Z) : option (list string) :=
  let range_count := Z.min workers (Z.of_nat (length prefixes) + 1) in
  mapM (λ part, prefixes !! Z.to_nat (Z.of_nat part * Z.of_nat (length prefixes) / range_count))
    (seq 1 (Z.to_nat (range_count - 1))).

(** [Vec::dedup]. *)
Fixpoint dedup (l : list string) : list string :=
  match l with
  | a :: l =>
      match dedup l with
      | b :: l' => if bool_decide (a = b) then b :: l' else a :: b :: l'
      | [] => [a]
      end
  | [] => []
  end.

Definition slashes (s : string) : Z :=
  Z.of_nat (length (filter (λ c, c = Ascii.ascii_of_nat 47) (String.list_ascii_of_string s))).

Definition discovery_call (prefix : string) (token : option string) : ListCall :=
  mkListCall (Some prefix) (Some "/") None token.

(** The requests of the loop over [prefix], then the loop over the queue: [budget] is what is
    left of the discovery budget. *)
Fixpoint discover (config : ScanConfig) (client : nat → ListCall → result unit ListReply) (budget n : nat)
    (queue best : list string) (prefix : string) (children : list string) (token : option string) : list string :=
  match budget with
  | O => best
  | S budget =>
      match client n (discovery_call prefix token) with
      | Err _ => best
      | Ok response =>
          let children := children ++ omap id (lr_common_prefixes response) in
          match children with
          | [] => best
          | _ =>
              if negb (default false (lr_is_truncated response)) then
                let children := dedup (merge_sort String.le children) in
                let best := if (length best <? length children)%nat then children else best in
                if workers config * 8 <=? Z.of_nat (length best) then best
                else
                  match (if slashes prefix <? MAX_PREFIX_DEPTH then queue ++ children else queue) with
                  | [] => best
                  | prefix :: queue => discover config client budget (S n) queue best prefix [] None
                  end
              else
                match lr_next_token response with
                | None => best
                | Some token => discover config client budget (S n) queue best prefix children (Some token)
                end
          end
      end
  end.

Definition discover_boundaries (client : nat → ListCall → result unit ListReply) (config : ScanConfig)
    : option (list string) :=
  if (workers config =? 1) || (discovery_budget config =? 0) then Some []
  else
    choose_boundaries (discover config client (Z.to_nat (discovery_budget config)) 0 [] [] EmptyString [] None)
      (workers config).

(** ** One range *)

Record RangeScan := mkRangeScan {
  rs_range : KeyRange;
  rs_token : option string;
  rs_previous : option string;
  rs_found : nat;
  rs_empty_pages : Z;
}.

Definition scan_start (range : KeyRange) : RangeScan := mkRangeScan range None None 0 0.

Definition scan_call (sc : RangeScan) : ListCall :=
  mkListCall None None (match rs_token sc with Some _ => None | None => kr_lower (rs_range sc) end) (rs_token sc).

Section scan.
Context {P : EtagParse} {L : Layout}.

Definition listed_entry (obj : ListedObject) (now : Z) : ObjEntry :=
  mkObjEntry (lo_size obj) (default now (secs ← lo_last_modified obj; origin_time secs))
    (lo_e_tag obj ≫= etag_parse) (default standard_class (lo_storage_class obj)) None None.

(** The rows of a page up to the range's upper bound, whether a key lay past it, and the
    last key seen. *)
Fixpoint page_rows (range : KeyRange) (previous : option string) (contents : list (ListedObject * Z))
    : result ScanError (list (string * ObjEntry) * bool * option string) :=
  match contents with
  | [] => Ok ([], false, previous)
  | (obj, now) :: contents =>
      key ← ok_or (lo_key obj) OmittedKey;
      if is_some_and (λ last, sleb key last) previous || is_some_and (λ lower, sleb key lower) (kr_lower range)
      then Err OutOfOrder
      else if is_some_and (λ upper, sltb upper key) (kr_upper range) then Ok ([], true, Some key)
      else
        '(rows, past_upper, previous) ← page_rows range (Some key) contents;
        Ok ((key, listed_entry obj now) :: rows, past_upper, previous)
  end.

(** What follows a published page: the end of the scan, or its next request. *)
Definition after_page (sc : RangeScan) (response : ListReply) (past_upper : bool) (previous : option string) (found : nat)
    : result ScanError (nat + RangeScan) :=
  if past_upper || negb (default false (lr_is_truncated response)) then Ok (inl found)
  else
    let empty_pages := if (length (lr_contents response) =? 0)%nat then rs_empty_pages sc + 1 else 0 in
    if 8 <? empty_pages then Err TooManyEmptyPages
    else
      next ← ok_or (lr_next_token response) OmittedToken;
      if bool_decide (rs_token sc = Some next) then Err RepeatedToken
      else Ok (inr (mkRangeScan (rs_range sc) (Some next) previous found empty_pages)).

(** [permitted]: there is no permit, or it still publishes. *)
Definition scan_page (s : KeyIndexState) (bucket : string) (generation : Z) (permitted : bool) (sc : RangeScan)
    (reply : result unit ListReply) : result ScanError (nat + RangeScan) * KeyIndexState :=
  match reply with
  | Err _ => (Err OriginFailed, s)
  | Ok response =>
      match page_rows (rs_range sc) (rs_previous sc) (lr_contents response) with
      | Err e => (Err e, s)
      | Ok (rows, past_upper, previous) =>
          let '(updated, s) :=
            if permitted then sync_listing_into_generation s bucket generation rows else (None, s) in
          match updated with
          | None => (Err Superseded, s)
          | Some page_len => (after_page sc response past_upper previous (rs_found sc + page_len), s)
          end
      end
  end.

(** The loop of one range without interference, [n] requests made so far. [None]: out of
    fuel. *)
Fixpoint scan_range (fuel : nat) (client : nat → ListCall → result unit ListReply) (n : nat) (s : KeyIndexState)
    (bucket : string) (generation : Z) (sc : RangeScan) : option (result ScanError nat * KeyIndexState) :=
  match fuel with
  | O => None
  | S fuel =>
      match scan_page s bucket generation true sc (client n (scan_call sc)) with
      | (Err e, s) => Some (Err e, s)
      | (Ok (inl found), s) => Some (Ok found, s)
      | (Ok (inr sc), s) => scan_range fuel client (S n) s bucket generation sc
      end
  end.
End scan.

(** ** The whole bucket *)

(** Where the range scans of a bucket stand. *)
Inductive RangeStatus := Running (sc : RangeScan) | Ended (found : nat).

Definition start_scans (boundaries : list string) : list RangeStatus := Running ∘ scan_start <$> ranges boundaries.

(** Every range has succeeded: the scan publishes and reports its rows. *)
Definition all_found (scans : list RangeStatus) : option nat :=
  foldr (λ st acc, match st with Ended n => (λ m, (n + m)%nat) <$> acc | Running _ => None end) (Some O) scans.

Definition finish_scan (s : KeyIndexState) (bucket : string) (generation : Z) (permitted : bool) (scans : list RangeStatus)
    : option (result ScanError nat * KeyIndexState) :=
  found ← all_found scans;
  let '(finished, s) := if permitted then finish_bucket_sync_generation s bucket generation else (false, s) in
  Some (if finished then Ok found else Err Superseded, s).
