(* ===== verification/ScanProps.v ===== *)
(** * What a scan publishes

    Whatever discovery finds, the ranges split the key space; and the rows that the scans
    of the ranges publish, between writes and changes at the origin, are the origin's
    listing. *)

From S2P Require Import Prelude.
From S2P Require Import ObjTypes.
From S2P Require Import ImageCodec.
From S2P Require Import Rows.
From S2P Require Import IndexCapture.
From S2P Require Import KeyIndex.
From S2P Require Import IndexWf.
From S2P Require Import IndexSteps.
From S2P Require Import IndexInv.
From S2P Require Import IndexMachine.
From S2P Require Import IndexLww.
From S2P Require Import IndexRebuild.
From S2P Require Import Scan.

(** ** Boundaries *)

Lemma dedup_elem l x : x ∈ dedup l ↔ x ∈ l.
Proof.
  induction l as [|a l IH]; [done|]. cbn [dedup]. rewrite elem_of_cons, <- IH.
  destruct (dedup l) as [|b l']; [by rewrite list_elem_of_singleton, elem_of_nil; naive_solver|].
  case_bool_decide; [subst|]; rewrite !elem_of_cons; naive_solver.
Qed.

Lemma dedup_sorted l : StronglySorted String.le l → StronglySorted slt (dedup l).
Proof.
  induction 1 as [|a l Hl IH Hall]; [constructor|]. cbn [dedup].
  assert (Forall (λ b, a <ₛ b ∨ a = b) (dedup l)) as Hd.
  { rewrite Forall_forall in Hall |- *. intros b Hb. by apply le_sleb, Hall, dedup_elem. }
  destruct (dedup l) as [|b l']; [repeat constructor|]. case_bool_decide as Hab; [done|].
  apply StronglySorted_inv in IH as [Hl' Hb]. constructor; [by constructor|]. inversion Hd as [|? ? [Hlt|] _]; subst; [|done].
  constructor; [done|]. eapply Forall_impl; [exact Hb|]. intros c Hc. by trans b.
Qed.

Lemma discover_sorted config client budget n queue best prefix children token :
  StronglySorted slt best → StronglySorted slt (discover config client budget n queue best prefix children token).
Proof.
  revert n queue best prefix children token. induction budget as [|budget IH]; intros n queue best prefix children token Hb; [done|].
  cbn [discover]. destruct (client n _) as [r|]; [|done]. set (cs := children ++ _). destruct cs as [|c cs'] eqn:Ecs; [done|]. rewrite <- Ecs.
  destruct (negb _).
  - set (ds := dedup (merge_sort String.le cs)).
    assert (StronglySorted slt ds) as Hds by apply dedup_sorted, (StronglySorted_merge_sort String.le).
    set (best' := if (_ <? _)%nat then _ else _). assert (StronglySorted slt best') as Hb' by (unfold best'; by destruct (_ <? _)%nat).
    destruct (_ <=? _); [done|]. destruct (if _ <? _ then _ else _) as [|p q]; [done|]. by apply IH.
  - destruct (lr_next_token r) as [t|]; [|done]. by apply IH.
Qed.

(** A position is chosen once, in order, inside the list. *)
Lemma chosen_position (len rc p q : Z) :
  rc <= len + 1 → 1 <= p < q → q < rc → 0 <= p * len / rc < q * len / rc ∧ q * len / rc < len.
Proof.
  intros Hrc Hp Hq. assert (0 <= p * len / rc) by (apply Z.div_pos; nia).
  assert (q * len / rc < len) by (apply Z.div_lt_upper_bound; nia).
  assert (∀ x, 1 <= x < rc → len = rc - 1 → x * len / rc = x - 1) as Hd.
  { intros x Hx ->. symmetry. apply (Z.div_unique _ _ _ (rc - x)); lia. }
  enough (p * len / rc < q * len / rc) by lia.
  destruct (decide (rc <= len)) as [Hle|].
  - apply Z.lt_le_trans with (p * len / rc + 1); [lia|]. rewrite <- Z.div_add by lia. apply Z.div_le_mono; nia.
  - rewrite !Hd; lia.
Qed.

Lemma slt_sorted_lookup l i j a b : StronglySorted slt l → l !! i = Some a → l !! j = Some b → (i < j)%nat → a <ₛ b.
Proof.
  intros Hl. revert i j. induction Hl as [|x l Hl IH Hall]; intros [|i] [|j] Ha Hb Hij; try done; try lia; cbn in *.
  - simplify_eq. rewrite Forall_forall in Hall. by apply Hall, (list_elem_of_lookup_2 _ j).
  - apply (IH i j Ha Hb). lia.
Qed.

Lemma lookup_slt_sorted l :
  (∀ i j a b, (i < j)%nat → l !! i = Some a → l !! j = Some b → a <ₛ b) → StronglySorted slt l.
Proof.
  induction l as [|x l IH]; intros H; [constructor|]. constructor.
  - apply IH. intros i j a b Hij Ha Hb. by apply (H (S i) (S j)); [lia|..].
  - apply Forall_forall. intros y [j Hj]%list_elem_of_lookup_1. by apply (H 0%nat (S j)); [lia|..].
Qed.

Lemma choose_sorted prefixes w :
  StronglySorted slt prefixes → 1 <= w →
  ∃ bs, choose_boundaries prefixes w = Some bs ∧ StronglySorted slt bs ∧ Z.of_nat (length bs) < w.
Proof.
  intros Hp Hw. unfold choose_boundaries. set (len := Z.of_nat (length prefixes)). set (rc := Z.min w (len + 1)).
  set (parts := seq 1 _). set (f := λ part : nat, prefixes !! _).
  assert (∀ i x, parts !! i = Some x → x = S i ∧ 1 <= Z.of_nat x < rc) as Hparts.
  { intros i x [-> Hi]%lookup_seq. unfold rc in *. split; [done|lia]. }
  assert (is_Some (mapM f parts)) as [bs Hbs].
  { apply mapM_is_Some_2, Forall_forall. intros x [i Hi]%list_elem_of_lookup_1. apply Hparts in Hi as [_ Hx].
    unfold f. apply lookup_lt_is_Some. apply Nat2Z.inj_lt. fold len.
    assert (0 <= Z.of_nat x * len / rc < len); [|lia]. split; [apply Z.div_pos; nia|apply Z.div_lt_upper_bound; nia]. }
  exists bs. split; [done|]. apply mapM_Some_1 in Hbs. split.
  - apply lookup_slt_sorted. intros i j a b Hij Ha Hb.
    destruct (Forall2_lookup_r _ _ _ _ _ Hbs Ha) as (x & Hx & Hfx). destruct (Forall2_lookup_r _ _ _ _ _ Hbs Hb) as (y & Hy & Hfy).
    apply Hparts in Hx as [-> Hx], Hy as [-> Hy]. unfold f in *. eapply (slt_sorted_lookup prefixes); [done|exact Hfx|exact Hfy|].
    destruct (chosen_position len rc (Z.of_nat (S i)) (Z.of_nat (S j))); lia.
  - apply Forall2_length in Hbs. rewrite <- Hbs. unfold parts. rewrite length_seq. lia.
Qed.

(** ** Ranges *)

Definition in_range (r : KeyRange) (k : string) : bool :=
  is_none_or (λ lower, sltb lower k) (kr_lower r) && is_none_or (λ upper, sleb k upper) (kr_upper r).

Lemma ranges_from_above bs b k : StronglySorted slt (b :: bs) →
  ∀ r, r ∈ ranges_from (Some b) bs → in_range r k = true → b <ₛ k.
Proof.
  revert b. induction bs as [|b' bs IH]; intros b Hs r Hr; cbn [ranges_from] in Hr.
  - apply list_elem_of_singleton in Hr as ->. unfold in_range. cbn. by rewrite andb_true_r, sltb_lt.
  - apply StronglySorted_inv in Hs as [Hs Hb]. apply elem_of_cons in Hr as [->|Hr].
    + unfold in_range. cbn. intros [?%sltb_lt _]%andb_true_iff. done.
    + intros Hk. apply (IH b' Hs r Hr) in Hk. apply Forall_cons in Hb as [Hb _]. by trans b'.
Qed.

Lemma ranges_from_one lower bs k :
  StronglySorted slt bs → is_none_or (λ l, sltb l k) lower = true →
  ∃ i, ∀ j r, ranges_from lower bs !! j = Some r → in_range r k = true ↔ j = i.
Proof.
  revert lower. induction bs as [|b bs IH]; intros lower Hs Hl; cbn [ranges_from].
  - exists 0%nat. intros [|j] r; [|done]. cbn. intros [= <-]. unfold in_range. cbn. by rewrite Hl.
  - destruct (sleb k b) eqn:Eb.
    + exists 0%nat. intros [|j] r Hr; cbn in Hr.
      * injection Hr as <-. unfold in_range. cbn. by rewrite Hl, Eb.
      * split; [|done]. intros Hk. exfalso. apply (ranges_from_above bs b k) in Hk; [|done|by eapply list_elem_of_lookup_2].
        apply sleb_le in Eb as [?| ->]; [by apply (slt_asym b k)|by apply (slt_irrefl b)].
    + assert (sltb b k = true) as Hb by (by rewrite sltb_sleb, Eb).
      destruct (IH (Some b)) as [i Hi]; [by apply StronglySorted_inv in Hs as []|done|].
      exists (S i). intros [|j] r Hr; cbn in Hr.
      * injection Hr as <-. unfold in_range. cbn. rewrite Eb, andb_false_r. done.
      * rewrite (Hi j r Hr). lia.
Qed.

Lemma ranges_from_covers lower bs k :
  StronglySorted slt bs → is_none_or (λ l, sltb l k) lower = true →
  ∃ i r, ranges_from lower bs !! i = Some r ∧ in_range r k = true.
Proof.
  revert lower. induction bs as [|b bs IH]; intros lower Hs Hl; cbn [ranges_from].
  - exists 0%nat, (mkKeyRange lower None). split; [done|]. unfold in_range. cbn. by rewrite Hl.
  - destruct (sleb k b) eqn:Eb.
    + exists 0%nat, (mkKeyRange lower (Some b)). split; [done|]. unfold in_range. cbn. by rewrite Hl, Eb.
    + destruct (IH (Some b)) as (i & r & Hr & Hk); [by apply StronglySorted_inv in Hs as []|cbn; by rewrite sltb_sleb, Eb|].
      by exists (S i), r.
Qed.

Lemma length_ranges_from lower bs : length (ranges_from lower bs) = S (length bs).
Proof. revert lower. induction bs as [|b bs IH]; intros lower; cbn; [done|]. by rewrite IH. Qed.

Lemma discovered_sorted client config :
  ∃ bs, discover_boundaries client (bounded config) = Some bs ∧ StronglySorted slt bs ∧ Z.of_nat (length bs) < MAX_WORKERS.
Proof.
  unfold discover_boundaries. destruct (_ || _); [exists []; split_and!; [done|constructor|done]|].
  assert (1 <= workers (bounded config) <= MAX_WORKERS) as Hw.
  { unfold bounded, clamp, MAX_WORKERS. cbn [workers]. destruct (Z.ltb_spec (workers config) 1); [lia|].
    destruct (Z.ltb_spec 64 (workers config)); lia. }
  destruct (choose_sorted (discover (bounded config) client (Z.to_nat (discovery_budget (bounded config))) 0 [] []
    EmptyString [] None) (workers (bounded config))) as (bs & -> & Hs & Hl); [apply discover_sorted; constructor|lia|].
  exists bs. split_and!; [done|done|lia].
Qed.

(** Whatever a discovery answers, fails to answer or leaves out, the scan does not
    panic and is split into at most [MAX_WORKERS] ranges, and every key lies in exactly one
    of them. *)
Theorem split_covers (client : nat → ListCall → result unit ListReply) (config : ScanConfig) :
  ∃ bs, discover_boundaries client (bounded config) = Some bs ∧ Z.of_nat (length (ranges bs)) <= MAX_WORKERS ∧
    ∀ k, ∃ i, (∃ r, ranges bs !! i = Some r ∧ in_range r k = true) ∧
      ∀ j r, ranges bs !! j = Some r → in_range r k = true → j = i.
Proof.
  destruct (discovered_sorted client config) as (bs & -> & Hs & Hl). exists bs. unfold ranges.
  rewrite length_ranges_from. split_and!; [done|lia|]. intros k.
  destruct (ranges_from_covers None bs k Hs eq_refl) as (i & r & Hr & Hk).
  destruct (ranges_from_one None bs k Hs eq_refl) as [i' Hi].
  exists i. split; [by exists r|]. intros j r' Hr' Hk'. apply (Hi j r' Hr') in Hk' as ->.
  by apply (Hi i r Hr) in Hk.
Qed.

(** ** The origin's listing

    [cursor_of] is where a continuation token resumes, as the origin reads it. *)

Abbreviation Listing := (gmap string ListedObject).

Definition listing_ok (o : Listing) : Prop := ∀ k obj, o !! k = Some obj → lo_key obj = Some k.

Class TokenCursor := cursor_of : string → option string.

Section origin.
Context {C : TokenCursor}.

(** Where a request starts. *)
Definition position (call : ListCall) : option string :=
  match lc_token call with Some t => cursor_of t | None => lc_start_after call end.

Definition rows_after (o : Listing) (from : option string) : list (string * ListedObject) :=
  filter (λ r, is_none_or (λ c, sltb c r.1) from = true) (sorted_rows o).

(** The documented answer to a plain LIST: the keys after the position, in order and from
    the first, with a token for the rest exactly when something is left. *)
Definition answers (o : Listing) (call : ListCall) (reply : ListReply) : Prop :=
  ∃ page rest, rows_after o (position call) = page ++ rest ∧ (lr_contents reply).*1 = page.*2 ∧
    default false (lr_is_truncated reply) = bool_decide (rest ≠ []) ∧
    (rest ≠ [] → ∃ t, lr_next_token reply = Some t ∧ cursor_of t = from_option Some (position call) (fst <$> last page)).
End origin.

Lemma rows_after_elem o from k obj :
  (k, obj) ∈ rows_after o from ↔ o !! k = Some obj ∧ is_none_or (λ c, sltb c k) from = true.
Proof. unfold rows_after. rewrite list_elem_of_filter, elem_of_sorted_rows. naive_solver. Qed.

Lemma rows_after_sorted o from : StronglySorted key_lt (rows_after o from).
Proof. apply key_lt_sorted_filter, sorted_rows_sorted. Qed.

(** ** One page *)

Section page.
Context {P : EtagParse}.

Definition row_of (r : string * ListedObject) (row : string * ObjEntry) : Prop :=
  row.1 = r.1 ∧ ∃ now, row.2 = listed_entry r.2 now.

Lemma page_rows_spec range previous contents page rows past previous' :
  contents.*1 = page.*2 → Forall (λ r, lo_key r.2 = Some r.1) page →
  page_rows range previous contents = Ok (rows, past, previous') →
  ∃ taken unread, page = taken ++ unread ∧ Forall2 row_of taken rows ∧ Forall (λ r, in_range range r.1 = true) taken ∧
    if (past : bool) then ∃ r unread', unread = r :: unread' ∧ is_some_and (λ u, sltb u r.1) (kr_upper range) = true
    else unread = [] ∧ previous' = from_option Some previous (fst <$> last taken).
Proof.
  revert previous page rows past previous'. induction contents as [|[obj now] contents IH];
    intros previous page rows past previous' Hpage Hkeys Hp.
  - destruct page; [|done]. injection Hp as <- <- <-. exists [], []. by repeat constructor.
  - destruct page as [|[k obj'] page]; [done|]. cbn [fmap list_fmap fst snd] in Hpage. injection Hpage as <- Hpage.
    apply Forall_cons in Hkeys as [Hk Hkeys]. cbn [fst snd] in Hk. cbn [page_rows] in Hp. rewrite Hk in Hp. cbn [ok_or] in Hp.
    cbn [mbind result_bind] in Hp. destruct (_ || _) eqn:Eo; [done|]. apply orb_false_iff in Eo as [_ Elow].
    destruct (is_some_and _ (kr_upper range)) eqn:Eup.
    { injection Hp as <- <- <-. exists [], ((k, obj) :: page). split_and!; [done|constructor|constructor|]. by eexists _, _. }
    apply bind_ok in Hp as ([[rows1 past1] prev1] & Hp & Heq). injection Heq as <- <- <-.
    destruct (IH _ _ _ _ _ Hpage Hkeys Hp) as (taken & unread & -> & Hrows & Hin & Hend).
    exists ((k, obj) :: taken), unread. split_and!; [done| | |].
    + constructor; [split; [done|]; by exists now|done].
    + constructor; [|done]. unfold in_range. cbn [fst]. apply andb_true_iff. split.
      * destruct (kr_lower range) as [l|]; [|done]. cbn in Elow |- *. by rewrite sltb_sleb, Elow.
      * destruct (kr_upper range) as [u|]; [|done]. cbn in Eup |- *. rewrite sltb_sleb in Eup. by apply negb_false_iff in Eup.
    + destruct past1; [done|]. destruct Hend as [-> ->]. split; [done|]. rewrite last_cons. by destruct (last taken).
Qed.

Lemma rows_for_of taken rows k :
  Forall2 row_of taken rows → k ∉ taken.*1 → rows_for k rows = [].
Proof.
  induction 1 as [|[k' obj] [k'' e] taken rows [Hk _] _ IH]; [done|]. cbn in Hk. subst k''. cbn [fmap list_fmap fst].
  intros [Hne Hk]%not_elem_of_cons. unfold rows_for. rewrite filter_cons, decide_False by (cbn; congruence). by apply IH.
Qed.

Lemma rows_for_taken taken rows k obj :
  Forall2 row_of taken rows → StronglySorted key_lt taken → (k, obj) ∈ taken →
  ∃ now, rows_for k rows = [listed_entry obj now].
Proof.
  intros H Hs. induction H as [|[k' obj'] [k'' e] taken rows [Hk [now He]] Hr IH]; [by intros ?%not_elem_of_nil|].
  cbn in Hk, He. subst k'' e. pose proof (key_lt_sorted_NoDup _ Hs) as Hnd. apply NoDup_cons in Hnd as [Hnk _].
  apply StronglySorted_inv in Hs as [Hs _]. unfold rows_for. rewrite filter_cons. cbn [fst].
  intros [[= <- <-]|Hin]%elem_of_cons.
  - rewrite decide_True by done. exists now. cbn [fmap list_fmap snd]. f_equal. by apply (rows_for_of taken).
  - rewrite decide_False; [by apply IH|]. intros ->. apply Hnk, list_elem_of_fmap. by exists (k, obj).
Qed.
End page.

(** ** Scans between writes *)

Record ScanWorld := mkScanWorld { sw_index : KeyIndexState; sw_origin : Listing; sw_scans : list RangeStatus }.

Definition status (next : nat + RangeScan) : RangeStatus :=
  match next with inl found => Ended found | inr sc => Running sc end.

Section runs.
Context {P : EtagParse} {L : Layout} {C : TokenCursor}.
Variables (bucket : string) (g : Z).

(** What may run beside the pages: definitive writes, ours and peers' from the feed, and the
    bookkeeping of the feed and of captures. *)
Definition racing_write (ev : index_event) : bool :=
  match ev with EvPage _ _ _ => false | _ => is_rebuild_event bucket g ev end.

(** A step with the index event it is and the listing it saw: a page of one range, a write
    here, or a change at the origin. *)
Inductive scan_step : ScanWorld → list index_event → list Listing → ScanWorld → Prop :=
| step_page s o scans i sc reply permitted rows past previous next s' :
    scans !! i = Some (Running sc) → answers o (scan_call sc) reply →
    page_rows (rs_range sc) (rs_previous sc) (lr_contents reply) = Ok (rows, past, previous) →
    scan_page s bucket g permitted sc (Ok reply) = (Ok next, s') →
    scan_step (mkScanWorld s o scans) [EvPage bucket g rows] [o] (mkScanWorld s' o (<[i := status next]> scans))
| step_write s o scans ev s' o' :
    racing_write ev = true → exec s ev = Some s' → listing_ok o' →
    scan_step (mkScanWorld s o scans) [ev] [] (mkScanWorld s' o' scans)
| step_origin s o scans o' : listing_ok o' → scan_step (mkScanWorld s o scans) [] [] (mkScanWorld s o' scans).

Inductive scan_run : ScanWorld → list index_event → list Listing → ScanWorld → Prop :=
| run_none w : scan_run w [] [] w
| run_more w evs seen w' evs' seen' w'' :
    scan_run w evs seen w' → scan_step w' evs' seen' w'' → scan_run w (evs ++ evs') (seen ++ seen') w''.

Lemma run_first w evs seen w' evs' seen' w'' :
  scan_step w evs seen w' → scan_run w' evs' seen' w'' → scan_run w (evs ++ evs') (seen ++ seen') w''.
Proof using.
  intros Hs Hr. induction Hr as [w1|w1 evs1 seen1 w2 evs2 seen2 w3 Hr IH Hs']; rewrite ?app_nil_r.
  - rewrite <- (app_nil_l evs), <- (app_nil_l seen). eapply run_more; [constructor|done].
  - rewrite !app_assoc. eapply run_more; [by apply IH|done].
Qed.

(** What the scan of a range has read up to. *)
Definition reached (sc : RangeScan) : option string := from_option Some (kr_lower (rs_range sc)) (rs_previous sc).

Record scans_ok (bs : list string) (scans : list RangeStatus) : Prop := {
  so_len : length scans = length (ranges bs);
  so_running : ∀ j sc, scans !! j = Some (Running sc) →
    ranges bs !! j = Some (rs_range sc) ∧ position (scan_call sc) = reached sc }.

Lemma start_ok bs : scans_ok bs (start_scans bs).
Proof using.
  split; unfold start_scans; [by rewrite length_fmap|]. intros j sc. rewrite list_lookup_fmap.
  destruct (ranges bs !! j) as [r|] eqn:Er; [|done]. cbn. by intros [= <-].
Qed.

Lemma scan_page_ok s permitted sc reply rows past previous next s' :
  page_rows (rs_range sc) (rs_previous sc) (lr_contents reply) = Ok (rows, past, previous) →
  scan_page s bucket g permitted sc (Ok reply) = (Ok next, s') →
  exec s (EvPage bucket g rows) = Some s' ∧ after_page sc reply past previous (rs_found sc + length rows) = Ok next.
Proof using.
  intros Hp. cbn [scan_page]. rewrite Hp. destruct permitted; [|done]. unfold exec.
  destruct (sync_listing_into_generation s bucket g rows) as [u s1] eqn:Eu. destruct u as [n|]; [|done].
  intros [= Ha <-]. assert (n = length rows) as ->; [|done].
  unfold sync_listing_into_generation in Eu. destruct (negb _); [done|]. destruct (foldl _ _ _). by injection Eu.
Qed.

Lemma after_page_running sc reply past previous found sc' :
  after_page sc reply past previous found = Ok (inr sc') →
  past = false ∧ default false (lr_is_truncated reply) = true ∧ rs_range sc' = rs_range sc ∧ rs_previous sc' = previous ∧
  ∃ t, lr_next_token reply = Some t ∧ rs_token sc' = Some t.
Proof using.
  unfold after_page. destruct past; [done|]. cbn [orb]. destruct (default false _); [|done]. cbn [negb].
  destruct (8 <? _); [done|]. destruct (lr_next_token reply) as [t|]; [|done]. cbn. case_bool_decide; [done|].
  intros [= <-]. cbn. split_and!; try done. by exists t.
Qed.

(** A page in terms of the listing: what is read, what is left, where the next one starts. *)
Lemma page_view o sc reply rows past previous next :
  listing_ok o → answers o (scan_call sc) reply → position (scan_call sc) = reached sc →
  page_rows (rs_range sc) (rs_previous sc) (lr_contents reply) = Ok (rows, past, previous) →
  after_page sc reply past previous (rs_found sc + length rows) = Ok next →
  ∃ taken unread rest, rows_after o (reached sc) = taken ++ unread ++ rest ∧ Forall2 row_of taken rows ∧
    Forall (λ r, in_range (rs_range sc) r.1 = true) taken ∧ length (lr_contents reply) = length (taken ++ unread) ∧
    match next with
    | inl _ => unread ++ rest = [] ∨
               ∃ r unread', unread = r :: unread' ∧ is_some_and (λ u, sltb u r.1) (kr_upper (rs_range sc)) = true
    | inr sc' => unread = [] ∧ rs_range sc' = rs_range sc ∧ position (scan_call sc') = reached sc' ∧
                 rs_previous sc' = from_option Some (rs_previous sc) (fst <$> last taken)
    end.
Proof using.
  intros Ho (page & rest & Hrows & Hpage & Ht & Htok) Hpos Hp Ha. rewrite Hpos in Hrows, Htok.
  assert (Forall (λ r, lo_key r.2 = Some r.1) page) as Hkeys.
  { apply Forall_forall. intros [k obj] Hin. apply Ho. apply (rows_after_elem o (reached sc)). rewrite Hrows. set_solver. }
  destruct (page_rows_spec _ _ _ _ _ _ _ Hpage Hkeys Hp) as (taken & unread & -> & Hr & Hin & Hend).
  apply (f_equal length) in Hpage. rewrite !length_fmap in Hpage.
  exists taken, unread, rest. rewrite <- app_assoc in Hrows. split_and!; [done..|]. destruct next as [found|sc'].
  - destruct past; [by right|]. destruct Hend as [-> _]. left. unfold after_page in Ha. cbn [orb] in Ha. rewrite Ht in Ha.
    case_bool_decide as Hrest; [|by subst rest]. exfalso. cbn [negb] in Ha.
    destruct (8 <? _); [done|]. destruct (ok_or _ _); [|done]. cbn in Ha. by case_bool_decide.
  - apply after_page_running in Ha as (-> & Htr & Hrange & <- & t & Hnext & Htoken). destruct Hend as [-> Hprev].
    rewrite Ht in Htr. apply bool_decide_eq_true, Htok in Htr as (t' & Ht' & Hc). rewrite Hnext in Ht'. injection Ht' as <-.
    split_and!; [done|done| |done]. unfold position, scan_call, reached. cbn [lc_token]. rewrite Htoken, Hc, Hprev, Hrange, app_nil_r.
    by destruct (last taken).
Qed.

Definition passed (k : string) (st : RangeStatus) : bool :=
  match st with Ended _ => true | Running sc => is_some_and (λ p, sleb k p) (rs_previous sc) end.

Lemma last_sorted_ge (l : list (string * ListedObject)) k obj r :
  StronglySorted key_lt l → (k, obj) ∈ l → last l = Some r → sleb k r.1 = true.
Proof using.
  intros Hs Hin (l' & ->)%last_Some. apply sleb_le. apply elem_of_app in Hin as [Hin|Hin%list_elem_of_singleton]; [|right; by subst r].
  left. apply (StronglySorted_app_1_elem_of key_lt l' [r] (k, obj) r Hs Hin). by apply list_elem_of_singleton.
Qed.

Lemma sltb_not_sleb a b : sltb a b = true → sleb b a = false.
Proof using. rewrite sltb_sleb. by intros ?%negb_true_iff. Qed.

Lemma not_passed_after k sc :
  in_range (rs_range sc) k = true → passed k (Running sc) = false → is_none_or (λ c, sltb c k) (reached sc) = true.
Proof using.
  intros [Hl _]%andb_true_iff. cbn [passed]. unfold reached. destruct (rs_previous sc) as [p|]; cbn; [|done].
  rewrite sltb_sleb. by intros ->.
Qed.

(** A page reads a key of the range once: when the scan comes past it. *)
Lemma page_key o sc reply rows past previous next k obj :
  listing_ok o → answers o (scan_call sc) reply → position (scan_call sc) = reached sc →
  page_rows (rs_range sc) (rs_previous sc) (lr_contents reply) = Ok (rows, past, previous) →
  after_page sc reply past previous (rs_found sc + length rows) = Ok next →
  in_range (rs_range sc) k = true → o !! k = Some obj →
  if passed k (Running sc) then rows_for k rows = [] ∧ passed k (status next) = true
  else if passed k (status next) then ∃ now, rows_for k rows = [listed_entry obj now] else rows_for k rows = [].
Proof using.
  intros Ho Hans Hpos Hp Ha Hk Hobj.
  destruct (page_view o sc reply rows past previous next Ho Hans Hpos Hp Ha) as (taken & unread & rest & Hrows & Hr & _ & _ & Hnext).
  pose proof (rows_after_sorted o (reached sc)) as Hs. rewrite Hrows in Hs.
  pose proof (StronglySorted_app_1_l _ _ _ Hs) as Hst.
  assert (Hsame : ∀ obj', (k, obj') ∈ taken → obj' = obj ∧ is_none_or (λ c, sltb c k) (reached sc) = true).
  { intros obj' Hin. assert ((k, obj') ∈ rows_after o (reached sc)) as [Hk' Hr']%rows_after_elem by (rewrite Hrows; set_solver).
    by simplify_eq. }
  destruct (passed k (Running sc)) eqn:Ep.
  - cbn [passed] in Ep. destruct (rs_previous sc) as [p|] eqn:Eprev; [|done]. cbn [is_some_and] in Ep. split.
    + apply (rows_for_of taken); [done|]. intros ([k' obj'] & -> & Hin)%list_elem_of_fmap. cbn [fst] in *.
      apply Hsame in Hin as [_ Hlt]. unfold reached in Hlt. rewrite Eprev in Hlt. cbn in Hlt. apply sltb_not_sleb in Hlt. congruence.
    + destruct next as [found|sc']; [done|]. destruct Hnext as (_ & _ & _ & Hprev). cbn [status passed]. rewrite Hprev.
      destruct (last taken) as [[k' obj']|] eqn:El; [|done]. cbn. apply sleb_le. left.
      assert ((k', obj') ∈ rows_after o (reached sc)) as [_ Hlt]%rows_after_elem
        by (rewrite Hrows; apply last_Some_elem_of in El; set_solver).
      unfold reached in Hlt. rewrite Eprev in Hlt. cbn in Hlt. apply sltb_lt in Hlt.
      apply sleb_le in Ep as [Hkp| ->]; [by trans p|done].
  - assert ((k, obj) ∈ rows_after o (reached sc)) as Hin by (apply rows_after_elem; split; [done|by apply not_passed_after]).
    rewrite Hrows in Hin. apply elem_of_app in Hin as [Hin|Hin].
    + assert (passed k (status next) = true) as ->; [|by apply (rows_for_taken taken)].
      destruct next as [found|sc']; [done|]. destruct Hnext as (_ & _ & _ & Hprev). cbn [status passed]. rewrite Hprev.
      destruct (last taken) as [r|] eqn:El; [cbn; by eapply last_sorted_ge|]. apply last_None in El. subst. by apply not_elem_of_nil in Hin.
    + assert (Hnot : ∀ r, r ∈ taken → r.1 <ₛ k) by (intros r Hr'; apply (StronglySorted_app_1_elem_of key_lt _ _ r (k, obj) Hs Hr' Hin)).
      assert (rows_for k rows = []) as Hnone.
      { apply (rows_for_of taken); [done|]. intros ([k' obj'] & -> & Hin')%list_elem_of_fmap. by apply Hnot, slt_irrefl in Hin'. }
      enough (passed k (status next) = false) as -> by done. destruct next as [found|sc'].
      * exfalso. destruct Hnext as [E|(r & unread' & -> & Hup)]; [rewrite E in Hin; by apply not_elem_of_nil in Hin|].
        apply andb_true_iff in Hk as [_ Hk]. destruct (kr_upper (rs_range sc)) as [u|]; [|done]. cbn in Hup, Hk.
        apply StronglySorted_app_1_r in Hs. cbn in Hin, Hs. apply StronglySorted_inv in Hs as [_ Hall]. rewrite Forall_forall in Hall.
        assert (sltb u k = true) as Hu; [|apply sltb_not_sleb in Hu; congruence]. apply sltb_lt in Hup. apply sltb_lt.
        apply elem_of_cons in Hin as [<-|Hin]; [done|]. trans r.1; [done|]. by apply (Hall (k, obj)).
      * destruct Hnext as (_ & _ & _ & Hprev). cbn [status passed] in *. rewrite Hprev. destruct (last taken) as [r|] eqn:El; [|done].
        cbn. apply sltb_not_sleb, sltb_lt, Hnot. by apply last_Some_elem_of.
Qed.

Lemma step_scans_ok bs w evs seen w' :
  scan_step w evs seen w' → scans_ok bs (sw_scans w) → listing_ok (sw_origin w) →
  scans_ok bs (sw_scans w') ∧ listing_ok (sw_origin w').
Proof using.
  destruct 1 as [s o scans i sc reply permitted rows past previous next s' Hsc Hans Hp Hpage|s o scans ev s' o' _ _ Ho'|s o scans o' Ho'];
    cbn [sw_scans sw_origin]; intros Hok Ho; [|done..]. split; [|done]. destruct Hok as [Hlen Hrun].
  destruct (Hrun i sc Hsc) as [Hr Hpos]. apply (scan_page_ok s permitted sc reply rows past previous next s' Hp) in Hpage as [_ Ha].
  destruct (page_view o sc reply rows past previous next Ho Hans Hpos Hp Ha) as (taken & unread & rest & _ & _ & _ & _ & Hnext).
  split; [by rewrite length_insert|]. intros j sc'. destruct (decide (i = j)) as [<-|Hij]; [|rewrite list_lookup_insert_ne by done; apply Hrun].
  rewrite list_lookup_insert_eq by (by eapply lookup_lt_Some). intros [= Hst]. destruct next as [found|sc1]; [done|].
  injection Hst as ->. destruct Hnext as (_ & -> & Hpos' & _). done.
Qed.

Lemma run_scans_ok bs w evs seen w' :
  scan_run w evs seen w' → scans_ok bs (sw_scans w) → listing_ok (sw_origin w) →
  scans_ok bs (sw_scans w') ∧ listing_ok (sw_origin w').
Proof using. induction 1 as [|w evs seen w1 evs' seen' w2 _ IH Hs]; intros H1 H2; [done|]. destruct (IH H1 H2). by eapply step_scans_ok. Qed.

Lemma run_events w evs seen w' :
  scan_run w evs seen w' →
  run (sw_index w) evs = Some (sw_index w') ∧ Forall (λ ev, is_rebuild_event bucket g ev = true) evs.
Proof using.
  induction 1 as [w|w evs seen w1 evs' seen' w2 _ [IH1 IH2] Hs]; [by repeat constructor|]. rewrite run_app, IH1, Forall_app. cbn [mbind option_bind].
  destruct Hs as [s o scans i sc reply permitted rows past previous next s' Hsc Hans Hp Hpage|s o scans ev s' o' Hev Hx Ho'|s o scans o' Ho'];
    cbn [sw_index run] in *; [| |done].
  - apply (scan_page_ok s permitted sc reply rows past previous next s' Hp) in Hpage as [-> _]. split_and!; [done|done|].
    constructor; [|done]. cbn. by rewrite bool_decide_eq_true_2, Z.eqb_refl.
  - rewrite Hx. split_and!; [done|done|]. constructor; [|done]. unfold racing_write in Hev. by destruct ev.
Qed.

Lemma racing_lists_nothing ev k : racing_write ev = true → listed k [ev] = [].
Proof using. by destruct ev. Qed.

Lemma listed_app k evs evs' : listed k (evs ++ evs') = listed k evs ++ listed k evs'.
Proof using. unfold listed. by rewrite fmap_app, join_app. Qed.

(** The rows of a key, all in the pages of the range it lies in. *)
Lemma run_lists_present bs i k obj w evs seen w' :
  scan_run w evs seen w' → scans_ok bs (sw_scans w) → listing_ok (sw_origin w) → (i < length (ranges bs))%nat →
  (∀ j r, ranges bs !! j = Some r → in_range r k = true ↔ j = i) →
  passed k <$> sw_scans w !! i = Some false → Forall (λ o, o !! k = Some obj) seen →
  match sw_scans w' !! i with
  | None => False
  | Some st => if passed k st then ∃ now, listed k evs = [listed_entry obj now] else listed k evs = []
  end.
Proof using.
  intros Hrun Hok Ho Hi Hone H0. induction Hrun as [w|w evs seen w1 evs' seen' w2 Hrun IH Hs]; intros Hseen.
  { destruct (sw_scans w !! i) as [st|]; [|done]. cbn in H0. by injection H0 as ->. }
  apply Forall_app in Hseen as [Hseen Hseen']. specialize (IH Hok Ho H0 Hseen).
  destruct (run_scans_ok bs _ _ _ _ Hrun Hok Ho) as [Hok1 Ho1]. clear Hok Ho H0. rewrite listed_app.
  destruct Hs as [s o scans j sc reply permitted rows past previous next s' Hsc Hans Hp Hpage|s o scans ev s' o' Hev Hx Ho'|s o scans o' Ho'];
    cbn [sw_scans sw_origin] in *; [|by rewrite racing_lists_nothing, app_nil_r by done|by rewrite app_nil_r].
  destruct (so_running _ _ Hok1 j sc Hsc) as [Hr Hpos]. apply (scan_page_ok s permitted sc reply rows past previous next s' Hp) in Hpage as [_ Ha].
  assert (listed k [EvPage bucket g rows] = rows_for k rows) as -> by (unfold listed; cbn; by rewrite app_nil_r).
  destruct (decide (j = i)) as [->|Hij].
  - rewrite list_lookup_insert_eq by (by eapply lookup_lt_Some). rewrite Hsc in IH. apply Forall_cons in Hseen' as [Hobj _].
    pose proof (page_key o sc reply rows past previous next k obj Ho1 Hans Hpos Hp Ha (proj2 (Hone i _ Hr) eq_refl) Hobj) as Hkey.
    destruct (passed k (Running sc)); [destruct Hkey as [-> ->]; by rewrite app_nil_r|]. rewrite IH. done.
  - rewrite list_lookup_insert_ne by done. destruct (page_view o sc reply rows past previous next Ho1 Hans Hpos Hp Ha)
      as (taken & unread & rest & _ & Hrows & Hin & _).
    rewrite (rows_for_of taken rows k Hrows), app_nil_r; [done|]. intros (r & -> & Hr')%list_elem_of_fmap.
    rewrite Forall_forall in Hin. by apply Hij, (Hone j _ Hr), Hin.
Qed.

Lemma run_lists_absent bs k w evs seen w' :
  scan_run w evs seen w' → scans_ok bs (sw_scans w) → listing_ok (sw_origin w) →
  Forall (λ o, o !! k = None) seen → listed k evs = [].
Proof using.
  intros Hrun Hok Ho. induction Hrun as [w|w evs seen w1 evs' seen' w2 Hrun IH Hs]; [done|].
  intros [Hseen Hseen']%Forall_app. rewrite listed_app, IH by done. destruct (run_scans_ok bs _ _ _ _ Hrun Hok Ho) as [Hok1 Ho1].
  destruct Hs as [s o scans j sc reply permitted rows past previous next s' Hsc Hans Hp Hpage|s o scans ev s' o' Hev Hx Ho'|s o scans o' Ho'];
    cbn [sw_scans sw_origin] in *; [|by apply racing_lists_nothing|done].
  destruct (so_running _ _ Hok1 j sc Hsc) as [Hr Hpos]. apply (scan_page_ok s permitted sc reply rows past previous next s' Hp) in Hpage as [_ Ha].
  destruct (page_view o sc reply rows past previous next Ho1 Hans Hpos Hp Ha) as (taken & unread & rest & Hro & Hrows & _).
  unfold listed. cbn. rewrite app_nil_r. apply (rows_for_of taken rows k Hrows). intros ([k' obj] & -> & Hin)%list_elem_of_fmap.
  assert ((k', obj) ∈ rows_after o (reached sc)) as [Hk _]%rows_after_elem by (rewrite Hro; set_solver).
  apply Forall_cons in Hseen' as [Hnone _]. cbn in Hnone. congruence.
Qed.
End runs.

Lemma all_found_ended scans n i st : all_found scans = Some n → scans !! i = Some st → ∃ found, st = Ended found.
Proof.
  revert n i. induction scans as [|[sc|found] scans IH]; intros n i Hn Hi; [done|done|]. cbn in Hn.
  apply fmap_Some in Hn as (m & Hm & _). destruct i as [|i]; [injection Hi as <-; by eexists|by eapply IH].
Qed.

Section scan_theorem.
Context {P : EtagParse} {L : Layout} {C : TokenCursor}.

(** [C6] A scan publishes the origin's listing: after a resync, whatever discovery finds, in
    any interleaving of the pages of all ranges with changes at the origin and definitive
    writes here (local ones, and peers' from the feed, counted once each), a scan that
    succeeds leaves the bucket synced; a key written meanwhile holds the last-writer-wins
    value of those writes, and a key not written, not fenced when the scan began and whose
    listing every page saw alike holds exactly that listing: its row, or no row.  At most
    as many deletes race as are kept without a sweep. *)
Theorem scan_publishes_listing s bucket g s1 o client config bs evs seen w permitted found s3 :
  begin_bucket_resync s bucket = (g, s1) → listing_ok o → discover_boundaries client (bounded config) = Some bs →
  scan_run bucket g (mkScanWorld s1 o (start_scans bs)) evs seen w →
  finish_scan (sw_index w) bucket g permitted (sw_scans w) = Some (Ok found, s3) →
  Z.of_nat (del_count evs) <= TOMBSTONE_PRUNE_LEN →
  synced (bucket_or_default s3 bucket) = true ∧
  ∀ k, match delivered s1 bucket k evs with
       | [] => ∀ row, fences s bucket !! k = None → Forall (λ o, o !! k = row) seen →
           match row with
           | None => reg_of (bucket_or_default s3 bucket) k = mkReg None None
           | Some obj => ∃ now, reg_of (bucket_or_default s3 bucket) k = mkReg (Some (listed_entry obj now)) None
           end
       | ws => reg_of (bucket_or_default s3 bucket) k = lww ws
       end.
Proof.
  intros Hb Ho Hbs Hrun Hfin Hn. destruct (run_events bucket g _ _ _ _ Hrun) as [Hr Hall]. cbn [sw_index] in Hr.
  destruct (rebuild_done s bucket g s1 evs (sw_index w) Hb Hr Hall Hn) as [Hown Hreg].
  pose proof (finish_owned _ _ _ Hown) as Hf. unfold finish_scan in Hfin. apply bind_Some in Hfin as (n & Hfound & Hfin).
  destruct permitted; [|done]. destruct (finish_bucket_sync_generation (sw_index w) bucket g) as [published s3'].
  destruct Hf as (-> & Hsync & Hsame). injection Hfin as -> ->. split; [done|]. intros k. rewrite Hsame, Hreg. unfold expect.
  destruct (delivered s1 bucket k evs); [|done]. intros row -> Hseen. cbn [is_some]. destruct row as [obj|].
  2:{ rewrite (run_lists_absent bucket g bs k _ _ _ _ Hrun (start_ok bs) Ho Hseen). done. }
  destruct (discovered_sorted client config) as (bs' & Hbs' & Hsorted & _). rewrite Hbs in Hbs'. injection Hbs' as <-.
  destruct (ranges_from_one None bs k Hsorted eq_refl) as [i Hone].
  destruct (ranges_from_covers None bs k Hsorted eq_refl) as (i' & r & Hi & Hrk).
  assert (i' = i) as -> by by apply (Hone i' r Hi). clear Hrk.
  pose proof (run_lists_present bucket g bs i k obj _ _ _ _ Hrun (start_ok bs) Ho (lookup_lt_Some _ _ _ Hi) Hone) as Hlist.
  cbn [sw_scans] in Hlist. unfold start_scans in Hlist. rewrite list_lookup_fmap in Hlist. unfold ranges in Hlist. rewrite Hi in Hlist.
  specialize (Hlist eq_refl Hseen). destruct (sw_scans w !! i) as [st|] eqn:Est; [|done].
  destruct (all_found_ended _ _ _ _ Hfound Est) as [fi ->]. destruct Hlist as [now ->]. by exists now.
Qed.
End scan_theorem.
