(* ===== verification/ScanEnds.v ===== *)
(** * Scans end

    The scan of one range against an origin whose listing stands still: it makes a bounded
    number of requests, and succeeds with every row of its range unless it is superseded
    or the origin keeps sending empty pages. *)

From S2P Require Import Prelude.
From S2P Require Import ObjTypes.
From S2P Require Import ImageCodec.
From S2P Require Import CodecProps.
From S2P Require Import Rows.
From S2P Require Import IndexCapture.
From S2P Require Import KeyIndex.
From S2P Require Import IndexWf.
From S2P Require Import IndexSteps.
From S2P Require Import IndexInv.
From S2P Require Import IndexMachine.
From S2P Require Import IndexLww.
From S2P Require Import IndexRebuild.
From S2P Require Import Scan.
From S2P Require Import ScanProps.

Definition rows_in (range : KeyRange) (rows : list (string * ListedObject)) : list (string * ListedObject) :=
  filter (λ r, in_range range r.1 = true) rows.

Lemma rows_after_split o from taken rest r :
  rows_after o from = taken ++ rest → last taken = Some r → rows_after o (Some r.1) = rest.
Proof.
  intros E (taken' & ->)%last_Some. pose proof (rows_after_sorted o from) as Hs. rewrite E in Hs.
  apply key_lt_sorted_unique; [apply rows_after_sorted|by eapply StronglySorted_app_1_r|].
  pose proof (StronglySorted_app_1_r _ _ _ Hs) as Hsr. pose proof (StronglySorted_app_1_l _ _ _ Hs) as Hst.
  apply NoDup_Permutation; [eapply NoDup_fmap_1, key_lt_sorted_NoDup, rows_after_sorted|by eapply NoDup_fmap_1, key_lt_sorted_NoDup|].
  intros [k obj]. rewrite rows_after_elem. cbn [is_none_or]. rewrite sltb_lt. split.
  - intros [Ho Hk]. assert ((k, obj) ∈ rows_after o from) as Hin.
    { apply rows_after_elem. split; [done|]. destruct from as [c|]; [|done]. cbn. apply sltb_lt. trans r.1; [|done].
      assert (r ∈ rows_after o (Some c)) as Hr by (rewrite E; set_solver). destruct r as [k' obj'].
      apply rows_after_elem in Hr as [_ Hr]. by apply sltb_lt. }
    rewrite E in Hin. apply elem_of_app in Hin as [Hin|]; [|done]. exfalso.
    apply (last_sorted_ge _ k obj r Hst) in Hin; [|by rewrite last_snoc]. apply sleb_le in Hin as [?| ->]; [by apply (slt_asym r.1 k)|by apply (slt_irrefl r.1)].
  - intros Hin. split; [|by apply (StronglySorted_app_1_elem_of key_lt _ _ r (k, obj) Hs); [set_solver|]].
    apply (rows_after_elem o from). rewrite E. set_solver.
Qed.

Section ends.
Context {P : EtagParse} {L : Layout} {C : TokenCursor}.
Variables (bucket : string) (g : Z) (o : Listing).
Hypothesis (Ho : listing_ok o).

(** A page of keys past the previous one and the lower bound is read. *)
Lemma page_rows_ok range previous contents page :
  contents.*1 = page.*2 → Forall (λ r, lo_key r.2 = Some r.1) page → StronglySorted key_lt page →
  Forall (λ r, is_none_or (λ p, sltb p r.1) previous = true ∧ is_none_or (λ l, sltb l r.1) (kr_lower range) = true) page →
  ∃ rows past previous', page_rows range previous contents = Ok (rows, past, previous').
Proof using.
  revert previous page. induction contents as [|[obj now] contents IH]; intros previous page Hpage Hkeys Hs Hab; [by eexists _, _, _|].
  destruct page as [|[k obj'] page]; [done|]. cbn [fmap list_fmap fst snd] in Hpage. injection Hpage as <- Hpage.
  apply Forall_cons in Hkeys as [Hk Hkeys], Hab as [[H1 H2] Hab]. apply StronglySorted_inv in Hs as [Hs Hfirst]. cbn [fst snd] in *.
  cbn [page_rows]. rewrite Hk. cbn [ok_or mbind result_bind].
  assert (∀ x, is_none_or (λ p, sltb p k) x = true → is_some_and (λ p, sleb k p) x = false) as Hflip.
  { intros [p|]; [|done]. cbn. apply sltb_not_sleb. }
  rewrite (Hflip _ H1), (Hflip _ H2). cbn [orb]. destruct (is_some_and _ _); [by eexists _, _, _|].
  destruct (IH (Some k) page) as (rows & past & previous' & ->); [done..| |by eexists _, _, _].
  rewrite Forall_forall in Hab, Hfirst |- *. intros r Hr. split; [by apply sltb_lt, Hfirst|by apply Hab].
Qed.

(** Where a scan stands: [n] rows of its range found so far. *)
Record standing (sc : RangeScan) : Prop := {
  st_position : position (scan_call sc) = reached sc;
  st_lower : ∀ p, rs_previous sc = Some p → is_none_or (λ l, sltb l p) (kr_lower (rs_range sc)) = true;
  st_empty : 0 <= rs_empty_pages sc <= 8;
  st_found : (rs_found sc + length (rows_in (rs_range sc) (rows_after o (reached sc))))%nat
             = length (rows_in (rs_range sc) (sorted_rows o)) }.

Definition pages_left (sc : RangeScan) : Z := 9 * Z.of_nat (length (rows_after o (reached sc))) + 9 - rs_empty_pages sc.

(** An honest client of the listing. *)
Definition serves (client : nat → ListCall → result unit ListReply) : Prop :=
  ∀ n call, ∃ reply, client n call = Ok reply ∧ answers o call reply.

Lemma start_standing range : standing (scan_start range).
Proof using.
  split; cbn; [done|done|lia|]. f_equal. unfold rows_in, rows_after. rewrite list_filter_filter. apply list_filter_iff.
  intros r. unfold reached, in_range. cbn. rewrite andb_true_iff. tauto.
Qed.

Lemma after_page_ended sc reply past previous found n :
  after_page sc reply past previous found = Ok (inl n) → n = found.
Proof using.
  unfold after_page. destruct (_ || _); [by intros [= ->]|]. destruct (8 <? _); [done|].
  destruct (lr_next_token reply); [|done]. cbn. by case_bool_decide.
Qed.

Lemma after_page_found sc reply past previous found sc' :
  after_page sc reply past previous found = Ok (inr sc') →
  rs_found sc' = found ∧ rs_empty_pages sc' <= 8 ∧
  rs_empty_pages sc' = if (length (lr_contents reply) =? 0)%nat then rs_empty_pages sc + 1 else 0.
Proof using.
  unfold after_page. destruct (_ || _); [done|]. destruct (8 <? _) eqn:E; [done|].
  destruct (lr_next_token reply); [|done]. cbn. case_bool_decide; [done|]. intros [= <-]. cbn. by apply Z.ltb_ge in E.
Qed.

Lemma in_range_lower range k : in_range range k = true → is_none_or (λ l, sltb l k) (kr_lower range) = true.
Proof using. by intros [? _]%andb_true_iff. Qed.

(** The rows read and the rows left. *)
Lemma rows_in_split range taken left_ :
  Forall (λ r, in_range range r.1 = true) taken →
  length (rows_in range (taken ++ left_)) = (length taken + length (rows_in range left_))%nat.
Proof using. intros H. unfold rows_in. by rewrite filter_app, length_app, (filter_all _ taken). Qed.

Lemma standing_page sc reply rows past previous next :
  standing sc → answers o (scan_call sc) reply →
  page_rows (rs_range sc) (rs_previous sc) (lr_contents reply) = Ok (rows, past, previous) →
  after_page sc reply past previous (rs_found sc + length rows) = Ok next →
  match next with
  | inl n => n = length (rows_in (rs_range sc) (sorted_rows o))
  | inr sc' => standing sc' ∧ rs_range sc' = rs_range sc ∧ pages_left sc' < pages_left sc
  end.
Proof using Ho.
  intros [Hpos Hlow Hem Hfound] Hans Hp Ha.
  destruct (page_view o sc reply rows past previous next Ho Hans Hpos Hp Ha) as (taken & unread & rest & Hrows & Hr & Hin & Hcontents & Hnext).
  pose proof (Forall2_length _ _ _ Hr) as Hlen. rewrite Hrows, (rows_in_split _ _ _ Hin), Hlen in Hfound.
  destruct next as [n|sc'].
  - apply after_page_ended in Ha as ->. rewrite <- Hfound. enough (rows_in (rs_range sc) (unread ++ rest) = []) as -> by (cbn; lia).
    destruct Hnext as [->|(r & unread' & -> & Hup)]; [done|]. apply filter_none, Forall_forall. intros x Hx.
    pose proof (rows_after_sorted o (reached sc)) as Hs. rewrite Hrows in Hs. apply StronglySorted_app_1_r, StronglySorted_inv in Hs as [_ Hs].
    destruct (kr_upper (rs_range sc)) as [u|] eqn:Eu; [|done]. cbn in Hup. apply sltb_lt in Hup. unfold in_range. rewrite Eu. cbn.
    rewrite (sltb_not_sleb u x.1), andb_false_r; [done|]. apply sltb_lt. apply elem_of_cons in Hx as [->|Hx]; [done|].
    trans r.1; [done|]. rewrite Forall_forall in Hs. by apply Hs.
  - destruct Hnext as (-> & Hrange & Hpos' & Hprev). apply after_page_found in Ha as (Hf & Hle & Hep). cbn [app] in Hrows, Hfound.
    rewrite app_nil_r in Hcontents. assert (Hreach : reached sc' = from_option Some (reached sc) (fst <$> last taken)).
    { unfold reached. rewrite Hprev, Hrange. by destruct (last taken). }
    assert (Hafter : rows_after o (reached sc') = rest).
    { rewrite Hreach. destruct (last taken) as [r|] eqn:El; [by eapply rows_after_split|]. apply last_None in El as ->. done. }
    split_and!; [split|done|].
    + done.
    + intros p. rewrite Hprev, Hrange. destruct (last taken) as [r|] eqn:El; [|apply Hlow]. cbn. intros [= <-].
      apply in_range_lower. rewrite Forall_forall in Hin. apply Hin, last_Some_elem_of, El.
    + rewrite Hep in *. destruct (_ =? _)%nat; lia.
    + rewrite Hf, Hafter, Hrange, <- Hfound. lia.
    + unfold pages_left. rewrite Hafter, Hrows, length_app, Hep, Hcontents. destruct taken as [|r taken]; cbn [length Nat.eqb]; lia.
Qed.

Lemma standing_reads sc reply :
  standing sc → answers o (scan_call sc) reply →
  ∃ rows past previous, page_rows (rs_range sc) (rs_previous sc) (lr_contents reply) = Ok (rows, past, previous).
Proof using Ho.
  intros [Hpos Hlow _ _] (page & rest & Hrows & Hpage & _). rewrite Hpos in Hrows.
  assert (Hin : ∀ r, r ∈ page → r ∈ rows_after o (reached sc)) by (intros r Hr; rewrite Hrows; set_solver).
  pose proof (rows_after_sorted o (reached sc)) as Hs. rewrite Hrows in Hs.
  apply (page_rows_ok _ _ _ page Hpage); [|by eapply StronglySorted_app_1_l|].
  - apply Forall_forall. intros [k obj] [Hk _]%Hin%rows_after_elem. by apply Ho.
  - apply Forall_forall. intros [k obj] [_ Hk]%Hin%rows_after_elem. cbn [fst]. unfold reached in Hk.
    destruct (rs_previous sc) as [p|]; [|done]. cbn in Hk |- *. split; [done|].
    specialize (Hlow p eq_refl). destruct (kr_lower (rs_range sc)) as [l|]; [|done]. cbn in *. rewrite sltb_lt in *. by trans p.
Qed.

(** A scan that owns the bucket goes on after a page that is full or the last. *)
Lemma standing_goes_on sc reply rows past previous e :
  standing sc → answers o (scan_call sc) reply →
  (default false (lr_is_truncated reply) = true → lr_contents reply ≠ []) →
  page_rows (rs_range sc) (rs_previous sc) (lr_contents reply) = Ok (rows, past, previous) →
  after_page sc reply past previous (rs_found sc + length rows) ≠ Err e.
Proof using Ho.
  intros [Hpos _ _ _] (page & rest & Hrows & Hpage & Ht & Htok) Hfull _. unfold after_page. rewrite Hpos in Hrows, Htok.
  destruct past; [done|]. cbn [orb]. destruct (default false _); [|done]. cbn [negb].
  specialize (Hfull eq_refl). destruct (lr_contents reply) as [|c cs]; [done|]. cbn [length Nat.eqb]. cbn [Z.ltb Z.compare].
  symmetry in Ht. apply bool_decide_eq_true, Htok in Ht as (t & -> & Hc). cbn [ok_or mbind result_bind].
  case_bool_decide as Htoken; [|done]. exfalso. unfold position, scan_call in Hpos. cbn in Hpos. rewrite Htoken, Hc in Hpos.
  destruct page as [|r page]; [done|]. destruct (last (r :: page)) as [[k obj]|] eqn:El; [|by apply last_None in El].
  cbn in Hpos. assert ((k, obj) ∈ rows_after o (reached sc)) as [_ Hk]%rows_after_elem
    by (rewrite Hrows; apply last_Some_elem_of in El; set_solver).
  rewrite <- Hpos in Hk. cbn in Hk. by apply sltb_lt, slt_irrefl in Hk.
Qed.

Lemma page_keeps_owner s rows :
  owns_rebuild (bucket_or_default s bucket) g = true →
  sync_listing_into_generation s bucket g rows = (Some (length rows), (sync_listing_into_generation s bucket g rows).2) ∧
  owns_rebuild (bucket_or_default (sync_listing_into_generation s bucket g rows).2 bucket) g = true.
Proof using.
  intros Hown. rewrite sync_listing_spec, Hown. split; [done|]. cbn [snd]. unfold sync_page.
  destruct (sync_rows_fences (bucket_or_default s bucket) (i_stats (invalidate_capture_for_rebuild s)) rows)
    as (_ & _ & _ & Hr & Hs & _). change (bucket_or_default (invalidate_capture_for_rebuild s) bucket) with (bucket_or_default s bucket).
  destruct (foldl _ _ _) as [b t]. autorewrite with bod. rewrite decide_True by done.
  apply owns_rebuild_spec. cbn in Hr, Hs. rewrite Hr, Hs. by apply owns_rebuild_spec.
Qed.

Lemma standing_ends client fuel n s sc :
  serves client → standing sc → pages_left sc <= Z.of_nat fuel →
  ∃ r s', scan_range fuel client n s bucket g sc = Some (r, s') ∧
    (∀ found, r = Ok found → found = length (rows_in (rs_range sc) (sorted_rows o))) ∧
    (owns_rebuild (bucket_or_default s bucket) g = true →
     (∀ n call reply, client n call = Ok reply → default false (lr_is_truncated reply) = true → lr_contents reply ≠ []) →
     is_ok r = true).
Proof using Ho.
  intros Hserves. revert n s sc. induction fuel as [|fuel IH]; intros n s sc Hst Hfuel.
  { destruct Hst. unfold pages_left in Hfuel. lia. }
  destruct (Hserves n (scan_call sc)) as (reply & Hreply & Hans). cbn [scan_range]. rewrite Hreply.
  destruct (standing_reads sc reply Hst Hans) as (rows & past & previous & Hp).
  destruct (scan_page s bucket g true sc (Ok reply)) as [[[found|sc']|e] s'] eqn:Epage.
  - apply (scan_page_ok bucket g s true sc reply rows past previous _ s' Hp) in Epage as [_ Ha].
    eexists _, _. split; [done|]. split; [|done]. intros found' [= <-]. by apply (standing_page sc reply rows past previous (inl found)).
  - pose proof (scan_page_ok bucket g s true sc reply rows past previous _ s' Hp Epage) as [Hs Ha]. cbn [exec] in Hs. injection Hs as <-.
    destruct (standing_page sc reply rows past previous (inr sc') Hst Hans Hp Ha) as (Hst' & Hrange & Hless).
    destruct (IH (S n) (sync_listing_into_generation s bucket g rows).2 sc' Hst') as (r & s2 & Hr & Hcount & Hok); [lia|].
    exists r, s2. rewrite <- Hrange. split_and!; [done|done|]. intros Hown. by apply Hok, page_keeps_owner.
  - eexists _, _. split; [done|]. split; [done|]. intros Hown Hfull. exfalso. cbn [scan_page] in Epage. rewrite Hp in Epage.
    destruct (page_keeps_owner s rows Hown) as [Eq _]. rewrite Eq in Epage. injection Epage as Ha _.
    by apply (standing_goes_on sc reply rows past previous e Hst Hans (Hfull n _ reply Hreply) Hp) in Ha.
Qed.
End ends.

(** [C30] The scan of a range ends: against an origin whose listing stands still it makes at
    most [9 * size o + 9] requests, a success has found exactly the keys of the range, and
    a scan that keeps its generation succeeds when no truncated page is empty. *)
Theorem scan_range_ends `{EtagParse} `{Layout} `{TokenCursor} (o : Listing) client s bucket g range :
  listing_ok o → serves o client →
  ∃ r s', scan_range (9 * base.size o + 9) client 0 s bucket g (scan_start range) = Some (r, s') ∧
    (∀ found, r = Ok found → found = length (rows_in range (sorted_rows o))) ∧
    (owns_rebuild (bucket_or_default s bucket) g = true →
     (∀ n call reply, client n call = Ok reply → default false (lr_is_truncated reply) = true → lr_contents reply ≠ []) →
     is_ok r = true).
Proof.
  intros Ho Hs. apply (standing_ends bucket g o Ho client _ 0 s (scan_start range) Hs (start_standing o range)).
  unfold pages_left. cbn [rs_empty_pages scan_start]. enough (length (rows_after o (reached (scan_start range))) <= base.size o)%nat by lia.
  unfold rows_after. rewrite <- length_sorted_rows. apply length_filter.
Qed.

(** ** A concrete origin

    Its tokens are the keys they resume after, and a page holds two keys. *)

#[local] Existing Instance layout64.
#[local] Existing Instance parse_quoted.

Definition key_cursor : TokenCursor := Some.
#[local] Existing Instance key_cursor.

Definition demo_object (k : string) (size : Z) : ListedObject := mkListed (Some k) (Some size) (Some 7) None None.

Definition demo_listing : Listing :=
  list_to_map ((λ k, (k, demo_object k 3)) <$> ["a/1"; "a/2"; "b/1"; "c"; "d/9"]).

Definition demo_reply (o : Listing) (call : ListCall) : ListReply :=
  let rows := rows_after o (position call) in
  mkListReply ((λ r, (r.2, 0)) <$> take 2 rows) [] (Some (bool_decide (drop 2 rows ≠ [])))
    (fst <$> last (take 2 rows)).

Definition demo_client (o : Listing) (n : nat) (call : ListCall) : result unit ListReply := Ok (demo_reply o call).

Lemma demo_answers o call : answers o call (demo_reply o call).
Proof.
  exists (take 2 (rows_after o (position call))), (drop 2 (rows_after o (position call))). split_and!; [by rewrite take_drop| |done|].
  - cbn. rewrite <- list_fmap_compose. by apply list_fmap_ext.
  - intros Hrest. cbn. destruct (rows_after o (position call)) as [|r1 [|r2 rows]]; [done|done|]. cbn. by eexists.
Qed.

Lemma demo_serves o : serves o (demo_client o).
Proof. intros n call. eexists. split; [done|]. apply demo_answers. Qed.

Lemma demo_full o n call reply :
  demo_client o n call = Ok reply → default false (lr_is_truncated reply) = true → lr_contents reply ≠ [].
Proof.
  intros [= <-]. unfold demo_reply. destruct (rows_after o (position call)) as [|r1 rows]; done.
Qed.

Lemma demo_listing_ok : listing_ok demo_listing.
Proof.
  intros k obj. unfold demo_listing. cbn [fmap list_fmap list_to_map foldr].
  repeat (rewrite lookup_insert_Some; intros [[<- <-]|[_ H]]; [done|]; revert H). by rewrite lookup_empty.
Qed.

Definition demo_resync : Z * KeyIndexState := begin_bucket_resync KeyIndexState_default "b".
Definition middle_range : KeyRange := mkKeyRange (Some "a/2") (Some "c").

Lemma scan_range_ends_witness :
  ∃ r s', scan_range (9 * base.size demo_listing + 9) (demo_client demo_listing) 0 demo_resync.2 "b" demo_resync.1
      (scan_start middle_range) = Some (r, s') ∧ is_ok r = true.
Proof.
  destruct (scan_range_ends demo_listing (demo_client demo_listing) demo_resync.2 "b" demo_resync.1 middle_range
    demo_listing_ok (demo_serves _)) as (r & s' & Hr & _ & Hok).
  exists r, s'. split; [exact Hr|]. apply Hok; [vm_compute; reflexivity|apply demo_full].
Defined.

(** Discovery sees the prefixes and then fails: two ranges, scanned page by page in turn. *)
Definition demo_discovery (n : nat) (call : ListCall) : result unit ListReply :=
  match n with O => Ok (mkListReply [] [Some "a/"; Some "b/"; Some "d/"] (Some false) None) | S _ => Err tt end.
Definition demo_config : ScanConfig := mkScanConfig 2 4.
Definition demo_scans : list RangeStatus := start_scans ["b/"].

Fixpoint demo_drive (order : list nat) (w : ScanWorld) : option ScanWorld :=
  match order with
  | [] => Some w
  | i :: order =>
      match sw_scans w !! i with
      | Some (Running sc) =>
          match scan_page (sw_index w) "b" demo_resync.1 true sc (Ok (demo_reply (sw_origin w) (scan_call sc))) with
          | (Ok next, s) => demo_drive order (mkScanWorld s (sw_origin w) (<[i := status next]> (sw_scans w)))
          | _ => None
          end
      | _ => None
      end
  end.

Definition demo_start : ScanWorld := mkScanWorld demo_resync.2 demo_listing demo_scans.

Lemma demo_drive_runs order w w' :
  demo_drive order w = Some w' →
  ∃ evs seen, scan_run "b" demo_resync.1 w evs seen w' ∧ Forall (λ o, o = sw_origin w) seen ∧
    del_count evs = 0%nat ∧ ∀ k, delivered (sw_index w) "b" k evs = [].
Proof.
  revert w. induction order as [|i order IH]; intros [s o scans]; cbn [demo_drive sw_scans sw_index sw_origin].
  { intros [= <-]. exists [], []. split; [constructor|done]. }
  destruct (scans !! i) as [[sc|]|] eqn:Ei; [|done..]. set (reply := demo_reply o (scan_call sc)).
  destruct (scan_page s "b" demo_resync.1 true sc (Ok reply)) as [[next|e] s'] eqn:Ep; [|done].
  intros (evs & seen & Hrun & Hseen & Hdel & Hw)%IH.
  assert (∃ rows past previous, page_rows (rs_range sc) (rs_previous sc) (lr_contents reply) = Ok (rows, past, previous))
    as (rows & past & previous & Hp).
  { cbn [scan_page] in Ep. destruct (page_rows _ _ _) as [[[rows past] previous]|]; [by eexists _, _, _|done]. }
  exists ([EvPage "b" demo_resync.1 rows] ++ evs), ([o] ++ seen). split_and!; [|by constructor|done|].
  2:{ intros k. apply (scan_page_ok "b" demo_resync.1 s true sc reply rows past previous next s' Hp) in Ep as [Hx _].
      cbn [app sw_index]. rewrite (delivered_cons "b" s _ s' k evs Hx). apply Hw. }
  eapply run_first; [|exact Hrun]. by eapply step_page; [exact Ei|apply demo_answers|exact Hp|exact Ep].
Qed.

Definition demo_end : option ScanWorld := demo_drive [0; 1; 0; 1]%nat demo_start.

(** Both ranges end, and the bucket then holds the listing. *)
Lemma scan_publishes_listing_witness :
  ∃ w s3 found, demo_end = Some w ∧ finish_scan (sw_index w) "b" demo_resync.1 true (sw_scans w) = Some (Ok found, s3) ∧
    synced (bucket_or_default s3 "b") = true ∧
    ∃ now, reg_of (bucket_or_default s3 "b") "c" = mkReg (Some (listed_entry (demo_object "c" 3) now)) None.
Proof.
  destruct demo_end as [w|] eqn:Ew; [|exfalso; by vm_compute in Ew].
  destruct (demo_drive_runs _ _ _ Ew) as (evs & seen & Hrun & Hseen & Hdel & Hw).
  assert (∃ found s3, finish_scan (sw_index w) "b" demo_resync.1 true (sw_scans w) = Some (Ok found, s3)) as (found & s3 & Hf).
  { destruct (finish_scan (sw_index w) "b" demo_resync.1 true (sw_scans w)) as [[[found|e] s3]|] eqn:E; [by eexists _, _| |];
      exfalso; revert E; assert (w = default demo_start demo_end) as -> by (by rewrite Ew); by vm_compute. }
  exists w, s3, found. split; [done|]. split; [exact Hf|].
  destruct (scan_publishes_listing KeyIndexState_default "b" demo_resync.1 demo_resync.2 demo_listing
    demo_discovery demo_config ["b/"] evs seen w true found s3) as [Hs Hk];
    [vm_compute; reflexivity|apply demo_listing_ok|vm_compute; reflexivity|exact Hrun|exact Hf|rewrite Hdel; vm_compute; discriminate|].
  split; [exact Hs|]. specialize (Hk "c"). rewrite Hw in Hk. apply (Hk (Some (demo_object "c" 3))); [vm_compute; reflexivity|].
  eapply Forall_impl; [exact Hseen|]. intros o ->. vm_compute. reflexivity.
Defined.
