(* ===== verification/Config.v ===== *)
(** * Configuration

    [src/src/config.rs] and the readers of [src/src/sync/config.rs]: the environment, read
    once at startup, as a function from variable names to what [std::env::var] gives (a
    value that is not text reads as unset). *)

From S2P Require Import Prelude.
From S2P Require Import Wire.
From S2P Require Import Coherence.
From S2P Require Import Scan.

(** ** Strings *)

(** [str::split] at a character. *)
Fixpoint split_on (c : Ascii.ascii) (s : string) : list string :=
  match s with
  | EmptyString => [EmptyString]
  | String a s =>
      if bool_decide (a = c) then EmptyString :: split_on c s
      else match split_on c s with
           | [] => [String a EmptyString]
           | w :: ws => String a w :: ws
           end
  end.

(** [str::split_once]. *)
Definition split_once (sep s : string) : option (string * string) :=
  i ← sfind sep s;
  Some (stake i s, sdrop (i + String.length sep) s).

Definition comma : Ascii.ascii := Ascii.ascii_of_nat 44.

(** ** The readers *)

Definition var (env : string → option string) (key : string) : option string :=
  value ← env key;
  if sempty value then None else Some value.

Definition env_or (raw : option string) (fallback : string) : string := default fallback raw.

Definition parse_or {T} (parse : string → option T) (raw : option string) (fallback : T) : T :=
  default fallback (raw ≫= parse).

Definition parse_bool (s : string) : option bool :=
  if bool_decide (s = "true") then Some true else if bool_decide (s = "false") then Some false else None.

Definition parse_list (raw : string) : list string :=
  filter (λ item, sempty item = false) (trim <$> split_on comma raw).

(** ** The whole environment *)

Record CacheConfig := mkCacheConfig { cache_bytes : Z; max_obj_bytes : Z }.

Record Config := mkConfig {
  listen : string;
  endpoint : string;
  cfg_buckets : list string;
  index_scan : ScanConfig;
  recovery_rearm : bool;
  cfg_cache : CacheConfig;
  disk_path : option string;
  disk_bytes : Z;
  node_name : string;
  stats_secs : Z;
  metrics_listen : option string;
}.

Definition DEFAULT_LISTEN : string := "0.0.0.0:8014".
Definition DEFAULT_CACHE_BYTES : Z := 268435456.
Definition DEFAULT_MAX_OBJECT_BYTES : Z := 8388608.
Definition DEFAULT_DISK_CACHE_BYTES : Z := 10737418240.
Definition DEFAULT_STATS_SECS : Z := 60.
Definition DEFAULT_NODE_NAME : string := "s3cache".

(** [ScanConfig::default], given the processors the host reports. *)
Definition ScanConfig_default (parallelism : option Z) : ScanConfig := mkScanConfig (default 1 parallelism) 16.

(** [Config::from_env]. [None]: the panic of a missing endpoint. *)
Definition from_env (env : string → option string) (parallelism : option Z) : option Config :=
  endpoint ← env "S3CACHE_UPSTREAM_ENDPOINT";
  Some (mkConfig
    (env_or (var env "S3CACHE_LISTEN") DEFAULT_LISTEN)
    endpoint
    (parse_list (default EmptyString (var env "S3CACHE_BUCKETS")))
    (mkScanConfig
       (parse_or parse_u64 (var env "S3CACHE_INDEX_SCAN_CONCURRENCY") (workers (ScanConfig_default parallelism)))
       (parse_or parse_u64 (var env "S3CACHE_INDEX_SCAN_DISCOVERY_REQUESTS") (discovery_budget (ScanConfig_default parallelism))))
    (parse_or parse_bool (var env "S3CACHE_RECOVERY_REARM") false)
    (mkCacheConfig
       (parse_or parse_u64 (var env "S3CACHE_CACHE_BYTES") DEFAULT_CACHE_BYTES)
       (parse_or parse_u64 (var env "S3CACHE_MAX_OBJECT_BYTES") DEFAULT_MAX_OBJECT_BYTES))
    (var env "S3CACHE_DISK_CACHE")
    (parse_or parse_u64 (var env "S3CACHE_DISK_CACHE_BYTES") DEFAULT_DISK_CACHE_BYTES)
    (env_or (var env "HOSTNAME") DEFAULT_NODE_NAME)
    (parse_or parse_u64 (var env "S3CACHE_STATS_SECS") DEFAULT_STATS_SECS)
    (var env "S3CACHE_METRICS_LISTEN")).

(** ** Gossip *)

Definition DEFAULT_LEASE_MS : Z := 2000.
Definition DEAD_TIMEOUT_FLOOR_MS : Z := 2000.

Definition parse_lease_ms (raw : option string) : Z :=
  match raw with
  | None => DEFAULT_LEASE_MS
  | Some raw =>
      match parse_u64 (trim raw) with
      | Some ms => if 0 <? ms then ms else DEFAULT_LEASE_MS
      | None => DEFAULT_LEASE_MS
      end
  end.

Definition parse_seeds (raw : string) : list (string * string) :=
  omap (split_once "=") (filter (λ seed, sempty seed = false) (trim <$> split_on comma raw)).

(** The membership timeout [gossip_config] sets. *)
Definition dead_timeout_ms (lease_ms : Z) : Z := Z.max lease_ms DEAD_TIMEOUT_FLOOR_MS.

Record SyncConfig := mkSyncConfig {
  sc_bind : string;
  sc_advertise : option string;
  sc_seeds : list (string * string);
  sc_node_id : string;
  sc_consistency : Consistency;
  sc_lease_ms : Z;
}.

(** [sync::config::from_env], up to the construction of the transport. *)
Definition sync_config (env : string → option string) (node_name : string) : option SyncConfig :=
  bind ← var env "S3CACHE_GOSSIP_BIND";
  Some (mkSyncConfig bind (var env "S3CACHE_GOSSIP_ADVERTISE")
    (parse_seeds (default EmptyString (var env "S3CACHE_GOSSIP_SEEDS"))) node_name
    (consistency_parse (default EmptyString (var env "S3CACHE_CONSISTENCY")))
    (parse_lease_ms (var env "S3CACHE_LEASE_MS"))).

(** The seeds a node counts on: itself left out. *)
Definition expected_seeds (cfg : SyncConfig) : list string :=
  filter (λ id, id ≠ sc_node_id cfg) ((sc_seeds cfg).*1).

(** ** What is read *)

Fixpoint join_with (c : Ascii.ascii) (l : list string) : string :=
  match l with
  | [] => EmptyString
  | [w] => w
  | w :: l => w +:+ String c (join_with c l)
  end.

Lemma split_on_avoids c w : avoids c w = true → split_on c w = [w].
Proof. induction w as [|a w IH]; cbn; [done|]. intros H. bool_prop. rewrite bool_decide_eq_false_2 by done. by rewrite IH. Qed.

Lemma split_on_append c w s : avoids c w = true → split_on c (w +:+ String c s) = w :: split_on c s.
Proof.
  induction w as [|a w IH].
  - intros _. change ("" +:+ String c s) with (String c s). cbn. by rewrite bool_decide_eq_true_2.
  - cbn [avoids]. intros H. bool_prop. rewrite append_cons. cbn [split_on]. rewrite bool_decide_eq_false_2 by done. by rewrite IH.
Qed.

Lemma split_on_join c l : l ≠ [] → Forall (λ w, avoids c w = true) l → split_on c (join_with c l) = l.
Proof.
  induction l as [|w l IH]; [done|]. intros _ [Hw Hl]%Forall_cons. destruct l as [|w' l]; [by apply split_on_avoids|].
  change (join_with c (w :: w' :: l)) with (w +:+ String c (join_with c (w' :: l))). rewrite split_on_append by done. by rewrite IH.
Qed.

(** A piece of a split holds no separator. *)
Lemma split_on_pieces c s : Forall (λ w, avoids c w = true) (split_on c s).
Proof.
  induction s as [|a s IH]; cbn; [by repeat constructor|]. case_bool_decide as E; [by constructor|].
  destruct (split_on c s) as [|w ws]; [repeat constructor; cbn; by rewrite bool_decide_eq_false_2|].
  apply Forall_cons in IH as [Hw Hws]. constructor; [cbn; by rewrite bool_decide_eq_false_2|done].
Qed.

(** A list setting reads back as it was written. *)
Lemma parse_list_join l :
  l ≠ [] → Forall (λ w, avoids comma w = true ∧ trim w = w ∧ w ≠ EmptyString) l → parse_list (join_with comma l) = l.
Proof.
  intros Hne Hl. unfold parse_list. rewrite split_on_join; [|done|by eapply Forall_impl; [exact Hl|]; intros ? (? & _)].
  clear Hne. induction Hl as [|w l (_ & Ht & Hw) _ IH]; [done|]. cbn [fmap list_fmap]. rewrite Ht, filter_cons_True by (by destruct w).
  by rewrite IH.
Qed.

(** Whatever the environment holds, a lease is positive, so it expires, and a member is not
    reported dead before its lease lapses. *)
Lemma lease_positive raw : 0 < parse_lease_ms raw ∧ parse_lease_ms raw <= dead_timeout_ms (parse_lease_ms raw).
Proof.
  unfold parse_lease_ms, dead_timeout_ms, DEFAULT_LEASE_MS. destruct raw as [raw|]; [|lia].
  destruct (parse_u64 (trim raw)) as [ms|]; [|lia]. destruct (Z.ltb_spec 0 ms); lia.
Qed.

(** A variable set to nothing reads like one that is not set, everywhere but in the endpoint. *)
Lemma from_env_empty env parallelism :
  from_env (λ key, if bool_decide (key = "S3CACHE_UPSTREAM_ENDPOINT") then env key else var env key) parallelism =
  from_env env parallelism.
Proof.
  assert (∀ key, bool_decide (key = "S3CACHE_UPSTREAM_ENDPOINT") = false →
    var (λ key, if bool_decide (key = "S3CACHE_UPSTREAM_ENDPOINT") then env key else var env key) key = var env key) as H.
  { intros key Hk. unfold var at 1. rewrite Hk. unfold var. destruct (env key) as [v|]; [|done]. cbn. by destruct (sempty v) eqn:E; cbn; rewrite ?E. }
  unfold from_env. rewrite bool_decide_eq_true_2 by done. destruct (env "S3CACHE_UPSTREAM_ENDPOINT"); [|done]. cbn [mbind option_bind].
  by rewrite !H by done.
Qed.
