(* ===== verification/FleetConfig.v ===== *)
(** * The fleet's address book

    [src/src/sync/fleet/config.rs]: the validated peer book of a fleet, and the scope under
    which its members exchange images. *)

From S2P Require Import Prelude.
From S2P Require Import Wire.
From S2P Require Import Coherence.
From S2P Require Import Scan.
From S2P Require Import Config.
From stdpp Require Import pretty.
#[local] Open Scope Z_scope.

Definition MAX_PEERS : Z := 256.
Definition MAX_ID_BYTES : Z := 256.
Definition MAX_ADDRESS_BYTES : Z := 512.
Definition MAX_BUCKETS : Z := 4096.
Definition MAX_SCOPE_BYTES : Z := 8192.

Inductive FleetConfigError :=
| Partial | InvalidBind | InvalidAddress | IncompleteBook | FleetCapacity | BucketInventory | Entropy.

(** ** Socket addresses *)

(** [core::net]'s parser: a reader takes a prefix of the text, or nothing. *)
Module Addr.
Definition reader (A : Type) : Type := string → option (A * string).

Definition given (c : Ascii.ascii) : reader unit := λ s,
  match s with String a s => if bool_decide (a = c) then Some (tt, s) else None | EmptyString => None end.

Definition to_digit (radix : Z) (a : Ascii.ascii) : option Z :=
  let n := Z.of_nat (Ascii.nat_of_ascii a) in
  let d := if (48 <=? n) && (n <=? 57) then n - 48
           else if (97 <=? n) && (n <=? 122) then n - 87
           else if (65 <=? n) && (n <=? 90) then n - 55 else radix in
  if d <? radix then Some d else None.

(** Digits, at most [max_digits] of them and with a value of at most [max]. *)
Fixpoint digits (radix max : Z) (max_digits : option nat) (count : nat) (acc : Z) (s : string) : option (Z * nat * string) :=
  match s with
  | EmptyString => Some (acc, count, s)
  | String a rest =>
      match to_digit radix a with
      | None => Some (acc, count, s)
      | Some d =>
          let acc := acc * radix + d in
          if (is_some_and (λ m, (m <? S count)%nat) max_digits) || (is_none max_digits && (max <? acc)) then None
          else digits radix max max_digits (S count) acc rest
      end
  end.

Definition read_number (radix max : Z) (max_digits : option nat) (allow_zero_prefix : bool) : reader Z := λ s,
  '(n, count, rest) ← digits radix max max_digits 0 0 s;
  let leading_zero := match s with String a _ => bool_decide (a = Ascii.ascii_of_nat 48) | EmptyString => false end in
  if (count =? 0)%nat || (negb allow_zero_prefix && leading_zero && (1 <? count)%nat) || (max <? n) then None
  else Some (n, rest).

(** [read_separator]: the separator stands before every item but the first. *)
Definition separated {A} (c : Ascii.ascii) (i : nat) (inner : reader A) : reader A := λ s,
  match i with
  | O => inner s
  | S _ => '(_, s) ← given c s; inner s
  end.

Definition dot : Ascii.ascii := Ascii.ascii_of_nat 46.

Fixpoint octets (n i : nat) : reader (list Z) := λ s,
  match n with
  | O => Some ([], s)
  | S n =>
      '(o, s) ← separated dot i (read_number 10 255 (Some 3%nat) false) s;
      '(os, s) ← octets n (S i) s;
      Some (o :: os, s)
  end.
Definition read_ipv4 : reader (list Z) := octets 4 0.

(** [read_groups] of the IPv6 reader, [n] groups left after the [i] read: the groups, and
    whether they end in an embedded IPv4 address. *)
Fixpoint groups (n i : nat) (s : string) : list Z * bool * string :=
  match n with
  | O => ([], false, s)
  | S n =>
      match (if (1 <=? n)%nat then separated colon i read_ipv4 s else None) with
      | Some ([a; b; c; d], s) => ([a * 256 + b; c * 256 + d], true, s)
      | _ =>
          match separated colon i (read_number 16 65535 (Some 4%nat) true) s with
          | Some (g, s) => let '(gs, v4, s) := groups n (S i) s in (g :: gs, v4, s)
          | None => ([], false, s)
          end
      end
  end.

Definition read_ipv6 : reader (list Z) := λ s,
  let '(head, v4, s) := groups 8 0 s in
  if (length head =? 8)%nat then Some (head, s)
  else if v4 then None
  else
    '(_, s) ← given colon s;
    '(_, s) ← given colon s;
    let '(tail, _, s) := groups (7 - length head) 0 s in
    Some (head ++ replicate (8 - length head - length tail) 0 ++ tail, s).

Definition read_port : reader Z := λ s, '(_, s) ← given colon s; read_number 10 u16_max None true s.

Inductive SocketAddr := V4 (ip : list Z) (port : Z) | V6 (ip : list Z) (scope_id port : Z).

Definition port (a : SocketAddr) : Z := match a with V4 _ p | V6 _ _ p => p end.

Definition read_v4 : reader SocketAddr := λ s,
  '(ip, s) ← read_ipv4 s;
  '(p, s) ← read_port s;
  Some (V4 ip p, s).

Definition read_v6 : reader SocketAddr := λ s,
  '(_, s) ← given (Ascii.ascii_of_nat 91) s;
  '(ip, s) ← read_ipv6 s;
  let '(scope_id, s) := default (0, s) ('(_, s) ← given (Ascii.ascii_of_nat 37) s; read_number 10 u32_max None true s) in
  '(_, s) ← given (Ascii.ascii_of_nat 93) s;
  '(p, s) ← read_port s;
  Some (V6 ip scope_id p, s).

(** [str::parse::<SocketAddr>]: the whole text. *)
Definition parse (s : string) : option SocketAddr :=
  '(a, rest) ← option_or (read_v4 s) (read_v6 s);
  if sempty rest then Some a else None.
End Addr.

(** ** Addresses *)

(** [str::contains]. *)
Definition contains (p s : string) : bool := is_some (sfind p s).
Definition has_whitespace (s : string) : bool := existsb (λ p, contains p s) white_space.

(** [str::parse::<u16>]. *)
Definition parse_u16 (s : string) : option Z := parse_u64 s ≫= try_from u16_max.

Definition valid_address (value : string) : bool :=
  match rsplit_once colon value with
  | None => false
  | Some (host, port) =>
      negb (sempty host) && negb (has_whitespace host) && (slen value <=? MAX_ADDRESS_BYTES)
      && is_some_and (λ port, negb (port =? 0)) (parse_u16 port)
  end.

Definition slash : Ascii.ascii := Ascii.ascii_of_nat 47.

Definition safe_origin_endpoint (value : string) : bool :=
  match split_once "://" value with
  | None => false
  | Some (scheme, address) =>
      if negb (bool_decide (scheme = "http") || bool_decide (scheme = "https")) || contains "?" value || contains "#" value
      then false
      else
        let authority := default EmptyString (head (split_on slash address)) in
        negb (sempty authority) && negb (contains "@" authority) && negb (has_whitespace authority)
  end.

(** ** The book *)

Record FleetConfig := mkFleetConfig {
  fc_bind : Addr.SocketAddr;
  fc_origin_id : string;
  fc_origin_endpoint : string;
  fc_origin_region : string;
  fc_buckets : list string;
  fc_peers : list (string * string);
}.

(** The loop over the peers; [parsed] holds the names in the book so far. *)
Fixpoint parse_peers (raws : list string) (parsed : list (string * string)) : result FleetConfigError (list (string * string)) :=
  match raws with
  | [] => Ok parsed
  | raw :: raws =>
      _ ← refuse_if (MAX_PEERS <=? Z.of_nat (length parsed)) FleetCapacity;
      '(name, address) ← ok_or (split_once "=" raw) InvalidAddress;
      _ ← refuse_if (sempty name || (MAX_ID_BYTES <? slen name) || has_whitespace name || negb (valid_address address)
                     || bool_decide (name ∈ parsed.*1)) InvalidAddress;
      parse_peers raws (parsed ++ [(name, address)])
  end.

(** A [BTreeSet] of the names, in order. *)
Definition name_set (l : list string) : list string := dedup (merge_sort String.le l).

Definition parse (bind advertise peers origin_id : option string) (origin_endpoint origin_region node_id : string)
    (buckets : list string) : result FleetConfigError (option FleetConfig) :=
  match bind, advertise, peers, origin_id with
  | None, None, None, None => Ok None
  | Some bind, Some advertise, Some peers, Some origin_id =>
      _ ← refuse_if (sempty origin_id || (MAX_ADDRESS_BYTES <? slen origin_id) || negb (safe_origin_endpoint origin_endpoint)
                     || (MAX_ADDRESS_BYTES <? slen origin_endpoint) || sempty origin_region
                     || (MAX_ID_BYTES <? slen origin_region)) InvalidAddress;
      bind ← ok_or (Addr.parse bind) InvalidBind;
      _ ← refuse_if ((Addr.port bind =? 0) || negb (valid_address advertise)) InvalidAddress;
      _ ← refuse_if (bool_decide (buckets = []) || (MAX_BUCKETS <? Z.of_nat (length buckets))) BucketInventory;
      let unique_buckets := name_set buckets in
      _ ← refuse_if (negb (length unique_buckets =? length buckets)%nat
                     || existsb (λ name, sempty name || (MAX_ID_BYTES <? slen name)) unique_buckets) BucketInventory;
      parsed ← parse_peers (split_on comma peers) [];
      _ ← refuse_if (bool_decide (parsed = []) || negb (bool_decide ((node_id, advertise) ∈ parsed))) IncompleteBook;
      Ok (Some (mkFleetConfig bind origin_id origin_endpoint origin_region unique_buckets parsed))
  | _, _, _, _ => Err Partial
  end.

(** ** The scope *)

Record BootstrapScope := mkScope { bs_domain : string; bs_partition : string }.

Definition component (value : string) : string := pretty (Z.to_N (slen value)) +:+ "#" +:+ value.

Definition append_component (out value : string) : result FleetConfigError string :=
  next ← ok_or (n ← checked_add usize_max (slen out) (slen value); checked_add usize_max n 32) FleetCapacity;
  _ ← refuse_if (MAX_SCOPE_BYTES <? next) FleetCapacity;
  Ok (out +:+ component value).

Fixpoint append_components (out : string) (values : list string) : result FleetConfigError string :=
  match values with
  | [] => Ok out
  | v :: values => out ← append_component out v; append_components out values
  end.

(** [windows(2).any] of equal pairs. *)
Fixpoint has_twins (l : list string) : bool :=
  match l with
  | [] => false
  | a :: l => is_some_and (λ b, bool_decide (a = b)) (head l) || has_twins l
  end.

Definition scope (c : FleetConfig) (buckets : list string) : result FleetConfigError BootstrapScope :=
  let sorted := merge_sort String.le buckets in
  _ ← refuse_if (negb (bool_decide (sorted = fc_buckets c)) || bool_decide (sorted = []) || (MAX_BUCKETS <? Z.of_nat (length sorted))
                 || has_twins sorted || existsb (λ b, sempty b || (MAX_ID_BYTES <? slen b)) sorted) BucketInventory;
  domain ← append_components EmptyString [fc_origin_id c; fc_origin_endpoint c; fc_origin_region c; "s3cache-index-v1"];
  partition ← append_components EmptyString sorted;
  _ ← refuse_if (MAX_SCOPE_BYTES <? saturating_add usize_max (slen domain) (slen partition)) FleetCapacity;
  Ok (mkScope domain partition).

(** ** Boot identities *)

(** [boot.rs]: a nonzero 128-bit token; [draws] are the fills of the system's generator. *)
Definition boot_from_bytes (l : bytes) : option Z :=
  let token := from_le_bytes l in
  if token =? 0 then None else Some token.

Fixpoint boot_draws (draws : list (option bytes)) : result FleetConfigError Z :=
  match draws with
  | [] => Err Entropy
  | None :: _ => Err Entropy
  | Some l :: draws => match boot_from_bytes l with Some id => Ok id | None => boot_draws draws end
  end.
Definition fresh_boot (first second : option bytes) : result FleetConfigError Z := boot_draws [first; second].
