(* ===== verification/FleetProps.v ===== *)
(** * What the address book promises

    A fleet's scope names its origin and its buckets, so two nodes that agree on a scope
    agree on both; a book that is accepted is complete, unambiguous, and publishes no
    credentials. *)

From S2P Require Import Prelude.
From S2P Require Import Wire.
From S2P Require Import Coherence.
From S2P Require Import Scan.
From S2P Require Import ScanProps.
From S2P Require Import Config.
From S2P Require Import FleetConfig.
From stdpp Require Import pretty.
#[local] Open Scope Z_scope.

(** ** Strings *)

Lemma avoids_split c a b x y :
  avoids c a = true → avoids c b = true → a +:+ String c x = b +:+ String c y → a = b ∧ x = y.
Proof.
  revert b. induction a as [|d a IH]; intros [|e b]; cbn [avoids]; rewrite ?append_cons; intros Ha Hb H; bool_prop.
  - by injection H as ->.
  - injection H as -> _. done.
  - injection H as -> _. done.
  - injection H as -> H. destruct (IH b) as [-> ->]; done.
Qed.

Lemma append_same_length a b x y : String.length a = String.length b → a +:+ x = b +:+ y → a = b ∧ x = y.
Proof.
  revert b. induction a as [|d a IH]; intros [|e b]; cbn [String.length]; rewrite ?append_cons; try done.
  intros [= Hl] [= -> H]. by destruct (IH b Hl H) as [-> ->].
Qed.

Lemma sfind_char c s : is_some (sfind (String c EmptyString) s) = negb (avoids c s).
Proof.
  induction s as [|a s IH]; [done|]. cbn [sfind avoids starts_with]. destruct (decide (a = c)) as [->|Hne].
  - by rewrite !bool_decide_eq_true_2.
  - rewrite (bool_decide_eq_false_2 (a = c)), (bool_decide_eq_false_2 (c = a)) by congruence. cbn.
    rewrite <- IH. by destruct (sfind _ s).
Qed.

Lemma contains_avoids c s : contains (String c EmptyString) s = false ↔ avoids c s = true.
Proof. unfold contains. rewrite sfind_char. by destruct (avoids c s). Qed.

Lemma split_once_Some sep s a b : split_once sep s = Some (a, b) → s = a +:+ sep +:+ b.
Proof.
  unfold split_once. intros (i & Hi & [= <- <-])%bind_Some. apply sfind_Some in Hi as (u & v & -> & <-).
  rewrite stake_append, <- length_append. do 2 f_equal. rewrite <- append_assoc. by rewrite sdrop_append.
Qed.

Lemma split_on_nonempty c s : split_on c s ≠ [].
Proof. destruct s; cbn; [done|]. case_bool_decide; [done|]. by destruct (split_on _ _). Qed.

Lemma join_split c s : join_with c (split_on c s) = s.
Proof.
  induction s as [|a s IH]; [done|]. cbn [split_on]. pose proof (split_on_nonempty c s) as Hne. case_bool_decide as E.
  - subst. destruct (split_on c s) as [|w ws]; [done|].
    change (join_with c ("" :: w :: ws)) with (String c (join_with c (w :: ws))). by rewrite IH.
  - destruct (split_on c s) as [|w ws]; [done|]. destruct ws as [|w' ws]; [cbn in *; by subst|].
    change (join_with c (String a w :: w' :: ws)) with (String a (join_with c (w :: w' :: ws))). by rewrite IH.
Qed.

Lemma split_on_head c s : ∃ rest, s = default EmptyString (head (split_on c s)) +:+ rest ∧ (rest = EmptyString ∨ ∃ t, rest = String c t).
Proof.
  pose proof (join_split c s) as Hj. pose proof (split_on_nonempty c s) as Hne.
  destruct (split_on c s) as [|w [|w' ws]]; [done|..]; subst s; cbn [head default].
  - exists EmptyString. rewrite append_empty_r. auto.
  - exists (String c (join_with c (w' :: ws))). eauto.
Qed.

(** ** Components *)

Definition components (l : list string) : string := foldr (λ v acc, component v +:+ acc) EmptyString l.

Lemma pretty_char_hash d : pretty_N_char d ≠ Ascii.ascii_of_nat 35.
Proof. unfold pretty_N_char. by repeat case_match. Qed.

(** A component's length tells where it ends. *)
Lemma component_split v w x y : component v +:+ x = component w +:+ y → v = w ∧ x = y.
Proof.
  unfold component. rewrite !append_assoc. intros H.
  apply (avoids_split (Ascii.ascii_of_nat 35)) in H as [Hn H]; [|apply pretty_avoids, pretty_char_hash..].
  apply append_same_length in H; [done|]. apply (inj pretty) in Hn. unfold slen in Hn. lia.
Qed.

Lemma component_nonempty v x : component v +:+ x ≠ EmptyString.
Proof. unfold component. rewrite !append_assoc. by destruct (pretty _). Qed.

#[global] Instance components_inj : Inj (=) (=) components.
Proof.
  intros l. induction l as [|v l IH]; intros [|w m]; cbn [components foldr]; [done|..].
  - intros H. by apply symmetry, component_nonempty in H.
  - intros H. by apply component_nonempty in H.
  - intros [-> H]%component_split. by rewrite (IH m).
Qed.

Lemma append_components_Ok values : ∀ out out', append_components out values = Ok out' → out' = out +:+ components values.
Proof.
  induction values as [|v values IH]; intros out out'; cbn [append_components].
  { intros [= <-]. by rewrite append_empty_r. }
  intros H. apply bind_ok in H as (next & Hn & H). apply IH in H as ->. unfold append_component in Hn.
  apply bind_ok in Hn as (? & _ & Hn). apply bind_ok in Hn as ([] & _ & [= <-]). by rewrite append_assoc.
Qed.

Lemma scope_Ok c buckets s :
  scope c buckets = Ok s →
  fc_buckets c = merge_sort String.le buckets ∧ has_twins (merge_sort String.le buckets) = false ∧
  bs_domain s = components [fc_origin_id c; fc_origin_endpoint c; fc_origin_region c; "s3cache-index-v1"] ∧
  bs_partition s = components (merge_sort String.le buckets) ∧ slen (bs_domain s) + slen (bs_partition s) <= MAX_SCOPE_BYTES.
Proof.
  unfold scope. intros H. apply bind_ok in H as ([] & Hg%refuse_if_ok & H). apply bind_ok in H as (d & Hd & H).
  apply bind_ok in H as (p & Hp & H). apply bind_ok in H as ([] & Hs%refuse_if_ok & [= <-]).
  apply append_components_Ok in Hd as ->, Hp as ->. cbn [bs_domain bs_partition]. bool_prop.
  unfold saturating_add, MAX_SCOPE_BYTES, usize_max, u64_max in *. split_and!; try done. lia.
Qed.

(** [C27] A scope names the origin and the buckets.  Two nodes that build the same scope,
    each from its own book and buckets, have the same origin identity, endpoint and region
    and the same buckets, in whatever order they list them; and the scope's text is within
    its limit. *)
Theorem scope_binds c1 buckets1 c2 buckets2 s :
  scope c1 buckets1 = Ok s → scope c2 buckets2 = Ok s →
  fc_origin_id c1 = fc_origin_id c2 ∧ fc_origin_endpoint c1 = fc_origin_endpoint c2 ∧ fc_origin_region c1 = fc_origin_region c2 ∧
  buckets1 ≡ₚ buckets2 ∧ fc_buckets c1 = fc_buckets c2 ∧ slen (bs_domain s) + slen (bs_partition s) <= MAX_SCOPE_BYTES.
Proof.
  intros (Hb1 & _ & Hd1 & Hp1 & Hlen)%scope_Ok (Hb2 & _ & Hd2 & Hp2 & _)%scope_Ok.
  rewrite Hd1 in Hd2. rewrite Hp1 in Hp2. apply (inj components) in Hd2, Hp2. injection Hd2 as -> -> ->.
  split_and!; try done; [|by rewrite Hb1, Hb2].
  rewrite <- (merge_sort_Permutation String.le buckets1), Hp2. apply merge_sort_Permutation.
Qed.

(** ** The book *)

Lemma safe_endpoint value :
  safe_origin_endpoint value = true →
  ∃ scheme authority path, value = scheme +:+ "://" +:+ authority +:+ path ∧ (scheme = "http" ∨ scheme = "https") ∧
    authority ≠ EmptyString ∧ avoids (Ascii.ascii_of_nat 64) authority = true ∧
    (path = EmptyString ∨ ∃ t, path = String slash t) ∧
    avoids (Ascii.ascii_of_nat 63) value = true ∧ avoids (Ascii.ascii_of_nat 35) value = true.
Proof.
  unfold safe_origin_endpoint. destruct (split_once "://" value) as [[scheme address]|] eqn:E; [|done].
  destruct (_ || _) eqn:Eg; [done|]. intros H. apply split_once_Some in E. apply orb_false_iff in Eg as [[Eg Hq]%orb_false_iff Hh].
  change (contains (String (Ascii.ascii_of_nat 63) EmptyString) value = false) in Hq.
  change (contains (String (Ascii.ascii_of_nat 35) EmptyString) value = false) in Hh.
  apply contains_avoids in Hq, Hh. destruct (split_on_head slash address) as (path & Hp & Hpath).
  set (authority := default EmptyString (head (split_on slash address))) in *.
  apply andb_true_iff in H as [[Ha Hat]%andb_true_iff _]. apply negb_true_iff in Hat.
  change (contains (String (Ascii.ascii_of_nat 64) EmptyString) authority = false) in Hat. apply contains_avoids in Hat.
  exists scheme, authority, path. rewrite <- Hp. apply negb_false_iff, orb_true_iff in Eg.
  split_and!; try done; [|by destruct authority]. destruct Eg as [Eg|Eg]; apply bool_decide_eq_true in Eg; auto.
Qed.

(** What a peer entry of the book is. *)
Definition peer_ok (p : string * string) : Prop :=
  p.1 ≠ EmptyString ∧ slen p.1 <= MAX_ID_BYTES ∧ has_whitespace p.1 = false ∧ valid_address p.2 = true.

Definition show_peer (p : string * string) : string := p.1 +:+ "=" +:+ p.2.

Lemma parse_peers_Ok raws : ∀ parsed book,
  parse_peers raws parsed = Ok book →
  ∃ added, book = parsed ++ added ∧ show_peer <$> added = raws ∧ Forall peer_ok added ∧
    (NoDup parsed.*1 → NoDup book.*1) ∧ (raws ≠ [] → Z.of_nat (length book) <= MAX_PEERS).
Proof.
  induction raws as [|raw raws IH]; intros parsed book; cbn [parse_peers].
  { intros [= <-]. exists []. rewrite app_nil_r. by split_and!. }
  intros H. apply bind_ok in H as ([] & Hn%refuse_if_ok & H). apply bind_ok in H as ([name address] & Hs%ok_or_ok & H).
  apply bind_ok in H as ([] & Hg%refuse_if_ok & H). apply split_once_Some in Hs. bool_prop.
  apply IH in H as (added & -> & Hraws & Hok & Hnd & Hlen). exists ((name, address) :: added). rewrite <- app_assoc in *.
  split_and!; [done|by cbn; rewrite Hraws; subst raw| |  |].
  - constructor; [|done]. unfold peer_ok. cbn. split_and!; try done. by destruct name.
  - intros HP. apply Hnd. rewrite fmap_app. cbn. apply NoDup_app. split_and!; [done| |apply NoDup_singleton].
    intros x Hx ->%list_elem_of_singleton. done.
  - intros _. destruct raws as [|? raws]; [|by apply Hlen]. apply fmap_nil_inv in Hraws as ->.
    rewrite length_app. cbn. lia.
Qed.

Lemma name_set_spec l : StronglySorted slt (name_set l) ∧ ∀ x, x ∈ name_set l ↔ x ∈ l.
Proof.
  unfold name_set. split.
  - apply dedup_sorted, (StronglySorted_merge_sort String.le).
  - intros x. rewrite dedup_elem. by rewrite (merge_sort_Permutation String.le l).
Qed.

Lemma slt_sorted_NoDup l : StronglySorted slt l → NoDup l.
Proof.
  induction 1 as [|a l _ IH Hall]; constructor; [|done]. intros Hin. rewrite Forall_forall in Hall.
  by apply Hall, slt_irrefl in Hin.
Qed.

(** A set as large as the list holds each name once, in order. *)
Lemma name_set_perm l : length (name_set l) = length l → name_set l ≡ₚ l ∧ merge_sort String.le l = name_set l.
Proof.
  intros Hlen. destruct (name_set_spec l) as [Hs He].
  assert (name_set l ≡ₚ l) as Hp.
  { apply submseteq_length_Permutation; [|lia]. apply NoDup_submseteq; [by apply slt_sorted_NoDup|]. intros x. apply He. }
  split; [done|]. apply (StronglySorted_unique String.le).
  - apply (StronglySorted_merge_sort String.le).
  - clear -Hs. induction Hs as [|a m _ IH Hall]; constructor; [done|]. eapply Forall_impl; [exact Hall|].
    intros b Hab. apply le_sleb. auto.
  - by rewrite merge_sort_Permutation.
Qed.

Lemma has_twins_sorted l : StronglySorted slt l → has_twins l = false.
Proof.
  induction 1 as [|a l Hl IH Hall]; [done|]. destruct l as [|b l]; [done|].
  change (bool_decide (a = b) || has_twins (b :: l) = false). rewrite IH, orb_false_r.
  apply bool_decide_eq_false_2. intros ->. apply Forall_cons in Hall as [Hb _]. by apply slt_irrefl in Hb.
Qed.

(** A book's own buckets are refused only for the length of the scope. *)
Lemma append_components_Err values : ∀ out e, append_components out values = Err e → e = FleetCapacity.
Proof.
  induction values as [|v values IH]; intros out e; cbn [append_components]; [done|].
  unfold append_component, ok_or. case_match; cbn; [|by intros [= <-]].
  unfold refuse_if. destruct (_ <? _); cbn; [by intros [= <-]|apply IH].
Qed.

Lemma book_scope c buckets e :
  fc_buckets c = name_set buckets → merge_sort String.le buckets = name_set buckets → buckets ≠ [] →
  Z.of_nat (length buckets) <= MAX_BUCKETS → existsb (λ name, sempty name || (MAX_ID_BYTES <? slen name)) (name_set buckets) = false →
  scope c buckets = Err e → e = FleetCapacity.
Proof.
  intros Hc Hs Hne Hlen Hn. unfold scope. rewrite Hs, Hc, Hn. rewrite (bool_decide_eq_true_2 (_ = _)) by done.
  assert (length (name_set buckets) = length buckets) as Hl.
  { rewrite <- Hs. by rewrite (merge_sort_Permutation String.le buckets). }
  rewrite bool_decide_eq_false_2, (proj2 (Z.ltb_ge _ _)), has_twins_sorted; cbn [negb orb refuse_if mbind result_bind].
  - destruct (append_components _ [_; _; _; _]) eqn:Ed; cbn; [|by intros [= <-]; eapply append_components_Err].
    destruct (append_components _ (name_set _)) eqn:Ep; cbn; [|by intros [= <-]; eapply append_components_Err].
    unfold refuse_if. destruct (_ <? _); cbn; [by intros [= <-]|done].
  - apply name_set_spec.
  - lia.
  - intros E. rewrite E in Hl. by destruct buckets.
Qed.

(** A book that is accepted is complete and unambiguous, and holds no credentials.  It
    is given by all four settings; its origin endpoint is an [http] or [https] address whose
    authority names no user and which has no query and no fragment; it lists exactly the
    peers that were written, under distinct names with usable addresses, this node's own at
    the address it advertises among them; its buckets are the configured ones, in order and
    without repetition; and the book is good for its own buckets: the only scope it refuses
    them is one that is too long.  Without any of the four settings there is no book. *)
Theorem book_sound bind advertise peers origin_id endpoint region node_id buckets :
  match parse bind advertise peers origin_id endpoint region node_id buckets with
  | Ok (Some c) =>
      ∃ addr written, advertise = Some addr ∧ peers = Some written ∧ origin_id = Some (fc_origin_id c) ∧
        fc_origin_endpoint c = endpoint ∧
        (∃ scheme authority path, endpoint = scheme +:+ "://" +:+ authority +:+ path ∧ (scheme = "http" ∨ scheme = "https") ∧
          authority ≠ EmptyString ∧ avoids (Ascii.ascii_of_nat 64) authority = true ∧
          (path = EmptyString ∨ ∃ t, path = String slash t) ∧
          avoids (Ascii.ascii_of_nat 63) endpoint = true ∧ avoids (Ascii.ascii_of_nat 35) endpoint = true) ∧
        join_with comma (show_peer <$> fc_peers c) = written ∧ Forall peer_ok (fc_peers c) ∧ NoDup (fc_peers c).*1 ∧
        Z.of_nat (length (fc_peers c)) <= MAX_PEERS ∧ (node_id, addr) ∈ fc_peers c ∧
        fc_buckets c ≡ₚ buckets ∧ StronglySorted slt (fc_buckets c) ∧ Addr.port (fc_bind c) ≠ 0 ∧
        (∀ e, scope c buckets = Err e → e = FleetCapacity)
  | Ok None => bind = None ∧ advertise = None ∧ peers = None ∧ origin_id = None
  | Err e => ¬ (bind = None ∧ advertise = None ∧ peers = None ∧ origin_id = None)
  end.
Proof.
  destruct (parse bind advertise peers origin_id endpoint region node_id buckets) as [[c|]|e] eqn:E; unfold parse in E.
  - destruct bind as [bind|], advertise as [addr|], peers as [written|], origin_id as [oid|]; try done.
    apply bind_ok in E as ([] & Hid%refuse_if_ok & E). apply bind_ok in E as (b & Hb%ok_or_ok & E).
    apply bind_ok in E as ([] & Hport%refuse_if_ok & E). apply bind_ok in E as ([] & Hne%refuse_if_ok & E).
    apply bind_ok in E as ([] & Hu%refuse_if_ok & E). apply bind_ok in E as (book & Hbook & E).
    apply bind_ok in E as ([] & Hme%refuse_if_ok & [= <-]). cbn [fc_origin_id fc_origin_endpoint fc_peers fc_buckets fc_bind].
    apply orb_false_iff in Hid as [[[[_ Hsafe%negb_false_iff]%orb_false_iff _]%orb_false_iff _]%orb_false_iff _].
    apply safe_endpoint in Hsafe. apply orb_false_iff in Hport as [Hport _]. apply Z.eqb_neq in Hport.
    apply orb_false_iff in Hme as [_ Hme%negb_false_iff%bool_decide_eq_true].
    apply orb_false_iff in Hu as [Hlen%negb_false_iff%Nat.eqb_eq Hnames]. apply name_set_perm in Hlen as [Hperm Hsort].
    apply parse_peers_Ok in Hbook as (added & -> & Hraws & Hok & Hnd & Hcount). cbn [app] in *.
    exists addr, written. split_and!; try done.
    + rewrite Hraws. apply join_split.
    + by apply Hnd, NoDup_nil.
    + apply Hcount, split_on_nonempty.
    + apply name_set_spec.
    + apply orb_false_iff in Hne as [Hnil%bool_decide_eq_false Hmax%Z.ltb_ge]. intros e. by apply (book_scope _ buckets).
  - destruct bind, advertise, peers, origin_id; try done. by repeat (apply bind_ok in E as (? & _ & E)).
  - by destruct bind, advertise, peers, origin_id; intros (? & ? & ? & ?).
Qed.

(** A book of two nodes, and the scope it gives. *)
Definition demo_book : result FleetConfigError (option FleetConfig) :=
  parse (Some "0.0.0.0:7101") (Some "node-0.svc:7101") (Some "node-0=node-0.svc:7101,node-1=node-1.svc:7101") (Some "origin-account-a")
    "https://origin.example/a" "us-east-1" "node-0" ["logs"; "bucket"].

Definition demo_fleet : FleetConfig :=
  mkFleetConfig (Addr.V4 [0; 0; 0; 0] 7101) "origin-account-a" "https://origin.example/a" "us-east-1" ["bucket"; "logs"]
    [("node-0", "node-0.svc:7101"); ("node-1", "node-1.svc:7101")].

Definition demo_scope : BootstrapScope :=
  mkScope "16#origin-account-a24#https://origin.example/a9#us-east-116#s3cache-index-v1" "6#bucket4#logs".

Lemma scope_binds_witness :
  demo_book = Ok (Some demo_fleet) ∧ ["logs"; "bucket"] ≡ₚ ["bucket"; "logs"] ∧ slen (bs_domain demo_scope) + slen (bs_partition demo_scope) <= 8192.
Proof.
  split; [vm_compute; reflexivity|].
  destruct (scope_binds demo_fleet ["logs"; "bucket"] demo_fleet ["bucket"; "logs"] demo_scope) as (_ & _ & _ & Hp & _ & Hl);
    [vm_compute; reflexivity..|]. split; [exact Hp|exact Hl].
Defined.
