(* ===== verification/Lifecycle.v ===== *)
(** * Readiness and the planned stop

    [src/src/cache/stop.rs], [src/src/cache/readiness.rs], [src/src/sync/readiness.rs] and
    [src/src/sync/advertise.rs]: the count of mutation tails and the seal that waits for
    them, the readiness probe, and the declaration peers read it from.  Tails run
    concurrently, so a stop is a sequence of steps of the handlers, their tasks and the stop
    itself; the other operations are functions of what the group answers. *)

From S2P Require Import Prelude.
From S2P Require Import KeyIndex.
From S2P Require Import Coherence.
From S2P Require Import ListIndex.
From S2P Require Import Mutation.

(** ** Mutation tails *)

Record TailCount := mkTails { running : Z; closed : bool }.

Definition TailCount_default : TailCount := mkTails 0 false.

(** [WriteTails::track]: whether the tail was admitted. *)
Definition track (t : TailCount) : bool * TailCount :=
  if closed t then (false, t) else (true, mkTails (running t + 1) (closed t)).

(** [TailGuard::share] and the drop of a guard. *)
Definition share (t : TailCount) : TailCount := mkTails (running t + 1) (closed t).
Definition drop_guard (t : TailCount) : TailCount := mkTails (running t - 1) (closed t).

Definition close (t : TailCount) : TailCount := mkTails (running t) true.

(** What [drained] waits for. *)
Definition no_tail (t : TailCount) : bool := running t =? 0.

(** Where a mutation stands in [mutation_tail]: admitted with its guard; its task running,
    the handler waiting or hung up; its task ended, well or not, and the handler still
    there, announcing if the task died; or over. *)
Inductive MutationTail :=
| TailAdmitted
| TaskRuns (waiting : bool)
| TaskEnded (died : bool)
| MutationOver.

(** Where the stop stands: [drained] has seen no tail, or the seal is on the feed. *)
Inductive StopStage := Serving | Closed | Drained | FeedSealed | SealAbandoned.

#[global] Instance StopStage_eq_dec : EqDecision StopStage.
Proof. solve_decision. Defined.

(** What goes to the feed. *)
Inductive FeedItem := Published (mutation : nat) | SealItem.

#[global] Instance FeedItem_eq_dec : EqDecision FeedItem.
Proof. solve_decision. Defined.

Record StopWorld := mkStop {
  sw_sync : bool;
  sw_tails : TailCount;
  sw_mutations : list MutationTail;
  sw_stage : StopStage;
  sw_feed : list FeedItem;
}.

Definition stop_start (sync : bool) : StopWorld := mkStop sync TailCount_default [] Serving [].

Inductive StopEvent :=
| Request
| Spawn (i : nat)
| Publish (i : nat)
| TaskEnds (i : nat) (died : bool)
| HangUp (i : nat)
| Answer (i : nat)
| StopBegins
| TailsDrained
| StopDeadline
| SealFeed.

Definition set_mutation (w : StopWorld) (i : nat) (m : MutationTail) (t : TailCount) (feed : list FeedItem) : StopWorld :=
  mkStop (sw_sync w) t (<[i := m]> (sw_mutations w)) (sw_stage w) feed.

Definition set_stage (w : StopWorld) (t : TailCount) (s : StopStage) (feed : list FeedItem) : StopWorld :=
  mkStop (sw_sync w) t (sw_mutations w) s feed.

(** One step; [None]: not possible there. A request that is refused with a 503 changes
    nothing. The first poll of [drained] may come any time after the close. *)
Definition stop_step (w : StopWorld) (ev : StopEvent) : option StopWorld :=
  match ev with
  | Request =>
      let '(admitted, t) := track (sw_tails w) in
      Some (if admitted then mkStop (sw_sync w) t (sw_mutations w ++ [TailAdmitted]) (sw_stage w) (sw_feed w) else w)
  | Spawn i =>
      match sw_mutations w !! i with
      | Some TailAdmitted => Some (set_mutation w i (TaskRuns true) (share (sw_tails w)) (sw_feed w))
      | _ => None
      end
  | Publish i =>
      match sw_mutations w !! i with
      | Some (TaskRuns _) | Some (TaskEnded true) =>
          Some (set_stage w (sw_tails w) (sw_stage w) (Published i :: sw_feed w))
      | _ => None
      end
  | TaskEnds i died =>
      match sw_mutations w !! i with
      | Some (TaskRuns true) => Some (set_mutation w i (TaskEnded died) (drop_guard (sw_tails w)) (sw_feed w))
      | Some (TaskRuns false) => Some (set_mutation w i MutationOver (drop_guard (sw_tails w)) (sw_feed w))
      | _ => None
      end
  | HangUp i =>
      match sw_mutations w !! i with
      | Some (TaskRuns true) => Some (set_mutation w i (TaskRuns false) (drop_guard (sw_tails w)) (sw_feed w))
      | Some (TaskEnded _) => Some (set_mutation w i MutationOver (drop_guard (sw_tails w)) (sw_feed w))
      | _ => None
      end
  | Answer i =>
      match sw_mutations w !! i with
      | Some (TaskEnded _) => Some (set_mutation w i MutationOver (drop_guard (sw_tails w)) (sw_feed w))
      | _ => None
      end
  | StopBegins =>
      match sw_stage w with
      | Serving => Some (set_stage w (close (sw_tails w)) (if sw_sync w then Closed else SealAbandoned) (sw_feed w))
      | _ => None
      end
  | TailsDrained =>
      match sw_stage w with
      | Closed => if no_tail (sw_tails w) then Some (set_stage w (sw_tails w) Drained (sw_feed w)) else None
      | _ => None
      end
  | StopDeadline =>
      match sw_stage w with Closed => Some (set_stage w (sw_tails w) SealAbandoned (sw_feed w)) | _ => None end
  | SealFeed =>
      match sw_stage w with Drained => Some (set_stage w (sw_tails w) FeedSealed (SealItem :: sw_feed w)) | _ => None end
  end.

Fixpoint stop_run (w : StopWorld) (evs : list StopEvent) : option StopWorld :=
  match evs with
  | [] => Some w
  | ev :: evs => w ← stop_step w ev; stop_run w evs
  end.

(** [seal_writes] and what [stop] reports. *)
Definition seal_writes (w : StopWorld) (outcome : SealOutcome) : option SealOutcome :=
  match sw_stage w with FeedSealed => Some outcome | _ => None end.

Record Stopped := mkStopped { st_drained : bool; st_sealed : option SealOutcome }.
Definition stopped (w : StopWorld) (http_drained : bool) (outcome : SealOutcome) : Stopped :=
  mkStopped http_drained (seal_writes w outcome).

(** ** The declaration *)

Definition CAP_INDEXED : string := "s3cache:indexed".
Definition ADVERTISE_RETRIES : nat := 30.

(** The group's inbox keeps every declaration it accepted, the last first; [ad_retries] are
    the attempts left to the retry tasks. *)
Record Advertisement := mkAd {
  ad_consistency : Consistency;
  ad_indexed : bool;
  ad_accepted : list (list string);
  ad_retries : list nat;
}.

Section advertise.
Context `{Capabilities}.

Definition declaration (a : Advertisement) : list string :=
  capabilities (ad_consistency a) ++ (if ad_indexed a then [CAP_INDEXED] else []).

(** [Advertisement::offer]; [accepts] is the group's answer. *)
Definition offer (a : Advertisement) (accepts : bool) : bool * Advertisement :=
  (accepts, if accepts then mkAd (ad_consistency a) (ad_indexed a) (declaration a :: ad_accepted a) (ad_retries a) else a).

Definition publish (a : Advertisement) (accepts : bool) : Advertisement :=
  let '(offered, a) := offer a accepts in
  if offered then a else mkAd (ad_consistency a) (ad_indexed a) (ad_accepted a) (ad_retries a ++ [ADVERTISE_RETRIES]).

Definition declare (c : Consistency) (accepts : bool) : Advertisement := publish (mkAd c false [] []) accepts.

Definition mark_indexed (a : Advertisement) (accepts : bool) : Advertisement :=
  publish (mkAd (ad_consistency a) true (ad_accepted a) (ad_retries a)) accepts.

(** One attempt of the [i]-th retry task. *)
Definition retry (a : Advertisement) (i : nat) (accepts : bool) : option Advertisement :=
  match ad_retries a !! i with
  | Some (S left_over) =>
      let '(offered, a) := offer a accepts in
      Some (mkAd (ad_consistency a) (ad_indexed a) (ad_accepted a) (<[i := if offered then O else left_over]> (ad_retries a)))
  | _ => None
  end.

Inductive AdEvent := MarkIndexed (accepts : bool) | Retry (i : nat) (accepts : bool).

Definition ad_step (a : Advertisement) (ev : AdEvent) : option Advertisement :=
  match ev with
  | MarkIndexed accepts => Some (mark_indexed a accepts)
  | Retry i accepts => retry a i accepts
  end.

Fixpoint ad_run (a : Advertisement) (evs : list AdEvent) : option Advertisement :=
  match evs with
  | [] => Some a
  | ev :: evs => a ← ad_step a ev; ad_run a evs
  end.
End advertise.

(** ** Readiness *)

Inductive Status := Alive | Suspect | Dead.

#[global] Instance Status_eq_dec : EqDecision Status.
Proof. solve_decision. Defined.

(** The roster and declarations a node sees. *)
Record GroupView := mkView { gv_statuses : list (string * Status); gv_caps : string → list string }.

Definition member_status (g : GroupView) (node : string) : option Status :=
  snd <$> List.find (λ m, bool_decide (m.1 = node)) (gv_statuses g).

(** [UnmetSeeds]. *)
Definition give_up_on (unmet : list string) (seed : string) : list string := filter (λ s, s ≠ seed) unmet.
Definition settle (unmet : list string) (g : GroupView) : bool * list string :=
  let unmet := filter (λ s, member_status g s = None) unmet in
  (negb (bool_decide (unmet = [])), unmet).
Definition expect_seeds (unmet seeds : list string) : list string := unmet ++ seeds.

Inductive SeedStep := SettleSeeds (g : GroupView) | GiveUp (seed : string).
Definition seed_step (unmet : list string) (st : SeedStep) : list string :=
  match st with
  | SettleSeeds g => (settle unmet g).2
  | GiveUp seed => give_up_on unmet seed
  end.

Definition peer_may_hold_index (me : string) (unmet : list string) (g : GroupView) : bool :=
  negb (bool_decide (unmet = [])) ||
  existsb (λ p, negb (bool_decide (p.1 = me)) && negb (bool_decide (p.2 = Dead)) &&
                (bool_decide (gv_caps g p.1 = []) || bool_decide (CAP_INDEXED ∈ gv_caps g p.1))) (gv_statuses g).

(** [sync]: what the node sees of the group, without gossip nothing. *)
Definition probe_ready (index_ready : bool) (sync : option (string * list string * GroupView)) : bool :=
  index_ready || is_none_or (λ '(me, unmet, g), negb (peer_may_hold_index me unmet g)) sync.

(** [CachingProxy::initially_ready]; [licence] is [may_serve_local] of the coherence there is. *)
Definition initially_ready (s : KeyIndexState) (buckets_ : list string) (licence : option bool) : bool :=
  forallb (is_synced s) buckets_ && default true licence.

(** One turn of [watch_index_ready]: the latch, and whether the node declares it now. *)
Definition watch_turn (latch : bool) (s : KeyIndexState) (buckets_ : list string) (licence : option bool) : bool * bool :=
  if latch then (true, false)
  else if initially_ready s buckets_ licence then (true, is_some licence) else (false, false).

(** ** The single-node warm-up *)

(** [FullSyncOwner::claim]: the ticket, and the owner's count after it. *)
Definition claim (owner : Z) : Z * Z := let generation := wrapping_add u64_max owner 1 in (generation, generation).
Definition is_current (owner ticket : Z) : bool := owner =? ticket.

(** One turn of a bucket's warm-up, the scan's outcome given: stop, or wait that long and try
    again, after that long. *)
Definition warm_turn (owner ticket : Z) (scanned : bool) (owner_after : Z) (backoff : Z) : option (Z * Z) :=
  if negb (is_current owner ticket) then None
  else if scanned then None
  else if negb (is_current owner_after ticket) then None
  else Some (backoff, Z.min (backoff * 2) SYNC_RETRY_MAX).
