(* ===== verification/LifecycleProps.v ===== *)
(** * What a stop and a probe promise

    The seal is the last thing a life puts on its feed, and a stop can always reach it; a
    node is ready without an index only when no peer it knows of may hold one. *)

From S2P Require Import Prelude.
From S2P Require Import KeyIndex.
From S2P Require Import Coherence.
From S2P Require Import Lifecycle.

(** ** The seal *)

(** The guards a mutation holds. *)
Definition guards (m : MutationTail) : Z :=
  match m with TailAdmitted | TaskRuns false | TaskEnded _ => 1 | TaskRuns true => 2 | MutationOver => 0 end.

Definition all_guards (l : list MutationTail) : Z := foldr (λ m acc, guards m + acc) 0 l.

Lemma all_guards_app l k : all_guards (l ++ k) = all_guards l + all_guards k.
Proof. unfold all_guards. induction l as [|m l IH]; [done|]. cbn. rewrite IH. lia. Qed.

Lemma all_guards_insert l i m m' : l !! i = Some m → all_guards (<[i := m']> l) = all_guards l - guards m + guards m'.
Proof.
  intros H. rewrite insert_take_drop by (by eapply lookup_lt_Some). rewrite <- (take_drop_middle l i m H) at 3.
  rewrite !all_guards_app. cbn. lia.
Qed.

Lemma guards_nonneg m : 0 <= guards m.
Proof. by destruct m as [|[]| |]. Qed.

Lemma all_guards_nonneg l : 0 <= all_guards l.
Proof. unfold all_guards. induction l as [|m l IH]; cbn; [done|]. pose proof (guards_nonneg m). lia. Qed.

Lemma all_guards_over l : all_guards l = 0 ↔ Forall (λ m, m = MutationOver) l.
Proof.
  induction l as [|m l IH]; [done|]. rewrite Forall_cons, <- IH. change (all_guards (m :: l)) with (guards m + all_guards l).
  pose proof (all_guards_nonneg l). destruct m as [|[]| |]; cbn [guards]; (split; [intros; try lia; split; done || lia|intros [? ?]; try done; lia]).
Qed.

Record stop_ok (w : StopWorld) : Prop := {
  so_count : running (sw_tails w) = all_guards (sw_mutations w);
  so_closed : sw_stage w ≠ Serving → closed (sw_tails w) = true;
  so_over : sw_stage w = Drained ∨ sw_stage w = FeedSealed → Forall (λ m, m = MutationOver) (sw_mutations w);
  so_feed : match sw_stage w with
            | FeedSealed => ∃ rest, sw_feed w = SealItem :: rest ∧ SealItem ∉ rest
            | _ => SealItem ∉ sw_feed w
            end;
}.

Lemma stop_start_ok sync : stop_ok (stop_start sync).
Proof. split; cbn; [done|done|by intros [|]|apply not_elem_of_nil]. Qed.

(** A mutation that takes a step is not over, so its tails are not drained. *)
Lemma set_mutation_ok w i m m' t :
  stop_ok w → sw_mutations w !! i = Some m → m ≠ MutationOver →
  running t = running (sw_tails w) - guards m + guards m' → closed t = closed (sw_tails w) →
  stop_ok (set_mutation w i m' t (sw_feed w)).
Proof.
  intros [Hc Hcl Ho Hf] Hm Hne Ht Hct. split; cbn.
  - rewrite Ht, Hc. by rewrite (all_guards_insert _ _ m).
  - intros Hs. rewrite Hct. by apply Hcl.
  - intros Hs. specialize (Ho Hs). rewrite Forall_lookup in Ho. by destruct (Hne (Ho i m Hm)).
  - done.
Qed.

Lemma stop_step_ok w ev w' : stop_ok w → stop_step w ev = Some w' → stop_ok w'.
Proof.
  intros Hw. pose proof Hw as [Hc Hcl Ho Hf]. destruct ev as [|i|i|i died|i|i| | | |]; cbn [stop_step].
  - unfold track. destruct (closed (sw_tails w)) eqn:E; intros [= <-]; [done|].
    assert (sw_stage w = Serving) as Hs by (destruct (decide (sw_stage w = Serving)); [done|]; pose proof (Hcl ltac:(done)); congruence).
    split; cbn; rewrite ?Hs; [rewrite all_guards_app, Hc; cbn; lia|done|by intros [|]|by rewrite Hs in Hf].
  - destruct (sw_mutations w !! i) as [[]|] eqn:E; try done. intros [= <-]. eapply set_mutation_ok; try done. cbn. lia.
  - assert (∀ m, sw_mutations w !! i = Some m → m ≠ MutationOver →
      stop_ok (set_stage w (sw_tails w) (sw_stage w) (Published i :: sw_feed w))) as Hpub.
    { intros m Hm Hne. split; cbn; [done|done|done|]. assert (¬ (sw_stage w = Drained ∨ sw_stage w = FeedSealed)) as Hns.
      { intros Hs. specialize (Ho Hs). rewrite Forall_lookup in Ho. by destruct (Hne (Ho i m Hm)). }
      destruct (sw_stage w); [..|naive_solver|]; rewrite not_elem_of_cons; (split; [done|exact Hf]). }
    destruct (sw_mutations w !! i) as [[| |[]|]|] eqn:E; try done; intros [= <-]; by eapply Hpub.
  - destruct (sw_mutations w !! i) as [[|[]| |]|] eqn:E; try done; intros [= <-]; eapply set_mutation_ok; try done; cbn; lia.
  - destruct (sw_mutations w !! i) as [[|[]| |]|] eqn:E; try done; intros [= <-]; eapply set_mutation_ok; try done; cbn; lia.
  - destruct (sw_mutations w !! i) as [[|[]| |]|] eqn:E; try done; intros [= <-]; eapply set_mutation_ok; try done; cbn; lia.
  - destruct (sw_stage w) eqn:E; try done. intros [= <-]. split; cbn; [done|done|by destruct (sw_sync w); intros [|]|by destruct (sw_sync w)].
  - destruct (sw_stage w) eqn:E; try done. unfold no_tail. destruct (Z.eqb_spec (running (sw_tails w)) 0); [|done]. intros [= <-].
    split; cbn; [done|by intros _; apply Hcl| |done]. intros _. apply all_guards_over. by rewrite <- Hc.
  - destruct (sw_stage w) eqn:E; try done. intros [= <-]. split; cbn; [done|by intros _; apply Hcl|by intros [|]|done].
  - destruct (sw_stage w) eqn:E; try done. intros [= <-]. split; cbn; [done|by intros _; apply Hcl|by intros _; apply Ho; left|]. eauto.
Qed.

Lemma stop_run_ok evs : ∀ w w', stop_ok w → stop_run w evs = Some w' → stop_ok w'.
Proof.
  induction evs as [|ev evs IH]; intros w w' Hw; cbn [stop_run]; [by intros [= <-]|].
  intros (w1 & H1 & H2)%bind_Some. eapply IH; [|exact H2]. by eapply stop_step_ok.
Qed.

(** A sealed life takes no step that its feed shows. *)
Lemma sealed_stays w ev w' :
  stop_ok w → sw_stage w = FeedSealed → stop_step w ev = Some w' → sw_stage w' = FeedSealed ∧ sw_feed w' = sw_feed w.
Proof.
  intros [_ Hcl Ho _] Hs. specialize (Ho (or_intror Hs)). rewrite Forall_lookup in Ho.
  assert (closed (sw_tails w) = true) as Hc by (apply Hcl; by rewrite Hs).
  assert (∀ i m, sw_mutations w !! i = Some m → m = MutationOver) as Hm by done.
  destruct ev as [|i|i|i died|i|i| | | |]; cbn [stop_step]; unfold track; rewrite ?Hc, ?Hs; try done;
    [by intros [= <-]|..]; destruct (sw_mutations w !! i) as [m|] eqn:E; try done; by rewrite (Hm i m E).
Qed.

Lemma sealed_stays_run evs : ∀ w w',
  stop_ok w → sw_stage w = FeedSealed → stop_run w evs = Some w' → sw_stage w' = FeedSealed ∧ sw_feed w' = sw_feed w.
Proof.
  induction evs as [|ev evs IH]; intros w w' Hw Hs; cbn [stop_run]; [by intros [= <-]|].
  intros (w1 & H1 & H2)%bind_Some. destruct (sealed_stays w ev w1 Hw Hs H1) as [Hs1 Hf1].
  destruct (IH w1 w') as [? ->]; try done. by eapply stop_step_ok.
Qed.

(** [C14] The seal is a life's last word.  In every interleaving of requests, tasks that end
    or die, clients that hang up, and a planned stop, the tail count is exactly the guards
    held, so it never falls below zero; once the feed is sealed every admitted mutation is
    over, the seal stands once and last on the feed, and no later step adds anything; and a
    request after the stop began changes nothing. *)
Theorem seal_is_final sync evs w :
  stop_run (stop_start sync) evs = Some w →
  running (sw_tails w) = all_guards (sw_mutations w) ∧
  (seal_writes w Unconfirmed ≠ None →
     Forall (λ m, m = MutationOver) (sw_mutations w) ∧ (∃ rest, sw_feed w = SealItem :: rest ∧ SealItem ∉ rest) ∧
     ∀ more w', stop_run w more = Some w' → sw_feed w' = sw_feed w) ∧
  (sw_stage w ≠ Serving → stop_step w Request = Some w).
Proof.
  intros Hr%stop_run_ok; [|apply stop_start_ok]. pose proof Hr as [Hc Hcl Ho Hf]. split; [done|]. split.
  - unfold seal_writes. destruct (sw_stage w) eqn:Hs; try done. intros _. split_and!; [by apply Ho; right|done|].
    intros more w' Hm. by eapply sealed_stays_run.
  - intros Hs. cbn [stop_step]. unfold track. by rewrite Hcl.
Qed.

(** How far a mutation is from its end. *)
Definition steps_left (m : MutationTail) : nat :=
  match m with TailAdmitted => 3 | TaskRuns true => 2 | TaskRuns false | TaskEnded _ => 1 | MutationOver => 0 end.

Definition all_left (l : list MutationTail) : nat := foldr (λ m acc, (steps_left m + acc)%nat) 0%nat l.

Lemma all_left_insert l i m m' :
  l !! i = Some m → (steps_left m' < steps_left m)%nat → (all_left (<[i := m']> l) < all_left l)%nat.
Proof.
  revert i. unfold all_left. induction l as [|x l IH]; intros [|i] H Hlt; [done|done| |].
  - injection H as ->. cbn. lia.
  - pose proof (IH i H Hlt) as Hi. change (<[S i := m']> (x :: l)) with (x :: <[i := m']> l). cbn [foldr] in *. lia.
Qed.

(** Each of them can take its next step. *)
Lemma next_step w i m :
  sw_mutations w !! i = Some m → m ≠ MutationOver →
  ∃ ev w', stop_step w ev = Some w' ∧ sw_stage w' = sw_stage w ∧ (all_left (sw_mutations w') < all_left (sw_mutations w))%nat.
Proof.
  intros Hm Hne. destruct m as [|[]|died|]; [| | | |done].
  - exists (Spawn i). eexists. cbn [stop_step]. rewrite Hm. split; [done|]. split; [done|]. cbn. eapply all_left_insert; [done|]. cbn. lia.
  - exists (TaskEnds i false). eexists. cbn [stop_step]. rewrite Hm. split; [done|]. split; [done|]. cbn. eapply all_left_insert; [done|]. cbn. lia.
  - exists (TaskEnds i false). eexists. cbn [stop_step]. rewrite Hm. split; [done|]. split; [done|]. cbn. eapply all_left_insert; [done|]. cbn. lia.
  - exists (Answer i). eexists. cbn [stop_step]. rewrite Hm. split; [done|]. split; [done|]. cbn. eapply all_left_insert; [done|]. cbn. lia.
Qed.

Lemma stop_seals_from n : ∀ w, (all_left (sw_mutations w) <= n)%nat → stop_ok w → sw_stage w = Closed →
  ∃ evs w', stop_run w evs = Some w' ∧ sw_stage w' = FeedSealed.
Proof.
  induction n as [n IH] using lt_wf_ind; intros w Hn Hw Hs.
  destruct (decide (Forall (λ m, steps_left m = 0%nat) (sw_mutations w))) as [Hall|Hnot].
  - exists [TailsDrained; SealFeed]. cbn [stop_run stop_step]. rewrite Hs. unfold no_tail. destruct Hw as [Hc _ _ _].
    assert (running (sw_tails w) = 0) as ->.
    { rewrite Hc. apply all_guards_over. eapply Forall_impl; [exact Hall|]. by intros [|[]|[]|]. }
    eexists. split; [reflexivity|done].
  - apply not_Forall_Exists in Hnot; [|apply _]. apply Exists_exists in Hnot as (m & [i Hi]%list_elem_of_lookup_1 & Hm).
    destruct (next_step w i m Hi) as (ev & w1 & H1 & Hs1 & Hlt); [by intros ->; apply Hm|].
    destruct (IH (all_left (sw_mutations w1)) ltac:(lia) w1) as (evs & w' & Hr & Hs'); [done|by eapply stop_step_ok|by rewrite Hs1|].
    exists (ev :: evs), w'. cbn [stop_run]. by rewrite H1.
Qed.

(** [C31] A stop is never wedged.  From every state a closed node with coherence can be in,
    with whatever mutations still running, some finite run of the admitted mutations to
    their end drains the tails and seals the feed. *)
Theorem stop_can_seal sync evs w :
  stop_run (stop_start sync) evs = Some w → sw_stage w = Closed →
  ∃ more w', stop_run w more = Some w' ∧ seal_writes w' Observed = Some Observed.
Proof.
  intros Hr%stop_run_ok Hs; [|apply stop_start_ok].
  destruct (stop_seals_from (all_left (sw_mutations w)) w) as (more & w' & Hm & Hs'); [done..|].
  exists more, w'. split; [done|]. unfold seal_writes. by rewrite Hs'.
Qed.

(** A stop that meets one dying and one waiting mutation. *)
Definition demo_stop : list StopEvent :=
  [Request; Spawn 0; Request; Publish 0; StopBegins; Spawn 1; HangUp 1; TaskEnds 0 true; Publish 0; Publish 1; TaskEnds 1 false;
   Answer 0; Request; TailsDrained; SealFeed].
Definition demo_stopped : StopWorld := default (stop_start true) (stop_run (stop_start true) demo_stop).

Lemma seal_is_final_witness :
  sw_feed demo_stopped = [SealItem; Published 1; Published 0; Published 0] ∧
  ∀ more w', stop_run demo_stopped more = Some w' → sw_feed w' = sw_feed demo_stopped.
Proof.
  split; [vm_compute; reflexivity|].
  destruct (seal_is_final true demo_stop demo_stopped) as (_ & Hs & _); [vm_compute; reflexivity|].
  apply Hs. vm_compute. discriminate.
Defined.

Definition demo_closed : StopWorld := default (stop_start true) (stop_run (stop_start true) (take 8 demo_stop)).

Lemma stop_can_seal_witness : ∃ more w', stop_run demo_closed more = Some w' ∧ seal_writes w' Observed = Some Observed.
Proof. apply (stop_can_seal true (take 8 demo_stop) demo_closed); vm_compute; reflexivity. Defined.

(** ** Readiness *)

(** What the group holds of a node: its last accepted declaration. *)
Definition declared (a : Advertisement) : list string := default [] (head (ad_accepted a)).

Section ready.
Context `{Capabilities}.

(** Every accepted offer carries the state it was made in, and a node stays indexed. *)
Lemma ad_step_spec a ev a' :
  ad_step a ev = Some a' →
  (ad_indexed a = true → ad_indexed a' = true) ∧ ad_consistency a' = ad_consistency a ∧
  (ad_accepted a' = ad_accepted a ∨ ad_accepted a' = declaration a' :: ad_accepted a).
Proof.
  destruct ev as [accepts|i accepts]; cbn [ad_step].
  - intros [= <-]. unfold mark_indexed, publish, offer. destruct accepts; cbn; auto.
  - unfold retry, offer. destruct (ad_retries a !! i) as [[|left_over]|]; [done| |done]. destruct accepts; intros [= <-]; cbn; auto.
Qed.

Lemma declared_step a ev a' :
  ad_indexed a = true → CAP_INDEXED ∈ declared a → ad_step a ev = Some a' → ad_indexed a' = true ∧ CAP_INDEXED ∈ declared a'.
Proof.
  intros Hi Hd (Hi' & _ & Ha)%ad_step_spec. specialize (Hi' Hi). split; [done|]. unfold declared in *.
  destruct Ha as [-> | ->]; [done|]. cbn. unfold declaration. rewrite Hi'. set_solver.
Qed.

Lemma declared_run evs : ∀ a a',
  ad_indexed a = true → CAP_INDEXED ∈ declared a → ad_run a evs = Some a' → CAP_INDEXED ∈ declared a'.
Proof.
  induction evs as [|ev evs IH]; intros a a' Hi Hd; cbn [ad_run]; [by intros [= <-]|].
  intros (a1 & H1 & H2)%bind_Some. destruct (declared_step a ev a1 Hi Hd H1). by eapply IH.
Qed.

(** The probe of a node without an index. *)
Lemma probe_spec me unmet g :
  probe_ready false (Some (me, unmet, g)) = true ↔
  unmet = [] ∧ ∀ p st, (p, st) ∈ gv_statuses g → p = me ∨ st = Dead ∨ gv_caps g p ≠ [] ∧ CAP_INDEXED ∉ gv_caps g p.
Proof.
  cbn [probe_ready is_none_or orb]. unfold peer_may_hold_index. rewrite negb_true_iff, orb_false_iff, negb_false_iff, bool_decide_eq_true.
  f_equiv. split.
  - intros Hn p st Hp. destruct (decide (p = me)) as [|Hme]; [auto|]. destruct (decide (st = Dead)) as [|Hst]; [auto|].
    right; right. rewrite <- not_true_iff_false, existsb_exists in Hn. split; intros Hc; apply Hn; exists (p, st); cbn;
      (split; [by apply list_elem_of_In|]); rewrite (bool_decide_eq_false_2 (p = me)), (bool_decide_eq_false_2 (st = Dead)) by done;
      apply orb_true_iff; rewrite !bool_decide_eq_true; auto.
  - intros Hall. apply not_true_iff_false. rewrite existsb_exists. intros ([p st] & Hp%list_elem_of_In & Hc). cbn in Hc.
    bool_prop. destruct (Hall p st Hp) as [|[|[Hne Hni]]]; [done|done|]. apply orb_true_iff in H1 as [E|E]; by apply bool_decide_eq_true in E.
Qed.

(** A seed stays expected until the roster has shown it or the resolver has given it up. *)
Lemma seed_kept seed steps : ∀ unmet,
  seed ∈ unmet → GiveUp seed ∉ steps →
  seed ∈ foldl seed_step unmet steps ∨ ∃ g, SettleSeeds g ∈ steps ∧ member_status g seed ≠ None.
Proof.
  induction steps as [|st steps IH]; intros unmet Hu Hg; [by left|]. cbn.
  assert (seed ∈ seed_step unmet st ∨ ∃ g, st = SettleSeeds g ∧ member_status g seed ≠ None) as [Hin|(g & -> & Hm)].
  - destruct st as [g|s]; cbn.
    + destruct (decide (member_status g seed = None)); [left; by apply list_elem_of_filter|right; eauto].
    + left. apply list_elem_of_filter. split; [|done]. intros ->. set_solver.
  - destruct (IH _ Hin) as [|(g & ? & ?)]; [set_solver|by left|]. right. exists g. set_solver.
  - right. exists g. set_solver.
Qed.

(** [C26] A replacement waits for the index.  A peer that is a configured seed, that the
    resolver has not given up, and that some offer declared indexed: whatever offers and
    retries followed, a node without an index is not ready while it has not met that peer,
    nor while its roster shows it alive or suspected, with its declaration still to arrive
    or as last accepted.  Conversely, the node is ready exactly when every seed is settled
    and every peer that is not dead has declared that it holds none. *)
Theorem replacement_waits a0 ev a1 evs a me seeds holder steps g :
  ad_indexed a1 = true → ad_step a0 ev = Some a1 → (length (ad_accepted a0) < length (ad_accepted a1))%nat → ad_run a1 evs = Some a →
  holder ∈ seeds → holder ≠ me → GiveUp holder ∉ steps →
  ((∃ g', SettleSeeds g' ∈ steps ∧ member_status g' holder ≠ None) →
     ∃ st, (holder, st) ∈ gv_statuses g ∧ st ≠ Dead ∧ (gv_caps g holder = [] ∨ gv_caps g holder = declared a)) →
  probe_ready false (Some (me, foldl seed_step (expect_seeds [] seeds) steps, g)) = false ∧
  ∀ unmet g', probe_ready false (Some (me, unmet, g')) = true ↔
    unmet = [] ∧ ∀ p st, (p, st) ∈ gv_statuses g' → p = me ∨ st = Dead ∨ gv_caps g' p ≠ [] ∧ CAP_INDEXED ∉ gv_caps g' p.
Proof.
  intros Hi Hst Hlen Hrun Hseed Hme Hgu Hmet. split; [|apply probe_spec].
  assert (CAP_INDEXED ∈ declared a) as Hd.
  { eapply declared_run; [exact Hi| |exact Hrun]. apply ad_step_spec in Hst as (_ & _ & [Ha|Ha]); [rewrite Ha in Hlen; lia|].
    unfold declared. rewrite Ha. cbn. unfold declaration. rewrite Hi. set_solver. }
  apply not_true_iff_false. intros [Hu Hall]%probe_spec.
  assert (∃ g', SettleSeeds g' ∈ steps ∧ member_status g' holder ≠ None) as Hex.
  { destruct (seed_kept holder steps (expect_seeds [] seeds)) as [Hin|]; [done|done| |done].
    rewrite Hu in Hin. by apply not_elem_of_nil in Hin. }
  destruct (Hmet Hex) as (st & Hin & Hdead & Hc). destruct (Hall holder st Hin) as [|[|[Hne Hni]]]; [done|done|].
  destruct Hc as [Hc|Hc]; [done|]. by rewrite Hc in Hni.
Qed.
End ready.

(** A declaration refused at first, then retried after the index was complete. *)
#[local] Instance demo_capabilities : Capabilities := { CAP_ACKS := "acks"; CAP_LEASE := "lease" }.

Definition demo_marked : Advertisement := mark_indexed (declare CStrong false) false.
Definition demo_retried : Advertisement := default demo_marked (retry demo_marked 0 true).
Definition demo_view : GroupView := mkView [("me", Alive); ("peer", Suspect)] (λ _, declared demo_retried).

Lemma replacement_waits_witness :
  declared demo_retried = ["acks"; "lease"; "s3cache:indexed"] ∧
  probe_ready false (Some ("me", foldl seed_step (expect_seeds [] ["peer"]) [SettleSeeds demo_view], demo_view)) = false.
Proof.
  split; [vm_compute; reflexivity|].
  apply (replacement_waits demo_marked (Retry 0 true) demo_retried [] demo_retried "me" ["peer"] "peer" [SettleSeeds demo_view] demo_view);
    [vm_compute; reflexivity|vm_compute; reflexivity|vm_compute; lia|reflexivity|set_solver|discriminate|set_solver|].
  intros _. exists Suspect. split; [set_solver|]. split; [discriminate|]. right. reflexivity.
Defined.
