(* ===== verification/Recovery.v ===== *)
(** * Recovery

    [src/src/sync/volatile.rs], with the capture of [src/src/sync/volatile/fleet.rs] and the
    limits of [src/src/sync/volatile/fleet/runtime.rs]: what this node does for [groupnet]'s
    recovery worker.  It rebuilds the index from the origin under a publication permit, reports
    what gossip shows of its peers, and recaptures its index for them.  The worker itself, the
    permit and the guard are [groupnet]'s; their answers are arguments, and the scan of a
    bucket (see [Scan]) is a parameter of the rebuild. *)

From S2P Require Import Prelude.
From S2P Require Import ObjTypes.
From S2P Require Import ImageCodec.
From S2P Require Import IndexCapture.
From S2P Require Import KeyIndex.
From S2P Require Import Image.
From S2P Require Import Stage.
From S2P Require Import Donor.
From S2P Require Import FollowerPort.
From S2P Require Import Coherence.
From S2P Require Import Scan.
From S2P Require Import Lifecycle.
From S2P Require Import FleetConfig.

(** ** Limits *)

Definition MAX_RECOVERY_BUCKETS : Z := 4096.

Record RecoveryConfig := mkRecoveryConfig {
  rc_max_members : Z;
  rc_max_member_bytes : Z;
  rc_max_barrier_rounds : Z;
  rc_total_ms : Z;
  rc_attempt_ms : Z;
  rc_settle_ms : Z;
  rc_poll_ms : Z;
}.

Inductive RecoveryMode := Leased | Unleased.

(** [prepare_recovery]: the limits, [None] for the panic of an inventory that is too long.
    [lease_ms] is the lease set's duration, [anti_entropy_ms] the group's interval. *)
Definition settle_floor_ms (anti_entropy_ms : Z) : Z := saturating_mul u64_max anti_entropy_ms 2.

Definition prepare_recovery (configured : list string) (c : Consistency) (lease_ms : Z) (anti_entropy_ms : Z)
    (config : option RecoveryConfig) : option (RecoveryConfig * RecoveryMode) :=
  if MAX_RECOVERY_BUCKETS <? Z.of_nat (length configured) then None
  else
    let settle_ms := Z.max (default 2000 (try_from u64_max lease_ms)) (settle_floor_ms anti_entropy_ms) in
    Some (default (mkRecoveryConfig 256 256 4 (Z.max 600000 (saturating_mul u64_max settle_ms 2)) 60000 settle_ms 100) config,
          if bool_decide (c = CStrong) then Leased else Unleased).

Record BootstrapConfig := mkBootstrap {
  bc_max_members : Z;
  bc_max_member_bytes : Z;
  bc_max_scope_bytes : Z;
  bc_settle_ms : Z;
  bc_renew_ms : Z;
  bc_claim_ttl_ms : Z;
  bc_observe_ms : Z;
  bc_donor_wait_ms : Z;
  bc_total_ms : Z;
}.

Definition claim_config (config : RecoveryConfig) : option BootstrapConfig :=
  let total_ms := Z.min (rc_total_ms config) 60000 in
  if 5000 <=? total_ms
  then Some (mkBootstrap (jc_max_members JOURNAL_CONFIG) 256 (jc_max_scope_bytes JOURNAL_CONFIG)
               (Z.min (Z.max (rc_settle_ms config) 3000) (total_ms / 2)) 500 3000 1000 (total_ms / 2) total_ms)
  else None.

Record TransferConfig := mkTransfer {
  tc_expected_schema : Z;
  tc_max_metadata_bytes : Z;
  tc_max_encoded_bytes : Z;
  tc_max_decoded_bytes : Z;
  tc_max_chunk_bytes : Z;
  tc_max_chunks : Z;
  tc_max_batch_bytes : Z;
  tc_max_batch_events : Z;
  tc_max_replay_events : Z;
  tc_max_native_buffer_bytes : Z;
  tc_max_members : Z;
  tc_max_cuts : Z;
  tc_coverage_poll_ms : Z;
}.

Definition transfer_config : TransferConfig :=
  mkTransfer IMAGE_SCHEMA (64 * 2 ^ 10) (cap_bytes IMAGE_CAPS) (cap_decoded_bytes IMAGE_CAPS) (64 * 2 ^ 10)
    (cap_bytes IMAGE_CAPS / (64 * 2 ^ 10)) (jc_max_batch_bytes JOURNAL_CONFIG) (jc_max_batch_events JOURNAL_CONFIG)
    (jc_max_events JOURNAL_CONFIG) (2 ^ 20) (jc_max_members JOURNAL_CONFIG) (jc_max_cuts JOURNAL_CONFIG) 100.

Record WireLimits := mkWireLimits { wl_max_frame_bytes : Z; wl_max_scope_bytes : Z; wl_max_node_bytes : Z; wl_max_payload_bytes : Z }.

Record PhaseLimits := mkPhaseLimits {
  pl_max_body_bytes : Z;
  pl_max_scope_bytes : Z;
  pl_max_node_bytes : Z;
  pl_max_writer_bytes : Z;
  pl_max_cuts : Z;
  pl_max_members : Z;
  pl_max_events : Z;
  pl_max_identity_bytes : Z;
  pl_max_effect_bytes : Z;
}.

Record BulkLimits := mkBulkLimits { bl_wire : WireLimits; bl_phase : PhaseLimits; bl_server_request_ms : Z }.

Definition bulk_limits : BulkLimits :=
  mkBulkLimits (mkWireLimits (256 * 2 ^ 10) (jc_max_scope_bytes JOURNAL_CONFIG) 256 (192 * 2 ^ 10))
    (mkPhaseLimits (128 * 2 ^ 10) (jc_max_scope_bytes JOURNAL_CONFIG) 256 (jc_max_cut_bytes JOURNAL_CONFIG)
       (jc_max_cuts JOURNAL_CONFIG) (jc_max_members JOURNAL_CONFIG) (jc_max_batch_events JOURNAL_CONFIG)
       (jc_max_identity_bytes JOURNAL_CONFIG) (jc_max_event_bytes JOURNAL_CONFIG))
    3000.

Record AdmissionLimits := mkAdmission {
  al_max_total_bytes : Z;
  al_max_encoded_bytes : Z;
  al_max_decoded_bytes : Z;
  al_max_suffix_bytes : Z;
  al_max_native_overlap_bytes : Z;
  al_max_inflight_bytes : Z;
  al_max_reservations : Z;
}.

Definition admission_limits : AdmissionLimits :=
  mkAdmission (256 * 2 ^ 20 + 2 ^ 30 + 80 * 2 ^ 20) (cap_bytes IMAGE_CAPS) (cap_decoded_bytes IMAGE_CAPS) (32 * 2 ^ 20) (16 * 2 ^ 20)
    (32 * 2 ^ 20) 512.

(** ** The rebuild *)

(** The publications of the new generations; [permitted] is the permit's answer to the [n]-th. *)
Fixpoint begin_rebuilds (s : KeyIndexState) (names : list string) (permitted : nat → bool) (n : nat)
    : result unit (list (string * Z)) * KeyIndexState :=
  match names with
  | [] => (Ok [], s)
  | bucket :: names =>
      if negb (permitted n) then (Err tt, s)
      else
        let '(generation, s) := begin_bucket_resync s bucket in
        let '(rest, s) := begin_rebuilds s names permitted (S n) in
        ((λ gs, (bucket, generation) :: gs) <$> rest, s)
  end.

(** The buckets a rebuild covers, in order. *)
Definition rebuild_inventory (s : KeyIndexState) (configured : list string) : result unit (list string) :=
  let indexed := Z.of_nat (base.size (buckets s)) in
  _ ← refuse_if ((MAX_RECOVERY_BUCKETS <? indexed)
                 || (MAX_RECOVERY_BUCKETS <? saturating_add usize_max indexed (Z.of_nat (length configured)))) tt;
  Ok (name_set (configured ++ (map_to_list (buckets s)).*1)).

Section rebuild.
Context (scan : KeyIndexState → string → Z → result unit unit * KeyIndexState).

Fixpoint scan_all (s : KeyIndexState) (generations : list (string * Z)) : result unit unit * KeyIndexState :=
  match generations with
  | [] => (Ok tt, s)
  | (bucket, generation) :: generations =>
      match scan s bucket generation with
      | (Err e, s) => (Err e, s)
      | (Ok _, s) => scan_all s generations
      end
  end.

Definition rebuild_origin (s : KeyIndexState) (configured : list string) (permitted : nat → bool) : result unit unit * KeyIndexState :=
  match rebuild_inventory s configured with
  | Err e => (Err e, s)
  | Ok names =>
      match begin_rebuilds s names permitted 0 with
      | (Err e, s) => (Err e, s)
      | (Ok generations, s) => scan_all s generations
      end
  end.
End rebuild.

(** ** Peers *)

Record PeerFacts := mkPeer {
  pe_node : string;
  pe_alive : bool;
  pe_grants_lease : bool;
  pe_old_nonlive : bool;
  pe_renewal : option Renewal;
  pe_sealed : option Mark;
  pe_grant : option Mark;
  pe_head : option Mark;
}.

Definition mark_of (t : WriteToken) : Mark := mkMark (tk_epoch t) (tk_seq t).

Section observe.
Context `{Capabilities}.

(** [head] is a peer's advertised head, an error when its feed entry does not parse; [held]
    is how long its status has stood. *)
Fixpoint observe_roster (me : string) (caps : string → list string) (head : string → result unit (option WriteToken))
    (grants : string → option WriteToken) (cs : Crossings) (lease : Z) (roster : list (string * Status * Z))
    : result unit (list PeerFacts) :=
  match roster with
  | [] => Ok []
  | (node, status, held) :: roster =>
      if bool_decide (node = me) then observe_roster me caps head grants cs lease roster
      else
        h ← head node;
        let grant := mark_of <$> grants node in
        let crossing := crossing_of cs node in
        peers ← observe_roster me caps head grants cs lease roster;
        Ok (mkPeer node (bool_decide (status = Alive)) (has_capability caps node CAP_LEASE || is_some grant)
              (negb (bool_decide (status = Alive)) && (Z.max (lease / 4) (from_millis 25) <=? held))
              (cr_renewal crossing) (cr_sealed crossing) grant (mark_of <$> h) :: peers)
  end.

(** [roster] is [statuses_held_bounded] of the bound, [confirmed] the lease position. *)
Definition observe_group (me : string) (roster : Z → option (list (string * Status * Z))) (caps : string → list string)
    (head : string → result unit (option WriteToken)) (grants : string → option WriteToken) (cs : Crossings) (lease : Z)
    (confirmed : option WriteToken) (limits : RecoveryConfig) : result unit (list PeerFacts * option Mark) :=
  bound ← ok_or (checked_add usize_max (rc_max_members limits) 1) tt;
  members ← ok_or (roster bound) tt;
  peers ← observe_roster me caps head grants cs lease members;
  Ok (peers, mark_of <$> confirmed).
End observe.

(** [wait_frontiers]; [reached] is whether the wait for a peer's position ended there. *)
Fixpoint wait_frontiers (reached : string → WriteToken → bool) (heads : list (string * Mark)) : result unit unit :=
  match heads with
  | [] => Ok tt
  | (node, h) :: heads =>
      _ ← refuse_if (negb (reached node (mkToken (mk_epoch h) (mk_sequence h)))) tt;
      wait_frontiers reached heads
  end.

(** ** The recapture *)

Section recapture.
Context {L : Layout} {H : ImageHash} `{SameMembership}.

(** What a donor reads at a guard: the recovery generation the guard holds, if it still
    does, the coherence gate and the listener. *)
Record GuardView := mkGuard { gd_generation : option Z; gd_allows_local : bool; gd_listener : bool }.

Definition guard_open (g : GuardView) (generation : Z) : bool :=
  is_some_and (λ current, current =? generation) (gd_generation g) && gd_allows_local g && gd_listener g.

(** [ready_capture] up to C: the roster, the identity, the suffix and the capture under the
    guard. [suffix] is [capture::prepare]'s reservation and journal. *)
Definition ready_begin (live : KeyIndexState) (next : Z) (scope_ : BootstrapScope) (donor : string) (generation : Z)
    (listener : bool) (observed : option (Participation * Z)) (members : list Member) (suffix : bool) (g : GuardView)
    (ans : BeginAnswers) (universe : list string)
    : result unit (PendingFleetCapture * option IndexCapture) * KeyIndexState * Z :=
  if negb listener || negb (source_matches observed members) then (Err tt, live, next)
  else
    match next_id next (bs_domain scope_) (bs_partition scope_) donor generation with
    | (Err _, next) => (Err tt, live, next)
    | (Ok id, next) =>
        if negb suffix then (Err tt, live, next)
        else if negb (guard_open g generation) then (Err tt, live, next)
        else
          let '(r, live) := begin_fleet_capture live ans (ci_generation id) JOURNAL_CONFIG universe IMAGE_CAPS in
          (map_err (λ _, tt) r, live, next)
    end.

(** The rest of it: the encoding on the blocking pool, the roster again, and the finish under
    the guard. Every failure drops the pending capture, which retires its ingress. *)
Definition ready_finish (live : KeyIndexState) (p : PendingFleetCapture) (generation : Z) (joined listener : bool)
    (image_members : list Member) (observed : option (Participation * Z)) (g : GuardView) (universe : list string)
    (finishes : Z → Z → Z → bool) (accepted : bool) : result unit FleetDonorImage * KeyIndexState :=
  let dropped := (Err tt, (retire_fleet_capture live (pf_ingress p)).2) in
  match encode_pending p universe IMAGE_CAPS with
  | (Err _, _) => dropped
  | (Ok _, p) =>
      if negb joined then dropped
      else if negb (is_some_and (λ '(snapshot, now), listener && fresh_roster snapshot (pn_roster snapshot) now
                                   && same_membership image_members (pn_roster snapshot)) observed) then dropped
      else if negb (guard_open g generation) then dropped
      else
        let '(r, live) := finish_pending live p finishes accepted in
        (map_err (λ _, tt) r, live)
  end.
End recapture.
