(* ===== verification/RecoveryProps.v ===== *)
(** * What recovery promises

    A rebuild hides every bucket it covers before it scans any of them; a recapture either
    serves the index at C or leaves no ingress behind; what a donor offers is within what a
    follower accepts; and a peer whose feed does not parse is never taken for a quiet one. *)

From S2P Require Import Prelude.
From S2P Require Import ObjTypes.
From S2P Require Import ImageCodec.
From S2P Require Import Rows.
From S2P Require Import IndexCapture.
From S2P Require Import KeyIndex.
From S2P Require Import IndexWf.
From S2P Require Import IndexSteps.
From S2P Require Import IndexInv.
From S2P Require Import IndexRebuild.
From S2P Require Import CodecProps.
From S2P Require Import Image.
From S2P Require Import ImageProps.
From S2P Require Import ImageSizing.
From S2P Require Import ImageRound.
From S2P Require Import Stage.
From S2P Require Import StageProps.
From S2P Require Import Donor.
From S2P Require Import DonorProps.
From S2P Require Import FollowerPort.
From S2P Require Import Coherence.
From S2P Require Import ListIndex.
From S2P Require Import Scan.
From S2P Require Import Lifecycle.
From S2P Require Import FleetConfig.
From S2P Require Import FleetProps.
From S2P Require Import Recovery.

(** ** The rebuild *)

(** A bucket that a rebuild of generation [g] owns and no one is served from. *)
Definition hidden (s : KeyIndexState) (bucket : string) (g : Z) : Prop :=
  ∃ b, buckets s !! bucket = Some b ∧ synced b = false ∧ rebuild_generation b = Some g ∧ kr_map (keys b) = ∅ ∧ rebuild_touched b = ∅.

Lemma resync_buckets s bucket :
  ∃ b, buckets (begin_bucket_resync s bucket).2 = <[bucket := b]> (buckets s) ∧ synced b = false ∧
    rebuild_generation b = Some (begin_bucket_resync s bucket).1 ∧ kr_map (keys b) = ∅ ∧ rebuild_touched b = ∅ ∧
    uncertain_keys b = uncertain_keys (bucket_or_default s bucket).
Proof. unfold begin_bucket_resync, invalidate_capture_for_rebuild. cbn. eexists. split_and!; try reflexivity. Qed.

Lemma begin_rebuilds_Ok permitted names : ∀ s n gens s',
  NoDup names → begin_rebuilds s names permitted n = (Ok gens, s') →
  gens.*1 = names ∧ (∀ bucket g, (bucket, g) ∈ gens → hidden s' bucket g) ∧
  (∀ bucket, bucket ∉ names → buckets s' !! bucket = buckets s !! bucket) ∧
  ∀ bucket, uncertain_keys (bucket_or_default s' bucket) = uncertain_keys (bucket_or_default s bucket).
Proof.
  induction names as [|bucket names IH]; intros s n gens s' Hnd; cbn [begin_rebuilds].
  { intros [= <- <-]. split_and!; try done. by intros ?? ?%not_elem_of_nil. }
  destruct (negb (permitted n)); [done|]. apply NoDup_cons in Hnd as [Hnew Hnd].
  destruct (resync_buckets s bucket) as (b & Hb & Hsy & Hg & Hk & Ht & Hu). destruct (begin_bucket_resync s bucket) as [g s1]. cbn [fst snd] in *.
  destruct (begin_rebuilds s1 names permitted (S n)) as [[rest|] s2] eqn:E; [|done]. intros [= <- <-].
  destruct (IH s1 (S n) rest s2 Hnd E) as (Hn & Hh & Ho & Hunc). split_and!.
  - cbn. by rewrite Hn.
  - intros bucket' g' [[= -> ->]|Hin]%elem_of_cons; [|by apply Hh]. exists b. rewrite Ho by done. rewrite Hb, lookup_insert_eq. by split_and!.
  - intros bucket' Hnot. rewrite Ho by set_solver. rewrite Hb, lookup_insert_ne by set_solver. done.
  - intros bucket'. rewrite Hunc. unfold bucket_or_default. rewrite Hb. destruct (decide (bucket = bucket')) as [->|Hne].
    + rewrite lookup_insert_eq. cbn. by rewrite Hu.
    + by rewrite lookup_insert_ne.
Qed.

Lemma rebuild_inventory_Ok s configured names :
  rebuild_inventory s configured = Ok names →
  StronglySorted slt names ∧ ∀ bucket, bucket ∈ names ↔ bucket ∈ configured ∨ is_Some (buckets s !! bucket).
Proof.
  unfold rebuild_inventory. intros H. apply bind_ok in H as ([] & _ & [= <-]).
  destruct (name_set_spec (configured ++ (map_to_list (buckets s)).*1)) as [Hs He]. split; [done|]. intros bucket. rewrite He, elem_of_app.
  f_equiv. rewrite list_elem_of_fmap. split.
  - intros ([k b] & -> & Hin%elem_of_map_to_list). by exists b.
  - intros [b Hb]. exists (bucket, b). split; [done|]. by apply elem_of_map_to_list.
Qed.

(** [C25] A rebuild hides before it scans.  An inventory over its limit is refused with the
    index as it was; otherwise it is every configured and every indexed bucket, once and in
    order, and once their generations are published each of them is a rebuild's, under the
    generation reported, without a row and not served, with its fences kept; so no LIST and
    no absence is answered from the index anywhere until a scan has finished. *)
Theorem rebuild_hides s configured permitted :
  match rebuild_inventory s configured with
  | Err _ => ∀ scan, rebuild_origin scan s configured permitted = (Err tt, s)
  | Ok names =>
      StronglySorted slt names ∧ (∀ bucket, bucket ∈ names ↔ bucket ∈ configured ∨ is_Some (buckets s !! bucket)) ∧
      match begin_rebuilds s names permitted 0 with
      | (Ok generations, s') =>
          generations.*1 = names ∧ (∀ bucket g, (bucket, g) ∈ generations → hidden s' bucket g) ∧
          (∀ bucket, is_synced s' bucket = false) ∧
          (∀ bucket, uncertain_keys (bucket_or_default s' bucket) = uncertain_keys (bucket_or_default s bucket)) ∧
          ∀ scan, rebuild_origin scan s configured permitted = scan_all scan s' generations
      | (Err _, s') => ∀ scan, rebuild_origin scan s configured permitted = (Err tt, s')
      end
  end.
Proof.
  destruct (rebuild_inventory s configured) as [names|[]] eqn:Ei; [|by intros scan; unfold rebuild_origin; rewrite Ei].
  destruct (rebuild_inventory_Ok s configured names Ei) as [Hs He]. split; [done|]. split; [done|].
  destruct (begin_rebuilds s names permitted 0) as [[gens|[]] s'] eqn:Eb; [|by intros scan; unfold rebuild_origin; rewrite Ei, Eb].
  destruct (begin_rebuilds_Ok permitted names s 0 gens s' (slt_sorted_NoDup _ Hs) Eb) as (Hn & Hh & Ho & Hu).
  split_and!; try done; [|by intros scan; unfold rebuild_origin; rewrite Ei, Eb].
  intros bucket. unfold is_synced. destruct (decide (bucket ∈ names)) as [Hin|Hnot].
  - rewrite <- Hn in Hin. apply list_elem_of_fmap in Hin as ([b g] & -> & Hin). cbn [fst]. destruct (Hh b g Hin) as (b' & -> & Hsy & _). done.
  - rewrite Ho by done. destruct (buckets s !! bucket) eqn:E; [|done]. exfalso. apply Hnot, He. right. by rewrite E.
Qed.

(** ** The recapture *)

Section recapture.
Context {L : Layout} {LO : LayoutOk L} {HA : ImageHash} {SM : SameMembership}.

Lemma retire_spec live ingress :
  let live' := (retire_fleet_capture live ingress).2 in
  has_fleet_capture live' ingress = false ∧ (∀ i, i ≠ ingress → has_fleet_capture live' i = has_fleet_capture live i) ∧
  buckets live' = buckets live ∧ native_cuts live' = native_cuts live.
Proof using.
  unfold retire_fleet_capture. destruct (has_fleet_capture live ingress) eqn:E; [|done]. cbn. split_and!; try done.
  intros i Hi. unfold has_fleet_capture in *. destruct (capture live) as [c|]; [|done]. cbn in *. unfold same_ingress in *. apply Z.eqb_eq in E.
  symmetry. apply Z.eqb_neq. congruence.
Qed.

Lemma ready_begin_Ok live next sc donor generation listener observed members suffix g ans universe p withdrawn s0 next' :
  ready_begin live next sc donor generation listener observed members suffix g ans universe = (Ok (p, withdrawn), s0, next') →
  guard_open g generation = true ∧ source_matches observed members = true ∧
  begin_fleet_capture live ans generation JOURNAL_CONFIG universe IMAGE_CAPS = (Ok (p, withdrawn), s0).
Proof using.
  unfold ready_begin. destruct (negb listener || _) eqn:El; [done|]. apply orb_false_iff in El as [_ El%negb_false_iff].
  unfold next_id. destruct (checked_add _ _ _); [|done]. destruct (_ || _); [done|]. destruct (negb suffix); [done|].
  destruct (negb (guard_open g generation)) eqn:Eg; [done|]. apply negb_false_iff in Eg. cbn [ci_generation].
  destruct (begin_fleet_capture _ _ _ _ _ _) as [[[p' w']|] live']; [|done]. cbn. by intros [= -> -> -> ->].
Qed.

(** [C24] A recapture serves the index at C or leaves nothing behind.  When a recapture has
    begun under its guard, and other work has gone on with the live index since: if it ends
    with an image, the guard still held, the image is the encoding of the index at C with its
    hash, and its ingress is the one attached; if it fails, whatever the reason, its ingress
    is attached no more.  Neither way is any other capture, any bucket or any native position
    touched. *)
Theorem recapture_sound live next sc donor generation listener observed members suffix g ans universe p withdrawn s0 next'
    s joined listener' image_members observed' g' finishes accepted :
  index_wf live → index_typed live → index_after_epoch live → fits_index (cap_name_bytes IMAGE_CAPS) live →
  ready_begin live next sc donor generation listener observed members suffix g ans universe = (Ok (p, withdrawn), s0, next') →
  let '(r, s') := ready_finish s p generation joined listener' image_members observed' g' universe finishes accepted in
  buckets s' = buckets s ∧ native_cuts s' = native_cuts s ∧
  (∀ i, i ≠ pf_ingress p → has_fleet_capture s' i = has_fleet_capture s i) ∧
  match r with
  | Ok image => s' = s ∧ guard_open g generation = true ∧ guard_open g' generation = true ∧ di_ingress image = pf_ingress p ∧
      has_fleet_capture s (di_ingress image) = true ∧ encode live universe IMAGE_CAPS (pf_size p) = Ok (di_bytes image) ∧
      di_commitment image = image_hash (di_bytes image)
  | Err _ => has_fleet_capture s' (pf_ingress p) = false
  end.
Proof using LO.
  intros Hwf Hty Hep Hfit Hb. apply ready_begin_Ok in Hb as (Hg & _ & Hb).
  destruct (begun_encodes _ _ _ _ _ _ _ _ _ Hwf Hty Hep Hfit Hb) as (_ & l & Hl & _ & Henc).
  unfold ready_finish. rewrite Henc. pose proof (retire_spec s (pf_ingress p)) as (R1 & R2 & R3 & R4).
  destruct (negb joined); [by split_and!|]. destruct (negb (is_some_and _ _)); [by split_and!|].
  destruct (negb (guard_open g' generation)) eqn:Eg'; [by split_and!|]. apply negb_false_iff in Eg'.
  destruct (finish_pending _ _ _ _) as [[image|e] s'] eqn:Ef.
  - apply finish_Ok in Ef as (-> & Hc & [= Hby] & [= Hco] & Hi). cbn in Hby, Hco, Hi. subst l. cbn [map_err]. rewrite Hi. by split_and!.
  - unfold finish_pending in Ef. cbn [pf_ingress] in Ef.
    match type of Ef with (match ?m with Ok _ => _ | Err _ => _ end) = _ => destruct m; [done|] end. injection Ef as _ <-. by split_and!.
Qed.
End recapture.

(** ** Limits *)

Lemma div_ceil_le a b c : 0 < b → a <= c * b → div_ceil a b <= c.
Proof. intros Hb Ha. unfold div_ceil. apply Z.lt_succ_r. apply Z.div_lt_upper_bound; lia. Qed.

(** What a donor offers, and serves, is within what a follower's transfer accepts. *)
Lemma offer_within_limits live image journal active max_metadata headers reserve offer :
  image_offer live image journal active max_metadata headers reserve = Ok offer →
  to_schema offer = tc_expected_schema transfer_config ∧ 0 < to_encoded_bytes offer <= tc_max_encoded_bytes transfer_config ∧
  0 < to_chunks offer <= tc_max_chunks transfer_config.
Proof.
  unfold image_offer. intros H. apply bind_ok in H as ([] & _ & H). apply bind_ok in H as ([] & Hb%refuse_if_ok & H).
  apply bind_ok in H as (? & _ & H). apply bind_ok in H as ([] & _ & H). apply bind_ok in H as (? & _ & H).
  apply bind_ok in H as (? & _ & H). apply bind_ok in H as ([] & _ & [= <-]). cbn [to_schema to_encoded_bytes to_chunks].
  set (n := Z.of_nat (length (di_bytes image))) in *. assert (0 <= n) by lia. bool_prop.
  change (tc_max_encoded_bytes transfer_config) with (4096 * CHUNK_BYTES). change (tc_max_chunks transfer_config) with 4096.
  change (cap_bytes IMAGE_CAPS) with (4096 * CHUNK_BYTES) in *. assert (0 < CHUNK_BYTES) by done. split_and!; try done; try lia.
  - unfold div_ceil. apply Z.div_str_pos. lia.
  - apply div_ceil_le; lia.
Qed.

(** The pool of a node holds a whole image, its decoding, a suffix and what is in flight at
    once, so a class that is within its own limit is never refused for the total; and a
    journal's batch and a chunk fit a frame's payload. *)
Lemma limits_fit :
  al_max_total_bytes admission_limits =
    al_max_encoded_bytes admission_limits + al_max_decoded_bytes admission_limits + al_max_suffix_bytes admission_limits +
    al_max_native_overlap_bytes admission_limits + al_max_inflight_bytes admission_limits ∧
  tc_max_chunks transfer_config * tc_max_chunk_bytes transfer_config = cap_bytes IMAGE_CAPS ∧
  tc_max_chunk_bytes transfer_config = CHUNK_BYTES ∧
  jc_max_batch_bytes JOURNAL_CONFIG <= pl_max_body_bytes (bl_phase bulk_limits) ∧
  pl_max_body_bytes (bl_phase bulk_limits) < wl_max_payload_bytes (bl_wire bulk_limits) < wl_max_frame_bytes (bl_wire bulk_limits) ∧
  jc_max_batch_events JOURNAL_CONFIG * jc_max_event_bytes JOURNAL_CONFIG <= jc_max_batch_bytes JOURNAL_CONFIG ∧
  jc_max_scope_bytes JOURNAL_CONFIG = MAX_SCOPE_BYTES.
Proof. by vm_compute. Qed.

(** A claim leaves at least half of its time to the transfer. *)
Lemma claim_config_bounds config b :
  claim_config config = Some b →
  2 * bc_settle_ms b <= bc_total_ms b ∧ 2 * bc_donor_wait_ms b <= bc_total_ms b <= 60000 ∧ bc_claim_ttl_ms b <= bc_total_ms b.
Proof.
  unfold claim_config. destruct (Z.leb_spec 5000 (Z.min (rc_total_ms config) 60000)); [|done]. intros [= <-]. cbn.
  pose proof (Z.mul_div_le (Z.min (rc_total_ms config) 60000) 2 ltac:(lia)). lia.
Qed.

(** ** Peers *)

Section observe.
Context `{Capabilities}.

(** An observation reports every other member once, in roster order, each with its parsed
    head, and fails when any head does not parse. *)
Lemma observe_roster_spec me caps head grants cs lease roster :
  match observe_roster me caps head grants cs lease roster with
  | Ok peers =>
      pe_node <$> peers = filter (λ n, n ≠ me) ((λ m, m.1.1) <$> roster) ∧
      Forall (λ p, ∃ h, head (pe_node p) = Ok h ∧ pe_head p = mark_of <$> h ∧ pe_sealed p = cr_sealed (crossing_of cs (pe_node p)) ∧
                        (pe_grant p ≠ None → pe_grants_lease p = true)) peers
  | Err _ => ∃ n, n ∈ (λ m, m.1.1) <$> roster ∧ n ≠ me ∧ is_ok (head n) = false
  end.
Proof.
  induction roster as [|[[node status] held] roster IH]; cbn [observe_roster]; [by split|]. cbn [fmap list_fmap fst].
  case_bool_decide as Hme.
  - subst. rewrite filter_cons_False by auto. destruct (observe_roster _ _ _ _ _ _ _); [done|]. destruct IH as (n & Hn & ?). exists n. set_solver.
  - rewrite filter_cons_True by done. destruct (head node) as [h|] eqn:Eh; cbn [mbind result_bind].
    + destruct (observe_roster _ _ _ _ _ _ _) as [peers|]; cbn [mbind result_bind].
      * destruct IH as [IHn IHp]. split; [cbn; by rewrite IHn|]. constructor; [|done]. exists h. cbn. split_and!; try done.
        intros Hg. destruct (grants node); [|done]. cbn. by rewrite orb_true_r.
      * destruct IH as (n & Hn & ?). exists n. set_solver.
    + exists node. split; [set_solver|]. split; [done|]. by rewrite Eh.
Qed.
End observe.

(** ** A concrete recapture *)

#[local] Existing Instance layout64.
#[local] Existing Instance layout64_ok.
#[local] Existing Instance demo_hash.
#[local] Instance any_membership : SameMembership := λ _ _, true.

Definition demo_guard : GuardView := mkGuard (Some 1) true true.
Definition demo_source : option (Participation * Z) := Some (mkParticipation 0 [] [], 1).
Definition demo_recapture : result unit (PendingFleetCapture * option IndexCapture) * KeyIndexState * Z :=
  ready_begin demo_index 1 demo_scope "n" 1 true demo_source [] true demo_guard demo_answers ["b"].
Definition demo_recaptured : PendingFleetCapture :=
  match demo_recapture.1.1 with Ok (p, _) => p | Err _ => demo_pending end.
Definition demo_served : result unit FleetDonorImage * KeyIndexState :=
  ready_finish demo_recapture.1.2 demo_recaptured 1 true true [] demo_source demo_guard ["b"] (λ _ _ _, true) true.

Lemma recapture_sound_witness :
  is_ok demo_served.1 = true ∧ demo_served.2 = demo_recapture.1.2 ∧
  is_ok (encode demo_index ["b"] IMAGE_CAPS (pf_size demo_recaptured)) = true.
Proof.
  assert (is_ok demo_served.1 = true) as Hok by (vm_compute; reflexivity). split; [exact Hok|].
  assert (fits_index (cap_name_bytes IMAGE_CAPS) demo_index) as Hfit.
  { intros name b [-> ->]%demo_bucket. split; repeat constructor; by vm_compute. }
  assert (demo_recapture = (Ok (demo_recaptured, None), demo_recapture.1.2, demo_recapture.2)) as Hb by (vm_compute; reflexivity).
  pose proof (recapture_sound demo_index 1 demo_scope "n" 1 true demo_source [] true demo_guard demo_answers ["b"] demo_recaptured None
    demo_recapture.1.2 demo_recapture.2 demo_recapture.1.2 true true [] demo_source demo_guard (λ _ _ _, true) true
    demo_index_wf demo_index_typed demo_after_epoch Hfit Hb) as Hx.
  unfold demo_served in *. destruct (ready_finish _ _ _ _ _ _ _ _ _ _ _) as [[image|e] s']; [|discriminate Hok].
  destruct Hx as (_ & _ & _ & Hs & _ & _ & _ & _ & He & _). split; [exact Hs|]. rewrite He. reflexivity.
Defined.
