(* ===== verification/Metrics.v ===== *)
(** * Counters and their exposition

    [src/src/metrics.rs]: the event counters, the warm-tier gauges, the index footprint
    they are exported with, the stats line, the Prometheus text and the routes of the
    metrics listener.  A counter is an [AtomicU64]: [fetch_add] wraps. *)

From S2P Require Import Prelude.
From S2P Require Import ObjTypes.
From S2P Require Import KeyIndex.
From S2P Require Import IndexWf.
From S2P Require Import Wire.
From S2P Require Import Config.
From stdpp Require Import pretty.
#[local] Open Scope Z_scope.

(** ** The counters *)

(** The fields [counters!] declares, in order. *)
Definition COUNTERS : list string :=
  ["list_from_index"; "list_passthrough"; "writes_indexed_put"; "writes_indexed_copy"; "copy_head_avoided";
   "copy_head_fallbacks"; "copy_conflict_reconciled"; "copy_conflict_reconcile_misses"; "writes_indexed_multipart";
   "writes_indexed_observed"; "write_fill"; "get_hit"; "get_miss"; "get_bypass"; "head_hit"; "head_index";
   "head_404"; "head_miss"; "origin_class_a_requests"; "origin_class_b_requests"; "origin_free_requests";
   "origin_get_not_found"; "origin_head_not_found"; "origin_write_precondition_failed"; "origin_write_refused";
   "range_hit"; "range_promote"; "range_promote_reject"; "warm_hit"; "warm_miss"; "warm_error"; "warm_rejects";
   "body_revalidations"; "body_revalidation_evictions"; "body_revalidation_index_absent";
   "body_revalidation_missing_identity"; "body_revalidation_etag_mismatch"; "body_revalidation_timestamp_mismatch";
   "feed_published"; "feed_applied"; "feed_gaps"; "feed_renewals"; "ack_timeouts"; "write_lease_lapses";
   "recovery_origin_scans"; "recovery_fallbacks"; "recovery_ready_recaptures"; "unhealthy_bypasses";
   "read_licence_bypasses"; "read_absent_granter_bypasses"; "read_freshness_bypasses"; "index_backfills"].

Record Metrics := mkMetrics {
  m_counts : gmap string Z;
  warm_entries : Z;
  warm_mapped_entries : Z;
  warm_disk_bytes : Z;
  warm_disk_budget_bytes : Z;
  warm_evictions : Z;
  warm_evicted_bytes : Z;
  m_index : option KeyIndexState;
}.

Definition Metrics_default : Metrics := mkMetrics ∅ 0 0 0 0 0 0 None.

Definition load (m : Metrics) (field : string) : Z := default 0 (m_counts m !! field).
Definition bump (field : string) (m : Metrics) : Metrics :=
  mkMetrics (<[field := wrapping_add u64_max (load m field) 1]> (m_counts m)) (warm_entries m) (warm_mapped_entries m)
    (warm_disk_bytes m) (warm_disk_budget_bytes m) (warm_evictions m) (warm_evicted_bytes m) (m_index m).

(** [tierstore_mmap]'s statistics. *)
Record MmapDiskStats := mkDiskStats {
  entries : Z; mapped_entries : Z; disk_bytes : Z; budget_bytes : option Z; evictions : Z; evicted_bytes : Z }.

Definition observe_warm (m : Metrics) (stats : MmapDiskStats) : Metrics :=
  mkMetrics (m_counts m) (default u64_max (try_from u64_max (entries stats))) (default u64_max (try_from u64_max (mapped_entries stats)))
    (disk_bytes stats) (default 0 (budget_bytes stats)) (evictions stats) (evicted_bytes stats) (m_index m).

Definition register_index (m : Metrics) (index : KeyIndexState) : Metrics :=
  mkMetrics (m_counts m) (warm_entries m) (warm_mapped_entries m) (warm_disk_bytes m) (warm_disk_budget_bytes m)
    (warm_evictions m) (warm_evicted_bytes m) (Some index).

Definition index_stats (m : Metrics) : IndexStats :=
  match m_index m with Some index => i_stats index | None => stats_zero end.

(** ** The two renderings *)

Definition newline : string := String (Ascii.ascii_of_nat 10) "".
Definition decimal (n : Z) : string := pretty (Z.to_N n).
Definition concat_all : list string → string := foldr String.append "".

(** The gauges and totals that follow the event counters, with their kinds. *)
Definition trailing (m : Metrics) : list (string * string * Z) :=
  [("index_objects", "gauge", objects (index_stats m)); ("index_logical_bytes", "gauge", logical_bytes (index_stats m));
   ("warm_entries", "gauge", warm_entries m); ("warm_mapped_entries", "gauge", warm_mapped_entries m);
   ("warm_disk_bytes", "gauge", warm_disk_bytes m); ("warm_disk_budget_bytes", "gauge", warm_disk_budget_bytes m);
   ("warm_evictions", "counter", warm_evictions m); ("warm_evicted_bytes", "counter", warm_evicted_bytes m)].

Definition stats_line (m : Metrics) : string :=
  concat_all ((λ field, " " +:+ field +:+ "=" +:+ decimal (load m field)) <$> COUNTERS)
  +:+ concat_all ((λ '(name, _, n), " " +:+ name +:+ "=" +:+ decimal n) <$> trailing m).

(** A [# TYPE] line and a sample, without the last line's end. *)
Definition exposed (name kind : string) (n : Z) : string :=
  "# TYPE s3cache_" +:+ name +:+ " " +:+ kind +:+ newline +:+ "s3cache_" +:+ name +:+ " " +:+ decimal n.

Definition prometheus_text (m : Metrics) : string :=
  concat_all ((λ field, exposed field "counter" (load m field) +:+ newline) <$> COUNTERS)
  +:+ String.concat newline ((λ '(name, kind, n), exposed name kind n) <$> trailing m) +:+ newline.

(** ** The listener's routes *)

Record Response := mkResponse { rp_status : Z; rp_content_type : option string; rp_body : string }.

Definition scrape (m : Metrics) (probe_ready index_ready : bool) (method path : string) : Response :=
  let get := bool_decide (method = "GET") in
  if get && bool_decide (path = "/metrics") then mkResponse 200 (Some "text/plain; version=0.0.4") (prometheus_text m)
  else if get && (bool_decide (path = "/ready") || bool_decide (path = "/index-ready")) then
    let ready := if bool_decide (path = "/ready") then probe_ready else index_ready in
    mkResponse (if ready then 200 else 503) None ""
  else mkResponse 404 None "".

(** ** Reading the renderings back *)

Definition lf : Ascii.ascii := Ascii.ascii_of_nat 10.
Definition space : Ascii.ascii := Ascii.ascii_of_nat 32.
Definition equals : Ascii.ascii := Ascii.ascii_of_nat 61.

(** What a scraper and a reader of the log do with a line. *)
Definition read_sample (sep : Ascii.ascii) (line : string) : option (string * Z) :=
  '(name, value) ← rsplit_once sep line;
  n ← parse_u64 value;
  Some (name, n).
Definition read_text (text : string) : list (string * Z) :=
  omap (λ line, if starts_with "#" line then None else read_sample space line) (split_on lf text).
Definition read_types (text : string) : list (string * string) :=
  omap (λ line, Prelude.strip_prefix "# TYPE " line ≫= rsplit_once space) (split_on lf text).
Definition read_line (line : string) : list (string * Z) := omap (read_sample equals) (split_on space line).

(** Every value the metrics export, with its name and kind. *)
Definition samples (m : Metrics) : list (string * string * Z) :=
  ((λ field, (field, "counter", load m field)) <$> COUNTERS) ++ trailing m.

(** The counters are machine words. *)
Definition metrics_typed (m : Metrics) : Prop := Forall (λ s, 0 <= s.2 <= u64_max) (samples m).

(** A word no separator occurs in. *)
Definition plain (s : string) : bool := avoids lf s && avoids space s && avoids equals s.

Lemma avoids_app c a b : avoids c (a +:+ b) = avoids c a && avoids c b.
Proof. induction a as [|x a IH]; [done|]. rewrite append_cons. cbn [avoids]. by rewrite IH, andb_assoc. Qed.

Lemma plain_avoids s : plain s = true → avoids lf s = true ∧ avoids space s = true ∧ avoids equals s = true.
Proof. unfold plain. intros H. by bool_prop. Qed.

Lemma decimal_plain n : plain (decimal n) = true.
Proof.
  unfold plain, decimal. by rewrite !pretty_avoids by (intros d; unfold pretty_N_char; by repeat case_match).
Qed.

Lemma concat_newline l x :
  String.concat newline (x :: l) +:+ newline = concat_all ((λ s, s +:+ newline) <$> x :: l).
Proof.
  revert x. induction l as [|y l IH]; intros x; cbn [fmap list_fmap concat_all foldr] in *; [by rewrite append_empty_r|].
  change (String.concat newline (x :: y :: l)) with (x +:+ newline +:+ String.concat newline (y :: l)).
  by rewrite !append_assoc, IH, append_assoc.
Qed.

Lemma concat_all_app l1 l2 : concat_all (l1 ++ l2) = concat_all l1 +:+ concat_all l2.
Proof. induction l1 as [|x l1 IH]; [done|]. cbn [app concat_all foldr] in *. fold (concat_all (l1 ++ l2)) (concat_all l1) in *. by rewrite IH, append_assoc. Qed.

Lemma prometheus_blocks m :
  prometheus_text m = concat_all ((λ '(name, kind, n), exposed name kind n +:+ newline) <$> samples m).
Proof.
  unfold prometheus_text, samples. rewrite fmap_app, concat_all_app, <- list_fmap_compose. f_equal.
  unfold trailing. cbn [fmap list_fmap]. by rewrite concat_newline.
Qed.

Lemma stats_blocks m : stats_line m = concat_all ((λ '(name, _, n), " " +:+ name +:+ "=" +:+ decimal n) <$> samples m).
Proof. unfold stats_line, samples. by rewrite fmap_app, concat_all_app, <- list_fmap_compose. Qed.

(** One block is two lines. *)
Lemma split_two c a b rest :
  avoids c a = true → avoids c b = true →
  split_on c (a +:+ String c "" +:+ b +:+ String c "" +:+ rest) = a :: b :: split_on c rest.
Proof.
  intros Ha Hb. change (a +:+ String c "" +:+ b +:+ String c "" +:+ rest) with (a +:+ String c (b +:+ String c rest)).
  by rewrite !split_on_append.
Qed.

Lemma split_exposed name kind n rest :
  plain name = true → plain kind = true →
  split_on lf ((exposed name kind n +:+ newline) +:+ rest) =
  ("# TYPE s3cache_" +:+ name +:+ " " +:+ kind) :: ("s3cache_" +:+ name +:+ " " +:+ decimal n) :: split_on lf rest.
Proof.
  intros (Hn & _ & _)%plain_avoids (Hk & _ & _)%plain_avoids. destruct (plain_avoids _ (decimal_plain n)) as (Hd & _ & _).
  unfold exposed. rewrite <- (split_two lf) by (by rewrite !avoids_app, ?Hn, ?Hk, ?Hd). by rewrite !append_assoc.
Qed.

Lemma read_decimal c name n :
  0 <= n <= u64_max → avoids c (decimal n) = true → read_sample c (name +:+ String c (decimal n)) = Some (name, n).
Proof. intros Hn Hd. unfold read_sample. rewrite rsplit_last by done. cbn [mbind option_bind]. unfold decimal. by rewrite parse_pretty. Qed.

Lemma read_block name kind n rest :
  plain name = true → plain kind = true → 0 <= n <= u64_max →
  read_text ((exposed name kind n +:+ newline) +:+ rest) = ("s3cache_" +:+ name, n) :: read_text rest ∧
  read_types ((exposed name kind n +:+ newline) +:+ rest) = ("s3cache_" +:+ name, kind) :: read_types rest.
Proof.
  intros Hn Hk Hr. destruct (plain_avoids _ (decimal_plain n)) as (_ & Hd & _). destruct (plain_avoids _ Hk) as (_ & Hks & _).
  unfold read_text, read_types. rewrite split_exposed by done. split.
  - change (omap ?f (?x :: ?y :: ?l)) with (match f y with Some z => z :: omap f l | None => omap f l end).
    change (starts_with "#" ("s3cache_" +:+ name +:+ " " +:+ decimal n)) with false. cbn [negb].
    replace ("s3cache_" +:+ name +:+ " " +:+ decimal n) with (("s3cache_" +:+ name) +:+ String space (decimal n))
      by (by rewrite append_assoc).
    by rewrite read_decimal.
  - change (omap ?f (?x :: ?y :: ?l)) with (match f x with Some z => z :: omap f l | None => omap f l end).
    replace ("# TYPE s3cache_" +:+ name +:+ " " +:+ kind) with ("# TYPE " +:+ (("s3cache_" +:+ name) +:+ String space kind))
      by (by rewrite !append_assoc).
    rewrite strip_prefix_append. cbn [mbind option_bind]. by rewrite rsplit_last.
Qed.

Lemma read_blocks l :
  Forall (λ s : string * string * Z, plain s.1.1 = true ∧ plain s.1.2 = true ∧ 0 <= s.2 <= u64_max) l →
  let text := concat_all ((λ '(name, kind, n), exposed name kind n +:+ newline) <$> l) in
  read_text text = (λ s : string * string * Z, ("s3cache_" +:+ s.1.1, s.2)) <$> l ∧ read_types text = (λ s : string * string * Z, ("s3cache_" +:+ s.1.1, s.1.2)) <$> l.
Proof.
  induction 1 as [|[[name kind] n] l (Hn & Hk & Hr) _ [IH1 IH2]]; [done|]. cbn [fmap list_fmap concat_all foldr].
  destruct (read_block name kind n (concat_all ((λ '(name, kind, n), exposed name kind n +:+ newline) <$> l)) Hn Hk Hr) as [H1 H2].
  unfold concat_all in *. rewrite H1, H2, IH1, IH2. done.
Qed.

(** The stats line is words after a first empty one. *)
Lemma line_words l :
  Forall (λ s : string * string * Z, plain s.1.1 = true) l →
  split_on space (concat_all ((λ '(name, _, n), " " +:+ name +:+ "=" +:+ decimal n) <$> l)) =
  "" :: ((λ s : string * string * Z, s.1.1 +:+ "=" +:+ decimal s.2) <$> l : list string).
Proof.
  enough (Forall (λ s : string * string * Z, plain s.1.1 = true) l → ∀ w, avoids space w = true →
    split_on space (w +:+ concat_all ((λ '(name, _, n), " " +:+ name +:+ "=" +:+ decimal n) <$> l)) =
    w :: ((λ s : string * string * Z, s.1.1 +:+ "=" +:+ decimal s.2) <$> l : list string)) as H by (intros Hl; exact (H Hl "" eq_refl)).
  induction 1 as [|[[name kind] n] l Hn _ IH]; intros w Hw; cbn [fmap list_fmap concat_all foldr].
  - rewrite append_empty_r. by apply split_on_avoids.
  - rewrite append_assoc. change (" " +:+ ?s) with (String space s). rewrite split_on_append by done. f_equal. apply IH.
    destruct (plain_avoids _ Hn) as (_ & Hs & _), (plain_avoids _ (decimal_plain n)) as (_ & Hd & _). cbn [fst snd] in *.
    by rewrite !avoids_app, Hs, Hd.
Qed.

Lemma read_words l :
  Forall (λ s : string * string * Z, plain s.1.1 = true ∧ 0 <= s.2 <= u64_max) l →
  omap (read_sample equals) ((λ s : string * string * Z, s.1.1 +:+ "=" +:+ decimal s.2) <$> l) = (λ s : string * string * Z, (s.1.1, s.2)) <$> l.
Proof.
  induction 1 as [|[[name kind] n] l [Hn Hr] _ IH]; [done|]. cbn [fmap list_fmap fst snd] in *. rewrite <- IH.
  destruct (plain_avoids _ (decimal_plain n)) as (_ & _ & Hd).
  change (omap ?f (?x :: ?l)) with (match f x with Some z => z :: omap f l | None => omap f l end).
  change ("=" +:+ decimal n) with (String equals (decimal n)). by rewrite read_decimal.
Qed.

Lemma omap_skip {A B} (f : A → option B) x l : f x = None → omap f (x :: l) = omap f l.
Proof. intros H. cbn [omap list_omap]. by rewrite H. Qed.

Lemma read_all l :
  Forall (λ s : string * string * Z, plain s.1.1 = true ∧ plain s.1.2 = true ∧ 0 <= s.2 <= u64_max) l →
  read_line (concat_all ((λ '(name, _, n), " " +:+ name +:+ "=" +:+ decimal n) <$> l)) = (λ s : string * string * Z, (s.1.1, s.2)) <$> l.
Proof.
  intros H. unfold read_line. rewrite line_words by (eapply Forall_impl; [exact H|by intros s [? _]]).
  rewrite omap_skip by done. apply read_words. eapply Forall_impl; [exact H|]. by intros s (? & _ & ?).
Qed.

Lemma samples_plain m : Forall (λ s : string * string * Z, plain s.1.1 = true ∧ plain s.1.2 = true) (samples m).
Proof.
  unfold samples. apply Forall_app. split; [|by repeat constructor].
  apply Forall_fmap. unfold COUNTERS. repeat constructor.
Qed.

Lemma sample_names_distinct m : NoDup ((λ s : string * string * Z, s.1.1) <$> samples m).
Proof.
  unfold samples. rewrite fmap_app, <- list_fmap_compose.
  assert (((λ s : string * string * Z, s.1.1) <$> trailing m) = ((λ s : string * string * Z, s.1.1) <$> trailing Metrics_default)) as -> by done.
  assert (((λ s : string * string * Z, s.1.1) ∘ (λ field, (field, "counter", load m field)) <$> COUNTERS) = COUNTERS) as -> by done.
  apply (proj1 (bool_decide_eq_true (NoDup _))). vm_compute. reflexivity.
Qed.

(** The exposition is exact: a scraper that reads the Prometheus text gets every
    counter and gauge once, under distinct names, with its declared kind and its value,
    and nothing else; and the stats line holds the same names and values. *)
Theorem exposition_exact (m : Metrics) :
  metrics_typed m →
  read_text (prometheus_text m) = (λ s : string * string * Z, ("s3cache_" +:+ s.1.1, s.2)) <$> samples m ∧
  read_types (prometheus_text m) = (λ s : string * string * Z, ("s3cache_" +:+ s.1.1, s.1.2)) <$> samples m ∧
  read_line (stats_line m) = (λ s : string * string * Z, (s.1.1, s.2)) <$> samples m ∧
  NoDup ((λ s : string * string * Z, s.1.1) <$> samples m).
Proof.
  intros Ht. pose proof (samples_plain m) as Hp. unfold metrics_typed in Ht. rewrite prometheus_blocks, stats_blocks.
  assert (Hall : Forall (λ s : string * string * Z, plain s.1.1 = true ∧ plain s.1.2 = true ∧ 0 <= s.2 <= u64_max) (samples m)).
  { apply Forall_forall. intros s Hs. rewrite Forall_forall in Ht, Hp. destruct (Hp s Hs). auto. }
  pose proof (sample_names_distinct m) as Hd. clear Ht Hp. revert Hall Hd. generalize (samples m) as l. intros l Hall Hd.
  destruct (read_blocks l Hall) as [H1 H2]. by pose proof (read_all l Hall) as H3.
Qed.

Definition demo_metrics : Metrics :=
  observe_warm (bump "get_hit" (bump "warm_hit" (bump "get_hit" Metrics_default))) (mkDiskStats 17 5 4096 (Some 8192) 3 768).

Lemma exposition_exact_witness :
  ("s3cache_get_hit", 2) ∈ read_text (prometheus_text demo_metrics) ∧
  ("s3cache_warm_disk_bytes", "gauge") ∈ read_types (prometheus_text demo_metrics).
Proof.
  destruct (exposition_exact demo_metrics) as (-> & -> & _).
  { unfold metrics_typed. apply (proj1 (bool_decide_eq_true (Forall _ _))). vm_compute. reflexivity. }
  split.
  - apply (list_elem_of_fmap_2' _ _ ("get_hit", "counter", 2)); [|done]. unfold samples. apply elem_of_app. left.
    apply (list_elem_of_fmap_2' _ _ "get_hit"); [|vm_compute; reflexivity].
    apply (proj1 (bool_decide_eq_true (_ ∈ COUNTERS))). vm_compute. reflexivity.
  - apply (list_elem_of_fmap_2' _ _ ("warm_disk_bytes", "gauge", 4096)); [|done]. unfold samples. apply elem_of_app. right.
    do 4 right. left.
Defined.
