(* ===== verification/Origin.v ===== *)
(** * The origin client's interceptors

    [src/src/cache/origin.rs] and the forwarding half of [src/src/cache/copy.rs]: every
    attempt the origin answered is counted by billing class and by the refusals that moved
    no data, and a copy's destination conditions are put back on the request before it is
    signed.  Statuses and operation names are what the AWS SDK reports. *)

From S2P Require Import Prelude.
From S2P Require Import Metrics.
#[local] Open Scope Z_scope.

(** ** Billing classes *)

Inductive OriginClass := ClassA | ClassB | Free.

#[global] Instance OriginClass_eq_dec : EqDecision OriginClass.
Proof. solve_decision. Defined.

Definition class_of (operation : string) : OriginClass :=
  if starts_with "Get" operation || starts_with "Head" operation then ClassB
  else if starts_with "Delete" operation || bool_decide (operation = "AbortMultipartUpload") then Free
  else ClassA.

Definition is_object_write (operation : string) : bool :=
  bool_decide (operation ∈ ["PutObject"; "CopyObject"; "CompleteMultipartUpload"; "UploadPart"; "UploadPartCopy"]).

Definition class_counter (c : OriginClass) : string :=
  match c with
  | ClassA => "origin_class_a_requests"
  | ClassB => "origin_class_b_requests"
  | Free => "origin_free_requests"
  end.

Definition record_origin (m : Metrics) (operation : string) (status : Z) : Metrics :=
  let m := bump (class_counter (class_of operation)) m in
  if status <? 400 then m
  else if bool_decide (operation = "GetObject") && (status =? 404) then bump "origin_get_not_found" m
  else if bool_decide (operation = "HeadObject") && (status =? 404) then bump "origin_head_not_found" m
  else if is_object_write operation then
    if status =? 412 then bump "origin_write_precondition_failed" m else bump "origin_write_refused" m
  else m.

(** An attempt: the operation's name when the SDK set one, the status when it was answered. *)
Definition read_after_attempt (m : Metrics) (attempt : option string * option Z) : Metrics :=
  match attempt.2 with
  | None => m
  | Some status => record_origin m (default "" attempt.1) status
  end.

(** ** Copy conditions *)

(** [HeaderMap]: the values of a name in order; [get] is the first, [insert] replaces all. *)
Abbreviation HeaderMap := (list (string * string)).
Definition get_header (headers : HeaderMap) (name : string) : option string :=
  snd <$> List.find (λ h, bool_decide (h.1 = name)) headers.
Definition insert_header (headers : HeaderMap) (name value : string) : HeaderMap :=
  filter (λ h, h.1 ≠ name) headers ++ [(name, value)].

Definition IF_MATCH : string := "if-match".
Definition IF_NONE_MATCH : string := "if-none-match".
Definition R2_IF_MATCH : string := "cf-copy-destination-if-match".
Definition R2_IF_NONE_MATCH : string := "cf-copy-destination-if-none-match".

Record DestinationConditions := mkConditions { dc_if_match : option string; dc_if_none_match : option string }.

Definition from_request (headers : HeaderMap) : option DestinationConditions :=
  let conditions := mkConditions (get_header headers IF_MATCH) (get_header headers IF_NONE_MATCH) in
  if is_some (dc_if_match conditions) || is_some (dc_if_none_match conditions) then Some conditions else None.

Definition destination_must_be_absent (headers : HeaderMap) : bool :=
  is_some_and (λ value, bool_decide (value = "*")) (get_header headers IF_NONE_MATCH).

Definition insert_condition (headers : HeaderMap) (standard r2 : string) (value : option string) : HeaderMap :=
  match value with
  | Some value => insert_header (insert_header headers standard value) r2 value
  | None => headers
  end.

(** [scope] is the task-local set by [forward], [None] outside of it. *)
Definition modify_before_signing (scope : option DestinationConditions) (headers : HeaderMap) : HeaderMap :=
  match scope with
  | None => headers
  | Some conditions =>
      let headers := insert_condition headers IF_MATCH R2_IF_MATCH (dc_if_match conditions) in
      insert_condition headers IF_NONE_MATCH R2_IF_NONE_MATCH (dc_if_none_match conditions)
  end.

(** The headers sent for a copy request with [request] headers, which the SDK serialized
    as [serialized]. *)
Definition forward (request serialized : HeaderMap) : HeaderMap := modify_before_signing (from_request request) serialized.

(** ** Accounting *)

(** The counters an answered attempt is charged to. *)
Definition refusal (operation : string) (status : Z) : option string :=
  if status <? 400 then None
  else if bool_decide (operation = "GetObject") && (status =? 404) then Some "origin_get_not_found"
  else if bool_decide (operation = "HeadObject") && (status =? 404) then Some "origin_head_not_found"
  else if is_object_write operation then
    Some (if status =? 412 then "origin_write_precondition_failed" else "origin_write_refused")
  else None.

Definition charges (a : option string * option Z) (field : string) : bool :=
  match a.2 with
  | None => false
  | Some status =>
      let operation := default "" a.1 in
      bool_decide (class_counter (class_of operation) = field) || bool_decide (refusal operation status = Some field)
  end.
Definition charged (attempts : list (option string * option Z)) (field : string) : Z :=
  Z.of_nat (length (List.filter (λ a, charges a field) attempts)).

Lemma load_bump f m g : load (bump f m) g = if decide (f = g) then wrapping_add u64_max (load m f) 1 else load m g.
Proof.
  unfold load, bump. cbn [m_counts]. case_decide as E; [subst g; by rewrite lookup_insert_eq|by rewrite lookup_insert_ne].
Qed.

Lemma bump_exact f m g : 0 <= load m g < u64_max → load (bump f m) g = load m g + (if decide (f = g) then 1 else 0).
Proof.
  intros H. rewrite load_bump. case_decide as E; [|lia]. subst g. unfold wrapping_add. rewrite Z.mod_small; lia.
Qed.

Lemma refusal_cases operation status f :
  refusal operation status = Some f →
  (class_of operation = ClassB ∧ (f = "origin_get_not_found" ∨ f = "origin_head_not_found")) ∨
  (class_of operation = ClassA ∧ (f = "origin_write_precondition_failed" ∨ f = "origin_write_refused")).
Proof.
  unfold refusal. destruct (status <? 400); [done|]. case_bool_decide as E1; cbn [andb].
  { subst. destruct (status =? 404); [intros [= <-]; left; split; [reflexivity|by left]|].
    by change (is_object_write "GetObject") with false. }
  case_bool_decide as E2; cbn [andb].
  { subst. destruct (status =? 404); [intros [= <-]; left; split; [reflexivity|by right]|].
    by change (is_object_write "HeadObject") with false. }
  destruct (is_object_write operation) eqn:Ew; [|done]. intros [= <-]. right. split; [|destruct (_ =? _); [by left|by right]].
  unfold is_object_write in Ew. apply bool_decide_eq_true in Ew. rewrite !elem_of_cons, elem_of_nil in Ew.
  by repeat destruct Ew as [->|Ew].
Qed.

Lemma record_origin_charges m operation status :
  record_origin m operation status =
  (let m := bump (class_counter (class_of operation)) m in
   match refusal operation status with Some f => bump f m | None => m end).
Proof. unfold record_origin, refusal. by repeat case_match. Qed.

Lemma attempt_exact m a g :
  0 <= load m g < u64_max → load (read_after_attempt m a) g = load m g + (if charges a g then 1 else 0).
Proof.
  intros H. unfold read_after_attempt, charges. destruct a.2 as [status|]; [|lia]. set (op := default "" a.1).
  rewrite record_origin_charges. cbn zeta. pose proof (bump_exact (class_counter (class_of op)) m g H) as H1.
  destruct (refusal op status) as [f|] eqn:Er.
  - assert (class_counter (class_of op) ≠ f) as Hne.
    { by destruct (refusal_cases _ _ _ Er) as [[-> [->| ->]]|[-> [->| ->]]]. }
    case_bool_decide as Eg; cbn [orb].
    + subst g. rewrite load_bump. rewrite decide_False by done. rewrite H1. by rewrite decide_True.
    + rewrite decide_False in H1 by done. rewrite bump_exact by (rewrite H1; lia). rewrite H1.
      destruct (decide (f = g)) as [->|Hf]; [rewrite bool_decide_eq_true_2 by done; lia|].
      rewrite bool_decide_eq_false_2 by congruence. lia.
  - rewrite (bool_decide_eq_false_2 (None = Some g)) by done. rewrite orb_false_r, H1.
    case_bool_decide; [by rewrite decide_True|by rewrite decide_False].
Qed.

Lemma attempts_exact attempts m g :
  0 <= load m g → load m g + Z.of_nat (length attempts) <= u64_max →
  load (foldl read_after_attempt m attempts) g = load m g + charged attempts g.
Proof.
  revert m. unfold charged. induction attempts as [|a l IH]; intros m H0 Hl; cbn [foldl List.filter length] in *; [lia|].
  pose proof (attempt_exact m a g ltac:(lia)) as Ha. rewrite IH; rewrite Ha; destruct (charges a g); cbn [length]; lia.
Qed.

Lemma charged_cons a l g : charged (a :: l) g = charged l g + (if charges a g then 1 else 0).
Proof. unfold charged. cbn [List.filter]. destruct (charges a g); cbn [length]; lia. Qed.

(** Totals by class: what one attempt adds. *)
Lemma charges_balance a :
  let n f := if charges a f then 1 else 0 in
  n "origin_class_a_requests" + n "origin_class_b_requests" + n "origin_free_requests" = (if is_some a.2 then 1 else 0) ∧
  n "origin_get_not_found" + n "origin_head_not_found" <= n "origin_class_b_requests" ∧
  n "origin_write_precondition_failed" + n "origin_write_refused" <= n "origin_class_a_requests".
Proof.
  unfold charges. destruct a.2 as [status|]; [|done]. set (op := default "" a.1). cbn [is_some].
  destruct (refusal op status) as [f|] eqn:Er.
  - by destruct (refusal_cases _ _ _ Er) as [[-> [->| ->]]|[-> [->| ->]]]; vm_compute.
  - by destruct (class_of op); vm_compute.
Qed.

Lemma charged_balance l :
  charged l "origin_class_a_requests" + charged l "origin_class_b_requests" + charged l "origin_free_requests" =
    Z.of_nat (length (filter (λ a, is_Some a.2) l)) ∧
  charged l "origin_get_not_found" + charged l "origin_head_not_found" <= charged l "origin_class_b_requests" ∧
  charged l "origin_write_precondition_failed" + charged l "origin_write_refused" <= charged l "origin_class_a_requests".
Proof.
  induction l as [|a l IH]; [done|]. rewrite !charged_cons, filter_cons. pose proof (charges_balance a) as H. cbv beta zeta in H.
  repeat match goal with |- context [if charges a ?f then 1 else 0] => generalize dependent (if charges a f then 1 else 0) end.
  intros. destruct IH as (I1 & I2 & I3). destruct a as [op [status|]]; cbn [snd is_some] in *.
  - change (if is_some (Some status) then 1 else 0) with 1 in H. rewrite decide_True by done. cbn [length]. rewrite Nat2Z.inj_succ, <- I1. lia.
  - change (if is_some (@None Z) then 1 else 0) with 0 in H. rewrite decide_False by (by intros [? ?]). rewrite <- I1. lia.
Qed.

Lemma charged_other l field : starts_with "origin_" field = false → charged l field = 0.
Proof.
  intros Hf. induction l as [|a l IH]; [done|]. rewrite charged_cons, IH. enough (charges a field = false) as -> by done.
  unfold charges. destruct a.2 as [status|]; [|done]. apply orb_false_iff. split; apply bool_decide_eq_false; intros E.
  - subst field. by destruct (class_of _).
  - apply refusal_cases in E as [[_ [->| ->]]|[_ [->| ->]]]; done.
Qed.

(** Origin accounting is exact.  After any sequence of attempts, fewer than a counter
    holds: every answered attempt is counted in exactly one billing class, unanswered ones
    nowhere; the 404s of object reads are part of the class B requests and the refused
    object writes part of the class A requests; and no other counter moves. *)
Theorem origin_accounting (attempts : list (option string * option Z)) :
  Z.of_nat (length attempts) <= u64_max →
  let m := foldl read_after_attempt Metrics_default attempts in
  load m "origin_class_a_requests" + load m "origin_class_b_requests" + load m "origin_free_requests" =
    Z.of_nat (length (filter (λ a, is_Some a.2) attempts)) ∧
  load m "origin_get_not_found" + load m "origin_head_not_found" <= load m "origin_class_b_requests" ∧
  load m "origin_write_precondition_failed" + load m "origin_write_refused" <= load m "origin_class_a_requests" ∧
  ∀ field, field ∈ COUNTERS → starts_with "origin_" field = false → load m field = 0.
Proof.
  intros Hl m. assert (Hm : ∀ g, load m g = charged attempts g).
  { intros g. unfold m. rewrite attempts_exact by (unfold load; cbn [Metrics_default m_counts]; rewrite lookup_empty; cbn; lia).
    unfold load. cbn [Metrics_default m_counts]. by rewrite lookup_empty. }
  destruct (charged_balance attempts) as (H1 & H2 & H3). rewrite !Hm. split_and!; [done..|].
  intros field _ Hf. rewrite Hm. by apply charged_other.
Qed.

Lemma origin_accounting_witness :
  let m := foldl read_after_attempt Metrics_default
    [(Some "ListObjectsV2", Some 404); (Some "CopyObject", Some 412); (Some "PutObject", Some 503); (Some "GetObject", None);
     (Some "GetObject", Some 304)] in
  load m "origin_class_a_requests" + load m "origin_class_b_requests" + load m "origin_free_requests" = 4 ∧
  load m "origin_write_refused" = 1.
Proof.
  split; [|vm_compute; reflexivity].
  refine (proj1 (origin_accounting [(Some "ListObjectsV2", Some 404); (Some "CopyObject", Some 412); (Some "PutObject", Some 503);
    (Some "GetObject", None); (Some "GetObject", Some 304)] _)). vm_compute. discriminate.
Defined.

(** ** Conditions carried *)

Lemma get_app headers name x :
  get_header (headers ++ [x]) name =
  match get_header headers name with Some v => Some v | None => if bool_decide (x.1 = name) then Some x.2 else None end.
Proof.
  unfold get_header. induction headers as [|h headers IH]; cbn [app List.find].
  - by destruct (bool_decide _).
  - by destruct (bool_decide (h.1 = name)).
Qed.

Lemma get_filter headers name other :
  get_header (filter (λ h, h.1 ≠ name) headers) other = if decide (other = name) then None else get_header headers other.
Proof.
  unfold get_header. induction headers as [|h headers IH]; [by case_decide|]. rewrite filter_cons. cbn [List.find].
  destruct (decide (h.1 ≠ name)) as [Hh|Hh]; cbn [List.find]; destruct (bool_decide_reflect (h.1 = other)) as [E|E].
  - rewrite decide_False by congruence. done.
  - done.
  - apply dec_stable in Hh. rewrite IH. by rewrite !decide_True by congruence.
  - done.
Qed.

Lemma get_insert headers name value other :
  get_header (insert_header headers name value) other = if decide (other = name) then Some value else get_header headers other.
Proof.
  unfold insert_header. rewrite get_app, get_filter. cbn [fst snd]. destruct (decide (other = name)) as [->|Hne].
  - by rewrite bool_decide_eq_true_2.
  - rewrite bool_decide_eq_false_2 by congruence. by destruct (get_header headers other).
Qed.

Lemma get_condition headers standard r2 value other :
  get_header (insert_condition headers standard r2 value) other =
  if decide (other = standard ∨ other = r2) then match value with Some v => Some v | None => get_header headers other end
  else get_header headers other.
Proof.
  unfold insert_condition. destruct value as [v|]; [|by case_decide]. rewrite !get_insert.
  repeat case_decide; naive_solver.
Qed.

(** A copy is sent with the conditions of its request, under the standard names and R2's,
    and with everything else as the SDK serialized it. *)
Theorem copy_conditions_carried (request serialized : HeaderMap) :
  (∀ v, get_header request IF_MATCH = Some v →
     get_header (forward request serialized) IF_MATCH = Some v ∧ get_header (forward request serialized) R2_IF_MATCH = Some v) ∧
  (∀ v, get_header request IF_NONE_MATCH = Some v →
     get_header (forward request serialized) IF_NONE_MATCH = Some v ∧ get_header (forward request serialized) R2_IF_NONE_MATCH = Some v) ∧
  ∀ name, name ∉ [IF_MATCH; IF_NONE_MATCH; R2_IF_MATCH; R2_IF_NONE_MATCH] →
    get_header (forward request serialized) name = get_header serialized name.
Proof.
  unfold forward, from_request. cbn [dc_if_match dc_if_none_match].
  destruct (get_header request IF_MATCH) as [a|] eqn:Ea, (get_header request IF_NONE_MATCH) as [b|] eqn:Eb;
    change (is_some (Some ?x)) with true; change (is_some (@None string)) with false;
    cbn [orb modify_before_signing dc_if_match dc_if_none_match];
    (split_and!; [intros v Hv; try discriminate Hv; injection Hv as <-; rewrite !get_condition; split; reflexivity..|]);
    intros name (N1 & (N2 & (N3 & (N4 & _)%not_elem_of_cons)%not_elem_of_cons)%not_elem_of_cons)%not_elem_of_cons; try done;
    by rewrite !get_condition, !decide_False by tauto.
Qed.
