(* ===== verification/Fleet.v ===== *)
(** * What a reported write means at the other nodes

    The composition of src/src/sync/coherence.rs: the writer's wait ([Coherence]) with the
    apply loop of every peer ([Apply]).  A node's loop *settles* a write when it applied the
    event to its index, which from then on shows nothing older, and dropped the hot copies;
    or when it declared the write missed, discarded every bucket and called for recovery.
    An acknowledgement, and a frontier a barrier waits for, come only after that. *)

From S2P Require Import Prelude.
From S2P Require Import ObjTypes.
From S2P Require Import ImageCodec.
From S2P Require Import CodecProps.
From S2P Require Import Rows.
From S2P Require Import IndexCapture.
From S2P Require Import KeyIndex.
From S2P Require Import IndexWf.
From S2P Require Import IndexSteps.
From S2P Require Import IndexInv.
From S2P Require Import IndexMachine.
From S2P Require Import IndexLww.
From S2P Require Import Wire.
From S2P Require Import Coherence.
From S2P Require Import CoherenceProps.
From S2P Require Import Apply.
From S2P Require Import ApplyProps.
From S2P Require Import ProxyView.

(** ** What the index shows of a write *)

(** The feed's timestamp of an event. *)
Definition event_time (ev : IndexEvent) : Z := from_micros (ev_ts_us ev).

(** The key shows the event or something later; an event that describes nothing leaves its
    key fenced, for the origin to answer. *)
Definition shows `{EtagParse} (s : KeyIndexState) (ev : IndexEvent) : Prop :=
  let '(bk, k, ts) := (ev_bucket ev, ev_key ev, event_time ev) in
  if describes_nothing (ev_op ev) then is_Some (fenced s bk k)
  else match ev_op ev with
  | OpPut size etag content_type storage_class =>
      row s bk k = Some (feed_entry size etag content_type storage_class ts)
      ∨ (∃ e, row s bk k = Some e ∧ ts < last_modified e) ∨ (∃ d, dead_at s bk k = Some d ∧ ts <= d)
  | OpDel => row s bk k = None ∨ (∃ e, row s bk k = Some e ∧ ts < last_modified e) ∨ (∃ d, dead_at s bk k = Some d ∧ ts < d)
  end.

Section shows.
Context {L : Layout} {P : EtagParse}.

Lemma put_shows s bk k e cut :
  (note_native_cut s cut).1 = true →
  let s' := (apply_put_native s bk k e cut).2 in
  row s' bk k = Some e ∨ (∃ o, row s' bk k = Some o ∧ last_modified e < last_modified o) ∨
  (∃ d, dead_at s' bk k = Some d ∧ last_modified e <= d).
Proof using.
  intros Hf. cbn zeta. unfold apply_put_native.
  destruct (put_outcome_spec s bk k e DefinitiveMutation (Some (Native cut))) as [Hd|_ Hr|_ Hr]; cbn [snd].
  - by cbn [note_identity] in Hd; rewrite Hf in Hd.
  - unfold row, dead_at. autorewrite with bod. rewrite decide_True by done.
    unfold put_rejects in Hr. cbn [definitive negb andb] in Hr. rewrite orb_false_r in Hr. unfold Gone.get, Keys.get in Hr.
    apply orb_true_iff in Hr as [Hr|Hr]; apply andb_true_iff in Hr as [_ Hr].
    + right. right. destruct (gr_map _ !! k) as [d|]; [|done]. exists d. split; [done|]. by apply Z.leb_le.
    + right. left. destruct (kr_map _ !! k) as [o|]; [|done]. exists o. split; [done|]. by apply Z.ltb_lt.
  - left. unfold row. autorewrite with bod. by rewrite decide_True, put_bucket_map, lookup_insert_eq.
Qed.

Lemma del_shows s bk k ts cut :
  (note_native_cut s cut).1 = true →
  let s' := (apply_del_native s bk k ts cut).2 in
  row s' bk k = None ∨ (∃ e, row s' bk k = Some e ∧ ts < last_modified e) ∨ (∃ d, dead_at s' bk k = Some d ∧ ts < d).
Proof using.
  intros Hf. cbn zeta. unfold apply_del_native.
  destruct (del_outcome_spec s bk k ts (Some (Native cut)) Run) as [Hd|b Hb _ Hst|b Hb _ Hst]; cbn [snd].
  - by cbn [note_identity] in Hd; rewrite Hf in Hd.
  - right. unfold row, dead_at. autorewrite with bod. rewrite decide_True, del_marked_keys, del_marked_map, lookup_insert_eq by done.
    unfold del_stale, Keys.get, Gone.get in Hst. apply andb_true_iff in Hst as [Hn Hst]. apply negb_true_iff in Hn. rewrite Hn.
    apply orb_true_iff in Hst as [Hr|Hr].
    + left. destruct (kr_map (keys b) !! k) as [e|]; [|done]. exists e. split; [done|]. by apply Z.ltb_lt.
    + right. destruct (gr_map (gone b) !! k) as [d|]; [|done]. exists (Z.max d ts). apply Z.ltb_lt in Hr. split; [done|lia].
  - left. unfold row. autorewrite with bod. by rewrite decide_True, del_bucket_map, lookup_delete_eq.
Qed.

(** An event past everything known of its writer is shown once it is applied. *)
Lemma feed_shows s peer t ev f s' :
  (note_native_cut s (native_cut peer t)).1 = true → apply_feed_index s peer t ev = Some (f, s') → shows s' ev.
Proof using.
  intros Hf. unfold apply_feed_index, shows, event_time. destruct (describes_nothing (ev_op ev)).
  - unfold fence_uncertain_key_native. destruct (note_native_cut s (native_cut peer t)) as [fresh s1]. cbn [fst] in Hf. subst fresh.
    intros H. apply bind_Some in H as ([tk s2] & Hk & [= _ <-]). destruct (fence_view _ _ _ _ _ Hk) as (_ & _ & _ & H). by eexists.
  - destruct (ev_op ev) as [sz et ct sc|]; intros [= _ <-].
    + exact (put_shows s (ev_bucket ev) (ev_key ev) (feed_entry sz et ct sc (from_micros (ev_ts_us ev))) (native_cut peer t) Hf).
    + exact (del_shows s (ev_bucket ev) (ev_key ev) (from_micros (ev_ts_us ev)) (native_cut peer t) Hf).
Qed.

(** After a gap no bucket is served. *)
Lemma discard_hides s cut bk : synced_at (discard_for_gap s cut) bk = false.
Proof using.
  unfold synced_at, discard_for_gap, discard_buckets, bucket_or_default. cbn [buckets]. rewrite lookup_fmap.
  by destruct (_ !! bk).
Qed.
End shows.

(** ** Moments of a run *)

Lemma bind_split {A B} (f : A → list B) l u a v :
  l ≫= f = u ++ a :: v →
  ∃ l1 x l2 pre post, l = l1 ++ x :: l2 ∧ f x = pre ++ a :: post ∧ u = (l1 ≫= f) ++ pre ∧ v = post ++ (l2 ≫= f).
Proof.
  revert u. induction l as [|x l IH]; intros u; [by destruct u|]. rewrite bind_cons.
  intros [(k & E1 & E2)|(k & -> & E)]%app_eq_inv.
  - destruct k as [|y k].
    + rewrite app_nil_r in E1. cbn [app] in E2. destruct (IH [] (eq_sym E2)) as (l1 & z & l2 & pre & post & -> & Hz & Hu & ->).
      exists (x :: l1), z, l2, pre, post. split_and!; [done|done| |done]. rewrite bind_cons, <- app_assoc, <- Hu. by rewrite app_nil_r.
    + injection E2 as <- ->. by exists [], x, l, u, k.
  - destruct (IH k E) as (l1 & z & l2 & pre & post & -> & Hz & -> & ->).
    exists (x :: l1), z, l2, pre, post. split_and!; [done|done| |done]. by rewrite bind_cons, app_assoc.
Qed.

(** What an event's handling does before it publishes. *)
Definition work (e : PeerWrite) : list Act :=
  match e with
  | Sealed peer token => [ActNoteSeal peer token; ActObserveSeal peer token]
  | Renewed peer sealed epoch => [ActRenew peer sealed epoch]
  | Wrote peer token event =>
      [ActFence (ev_bucket event) (ev_key event); ActApply peer token event; ActHot (ev_bucket event) (ev_key event)]
  | Gap peer missed_through => [ActForget peer; ActDiscard peer missed_through; ActFeedGap]
  end.

Lemma script_work c e : ∃ rest, script c e = work e ++ rest ∧ Forall (λ a, ack_of a = None) (work e).
Proof.
  unfold script. destruct e; cbn [work].
  all: eexists; split; [reflexivity|]; repeat constructor.
Qed.

Lemma script_ack c e a p : a ∈ script c e → ack_of a = Some p → p = position_of e.
Proof.
  unfold script, publish. destruct e, (acks c); cbn [app]; rewrite !elem_of_cons, elem_of_nil;
    intros Ha Hp; repeat destruct Ha as [->|Ha]; try done; cbn in Hp; by injection Hp as <-.
Qed.

(** Work comes before a publication of the same event. *)
Lemma work_first c e pre b post : script c e = pre ++ b :: post → is_Some (ack_of b) → ∃ x, pre = work e ++ x.
Proof.
  destruct (script_work c e) as (rest & -> & Hw). intros [(k & E1 & E2)|(k & -> & _)]%app_eq_inv Hb; [|by exists k].
  destruct k as [|y k]; [exists []; by rewrite app_nil_r, <- (app_nil_r pre), E1, app_nil_r|]. injection E2 as <- _. rewrite E1 in Hw.
  apply Forall_app in Hw as [_ Hw]. apply Forall_cons in Hw as [Hw _]. rewrite Hw in Hb. by destruct Hb.
Qed.

Section moments.
Context {L : Layout} {P : EtagParse}.

(** An action in the trace was taken at some moment of the run. *)
Lemma trace_moment c me l0 l u a v :
  lp_trace l0 = [] → loop_run c me l0 l → lp_trace l = u ++ a :: v →
  ∃ l1 todo s cs rs, loop_run c me l0 l1 ∧ lp_trace l1 = u ∧ lp_todo l1 = a :: todo ∧ act l1 a = Some (s, cs, rs).
Proof using.
  intros H0 Hr. revert u v. induction Hr as [|l1 l2 Hr IH Hs]; intros u v Ht; [rewrite H0 in Ht; by destruct u|].
  destruct Hs as [e q Et Eq|a' todo s cs rs Et Hx|ev s Hme Hx|s Hx]; cbn [lp_trace] in Ht; try by eapply IH.
  destruct v as [|b v].
  - apply app_inj_tail in Ht as [<- <-]. by exists l1, todo, s, cs, rs.
  - destruct (exists_last (l := b :: v) ltac:(done)) as (v' & z & Ev). rewrite Ev in Ht.
    rewrite app_comm_cons, app_assoc in Ht. apply app_inj_tail in Ht as [Ht _]. by eapply IH.
Qed.
End moments.

(** ** Settled writes *)

Definition position_lt (a b : Z * Z) : Prop := a.1 < b.1 ∨ a.1 = b.1 ∧ a.2 < b.2.

(** A write is delivered past everything delivered of its writer before. *)
Definition fresh_writes (stream : list PeerWrite) : Prop :=
  StronglySorted (λ q e, (position_of q).1 = (position_of e).1 →
    match e with Wrote _ _ _ => position_lt (position_of q).2 (position_of e).2 | _ => True end) stream.

(** The feed passes a write of [w] only by delivering it or by declaring it missed. *)
Definition carries (stream : list PeerWrite) (w : NodeId) (t : WriteToken) (ev : IndexEvent) : Prop :=
  ∀ pre e post, stream = pre ++ e :: post → (position_of e).1 = w → position_le (position t) (position_of e).2 = true →
  Wrote w t ev ∈ pre ++ [e] ∨ ∃ m, Gap w m ∈ pre ++ [e] ∧ position_le (position t) (position m) = true.

Section settled.
Context {L : Layout} {P : EtagParse}.
Context (c : Consistency) (me : NodeId) (l0 l : Loop).

(** At some moment of the run the loop applied the event, the index then showed it, and
    the key's hot copies were dropped after that. *)
Definition applied_at (w : NodeId) (t : WriteToken) (ev : IndexEvent) : Prop :=
  ∃ l1 s cs rs later, loop_run c me l0 l1 ∧ act l1 (ActApply w t ev) = Some (s, cs, rs) ∧ shows s ev ∧
    lp_trace l = lp_trace l1 ++ ActApply w t ev :: later ∧ ActHot (ev_bucket ev) (ev_key ev) ∈ later.

(** At some moment it declared the write missed: no bucket was left to serve from, and the
    recovery driver was called after that. *)
Definition missed_at (w : NodeId) (t : WriteToken) : Prop :=
  ∃ m l1 s cs rs later, position_le (position t) (position m) = true ∧ loop_run c me l0 l1 ∧
    act l1 (ActDiscard w m) = Some (s, cs, rs) ∧ (∀ bk, synced_at s bk = false) ∧
    lp_trace l = lp_trace l1 ++ ActDiscard w m :: later ∧ ActFeedGap ∈ later.

Definition settled (w : NodeId) (t : WriteToken) (ev : IndexEvent) : Prop := applied_at w t ev ∨ missed_at w t.
End settled.

Section settles.
Context {L : Layout} {P : EtagParse}.
Context (c : Consistency) (me : NodeId) (feed : Feed) (state : KeyIndexState) (stream : list PeerWrite) (l : Loop).
Hypothesis Hok : stream_ok me stream.
Hypothesis Hfresh : fresh_writes stream.
Hypothesis Hnone : ∀ peer, peer ≠ me → native_cuts state !! peer = None.
Hypothesis Hrun : loop_run c me (start_apply me feed state stream) l.

Let l0 : Loop := start_apply me feed state stream.

Lemma fresh_before s1 w t ev s2 q :
  stream = s1 ++ Wrote w t ev :: s2 → (w, q) ∈ position_of <$> s1 → position_lt q (position t).
Proof using Hfresh.
  intros E (e & He & Hin)%list_elem_of_fmap. unfold fresh_writes in Hfresh. rewrite E in Hfresh.
  apply list_elem_of_split in Hin as (a & b & ->). rewrite <- app_assoc in Hfresh. clear E.
  induction a as [|x a IH]; cbn [app] in Hfresh; apply StronglySorted_inv in Hfresh as [Hs Hf]; [|by apply IH].
  rewrite Forall_forall in Hf. specialize (Hf (Wrote w t ev)). rewrite <- He in Hf. apply Hf; [|done].
  apply elem_of_app. right. by left.
Qed.

(** The work of an event that is all in the trace. *)
Lemma wrote_applied s1 w t ev s2 v :
  stream = s1 ++ Wrote w t ev :: s2 → lp_trace l = (s1 ≫= script c) ++ work (Wrote w t ev) ++ v → applied_at c me l0 l w t ev.
Proof using Hok Hfresh Hnone Hrun.
  intros E Ht. set (fence := ActFence (ev_bucket ev) (ev_key ev)). set (hot := ActHot (ev_bucket ev) (ev_key ev)).
  assert (Ht' : lp_trace l = ((s1 ≫= script c) ++ [fence]) ++ ActApply w t ev :: hot :: v) by (by rewrite Ht, <- app_assoc).
  destruct (trace_moment c me l0 l _ _ _ eq_refl Hrun Ht') as (l1 & todo & s & cs & rs & Hr1 & Hu & _ & Hx).
  exists l1, s, cs, rs, (hot :: v). rewrite Hu. split_and!; [done|done| |done|by left].
  destruct (run_inv c me feed state stream l1 Hok Hnone Hr1) as [_ Hfrom].
  assert (Hd : done_at l1 = position_of <$> s1).
  { unfold done_at. rewrite Hu, omap_app, script_effects. cbn. by rewrite app_nil_r. }
  assert (Hw : w ≠ me).
  { destruct Hok as [Hev _]. rewrite E, Forall_app, Forall_cons in Hev. destruct Hev as (_ & [Hne _] & _). exact Hne. }
  cbn [act] in Hx. destruct (apply_feed_index _ _ _ _) as [[f s']|] eqn:Ea; [|done]. injection Hx as <- _ _.
  refine (feed_shows _ _ _ _ _ _ _ Ea). apply note_cut_fresh. intros q Hq. cbn [native_cut cut_writer cut_epoch cut_sequence] in *.
  apply (Hfrom w _ Hw) in Hq. rewrite Hd in Hq. pose proof (fresh_before s1 w t ev s2 _ E Hq) as Hlt.
  unfold position_lt, position in Hlt. cbn [fst snd] in Hlt. lia.
Qed.

Lemma gap_missed s1 w t m v :
  position_le (position t) (position m) = true → lp_trace l = (s1 ≫= script c) ++ work (Gap w m) ++ v → missed_at c me l0 l w t.
Proof using Hrun.
  intros Hle Ht. assert (Ht' : lp_trace l = ((s1 ≫= script c) ++ [ActForget w]) ++ ActDiscard w m :: ActFeedGap :: v) by (by rewrite Ht, <- app_assoc).
  destruct (trace_moment c me l0 l _ _ _ eq_refl Hrun Ht') as (l1 & todo & s & cs & rs & Hr1 & Hu & _ & Hx).
  exists m, l1, s, cs, rs, (ActFeedGap :: v). rewrite Hu. split_and!; [done|done|done| |done|by left].
  injection Hx as <- _ _. intros bk. apply discard_hides.
Qed.

(** Whatever the loop published of a writer, every write up to it is settled. *)
Lemma published_settled b w q t ev :
  b ∈ lp_trace l → ack_of b = Some (w, q) → position_le (position t) q = true → carries stream w t ev → settled c me l0 l w t ev.
Proof using Hok Hfresh Hnone Hrun.
  intros Hb Hq Hle Hcarry. destruct (run_inv c me feed state stream l Hok Hnone Hrun) as [[(handled & Hh & Ht) _ _] _].
  apply list_elem_of_split in Hb as (u & v & Hv). rewrite Hv, <- app_assoc in Ht. symmetry in Ht. cbn [app] in Ht.
  apply bind_split in Ht as (h1 & e & h2 & pre & post & -> & He & Hu & _).
  assert (Hp : (w, q) = position_of e). { apply (script_ack c e b); [|done]. rewrite He. apply elem_of_app. right. by left. }
  destruct (work_first c e pre b post He ltac:(by rewrite Hq)) as (x & ->).
  rewrite <- app_assoc in Hh. cbn [app] in Hh.
  assert (Hwork : ∀ e', e' ∈ h1 ++ [e] → ∃ s1 s2 v', stream = s1 ++ e' :: s2 ∧ lp_trace l = (s1 ≫= script c) ++ work e' ++ v').
  { intros e' [Hin|Hin]%elem_of_app.
    - apply list_elem_of_split in Hin as (g1 & g2 & ->). destruct (script_work c e') as (rest & Hs & _).
      exists g1, (g2 ++ e :: h2 ++ lp_queue l), (rest ++ (g2 ≫= script c) ++ work e ++ x ++ b :: v).
      split; [by rewrite <- Hh, <- app_assoc|]. rewrite Hv, Hu, bind_app, bind_cons, Hs. by rewrite <- !app_assoc.
    - apply list_elem_of_singleton in Hin as ->. exists h1, (h2 ++ lp_queue l), (x ++ b :: v). split; [done|]. by rewrite Hv, Hu, <- !app_assoc. }
  destruct (Hcarry h1 e (h2 ++ lp_queue l) (eq_sym Hh)) as [Hin|(m & Hin & Hm)]; [by rewrite <- Hp|by rewrite <- Hp|..];
    destruct (Hwork _ Hin) as (s1 & s2 & v' & E & Htr).
  - left. by eapply wrote_applied.
  - right. by eapply gap_missed.
Qed.
End settles.

(** ** The writer's side *)

Section reported.
Context {L : Layout} {P : EtagParse} {CP : Capabilities}.
(** The writer's mode and what it sees of its peers; each peer's own run. *)
Context (c : Consistency) (has_leases : bool) (caps : NodeId → list string) (peers : list NodeId)
        (coherent : CoherenceOutcome) (applied_by : (NodeId → bool) → bool) (lapsed : NodeId → Prop).
Context (mode : NodeId → Consistency) (feed : NodeId → Feed) (state : NodeId → KeyIndexState)
        (stream : NodeId → list PeerWrite) (loop : NodeId → Loop).

Definition booted (n : NodeId) : Loop := start_apply n (feed n) (state n) (stream n).

(** The apply loop of [n], on a feed that carries the write. *)
Definition applies (w : NodeId) (t : WriteToken) (ev : IndexEvent) (n : NodeId) : Prop :=
  stream_ok n (stream n) ∧ fresh_writes (stream n) ∧ (∀ peer, peer ≠ n → native_cuts (state n) !! peer = None) ∧
  loop_run (mode n) n (booted n) (loop n) ∧ carries (stream n) w t ev.

(** What an acknowledgement is: a position in the ledger of [n], at the write or past it. *)
Definition recorded (w : NodeId) (t : WriteToken) (n : NodeId) : Prop :=
  ∃ t', ActRecord w t' ∈ lp_trace (loop n) ∧ position_le (position t) (position t') = true.

(** [C22] A reported write is visible.  In either strong mode a write is reported as a
    success only when every peer it waits on has settled it or lost its lease: at a moment
    before its acknowledgement the peer's index applied the event and showed it or
    something later, and then dropped the hot copies; or the peer counted the write as
    missed, left no bucket to serve from and called for recovery. *)
Theorem reported_write_visible w t ev :
  (∀ n, n ∈ peers → applies w t ev n) →
  tier_contract caps peers coherent (recorded w t) lapsed → ack_contract peers applied_by (recorded w t) →
  c ≠ Bounded → (ack_write (wait_cluster_applied c has_leases caps coherent applied_by) c).1 = true →
  ∀ n, n ∈ peers → waits_on caps n = true → settled (mode n) n (booted n) (loop n) w t ev ∨ lapsed n.
Proof using.
  intros Hloops Ht Ha Hc Hr n Hn Hw.
  pose proof (reported_write_covered caps peers coherent applied_by (recorded w t) lapsed c has_leases Ht Ha) as H.
  cbn zeta in H. destruct (ack_write _ _) as [reported retires]. cbn [fst] in Hr. subst reported.
  destruct H as (_ & _ & H). destruct (H Hc eq_refl n Hn Hw) as [(t' & Hrec & Hle)|?]; [left|by right].
  destruct (Hloops n Hn) as (Hok & Hfresh & Hnone & Hrun & Hcarry).
  eapply published_settled; [done..|exact Hrec|reflexivity|exact Hle|done].
Qed.
End reported.

(** ** The reader's side *)

(** [C23] A barrier read is fresh.  When the freshness barrier passes, this node has settled
    every write up to the position each other member advertised; and when a client echoes
    the token it was given for a write of another node, that write, in every mode.  The
    frontier's answers are about positions the apply loop advanced it to. *)
Theorem barrier_read_fresh `{Layout} `{EtagParse} c me feed state stream l (reached : NodeId → WriteToken → bool) head members :
  stream_ok me stream → fresh_writes stream → (∀ peer, peer ≠ me → native_cuts state !! peer = None) →
  loop_run c me (start_apply me feed state stream) l →
  (∀ m h, reached m h = true → ∃ t', ActAdvance m t' ∈ lp_trace l ∧ position_le (position h) (position t') = true) →
  (await_fresh me (Some reached) head members = true →
   ∀ m h t ev, m ∈ members → m ≠ me → head m = Some h → position_le (position t) (position h) = true → carries stream m t ev →
     settled c me (start_apply me feed state stream) l m t ev) ∧
  (∀ w t ev, reached_token me (Some reached) (token_header w (tk_epoch t) (tk_seq t)) = true →
     0 <= tk_epoch t <= u64_max → 0 <= tk_seq t <= u64_max → w ≠ me → carries stream w t ev →
     settled c me (start_apply me feed state stream) l w t ev).
Proof.
  intros Hok Hfresh Hnone Hrun Hreached. split.
  - cbn [await_fresh]. induction members as [|m0 members IH]; cbn [await_members]; [by intros _ m h t ev ?%elem_of_nil|].
    intros Ha m h t ev Hin Hne Hh Hle Hcarry.
    assert (Hrest : await_members me reached head members = true).
    { destruct (bool_decide _); [done|]. destruct (head m0); [|done]. by destruct (reached _ _). }
    apply elem_of_cons in Hin as [->|Hin]; [|by eapply IH].
    rewrite bool_decide_eq_false_2, Hh in Ha by done. destruct (reached m0 h) eqn:Er; [|done].
    destruct (Hreached m0 h Er) as (t' & Hadv & Hle'). eapply published_settled; [done..|exact Hadv|reflexivity| |done].
    by eapply position_le_trans.
  - intros w t ev Hr He Hq Hne Hcarry. unfold reached_token in Hr. rewrite token_header_parses in Hr by done.
    rewrite bool_decide_eq_false_2 in Hr by done. destruct (Hreached w _ Hr) as (t' & Hadv & Hle).
    eapply published_settled; [done..|exact Hadv|reflexivity|exact Hle|done].
Qed.

(** ** A peer that acknowledged *)

#[local] Existing Instance layout64.
#[local] Existing Instance parse_quoted.
#[local] Instance leased_caps : Capabilities := { CAP_ACKS := "acks"; CAP_LEASE := "lease" }.

Definition demo_event : IndexEvent := mkEvent (OpPut (Some 3) None None None) "photos" "k" 4000.

Lemma demo_fresh : fresh_writes demo_stream.
Proof.
  repeat (apply SSorted_cons; [|repeat (apply Forall_cons; split; [by (intros _; first [exact I|right; split; [done|cbn; lia]])|]); apply Forall_nil; done]);
    constructor.
Qed.

Lemma demo_carries : carries demo_stream "b" (mkToken 9 1) demo_event.
Proof.
  intros pre e post E _ _. left. destruct pre as [|x pre]; injection E as <- _; [by left|by left].
Qed.

Lemma demo_recorded : ActRecord "b" (mkToken 9 1) ∈ lp_trace (demo_loop 10) ∧ ActAdvance "b" (mkToken 9 1) ∈ lp_trace (demo_loop 10).
Proof.
  assert (lp_trace (demo_loop 10) = take 8 (demo_stream ≫= script CStrong)) as -> by (vm_compute; reflexivity).
  cbn. split; [do 4 right; left|do 3 right; left].
Qed.

Lemma demo_applies : applies (λ _, CStrong) (λ _, mkFeed 7 None) (λ _, KeyIndexState_default) (λ _, demo_stream) (λ _, demo_loop 10)
  "b" (mkToken 9 1) demo_event "a".
Proof.
  split_and!; [apply demo_stream_ok|apply demo_fresh|intros peer _; apply lookup_empty|apply drain_run|apply demo_carries].
Qed.

Lemma reported_write_visible_witness :
  settled CStrong "a" (demo_loop 0) (demo_loop 10) "b" (mkToken 9 1) demo_event ∨ False.
Proof.
  refine (reported_write_visible CStrong true (λ _, capabilities CStrong) ["a"] AllApplied (λ _, true) (λ _, False)
    (λ _, CStrong) (λ _, mkFeed 7 None) (λ _, KeyIndexState_default) (λ _, demo_stream) (λ _, demo_loop 10)
    "b" (mkToken 9 1) demo_event _ _ _ _ _ "a" _ _).
  - intros n ->%list_elem_of_singleton. apply demo_applies.
  - intros n _ _. exists (mkToken 9 1). split; [apply demo_recorded|reflexivity].
  - intros sel n _ _ _. exists (mkToken 9 1). split; [apply demo_recorded|reflexivity].
  - discriminate.
  - reflexivity.
  - by left.
  - vm_compute. reflexivity.
Defined.

Lemma barrier_read_fresh_witness :
  settled CStrong "a" (demo_loop 0) (demo_loop 10) "b" (mkToken 9 1) demo_event.
Proof.
  pose (reached := λ (m : NodeId) (h : WriteToken), bool_decide (m = "b") && bool_decide (h = mkToken 9 1)).
  refine (proj1 (barrier_read_fresh CStrong "a" (mkFeed 7 None) KeyIndexState_default demo_stream (demo_loop 10) reached
    (λ _, Some (mkToken 9 1)) ["a"; "b"] demo_stream_ok demo_fresh _ (drain_run _ _ _ _) _) _ "b" (mkToken 9 1) (mkToken 9 1) demo_event _ _ _ _
    demo_carries).
  - intros peer _. apply lookup_empty.
  - intros m h. unfold reached. rewrite andb_true_iff, !bool_decide_eq_true. intros [-> ->]. exists (mkToken 9 1).
    split; [apply demo_recorded|reflexivity].
  - vm_compute. reflexivity.
  - right. by left.
  - discriminate.
  - reflexivity.
  - reflexivity.
Defined.
