(* ===== verification/Service.v ===== *)
(** * The service's operations

    src/src/cache/service.rs: the [s3s::S3] trait on the proxy.  Nine operations have a
    handler of their own ([ListIndex], [Mutation], [Proxy]); every other one is forwarded to
    the operation of its name on the upstream proxy, which is behind the [inner] parameter,
    like the handlers themselves.  Constructors are the trait's methods. *)

From S2P Require Import Prelude.
From S2P Require Import Origin.

Inductive S3Op :=
| ListObjectsV2 | PutObject | DeleteObject | DeleteObjects | CompleteMultipartUpload | CopyObject | GetObject
| HeadObject | DeleteBucket | AbortMultipartUpload | CreateBucket | CreateBucketMetadataTableConfiguration
| CreateMultipartUpload | CreateSession | DeleteBucketAnalyticsConfiguration | DeleteBucketCors
| DeleteBucketEncryption | DeleteBucketIntelligentTieringConfiguration | DeleteBucketInventoryConfiguration
| DeleteBucketLifecycle | DeleteBucketMetadataTableConfiguration | DeleteBucketMetricsConfiguration
| DeleteBucketOwnershipControls | DeleteBucketPolicy | DeleteBucketReplication | DeleteBucketTagging
| DeleteBucketWebsite | DeleteObjectTagging | DeletePublicAccessBlock | GetBucketAccelerateConfiguration
| GetBucketAcl | GetBucketAnalyticsConfiguration | GetBucketCors | GetBucketEncryption
| GetBucketIntelligentTieringConfiguration | GetBucketInventoryConfiguration | GetBucketLifecycleConfiguration
| GetBucketLocation | GetBucketLogging | GetBucketMetadataTableConfiguration | GetBucketMetricsConfiguration
| GetBucketNotificationConfiguration | GetBucketOwnershipControls | GetBucketPolicy | GetBucketPolicyStatus
| GetBucketReplication | GetBucketRequestPayment | GetBucketTagging | GetBucketVersioning | GetBucketWebsite
| GetObjectAcl | GetObjectAttributes | GetObjectLegalHold | GetObjectLockConfiguration | GetObjectRetention
| GetObjectTagging | GetObjectTorrent | GetPublicAccessBlock | HeadBucket | ListBucketAnalyticsConfigurations
| ListBucketIntelligentTieringConfigurations | ListBucketInventoryConfigurations | ListBucketMetricsConfigurations
| ListBuckets | ListDirectoryBuckets | ListMultipartUploads | ListObjectVersions | ListObjects | ListParts
| PutBucketAccelerateConfiguration | PutBucketAcl | PutBucketAnalyticsConfiguration | PutBucketCors
| PutBucketEncryption | PutBucketIntelligentTieringConfiguration | PutBucketInventoryConfiguration
| PutBucketLifecycleConfiguration | PutBucketLogging | PutBucketMetricsConfiguration
| PutBucketNotificationConfiguration | PutBucketOwnershipControls | PutBucketPolicy | PutBucketReplication
| PutBucketRequestPayment | PutBucketTagging | PutBucketVersioning | PutBucketWebsite | PutObjectAcl
| PutObjectLegalHold | PutObjectLockConfiguration | PutObjectRetention | PutObjectTagging | PutPublicAccessBlock
| RestoreObject | SelectObjectContent | UploadPart | UploadPartCopy | WriteGetObjectResponse.

#[global] Instance S3Op_eq_dec : EqDecision S3Op.
Proof. solve_decision. Defined.

Inductive Handler :=
| ServeList | ServePut | ServeDelete | ServeDeleteBatch | ServeComplete | ServeCopy | ServeGet | ServeHead
| ServeDeleteBucket.

Inductive Route := Handle (h : Handler) | Forward (upstream : S3Op).

Definition handler_of (op : S3Op) : option Handler :=
  match op with
  | ListObjectsV2 => Some ServeList
  | PutObject => Some ServePut
  | DeleteObject => Some ServeDelete
  | DeleteObjects => Some ServeDeleteBatch
  | CompleteMultipartUpload => Some ServeComplete
  | CopyObject => Some ServeCopy
  | GetObject => Some ServeGet
  | HeadObject => Some ServeHead
  | DeleteBucket => Some ServeDeleteBucket
  | _ => None
  end.

(** The upstream operation each method calls, in the order of the file. *)

Definition forward_uploads (op : S3Op) : option S3Op :=
  match op with
  | AbortMultipartUpload => Some AbortMultipartUpload
  | CreateBucket => Some CreateBucket
  | CreateBucketMetadataTableConfiguration => Some CreateBucketMetadataTableConfiguration
  | CreateMultipartUpload => Some CreateMultipartUpload
  | CreateSession => Some CreateSession
  | _ => None
  end.

Definition forward_delete (op : S3Op) : option S3Op :=
  match op with
  | DeleteBucketAnalyticsConfiguration => Some DeleteBucketAnalyticsConfiguration
  | DeleteBucketCors => Some DeleteBucketCors
  | DeleteBucketEncryption => Some DeleteBucketEncryption
  | DeleteBucketIntelligentTieringConfiguration => Some DeleteBucketIntelligentTieringConfiguration
  | DeleteBucketInventoryConfiguration => Some DeleteBucketInventoryConfiguration
  | DeleteBucketLifecycle => Some DeleteBucketLifecycle
  | DeleteBucketMetadataTableConfiguration => Some DeleteBucketMetadataTableConfiguration
  | DeleteBucketMetricsConfiguration => Some DeleteBucketMetricsConfiguration
  | DeleteBucketOwnershipControls => Some DeleteBucketOwnershipControls
  | DeleteBucketPolicy => Some DeleteBucketPolicy
  | DeleteBucketReplication => Some DeleteBucketReplication
  | DeleteBucketTagging => Some DeleteBucketTagging
  | DeleteBucketWebsite => Some DeleteBucketWebsite
  | DeleteObjectTagging => Some DeleteObjectTagging
  | DeletePublicAccessBlock => Some DeletePublicAccessBlock
  | _ => None
  end.

Definition forward_get (op : S3Op) : option S3Op :=
  match op with
  | GetBucketAccelerateConfiguration => Some GetBucketAccelerateConfiguration
  | GetBucketAcl => Some GetBucketAcl
  | GetBucketAnalyticsConfiguration => Some GetBucketAnalyticsConfiguration
  | GetBucketCors => Some GetBucketCors
  | GetBucketEncryption => Some GetBucketEncryption
  | GetBucketIntelligentTieringConfiguration => Some GetBucketIntelligentTieringConfiguration
  | GetBucketInventoryConfiguration => Some GetBucketInventoryConfiguration
  | GetBucketLifecycleConfiguration => Some GetBucketLifecycleConfiguration
  | GetBucketLocation => Some GetBucketLocation
  | GetBucketLogging => Some GetBucketLogging
  | GetBucketMetadataTableConfiguration => Some GetBucketMetadataTableConfiguration
  | GetBucketMetricsConfiguration => Some GetBucketMetricsConfiguration
  | GetBucketNotificationConfiguration => Some GetBucketNotificationConfiguration
  | GetBucketOwnershipControls => Some GetBucketOwnershipControls
  | GetBucketPolicy => Some GetBucketPolicy
  | GetBucketPolicyStatus => Some GetBucketPolicyStatus
  | GetBucketReplication => Some GetBucketReplication
  | GetBucketRequestPayment => Some GetBucketRequestPayment
  | GetBucketTagging => Some GetBucketTagging
  | GetBucketVersioning => Some GetBucketVersioning
  | GetBucketWebsite => Some GetBucketWebsite
  | _ => None
  end.

Definition forward_get_object (op : S3Op) : option S3Op :=
  match op with
  | GetObjectAcl => Some GetObjectAcl
  | GetObjectAttributes => Some GetObjectAttributes
  | GetObjectLegalHold => Some GetObjectLegalHold
  | GetObjectLockConfiguration => Some GetObjectLockConfiguration
  | GetObjectRetention => Some GetObjectRetention
  | GetObjectTagging => Some GetObjectTagging
  | GetObjectTorrent => Some GetObjectTorrent
  | GetPublicAccessBlock => Some GetPublicAccessBlock
  | HeadBucket => Some HeadBucket
  | _ => None
  end.

Definition forward_list (op : S3Op) : option S3Op :=
  match op with
  | ListBucketAnalyticsConfigurations => Some ListBucketAnalyticsConfigurations
  | ListBucketIntelligentTieringConfigurations => Some ListBucketIntelligentTieringConfigurations
  | ListBucketInventoryConfigurations => Some ListBucketInventoryConfigurations
  | ListBucketMetricsConfigurations => Some ListBucketMetricsConfigurations
  | ListBuckets => Some ListBuckets
  | ListDirectoryBuckets => Some ListDirectoryBuckets
  | ListMultipartUploads => Some ListMultipartUploads
  | ListObjectVersions => Some ListObjectVersions
  | ListObjects => Some ListObjects
  | ListParts => Some ListParts
  | _ => None
  end.

Definition forward_put (op : S3Op) : option S3Op :=
  match op with
  | PutBucketAccelerateConfiguration => Some PutBucketAccelerateConfiguration
  | PutBucketAcl => Some PutBucketAcl
  | PutBucketAnalyticsConfiguration => Some PutBucketAnalyticsConfiguration
  | PutBucketCors => Some PutBucketCors
  | PutBucketEncryption => Some PutBucketEncryption
  | PutBucketIntelligentTieringConfiguration => Some PutBucketIntelligentTieringConfiguration
  | PutBucketInventoryConfiguration => Some PutBucketInventoryConfiguration
  | PutBucketLifecycleConfiguration => Some PutBucketLifecycleConfiguration
  | PutBucketLogging => Some PutBucketLogging
  | PutBucketMetricsConfiguration => Some PutBucketMetricsConfiguration
  | PutBucketNotificationConfiguration => Some PutBucketNotificationConfiguration
  | PutBucketOwnershipControls => Some PutBucketOwnershipControls
  | PutBucketPolicy => Some PutBucketPolicy
  | PutBucketReplication => Some PutBucketReplication
  | PutBucketRequestPayment => Some PutBucketRequestPayment
  | PutBucketTagging => Some PutBucketTagging
  | PutBucketVersioning => Some PutBucketVersioning
  | PutBucketWebsite => Some PutBucketWebsite
  | PutObjectAcl => Some PutObjectAcl
  | PutObjectLegalHold => Some PutObjectLegalHold
  | PutObjectLockConfiguration => Some PutObjectLockConfiguration
  | PutObjectRetention => Some PutObjectRetention
  | PutObjectTagging => Some PutObjectTagging
  | PutPublicAccessBlock => Some PutPublicAccessBlock
  | _ => None
  end.

Definition forward_rest (op : S3Op) : option S3Op :=
  match op with
  | RestoreObject => Some RestoreObject
  | SelectObjectContent => Some SelectObjectContent
  | UploadPart => Some UploadPart
  | UploadPartCopy => Some UploadPartCopy
  | WriteGetObjectResponse => Some WriteGetObjectResponse
  | _ => None
  end.

Definition forwarded (op : S3Op) : option S3Op :=
  head (omap (λ family : S3Op → option S3Op, family op)
          [forward_uploads; forward_delete; forward_get; forward_get_object; forward_list; forward_put; forward_rest]).

Definition route (op : S3Op) : option Route :=
  match handler_of op with
  | Some h => Some (Handle h)
  | None => Forward <$> forwarded op
  end.

Section serve.
Context {Node Req Resp : Type} (inner : S3Op → Req → Resp) (handler : Handler → Node → Req → Resp * Node).

(** [None] is a method the implementation leaves to the trait's default. *)
Definition serve (n : Node) (op : S3Op) (req : Req) : option (Resp * Node) :=
  match route op with
  | Some (Handle h) => Some (handler h n req)
  | Some (Forward upstream) => Some (inner upstream req, n)
  | None => None
  end.

(** Every operation is served: by its handler when it has one, and otherwise exactly as the
    upstream operation of its name answers, with the node untouched. *)
Theorem serve_total (n : Node) (op : S3Op) (req : Req) :
  serve n op req = Some (match handler_of op with Some h => handler h n req | None => (inner op req, n) end).
Proof using. unfold serve, route. by destruct op. Qed.
End serve.

(** ** What the origin is told *)

(** The SDK's name of an operation, which its requests are accounted under (see [Origin]). *)
Definition sdk_name (op : S3Op) : string :=
  match op with
  | ListObjectsV2 => "ListObjectsV2"
  | PutObject => "PutObject"
  | DeleteObject => "DeleteObject"
  | DeleteObjects => "DeleteObjects"
  | CompleteMultipartUpload => "CompleteMultipartUpload"
  | CopyObject => "CopyObject"
  | GetObject => "GetObject"
  | HeadObject => "HeadObject"
  | DeleteBucket => "DeleteBucket"
  | AbortMultipartUpload => "AbortMultipartUpload"
  | CreateBucket => "CreateBucket"
  | CreateBucketMetadataTableConfiguration => "CreateBucketMetadataTableConfiguration"
  | CreateMultipartUpload => "CreateMultipartUpload"
  | CreateSession => "CreateSession"
  | DeleteBucketAnalyticsConfiguration => "DeleteBucketAnalyticsConfiguration"
  | DeleteBucketCors => "DeleteBucketCors"
  | DeleteBucketEncryption => "DeleteBucketEncryption"
  | DeleteBucketIntelligentTieringConfiguration => "DeleteBucketIntelligentTieringConfiguration"
  | DeleteBucketInventoryConfiguration => "DeleteBucketInventoryConfiguration"
  | DeleteBucketLifecycle => "DeleteBucketLifecycle"
  | DeleteBucketMetadataTableConfiguration => "DeleteBucketMetadataTableConfiguration"
  | DeleteBucketMetricsConfiguration => "DeleteBucketMetricsConfiguration"
  | DeleteBucketOwnershipControls => "DeleteBucketOwnershipControls"
  | DeleteBucketPolicy => "DeleteBucketPolicy"
  | DeleteBucketReplication => "DeleteBucketReplication"
  | DeleteBucketTagging => "DeleteBucketTagging"
  | DeleteBucketWebsite => "DeleteBucketWebsite"
  | DeleteObjectTagging => "DeleteObjectTagging"
  | DeletePublicAccessBlock => "DeletePublicAccessBlock"
  | GetBucketAccelerateConfiguration => "GetBucketAccelerateConfiguration"
  | GetBucketAcl => "GetBucketAcl"
  | GetBucketAnalyticsConfiguration => "GetBucketAnalyticsConfiguration"
  | GetBucketCors => "GetBucketCors"
  | GetBucketEncryption => "GetBucketEncryption"
  | GetBucketIntelligentTieringConfiguration => "GetBucketIntelligentTieringConfiguration"
  | GetBucketInventoryConfiguration => "GetBucketInventoryConfiguration"
  | GetBucketLifecycleConfiguration => "GetBucketLifecycleConfiguration"
  | GetBucketLocation => "GetBucketLocation"
  | GetBucketLogging => "GetBucketLogging"
  | GetBucketMetadataTableConfiguration => "GetBucketMetadataTableConfiguration"
  | GetBucketMetricsConfiguration => "GetBucketMetricsConfiguration"
  | GetBucketNotificationConfiguration => "GetBucketNotificationConfiguration"
  | GetBucketOwnershipControls => "GetBucketOwnershipControls"
  | GetBucketPolicy => "GetBucketPolicy"
  | GetBucketPolicyStatus => "GetBucketPolicyStatus"
  | GetBucketReplication => "GetBucketReplication"
  | GetBucketRequestPayment => "GetBucketRequestPayment"
  | GetBucketTagging => "GetBucketTagging"
  | GetBucketVersioning => "GetBucketVersioning"
  | GetBucketWebsite => "GetBucketWebsite"
  | GetObjectAcl => "GetObjectAcl"
  | GetObjectAttributes => "GetObjectAttributes"
  | GetObjectLegalHold => "GetObjectLegalHold"
  | GetObjectLockConfiguration => "GetObjectLockConfiguration"
  | GetObjectRetention => "GetObjectRetention"
  | GetObjectTagging => "GetObjectTagging"
  | GetObjectTorrent => "GetObjectTorrent"
  | GetPublicAccessBlock => "GetPublicAccessBlock"
  | HeadBucket => "HeadBucket"
  | ListBucketAnalyticsConfigurations => "ListBucketAnalyticsConfigurations"
  | ListBucketIntelligentTieringConfigurations => "ListBucketIntelligentTieringConfigurations"
  | ListBucketInventoryConfigurations => "ListBucketInventoryConfigurations"
  | ListBucketMetricsConfigurations => "ListBucketMetricsConfigurations"
  | ListBuckets => "ListBuckets"
  | ListDirectoryBuckets => "ListDirectoryBuckets"
  | ListMultipartUploads => "ListMultipartUploads"
  | ListObjectVersions => "ListObjectVersions"
  | ListObjects => "ListObjects"
  | ListParts => "ListParts"
  | PutBucketAccelerateConfiguration => "PutBucketAccelerateConfiguration"
  | PutBucketAcl => "PutBucketAcl"
  | PutBucketAnalyticsConfiguration => "PutBucketAnalyticsConfiguration"
  | PutBucketCors => "PutBucketCors"
  | PutBucketEncryption => "PutBucketEncryption"
  | PutBucketIntelligentTieringConfiguration => "PutBucketIntelligentTieringConfiguration"
  | PutBucketInventoryConfiguration => "PutBucketInventoryConfiguration"
  | PutBucketLifecycleConfiguration => "PutBucketLifecycleConfiguration"
  | PutBucketLogging => "PutBucketLogging"
  | PutBucketMetricsConfiguration => "PutBucketMetricsConfiguration"
  | PutBucketNotificationConfiguration => "PutBucketNotificationConfiguration"
  | PutBucketOwnershipControls => "PutBucketOwnershipControls"
  | PutBucketPolicy => "PutBucketPolicy"
  | PutBucketReplication => "PutBucketReplication"
  | PutBucketRequestPayment => "PutBucketRequestPayment"
  | PutBucketTagging => "PutBucketTagging"
  | PutBucketVersioning => "PutBucketVersioning"
  | PutBucketWebsite => "PutBucketWebsite"
  | PutObjectAcl => "PutObjectAcl"
  | PutObjectLegalHold => "PutObjectLegalHold"
  | PutObjectLockConfiguration => "PutObjectLockConfiguration"
  | PutObjectRetention => "PutObjectRetention"
  | PutObjectTagging => "PutObjectTagging"
  | PutPublicAccessBlock => "PutPublicAccessBlock"
  | RestoreObject => "RestoreObject"
  | SelectObjectContent => "SelectObjectContent"
  | UploadPart => "UploadPart"
  | UploadPartCopy => "UploadPartCopy"
  | WriteGetObjectResponse => "WriteGetObjectResponse"
  end.

(** The writes whose refusals are accounted as declined object writes are the handled ones and
    the two part uploads, which change no object until their upload is completed. *)
Lemma object_writes_handled (op : S3Op) :
  is_object_write (sdk_name op) = true → op = UploadPart ∨ op = UploadPartCopy ∨ is_Some (handler_of op).
Proof. destruct op; try discriminate; intros _; first [by left|by right; left|right; right; by eexists]. Qed.
