(* ===== verification/Startup.v ===== *)
(** * Starting coherence

    How a node gets its recovery driver and its apply loop: the recovery options of
    src/src/cache/proxy.rs, [start_coherence] and [start_fleet_coherence], the openings of
    src/src/sync/volatile.rs and src/src/sync/volatile/fleet/runtime.rs, the attachment and the recovery handle of
    src/src/sync/coherence.rs and the choice in src/src/main.rs.  What [groupnet] accepts and
    what its calls answer are parameters; the calls a start makes are its trace, and a failed
    [expect] or [assert] is [None]. *)

From S2P Require Import Prelude.
From S2P Require Import Coherence.
From S2P Require Import Scan.
From S2P Require Import KeyIndex.
From S2P Require Import Donor.
From S2P Require Import FollowerPort.
From S2P Require Import FleetConfig.
From S2P Require Import FleetProps.
From S2P Require Import Recovery.
From S2P Require Import RecoveryProps.
From S2P Require Import Apply.

(** ** Options *)

Record RecoveryRearm := mkRearm { rr_initial_ms : Z; rr_max_ms : Z }.
Inductive RecoveryError := InvalidConfig | Stage.

(** [groupnet]'s validation of its own configuration types. *)
Class RecoveryLimits := { valid_config : RecoveryConfig → bool; valid_rearm : RecoveryRearm → bool }.

(** The options of the proxy. *)
Record Options := mkOptions {
  op_scan : ScanConfig;
  op_recovery : option RecoveryConfig;
  op_rearm : option RecoveryRearm;
  op_fleet : option FleetConfig;
}.

Definition with_index_scan (o : Options) (config : ScanConfig) : Options := mkOptions config (op_recovery o) (op_rearm o) (op_fleet o).
Definition with_fleet_config (o : Options) (fleet : FleetConfig) : Options := mkOptions (op_scan o) (op_recovery o) (op_rearm o) (Some fleet).

(** A node's gossip side: its mode, its lease and its group's anti-entropy interval, in
    milliseconds. *)
Record SyncConfig := mkSync { sy_mode : Consistency; sy_lease_ms : Z; sy_anti_entropy_ms : Z }.

Section options.
Context `{RecoveryLimits}.

Definition with_recovery_config (sync : option SyncConfig) (o : Options) (config : RecoveryConfig) : result RecoveryError Options :=
  if negb (valid_config config) then Err InvalidConfig
  else if is_some_and (λ s, rc_settle_ms config <? settle_floor_ms (sy_anti_entropy_ms s)) sync then Err InvalidConfig
  else Ok (mkOptions (op_scan o) (Some config) (op_rearm o) (op_fleet o)).

Definition with_recovery_rearm (o : Options) (policy : RecoveryRearm) : result RecoveryError Options :=
  if negb (valid_rearm policy) then Err InvalidConfig
  else Ok (mkOptions (op_scan o) (op_recovery o) (Some policy) (op_fleet o)).

(** [main]'s fixed policy. *)
Definition RECOVERY_REARM_INITIAL_MS : Z := 5000.
Definition RECOVERY_REARM_MAX_MS : Z := 60000.
Definition configure_recovery_rearm (o : Options) (enabled : bool) : option Options :=
  if negb enabled then Some o
  else match with_recovery_rearm o (mkRearm RECOVERY_REARM_INITIAL_MS RECOVERY_REARM_MAX_MS) with
       | Ok o => Some o
       | Err _ => None
       end.
End options.

(** ** The node's recovery state *)

Inductive StartCall :=
| CSpawnAnnounce
| CAnnounce
(** [RecoveryHandle::open], with the rearm policy when there is one. *)
| COpenOrigin (config : RecoveryConfig) (mode : RecoveryMode) (session : Z) (rearm : option RecoveryRearm)
(** [fleet::open_recovery]: [true] when it returned a driver with its listener. *)
| COpenFleet (config : RecoveryConfig) (mode : RecoveryMode) (session : Z) (rearm : option RecoveryRearm) (opened : bool)
| CInstallRecovery
| CSetListener
| CStartApply
| CWatchReady.

(** The write-once cells of [WriteSync] the start fills, and the process's session counter. *)
Record Started := mkStarted {
  st_recovery : bool;
  st_listener : bool;
  st_view : bool;
  st_session : Z;
  st_calls : list StartCall;
}.

(** [attach]: the calls of the constructor, in order, and the write wait.  The lease set
    exists before the advertisement that promises it. *)
Inductive AttachCall := ANewFeed | ANewLeases | ADeclare (caps : list string).
Definition WRITE_WAIT_SLACK_MS : Z := 1000.
Definition attach `{Capabilities} (c : Consistency) (lease_ms : Z) : list AttachCall * Z :=
  ([ANewFeed] ++ (if leases c then [ANewLeases] else []) ++ [ADeclare (capabilities c)], lease_ms + WRITE_WAIT_SLACK_MS).

Definition attached (session : Z) : Started := mkStarted false false false session [].

Definition called (r : Started) (calls : list StartCall) : Started :=
  mkStarted (st_recovery r) (st_listener r) (st_view r) (st_session r) (st_calls r ++ calls).

(** [assert!(self.recovery.set(recovery).is_ok())] and the listener's [expect]. *)
Definition install_recovery (r : Started) : option Started :=
  if st_recovery r then None
  else Some (called (mkStarted true (st_listener r) (st_view r) (st_session r) (st_calls r)) [CInstallRecovery]).
Definition set_listener (r : Started) : option Started :=
  if st_listener r then None
  else Some (called (mkStarted (st_recovery r) true (st_view r) (st_session r) (st_calls r)) [CSetListener]).

(** The loop's start: a view already set is kept ([let _ = self.view.set(view)]). *)
Definition start_coherence_apply (r : Started) : Started :=
  called (mkStarted (st_recovery r) (st_listener r) true (st_session r) (st_calls r)) [CStartApply].

Definition has_recovery (r : Started) : bool := st_recovery r.

(** [restart] is the handle's answer. *)
Definition restart_recovery (r : Started) (restart : result RecoveryError unit) : result RecoveryError unit :=
  if st_recovery r then restart else Err Stage.
Definition restart_coherence (sync : option Started) (restart : result RecoveryError unit) : result RecoveryError unit :=
  match sync with None => Err Stage | Some r => restart_recovery r restart end.

(** [mark] is [LeaseView::mark_caught_up], [None] without a lease view. *)
Definition affirm_lease_now (r : Started) (mark : option bool) : bool := st_view r && is_none_or id mark.

(** ** The adapter's smaller callbacks *)

(** [invalidate]: the body generation, when the permit still publishes. *)
Definition invalidate (permitted distrust_bodies : bool) (suspect_gen : Z) : result unit Z :=
  if permitted then Ok (if distrust_bodies then wrapping_add u64_max suspect_gen 1 else suspect_gen) else Err tt.

(** ** The fleet's data plane *)

(** What [groupnet] and the system answer while it is assembled; [fa_handle] is
    [RecoveryHandle::open_with_bootstrap]. *)
Record FleetAnswers := mkFleetAnswers {
  fa_claim_valid : BootstrapConfig → bool;
  fa_transfer_valid : TransferConfig → bool;
  fa_limits_valid : BulkLimits → bool;
  fa_admission : AdmissionLimits → bool;
  fa_suffix_bytes : option Z;
  fa_draws : option bytes * option bytes;
  fa_bind : Addr.SocketAddr → bool;
  fa_register : string → string → bool;
  fa_claims : bool;
  fa_donor : bool;
  fa_session : bool;
  fa_listener : bool;
  fa_handle : bool;
}.

(** [fleet::open_recovery]: whether a driver and its listener came of it. *)
Definition fleet_opens (me : string) (ans : FleetAnswers) (fleet : option FleetConfig) (buckets : list string) (config : RecoveryConfig) : bool :=
  match fleet with
  | None => false
  | Some fleet =>
      is_ok (_ ← map_err (λ _, tt) (scope fleet buckets);
             claim ← ok_or (claim_config config) tt;
             _ ← refuse_if (negb (fa_claim_valid ans claim)) tt;
             _ ← refuse_if (negb (fa_transfer_valid ans transfer_config)) tt;
             _ ← refuse_if (negb (fa_limits_valid ans bulk_limits)) tt;
             _ ← refuse_if (negb (fa_admission ans admission_limits)) tt;
             suffix ← ok_or (fa_suffix_bytes ans) tt;
             _ ← refuse_if (32 * 2 ^ 20 <? suffix) tt;
             _ ← map_err (λ _, tt) (fresh_boot (fa_draws ans).1 (fa_draws ans).2);
             _ ← refuse_if (negb (fa_bind ans (fc_bind fleet))) tt;
             _ ← refuse_if (existsb (λ '(name, address), negb (bool_decide (name = me)) && negb (fa_register ans name address)) (fc_peers fleet)) tt;
             _ ← refuse_if (negb (fa_claims ans)) tt;
             _ ← port_new (fc_buckets fleet);
             _ ← refuse_if (negb (fa_donor ans)) tt;
             _ ← refuse_if (negb (fa_session ans)) tt;
             _ ← refuse_if (negb (fa_listener ans)) tt;
             refuse_if (negb (fa_handle ans)) tt)
  end.

(** The listener's task when the listener fails: the liveness flag and the index. *)
Definition listener_stopped (live : KeyIndexState) : bool * KeyIndexState := (false, (retire_fleet_service live).2).

(** ** The openings *)

Section start.
(** Whether [RecoveryHandle::open] accepts a configuration, and the answers to the fleet. *)
Context (accepts : RecoveryConfig → RecoveryMode → bool) (me : string) (answers : FleetAnswers).

Definition open_origin (prepared : RecoveryConfig * RecoveryMode) (session : Z) (rearm : option RecoveryRearm) : option StartCall :=
  if accepts prepared.1 prepared.2 then Some (COpenOrigin prepared.1 prepared.2 session rearm) else None.

(** The session a preparation takes and the counter after it. *)
Definition next_session (r : Started) : Z * Started :=
  (st_session r, mkStarted (st_recovery r) (st_listener r) (st_view r) (wrapping_add u64_max (st_session r) 1) (st_calls r)).

Definition prepare (s : SyncConfig) (o : Options) (buckets : list string) : option (RecoveryConfig * RecoveryMode) :=
  prepare_recovery buckets (sy_mode s) (sy_lease_ms s) (sy_anti_entropy_ms s) (op_recovery o).

Definition open_recovery (s : SyncConfig) (o : Options) (buckets : list string) (r : Started) : option Started :=
  prepared ← prepare s o buckets;
  let '(session, r) := next_session r in
  call ← open_origin prepared session (op_rearm o);
  install_recovery (called r [call]).

Definition open_fleet_recovery (s : SyncConfig) (o : Options) (buckets : list string) (r : Started) : option Started :=
  prepared ← prepare s o buckets;
  let '(session, r) := next_session r in
  let opened := fleet_opens me answers (op_fleet o) buckets prepared.1 in
  let r := called r [COpenFleet prepared.1 prepared.2 session (op_rearm o) opened] in
  if opened then r ← install_recovery r; set_listener r
  else
    call ← open_origin prepared session (op_rearm o);
    install_recovery (called r [call]).

(** [None] for the sync is a node without gossip: a start does nothing. *)
Definition start_coherence (sync : option SyncConfig) (o : Options) (buckets : list string) (r : Started) : option Started :=
  match sync with
  | None => Some r
  | Some s =>
      r ← open_recovery s o buckets (called r [CSpawnAnnounce]);
      Some (called (start_coherence_apply r) [CWatchReady])
  end.

Definition start_fleet_coherence (sync : option SyncConfig) (o : Options) (buckets : list string) (r : Started) : option Started :=
  match sync with
  | None => Some r
  | Some s =>
      r ← open_fleet_recovery s o buckets (called r [CAnnounce]);
      Some (called (start_coherence_apply r) [CWatchReady])
  end.

(** [main]'s choice: [fleet] is what the peer book's parser answered. *)
Definition main_start {E} (sync : option SyncConfig) (o : Options) (fleet : result E (option FleetConfig)) (buckets : list string) (r : Started)
    : option (Options * Started) :=
  match fleet with
  | Ok (Some fleet) =>
      let o := with_fleet_config o fleet in
      r ← start_fleet_coherence sync o buckets r; Some (o, r)
  | Ok None | Err _ => r ← start_coherence sync o buckets r; Some (o, r)
  end.
End start.

(** ** What a start leaves behind *)

(** Options as the builders make them. *)
Inductive built `{RecoveryLimits} (sync : option SyncConfig) : Options → Prop :=
| built_default scan : built sync (mkOptions scan None None None)
| built_scan o config : built sync o → built sync (with_index_scan o config)
| built_recovery o config o' : built sync o → with_recovery_config sync o config = Ok o' → built sync o'
| built_rearm o policy o' : built sync o → with_recovery_rearm o policy = Ok o' → built sync o'
| built_fleet o fleet : built sync o → built sync (with_fleet_config o fleet).

Section facts.
Context `{RecoveryLimits}.
Context (accepts : RecoveryConfig → RecoveryMode → bool) (me : string) (answers : FleetAnswers).

Lemma built_floor s o config :
  built (Some s) o → op_recovery o = Some config → settle_floor_ms (sy_anti_entropy_ms s) <= rc_settle_ms config.
Proof using.
  intros Hb. revert config. induction Hb as [scan|o c _ IH|o c o' _ IH E|o p o' _ IH E|o f _ IH]; intros config Hc; cbn in *; try auto; [done|..].
  - unfold with_recovery_config in E. destruct (negb _); [done|]. cbn [is_some_and] in E.
    destruct (Z.ltb_spec (rc_settle_ms c) (settle_floor_ms (sy_anti_entropy_ms s))); [done|]. injection E as <-. cbn in Hc. by injection Hc as <-.
  - unfold with_recovery_rearm in E. destruct (negb _); [done|]. injection E as <-. cbn in Hc. auto.
Qed.

(** The settle window covers two anti-entropy periods however it was configured, and the
    default one a lease and half of the time the recovery has. *)
Lemma prepared_settles s o buckets config mode :
  built (Some s) o → prepare s o buckets = Some (config, mode) →
  settle_floor_ms (sy_anti_entropy_ms s) <= rc_settle_ms config ∧
  (op_recovery o = None → 0 <= sy_lease_ms s <= u64_max → sy_lease_ms s <= rc_settle_ms config ∧
     saturating_mul u64_max (rc_settle_ms config) 2 <= rc_total_ms config ∧ 5000 <= rc_total_ms config) ∧
  (mode = Leased ↔ sy_mode s = CStrong) ∧ Z.of_nat (length buckets) <= MAX_RECOVERY_BUCKETS.
Proof using.
  intros Hb. unfold prepare, prepare_recovery. destruct (Z.ltb_spec MAX_RECOVERY_BUCKETS (Z.of_nat (length buckets))); [done|].
  intros [= <- <-]. split_and!; [| | |done].
  - destruct (op_recovery o) as [c|] eqn:Ec; [by eapply built_floor|]. cbn [default rc_settle_ms from_option]. lia.
  - intros -> Hl. assert (Hd : default 2000 (try_from u64_max (sy_lease_ms s)) = sy_lease_ms s).
    { unfold try_from, fits. by rewrite (proj2 (Z.leb_le 0 _)), (proj2 (Z.leb_le _ u64_max)) by lia. }
    rewrite Hd. cbn [default from_option rc_settle_ms rc_total_ms]. lia.
  - case_bool_decide; naive_solver.
Qed.

Lemma install_Some r r' : install_recovery r = Some r' →
  st_recovery r = false ∧ r' = mkStarted true (st_listener r) (st_view r) (st_session r) (st_calls r ++ [CInstallRecovery]).
Proof using. unfold install_recovery. destruct (st_recovery r); [done|]. by intros [= <-]. Qed.

(** The calls of an opening: every configuration opened is the prepared one, and the driver
    is installed once. *)
Lemma open_recovery_Some s o buckets r r' :
  open_recovery accepts s o buckets r = Some r' →
  ∃ config mode, prepare s o buckets = Some (config, mode) ∧ st_recovery r = false ∧ st_recovery r' = true ∧
    st_calls r' = st_calls r ++ [COpenOrigin config mode (st_session r) (op_rearm o); CInstallRecovery].
Proof using.
  unfold open_recovery. destruct (prepare s o buckets) as [[config mode]|]; [|done]. cbn [mbind option_bind next_session].
  unfold open_origin. cbn [fst snd]. destruct (accepts config mode); [|done]. cbn [mbind option_bind]. intros [Hr ->]%install_Some.
  cbn [called st_recovery st_calls] in *. exists config, mode. by rewrite <- app_assoc.
Qed.

Lemma open_fleet_Some s o buckets r r' :
  open_fleet_recovery accepts me answers s o buckets r = Some r' →
  ∃ config mode tail, prepare s o buckets = Some (config, mode) ∧ st_recovery r = false ∧ st_recovery r' = true ∧
    let opened := fleet_opens me answers (op_fleet o) buckets config in
    st_calls r' = st_calls r ++ COpenFleet config mode (st_session r) (op_rearm o) opened :: tail ∧
    tail = if opened then [CInstallRecovery; CSetListener]
           else [COpenOrigin config mode (st_session r) (op_rearm o); CInstallRecovery].
Proof using.
  unfold open_fleet_recovery. destruct (prepare s o buckets) as [[config mode]|]; [|done]. cbn [mbind option_bind next_session].
  cbn [fst snd]. destruct (fleet_opens me answers (op_fleet o) buckets config) eqn:Ef.
  - intros (r1 & [Hr ->]%install_Some & Hl)%bind_Some. unfold set_listener in Hl. cbn [st_listener] in Hl.
    destruct (st_listener _); [done|]. injection Hl as <-. cbn [called st_recovery st_calls] in *.
    exists config, mode, [CInstallRecovery; CSetListener]. rewrite Ef. by rewrite <- !app_assoc.
  - unfold open_origin. cbn [fst snd]. destruct (accepts config mode); [|done]. cbn [mbind option_bind]. intros [Hr ->]%install_Some.
    cbn [called st_recovery st_calls] in *. eexists config, mode, _. rewrite Ef. split_and!; [done..| |reflexivity]. by rewrite <- !app_assoc.
Qed.

(** A start that returns, of either kind, has announced this life first, opened its recovery
    only with the prepared configuration, and installed the driver before the apply loop and
    the readiness watch began: a gap the loop meets always has a driver to call, and the
    lapse watcher, which ends when it finds none, does not end for that.  It starts at most
    once: a second start ends in the failed assertion. *)
Theorem start_sound s o buckets session fleet r :
  built (Some s) o →
  (if (fleet : bool) then start_fleet_coherence accepts me answers (Some s) o buckets (attached session)
   else start_coherence accepts (Some s) o buckets (attached session)) = Some r →
  st_recovery r = true ∧ st_view r = true ∧
  (∃ opened, st_calls r = (if fleet then CAnnounce else CSpawnAnnounce) :: opened ++ [CStartApply; CWatchReady] ∧
     CInstallRecovery ∈ opened ∧ CStartApply ∉ opened) ∧
  (∀ config mode n rearm, COpenOrigin config mode n rearm ∈ st_calls r ∨ (∃ b, COpenFleet config mode n rearm b ∈ st_calls r) →
     settle_floor_ms (sy_anti_entropy_ms s) <= rc_settle_ms config ∧ (mode = Leased ↔ sy_mode s = CStrong) ∧ n = session) ∧
  start_coherence accepts (Some s) o buckets r = None ∧ start_fleet_coherence accepts me answers (Some s) o buckets r = None.
Proof using.
  intros Hb Hs.
  assert (Hsum : st_recovery r = true ∧ st_view r = true ∧ ∃ config mode opened, prepare s o buckets = Some (config, mode) ∧
    st_calls r = (if fleet then CAnnounce else CSpawnAnnounce) :: opened ++ [CStartApply; CWatchReady] ∧
    CInstallRecovery ∈ opened ∧
    Forall (λ call, call = CInstallRecovery ∨ call = CSetListener ∨ call = COpenOrigin config mode session (op_rearm o) ∨
                    ∃ b, call = COpenFleet config mode session (op_rearm o) b) opened).
  { destruct fleet; [unfold start_fleet_coherence in Hs|unfold start_coherence in Hs]; apply bind_Some in Hs as (r1 & Ho & [= <-]).
    - apply open_fleet_Some in Ho as (config & mode & tail & Hp & _ & Hrec & Hcalls & Ht). cbn in Hrec |- *. split_and!; [done|done|].
      cbn [called attached st_calls st_session app] in Hcalls, Ht. set (b := fleet_opens _ _ _ _ _) in Hcalls, Ht.
      exists config, mode, (COpenFleet config mode session (op_rearm o) b :: tail). rewrite Hcalls. split_and!; [done|..].
      + cbn [app]. by rewrite <- app_assoc.
      + right. subst tail. destruct b; [by left|right; by left].
      + constructor; [right; right; right; by eexists|]. subst tail. destruct b; rewrite !Forall_cons; auto 6.
    - apply open_recovery_Some in Ho as (config & mode & Hp & _ & Hrec & Hcalls). cbn in Hrec |- *. split_and!; [done|done|].
      cbn [called attached st_calls st_session app] in Hcalls.
      exists config, mode, [COpenOrigin config mode session (op_rearm o); CInstallRecovery]. rewrite Hcalls.
      split_and!; [done|reflexivity|right; by left|]. rewrite !Forall_cons; auto 8. }
  destruct Hsum as (Hrec & Hview & config & mode & opened & Hp & Hcalls & Hin & Hall).
  destruct (prepared_settles s o buckets config mode Hb Hp) as (Hfloor & _ & Hmode & _). split_and!; [done|done|..].
  - exists opened. split_and!; [done..|]. intros Hx. rewrite Forall_forall in Hall. by destruct (Hall _ Hx) as [?|[?|[?|[? ?]]]].
  - intros c' m' n rearm Hc. rewrite Hcalls in Hc. rewrite Forall_forall in Hall.
    assert (Hcase : ∀ call, call ∈ (if fleet then CAnnounce else CSpawnAnnounce) :: opened ++ [CStartApply; CWatchReady] →
      call = CAnnounce ∨ call = CSpawnAnnounce ∨ call = CStartApply ∨ call = CWatchReady ∨ call ∈ opened).
    { intros call [->|[Hc'|Hc']%elem_of_app]%elem_of_cons; [destruct fleet; auto|auto|]. rewrite !elem_of_cons, elem_of_nil in Hc'. naive_solver. }
    destruct Hc as [Hc|[b Hc]]; apply Hcase in Hc; (destruct Hc as [?|[?|[?|[?|Hc]]]]; try done);
      destruct (Hall _ Hc) as [E|[E|[E|[b' E]]]]; try done; by injection E as -> -> -> _.
  - destruct (start_coherence accepts (Some s) o buckets r) as [r2|] eqn:E; [|done]. unfold start_coherence in E.
    apply bind_Some in E as (r1 & (c2 & m2 & _ & Hf & _)%open_recovery_Some & _). cbn in Hf. congruence.
  - destruct (start_fleet_coherence accepts me answers (Some s) o buckets r) as [r2|] eqn:E; [|done]. unfold start_fleet_coherence in E.
    apply bind_Some in E as (r1 & (c2 & m2 & t2 & _ & Hf & _)%open_fleet_Some & _). cbn in Hf. congruence.
Qed.

(** No start affirms a lease before its apply loop runs. *)
Lemma affirm_after_apply r mark : affirm_lease_now r mark = true → st_view r = true.
Proof using. unfold affirm_lease_now. by intros [? _]%andb_true_iff. Qed.
End facts.

(** ** The fleet's data plane: what it needs and what it does *)

(** It opens only for a book whose inventory is the one recovery was given, within the
    image's cap of 256 buckets, and with a claim budget of at least five seconds. *)
Lemma fleet_opens_needs me answers fleet buckets config :
  fleet_opens me answers fleet buckets config = true →
  ∃ book, fleet = Some book ∧ is_ok (scope book buckets) = true ∧ 5000 <= rc_total_ms config ∧
    Z.of_nat (length (fc_buckets book)) <= 256 ∧ fa_bind answers (fc_bind book) = true ∧ fa_handle answers = true.
Proof.
  unfold fleet_opens. destruct fleet as [book|]; [|done]. intros H. exists book. split; [done|].
  destruct (scope book buckets); [|done]. split; [done|].
  unfold claim_config in H. cbn [map_err mbind result_bind] in H.
  destruct (Z.leb_spec 5000 (Z.min (rc_total_ms config) 60000)); [|done].
  cbn [ok_or mbind result_bind] in H.
  repeat match goal with
  | H : context [mbind _ (refuse_if ?b tt)] |- _ => destruct b eqn:?; cbn [refuse_if mbind result_bind] in H; [done|]
  | H : context [mbind _ (ok_or ?o tt)] |- _ => destruct o eqn:?; cbn [ok_or mbind result_bind] in H; [|done]
  | H : context [mbind _ (map_err _ ?o)] |- _ => destruct o eqn:?; cbn [map_err mbind result_bind] in H; [|done]
  | H : context [mbind _ (port_new ?o)] |- _ => destruct (port_new o) eqn:?; cbn [mbind result_bind] in H; [|done]
  end.
  split_and!; [lia|..].
  - match goal with E : port_new _ = Ok _ |- _ => unfold port_new in E; apply bind_ok in E as (? & E & _) end.
    match goal with E : refuse_if _ _ = Ok _ |- _ => apply refuse_if_ok in E; rewrite !orb_false_iff, Z.ltb_ge in E; apply E end.
  - by apply negb_false_iff.
  - by destruct (fa_handle answers).
Qed.

#[local] Instance all_valid : RecoveryLimits := { valid_config _ := true; valid_rearm _ := true }.

Definition demo_answers (bind : bool) : FleetAnswers :=
  mkFleetAnswers (λ _, true) (λ _, true) (λ _, true) (λ _, true) (Some 1000) (Some [Byte.x07], None) (λ _, bind) (λ _ _, true)
    true true true true true.

Definition demo_options : Options := with_fleet_config (mkOptions (mkScanConfig 1 1) None None None) demo_fleet.

(** A node whose peer book opens, and one whose socket is taken and which recovers from
    the origin. *)
Example fleet_starts :
  let s := mkSync CStrong 2000 1000 in
  let c := mkRecoveryConfig 256 256 4 600000 60000 2000 100 in
  st_calls <$> start_fleet_coherence (λ _ _, true) "node-0" (demo_answers true) (Some s) demo_options ["logs"; "bucket"] (attached 1) =
    Some [CAnnounce; COpenFleet c Leased 1 None true; CInstallRecovery; CSetListener; CStartApply; CWatchReady] ∧
  st_calls <$> start_fleet_coherence (λ _ _, true) "node-0" (demo_answers false) (Some s) demo_options ["logs"; "bucket"] (attached 1) =
    Some [CAnnounce; COpenFleet c Leased 1 None false; COpenOrigin c Leased 1 None; CInstallRecovery; CStartApply; CWatchReady].
Proof. vm_compute. by split. Qed.
