(* ===== verification/Gossip.v ===== *)
(** * Joining the gossip group

    src/src/sync/config.rs: from the configuration to an attached node.  The transport, its
    address and what the lease tier makes of a duration are arguments; the calls that build
    the node are a trace. *)

From S2P Require Import Prelude.
From S2P Require Import Config.
From S2P Require Import Coherence.
From S2P Require Import Lifecycle.
From S2P Require Import Startup.

(** ** Seeds *)

Inductive SeedEvent := SeedResolved (node addr : string) (previous : option string) | SeedUnresolved (node name : string).

(** [unmet] is the readiness set, [None] before the node is attached. *)
Definition observe_seed (event : SeedEvent) (unmet : option (list string)) : option (list string) :=
  match event with
  | SeedResolved _ _ _ => unmet
  | SeedUnresolved node _ => (λ unmet, give_up_on unmet node) <$> unmet
  end.

(** The resolver's rounds, in milliseconds. *)
Definition SEED_RESOLVE_ATTEMPTS : Z := 30.
Definition SEED_RETRY_MS : Z := 1000.
Definition SEED_REFRESH_MS : Z := 15000.
Record Resolution := mkResolution { re_retry_ms : Z; re_attempts : Z; re_refresh_ms : Z; re_seeds : list (string * string) }.
Definition seed_resolution : Resolution := mkResolution SEED_RETRY_MS SEED_RESOLVE_ATTEMPTS SEED_REFRESH_MS [].
Definition add_seed (r : Resolution) (id addr : string) : Resolution :=
  mkResolution (re_retry_ms r) (re_attempts r) (re_refresh_ms r) (re_seeds r ++ [(id, addr)]).

(** ** Binding *)

Inductive BindCall :=
(** [named_seeds], [advertise_addr] and [spawn] of the node's builder. *)
| BSpawn (me : string) (dead_timeout : Z) (seeds : Resolution) (advertise : option string)
(** The same over a transport that needs no resolver. *)
| BSpawnOver (me : string) (dead_timeout : Z) (seeds : list string)
| BJoin (group : string)
| BAttach (call : AttachCall).

(** A node in its group: its mode, its lease, the wait of its writes and its readiness set. *)
Record Gossip := mkGossip {
  go_me : string;
  go_consistency : Consistency;
  go_lease_ms : Z;
  go_write_wait_ms : Z;
  go_unmet : list string;
  go_calls : list BindCall;
}.

Section bind.
Context `{Capabilities}.
(** The duration of [LeaseConfig::for_duration]. *)
Context (for_duration : Z → Z).

Definition lease_config (lease_ms : Z) : Z := for_duration lease_ms.

(** [attach] and [expect_seeds] of a spawned node. *)
Definition attach_node (me : string) (c : Consistency) (lease_ms : Z) (seeds : list string) (calls : list BindCall) : Gossip :=
  let '(attach_calls, write_wait) := attach c (lease_config lease_ms) in
  mkGossip me c (lease_config lease_ms) write_wait (expect_seeds [] seeds) (calls ++ [BJoin "s3cache"] ++ (BAttach <$> attach_calls)).

(** [transport] is the bound socket: [None] when it could not be bound, and its own address
    when it knows it. *)
Definition bind (cfg : Config.SyncConfig) (resolution : Resolution) (transport : option (option string)) : option Gossip :=
  local_addr ← transport;
  let advertise := match sc_advertise cfg with Some a => Some a | None => local_addr end in
  let resolution := foldl (λ r '(id, addr), add_seed r id addr) resolution (sc_seeds cfg) in
  Some (attach_node (sc_node_id cfg) (sc_consistency cfg) (sc_lease_ms cfg) (expected_seeds cfg)
          [BSpawn (sc_node_id cfg) (dead_timeout_ms (sc_lease_ms cfg)) resolution advertise]).

Definition new_sync (cfg : Config.SyncConfig) (transport : option (option string)) : option Gossip :=
  bind cfg seed_resolution transport.

Definition over_transport (node_id : string) (seeds : list string) (c : Consistency) (lease_ms : Z) : Gossip :=
  let seeds := filter (λ seed, seed ≠ node_id) seeds in
  attach_node node_id c lease_ms seeds [BSpawnOver node_id (dead_timeout_ms lease_ms) seeds].

(** [from_env]; [transport] is what binding the configured address answers. *)
Definition gossip_from_env (env : string → option string) (node_name : string) (transport : string → option (option string)) : option Gossip :=
  cfg ← sync_config env node_name;
  new_sync cfg (transport (sc_bind cfg)).
End bind.

(** ** What a node joins with *)

Lemma add_seeds r seeds :
  foldl (λ r '(id, addr), add_seed r id addr) r seeds = mkResolution (re_retry_ms r) (re_attempts r) (re_refresh_ms r) (re_seeds r ++ seeds).
Proof.
  revert r. induction seeds as [|[id addr] seeds IH]; intros r; cbn [foldl]; [by rewrite app_nil_r; destruct r|].
  rewrite IH. cbn [add_seed re_retry_ms re_attempts re_refresh_ms re_seeds]. by rewrite <- app_assoc.
Qed.

Lemma attach_wait `{Capabilities} c lease_ms : (attach c lease_ms).2 = lease_ms + WRITE_WAIT_SLACK_MS.
Proof. done. Qed.

(** After a seed event the readiness set holds no seed it did not hold. *)
Lemma observe_seed_shrinks event unmet unmet' seed :
  observe_seed event (Some unmet) = Some unmet' → seed ∈ unmet' →
  seed ∈ unmet ∧ (∀ name, event ≠ SeedUnresolved seed name).
Proof.
  destruct event; cbn [observe_seed fmap option_fmap option_map]; intros [= <-]; [done|]. unfold give_up_on.
  rewrite list_elem_of_filter. intros [Hne Hin]. split; [done|]. intros name' [= -> _]. done.
Qed.

(** A node from the environment joins when it has an address to bind and could bind it.  It
    resolves every configured seed, waits in its readiness for exactly the ones that are not
    itself, waits for a write longer than a lease, and keeps a silent member at least a
    lease: by the time a member is dropped its lease is over. *)
Theorem gossip_joins `{Capabilities} (for_duration : Z → Z) env node_name transport g :
  (∀ d, for_duration d = d) →
  gossip_from_env for_duration env node_name transport = Some g →
  ∃ cfg, sync_config env node_name = Some cfg ∧ is_Some (transport (sc_bind cfg)) ∧
    go_me g = node_name ∧ 0 < go_lease_ms g ∧ go_write_wait_ms g = go_lease_ms g + 1000 ∧
    (∀ seed, seed ∈ go_unmet g ↔ seed ≠ node_name ∧ seed ∈ (sc_seeds cfg).*1) ∧
    (∃ advertise dead rest, go_calls g = BSpawn node_name dead (mkResolution 1000 30 15000 (sc_seeds cfg)) advertise :: BJoin "s3cache" :: rest ∧
      go_lease_ms g <= dead ∧ BAttach (ADeclare (capabilities (go_consistency g))) ∈ rest).
Proof.
  intros Hd. unfold gossip_from_env. intros (cfg & Hc & Hb)%bind_Some. unfold new_sync, bind in Hb.
  apply bind_Some in Hb as (addr & Ht & [= <-]). exists cfg.
  assert (Hcfg : sc_node_id cfg = node_name ∧ sc_lease_ms cfg = parse_lease_ms (var env "S3CACHE_LEASE_MS")).
  { unfold sync_config in Hc. apply bind_Some in Hc as (bnd & _ & [= <-]). done. }
  destruct Hcfg as [Hme Hl]. destruct (lease_positive (var env "S3CACHE_LEASE_MS")) as [Hpos Hle]. rewrite <- Hl in Hpos, Hle.
  cbn [attach_node attach lease_config go_me go_lease_ms go_write_wait_ms go_unmet go_calls go_consistency]. unfold lease_config. rewrite !Hd.
  rewrite add_seeds. split_and!; [done|by eexists|done|done|done| |].
  - intros seed. unfold expect_seeds, expected_seeds. cbn [app]. rewrite list_elem_of_filter, Hme. done.
  - rewrite Hme. eexists _, _, _. split_and!; [reflexivity|done|]. apply list_elem_of_fmap_2.
    rewrite app_assoc. apply elem_of_app. right. by left.
Qed.

#[local] Instance demo_caps : Capabilities := { CAP_ACKS := "acks"; CAP_LEASE := "lease" }.

(** A uniform configuration: the node's own entry is resolved but not waited for, and the
    malformed one is dropped. *)
Example node_joins :
  let env := λ key,
    if bool_decide (key = "S3CACHE_GOSSIP_BIND") then Some "0.0.0.0:7100"
    else if bool_decide (key = "S3CACHE_GOSSIP_SEEDS") then Some "node-0=node-0.svc:7100, node-1=node-1.svc:7100,junk" else None in
  gossip_from_env id env "node-0" (λ _, None) = None ∧
  (λ g, (go_unmet g, go_write_wait_ms g, observe_seed (SeedUnresolved "node-1" "node-1.svc:7100") (Some (go_unmet g)))) <$>
    gossip_from_env id env "node-0" (λ _, Some (Some "10.0.0.1:7100")) = Some (["node-1"], 3000, Some []).
Proof. vm_compute. by split. Qed.
